(* ===== verification/_CoqProject ===== *)
-Q . S2P
Prelude.v
Chrono.v
F64.v
Encoding.v
Beats.v
Tempo.v
Timeline.v
GhostXForm.v
TimelineSync.v
Phase.v
Entries.v
Payload.v
Messages.v
Measurement.v
Sessions.v
Peers.v
SessionApi.v
RtQueue.v
RtAccepted.v
Controller.v
BasicLink.v
Lifecycle.v
Dispatch.v
IoContext.v
Gateway.v
AudioQueue.v
AudioStream.v
WireString.v
AudioPayload.v
AudioResizer.v
AudioCodec.v
AudioRegistry.v
AudioSink.v
AudioEngine.v
AudioHandshake.v
AudioLifecycle.v
SendGate.v
AudioApi.v
Collections.v
Topology.v
NetworkScan.v
MultiInterface.v
Interfaces.v
Routes.v
InterfaceScan.v
MeasurementJob.v
SessionsLoop.v
Remeasurement.v
MeasurementService.v
Notifications.v
TempoFlow.v
Messenger.v
Discovery.v
Witnesses.v
AudioWitnesses.v
DiscoveryWitnesses.v
