(* ===== verification/Prelude.v ===== *)
(** * Ableton Link in Rust: a verification development

    The program (under src/src) lets music applications on one network share
    tempo, beat, phase and playback.  A node announces its session, timeline
    and playback state by multicast; a node that hears of another session
    measures the other's clock with pings, and joins when the measurement says
    that session is older.  Applications read the session through a client
    state in host time and commit edits to it, from any thread and, without
    blocking, from the audio thread.  Link Audio adds channels of sound: a peer
    announces its sinks, another subscribes to one of them, and the audio it
    commits is cut into messages that say where on the session's beat grid
    they belong.

    ** Parts, and where they are modelled

    - Time and beats.  [Chrono] (chrono durations, a parameter with its
      documented laws, and the helpers of link/mod.rs), [F64] (IEEE doubles
      and their exact decoding), [Beats], [Tempo], [Timeline] and
      [TimelineSync] (link/beats.rs, link/tempo.rs, link/timeline.rs),
      [GhostXForm] (link/ghostxform.rs), [Phase] (link/phase.rs).
    - The wire.  [Encoding] (encoding.rs, link/encoding.rs) with the strings of
      encoding.rs in [WireString], [Entries] (the
      payload entries of link/node.rs, link/sessions.rs, link/state.rs,
      link/measurement.rs, link/audio_endpoint.rs), [Payload]
      (link/payload.rs), [Messages] (discovery/messages.rs,
      link/pingresponder.rs).
    - Agreement between nodes.  [Measurement] (link/measurement.rs,
      link/median.rs, link/linear_regression.rs, link/host_time_filter.rs),
      [Sessions] (link/sessions.rs), [Peers] (discovery/peers.rs);
      [MeasurementJob] (link/measurement.rs: a measurement as its tasks, and
      the registrations that dispatch pongs), [MeasurementService]
      (link/measurement.rs: the service that turns requests into such jobs),
      [SessionsLoop] (the event loop of link/sessions.rs, between the
      measurement service and the joins), [Remeasurement] (link/sessions.rs: a
      retry that its caller owns).
    - The application.  [SessionApi] (the SessionState of link/mod.rs),
      [RtQueue] and [RtAccepted] (link/safe_rt_session_state.rs and
      link/atomic_session_state.rs), [Controller] (SessionCommit of
      link/controller.rs, which ties registry, peers and client together),
      [BasicLink] (link/mod.rs: captures and commits of both threads, the
      audio thread's view and edits on their way to the controller and back,
      the playback callback).
    - The lifecycle.  [Dispatch] (the gate of link/controller.rs and the
      consumers behind it, poll by poll), [Lifecycle] (enable, disable and the
      loop that applies announced changes, seen from above the gates),
      [Notifications] (the callbacks for the tempo and for the channel list),
      [TempoFlow] (the tasks of link/controller.rs that commit a change, up to
      the application's callback), [IoContext] (platform/io_context.rs and
      platform/thread.rs: the thread all of this runs on, from its start to its
      join).
    - Discovery.  [Gateway] (discovery/gateway.rs: deadlines, goodbyes and the
      pruning loop), [Topology] (discovery/topology.rs), [NetworkScan]
      (platform/network.rs and discovery/interface_scanner.rs),
      [MultiInterface] (discovery/multi_interface_messenger.rs, driven by that
      scanner),
      [Interfaces] and [Routes] (discovery/messenger.rs: registrations of
      interfaces with their leases, and the routes to measure peers by),
      [InterfaceScan] (the loop that scans for interfaces and reconciles),
      [Messenger] (its receive and delivery loops, replies and broadcasts),
      [Discovery] (an announcement on its whole way).  [Collections] has the
      lemmas on maps and lists they share.
    - Link Audio (link_audio/).  [AudioQueue] (queue.rs, the pool of buffers
      between the audio thread and the sender), [AudioStream] (encoding.rs and
      error.rs), [AudioPayload] (payload.rs and messages.rs), [AudioResizer]
      (buffer.rs and resizer.rs), [AudioCodec] (codec.rs), [AudioRegistry]
      (receivers.rs, channels.rs, network_metrics.rs), [AudioSink] (sink.rs,
      source.rs, beat_time_mapping.rs), [AudioEngine] (engine.rs: the state
      behind its mutex), [AudioHandshake] (two engines talking),
      [AudioLifecycle] (engine.rs: epochs, tasks, end and shutdown), [SendGate]
      (engine.rs: the gate between the tasks that send and what silences them),
      [AudioApi] (api.rs).
    - [Witnesses], [AudioWitnesses] and [DiscoveryWitnesses] apply the
      theorems to concrete nodes.

    ** How code becomes definitions

    A Rust function is a Rocq function of the same name on the same branches;
    a [Result] is a [result], a panic-free [Option] an [option].  Integers are
    [Z] with the source's own clamping, wrapping or checking written out, so
    every overflow path is visible.  Doubles are the Standard Library's
    [SpecFloat] at binary64, hence executable.  State behind a mutex is a
    record, and what runs while the lock is held is one function of it;
    [sessions_step], [commit_step] and [thread_step] interleave these
    critical sections (for [RtAccepted] the individual atomic accesses) in any
    order.  A future that waits between two sections is a state that says where
    it waits, and a step that drops it there: [gate_step], [gateway_step],
    [messenger_step], [multi_step], [scan_step], [job_step], [service_step], [loop_step],
    [remeasurement_step], [controller_step], [flow_step], [link_step],
    [td_step] and [io_step].  A shared
    allocation compared by address, such as a session's incarnation or an
    interface's registration, is a number that is never used again.  Clock readings, random identifiers and whether a [try_lock]
    succeeds are arguments.  Interfaces between components are classes:
    [Chrono]/[ChronoLaws], [FloatDecode] with its laws,
    [EncodeDecode]/[WireLaws] and [Entry]/[EntryLaws], against which payloads
    and messages are proved, [ResizerSink] for what takes the resizer's
    blocks, and [Mpsc]/[MpscLaws] for tokio's bounded channels, a parameter.

    ** What the theorems show

    - Arithmetic: the 128-bit and 256-bit routines compute the exact rational
      result, rounded once and saturated once
      ([microbeats_from_nanos_exact], [nanos_from_microbeats_exact],
      [host_to_ghost_wide_exact], [ghost_nanos_to_host_units_exact]); time and
      beat, host and ghost time, and phase encoding round-trip.
    - Phase: next and closest match are the least and the nearest beat of the
      wanted phase; a forced beat falls exactly on the given time wherever a
      timeline of its tempo can have it there ([force_beat_at_time_exact] says for
      which periods).
    - Timelines: edits keep beat zero and tempo and only ever move the
      session's origin forward; every refusal has its reason.
    - Wire: values, payloads and messages are read back as written, decoding
      ends on every input, unknown entries are skipped, malformed ones refused.
    - Sessions and peers: measurements conserve sessions, captured edit origins
      detect every change, peers stay unique.
    - Measurements: each ends with one result ([measurement_ends]), and no
      session that waits for one is forgotten ([no_session_orphaned]);
      registrations of pongs do not leak ([registrations_do_not_leak]).  The
      service refines the one that the event loop of the sessions assumes
      ([service_refines]) and answers every request once
      ([requests_answered_once]); a retry asks once and only for a session that
      is still current ([remeasurement_asks_once]).
    - Discovery: what a node announces ends up in the registry of a node that
      hears it ([announcement_reaches_registry]); a newer datagram withdraws an
      older one at every stage ([superseded_never_delivered]); every peer known
      has a deadline, is not dropped before it and is reported after it; a lease
      on an interface ends with its registration ([lease_dies_with_registration]);
      what the scan registers is what it has seen of the network as it is at that
      moment, and what it sleeps on is what it last applied
      ([scan_rests_on_current_network]).  The multi-interface messenger neither
      loses nor doubles what it is given ([multi_interface_delivers]).
    - The lifecycle: no work crosses from one lifecycle to the next
      ([work_never_crosses_lifecycles]), also when enable and disable are dropped
      half-way ([lifecycle_is_orderly]); both can complete from every state
      ([lifecycle_completes], [start_can_complete]); a disabled node is alone.
      The IO thread leaves no task, work or handle behind
      ([io_thread_leaves_nothing]), and shutting it down returns
      ([io_shutdown_returns]).
    - Callbacks: no change goes unreported, and no two calls overlap
      ([no_change_lost], [tempo_catches_up]); a tempo that a task commits reaches
      the application's callback, though commits may overtake a call under way
      ([session_tempo_reaches_callback]), as playback does
      ([playback_callback_catches_up]).
    - Controller and realtime: what other threads see is always one coherent
      snapshot; a captured edit is applied at most once and decided at once;
      refused work changes nothing; proposals and results of the audio thread
      are neither lost nor duplicated, and its lock-free read never meets a
      slot under construction.  An edit of the audio thread comes back in its own
      view ([audio_edit_round_trip]), is decided once
      ([audio_requests_decided_once]), and that view never goes back
      ([audio_view_never_goes_back]).
    - Link Audio, the pool: any interleaving of writer and reader behaves as
      one queue that a discard empties, of slots the writer has asked for since
      as well ([queue_refines]), and no slot is lost.
    - Link Audio, the sound: the samples committed are the samples played,
      whatever rates and tempi, in mono or stereo, follow one another
      ([audio_stream_arrives]), in messages of at most 576 bytes; what a decoder accepts is sound.
    - Link Audio, the session: announcements make channels known, requests
      connect sinks, goodbyes reach everybody; the registry lists only channels
      it can reach; a sink hands out buffers exactly when somebody listens and its
      pool allows ([engine_invariant]).
    - Link Audio, the end: nothing that quotes an old epoch, of callers and of
      all tasks, changes anything ([stale_epoch_dead]),
      and a paused engine stays quiet until it is resumed.  What a teardown sends
      are goodbyes, and no task sends after them ([goodbyes_come_last]), and a shutdown returns
      ([engine_shutdown_returns]).
      [late_request_oversized], [shutdown_race_reopens], [second_source_lost],
      [begin_beats_ignores_session] and [pause_in_source_callback_hangs] record where the code falls short of
      its documentation.
    - Discovery, again: [switch_unreliable], [removed_interface_still_heard] and
      [receivers_pile_up] record what the multi-interface messenger's switch and
      its receive tasks do not do.
    - Measurement: [second_sample_never_taken] records that between conforming
      nodes half of the intended clock samples are never taken.

    ** Bounds and fuel

    [decode_loop] takes the number of input bytes plus one as fuel and each
    pass consumes an eight-byte header, so it cannot run out
    ([payload_decode_terminates] shows a result for every input).  The Euclid
    loop of [Phase] divides 1000 by the quantum first, so its remainder is
    below 1000 after one round and falls in each; fuel 1002 is enough for
    every quantum ([euclid_loop_1000]).  The restoring division of [GhostXForm] runs over
    the fixed number of bits the source names.  The loops of Link Audio over
    bytes ([parse_entries], [captured_entries], [decode_samples],
    [utf8_lossy]) take a round per byte, and one more where the last round
    only finds the end; [process_slots] takes a round per slot of the pool and
    one more ([tasks_terminate] shows that neither runs out).  [prune_loop] takes
    one turn per deadline and one more ([silent_peers_time_out]).  [queue_refines]
    and [stale_epoch_dead] assume that a 64-bit epoch does not come round.

    ** What is assumed of what runs around the code

    An application's callback, the poll of a task and a piece of blocking work
    return; blocking work does not shut down the context it runs on.  tokio polls
    the runtime's main future again after at most [event_interval] tasks, and one
    such poll does not exhaust its budget.  The operating system reports a change
    of the network no later than a scan can see it.  [BasicLink] takes the accepted
    view as the slot published and the one pending; the atomic accesses below it
    are in [RtAccepted].

    ** Not modelled

    Sockets and what the operating system tells of them: creating them, the
    packet metadata that names the interface a datagram came in on
    (discovery/ingress.rs), the enumeration of interfaces (a third-party crate),
    and the clocks of platform/.  Their results are arguments of the operations
    that use them.  tokio's scheduler, timers and channels appear as what they
    allow: any enabled step may be next, and a channel is a queue of its
    capacity.  The lengths of retry delays and of the tasks' intervals do not
    appear.  The construction of BasicLink and Controller and the public wrappers
    that forward to one modelled operation are left out, as is the atomic count of
    peers.
    [SessionsLoop] does not cover a rejected timing, which takes the current
    session back.  The triple buffer of link/atomic_session_state.rs belongs to a
    crate outside the repository.  Codecs of floats other than tempo are not
    modelled.  Panics of callbacks, but for the one of the channel
    list ([Notifications]), and poisoned locks are left out. *)

From stdpp Require Import base list numbers.
From Stdlib Require Import ZArith Lia Sorted.

#[global] Open Scope Z_scope.

(** ** Machine integers

    A Rust integer of a given width is a [Z]; the predicates below say that a
    value fits the width, and the operations that can leave it are written out
    as the source writes them: [wrap_*] for plain arithmetic, [clamp_*] for
    the saturating operations and [checked_*] for the checked ones. *)

Definition i64_MIN : Z := -9223372036854775808.
Definition i64_MAX : Z := 9223372036854775807.
Definition i128_MIN : Z := -170141183460469231731687303715884105728.
Definition i128_MAX : Z := 170141183460469231731687303715884105727.
Definition u32_MAX : Z := 4294967295.
Definition u64_MAX : Z := 18446744073709551615.
Definition u128_MAX : Z := 340282366920938463463374607431768211455.

Definition in_i64 (z : Z) : Prop := i64_MIN <= z <= i64_MAX.
Definition in_i128 (z : Z) : Prop := i128_MIN <= z <= i128_MAX.
Definition in_u8 (z : Z) : Prop := 0 <= z <= 255.
Definition in_u16 (z : Z) : Prop := 0 <= z <= 65535.
Definition in_u32 (z : Z) : Prop := 0 <= z <= u32_MAX.
Definition in_u64 (z : Z) : Prop := 0 <= z <= u64_MAX.
Definition in_u128 (z : Z) : Prop := 0 <= z <= u128_MAX.

(** [Ord::clamp]. *)
Definition clampZ (lo hi z : Z) : Z := if z <? lo then lo else if hi <? z then hi else z.

Definition clamp_i64 : Z -> Z := clampZ i64_MIN i64_MAX.
Definition clamp_i128 : Z -> Z := clampZ i128_MIN i128_MAX.
Definition clamp_u128 : Z -> Z := clampZ 0 u128_MAX.

(** Two's-complement wrap-around of plain arithmetic (release profile). *)
Definition wrap_i64 (z : Z) : Z := (z + 2 ^ 63) mod 2 ^ 64 - 2 ^ 63.
Definition wrap_i128 (z : Z) : Z := (z + 2 ^ 127) mod 2 ^ 128 - 2 ^ 127.
Definition wrap_u128 (z : Z) : Z := z mod 2 ^ 128.

Definition fits_i64 (z : Z) : bool := (i64_MIN <=? z) && (z <=? i64_MAX).
Definition fits_i128 (z : Z) : bool := (i128_MIN <=? z) && (z <=? i128_MAX).

(** [i128::checked_add], [checked_mul] and [i64::try_from]. *)
Definition checked_i64 (z : Z) : option Z := if fits_i64 z then Some z else None.
Definition checked_i128 (z : Z) : option Z := if fits_i128 z then Some z else None.

(** Unfolds every width predicate and constant so that [lia] sees literals. *)
Ltac unfold_widths :=
  unfold in_i64, in_i128, in_u8, in_u16, in_u32, in_u64, in_u128,
    clamp_i64, clamp_i128, clamp_u128, clampZ,
    i64_MIN, i64_MAX, i128_MIN, i128_MAX, u32_MAX, u64_MAX, u128_MAX in *.

Ltac zlia := unfold_widths; lia.

(** Splits every boolean integer comparison a goal branches on. *)
Ltac zcases :=
  repeat match goal with
         | |- context [?a <? ?b] => destruct (Z.ltb_spec a b)
         | |- context [?a <=? ?b] => destruct (Z.leb_spec a b)
         | |- context [?a =? ?b] => destruct (Z.eqb_spec a b)
         end.

Create HintDb widths.

(** [lia] knows [Z.min] and [Z.max]: the form of [clampZ] to reason with. *)
Lemma clampZ_minmax lo hi z : lo <= hi -> clampZ lo hi z = Z.max lo (Z.min hi z).
Proof. unfold clampZ. intros; zcases; lia. Qed.

(** Rewrites every clamp to [Z.min] and [Z.max], then [lia]. *)
Ltac clamplia :=
  unfold clamp_i64, clamp_i128, clamp_u128 in *;
  rewrite ?clampZ_minmax in * by zlia; zlia.

Lemma clampZ_id lo hi z : lo <= z <= hi -> clampZ lo hi z = z.
Proof. unfold clampZ. intros; zcases; lia. Qed.

Lemma clampZ_range lo hi z : lo <= hi -> lo <= clampZ lo hi z <= hi.
Proof. unfold clampZ. intros; zcases; lia. Qed.

Lemma clampZ_mono lo hi a b : lo <= hi -> a <= b -> clampZ lo hi a <= clampZ lo hi b.
Proof. unfold clampZ. intros; zcases; lia. Qed.

Lemma clamp_i64_range z : in_i64 (clamp_i64 z).
Proof. apply clampZ_range. zlia. Qed.

Lemma clamp_i128_range z : in_i128 (clamp_i128 z).
Proof. apply clampZ_range. zlia. Qed.

Lemma clamp_i64_id z : in_i64 z -> clamp_i64 z = z.
Proof. apply clampZ_id. Qed.

Lemma clamp_i128_id z : in_i128 z -> clamp_i128 z = z.
Proof. apply clampZ_id. Qed.

Lemma in_i64_i128 z : in_i64 z -> in_i128 z.
Proof. zlia. Qed.

Lemma wrap_i64_id z : in_i64 z -> wrap_i64 z = z.
Proof. unfold wrap_i64. intros H. rewrite Z.mod_small; zlia. Qed.

Lemma wrap_i128_id z : in_i128 z -> wrap_i128 z = z.
Proof. unfold wrap_i128. intros H. rewrite Z.mod_small; zlia. Qed.

Lemma wrap_u128_id z : in_u128 z -> wrap_u128 z = z.
Proof. unfold wrap_u128. intros H. rewrite Z.mod_small; zlia. Qed.

Lemma wrap_i128_range z : in_i128 (wrap_i128 z).
Proof.
  unfold wrap_i128. pose proof (Z.mod_pos_bound (z + 2 ^ 127) (2 ^ 128) ltac:(lia)). zlia.
Qed.

Lemma wrap_u128_range z : in_u128 (wrap_u128 z).
Proof. unfold wrap_u128. pose proof (Z.mod_pos_bound z (2 ^ 128) ltac:(lia)). zlia. Qed.

Lemma checked_i128_Some z w : checked_i128 z = Some w <-> in_i128 z /\ w = z.
Proof.
  unfold checked_i128, fits_i128, in_i128. destruct (Z.leb_spec i128_MIN z), (Z.leb_spec z i128_MAX);
    simpl; intuition (congruence || lia).
Qed.

Lemma checked_i64_Some z w : checked_i64 z = Some w <-> in_i64 z /\ w = z.
Proof.
  unfold checked_i64, fits_i64, in_i64. destruct (Z.leb_spec i64_MIN z), (Z.leb_spec z i64_MAX);
    simpl; intuition (congruence || lia).
Qed.

Lemma fits_i64_spec z : fits_i64 z = true <-> in_i64 z.
Proof. unfold fits_i64, in_i64. rewrite andb_true_iff, !Z.leb_le. reflexivity. Qed.

Lemma checked_i128_None z : checked_i128 z = None <-> ~ in_i128 z.
Proof.
  unfold checked_i128, fits_i128, in_i128. destruct (Z.leb_spec i128_MIN z), (Z.leb_spec z i128_MAX);
    simpl; intuition (congruence || lia).
Qed.

#[export] Hint Resolve clamp_i64_range clamp_i128_range in_i64_i128 wrap_i128_range
  wrap_u128_range : widths.

(** ** Rounding a quotient half away from zero: the reference definition

    [rdiv n d] is the integer nearest to [n / d], a tie going away from zero. *)

Definition rdiv (n d : Z) : Z := Z.sgn n * Z.sgn d * ((2 * Z.abs n + Z.abs d) / (2 * Z.abs d)).

Lemma rdiv_nonneg_bounds a b :
  0 <= a -> 0 < b ->
  2 * b * ((2 * a + b) / (2 * b)) <= 2 * a + b < 2 * b * ((2 * a + b) / (2 * b)) + 2 * b.
Proof.
  intros Ha Hb. pose proof (Z.div_mod (2 * a + b) (2 * b) ltac:(lia)).
  pose proof (Z.mod_pos_bound (2 * a + b) (2 * b) ltac:(lia)). lia.
Qed.

Lemma rdiv_nonneg a b : 0 <= a -> 0 < b -> rdiv a b = (2 * a + b) / (2 * b).
Proof.
  intros Ha Hb. unfold rdiv. rewrite (Z.abs_eq a), (Z.abs_eq b), (Z.sgn_pos b) by lia.
  destruct (Z.eq_dec a 0) as [->|]; [|rewrite Z.sgn_pos by lia; lia].
  rewrite Z.div_small; simpl; lia.
Qed.

Lemma rdiv_opp_l n d : rdiv (- n) d = - rdiv n d.
Proof. unfold rdiv. rewrite Z.sgn_opp, Z.abs_opp. ring. Qed.

Lemma rdiv_opp_r n d : rdiv n (- d) = - rdiv n d.
Proof. unfold rdiv. rewrite Z.sgn_opp, Z.abs_opp. ring. Qed.

Lemma rdiv_opp_opp n d : rdiv (- n) (- d) = rdiv n d.
Proof. rewrite rdiv_opp_l, rdiv_opp_r. lia. Qed.

Lemma rdiv_nonneg_unique a b q :
  0 <= a -> 0 < b -> 2 * b * q <= 2 * a + b < 2 * b * q + 2 * b -> rdiv a b = q.
Proof.
  intros Ha Hb Hq. rewrite rdiv_nonneg by lia.
  pose proof (rdiv_nonneg_bounds a b Ha Hb). nia.
Qed.

(** A case split on the signs reduces a statement about [rdiv] to the
    nonnegative one. *)
Lemma rdiv_sign_cases n d :
  d <> 0 ->
  rdiv n d = (if Bool.eqb (n <? 0) (d <? 0) then 1 else -1) * rdiv (Z.abs n) (Z.abs d).
Proof.
  intros Hd. destruct (Z.ltb_spec n 0), (Z.ltb_spec d 0); simpl Bool.eqb; cbv iota.
  - rewrite (Z.abs_neq n), (Z.abs_neq d), rdiv_opp_opp by lia. lia.
  - rewrite (Z.abs_neq n), (Z.abs_eq d), rdiv_opp_l by lia. lia.
  - rewrite (Z.abs_eq n), (Z.abs_neq d), rdiv_opp_r by lia. lia.
  - rewrite (Z.abs_eq n), (Z.abs_eq d) by lia. lia.
Qed.

Lemma rdiv_abs n d : d <> 0 -> Z.abs (rdiv n d) = rdiv (Z.abs n) (Z.abs d).
Proof.
  intros Hd. rewrite (rdiv_sign_cases n d Hd).
  assert (0 <= rdiv (Z.abs n) (Z.abs d)).
  { rewrite rdiv_nonneg by lia. apply Z.div_pos; lia. }
  destruct (Bool.eqb _ _); lia.
Qed.

(** [rdiv] is within half a divisor of the exact quotient. *)
Lemma rdiv_error n d : d <> 0 -> 2 * Z.abs (rdiv n d * d - n) <= Z.abs d.
Proof.
  intros Hd. rewrite (rdiv_sign_cases n d Hd).
  assert (2 * Z.abs (rdiv (Z.abs n) (Z.abs d) * Z.abs d - Z.abs n) <= Z.abs d) as H.
  { rewrite rdiv_nonneg by lia. pose proof (rdiv_nonneg_bounds (Z.abs n) (Z.abs d)). lia. }
  destruct (Z.ltb_spec n 0), (Z.ltb_spec d 0); simpl Bool.eqb; cbv iota; lia.
Qed.

Lemma rdiv_sign n d : 0 < d -> (0 <= n -> 0 <= rdiv n d) /\ (n <= 0 -> rdiv n d <= 0).
Proof.
  intros Hd.
  assert (forall a, 0 <= a -> 0 <= rdiv a d) as P
    by (intros; rewrite rdiv_nonneg by lia; apply Z.div_pos; lia).
  split; [apply P|]. intros Hn. specialize (P (- n) ltac:(lia)). rewrite rdiv_opp_l in P. lia.
Qed.

Lemma rdiv_exact k d : d <> 0 -> rdiv (k * d) d = k.
Proof.
  intros Hd. unfold rdiv. rewrite Z.sgn_mul, Z.abs_mul.
  replace (2 * (Z.abs k * Z.abs d) + Z.abs d) with (Z.abs k * (2 * Z.abs d) + Z.abs d) by lia.
  rewrite Z.div_add_l, (Z.div_small (Z.abs d)) by lia.
  pose proof (Z.sgn_abs k). destruct (Z.lt_trichotomy d 0) as [|[]]; [|lia|].
  - rewrite (Z.sgn_neg d) by lia. nia.
  - rewrite (Z.sgn_pos d) by lia. nia.
Qed.

(** A whole multiple of the divisor of the same sign moves out of [rdiv]. *)
Lemma rdiv_add_same_sign k x d :
  d <> 0 -> 0 <= k * d * x -> rdiv (k * d + x) d = k + rdiv x d.
Proof.
  assert (forall k x d, 0 < d -> 0 <= k -> 0 <= x -> rdiv (k * d + x) d = k + rdiv x d) as P.
  { intros k' x' d' Hd Hk Hx. rewrite !rdiv_nonneg by nia.
    replace (2 * (k' * d' + x') + d') with (k' * (2 * d') + (2 * x' + d')) by lia.
    now rewrite Z.div_add_l by lia. }
  assert (forall k x d, 0 < d -> 0 <= k * d * x -> rdiv (k * d + x) d = k + rdiv x d) as Q.
  { intros k' x' d' Hd Hs. destruct (Z.lt_trichotomy x' 0) as [Hx|[->|Hx]].
    - specialize (P (- k') (- x') d' Hd ltac:(nia) ltac:(lia)).
      replace (- k' * d' + - x') with (- (k' * d' + x')) in P by lia.
      rewrite !rdiv_opp_l in P. lia.
    - rewrite Z.add_0_r, rdiv_exact by lia. unfold rdiv. simpl. lia.
    - apply P; nia. }
  intros Hd Hs. destruct (Z.lt_trichotomy d 0) as [H|[H|H]]; [|lia|now apply Q].
  specialize (Q k (- x) (- d) ltac:(lia) ltac:(nia)).
  replace (k * - d + - x) with (- (k * d + x)) in Q by lia.
  now rewrite !rdiv_opp_opp in Q.
Qed.

Lemma rdiv_abs_le n d : d <> 0 -> Z.abs (rdiv n d) <= Z.abs n.
Proof.
  intros Hd. rewrite rdiv_abs by assumption. rewrite rdiv_nonneg by lia.
  apply Z.lt_succ_r, Z.div_lt_upper_bound; nia.
Qed.

Lemma rdiv_mono_num a b d : 0 < d -> a <= b -> rdiv a d <= rdiv b d.
Proof.
  intros Hd Hab. destruct (Z.le_gt_cases 0 a).
  - rewrite !rdiv_nonneg by lia. apply Z.div_le_mono; lia.
  - replace a with (- (- a)) by lia. rewrite rdiv_opp_l, (rdiv_nonneg (- a)) by lia.
    pose proof (Z.div_pos (2 * - a + d) (2 * d) ltac:(lia) ltac:(lia)).
    destruct (Z.le_gt_cases 0 b).
    + rewrite (rdiv_nonneg b) by lia. pose proof (Z.div_pos (2 * b + d) (2 * d)). lia.
    + replace b with (- (- b)) by lia. rewrite rdiv_opp_l, rdiv_nonneg by lia.
      pose proof (Z.div_le_mono (2 * - b + d) (2 * - a + d) (2 * d)). lia.
Qed.

(** From a quotient and remainder to the rounded quotient. *)
Lemma rdiv_split a d q f r :
  0 <= a -> 0 < d -> a = (q + f) * d + r -> 0 <= r < d -> 0 <= q + f ->
  rdiv a d = q + f + (if (d + 1) / 2 <=? r then 1 else 0).
Proof.
  intros Ha Hd -> Hr Hq. apply rdiv_nonneg_unique; [lia|lia|].
  pose proof (Z.div_mod (d + 1) 2 ltac:(lia)). pose proof (Z.mod_pos_bound (d + 1) 2 ltac:(lia)).
  zcases; lia.
Qed.

Lemma rdiv_scale a b c : 0 <= a -> 0 < b -> 0 < c -> rdiv (a * c) (b * c) = rdiv a b.
Proof.
  intros. rewrite !rdiv_nonneg by nia.
  replace (2 * (a * c) + b * c) with ((2 * a + b) * c) by ring.
  replace (2 * (b * c)) with (2 * b * c) by ring. apply Z.div_mul_cancel_r; lia.
Qed.

(** ** Results and the question-mark operator *)

Inductive result (A E : Type) : Type :=
| Ok (a : A)
| Err (e : E).
Arguments Ok {A E} a.
Arguments Err {A E} e.

Declare Scope rust_scope.
Delimit Scope rust_scope with rust.

(** [let? x := e in k] is [let x = e?; k]; [let! x := o in k] is the same on
    an [Option]. *)
Notation "'let?' p := c 'in' k" :=
  (match c with Ok p => k | Err e => Err e end)
  (at level 200, p pattern, c at level 200, k at level 200) : rust_scope.
Notation "'let!' p := c 'in' k" :=
  (match c with Some p => k | None => None end)
  (at level 200, p pattern, c at level 200, k at level 200) : rust_scope.

#[global] Open Scope rust_scope.

Definition map_err {A E F} (f : E -> F) (r : result A E) : result A F :=
  match r with Ok a => Ok a | Err e => Err (f e) end.

Definition ok_or {A E} (o : option A) (e : E) : result A E :=
  match o with Some a => Ok a | None => Err e end.

Definition result_ok {A E} (r : result A E) : option A :=
  match r with Ok a => Some a | Err _ => None end.

#[global] Instance result_eq_dec {A E} `{EqDecision A, EqDecision E} : EqDecision (result A E).
Proof. solve_decision. Defined.

(** ** Stable sorting

    [sort_by leb] is the stable sort by a boolean total preorder, what Rust's
    [sort_by] and [sort_by_key] compute for one. *)

Section Sort.
Context {A : Type} (leb : A -> A -> bool).

Fixpoint insert_by (x : A) (l : list A) : list A :=
  match l with
  | [] => [x]
  | y :: l' => if leb x y then x :: l else y :: insert_by x l'
  end.

Definition sort_by (l : list A) : list A := foldr insert_by [] l.

Lemma insert_by_perm x l : insert_by x l ≡ₚ x :: l.
Proof.
  induction l as [|y l IH]; simpl; [reflexivity|]. destruct (leb x y); [reflexivity|].
  rewrite IH. constructor.
Qed.

Lemma sort_by_perm l : sort_by l ≡ₚ l.
Proof. induction l as [|x l IH]; simpl; [reflexivity|]. now rewrite insert_by_perm, IH. Qed.

Lemma sort_by_length l : length (sort_by l) = length l.
Proof. apply Permutation_length, sort_by_perm. Qed.

Context (P : A -> Prop).
Context (leb_total : forall x y, P x -> P y -> leb x y = false -> leb y x = true).
Context (leb_trans : forall x y z, P x -> P y -> P z -> leb x y = true -> leb y z = true -> leb x z = true).

Lemma insert_by_sorted x l :
  P x -> Forall P l -> StronglySorted (fun a b => leb a b = true) l ->
  StronglySorted (fun a b => leb a b = true) (insert_by x l).
Proof.
  intros Hx HP HS. induction HS as [|y l HS IH HF]; simpl; [repeat constructor|].
  inversion HP as [|? ? Py Pl]; subst. destruct (leb x y) eqn:E.
  - constructor; [now constructor|]. constructor; [assumption|].
    rewrite Forall_forall in *. intros z Hz. apply (leb_trans x y z); auto.
  - constructor; [auto|]. rewrite insert_by_perm. constructor; auto.
Qed.

Lemma sort_by_sorted l : Forall P l -> StronglySorted (fun a b => leb a b = true) (sort_by l).
Proof.
  induction 1 as [|x l Hx Hl IH]; simpl; [constructor|]. apply insert_by_sorted; auto.
  now rewrite sort_by_perm.
Qed.

End Sort.
