(* ===== verification/Chrono.v ===== *)
(** Durations: the interface the crate uses of [chrono::Duration], and the
    conversions of src/src/link/mod.rs built on it ([micros],
    [duration_nanos], [duration_from_nanos], [round_ratio]).

    [chrono] is a dependency whose code is not part of the repository, so its
    [Duration] is a parameter: the class [Chrono] lists the operations that
    the crate calls and [ChronoLaws] the documented behaviour it relies on.
    [chrono_ref] is a concrete instance, used by the witnesses. *)

From stdpp Require Import base list numbers.
From Stdlib Require Import ZArith Lia.
From S2P Require Import Prelude.

(** ** The interface *)

Class Chrono := {
  Duration : Type;
  num_seconds : Duration -> Z;
  subsec_nanos : Duration -> Z;
  num_microseconds : Duration -> option Z;
  Duration_MIN : Duration;
  Duration_MAX : Duration;
  Duration_zero : Duration;
  Duration_seconds : Z -> Duration;
  Duration_nanoseconds : Z -> Duration;
  Duration_microseconds : Z -> Duration;
  Duration_add : Duration -> Duration -> Duration;
  Duration_neg : Duration -> Duration;
  Duration_eqb : Duration -> Duration -> bool;
  Duration_ltb : Duration -> Duration -> bool
}.

(** The number of nanoseconds a duration stands for, as documented:
    [subsec_nanos() + num_seconds() * 1_000_000_000]. *)
Definition nanos `{Chrono} (d : Duration) : Z := num_seconds d * 1000000000 + subsec_nanos d.

(** [Duration::MIN] and [Duration::MAX] are [-i64::MAX] and [i64::MAX]
    milliseconds. *)
Definition max_nanos : Z := i64_MAX * 1000000.

Class ChronoLaws `{Chrono} : Prop := {
  nanos_range d : - max_nanos <= nanos d <= max_nanos;
  nanos_inj a b : nanos a = nanos b -> a = b;
  subsec_nanos_range d : - 1000000000 < subsec_nanos d < 1000000000;
  nanos_MIN : nanos Duration_MIN = - max_nanos;
  nanos_MAX : nanos Duration_MAX = max_nanos;
  nanos_zero : nanos Duration_zero = 0;
  (** [seconds] panics outside the representable range. *)
  nanos_seconds s :
    - max_nanos <= s * 1000000000 <= max_nanos -> nanos (Duration_seconds s) = s * 1000000000;
  nanos_nanoseconds n : in_i64 n -> nanos (Duration_nanoseconds n) = n;
  nanos_microseconds n : in_i64 n -> nanos (Duration_microseconds n) = n * 1000;
  (** [+] panics when the sum is not representable. *)
  nanos_add a b :
    - max_nanos <= nanos a + nanos b <= max_nanos ->
    nanos (Duration_add a b) = nanos a + nanos b;
  nanos_neg d : nanos (Duration_neg d) = - nanos d;
  (** Whole microseconds, truncated towards zero, or [None] on overflow. *)
  num_microseconds_spec d : num_microseconds d = checked_i64 (Z.quot (nanos d) 1000);
  Duration_eqb_spec a b : Duration_eqb a b = true <-> a = b;
  Duration_ltb_spec a b : Duration_ltb a b = true <-> nanos a < nanos b
}.

(** ** A concrete instance *)

Module ChronoRef.

Definition in_bounds (n : Z) : bool := (- max_nanos <=? n) && (n <=? max_nanos).

Record duration := MkDuration { dn : Z; dn_ok : in_bounds dn = true }.

Lemma in_bounds_clamp z : in_bounds (clampZ (- max_nanos) max_nanos z) = true.
Proof.
  unfold in_bounds. pose proof (clampZ_range (- max_nanos) max_nanos z ltac:(unfold max_nanos; zlia)).
  apply andb_true_intro; split; apply Z.leb_le; lia.
Qed.

Definition mk (z : Z) : duration := MkDuration _ (in_bounds_clamp z).

Lemma dn_mk z : - max_nanos <= z <= max_nanos -> dn (mk z) = z.
Proof. intros. now apply clampZ_id. Qed.

Lemma dn_range d : - max_nanos <= dn d <= max_nanos.
Proof.
  pose proof (dn_ok d) as H. unfold in_bounds in H. apply andb_prop in H as [H1 H2].
  apply Z.leb_le in H1, H2. lia.
Qed.

Lemma dn_inj a b : dn a = dn b -> a = b.
Proof.
  destruct a as [a Ha], b as [b Hb]. simpl. intros <-. f_equal.
  apply Eqdep_dec.UIP_dec, bool_dec.
Qed.

End ChronoRef.

#[global] Instance chrono_ref : Chrono := {
  Duration := ChronoRef.duration;
  num_seconds d := Z.quot (ChronoRef.dn d) 1000000000;
  subsec_nanos d := Z.rem (ChronoRef.dn d) 1000000000;
  num_microseconds d := checked_i64 (Z.quot (ChronoRef.dn d) 1000);
  Duration_MIN := ChronoRef.mk (- max_nanos);
  Duration_MAX := ChronoRef.mk max_nanos;
  Duration_zero := ChronoRef.mk 0;
  Duration_seconds s := ChronoRef.mk (s * 1000000000);
  Duration_nanoseconds := ChronoRef.mk;
  Duration_microseconds n := ChronoRef.mk (n * 1000);
  Duration_add a b := ChronoRef.mk (ChronoRef.dn a + ChronoRef.dn b);
  Duration_neg d := ChronoRef.mk (- ChronoRef.dn d);
  Duration_eqb a b := ChronoRef.dn a =? ChronoRef.dn b;
  Duration_ltb a b := ChronoRef.dn a <? ChronoRef.dn b
}.

Lemma chrono_ref_nanos (d : @Duration chrono_ref) : nanos d = ChronoRef.dn d.
Proof. unfold nanos. simpl. pose proof (Z.quot_rem' (ChronoRef.dn d) 1000000000). lia. Qed.

#[global] Instance chrono_ref_laws : @ChronoLaws chrono_ref.
Proof.
  constructor; intros; rewrite ?chrono_ref_nanos in *; simpl.
  - apply ChronoRef.dn_range.
  - now apply ChronoRef.dn_inj.
  - pose proof (Z.rem_bound_abs (ChronoRef.dn d) 1000000000). lia.
  - apply ChronoRef.dn_mk. unfold max_nanos; zlia.
  - apply ChronoRef.dn_mk. unfold max_nanos; zlia.
  - now apply ChronoRef.dn_mk.
  - now apply ChronoRef.dn_mk.
  - apply ChronoRef.dn_mk. unfold max_nanos; zlia.
  - apply ChronoRef.dn_mk. unfold max_nanos; zlia.
  - now apply ChronoRef.dn_mk.
  - apply ChronoRef.dn_mk. pose proof (ChronoRef.dn_range d). lia.
  - reflexivity.
  - rewrite Z.eqb_eq. split; [apply ChronoRef.dn_inj | now intros ->].
  - apply Z.ltb_lt.
Qed.

(** ** Conversions of src/src/link/mod.rs *)

Section Conversions.
Context `{Ch : Chrono}.

(** [micros]: saturates at the [i64] limits. *)
Definition micros (d : Duration) : Z :=
  match num_microseconds d with
  | Some us => us
  | None => if Duration_ltb d Duration_zero then i64_MIN else i64_MAX
  end.

Definition duration_nanos (d : Duration) : Z := wrap_i128 (num_seconds d * 1000000000 + subsec_nanos d).

Definition duration_from_nanos (n : Z) : Duration :=
  let n := clampZ (duration_nanos Duration_MIN) (duration_nanos Duration_MAX) n in
  Duration_add (Duration_seconds (Z.quot n 1000000000))
               (Duration_nanoseconds (Z.rem n 1000000000)).

Definition Duration_leb (a b : Duration) : bool := negb (Duration_ltb b a).

End Conversions.

(** [round_ratio]; plain [i128] arithmetic, [div_ceil] on the magnitudes. *)
Definition round_ratio (numerator denominator : Z) : Z :=
  if denominator =? 0 then
    match numerator ?= 0 with
    | Lt => i128_MIN
    | Eq => 0
    | Gt => i128_MAX
    end
  else
    let quotient := wrap_i128 (Z.quot numerator denominator) in
    let remainder := Z.rem numerator denominator in
    if (Z.abs denominator + 1) / 2 <=? Z.abs remainder then
      wrap_i128 (quotient + (if Bool.eqb (numerator <? 0) (denominator <? 0) then 1 else -1))
    else quotient.

(** ** Their meaning *)

Definition clamp_dur : Z -> Z := clampZ (- max_nanos) max_nanos.

Ltac unfold_dur := unfold clamp_dur, max_nanos in *; unfold_widths.
Ltac durlia := unfold_dur; lia.

Section ConversionLemmas.
Context `{Laws : ChronoLaws}.

Lemma duration_nanos_eq d : duration_nanos d = nanos d.
Proof. apply wrap_i128_id. pose proof (nanos_range d). unfold nanos in *. durlia. Qed.

Lemma duration_nanos_range d : - max_nanos <= duration_nanos d <= max_nanos.
Proof. rewrite duration_nanos_eq. apply nanos_range. Qed.

Lemma duration_nanos_inj a b : duration_nanos a = duration_nanos b -> a = b.
Proof. rewrite !duration_nanos_eq. apply nanos_inj. Qed.

(** [duration_from_nanos] clamps and nothing else: it never reaches the
    panics of [seconds] and [+]. *)
Lemma duration_nanos_from n : duration_nanos (duration_from_nanos n) = clamp_dur n.
Proof.
  rewrite duration_nanos_eq. unfold duration_from_nanos.
  rewrite !duration_nanos_eq, nanos_MIN, nanos_MAX. fold (clamp_dur n).
  assert (- max_nanos <= clamp_dur n <= max_nanos) as R.
  { apply clampZ_range. durlia. }
  generalize dependent (clamp_dur n). intros m R.
  pose proof (Z.quot_rem' m 1000000000) as E.
  assert (0 <= m -> 0 <= Z.rem m 1000000000 < 1000000000) by (intros; apply Z.rem_bound_pos; lia).
  assert (m <= 0 -> -1000000000 < Z.rem m 1000000000 <= 0).
  { intros. pose proof (Z.rem_bound_pos_neg m 1000000000 ltac:(lia) ltac:(lia)). lia. }
  assert (nanos (Duration_seconds (Z.quot m 1000000000)) = Z.quot m 1000000000 * 1000000000) as S
    by (apply nanos_seconds; lia).
  assert (nanos (Duration_nanoseconds (Z.rem m 1000000000)) = Z.rem m 1000000000) as N
    by (apply nanos_nanoseconds; zlia).
  rewrite nanos_add; rewrite S, N; lia.
Qed.

Lemma duration_nanos_from_id n :
  - max_nanos <= n <= max_nanos -> duration_nanos (duration_from_nanos n) = n.
Proof. intros. rewrite duration_nanos_from. now apply clampZ_id. Qed.

Lemma duration_from_nanos_nanos d : duration_from_nanos (duration_nanos d) = d.
Proof. apply duration_nanos_inj, duration_nanos_from_id, duration_nanos_range. Qed.

Lemma micros_eq d : micros d = clamp_i64 (Z.quot (duration_nanos d) 1000).
Proof.
  unfold micros. rewrite num_microseconds_spec, <- duration_nanos_eq.
  destruct (checked_i64 _) as [us|] eqn:E.
  - apply checked_i64_Some in E as [E ->]. now rewrite clamp_i64_id.
  - unfold checked_i64 in E. destruct (fits_i64 _) eqn:F; [discriminate|].
    pose proof (Z.quot_rem' (duration_nanos d) 1000).
    pose proof (Z.rem_bound_abs (duration_nanos d) 1000 ltac:(lia)).
    unfold fits_i64 in F. apply andb_false_iff in F.
    destruct (Duration_ltb d Duration_zero) eqn:L.
    + apply Duration_ltb_spec in L. rewrite nanos_zero, <- duration_nanos_eq in L.
      destruct F as [F|F]; apply Z.leb_gt in F; unfold_widths; zcases; lia.
    + assert (~ duration_nanos d < 0) as N.
      { rewrite duration_nanos_eq, <- nanos_zero, <- Duration_ltb_spec. congruence. }
      destruct F as [F|F]; apply Z.leb_gt in F; unfold_widths; zcases; lia.
Qed.

Lemma duration_nanos_microseconds n : in_i64 n -> duration_nanos (Duration_microseconds n) = n * 1000.
Proof. rewrite duration_nanos_eq. apply nanos_microseconds. Qed.

Lemma duration_nanos_zero : duration_nanos Duration_zero = 0.
Proof. rewrite duration_nanos_eq. apply nanos_zero. Qed.

(** Encoding a wire time in microseconds and reading it back. *)
Lemma micros_microseconds n : in_i64 n -> micros (Duration_microseconds n) = n.
Proof.
  intros. rewrite micros_eq, duration_nanos_microseconds, Z.quot_mul by (lia || assumption).
  now apply clamp_i64_id.
Qed.

Lemma num_microseconds_microseconds n :
  in_i64 n -> num_microseconds (Duration_microseconds n) = Some n.
Proof.
  intros. rewrite num_microseconds_spec, nanos_microseconds, Z.quot_mul by (lia || assumption).
  now apply checked_i64_Some.
Qed.

End ConversionLemmas.

(** [round_ratio] is rounding half away from zero, over the whole [i128]
    range but for the one pair whose division Rust rejects. *)
Lemma round_ratio_rdiv n d :
  in_i128 n -> d <> 0 -> ~ (n = i128_MIN /\ d = -1) -> round_ratio n d = rdiv n d.
Proof.
  intros Hn Hd Hmin. unfold round_ratio. destruct (Z.eqb_spec d 0); [contradiction|].
  pose proof (Z.quot_rem' n d) as E. pose proof (Z.rem_bound_abs n d Hd) as B.
  pose proof (Z.quot_abs n d Hd) as A. pose proof (Z.rem_abs n d Hd) as R.
  assert (Z.abs (rdiv n d) = Z.abs (Z.quot n d) +
          (if (Z.abs d + 1) / 2 <=? Z.abs (Z.rem n d) then 1 else 0)) as V.
  { rewrite rdiv_abs by assumption. apply rdiv_nonneg_unique; [lia|lia|].
    pose proof (Z.div_mod (Z.abs d + 1) 2 ltac:(lia)).
    pose proof (Z.mod_pos_bound (Z.abs d + 1) 2 ltac:(lia)).
    pose proof (Z.quot_rem' (Z.abs n) (Z.abs d)). zcases; lia. }
  pose proof (rdiv_abs_le n d Hd) as L.
  assert (Z.abs (Z.quot n d) <= Z.abs n) as QA.
  { rewrite <- A. apply Z.quot_le_upper_bound; nia. }
  assert (in_i128 (Z.quot n d) /\ in_i128 (rdiv n d)) as [W1 W2].
  { destruct (Z.eq_dec n i128_MIN) as [->|]; [|zlia].
    destruct (Z.eq_dec (Z.abs d) 1).
    - assert (d = 1) as -> by lia. replace (rdiv i128_MIN 1) with i128_MIN by reflexivity.
      rewrite Z.quot_1_r. zlia.
    - pose proof (Z.quot_rem' (Z.abs i128_MIN) (Z.abs d)) as E'. rewrite A, R in E'.
      assert (Z.abs (Z.quot i128_MIN d) * 2 <= Z.abs d * Z.abs (Z.quot i128_MIN d)) by nia.
      destruct (_ <=? _); zlia. }
  rewrite (wrap_i128_id (Z.quot n d)) by assumption.
  pose proof (rdiv_sign_cases n d Hd) as S. rewrite <- rdiv_abs in S by assumption.
  assert (Z.quot n d = (if Bool.eqb (n <? 0) (d <? 0) then 1 else -1) * Z.abs (Z.quot n d)) as QS.
  { destruct (Z.ltb_spec n 0), (Z.ltb_spec d 0); simpl Bool.eqb; cbv iota; nia. }
  destruct ((Z.abs d + 1) / 2 <=? Z.abs (Z.rem n d)); [rewrite wrap_i128_id|].
  - destruct (Bool.eqb (n <? 0) (d <? 0)); lia.
  - destruct (Bool.eqb (n <? 0) (d <? 0)); zlia.
  - destruct (Bool.eqb (n <? 0) (d <? 0)); lia.
Qed.
