(* ===== verification/F64.v ===== *)
(** Double-precision floats: the operations the crate uses of Rust's [f64],
    over the Standard Library's executable IEEE-754 specification
    ([SpecFloat], binary64: 53 bits of precision, maximal exponent 1024), and
    the interface of [num_traits::float::FloatCore::integer_decode]. *)

From stdpp Require Import base list numbers.
From Stdlib Require Import ZArith Lia SpecFloat.
From S2P Require Import Prelude.

Notation f64 := spec_float.

Definition f64_prec : Z := 53.
Definition f64_emax : Z := 1024.

(** [z as f64]: correctly rounded, to nearest even. *)
Definition f64_of_int (z : Z) : f64 := binary_normalize f64_prec f64_emax z 0 false.

Definition f64_add : f64 -> f64 -> f64 := SFadd f64_prec f64_emax.
Definition f64_sub : f64 -> f64 -> f64 := SFsub f64_prec f64_emax.
Definition f64_mul : f64 -> f64 -> f64 := SFmul f64_prec f64_emax.
Definition f64_div : f64 -> f64 -> f64 := SFdiv f64_prec f64_emax.

(** [==], [<], [<=] on [f64]: false as soon as one side is a NaN. *)
Definition f64_eqb : f64 -> f64 -> bool := SFeqb.
Definition f64_ltb : f64 -> f64 -> bool := SFltb.
Definition f64_leb : f64 -> f64 -> bool := SFleb.

Definition f64_is_nan (x : f64) : bool := match x with S754_nan => true | _ => false end.

Definition f64_is_finite (x : f64) : bool :=
  match x with S754_nan | S754_infinity _ => false | _ => true end.

(** [f64::clamp] for a range without NaNs. *)
Definition f64_clamp (x lo hi : f64) : f64 :=
  if f64_ltb x lo then lo else if f64_ltb hi x then hi else x.

(** [f64::round]: half away from zero, the sign of a zero result kept. *)
Definition f64_round (x : f64) : f64 :=
  match x with
  | S754_finite s m e =>
      if 0 <=? e then x
      else
        match rdiv (Zpos m) (2 ^ (- e)) with
        | Z0 => S754_zero s
        | z => f64_of_int (if s then - z else z)
        end
  | _ => x
  end.

(** The integer part of a finite float, truncated towards zero. *)
Definition f64_trunc (s : bool) (m : positive) (e : Z) : Z :=
  let magnitude := if 0 <=? e then Zpos m * 2 ^ e else Zpos m / 2 ^ (- e) in
  if s then - magnitude else magnitude.

(** [x as iN]: truncating and saturating, a NaN going to zero. *)
Definition f64_as_int (lo hi : Z) (x : f64) : Z :=
  match x with
  | S754_nan => 0
  | S754_zero _ => 0
  | S754_infinity s => if s then lo else hi
  | S754_finite s m e => clampZ lo hi (f64_trunc s m e)
  end.

Definition f64_as_i64 : f64 -> Z := f64_as_int i64_MIN i64_MAX.
Definition f64_as_i128 : f64 -> Z := f64_as_int i128_MIN i128_MAX.

(** Literals. *)
Definition f64_zero : f64 := S754_zero false.
Definition f64_one : f64 := f64_of_int 1.
Definition f64_half : f64 := f64_div f64_one (f64_of_int 2).

(** ** [integer_decode]

    [num_traits] is a dependency: its decoding of a float into mantissa,
    exponent and sign is a parameter, of which the crate uses the documented
    equation [value = sign * mantissa * 2 ^ exponent] and the width of the
    three components for an [f64]. *)

Class FloatDecode := integer_decode : f64 -> Z * Z * Z.

Definition valid_f64 (x : f64) : Prop := valid_binary f64_prec f64_emax x = true.

Class FloatDecodeLaws `{FloatDecode} : Prop := {
  integer_decode_range x m e s :
    f64_is_finite x = true -> integer_decode x = (m, e, s) ->
    0 <= m < 2 ^ 53 /\ -1075 <= e <= 971 /\ (s = 1 \/ s = -1);
  integer_decode_zero b m e s : integer_decode (S754_zero b) = (m, e, s) -> m = 0 /\ e = -1075;
  integer_decode_finite b p ex m e s :
    valid_f64 (S754_finite b p ex) -> integer_decode (S754_finite b p ex) = (m, e, s) ->
    m * 2 ^ (e + 1075) = Zpos p * 2 ^ (ex + 1075) /\ s = (if b then -1 else 1)
}.

(** A concrete decoder: the stored mantissa and exponent (clamped to the
    documented widths, which no valid float exceeds). *)
#[global] Instance float_decode_ref : FloatDecode := fun x =>
  match x with
  | S754_finite b p ex =>
      if (Zpos p <? 2 ^ 53) && (-1074 <=? ex) && (ex <=? 971)
      then (Zpos p, ex, if b then -1 else 1)
      else (0, 0, 1)
  | S754_zero b => (0, -1075, if b then -1 else 1)
  | _ => (0, 0, 1)
  end.

(** ** Digits and one rounding step *)

Lemma digits2_pos_log2 p : Zpos (digits2_pos p) = Z.log2 (Zpos p) + 1.
Proof.
  induction p as [p IH|p IH|]; [| |reflexivity]; simpl digits2_pos;
    rewrite Pos2Z.inj_succ, IH.
  - rewrite Pos2Z.inj_xI, Z.log2_succ_double by lia. lia.
  - rewrite Pos2Z.inj_xO, Z.log2_double by lia. lia.
Qed.

Lemma Zdigits2_log2 z : 0 < z -> Zdigits2 z = Z.log2 z + 1.
Proof. destruct z; try lia. intros _. apply digits2_pos_log2. Qed.

Lemma valid_f64_finite b p ex :
  valid_f64 (S754_finite b p ex) -> Zpos p < 2 ^ 53 /\ -1074 <= ex <= 971.
Proof.
  unfold valid_f64, valid_binary, bounded, canonical_mantissa, fexp, emin.
  intros [H1 H2]%andb_prop. apply Z.eqb_eq in H1. apply Z.leb_le in H2.
  rewrite digits2_pos_log2 in H1. unfold f64_prec, f64_emax in *.
  split; [|lia]. apply Z.log2_lt_cancel. rewrite Z.log2_pow2; lia.
Qed.

#[global] Instance float_decode_ref_laws : @FloatDecodeLaws float_decode_ref.
Proof.
  constructor.
  - intros [b|b| |b p ex] m e s; unfold integer_decode, float_decode_ref;
      intros F D; try discriminate.
    + injection D as <- <- <-. destruct b; lia.
    + destruct (_ && _) eqn:C; injection D as <- <- <-; [|lia].
      apply andb_prop in C as [[C1 C2]%andb_prop C3].
      apply Z.ltb_lt in C1. apply Z.leb_le in C2, C3. destruct b; lia.
  - intros b m e s D. now injection D as <- <- <-.
  - intros b p ex m e s V D. apply valid_f64_finite in V as (V1 & V2 & V3).
    unfold integer_decode, float_decode_ref in D.
    apply Z.ltb_lt in V1. apply Z.leb_le in V2, V3. rewrite V1, V2, V3 in D. simpl in D.
    now injection D as <- <- <-.
Qed.

Lemma shr_fexp_53 m e l :
  2 ^ 52 <= m < 2 ^ 53 -> -1010 <= e ->
  shr_fexp f64_prec f64_emax m e l = (shr_record_of_loc m l, e).
Proof.
  intros Hm He. unfold shr_fexp, fexp, emin, f64_prec, f64_emax.
  rewrite Zdigits2_log2, (Z.log2_unique m 52) by lia.
  replace (Z.max _ _ - e) with 0 by lia. reflexivity.
Qed.

Lemma shr_fexp_54 m e l :
  2 ^ 53 <= m < 2 ^ 54 -> -1010 <= e ->
  shr_fexp f64_prec f64_emax m e l = (shr_1 (shr_record_of_loc m l), e + 1).
Proof.
  intros Hm He. unfold shr_fexp, fexp, emin, f64_prec, f64_emax.
  rewrite Zdigits2_log2, (Z.log2_unique m 53) by lia.
  replace (Z.max _ _ - e) with 1 by lia. reflexivity.
Qed.

Lemma round_nearest_even_cases m l : round_nearest_even m l = m \/ round_nearest_even m l = m + 1.
Proof. destruct l as [|[]]; simpl; auto. destruct (Z.even m); auto. Qed.

Lemma shr_record_of_loc_inv m l :
  shr_m (shr_record_of_loc m l) = m /\ loc_of_shr_record (shr_record_of_loc m l) = l.
Proof. destruct l as [|[]]; auto. Qed.

(** Dropping one digit and rounding moves a mantissa by at most one unit. *)
Lemma round_shr_1_close m l :
  0 < m ->
  let r := shr_1 (shr_record_of_loc m l) in
  m - 1 <= 2 * round_nearest_even (shr_m r) (loc_of_shr_record r) <= m + 1.
Proof.
  intros Hm. destruct m as [|[p|p|]|]; try lia; destruct l as [|[]]; cbn;
    repeat match goal with |- context [if ?b then _ else _] => destruct b end; lia.
Qed.

(** The second normalisation of a rounded mantissa. *)
Lemma shr_fexp_rounded m e :
  2 ^ 52 <= m <= 2 ^ 53 -> -1010 <= e <= 950 ->
  exists p j, shr_fexp f64_prec f64_emax m e loc_Exact = (Build_shr_record (Zpos p) false false, e + j) /\
    0 <= j <= 1 /\ Zpos p * 2 ^ j = m.
Proof.
  intros Hm He. destruct (Z.eq_dec m (2 ^ 53)) as [->|].
  - rewrite shr_fexp_54 by lia. exists (2 ^ 52)%positive, 1. repeat split; lia.
  - rewrite shr_fexp_53 by lia. destruct m as [|p|]; try lia.
    exists p, 0. rewrite Z.add_0_r. repeat split; lia.
Qed.

(** Rounding a mantissa of 53 or 54 digits, in the range of normal floats,
    changes it by at most one unit. *)
Lemma binary_round_aux_close mx ex lx :
  2 ^ 52 <= mx < 2 ^ 54 -> -1000 <= ex <= 900 ->
  exists m j, binary_round_aux f64_prec f64_emax false mx ex lx = S754_finite false m (ex + j) /\
    0 <= j <= 2 /\ mx - 1 <= Zpos m * 2 ^ j <= mx + 1.
Proof.
  intros Hm He. unfold binary_round_aux.
  assert (exists r k, shr_fexp f64_prec f64_emax mx ex lx = (r, ex + k) /\ 0 <= k <= 1 /\
            mx - 1 <= round_nearest_even (shr_m r) (loc_of_shr_record r) * 2 ^ k <= mx + 1 /\
            2 ^ 52 <= round_nearest_even (shr_m r) (loc_of_shr_record r) <= 2 ^ 53)
    as (r & k & -> & Hk & Hr & HR).
  { destruct (Z.lt_ge_cases mx (2 ^ 53)).
    - rewrite shr_fexp_53 by lia. eexists _, 0. rewrite Z.add_0_r. split; [reflexivity|].
      destruct (shr_record_of_loc_inv mx lx) as [-> ->].
      destruct (round_nearest_even_cases mx lx); lia.
    - rewrite shr_fexp_54 by lia. eexists _, 1. split; [reflexivity|].
      pose proof (round_shr_1_close mx lx ltac:(lia)) as C. simpl in C. lia. }
  destruct (shr_fexp_rounded _ (ex + k) HR ltac:(lia)) as (p & j & -> & Hj & Hp).
  exists p, (k + j). cbn [shr_m]. rewrite Z.add_assoc.
  replace (ex + k + j <=? f64_emax - f64_prec) with true
    by (symmetry; apply Z.leb_le; unfold f64_emax, f64_prec; lia).
  split; [reflexivity|]. split; [lia|]. rewrite Z.pow_add_r by lia.
  replace (Zpos p * (2 ^ k * 2 ^ j)) with (Zpos p * 2 ^ j * 2 ^ k) by ring. rewrite Hp. lia.
Qed.

(** ** Small integers are exact *)

Lemma iter_xO_val p d : Zpos (Pos.iter xO p d) = Zpos p * 2 ^ Zpos d.
Proof.
  revert p. induction d using Pos.peano_ind; intros p.
  - simpl. lia.
  - rewrite Pos.iter_succ, Pos2Z.inj_xO, IHd, Pos2Z.inj_succ, Z.pow_succ_r by lia. lia.
Qed.

Lemma binary_round_small_normal b p :
  Zpos p < 2 ^ 53 ->
  exists m k, binary_round f64_prec f64_emax b p 0 = S754_finite b m (- k) /\
    0 <= k < 53 /\ Zpos m = Zpos p * 2 ^ k /\ 2 ^ 52 <= Zpos m < 2 ^ 53.
Proof.
  intros Hp. pose proof (Z.log2_spec (Zpos p) ltac:(lia)) as L.
  assert (0 <= Z.log2 (Zpos p) < 53) as LB.
  { split; [apply Z.log2_nonneg|]. apply Z.log2_lt_pow2; lia. }
  set (k := 52 - Z.log2 (Zpos p)).
  assert (exists m, shl_align p 0 (fexp f64_prec f64_emax (Zpos (digits2_pos p) + 0)) = (m, - k) /\
            Zpos m = Zpos p * 2 ^ k) as (m & E & Hm).
  { unfold shl_align, fexp, emin, f64_prec, f64_emax. rewrite digits2_pos_log2.
    replace (Z.max _ _ - 0) with (- k) by (unfold k; lia).
    replace (Z.max _ _) with (- k) by (unfold k; lia).
    destruct k as [|d|d] eqn:K; [|exists (Pos.iter xO p d)|unfold k in K; lia].
    - exists p. split; [reflexivity|change (2 ^ 0) with 1; lia].
    - split; [reflexivity|]. rewrite iter_xO_val. lia. }
  assert (2 ^ 52 <= Zpos m < 2 ^ 53) as HM.
  { rewrite Hm. assert (2 ^ Z.log2 (Zpos p) * 2 ^ k = 2 ^ 52) as P.
    { rewrite <- Z.pow_add_r by (unfold k; lia). f_equal. unfold k. lia. }
    rewrite Z.pow_succ_r in L by lia. pose proof (Z.pow_pos_nonneg 2 k ltac:(lia) ltac:(unfold k; lia)).
    nia. }
  exists m, k. split; [|repeat split; try exact Hm; try apply HM; unfold k; lia]. unfold binary_round. rewrite E.
  unfold binary_round_aux. rewrite shr_fexp_53 by (unfold k; lia). cbn [shr_record_of_loc shr_m
    loc_of_shr_record round_nearest_even]. rewrite shr_fexp_53 by (unfold k; lia). cbn [shr_record_of_loc shr_m].
  replace (- k <=? f64_emax - f64_prec) with true; [reflexivity|].
  symmetry. apply Z.leb_le. unfold f64_emax, f64_prec, k. lia.
Qed.

Lemma binary_round_small b p :
  Zpos p < 2 ^ 53 ->
  exists m k, binary_round f64_prec f64_emax b p 0 = S754_finite b m (- k) /\
    0 <= k < 53 /\ Zpos m = Zpos p * 2 ^ k.
Proof. intros Hp. destruct (binary_round_small_normal b p Hp) as (m & k & E & Hk & Hm & _). eauto. Qed.

Lemma f64_trunc_scaled b m k p :
  0 <= k -> Zpos m = Zpos p * 2 ^ k -> f64_trunc b m (- k) = if b then - Zpos p else Zpos p.
Proof.
  intros Hk Hm. unfold f64_trunc. destruct (Z.leb_spec 0 (- k)).
  - assert (k = 0) as -> by lia. rewrite Hm. change (2 ^ 0) with 1. change (2 ^ (- 0)) with 1.
    rewrite !Z.mul_1_r. destruct b; lia.
  - rewrite Z.opp_involutive, Hm, Z.div_mul by (apply Z.pow_nonzero; lia). destruct b; lia.
Qed.

(** An integer below [2 ^ 53] survives the conversion to [f64] and back. *)
Lemma f64_of_int_exact lo hi z :
  Z.abs z < 2 ^ 53 -> lo <= z <= hi -> f64_as_int lo hi (f64_of_int z) = z.
Proof.
  intros Hz Hr. unfold f64_of_int, binary_normalize. destruct z as [|p|p]; [reflexivity| |];
    edestruct binary_round_small as (m & k & -> & Hk & Hm); try lia;
    unfold f64_as_int; rewrite (f64_trunc_scaled _ _ _ p) by (lia || assumption);
    now apply clampZ_id.
Qed.

(** [(x).round() as iN] of a small positive float with a fraction is its
    value rounded half up. *)
Lemma f64_round_cast lo hi m e :
  e < 0 -> Zpos m < 2 ^ 53 * 2 ^ (- e) / 2 -> lo <= 0 -> 2 ^ 53 <= hi ->
  f64_as_int lo hi (f64_round (S754_finite false m e)) = rdiv (Zpos m) (2 ^ (- e)).
Proof.
  intros He Hm Hlo Hhi. unfold f64_round. destruct (Z.leb_spec 0 e); [lia|].
  assert (0 <= rdiv (Zpos m) (2 ^ (- e)) < 2 ^ 53) as R.
  { pose proof (Z.pow_pos_nonneg 2 (- e) ltac:(lia) ltac:(lia)).
    rewrite rdiv_nonneg by lia. split; [apply Z.div_pos; lia|].
    apply Z.div_lt_upper_bound; [lia|].
    pose proof (Z.div_mod (2 ^ 53 * 2 ^ (- e)) 2 ltac:(lia)).
    pose proof (Z.mod_pos_bound (2 ^ 53 * 2 ^ (- e)) 2 ltac:(lia)). lia. }
  destruct (rdiv _ _) as [|z|z]; [reflexivity| |lia].
  apply f64_of_int_exact; lia.
Qed.

(** ** Order *)

Lemma SFcompare_sym x y :
  SFcompare y x = match SFcompare x y with Some c => Some (CompOpp c) | None => None end.
Proof.
  destruct x as [[]|[]| |[] m e], y as [[]|[]| |[] m' e']; simpl; try reflexivity;
    rewrite (Z.compare_antisym e e'); destruct (e ?= e'); simpl; try reflexivity;
    change (Pos.compare_cont Eq) with Pos.compare; rewrite (Pos.compare_antisym m m');
    destruct (Pos.compare m m'); reflexivity.
Qed.

Lemma SFcompare_nan x y : f64_is_nan x = false -> f64_is_nan y = false -> SFcompare x y <> None.
Proof. destruct x, y; try discriminate; simpl; congruence. Qed.

(** Away from NaN, [<=] is the negation of the converse [<]. *)
Lemma f64_ltb_false_leb x y :
  f64_is_nan x = false -> f64_is_nan y = false -> f64_ltb y x = false -> f64_leb x y = true.
Proof.
  intros Nx Ny. unfold f64_ltb, f64_leb, SFltb, SFleb. rewrite (SFcompare_sym x y).
  pose proof (SFcompare_nan x y Nx Ny). destruct (SFcompare x y) as [[]|]; simpl; congruence.
Qed.

(** ** The order of floats

    A float other than [NaN] is ordered by three integers, compared from left
    to right: its class and sign, then the exponent and the mantissa. *)

Definition f64_key (x : f64) : Z * Z * Z :=
  match x with
  | S754_zero _ => (0, 0, 0)
  | S754_infinity s => (if s then -2 else 2, 0, 0)
  | S754_nan => (3, 0, 0)
  | S754_finite s m e => if s then (-1, - e, - Zpos m) else (1, e, Zpos m)
  end.

Definition key_compare (a b : Z * Z * Z) : comparison :=
  match a.1.1 ?= b.1.1 with
  | Eq => match a.1.2 ?= b.1.2 with Eq => a.2 ?= b.2 | c => c end
  | c => c
  end.

Lemma SFcompare_key x y :
  f64_is_nan x = false -> f64_is_nan y = false -> SFcompare x y = Some (key_compare (f64_key x) (f64_key y)).
Proof.
  destruct x as [s|s| |s m e], y as [t|t| |t n f]; intros Hx Hy; try discriminate;
    try (destruct s); try (destruct t); try reflexivity; unfold key_compare; simpl.
  replace (- e ?= - f) with (f ?= e) by (symmetry; apply Z.compare_opp). rewrite (Z.compare_antisym e f).
  destruct (e ?= f); simpl; reflexivity.
Qed.

Lemma key_compare_trans a b c :
  key_compare a b <> Gt -> key_compare b c <> Gt -> key_compare a c <> Gt.
Proof.
  destruct a as [[a1 a2] a3], b as [[b1 b2] b3], c as [[c1 c2] c3]. unfold key_compare; simpl.
  destruct (Z.compare_spec a1 b1), (Z.compare_spec b1 c1), (Z.compare_spec a1 c1); try lia; try congruence;
  destruct (Z.compare_spec a2 b2), (Z.compare_spec b2 c2), (Z.compare_spec a2 c2); try lia; try congruence;
  destruct (Z.compare_spec a3 b3), (Z.compare_spec b3 c3), (Z.compare_spec a3 c3); try lia; congruence.
Qed.

Lemma f64_ltb_key x y :
  f64_is_nan x = false -> f64_is_nan y = false ->
  f64_ltb x y = match key_compare (f64_key x) (f64_key y) with Lt => true | _ => false end.
Proof. intros. unfold f64_ltb, SFltb. now rewrite SFcompare_key by assumption. Qed.

Lemma key_compare_antisym a b : key_compare a b = CompOpp (key_compare b a).
Proof.
  destruct a as [[a1 a2] a3], b as [[b1 b2] b3]. unfold key_compare; simpl.
  rewrite (Z.compare_antisym b1 a1), (Z.compare_antisym b2 a2), (Z.compare_antisym b3 a3).
  destruct (b1 ?= a1), (b2 ?= a2), (b3 ?= a3); reflexivity.
Qed.

(** [==] on numbers is identity, but for the two zeros. *)
Lemma f64_eqb_eq a b :
  f64_eqb a b = true -> a = b \/ (exists s t, a = S754_zero s /\ b = S754_zero t).
Proof.
  unfold f64_eqb, SFeqb.
  destruct a as [s|[]| |[] m e], b as [t|[]| |[] n k]; cbn; try discriminate; eauto.
  all: destruct (Z.compare_spec e k) as [->| |]; try discriminate;
    change (Pos.compare_cont Eq m n) with (Pos.compare m n);
    destruct (Pos.compare_spec m n) as [->| |]; try discriminate; auto.
Qed.

Lemma f64_eqb_refl a : f64_is_nan a = false -> f64_eqb a a = true.
Proof.
  unfold f64_eqb, SFeqb. destruct a as [s|[]| |[] m e]; cbn; try discriminate; auto;
    rewrite Z.compare_refl; change (Pos.compare_cont Eq m m) with (Pos.compare m m);
    now rewrite Pos.compare_refl.
Qed.
