(* ===== verification/Encoding.v ===== *)
(** The wire encoding layer: src/src/encoding.rs and src/src/link/encoding.rs.

    The [Encode] and [Decode] implementations of one Rust type are one record
    [EncodeDecode T].  A byte is a [Z] between 0 and 255; a [Vec<u8>] or a
    [&[u8]] is a list of bytes, and [&bytes[n..]] is [drop n bytes].

    [WireLaws W] is the contract every implementation meets: a value is
    appended to the output without touching what is there, occupies exactly
    [encoded_size] bytes, and is read back from any input that starts with
    those bytes.  [wire_norm] is the value read back: it differs from the
    value written where the wire format is coarser (times in microseconds). *)

From stdpp Require Import base list numbers.
From Stdlib Require Import ZArith Lia.
From S2P Require Import Prelude.

Notation bytes := (list Z).

Definition bytes_ok (b : bytes) : Prop := Forall in_u8 b.

Inductive EncodeError :=
| StringTooLong (len : Z)
| MessageTooLarge (size max : Z).

Inductive DecodeError :=
| UnexpectedEnd
| InvalidBool (v : Z).

#[global] Instance EncodeError_eq_dec : EqDecision EncodeError.
Proof. solve_decision. Defined.
#[global] Instance DecodeError_eq_dec : EqDecision DecodeError.
Proof. solve_decision. Defined.

Record EncodeDecode (T : Type) := {
  encode_to : T -> bytes -> result bytes EncodeError;
  encoded_size : T -> nat;
  decode_from : bytes -> result (T * nat) DecodeError
}.
Arguments encode_to {T}.
Arguments encoded_size {T}.
Arguments decode_from {T}.

Definition encode_to_vec {T} (W : EncodeDecode T) (v : T) : result bytes EncodeError :=
  encode_to W v [].

Definition decode_from_slice {T} (W : EncodeDecode T) (b : bytes) : result (T * nat) DecodeError :=
  decode_from W b.

(** ** Big-endian integers *)

(** [to_be_bytes] on [n] bytes: the most significant byte first. *)
Fixpoint to_be_bytes (n : nat) (z : Z) : bytes :=
  match n with
  | O => []
  | S n' => (z / 256 ^ Z.of_nat n') mod 256 :: to_be_bytes n' z
  end.

Definition from_be_bytes (b : bytes) : Z := fold_left (fun acc x => acc * 256 + x) b 0.

(** The two's-complement reading of an [n]-byte value. *)
Definition signed (n : nat) (z : Z) : Z :=
  let m := 256 ^ Z.of_nat n in if z <? m / 2 then z else z - m.

(** The unsigned and signed integer implementations differ in the width and
    in the reading of the most significant bit. *)
Definition uint_decode (n : nat) (b : bytes) : result (Z * nat) DecodeError :=
  if (length b <? n)%nat then Err UnexpectedEnd else Ok (from_be_bytes (take n b), n).

Definition sint_decode (n : nat) (b : bytes) : result (Z * nat) DecodeError :=
  if (length b <? n)%nat then Err UnexpectedEnd
  else Ok (signed n (from_be_bytes (take n b)), n).

Definition u8_wire : EncodeDecode Z := {|
  encode_to v out := Ok (out ++ [v]);
  encoded_size _ := 1%nat;
  decode_from b := match b with [] => Err UnexpectedEnd | x :: _ => Ok (x, 1%nat) end
|}.

Definition u16_wire : EncodeDecode Z := {|
  encode_to v out := Ok (out ++ to_be_bytes 2 v);
  encoded_size _ := 2%nat;
  decode_from := uint_decode 2
|}.

Definition i16_wire : EncodeDecode Z := {|
  encode_to v out := Ok (out ++ to_be_bytes 2 v);
  encoded_size _ := 2%nat;
  decode_from := sint_decode 2
|}.

Definition u32_wire : EncodeDecode Z := {|
  encode_to v out := Ok (out ++ to_be_bytes 4 v);
  encoded_size _ := 4%nat;
  decode_from := uint_decode 4
|}.

Definition u64_wire : EncodeDecode Z := {|
  encode_to v out := Ok (out ++ to_be_bytes 8 v);
  encoded_size _ := 8%nat;
  decode_from := uint_decode 8
|}.

Definition i64_wire : EncodeDecode Z := {|
  encode_to v out := Ok (out ++ to_be_bytes 8 v);
  encoded_size _ := 8%nat;
  decode_from := sint_decode 8
|}.

Definition bool_wire : EncodeDecode bool := {|
  encode_to (v : bool) out := Ok (out ++ [if v then 1 else 0]);
  encoded_size _ := 1%nat;
  decode_from b :=
    match b with
    | [] => Err UnexpectedEnd
    | x :: _ =>
        if x =? 0 then Ok (false, 1%nat)
        else if x =? 1 then Ok (true, 1%nat)
        else Err (InvalidBool x)
    end
|}.

(** [[u8; N]]: the array is a list, of length [N] when well formed. *)
Definition array_wire (N : nat) : EncodeDecode bytes := {|
  encode_to v out := Ok (out ++ v);
  encoded_size _ := N;
  decode_from b := if (length b <? N)%nat then Err UnexpectedEnd else Ok (take N b, N)
|}.

(** The pair implementation, in the order the fields are declared. *)
Definition pair_wire {A B} (WA : EncodeDecode A) (WB : EncodeDecode B) : EncodeDecode (A * B) := {|
  encode_to v out :=
    let? out := encode_to WA v.1 out in
    let? out := encode_to WB v.2 out in
    Ok out;
  encoded_size v := (encoded_size WA v.1 + encoded_size WB v.2)%nat;
  decode_from b :=
    let? (a, n1) := decode_from WA b in
    let? (c, n2) := decode_from WB (drop n1 b) in
    Ok ((a, c), (n1 + n2)%nat)
|}.

Definition triple_wire {A B C} (WA : EncodeDecode A) (WB : EncodeDecode B) (WC : EncodeDecode C)
  : EncodeDecode (A * B * C) := {|
  encode_to v out :=
    let? out := encode_to WA v.1.1 out in
    let? out := encode_to WB v.1.2 out in
    let? out := encode_to WC v.2 out in
    Ok out;
  encoded_size v :=
    (encoded_size WA v.1.1 + encoded_size WB v.1.2 + encoded_size WC v.2)%nat;
  decode_from b :=
    let? (x, n1) := decode_from WA b in
    let? (y, n2) := decode_from WB (drop n1 b) in
    let? (z, n3) := decode_from WC (drop (n1 + n2) b) in
    Ok ((x, y, z), (n1 + n2 + n3)%nat)
|}.

(** [Ipv4Addr] as its four octets. *)
Record Ipv4Addr := MkIpv4 { oct0 : Z; oct1 : Z; oct2 : Z; oct3 : Z }.

#[global] Instance Ipv4Addr_eq_dec : EqDecision Ipv4Addr.
Proof. solve_decision. Defined.

Definition ipv4_wire : EncodeDecode Ipv4Addr := {|
  encode_to v out := Ok (out ++ [oct0 v; oct1 v; oct2 v; oct3 v]);
  encoded_size _ := 4%nat;
  decode_from b :=
    match b with
    | a :: b' :: c :: d :: _ => Ok (MkIpv4 a b' c d, 4%nat)
    | _ => Err UnexpectedEnd
    end
|}.

(** ** Payload entry headers (src/src/link/encoding.rs) *)

Definition PAYLOAD_ENTRY_HEADER_SIZE : nat := 8.

Record PayloadEntryHeader := { key : Z; size : Z }.

#[global] Instance PayloadEntryHeader_eq_dec : EqDecision PayloadEntryHeader.
Proof. solve_decision. Defined.

Definition header_wire : EncodeDecode PayloadEntryHeader := {|
  encode_to h out :=
    let? out := encode_to u32_wire (key h) out in
    let? out := encode_to u32_wire (size h) out in
    Ok out;
  encoded_size _ := 8%nat;
  decode_from b :=
    let? (k, n1) := decode_from u32_wire b in
    let? (s, n2) := decode_from u32_wire (drop n1 b) in
    Ok ({| key := k; size := s |}, (n1 + n2)%nat)
|}.

Definition PayloadEntryHeader_encode (h : PayloadEntryHeader) : result bytes EncodeError :=
  encode_to_vec header_wire h.

(** [u32::from_be_bytes( *b"abcd")], the key of an entry. *)
Definition fourcc (a b c d : Z) : Z := from_be_bytes [a; b; c; d].

(** ** Byte-level lemmas *)

Lemma length_to_be_bytes n z : length (to_be_bytes n z) = n.
Proof. induction n; simpl; auto. Qed.

Lemma to_be_bytes_ok n z : bytes_ok (to_be_bytes n z).
Proof.
  induction n; simpl; constructor; auto.
  pose proof (Z.mod_pos_bound (z / 256 ^ Z.of_nat n) 256). unfold in_u8. lia.
Qed.

Lemma from_be_bytes_acc b acc :
  fold_left (fun acc x => acc * 256 + x) b acc = acc * 256 ^ Z.of_nat (length b) + from_be_bytes b.
Proof.
  unfold from_be_bytes. revert acc. induction b as [|x b IH]; intros acc; simpl fold_left.
  - simpl. lia.
  - rewrite IH, (IH (0 * 256 + x)). simpl length. rewrite Nat2Z.inj_succ, Z.pow_succ_r by lia. ring.
Qed.

Lemma from_be_bytes_cons x b :
  from_be_bytes (x :: b) = x * 256 ^ Z.of_nat (length b) + from_be_bytes b.
Proof. unfold from_be_bytes at 1. simpl fold_left. apply (from_be_bytes_acc b x). Qed.

Lemma from_to_be_bytes n z : from_be_bytes (to_be_bytes n z) = z mod 256 ^ Z.of_nat n.
Proof.
  induction n as [|n IH]; simpl to_be_bytes.
  - simpl. now rewrite Z.mod_1_r.
  - rewrite from_be_bytes_cons, length_to_be_bytes, IH, Nat2Z.inj_succ, Z.pow_succ_r by lia.
    rewrite (Z.mul_comm 256), Z.rem_mul_r by (try apply Z.pow_nonzero; lia). ring.
Qed.

Lemma from_be_bytes_range b : bytes_ok b -> 0 <= from_be_bytes b < 256 ^ Z.of_nat (length b).
Proof.
  induction 1 as [|x b Hx Hb IH]; [cbn; lia|].
  rewrite from_be_bytes_cons. simpl length. rewrite Nat2Z.inj_succ, Z.pow_succ_r by lia.
  unfold in_u8 in Hx. nia.
Qed.

(** Reading and writing back the same number of bytes is the identity: every
    byte string is the encoding of one number. *)
Lemma to_from_be_bytes b : bytes_ok b -> to_be_bytes (length b) (from_be_bytes b) = b.
Proof.
  assert (forall b z, bytes_ok b -> to_be_bytes (length b)
            (z * 256 ^ Z.of_nat (length b) + from_be_bytes b) = b) as P.
  { induction b0 as [|x b0 IH]; intros z Hb; [reflexivity|]. inversion Hb as [|? ? Hx Hb0]; subst.
    simpl length. simpl to_be_bytes. rewrite from_be_bytes_cons. f_equal.
    - pose proof (from_be_bytes_range b0 Hb0). rewrite Nat2Z.inj_succ, Z.pow_succ_r by lia.
      replace (z * _ + _) with ((z * 256 + x) * 256 ^ Z.of_nat (length b0) + from_be_bytes b0) by ring.
      rewrite Z.div_add_l, Z.div_small, Z.add_0_r by lia.
      rewrite Z.add_comm, Z.mod_add, Z.mod_small; unfold in_u8 in Hx; lia.
    - rewrite Nat2Z.inj_succ, Z.pow_succ_r by lia.
      replace (z * _ + _) with ((z * 256 + x) * 256 ^ Z.of_nat (length b0) + from_be_bytes b0) by ring.
      now apply IH. }
  intros Hb. specialize (P b 0 Hb). now rewrite Z.mul_0_l in P.
Qed.

Lemma signed_mod n z :
  (0 < n)%nat -> let m := 256 ^ Z.of_nat n in - (m / 2) <= z < m / 2 -> signed n (z mod m) = z.
Proof.
  intros Hn m Hz. unfold signed. fold m.
  assert (m = 2 * (m / 2)) as E.
  { unfold m. destruct n; [lia|]. rewrite Nat2Z.inj_succ, Z.pow_succ_r by lia.
    replace (256 * 256 ^ Z.of_nat n) with (128 * 256 ^ Z.of_nat n * 2) by ring.
    rewrite Z.div_mul; lia. }
  assert (0 < m) by (apply Z.pow_pos_nonneg; lia).
  destruct (Z.lt_ge_cases z 0).
  - rewrite <- (Z.mod_unique z m (-1) (z + m)) by lia. zcases; lia.
  - rewrite Z.mod_small by lia. zcases; lia.
Qed.

Lemma uint_decode_app n b rest : length b = n -> uint_decode n (b ++ rest) = Ok (from_be_bytes b, n).
Proof.
  intros <-. unfold uint_decode. rewrite length_app, take_app_length.
  destruct (Nat.ltb_spec (length b + length rest) (length b)); [lia|reflexivity].
Qed.

Lemma sint_decode_app n b rest :
  length b = n -> sint_decode n (b ++ rest) = Ok (signed n (from_be_bytes b), n).
Proof.
  intros <-. unfold sint_decode. rewrite length_app, take_app_length.
  destruct (Nat.ltb_spec (length b + length rest) (length b)); [lia|reflexivity].
Qed.

(** ** The contract and its instances *)

Class WireLaws {T} (W : EncodeDecode T) := {
  wire_ok : T -> Prop;
  wire_norm : T -> T;
  wire_bytes : T -> bytes;
  wire_encode v out : wire_ok v -> encode_to W v out = Ok (out ++ wire_bytes v);
  wire_length v : wire_ok v -> length (wire_bytes v) = encoded_size W v;
  wire_u8 v : wire_ok v -> bytes_ok (wire_bytes v);
  wire_decode v rest :
    wire_ok v -> decode_from W (wire_bytes v ++ rest) = Ok (wire_norm v, encoded_size W v);
  wire_consumed b v n : decode_from W b = Ok (v, n) -> (n <= length b)%nat
}.
Arguments wire_ok {T} W {_}.
Arguments wire_norm {T} W {_}.
Arguments wire_bytes {T} W {_}.
Arguments wire_encode {T} W {_}.
Arguments wire_length {T} W {_}.
Arguments wire_u8 {T} W {_}.
Arguments wire_decode {T} W {_}.
Arguments wire_consumed {T} W {_}.

Create HintDb wire.

Lemma uint_decode_consumed n b v k : uint_decode n b = Ok (v, k) -> (k <= length b)%nat.
Proof. unfold uint_decode. destruct (Nat.ltb_spec (length b) n); intros [=]; lia. Qed.

Lemma sint_decode_consumed n b v k : sint_decode n b = Ok (v, k) -> (k <= length b)%nat.
Proof. unfold sint_decode. destruct (Nat.ltb_spec (length b) n); intros [=]; lia. Qed.

#[export] Hint Resolve to_be_bytes_ok uint_decode_consumed sint_decode_consumed : wire.

#[global] Instance u8_laws : WireLaws u8_wire.
Proof.
  refine {| wire_ok := in_u8; wire_norm := id; wire_bytes v := [v] |}; simpl; auto.
  - intros v H. now repeat constructor; apply H.
  - intros [|x b] v n [=]. simpl. lia.
Defined.

#[global] Instance u16_laws : WireLaws u16_wire.
Proof.
  refine {| wire_ok := in_u16; wire_norm := id; wire_bytes := to_be_bytes 2 |};
    cbn [decode_from encode_to encoded_size u16_wire i16_wire u32_wire u64_wire i64_wire];
    eauto using length_to_be_bytes with wire.
  intros v rest H. rewrite uint_decode_app, from_to_be_bytes, Z.mod_small
    by (apply length_to_be_bytes || (unfold in_u16 in H; lia)). reflexivity.
Defined.

#[global] Instance u32_laws : WireLaws u32_wire.
Proof.
  refine {| wire_ok := in_u32; wire_norm := id; wire_bytes := to_be_bytes 4 |};
    cbn [decode_from encode_to encoded_size u16_wire i16_wire u32_wire u64_wire i64_wire];
    eauto using length_to_be_bytes with wire.
  intros v rest H. rewrite uint_decode_app, from_to_be_bytes, Z.mod_small
    by (apply length_to_be_bytes || zlia). reflexivity.
Defined.

#[global] Instance u64_laws : WireLaws u64_wire.
Proof.
  refine {| wire_ok := in_u64; wire_norm := id; wire_bytes := to_be_bytes 8 |};
    cbn [decode_from encode_to encoded_size u16_wire i16_wire u32_wire u64_wire i64_wire];
    eauto using length_to_be_bytes with wire.
  intros v rest H. rewrite uint_decode_app, from_to_be_bytes, Z.mod_small
    by (apply length_to_be_bytes || zlia). reflexivity.
Defined.

#[global] Instance i16_laws : WireLaws i16_wire.
Proof.
  refine {| wire_ok v := -32768 <= v <= 32767; wire_norm := id; wire_bytes := to_be_bytes 2 |};
    cbn [decode_from encode_to encoded_size u16_wire i16_wire u32_wire u64_wire i64_wire];
    eauto using length_to_be_bytes with wire.
  intros v rest H. rewrite sint_decode_app, from_to_be_bytes by apply length_to_be_bytes.
  rewrite signed_mod; [reflexivity|lia|]. change (256 ^ Z.of_nat 2 / 2) with 32768. lia.
Defined.

#[global] Instance i64_laws : WireLaws i64_wire.
Proof.
  refine {| wire_ok := in_i64; wire_norm := id; wire_bytes := to_be_bytes 8 |};
    cbn [decode_from encode_to encoded_size u16_wire i16_wire u32_wire u64_wire i64_wire];
    eauto using length_to_be_bytes with wire.
  intros v rest H. rewrite sint_decode_app, from_to_be_bytes by apply length_to_be_bytes.
  rewrite signed_mod; [reflexivity|lia|].
  change (256 ^ Z.of_nat 8 / 2) with 9223372036854775808. zlia.
Defined.

#[global] Instance bool_laws : WireLaws bool_wire.
Proof.
  refine {| wire_ok _ := True; wire_norm := id; wire_bytes v := [if v : bool then 1 else 0] |};
    simpl; auto.
  - intros [] _; repeat constructor; lia.
  - intros [] rest _; reflexivity.
  - intros [|x b] v n; [discriminate|]. simpl.
    destruct (x =? 0), (x =? 1); intros [=]; subst; simpl; lia.
Defined.

#[global] Instance array_laws N : WireLaws (array_wire N).
Proof.
  refine {| wire_ok v := length v = N /\ bytes_ok v; wire_norm := id; wire_bytes v := v |};
    simpl; auto.
  - tauto.
  - intros v [_ H]. exact H.
  - intros v rest [<- H]. rewrite length_app, take_app_length.
    destruct (Nat.ltb_spec (length v + length rest) (length v)); [lia|reflexivity].
  - intros b v n. destruct (Nat.ltb_spec (length b) N); intros [=]; lia.
Defined.

Definition Ipv4Addr_ok (a : Ipv4Addr) : Prop :=
  in_u8 (oct0 a) /\ in_u8 (oct1 a) /\ in_u8 (oct2 a) /\ in_u8 (oct3 a).

#[global] Instance ipv4_laws : WireLaws ipv4_wire.
Proof.
  refine {| wire_ok := Ipv4Addr_ok; wire_norm := id;
            wire_bytes v := [oct0 v; oct1 v; oct2 v; oct3 v] |}; simpl; auto.
  - intros v (? & ? & ? & ?). repeat constructor; auto; apply H || apply H0 || apply H1 || apply H2.
  - now intros [] rest _.
  - intros [|a [|b [|c [|d r]]]] v n [=]. subst. simpl. lia.
Defined.

Section Products.
Context {A B C : Type} (WA : EncodeDecode A) (WB : EncodeDecode B) (WC : EncodeDecode C).
Context {LA : WireLaws WA} {LB : WireLaws WB} {LC : WireLaws WC}.

(** Skipping what the first field wrote leaves the input at the second. *)
Lemma drop_wire (v : A) rest : wire_ok WA v -> drop (encoded_size WA v) (wire_bytes WA v ++ rest) = rest.
Proof. intros H. rewrite <- (wire_length WA v H). apply drop_app_length. Qed.

#[global] Instance pair_laws : WireLaws (pair_wire WA WB).
Proof.
  refine {| wire_ok v := wire_ok WA v.1 /\ wire_ok WB v.2;
            wire_norm v := (wire_norm WA v.1, wire_norm WB v.2);
            wire_bytes v := wire_bytes WA v.1 ++ wire_bytes WB v.2 |}.
  - intros [a b] out [Ha Hb]. simpl. rewrite (wire_encode WA), (wire_encode WB) by assumption.
    now rewrite app_assoc.
  - intros [a b] [Ha Hb]. simpl. rewrite length_app, !wire_length by assumption. reflexivity.
  - intros [a b] [Ha Hb]. simpl. apply Forall_app. split; now apply wire_u8.
  - intros [a b] rest [Ha Hb]. simpl. rewrite <- app_assoc, (wire_decode WA), drop_wire by assumption.
    now rewrite (wire_decode WB) by assumption.
  - intros b v n. simpl. destruct (decode_from WA b) as [[a n1]|] eqn:E1; [|discriminate].
    destruct (decode_from WB (drop n1 b)) as [[c n2]|] eqn:E2; [|discriminate].
    intros [=]; subst. apply (wire_consumed WA) in E1. apply (wire_consumed WB) in E2.
    rewrite length_drop in E2. lia.
Defined.

(** A codec that writes the image of its value under another codec and maps
    what it reads meets the contract of that codec. *)
Definition wire_via {T} (W : EncodeDecode T) (f : T -> A) (g : A -> T)
    (He : forall v out, encode_to W v out = encode_to WA (f v) out)
    (Hs : forall v, encoded_size W v = encoded_size WA (f v))
    (Hd : forall b, decode_from W b =
            match decode_from WA b with Ok (a, n) => Ok (g a, n) | Err e => Err e end)
  : WireLaws W.
Proof.
  refine {| wire_ok v := wire_ok WA (f v); wire_norm v := g (wire_norm WA (f v));
            wire_bytes v := wire_bytes WA (f v) |}.
  - intros v out Hv. rewrite He. now apply wire_encode.
  - intros v Hv. rewrite Hs. now apply wire_length.
  - intros v Hv. now apply wire_u8.
  - intros v rest Hv. rewrite Hd, (wire_decode WA), Hs by assumption. reflexivity.
  - intros b v n. rewrite Hd. destruct (decode_from WA b) as [[a k]|] eqn:E; [|discriminate].
    intros [=]; subst. eapply (wire_consumed WA), E.
Defined.

End Products.

(** Runs the matches of a composite codec to a common form. *)
Ltac solve_via :=
  intros; cbn;
  repeat (match goal with
          | |- context [match ?c with Ok _ => _ | Err _ => _ end] => destruct c as [[? ?]|] || destruct c
          end; cbn);
  try reflexivity.

#[global] Instance triple_laws {A B C} (WA : EncodeDecode A) (WB : EncodeDecode B) (WC : EncodeDecode C)
    {LA : WireLaws WA} {LB : WireLaws WB} {LC : WireLaws WC} : WireLaws (triple_wire WA WB WC).
Proof.
  apply (wire_via (pair_wire (pair_wire WA WB) WC) (triple_wire WA WB WC) id id); solve_via.
Defined.

#[global] Instance header_laws : WireLaws header_wire.
Proof.
  apply (wire_via (pair_wire u32_wire u32_wire) header_wire
           (fun h => (key h, size h)) (fun p => {| key := p.1; size := p.2 |})); solve_via.
Defined.

