(* ===== verification/Beats.v ===== *)
(** Beats: src/src/link/beats.rs, the fixed-point beat type in signed
    64-bit microbeats with saturating arithmetic. *)

From stdpp Require Import base list numbers.
From Stdlib Require Import ZArith Lia.
From S2P Require Import Prelude F64 Encoding.

Record Beats := MkBeats { Beats_value : Z }.

#[global] Instance Beats_eq_dec : EqDecision Beats.
Proof. solve_decision. Defined.

(** A [Beats] of the program holds an [i64]. *)
Definition Beats_ok (b : Beats) : Prop := in_i64 (Beats_value b).

Definition Beats_new (beats : f64) : Beats :=
  MkBeats (f64_as_i64 (f64_round (f64_mul beats (f64_of_int 1000000)))).

Definition Beats_from_microbeats (micro_beats : Z) : Beats := MkBeats micro_beats.

Definition micro_beats (b : Beats) : Z := Beats_value b.

(** [saturating_abs] and [saturating_neg]. *)
Definition Beats_abs (b : Beats) : Beats := MkBeats (clamp_i64 (Z.abs (Beats_value b))).
Definition Beats_neg (b : Beats) : Beats := MkBeats (clamp_i64 (- Beats_value b)).

(** [checked_rem(..).unwrap_or(0)]: [None] for a zero divisor and for the
    overflowing [MIN / -1]. *)
Definition Beats_mod (b rhs : Beats) : Beats :=
  MkBeats (if (Beats_value rhs =? 0) ||
              ((Beats_value b =? i64_MIN) && (Beats_value rhs =? -1))
           then 0 else Z.rem (Beats_value b) (Beats_value rhs)).

(** [floating], and [From<Beats> for f64]. *)
Definition Beats_floating (b : Beats) : f64 :=
  f64_div (f64_of_int (Beats_value b)) (f64_of_int 1000000).

Definition Beats_add (a b : Beats) : Beats := MkBeats (clamp_i64 (Beats_value a + Beats_value b)).
Definition Beats_sub (a b : Beats) : Beats := MkBeats (clamp_i64 (Beats_value a - Beats_value b)).

(** [Encode] and [Decode]. *)
Definition beats_wire : EncodeDecode Beats := {|
  encode_to b out := let? out := encode_to i64_wire (micro_beats b) out in Ok out;
  encoded_size _ := 8%nat;
  decode_from bs := let? (v, n) := decode_from i64_wire bs in Ok (MkBeats v, n)
|}.

#[global] Instance beats_laws : WireLaws beats_wire.
Proof.
  refine {| wire_ok := Beats_ok; wire_norm := id;
            wire_bytes b := wire_bytes i64_wire (Beats_value b) |}.
  - intros b out H. cbn [encode_to beats_wire]. now rewrite (wire_encode i64_wire) by exact H.
  - intros b H. exact (wire_length i64_wire _ H).
  - intros b H. exact (wire_u8 i64_wire _ H).
  - intros [b] rest H. cbn [decode_from beats_wire]. now rewrite (wire_decode i64_wire) by exact H.
  - intros bs v n. cbn [decode_from beats_wire].
    destruct (decode_from i64_wire bs) as [[x k]|] eqn:E; [|discriminate].
    intros [=]; subst. exact (wire_consumed i64_wire _ _ _ E).
Defined.

(** Every operation returns an [i64]. *)
Lemma Beats_ops_ok a b :
  Beats_ok a ->
  Beats_ok (Beats_abs a) /\ Beats_ok (Beats_neg a) /\ Beats_ok (Beats_add a b) /\
  Beats_ok (Beats_sub a b) /\ Beats_ok (Beats_mod a b).
Proof.
  intros Ha. unfold Beats_ok, Beats_abs, Beats_neg, Beats_add, Beats_sub, Beats_mod; simpl.
  repeat split; try apply clamp_i64_range.
  all: destruct (Z.eqb_spec (Beats_value b) 0) as [|Hb]; simpl; [zlia|].
  all: destruct (_ && _); [zlia|].
  all: pose proof (Z.rem_bound_abs (Beats_value a) (Beats_value b) Hb).
  all: pose proof (Z.quot_rem' (Beats_value a) (Beats_value b)).
  all: pose proof (Z.rem_sign_mul (Beats_value a) (Beats_value b) Hb).
  all: pose proof (Z.rem_le (Z.abs (Beats_value a)) (Z.abs (Beats_value b)) ltac:(lia) ltac:(lia)) as L.
  all: rewrite Z.rem_abs in L by assumption.
  all: unfold Beats_ok in Ha; nia || zlia.
Qed.

Lemma f64_as_int_range lo hi x : lo <= 0 <= hi -> lo <= f64_as_int lo hi x <= hi.
Proof.
  intros H. destruct x as [s|s| |s m e]; simpl; try lia; [destruct s; lia|].
  apply clampZ_range. lia.
Qed.

Lemma Beats_new_ok x : Beats_ok (Beats_new x).
Proof. apply f64_as_int_range. zlia. Qed.
