(* ===== verification/Tempo.v ===== *)
(** Tempo: src/src/link/tempo.rs, the conversions between nanoseconds and
    microbeats at a tempo, in 128-bit integer arithmetic around the rounded
    beat period [period_micros]. *)

From stdpp Require Import base list numbers.
From Stdlib Require Import ZArith Lia SpecFloat.
From S2P Require Import Prelude Chrono F64 Encoding Beats.

Record Tempo := MkTempo { Tempo_value : f64 }.

Definition Tempo_new (bpm : f64) : Tempo := MkTempo bpm.
Definition bpm (t : Tempo) : f64 := Tempo_value t.

(** [PartialEq]: IEEE equality of the two values. *)
Definition Tempo_eqb (a b : Tempo) : bool := f64_eqb (Tempo_value a) (Tempo_value b).

Definition period_micros (t : Tempo) : Z :=
  f64_as_i128
    (f64_round (f64_div (f64_mul (f64_of_int 60) (f64_of_int 1000000)) (bpm t))).

(** One iteration of the division loop of [microbeats_from_nanos]: the next
    binary digit of [scale = 1000] enters the fraction of [remainder * 1000]
    by [denominator], held as [fraction] and [residue]. *)
Definition microbeats_step (denominator remainder : Z) (acc : Z * Z) (bit : Z) : Z * Z :=
  let '(fraction, residue) := acc in
  let fraction := wrap_u128 (fraction * 2) in
  let '(fraction, residue) :=
    if wrap_u128 (denominator - residue) <=? residue
    then (wrap_u128 (fraction + 1), wrap_u128 (residue - wrap_u128 (denominator - residue)))
    else (fraction, wrap_u128 (residue * 2)) in
  if negb (Z.land (Z.shiftr 1000 bit) 1 =? 0) then
    if wrap_u128 (denominator - remainder) <=? residue
    then (wrap_u128 (fraction + 1), wrap_u128 (residue - wrap_u128 (denominator - remainder)))
    else (fraction, wrap_u128 (residue + remainder))
  else (fraction, residue).

(** [0..u128::BITS - scale.leading_zeros()] reversed. *)
Definition microbeats_bits : list Z := [9; 8; 7; 6; 5; 4; 3; 2; 1; 0].

Definition microbeats_from_nanos (t : Tempo) (n : Z) : Z :=
  let period := period_micros t in
  if period =? 0 then round_ratio n period
  else
    match checked_i128 (n * 1000) with
    | Some scaled => round_ratio scaled period
    | None =>
        let negative := negb (Bool.eqb (n <? 0) (period <? 0)) in
        let magnitude := Z.abs n in
        let denominator := Z.abs period in
        let remainder := magnitude mod denominator in
        let '(fraction, residue) :=
          fold_left (microbeats_step denominator remainder) microbeats_bits (0, 0) in
        let rounded :=
          clamp_u128 (clamp_u128 (clamp_u128 (magnitude / denominator * 1000) + fraction)
                      + (if (denominator + 1) / 2 <=? residue then 1 else 0)) in
        let bounded := Z.min rounded i128_MAX in
        if negative then (if i128_MAX <? rounded then i128_MIN else - bounded) else bounded
    end.

Definition micros_from_microbeats (t : Tempo) (beats : Z) : Z :=
  let period := period_micros t in
  clamp_i128
    (clamp_i128
       (clamp_i128 (Z.quot beats 1000000 * period)
        + clamp_i128 (Z.rem beats 1000000 * Z.quot period 1000000))
     + round_ratio (wrap_i128 (Z.rem beats 1000000 * Z.rem period 1000000)) 1000000).

Definition nanos_from_microbeats (t : Tempo) (beats : Z) : Z :=
  let period := period_micros t in
  clamp_i128
    (clamp_i128
       (clamp_i128 (Z.quot beats 1000 * period)
        + clamp_i128 (Z.rem beats 1000 * Z.quot period 1000))
     + round_ratio (wrap_i128 (Z.rem beats 1000 * Z.rem period 1000)) 1000).

Section TempoDurations.
Context `{Ch : Chrono}.

(** [From<Duration>]: [60.0 * 1e9 / nanos as f64]. *)
Definition Tempo_from_duration (d : Duration) : Tempo :=
  MkTempo (f64_div (f64_mul (f64_of_int 60) (f64_of_int 1000000000))
                   (f64_of_int (duration_nanos d))).

Definition micros_per_beat (t : Tempo) : Duration :=
  duration_from_nanos (clamp_i128 (period_micros t * 1000)).

Definition micros_to_beats (t : Tempo) (d : Duration) : Beats :=
  Beats_from_microbeats (clamp_i64 (microbeats_from_nanos t (duration_nanos d))).

Definition beats_to_micros (t : Tempo) (b : Beats) : Duration :=
  duration_from_nanos (clamp_i128 (micros_from_microbeats t (Beats_value b) * 1000)).

(** [Encode] and [Decode]: the beat period in microseconds. *)
Definition tempo_wire : EncodeDecode Tempo := {|
  encode_to t out := let? out := encode_to i64_wire (micros (micros_per_beat t)) out in Ok out;
  encoded_size _ := 8%nat;
  decode_from bs :=
    let? (us, n) := decode_from i64_wire bs in
    Ok (Tempo_from_duration (Duration_microseconds us), n)
|}.

End TempoDurations.

(** ** The division loop *)

Lemma period_micros_range t : in_i128 (period_micros t).
Proof. apply f64_as_int_range. zlia. Qed.

(** The loop invariant: [fraction] and [residue] are the quotient and the
    remainder of [remainder] times the digits read so far. *)
Definition step_inv (den rem p : Z) (acc : Z * Z) : Prop :=
  acc.1 * den + acc.2 = p * rem /\ 0 <= acc.2 < den /\ 0 <= acc.1.

Lemma microbeats_step_inv den rem p acc bit :
  0 < den <= 2 ^ 127 -> 0 <= rem < den -> 0 <= p <= 1000 ->
  step_inv den rem p acc ->
  step_inv den rem (2 * p + (if Z.land (Z.shiftr 1000 bit) 1 =? 0 then 0 else 1))
    (microbeats_step den rem acc bit).
Proof.
  intros Hd Hr Hp (I1 & I2 & I3). destruct acc as [f r]; simpl in *.
  assert (f <= 1000) by nia.
  unfold microbeats_step. rewrite (wrap_u128_id (f * 2)), (wrap_u128_id (den - r)),
    (wrap_u128_id (den - rem)) by zlia.
  destruct (Z.leb_spec (den - r) r).
  - rewrite (wrap_u128_id (f * 2 + 1)), (wrap_u128_id (r - (den - r))) by zlia.
    destruct (_ =? 0); simpl negb; cbv iota; [unfold step_inv; simpl; lia|].
    destruct (Z.leb_spec (den - rem) (r - (den - r))); rewrite !wrap_u128_id by zlia;
      unfold step_inv; simpl; lia.
  - rewrite (wrap_u128_id (r * 2)) by zlia.
    destruct (_ =? 0); simpl negb; cbv iota; [unfold step_inv; simpl; lia|].
    destruct (Z.leb_spec (den - rem) (r * 2)); rewrite !wrap_u128_id by zlia;
      unfold step_inv; simpl; lia.
Qed.

(** Reads one more digit of [scale]. *)
Ltac next_bit b Hd Hr :=
  match goal with
  | I : step_inv ?den ?rem ?p ?acc |- _ =>
      let q := eval vm_compute in (2 * p + (if Z.land (Z.shiftr 1000 b) 1 =? 0 then 0 else 1)) in
      assert (step_inv den rem q (microbeats_step den rem acc b))
        by exact (microbeats_step_inv den rem p acc b Hd Hr ltac:(lia) I);
      clear I
  end.

(** The loop divides [remainder * 1000] by [denominator]. *)
Lemma microbeats_loop den rem :
  0 < den <= 2 ^ 127 -> 0 <= rem < den ->
  step_inv den rem 1000 (fold_left (microbeats_step den rem) microbeats_bits (0, 0)).
Proof.
  intros Hd Hr. unfold microbeats_bits. cbn [fold_left].
  assert (step_inv den rem 0 (0, 0)) as I by (unfold step_inv; simpl; lia).
  next_bit 9 Hd Hr. next_bit 8 Hd Hr. next_bit 7 Hd Hr. next_bit 6 Hd Hr. next_bit 5 Hd Hr.
  next_bit 4 Hd Hr. next_bit 3 Hd Hr. next_bit 2 Hd Hr. next_bit 1 Hd Hr. next_bit 0 Hd Hr.
  assumption.
Qed.

(** ** Conversions as rounded quotients *)

(** The saturating magnitude followed by the sign is one saturation. *)
Lemma saturating_signed q f c (negative : bool) :
  0 <= q -> 0 <= f -> 0 <= c <= 1 ->
  (let rounded := clamp_u128 (clamp_u128 (clamp_u128 q + f) + c) in
   let bounded := Z.min rounded i128_MAX in
   if negative then (if i128_MAX <? rounded then i128_MIN else - bounded) else bounded)
  = clamp_i128 ((if negative then -1 else 1) * (q + f + c)).
Proof.
  intros Hq Hf Hc. cbv zeta.
  assert (clamp_u128 (clamp_u128 (clamp_u128 q + f) + c) = Z.min (q + f + c) u128_MAX) as ->
    by clamplia.
  unfold clamp_i128. rewrite clampZ_minmax by zlia.
  destruct negative; [destruct (Z.ltb_spec i128_MAX (Z.min (q + f + c) u128_MAX))|]; zlia.
Qed.

Lemma microbeats_from_nanos_eq t n :
  in_i128 n -> period_micros t <> 0 ->
  microbeats_from_nanos t n = clamp_i128 (rdiv (n * 1000) (period_micros t)).
Proof.
  intros Hn Hp. pose proof (period_micros_range t) as Rp. unfold microbeats_from_nanos.
  destruct (Z.eqb_spec (period_micros t) 0) as [|_]; [contradiction|].
  set (p := period_micros t) in *. destruct (checked_i128 (n * 1000)) as [sc|] eqn:E.
  - apply checked_i128_Some in E as [E ->]. assert (n * 1000 <> i128_MIN) by zlia.
    rewrite round_ratio_rdiv by (assumption || tauto).
    pose proof (rdiv_abs_le (n * 1000) p Hp). rewrite clamp_i128_id; [reflexivity|zlia].
  - clear E. set (d := Z.abs p) in *. set (m := Z.abs n) in *.
    pose proof (Z.mod_pos_bound m d ltac:(lia)) as Hr. pose proof (Z.div_mod m d ltac:(lia)) as Ed.
    pose proof (microbeats_loop d (m mod d) ltac:(zlia) Hr) as L.
    destruct (fold_left _ _ _) as [f r]. destruct L as (L1 & L2 & L3).
    cbn [fst snd] in L1, L2, L3.
    pose proof (Z.div_pos m d ltac:(lia) ltac:(lia)) as Hq.
    assert (rdiv (m * 1000) d = m / d * 1000 + f + (if (d + 1) / 2 <=? r then 1 else 0)) as X
      by (apply rdiv_split; lia).
    rewrite (rdiv_sign_cases (n * 1000) p Hp).
    replace (Z.abs (n * 1000)) with (m * 1000) by lia. fold d. rewrite X.
    replace (n * 1000 <? 0) with (n <? 0) by (zcases; lia).
    rewrite saturating_signed by (destruct (_ <=? _); lia).
    destruct (Bool.eqb (n <? 0) (p <? 0)); reflexivity.
Qed.

(** C16 [microbeats_from_nanos], the 128-bit overflow path included, is the
    exactly rounded quotient [nanos * 1000 / period], half away from zero and
    saturated at the limits of [i128], for every [i128] argument and every
    tempo with a nonzero period. *)
Theorem microbeats_from_nanos_exact t n :
  in_i128 n -> period_micros t <> 0 ->
  microbeats_from_nanos t n = clamp_i128 (rdiv (n * 1000) (period_micros t)).
Proof. apply microbeats_from_nanos_eq. Qed.

(** Saturating sums of terms of one sign saturate once. *)
Lemma clamp_i128_sum3 a b c :
  (0 <= a /\ 0 <= b /\ 0 <= c) \/ (a <= 0 /\ b <= 0 /\ c <= 0) ->
  clamp_i128 (clamp_i128 (clamp_i128 a + clamp_i128 b) + c) = clamp_i128 (a + b + c).
Proof. intros [|]; clamplia. Qed.

(** The split used by both conversions from microbeats. *)
Lemma split_conversion k b p :
  0 < k -> k * k <= i128_MAX ->
  clamp_i128
    (clamp_i128 (clamp_i128 (Z.quot b k * p) + clamp_i128 (Z.rem b k * Z.quot p k))
     + round_ratio (wrap_i128 (Z.rem b k * Z.rem p k)) k)
  = clamp_i128 (rdiv (b * p) k).
Proof.
  intros Hk Hkk.
  pose proof (Z.quot_rem' b k) as Eb. pose proof (Z.quot_rem' p k) as Ep.
  pose proof (Z.rem_bound_abs b k ltac:(lia)) as Bb. pose proof (Z.rem_bound_abs p k ltac:(lia)) as Bp.
  assert (forall z, (0 <= z -> 0 <= Z.quot z k /\ 0 <= Z.rem z k) /\
                    (z <= 0 -> Z.quot z k <= 0 /\ Z.rem z k <= 0)) as Sg.
  { intros z. pose proof (Z.quot_rem' z k). split; intros.
    - pose proof (Z.rem_bound_pos_pos z k ltac:(lia) ltac:(lia)).
      split; [apply Z.quot_pos; lia|lia].
    - pose proof (Z.rem_bound_pos_neg z k ltac:(lia) ltac:(lia)).
      split; [|lia]. nia. }
  pose proof (Sg b) as [Sb1 Sb2]. pose proof (Sg p) as [Sp1 Sp2]. clear Sg.
  set (qb := Z.quot b k) in *. set (rb := Z.rem b k) in *.
  set (qp := Z.quot p k) in *. set (rp := Z.rem p k) in *.
  assert (Z.abs (rb * rp) < k * k) as Rr by (rewrite Z.abs_mul; nia).
  rewrite wrap_i128_id by zlia. rewrite round_ratio_rdiv by (zlia || lia).
  assert (rdiv (b * p) k = qb * p + rb * qp + rdiv (rb * rp) k) as X.
  { assert (b * p = (k * qb + rb) * p) by (f_equal; exact Eb).
    assert (rb * p = rb * (k * qp + rp)) by (f_equal; exact Ep).
    replace (b * p) with ((qb * p + rb * qp) * k + rb * rp) by lia.
    apply rdiv_add_same_sign; [lia|].
    replace ((qb * p + rb * qp) * k * (rb * rp)) with (k * (qb * rb * (p * rp) + (rb * rb) * (qp * rp)))
      by ring.
    assert (0 <= qb * rb) by (destruct (Z.le_ge_cases 0 b); nia).
    assert (0 <= p * rp) by (destruct (Z.le_ge_cases 0 p); nia).
    assert (0 <= qp * rp) by (destruct (Z.le_ge_cases 0 p); nia).
    assert (0 <= rb * rb) by apply Z.square_nonneg.
    apply Z.mul_nonneg_nonneg; [lia|]. apply Z.add_nonneg_nonneg; apply Z.mul_nonneg_nonneg; assumption. }
  rewrite X. apply clamp_i128_sum3.
  pose proof (rdiv_sign (rb * rp) k Hk) as [Rp1 Rp2].
  destruct (Z.le_ge_cases 0 b), (Z.le_ge_cases 0 p); [left|right|right|left];
    (split; [nia|]); (split; [nia|]); (apply Rp1 || apply Rp2); nia.
Qed.

Lemma nanos_from_microbeats_eq t b :
  nanos_from_microbeats t b = clamp_i128 (rdiv (b * period_micros t) 1000).
Proof. apply split_conversion; zlia. Qed.

(** [nanos_from_microbeats] splits beats and period before multiplying;
    the split is invisible: the result is [beats * period / 1000] rounded
    half away from zero and saturated once, for every [i128] argument. *)
Theorem nanos_from_microbeats_exact t b :
  nanos_from_microbeats t b = clamp_i128 (rdiv (b * period_micros t) 1000).
Proof. apply nanos_from_microbeats_eq. Qed.

Lemma micros_from_microbeats_eq t b :
  micros_from_microbeats t b = clamp_i128 (rdiv (b * period_micros t) 1000000).
Proof. apply split_conversion; zlia. Qed.

(** ** The period of a clamped tempo *)

Lemma pos_le_of_compare p q :
  match Some (Pos.compare_cont Eq p q) with Some (Lt | Eq) => true | _ => false end = true ->
  Zpos p <= Zpos q.
Proof.
  change (Pos.compare_cont Eq p q) with (Pos.compare p q).
  destruct (Pos.compare_spec p q); try discriminate; lia.
Qed.

(** The shape of a valid float between two positive integers' floats. *)
Lemma f64_between_20_999 x :
  valid_f64 x -> f64_leb (f64_of_int 20) x = true -> f64_leb x (f64_of_int 999) = true ->
  exists m e, x = S754_finite false m e /\ -48 <= e <= -43 /\ 2 ^ 52 <= Zpos m < 2 ^ 53 /\
    20 * 2 ^ (- e) <= Zpos m <= 999 * 2 ^ (- e).
Proof.
  intros V L1 L2. destruct x as [s|s| |s m e]; try discriminate; [destruct s; discriminate|].
  destruct s; [discriminate|].
  change (f64_of_int 20) with (S754_finite false 5629499534213120 (-48)) in L1.
  change (f64_of_int 999) with (S754_finite false 8787296929185792 (-43)) in L2.
  unfold f64_leb, SFleb, SFcompare in L1, L2.
  assert (-48 <= e <= -43) as He.
  { destruct (Z.compare_spec (-48) e), (Z.compare_spec e (-43)); try discriminate; lia. }
  pose proof (valid_f64_finite _ _ _ V) as (Hm & _).
  assert (2 ^ 52 <= Zpos m) as Hm'.
  { unfold valid_f64, valid_binary, bounded, canonical_mantissa, fexp, emin in V.
    apply andb_prop in V as [V _]. apply Z.eqb_eq in V. rewrite digits2_pos_log2 in V.
    unfold f64_prec, f64_emax in V. apply Z.log2_le_pow2; lia. }
  exists m, e. repeat (split; [reflexivity || lia|]).
  assert (e = -48 -> 5629499534213120 <= Zpos m) as X1.
  { intros ->. revert L1. rewrite Z.compare_refl. apply pos_le_of_compare. }
  assert (e = -43 -> Zpos m <= 8787296929185792) as X2.
  { intros ->. revert L2. rewrite Z.compare_refl. apply pos_le_of_compare. }
  assert (e = -48 \/ e = -47 \/ e = -46 \/ e = -45 \/ e = -44 \/ e = -43) as C by lia.
  destruct C as [->|[->|[->|[->|[->| ->]]]]]; lia.
Qed.

Lemma f64_60e6 :
  f64_mul (f64_of_int 60) (f64_of_int 1000000) = S754_finite false 8053063680000000 (-27).
Proof. vm_compute. reflexivity. Qed.

Lemma period_quotient m e q r :
  -48 <= e <= -43 -> 20 * 2 ^ (- e) <= m <= 999 * 2 ^ (- e) ->
  8053063680000000 * 2 ^ 53 = m * q + r -> 0 <= r < m ->
  60060 * 2 ^ (80 + e) + 1 <= q <= 3000000 * 2 ^ (80 + e).
Proof.
  intros He Hm E Hr.
  assert (2 ^ (- e) * 2 ^ (80 + e) = 2 ^ 80) as PQ
    by (rewrite <- Z.pow_add_r by lia; f_equal; lia).
  assert (2 ^ (- e) <= 2 ^ 48) as P by (apply Z.pow_le_mono_r; lia).
  assert (0 < 2 ^ (- e)) by (apply Z.pow_pos_nonneg; lia).
  assert (0 < 2 ^ (80 + e)) by (apply Z.pow_pos_nonneg; lia).
  generalize dependent (2 ^ (- e)). generalize dependent (2 ^ (80 + e)). intros Q HQ P PQ HP1 HP2 Hm.
  assert (8053063680000000 * 2 ^ 53 = 60000000 * (Q * P)) as A by lia.
  split.
  - destruct (Z.le_gt_cases (60060 * Q + 1) q) as [|L]; [assumption|exfalso].
    assert (m * (q + 1) <= 999 * P * (60060 * Q + 1)) by (apply Z.mul_le_mono_nonneg; nia). lia.
  - destruct (Z.le_gt_cases q (3000000 * Q)) as [|L]; [assumption|exfalso].
    assert (20 * P * (3000000 * Q + 1) <= m * q) by (apply Z.mul_le_mono_nonneg; nia). lia.
Qed.

(** A tempo between 20 and 999 beats per minute has a beat period between
    60060 and 3000000 microseconds, whatever the two roundings do. *)
Lemma period_micros_bounds x :
  valid_f64 x -> f64_leb (f64_of_int 20) x = true -> f64_leb x (f64_of_int 999) = true ->
  60060 <= period_micros (MkTempo x) <= 3000000.
Proof.
  intros V L1 L2. destruct (f64_between_20_999 x V L1 L2) as (m & e & -> & He & Hm & Hb).
  unfold period_micros, f64_as_i128, bpm, Tempo_value.
  rewrite f64_60e6. unfold f64_div, SFdiv, SFdiv_core_binary.
  rewrite (Zdigits2_log2 (Zpos m)), (Z.log2_unique (Zpos m) 52) by lia.
  replace (Zdigits2 8053063680000000) with 53 by (vm_compute; reflexivity).
  replace (Z.min _ _) with (-80 - e) by (unfold fexp, emin, f64_prec, f64_emax; lia).
  replace (-27 - e - (-80 - e)) with 53 by lia. cbv iota.
  rewrite Z.shiftl_mul_pow2 by lia.
  pose proof (Z_div_mod (8053063680000000 * 2 ^ 53) (Zpos m) ltac:(lia)) as D.
  destruct (Z.div_eucl _ _) as [q r]. cbn [xorb].
  destruct (binary_round_aux_close q (-80 - e) (new_location (Zpos m) r)) as (m3 & j & -> & Hj & Hc);
    [nia|lia|].
  set (K := 80 + e) in *.
  rewrite f64_round_cast; [| lia | | zlia | zlia].
  2: { replace (- (-80 - e + j)) with (K - j) by lia.
       assert (2 ^ 30 <= 2 ^ (K - j)) by (apply Z.pow_le_mono_r; lia).
       apply Z.lt_le_trans with (2 ^ 53 * 2 ^ 30 / 2); [replace (2 ^ 53 * 2 ^ 30 / 2) with (2 ^ 82) by (vm_compute; reflexivity)|].
       - assert (1 <= 2 ^ j) by (apply (Z.pow_le_mono_r 2 0 j); lia). nia.
       - apply Z.div_le_mono; lia. }
  replace (- (-80 - e + j)) with (K - j) by lia.
  rewrite <- (rdiv_scale (Zpos m3) _ (2 ^ j)), <- Z.pow_add_r by (try apply Z.pow_pos_nonneg; lia).
  replace (K - j + j) with K by lia.
  assert (0 < 2 ^ K) by (apply Z.pow_pos_nonneg; lia).
  assert (60060 * 2 ^ K + 1 <= q <= 3000000 * 2 ^ K) as HQ.
  { destruct D as [D1 D2]. apply (period_quotient (Zpos m) e q r); assumption. }
  split.
  - rewrite <- (rdiv_exact 60060 (2 ^ K)) by lia. apply rdiv_mono_num; lia.
  - replace 3000000 with (3000000 + rdiv 1 (2 ^ K)).
    + rewrite <- rdiv_add_same_sign by nia. apply rdiv_mono_num; lia.
    + rewrite rdiv_nonneg, Z.div_small; try lia.
      pose proof (Z.pow_le_mono_r 2 2 K). lia.
Qed.

Section TempoWire.
Context `{Laws : ChronoLaws}.

Lemma micros_range d : in_i64 (micros d).
Proof. rewrite micros_eq. apply clamp_i64_range. Qed.

(** A tempo travels as its beat period in microseconds. *)
#[global] Instance tempo_laws : WireLaws tempo_wire.
Proof.
  refine {| wire_ok _ := True;
            wire_norm t := Tempo_from_duration (Duration_microseconds (micros (micros_per_beat t)));
            wire_bytes t := wire_bytes i64_wire (micros (micros_per_beat t)) |}.
  - intros t out _. cbn [encode_to tempo_wire]. now rewrite (wire_encode i64_wire) by apply micros_range.
  - intros t _. apply (wire_length i64_wire), micros_range.
  - intros t _. apply (wire_u8 i64_wire), micros_range.
  - intros t rest _. cbn [decode_from tempo_wire].
    now rewrite (wire_decode i64_wire) by apply micros_range.
  - intros bs v n. cbn [decode_from tempo_wire].
    destruct (decode_from i64_wire bs) as [[x k]|] eqn:E; [|discriminate].
    intros [=]; subst. exact (wire_consumed i64_wire _ _ _ E).
Defined.

End TempoWire.
