(* ===== verification/Timeline.v ===== *)
(** Timelines: src/src/link/timeline.rs.  A timeline maps host or ghost time
    to beats; the functions at the end move a timeline between the session
    and a client across a [GhostXForm]. *)

From stdpp Require Import base list numbers.
From Stdlib Require Import ZArith Lia SpecFloat.
From S2P Require Import Prelude Chrono F64 Encoding Beats Tempo.

(** ["tmln"] *)
Definition TIMELINE_HEADER_KEY : Z := fourcc 116 109 108 110.
Definition TIMELINE_SIZE : Z := 24.
Definition TIMELINE_HEADER : PayloadEntryHeader :=
  {| key := TIMELINE_HEADER_KEY; size := TIMELINE_SIZE |}.

Section Timeline.
Context `{Ch : Chrono}.

Record Timeline := MkTimeline {
  tempo : Tempo;
  beat_origin : Beats;
  time_origin : Duration
}.

Definition Timeline_default : Timeline :=
  MkTimeline (MkTempo f64_zero) (MkBeats 0) Duration_zero.

(** The derived [PartialEq]. *)
Definition Timeline_eqb (a b : Timeline) : bool :=
  Tempo_eqb (tempo a) (tempo b) && (Beats_value (beat_origin a) =? Beats_value (beat_origin b)) &&
  Duration_eqb (time_origin a) (time_origin b).

Definition microbeats_at_nanos (tl : Timeline) (n : Z) : Z :=
  let elapsed := clamp_i128 (n - duration_nanos (time_origin tl)) in
  clamp_i128 (microbeats_from_nanos (tempo tl) elapsed + Beats_value (beat_origin tl)).

Definition microbeats_at (tl : Timeline) (time : Duration) : Z :=
  microbeats_at_nanos tl (duration_nanos time).

Definition to_beats (tl : Timeline) (time : Duration) : Beats :=
  Beats_from_microbeats (clamp_i64 (microbeats_at tl time)).

Definition nanos_at_microbeats (tl : Timeline) (beats : Z) : Z :=
  let difference := wrap_i128 (beats - Beats_value (beat_origin tl)) in
  let elapsed := nanos_from_microbeats (tempo tl) difference in
  clamp_i128 (duration_nanos (time_origin tl) + elapsed).

Definition time_at_microbeats (tl : Timeline) (beats : Z) : Duration :=
  duration_from_nanos (nanos_at_microbeats tl beats).

Definition from_beats (tl : Timeline) (beats : Beats) : Duration :=
  time_at_microbeats tl (Beats_value beats).

(** [Encode] and [Decode]. *)
Definition timeline_wire : EncodeDecode Timeline := {|
  encode_to tl out :=
    let? out := encode_to tempo_wire (tempo tl) out in
    let? out := encode_to beats_wire (beat_origin tl) out in
    let? out := encode_to i64_wire (micros (time_origin tl)) out in
    Ok out;
  encoded_size tl :=
    (encoded_size tempo_wire (tempo tl) + encoded_size beats_wire (beat_origin tl) + 8)%nat;
  decode_from bs :=
    let? (tempo_micros, n1) := decode_from i64_wire bs in
    let? (beat_origin_micro_beats, n2) := decode_from i64_wire (drop n1 bs) in
    let? (time_origin_micros, n3) := decode_from i64_wire (drop (n1 + n2) bs) in
    Ok (MkTimeline (Tempo_from_duration (Duration_microseconds tempo_micros))
                   (MkBeats beat_origin_micro_beats)
                   (Duration_microseconds time_origin_micros), (n1 + n2 + n3)%nat)
|}.

Definition Timeline_encode (tl : Timeline) : result bytes EncodeError :=
  let? encoded := PayloadEntryHeader_encode TIMELINE_HEADER in
  let? body := encode_to_vec timeline_wire tl in
  Ok (encoded ++ body).

Definition clamp_tempo (tl : Timeline) : Timeline :=
  let MIN_BPM := f64_of_int 20 in
  let MAX_BPM := f64_of_int 999 in
  let b := bpm (tempo tl) in
  MkTimeline
    (MkTempo (if f64_is_nan b then f64_of_int 120 else f64_clamp b MIN_BPM MAX_BPM))
    (beat_origin tl) (time_origin tl).

End Timeline.

(** ** Time and beats on one timeline *)

Section TimelineProperties.
Context `{Laws : ChronoLaws}.

Definition Timeline_ok (tl : Timeline) : Prop :=
  valid_f64 (Tempo_value (tempo tl)) /\ Beats_ok (beat_origin tl).

Lemma rdiv_trip b p :
  1000 < p -> rdiv (rdiv (b * p) 1000 * 1000) p = b.
Proof.
  intros Hp. assert (forall b, 0 <= b -> rdiv (rdiv (b * p) 1000 * 1000) p = b) as P.
  { intros c Hc. assert (0 <= c * p) by nia. rewrite (rdiv_nonneg (c * p)) by lia.
    pose proof (rdiv_nonneg_bounds (c * p) 1000 ltac:(lia) ltac:(lia)) as B.
    pose proof (Z.div_pos (2 * (c * p) + 1000) 2000 ltac:(lia) ltac:(lia)).
    apply rdiv_nonneg_unique; lia. }
  destruct (Z.le_gt_cases 0 b); [now apply P|].
  specialize (P (- b) ltac:(lia)).
  rewrite Z.mul_opp_l, rdiv_opp_l, Z.mul_opp_l, rdiv_opp_l in P. lia.
Qed.

(** The wide conversions are inverse to each other beyond a period of one
    millisecond. *)
Lemma microbeats_at_time_at tl u :
  Beats_ok (beat_origin tl) -> i64_MIN * 4 <= u <= i64_MAX * 4 -> 1000 < period_micros (tempo tl) ->
  - max_nanos <= duration_nanos (time_origin tl) +
      rdiv ((u - Beats_value (beat_origin tl)) * period_micros (tempo tl)) 1000 <= max_nanos ->
  microbeats_at tl (time_at_microbeats tl u) = u.
Proof.
  intros Ho Hu Hp Hr. unfold time_at_microbeats, microbeats_at,
    microbeats_at_nanos, nanos_at_microbeats, Beats_ok in *.
  set (D := u - Beats_value (beat_origin tl)) in *.
  set (p := period_micros (tempo tl)) in *. set (o := duration_nanos (time_origin tl)) in *.
  assert (- max_nanos <= o <= max_nanos) as Ro by apply duration_nanos_range.
  rewrite (wrap_i128_id D) by zlia.
  rewrite nanos_from_microbeats_eq. fold p. rewrite (clamp_i128_id (rdiv (D * p) 1000)) by durlia.
  rewrite (clamp_i128_id (o + rdiv (D * p) 1000)) by durlia. rewrite duration_nanos_from_id by lia.
  replace (o + rdiv (D * p) 1000 - o) with (rdiv (D * p) 1000) by lia.
  rewrite (clamp_i128_id (rdiv (D * p) 1000)) by durlia.
  rewrite microbeats_from_nanos_eq by (fold p; durlia). fold p.
  rewrite rdiv_trip by assumption. rewrite (clamp_i128_id D) by zlia.
  replace (D + Beats_value (beat_origin tl)) with u by lia. apply clamp_i128_id. zlia.
Qed.

(** Converting a beat to a time and back on the same timeline returns the
    beat exactly, for every timeline whose beat period exceeds one
    millisecond and every beat whose time is representable. *)
Theorem to_beats_from_beats tl b :
  Timeline_ok tl -> Beats_ok b -> 1000 < period_micros (tempo tl) ->
  - max_nanos <= duration_nanos (time_origin tl) +
      rdiv ((Beats_value b - Beats_value (beat_origin tl)) * period_micros (tempo tl)) 1000
    <= max_nanos ->
  to_beats tl (from_beats tl b) = b.
Proof.
  intros [_ Ho] Hb Hp Hr. unfold to_beats, from_beats, Beats_ok in *.
  rewrite microbeats_at_time_at by (assumption || zlia). rewrite clamp_i64_id by assumption.
  now destruct b.
Qed.

(** [clamp_tempo] of a valid tempo lands in [20, 999]. *)
Lemma f64_clamp_between x :
  valid_f64 x -> f64_is_nan x = false ->
  let c := f64_clamp x (f64_of_int 20) (f64_of_int 999) in
  valid_f64 c /\ f64_leb (f64_of_int 20) c = true /\ f64_leb c (f64_of_int 999) = true.
Proof.
  intros V N. cbv zeta. unfold f64_clamp.
  destruct (f64_ltb x (f64_of_int 20)) eqn:L1; [now vm_compute|].
  destruct (f64_ltb (f64_of_int 999) x) eqn:L2; [now vm_compute|].
  split; [assumption|]. split.
  - apply f64_ltb_false_leb; auto.
  - apply f64_ltb_false_leb; auto.
Qed.

Lemma clamp_tempo_period_bounds tl :
  valid_f64 (Tempo_value (tempo tl)) ->
  60060 <= period_micros (tempo (clamp_tempo tl)) <= 3000000 /\
  valid_f64 (Tempo_value (tempo (clamp_tempo tl))) /\
  beat_origin (clamp_tempo tl) = beat_origin tl /\ time_origin (clamp_tempo tl) = time_origin tl.
Proof.
  intros V. assert (valid_f64 (Tempo_value (tempo (clamp_tempo tl))) /\
    60060 <= period_micros (tempo (clamp_tempo tl)) <= 3000000) as [H1 H2]; [|auto].
  cbn [clamp_tempo tempo Tempo_value]. unfold bpm.
  destruct (f64_is_nan (Tempo_value (tempo tl))) eqn:N.
  - split; [now vm_compute|]. apply period_micros_bounds; now vm_compute.
  - destruct (f64_clamp_between _ V N) as (C1 & C2 & C3). split; [assumption|].
    now apply period_micros_bounds.
Qed.

(** Whatever tempo a peer or a client supplies, NaN and infinities
    included, [clamp_tempo] yields one between 20 and 999 beats per minute,
    whose beat period lies between 60060 and 3000000 microseconds; the two
    origins are kept. *)
Theorem clamp_tempo_period tl :
  valid_f64 (Tempo_value (tempo tl)) ->
  60060 <= period_micros (tempo (clamp_tempo tl)) <= 3000000 /\
  valid_f64 (Tempo_value (tempo (clamp_tempo tl))) /\
  beat_origin (clamp_tempo tl) = beat_origin tl /\ time_origin (clamp_tempo tl) = time_origin tl.
Proof. apply clamp_tempo_period_bounds. Qed.

(** A timeline [clamp_tempo] leaves alone. *)
Definition clamped (tl : Timeline) : Prop := clamp_tempo tl = tl.

Lemma clamp_tempo_clamped tl : clamped (clamp_tempo tl).
Proof.
  unfold clamped, clamp_tempo, bpm. cbn [tempo Tempo_value beat_origin time_origin]. f_equal. f_equal.
  destruct (f64_is_nan (Tempo_value (tempo tl))) eqn:N; [reflexivity|]. unfold f64_clamp.
  destruct (f64_ltb (Tempo_value (tempo tl)) (f64_of_int 20)) eqn:L1; [reflexivity|].
  destruct (f64_ltb (f64_of_int 999) (Tempo_value (tempo tl))) eqn:L2; [reflexivity|].
  now rewrite N, L1, L2.
Qed.

Lemma clamped_tempo a b : clamped a -> tempo b = tempo a -> clamped b.
Proof.
  unfold clamped, clamp_tempo. destruct a, b; cbn. intros [= E] ->. now rewrite E.
Qed.

(** A timeline that compares equal to a clamped one is that one. *)
Lemma Timeline_eqb_clamped a b : clamped b -> Timeline_eqb a b = true -> a = b.
Proof.
  intros C E. unfold Timeline_eqb in E. apply andb_prop in E as [E E3]. apply andb_prop in E as [E1 E2].
  apply Duration_eqb_spec in E3. apply Z.eqb_eq in E2.
  destruct a as [[x] [u] t], b as [[y] [v] w]. cbn in *. subst.
  change (f64_eqb x y = true) in E1.
  apply f64_eqb_eq in E1 as [-> | (s & r & -> & ->)]; [reflexivity|].
  discriminate C.
Qed.

Lemma Timeline_eqb_refl a : clamped a -> Timeline_eqb a a = true.
Proof.
  intros C. unfold Timeline_eqb. rewrite Z.eqb_refl, (proj2 (Duration_eqb_spec _ _) eq_refl), !andb_true_r.
  destruct a as [[x] o t]. change (f64_eqb x x = true). apply f64_eqb_refl.
  destruct x; try reflexivity. discriminate C.
Qed.

(** A timeline travels as its beat period, its beat origin and its time
    origin, the times in microseconds. *)
#[global] Instance timeline_laws : WireLaws timeline_wire.
Proof.
  apply (wire_via (triple_wire tempo_wire beats_wire i64_wire) timeline_wire
           (fun tl => (tempo tl, beat_origin tl, micros (time_origin tl)))
           (fun p => MkTimeline p.1.1 p.1.2 (Duration_microseconds p.2))).
  - solve_via.
  - solve_via.
  - intros b. cbn [decode_from timeline_wire triple_wire tempo_wire beats_wire].
    destruct (decode_from i64_wire b) as [[t n1]|]; [|reflexivity].
    destruct (decode_from i64_wire (drop n1 b)) as [[o n2]|]; [|reflexivity].
    now destruct (decode_from i64_wire (drop (n1 + n2) b)) as [[u n3]|].
Defined.

End TimelineProperties.
