(* ===== verification/GhostXForm.v ===== *)
(** Ghost transforms: src/src/link/ghostxform.rs, the affine map between host
    time and the session's ghost time, computed on the exact binary value of
    the slope in 128-bit arithmetic. *)

From stdpp Require Import base list numbers.
From Stdlib Require Import ZArith Lia SpecFloat.
From S2P Require Import Prelude Chrono F64.

Section GhostXForm.
Context `{Ch : Chrono, FD : FloatDecode}.

Record GhostXForm := MkXForm { slope : f64; intercept : Duration }.

Definition GhostXForm_default : GhostXForm := MkXForm f64_zero Duration_zero.

(** The derived [PartialEq]. *)
Definition GhostXForm_eqb (a b : GhostXForm) : bool :=
  f64_eqb (slope a) (slope b) && Duration_eqb (intercept a) (intercept b).

Definition host_to_ghost (x : GhostXForm) (host_time : Duration) : Duration :=
  let n := duration_nanos host_time in
  if n =? 0 then intercept x
  else
    let offset :=
      if f64_is_finite (slope x) then
        let '(mantissa, exponent, sign) := integer_decode (slope x) in
        let magnitude := Z.abs n in
        let fraction := wrap_u128 (magnitude mod 1000 * mantissa) in
        let whole := wrap_u128 (wrap_u128 (magnitude / 1000 * mantissa) + fraction / 1000) in
        let magnitude :=
          if exponent <? 0 then
            let shift := - exponent in
            if 128 <=? shift then 0
            else wrap_u128 (Z.shiftr whole shift +
                   (if Z.shiftl 1 (shift - 1) <=? Z.land whole (Z.shiftl 1 shift - 1)
                    then 1 else 0))
          else
            let shift := exponent in
            let limit := i128_MAX in
            if (127 <=? shift) || (Z.shiftr limit shift <? whole) then limit
            else
              Z.min (clamp_u128 (wrap_u128 (Z.shiftl whole shift) +
                       clamp_u128 (clamp_u128 (fraction mod 1000 * Z.shiftl 1 shift) + 500) / 1000))
                    limit in
        if negb (Bool.eqb (n <? 0) (sign <? 0)) then - magnitude else magnitude
      else
        f64_as_i128 (f64_round (f64_mul (slope x) (f64_div (f64_of_int n) (f64_of_int 1000)))) in
    duration_from_nanos (clamp_i128 (clamp_i128 (offset * 1000) + duration_nanos (intercept x))).

(** The 256-bit product of [host_to_ghost_wide_nanos]: lower and upper half. *)
Definition wide_product (magnitude mantissa : Z) : Z * Z :=
  let lower := wrap_u128 (Z.land magnitude u64_MAX * mantissa) in
  let upper := wrap_u128 (Z.shiftr magnitude 64 * mantissa) in
  let sum := lower + wrap_u128 (Z.shiftl upper 64) in
  (wrap_u128 sum,
   wrap_u128 (Z.shiftr upper 64 + (if u128_MAX <? sum then 1 else 0))).

(** Its scaling by [2 ^ exponent], rounded and saturated at [u128::MAX]. *)
Definition wide_scale (lower upper exponent : Z) : Z :=
  let limit := u128_MAX in
  if exponent <? 0 then
    let shift := - exponent in
    let overflow := (shift <? 128) && negb (Z.shiftr upper shift =? 0) in
    let whole :=
      if (1 <=? shift) && (shift <=? 127) then
        Z.lor (Z.shiftr lower shift) (wrap_u128 (Z.shiftl upper (128 - shift)))
      else if shift =? 128 then upper
      else if (129 <=? shift) && (shift <=? 255) then Z.shiftr upper (shift - 128)
      else 0 in
    let round_up :=
      if (1 <=? shift) && (shift <=? 128) then
        negb (Z.land (Z.shiftr lower (shift - 1)) 1 =? 0)
      else if (129 <=? shift) && (shift <=? 256) then
        negb (Z.land (Z.shiftr upper (shift - 129)) 1 =? 0)
      else false in
    if overflow then limit
    else Z.min (clamp_u128 (whole + (if round_up then 1 else 0))) limit
  else
    let shift := exponent in
    if negb (upper =? 0) || (128 <=? shift) || (Z.shiftr limit shift <? lower) then limit
    else wrap_u128 (Z.shiftl lower shift).

Definition host_to_ghost_wide_nanos (x : GhostXForm) (host_time : Duration) : Z :=
  let n := duration_nanos host_time in
  if (n =? 0) || negb (f64_is_finite (slope x)) then duration_nanos (host_to_ghost x host_time)
  else
    let '(mantissa, exponent, sign) := integer_decode (slope x) in
    let '(lower, upper) := wide_product (Z.abs n) mantissa in
    let negative := negb (Bool.eqb (n <? 0) (sign <? 0)) in
    let magnitude := wide_scale lower upper exponent in
    let ic := duration_nanos (intercept x) in
    let intercept_magnitude := Z.abs ic in
    let '(magnitude, negative) :=
      if Bool.eqb negative (ic <? 0) then (clamp_u128 (magnitude + intercept_magnitude), negative)
      else if intercept_magnitude <=? magnitude then (magnitude - intercept_magnitude, negative)
      else (intercept_magnitude - magnitude, negb negative) in
    let magnitude := Z.min magnitude (i128_MAX + (if negative then 1 else 0)) in
    if negative then (if i128_MAX <? magnitude then i128_MIN else - magnitude) else magnitude.

Definition host_to_ghost_nanos (x : GhostXForm) (host_time : Duration) : Duration :=
  duration_from_nanos (host_to_ghost_wide_nanos x host_time).

(** The restoring division loop: [None] is the early [return Err]. *)
Fixpoint restoring_division (steps : nat) (limit denominator quotient remainder : Z)
  : option (Z * Z) :=
  match steps with
  | O => Some (quotient, remainder)
  | S steps =>
      if limit / 2 <? quotient then None
      else
        let quotient := wrap_u128 (quotient * 2) in
        let remainder := wrap_u128 (remainder * 2) in
        if denominator <=? remainder
        then restoring_division steps limit denominator
               (wrap_u128 (quotient + 1)) (remainder - denominator)
        else restoring_division steps limit denominator quotient remainder
  end.

Definition ghost_nanos_to_host_units (x : GhostXForm) (ghost_nanos unit : Z)
  : result Duration Duration :=
  let difference := clamp_i128 (ghost_nanos - duration_nanos (intercept x)) in
  if f64_eqb (slope x) f64_zero || negb (f64_is_finite (slope x)) then
    Ok (Duration_microseconds
          (f64_as_i64 (f64_round
             (f64_div (f64_div (f64_of_int difference) (f64_of_int 1000)) (slope x)))))
  else if difference =? 0 then Ok Duration_zero
  else
    let '(mantissa, exponent, sign) := integer_decode (slope x) in
    let denominator := wrap_u128 (mantissa * unit) in
    let magnitude := Z.abs difference in
    let negative := negb (Bool.eqb (difference <? 0) (sign <? 0)) in
    let limit :=
      if negative then Z.abs (duration_nanos Duration_MIN) / unit
      else duration_nanos Duration_MAX / unit in
    let units :=
      if 0 <=? exponent then
        let shift := exponent in
        let quotient := magnitude / denominator in
        Some (if 128 <=? shift then 0
              else if shift =? 0 then
                wrap_u128 (quotient + (if (denominator + 1) / 2 <=? magnitude mod denominator
                                       then 1 else 0))
              else wrap_u128 (Z.shiftr quotient shift + Z.land (Z.shiftr quotient (shift - 1)) 1))
      else
        match restoring_division (Z.to_nat (- exponent)) limit denominator
                (magnitude / denominator) (magnitude mod denominator) with
        | None => None
        | Some (quotient, remainder) =>
            Some (wrap_u128 (quotient + (if (denominator + 1) / 2 <=? remainder then 1 else 0)))
        end in
    match units with
    | None => Err (if negative then Duration_MIN else Duration_MAX)
    | Some units =>
        let n := wrap_u128 (Z.min units limit * unit) in
        let duration := duration_from_nanos (if negative then - n else n) in
        if limit <? units then Err duration else Ok duration
    end.

Definition unwrap_either (r : result Duration Duration) : Duration :=
  match r with Ok d => d | Err d => d end.

Definition ghost_nanos_to_host (x : GhostXForm) (ghost_nanos : Z) : Duration :=
  unwrap_either (ghost_nanos_to_host_units x ghost_nanos 1).

Definition ghost_to_host_nanos (x : GhostXForm) (ghost_time : Duration) : Duration :=
  ghost_nanos_to_host x (duration_nanos ghost_time).

Definition checked_ghost_nanos_to_host (x : GhostXForm) (ghost_nanos : Z) : option Duration :=
  if f64_eqb (slope x) f64_zero || negb (f64_is_finite (slope x)) then None
  else result_ok (ghost_nanos_to_host_units x ghost_nanos 1).

Definition ghost_to_host (x : GhostXForm) (ghost_time : Duration) : Duration :=
  unwrap_either (ghost_nanos_to_host_units x (duration_nanos ghost_time) 1000).

End GhostXForm.

(** ** Shifts as divisions *)

Lemma land_1 a : Z.land a 1 = a mod 2.
Proof. exact (Z.land_ones a 1 ltac:(lia)). Qed.

Lemma div_pow2_add p a b : 0 <= a -> 0 <= b -> p / 2 ^ (a + b) = p / 2 ^ a / 2 ^ b.
Proof.
  intros. rewrite Z.pow_add_r by lia. rewrite Z.div_div; [reflexivity| |];
    pose proof (Z.pow_pos_nonneg 2 a); pose proof (Z.pow_pos_nonneg 2 b); lia.
Qed.

(** Rounding by a power of two looks at one more bit. *)
Lemma rdiv_pow2 p s :
  0 <= p -> 1 <= s -> rdiv p (2 ^ s) = p / 2 ^ s + (p / 2 ^ (s - 1)) mod 2.
Proof.
  intros Hp Hs. replace s with (s - 1 + 1) at 2 by lia.
  rewrite div_pow2_add by lia. change (2 ^ 1) with 2.
  assert (2 ^ s = 2 * 2 ^ (s - 1)) as E by (rewrite <- Z.pow_succ_r by lia; f_equal; lia).
  pose proof (Z.pow_pos_nonneg 2 (s - 1) ltac:(lia) ltac:(lia)) as H. rewrite E.
  set (h := 2 ^ (s - 1)) in *. pose proof (Z.div_mod p h ltac:(lia)) as D.
  pose proof (Z.mod_pos_bound p h ltac:(lia)) as B. set (q := p / h) in *.
  pose proof (Z.div_mod q 2 ltac:(lia)) as D2. pose proof (Z.mod_pos_bound q 2 ltac:(lia)) as B2.
  apply rdiv_nonneg_unique; [lia|lia|]. nia.
Qed.

Lemma lor_shifted a b k : 0 <= k -> 0 <= a < 2 ^ k -> Z.lor a (b * 2 ^ k) = a + b * 2 ^ k.
Proof.
  intros Hk Ha. assert (Z.land a (b * 2 ^ k) = 0) as L.
  { apply Z.bits_inj'. intros n Hn. rewrite Z.land_spec, Z.bits_0.
    destruct (Z.lt_ge_cases n k).
    - rewrite Z.mul_pow2_bits_low by lia. apply andb_false_r.
    - rewrite (Z.testbit_eqb a n) by lia. rewrite Z.div_small; [reflexivity|].
      pose proof (Z.pow_le_mono_r 2 k n). lia. }
  rewrite <- Z.lxor_lor by assumption. symmetry. now apply Z.add_nocarry_lxor.
Qed.

(** ** The 256-bit product *)

Lemma wide_product_spec mag man :
  0 <= mag < 2 ^ 84 -> 0 <= man < 2 ^ 53 ->
  let '(lower, upper) := wide_product mag man in
  upper * 2 ^ 128 + lower = mag * man /\ 0 <= lower < 2 ^ 128 /\ 0 <= upper < 2 ^ 128.
Proof.
  intros Hm Hn. unfold wide_product.
  assert (Z.land mag u64_MAX = mag mod 2 ^ 64) as ->.
  { change u64_MAX with (Z.ones 64). apply Z.land_ones. lia. }
  rewrite !Z.shiftr_div_pow2, Z.shiftl_mul_pow2 by lia.
  pose proof (Z.div_mod mag (2 ^ 64) ltac:(lia)) as D. pose proof (Z.mod_pos_bound mag (2 ^ 64) ltac:(lia)).
  set (hi := mag / 2 ^ 64) in *. set (lo := mag mod 2 ^ 64) in *.
  assert (0 <= hi < 2 ^ 20) by lia.
  assert (0 <= lo * man < 2 ^ 117) by nia. assert (0 <= hi * man < 2 ^ 73) by nia.
  rewrite (wrap_u128_id (lo * man)), (wrap_u128_id (hi * man)) by zlia.
  set (u := hi * man) in *. set (l := lo * man) in *.
  assert (wrap_u128 (u * 2 ^ 64) = u mod 2 ^ 64 * 2 ^ 64) as ->.
  { unfold wrap_u128. change (2 ^ 128) with (2 ^ 64 * 2 ^ 64). now rewrite Z.mul_mod_distr_r by lia. }
  pose proof (Z.div_mod u (2 ^ 64) ltac:(lia)) as Du. pose proof (Z.mod_pos_bound u (2 ^ 64) ltac:(lia)).
  assert (mag * man = u * 2 ^ 64 + l) as E by (unfold u, l; rewrite D at 1; ring).
  set (uh := u / 2 ^ 64) in *. set (ul := u mod 2 ^ 64) in *. rewrite E, Du.
  destruct (Z.ltb_spec u128_MAX (l + ul * 2 ^ 64)).
  - rewrite (wrap_u128_id (uh + 1)) by zlia. unfold wrap_u128.
    rewrite <- (Z.mod_unique (l + ul * 2 ^ 64) (2 ^ 128) 1 (l + ul * 2 ^ 64 - 2 ^ 128)); zlia.
  - rewrite !wrap_u128_id by zlia. zlia.
Qed.

(** The exact value a scaled product is rounded from. *)
Definition scale_round (p e : Z) : Z := if e <? 0 then rdiv p (2 ^ (- e)) else p * 2 ^ e.

Lemma scale_round_nonneg p e : 0 <= p -> 0 <= scale_round p e.
Proof.
  intros Hp. unfold scale_round. destruct (Z.ltb_spec e 0).
  - apply rdiv_sign; [apply Z.pow_pos_nonneg|]; lia.
  - pose proof (Z.pow_pos_nonneg 2 e). nia.
Qed.

Lemma scale_round_opp p e : scale_round (- p) e = - scale_round p e.
Proof. unfold scale_round. destruct (e <? 0); [apply rdiv_opp_l|ring]. Qed.

(** Decides the comparisons of [wide_scale] on a shift in a known range. *)
Ltac decide_shift shift :=
  repeat match goal with
  | |- context [?a <=? ?b] => first [replace (a <=? b) with true by (symmetry; apply Z.leb_le; lia)
                                   | replace (a <=? b) with false by (symmetry; apply Z.leb_gt; lia)]
  | |- context [shift <? 128] => first [replace (shift <? 128) with true by (symmetry; apply Z.ltb_lt; lia)
                                   | replace (shift <? 128) with false by (symmetry; apply Z.ltb_ge; lia)]
  | |- context [shift =? 128] => first [replace (shift =? 128) with true by (symmetry; apply Z.eqb_eq; lia)
                                   | replace (shift =? 128) with false by (symmetry; apply Z.eqb_neq; lia)]
  end; cbn [andb negb].

(** Scaling down. *)
Lemma wide_scale_neg lower upper shift :
  0 <= lower < 2 ^ 128 -> 0 <= upper < 2 ^ 128 -> 1 <= shift ->
  wide_scale lower upper (- shift) = Z.min (rdiv (upper * 2 ^ 128 + lower) (2 ^ shift)) u128_MAX.
Proof.
  intros Hl Hu Hs. unfold wide_scale. rewrite Z.opp_involutive.
  destruct (Z.ltb_spec (- shift) 0); [|lia]. set (P := upper * 2 ^ 128 + lower).
  assert (0 <= P) by lia. rewrite rdiv_pow2 by lia.
  assert (P / 2 ^ 128 = upper) as PU.
  { unfold P. rewrite Z.div_add_l, (Z.div_small lower) by lia. lia. }
  assert (forall k, 0 <= k <= 128 -> P / 2 ^ k = upper * 2 ^ (128 - k) + lower / 2 ^ k) as PL.
  { intros k Hk. unfold P. replace 128 with (128 - k + k) at 1 by lia. rewrite Z.pow_add_r by lia.
    rewrite Z.mul_assoc, Z.div_add_l by (apply Z.pow_nonzero; lia). reflexivity. }
  assert (forall k, 128 <= k -> P / 2 ^ k = upper / 2 ^ (k - 128)) as PH.
  { intros k Hk. replace k with (128 + (k - 128)) at 1 by lia.
    rewrite div_pow2_add, PU by lia. reflexivity. }
  assert (forall b, 0 <= b < 2 -> (if negb (b =? 0) then 1 else 0) = b) as BIT
    by (intros b ?; destruct (Z.eqb_spec b 0); simpl; lia).
  assert (C : shift <= 127 \/ shift = 128 \/ 129 <= shift <= 255 \/ shift = 256 \/ 257 <= shift) by lia.
  destruct C as [C|[C|[C|[C|C]]]]; decide_shift shift;
    rewrite ?Z.shiftr_div_pow2, ?land_1, ?BIT by (lia || (apply Z.mod_pos_bound; lia)).
  - pose proof (Z.pow_pos_nonneg 2 (128 - shift) ltac:(lia) ltac:(lia)) as HP.
    assert (2 ^ 128 = 2 ^ (128 - shift) * 2 ^ shift) as E2
      by (rewrite <- Z.pow_add_r by lia; f_equal; lia).
    rewrite (PL shift), (PL (shift - 1)) by lia.
    replace (128 - (shift - 1)) with (1 + (128 - shift)) by lia.
    rewrite Z.pow_add_r, (Z.mul_comm (2 ^ 1)), Z.mul_assoc by lia. change (2 ^ 1) with 2.
    rewrite (Z.add_comm (_ * 2)), Z.mod_add by lia.
    pose proof (Z.mod_pos_bound (lower / 2 ^ (shift - 1)) 2 ltac:(lia)).
    assert (0 <= lower / 2 ^ shift < 2 ^ (128 - shift)).
    { split; [apply Z.div_pos; lia|]. apply Z.div_lt_upper_bound; lia. }
    destruct (Z.eqb_spec (upper / 2 ^ shift) 0) as [Z0|Z0]; simpl negb; cbv iota.
    + apply Z.div_small_iff in Z0; [|apply Z.pow_nonzero; lia].
      assert (0 <= upper * 2 ^ (128 - shift) <= 2 ^ 128 - 2 ^ (128 - shift)) by nia.
      rewrite Z.shiftl_mul_pow2, wrap_u128_id, lor_shifted by (lia || zlia). clamplia.
    + assert (2 ^ shift <= upper).
      { destruct (Z.le_gt_cases (2 ^ shift) upper); [assumption|]. rewrite Z.div_small in Z0; lia. }
      assert (2 ^ 128 <= upper * 2 ^ (128 - shift)) by nia. zlia.
  - subst shift. change (128 - 1) with 127. rewrite PU, (PL 127) by lia. change (2 ^ (128 - 127)) with 2.
    rewrite (Z.add_comm (_ * 2)), Z.mod_add by lia.
    pose proof (Z.mod_pos_bound (lower / 2 ^ 127) 2 ltac:(lia)). clamplia.
  - rewrite !PH by lia. replace (shift - 1 - 128) with (shift - 129) by lia.
    pose proof (Z.mod_pos_bound (upper / 2 ^ (shift - 129)) 2 ltac:(lia)).
    assert (0 <= upper / 2 ^ (shift - 128) < 2 ^ 127).
    { split; [apply Z.div_pos; [lia|apply Z.pow_pos_nonneg; lia]|].
      apply Z.div_lt_upper_bound; [apply Z.pow_pos_nonneg; lia|].
      pose proof (Z.pow_le_mono_r 2 1 (shift - 128) ltac:(lia) ltac:(lia)). nia. }
    clamplia.
  - subst shift. rewrite !PH by lia. rewrite (Z.div_small upper (2 ^ (256 - 128))) by lia.
    change (256 - 129) with 127. change (256 - 1 - 128) with 127.
    pose proof (Z.mod_pos_bound (upper / 2 ^ 127) 2 ltac:(lia)). clamplia.
  - rewrite !PH by lia.
    pose proof (Z.pow_le_mono_r 2 128 (shift - 128) ltac:(lia) ltac:(lia)).
    pose proof (Z.pow_le_mono_r 2 128 (shift - 1 - 128) ltac:(lia) ltac:(lia)).
    rewrite !Z.div_small by lia. reflexivity.
Qed.

(** Scaling up. *)
Lemma wide_scale_pos lower upper e :
  0 <= lower < 2 ^ 128 -> 0 <= upper -> 0 < upper * 2 ^ 128 + lower -> 0 <= e ->
  wide_scale lower upper e = Z.min ((upper * 2 ^ 128 + lower) * 2 ^ e) u128_MAX.
Proof.
  intros Hl Hu HP He. unfold wide_scale. destruct (Z.ltb_spec e 0); [lia|].
  pose proof (Z.pow_pos_nonneg 2 e ltac:(lia) He) as H2.
  destruct (Z.eqb_spec upper 0) as [->|]; simpl negb; 
    [|assert (2 ^ 128 <= (upper * 2 ^ 128 + lower) * 2 ^ e) by nia; cbn [orb]; zlia].
  destruct (Z.leb_spec 128 e); cbn [orb].
  - pose proof (Z.pow_le_mono_r 2 128 e ltac:(lia) ltac:(lia)). assert (2 ^ 128 <= lower * 2 ^ e) by nia.
    zlia.
  - rewrite Z.shiftr_div_pow2, Z.shiftl_mul_pow2 by lia.
    destruct (Z.ltb_spec (u128_MAX / 2 ^ e) lower) as [L|L].
    + assert (u128_MAX < lower * 2 ^ e); [|zlia].
      pose proof (Z.mul_succ_div_gt u128_MAX (2 ^ e) ltac:(lia)). nia.
    + assert (lower * 2 ^ e <= u128_MAX).
      { pose proof (Z.mul_div_le u128_MAX (2 ^ e) ltac:(lia)). nia. }
      rewrite wrap_u128_id by zlia. zlia.
Qed.

Lemma wide_scale_spec lower upper e :
  0 <= lower < 2 ^ 128 -> 0 <= upper < 2 ^ 128 -> (0 < upper * 2 ^ 128 + lower \/ e < 0) ->
  wide_scale lower upper e = Z.min (scale_round (upper * 2 ^ 128 + lower) e) u128_MAX.
Proof.
  intros Hl Hu HP. unfold scale_round. destruct (Z.ltb_spec e 0).
  - rewrite <- wide_scale_neg, Z.opp_involutive by lia. reflexivity.
  - apply wide_scale_pos; lia.
Qed.

(** ** The transforms as exact rounded affine maps *)

Section XFormProperties.
Context `{Laws : ChronoLaws, FL : FloatDecodeLaws}.

(** A signed product, from the magnitudes and the two signs. *)
Lemma scale_round_signs n m e s :
  s = 1 \/ s = -1 ->
  s * scale_round (n * m) e =
  (if Bool.eqb (n <? 0) (s <? 0) then 1 else -1) * scale_round (Z.abs n * m) e.
Proof.
  intros Hs. destruct (Z.ltb_spec n 0).
  - rewrite (Z.abs_neq n), Z.mul_opp_l, scale_round_opp by lia.
    destruct Hs as [-> | ->]; simpl Bool.eqb; cbv iota; lia.
  - rewrite (Z.abs_eq n) by lia. destruct Hs as [-> | ->]; simpl Bool.eqb; cbv iota; lia.
Qed.

Lemma signed_offset_clamp m (negative : bool) ic :
  0 <= m -> - max_nanos <= ic <= max_nanos ->
  (let magnitude := Z.min m u128_MAX in
   let '(magnitude, negative) :=
      if Bool.eqb negative (ic <? 0) then (clamp_u128 (magnitude + Z.abs ic), negative)
      else if Z.abs ic <=? magnitude then (magnitude - Z.abs ic, negative)
      else (Z.abs ic - magnitude, negb negative) in
   let magnitude := Z.min magnitude (i128_MAX + (if negative then 1 else 0)) in
   if negative : bool then (if i128_MAX <? magnitude then i128_MIN else - magnitude) else magnitude)
  = clamp_i128 ((if negative then -1 else 1) * m + ic).
Proof.
  intros Hm Hic. cbv zeta. unfold clamp_i128, clamp_u128. rewrite !clampZ_minmax by zlia.
  destruct negative, (Z.ltb_spec ic 0); simpl Bool.eqb; cbv iota;
    try (destruct (Z.leb_spec (Z.abs ic) (Z.min m u128_MAX))); simpl negb; cbv iota;
    try match goal with |- context [i128_MAX <? ?z] => destruct (Z.ltb_spec i128_MAX z) end;
    durlia.
Qed.

Lemma host_to_ghost_wide_eq x h m e s :
  f64_is_finite (slope x) = true -> valid_f64 (slope x) -> integer_decode (slope x) = (m, e, s) ->
  host_to_ghost_wide_nanos x h =
  clamp_i128 (s * scale_round (duration_nanos h * m) e + duration_nanos (intercept x)).
Proof.
  intros F V D. pose proof (duration_nanos_range h) as Rh.
  pose proof (duration_nanos_range (intercept x)) as Ri.
  destruct (integer_decode_range _ _ _ _ F D) as (Rm & Re & Rs).
  unfold host_to_ghost_wide_nanos. rewrite F. simpl negb. rewrite orb_false_r.
  destruct (Z.eqb_spec (duration_nanos h) 0) as [Z0|Z0].
  - unfold host_to_ghost. rewrite Z0. cbn [Z.eqb]. rewrite Z.mul_0_l.
    replace (scale_round 0 e) with 0 by (unfold scale_round, rdiv; destruct (e <? 0); reflexivity).
    rewrite Z.mul_0_r, clamp_i128_id; [reflexivity|durlia].
  - rewrite D. pose proof (wide_product_spec (Z.abs (duration_nanos h)) m ltac:(durlia) Rm) as W.
    destruct (wide_product _ _) as [lower upper]. destruct W as (W1 & W2 & W3).
    assert (0 < m \/ e < 0) as P.
    { destruct (slope x) as [b|b| |b p ex] eqn:S; try discriminate F.
      - right. destruct (integer_decode_zero _ _ _ _ D). lia.
      - left. destruct (integer_decode_finite _ _ _ _ _ _ V D) as [E _].
        apply valid_f64_finite in V.
        pose proof (Z.pow_pos_nonneg 2 (ex + 1075) ltac:(lia) ltac:(lia)).
        pose proof (Z.pow_pos_nonneg 2 (e + 1075) ltac:(lia) ltac:(lia)). nia. }
    rewrite wide_scale_spec by (assumption || (destruct P; [left; nia|right; lia])). rewrite W1.
    pose proof (scale_round_nonneg (Z.abs (duration_nanos h) * m) e ltac:(nia)) as N.
    rewrite (scale_round_signs _ _ _ _ Rs).
    rewrite signed_offset_clamp by assumption.
    destruct (Bool.eqb (duration_nanos h <? 0) (s <? 0)); reflexivity.
Qed.

(** C17 The 256-bit product and its scaling compute the exact affine map: for
    every finite slope [s * m * 2 ^ e] the ghost time of [h] is
    [s * (h * m * 2 ^ e)], rounded once half away from zero, plus the
    intercept, saturated once at the [i128] limits. *)
Theorem host_to_ghost_wide_exact x h m e s :
  f64_is_finite (slope x) = true -> valid_f64 (slope x) -> integer_decode (slope x) = (m, e, s) ->
  host_to_ghost_wide_nanos x h =
  clamp_i128 (s * scale_round (duration_nanos h * m) e + duration_nanos (intercept x)).
Proof. apply host_to_ghost_wide_eq. Qed.

(** The restoring division doubles an exact quotient-remainder pair; an early
    exit means the quotient has outgrown the limit. *)
Lemma restoring_division_spec k limit den q r :
  0 < den < 2 ^ 64 -> 0 <= limit < 2 ^ 100 -> 0 <= q -> 0 <= r < den ->
  match restoring_division k limit den q r with
  | Some (q', r') => q' * den + r' = (q * den + r) * 2 ^ Z.of_nat k /\ 0 <= q' /\ 0 <= r' < den /\
                     (q' <= q \/ q' <= limit + 1)
  | None => (limit + 1) * den <= (q * den + r) * 2 ^ Z.of_nat k
  end.
Proof.
  intros Hd Hl. revert q r. induction k as [|k IH]; intros q r Hq Hr.
  - simpl. lia.
  - cbn [restoring_division]. rewrite Nat2Z.inj_succ, Z.pow_succ_r by lia.
    pose proof (Z.div_mod limit 2 ltac:(lia)). pose proof (Z.mod_pos_bound limit 2 ltac:(lia)).
    pose proof (Z.pow_pos_nonneg 2 (Z.of_nat k) ltac:(lia) ltac:(lia)) as POW.
    destruct (Z.ltb_spec (limit / 2) q) as [L|L].
    + assert ((limit + 1) * den <= 2 * q * den) by nia. nia.
    + rewrite (wrap_u128_id (q * 2)), (wrap_u128_id (r * 2)) by zlia.
      destruct (Z.leb_spec den (r * 2)) as [B|B].
      * rewrite (wrap_u128_id (q * 2 + 1)) by zlia.
        specialize (IH (q * 2 + 1) (r * 2 - den) ltac:(lia) ltac:(lia)).
        replace ((q * den + r) * (2 * 2 ^ Z.of_nat k))
          with (((q * 2 + 1) * den + (r * 2 - den)) * 2 ^ Z.of_nat k) by ring.
        destruct (restoring_division _ _ _ _ _) as [[q' r']|]; [lia|exact IH].
      * specialize (IH (q * 2) (r * 2) ltac:(lia) ltac:(lia)).
        replace ((q * den + r) * (2 * 2 ^ Z.of_nat k))
          with ((q * 2 * den + r * 2) * 2 ^ Z.of_nat k) by ring.
        destruct (restoring_division _ _ _ _ _) as [[q' r']|]; [lia|exact IH].
Qed.

(** The exact quotient [p / (d * 2 ^ e)], rounded. *)
Definition ratio_round (p d e : Z) : Z :=
  if e <? 0 then rdiv (p * 2 ^ (- e)) d else rdiv p (d * 2 ^ e).

Lemma ratio_round_up p d e :
  0 <= p < 2 ^ 127 -> 0 < d -> 0 <= e ->
  (if 128 <=? e then 0
   else if e =? 0 then
     wrap_u128 (p / d + (if (d + 1) / 2 <=? p mod d then 1 else 0))
   else wrap_u128 (Z.shiftr (p / d) e + Z.land (Z.shiftr (p / d) (e - 1)) 1))
  = ratio_round p d e.
Proof.
  intros Hp Hd He. unfold ratio_round. destruct (Z.ltb_spec e 0); [lia|].
  pose proof (Z.div_mod p d ltac:(lia)) as D. pose proof (Z.mod_pos_bound p d Hd) as B.
  assert (0 <= p / d <= p) as Q by (split; [apply Z.div_pos; lia|apply Z.div_le_upper_bound; nia]).
  destruct (Z.leb_spec 128 e).
  - pose proof (Z.pow_le_mono_r 2 128 e ltac:(lia) ltac:(lia)).
    symmetry. apply rdiv_nonneg_unique; nia.
  - destruct (Z.eqb_spec e 0) as [->|].
    + change (2 ^ 0) with 1. rewrite Z.mul_1_r. rewrite wrap_u128_id by (destruct (_ <=? _); zlia).
      symmetry. apply rdiv_nonneg_unique; [lia|lia|].
      pose proof (Z.div_mod (d + 1) 2 ltac:(lia)). pose proof (Z.mod_pos_bound (d + 1) 2 ltac:(lia)).
      zcases; lia.
    + rewrite land_1, !Z.shiftr_div_pow2, <- rdiv_pow2 by lia.
      pose proof (Z.pow_pos_nonneg 2 e ltac:(lia) ltac:(lia)) as POW.
      pose proof (rdiv_abs_le (p / d) (2 ^ e) ltac:(lia)).
      pose proof (rdiv_sign (p / d) (2 ^ e) ltac:(lia)) as [S _].
      rewrite wrap_u128_id by zlia.
      pose proof (rdiv_nonneg_bounds (p / d) (2 ^ e) ltac:(lia) ltac:(lia)) as N.
      rewrite <- rdiv_nonneg in N by lia.
      symmetry. apply rdiv_nonneg_unique; [lia|nia|].
      assert (exists h, 2 ^ e = 2 * h) as [h E].
      { exists (2 ^ (e - 1)). rewrite <- Z.pow_succ_r by lia. f_equal. lia. }
      rewrite E in *. set (R := rdiv (p / d) (2 * h)) in *.
      assert (2 * (2 * h) * R <= 2 * (p / d) + 2 * h <= 2 * (2 * h) * R + 2 * (2 * h) - 2) by lia.
      nia.
Qed.

Lemma ratio_round_0 d e : ratio_round 0 d e = 0.
Proof. unfold ratio_round, rdiv. destruct (e <? 0); reflexivity. Qed.

Lemma ratio_round_nonneg p d e : 0 <= p -> 0 < d -> 0 <= ratio_round p d e.
Proof.
  intros Hp Hd. unfold ratio_round. destruct (Z.ltb_spec e 0).
  - apply rdiv_sign; [lia|]. pose proof (Z.pow_pos_nonneg 2 (- e)). nia.
  - apply rdiv_sign; [|lia]. pose proof (Z.pow_pos_nonneg 2 e). nia.
Qed.

(** A finite float other than zero has a positive mantissa. *)
Lemma integer_decode_pos f m e s :
  f64_is_finite f = true -> f64_eqb f f64_zero = false -> valid_f64 f ->
  integer_decode f = (m, e, s) -> 0 < m.
Proof.
  intros F NZ V D. destruct (integer_decode_range _ _ _ _ F D) as (Rm & Re & Rs).
  destruct f as [b|b| |b p ex]; try discriminate.
  destruct (integer_decode_finite _ _ _ _ _ _ V D) as [E _]. apply valid_f64_finite in V.
  pose proof (Z.pow_pos_nonneg 2 (ex + 1075) ltac:(lia) ltac:(lia)).
  pose proof (Z.pow_pos_nonneg 2 (e + 1075) ltac:(lia) ltac:(lia)). nia.
Qed.

Lemma duration_from_nanos_0 : duration_from_nanos 0 = Duration_zero.
Proof. apply duration_nanos_inj. rewrite duration_nanos_from, duration_nanos_zero. reflexivity. Qed.

Lemma duration_from_nanos_MIN : duration_from_nanos (- max_nanos) = Duration_MIN.
Proof.
  apply duration_nanos_inj. rewrite duration_nanos_from_id by durlia.
  now rewrite duration_nanos_eq, nanos_MIN.
Qed.

Lemma duration_from_nanos_MAX : duration_from_nanos max_nanos = Duration_MAX.
Proof.
  apply duration_nanos_inj. rewrite duration_nanos_from_id by durlia.
  now rewrite duration_nanos_eq, nanos_MAX.
Qed.

Lemma ghost_nanos_to_host_units_eq x g unit m e s :
  f64_is_finite (slope x) = true -> f64_eqb (slope x) f64_zero = false -> valid_f64 (slope x) ->
  integer_decode (slope x) = (m, e, s) ->
  unit = 1 \/ unit = 1000 ->
  let difference := g - duration_nanos (intercept x) in
  - i128_MAX <= difference <= i128_MAX ->
  let units := ratio_round (Z.abs difference) (m * unit) e in
  let signum := s * Z.sgn difference in
  ghost_nanos_to_host_units x g unit =
  if max_nanos / unit <? units then Err (duration_from_nanos (signum * max_nanos))
  else Ok (duration_from_nanos (signum * (units * unit))).
Proof.
  intros F NZ V D HU difference Hdiff units signum.
  destruct (integer_decode_range _ _ _ _ F D) as (Rm & Re & Rs).
  pose proof (integer_decode_pos _ _ _ _ F NZ V D) as Pm.
  unfold ghost_nanos_to_host_units. rewrite NZ, F. cbn [orb negb].
  fold difference. rewrite (clamp_i128_id difference) by zlia.
  destruct (Z.eqb_spec difference 0) as [Z0|NZ0].
  { unfold signum, units. rewrite Z0, ratio_round_0.
    replace (max_nanos / unit <? 0) with false by (destruct HU; subst; reflexivity).
    replace (s * Z.sgn 0 * (0 * unit)) with 0 by (simpl Z.sgn; lia).
    now rewrite duration_from_nanos_0. }
  rewrite D. rewrite (wrap_u128_id (m * unit)) by (destruct HU; subst; zlia).
  set (negative := negb (Bool.eqb (difference <? 0) (s <? 0))).
  assert (signum = if negative then -1 else 1) as SG.
  { unfold signum, negative. destruct (Z.ltb_spec difference 0), Rs; subst s; simpl; lia. }
  assert ((if negative then Z.abs (duration_nanos Duration_MIN) / unit
           else duration_nanos Duration_MAX / unit) = max_nanos / unit) as ->.
  { rewrite !duration_nanos_eq, nanos_MIN, nanos_MAX. now destruct negative. }
  set (limit := max_nanos / unit).
  assert (0 <= limit < 2 ^ 100 /\ limit * unit = max_nanos) as [HL HLU].
  { unfold limit. destruct HU; subst; vm_compute; intuition congruence. }
  assert (0 <= units) as HUN by (apply ratio_round_nonneg; lia || (destruct HU; nia)).
  assert (forall R, R = units ->
    (let n := wrap_u128 (Z.min R limit * unit) in
     let duration := duration_from_nanos (if negative then - n else n) in
     if limit <? R then Err duration else Ok duration) =
    if limit <? units then Err (duration_from_nanos (signum * max_nanos))
    else Ok (duration_from_nanos (signum * (units * unit)))) as FIN.
  { intros R ->. cbv zeta. rewrite wrap_u128_id by (destruct HU; subst unit; zlia).
    rewrite SG. destruct (Z.ltb_spec limit units).
    - rewrite Z.min_r, HLU by lia. destruct negative; do 2 f_equal; lia.
    - rewrite Z.min_l by lia. destruct negative; do 2 f_equal; lia. }
  destruct (Z.leb_spec 0 e) as [He|He].
  - apply FIN. apply ratio_round_up; [zlia|destruct HU; nia|lia].
  - pose proof (Z.mod_pos_bound (Z.abs difference) (m * unit) ltac:(destruct HU; nia)) as B.
    pose proof (Z.div_mod (Z.abs difference) (m * unit) ltac:(destruct HU; nia)) as DM.
    pose proof (Z.div_pos (Z.abs difference) (m * unit) ltac:(lia) ltac:(destruct HU; nia)) as QP.
    assert (Z.abs difference / (m * unit) <= Z.abs difference) as QL
      by (apply Z.div_le_upper_bound; destruct HU; nia).
    pose proof (restoring_division_spec (Z.to_nat (- e)) limit (m * unit) _ _
                  ltac:(destruct HU; nia) HL QP B) as RD.
    rewrite Z2Nat.id in RD by lia.
    assert (units = rdiv (Z.abs difference * 2 ^ (- e)) (m * unit)) as UE
      by (unfold units, ratio_round; destruct (Z.ltb_spec e 0); [reflexivity|lia]).
    replace (Z.abs difference / (m * unit) * (m * unit) + Z.abs difference mod (m * unit))
      with (Z.abs difference) in RD by lia.
    destruct (restoring_division _ _ _ _ _) as [[q r]|].
    + destruct RD as (R1 & R2 & R3 & R4). apply FIN.
      rewrite wrap_u128_id by (destruct (_ <=? _); zlia).
      rewrite UE. symmetry. pose proof (rdiv_split (Z.abs difference * 2 ^ (- e)) (m * unit) q 0 r) as X.
      rewrite Z.add_0_r in X. apply X; destruct HU; nia.
    + assert (limit < units) as LT.
      { pose proof (rdiv_mono_num ((limit + 1) * (m * unit)) (Z.abs difference * 2 ^ (- e)) (m * unit)
                      ltac:(destruct HU; nia) RD) as M.
        rewrite rdiv_exact in M by (destruct HU; nia). lia. }
      rewrite (proj2 (Z.ltb_lt _ _) LT), SG, <- duration_from_nanos_MIN, <- duration_from_nanos_MAX.
      destruct negative; do 2 f_equal; lia.
Qed.

(** C18 The way back: dividing the ghost time less the intercept by the slope
    yields the exactly rounded quotient in units of [unit] nanoseconds, and
    the error case exactly when that quotient is not a representable
    duration, with the nearest representable one. *)
Theorem ghost_nanos_to_host_units_exact x g unit m e s :
  f64_is_finite (slope x) = true -> f64_eqb (slope x) f64_zero = false -> valid_f64 (slope x) ->
  integer_decode (slope x) = (m, e, s) ->
  unit = 1 \/ unit = 1000 ->
  let difference := g - duration_nanos (intercept x) in
  - i128_MAX <= difference <= i128_MAX ->
  let units := ratio_round (Z.abs difference) (m * unit) e in
  let signum := s * Z.sgn difference in
  ghost_nanos_to_host_units x g unit =
  if max_nanos / unit <? units then Err (duration_from_nanos (signum * max_nanos))
  else Ok (duration_from_nanos (signum * (units * unit))).
Proof. apply ghost_nanos_to_host_units_eq. Qed.

(** ** Round trip of the ghost transform *)

Lemma scale_ratio_trip a m e :
  0 <= a -> 0 < m -> 2 ^ Z.max 0 (- e) <= m * 2 ^ Z.max 0 e ->
  ratio_round (scale_round (a * m) e) (m * 1) e = a.
Proof.
  intros Ha Hm He. rewrite Z.mul_1_r. unfold ratio_round, scale_round.
  destruct (Z.ltb_spec e 0).
  - rewrite Z.max_r, Z.max_l, Z.mul_1_r in He by lia. set (k := 2 ^ - e) in *.
    assert (0 < k) by (apply Z.pow_pos_nonneg; lia).
    pose proof (rdiv_error (a * m) k ltac:(lia)) as X.
    destruct (rdiv_sign (a * m) k) as [S _]; [lia|]. specialize (S ltac:(nia)).
    destruct (Z.eq_dec m k) as [->|].
    + rewrite rdiv_exact by lia. now rewrite rdiv_exact by lia.
    + apply rdiv_nonneg_unique; nia.
  - pose proof (Z.pow_pos_nonneg 2 e ltac:(lia) ltac:(lia)).
    replace (a * m * 2 ^ e) with (a * (m * 2 ^ e)) by ring. apply rdiv_exact. nia.
Qed.

(** A slope of at least one half loses at most one unit. *)
Lemma scale_ratio_close a m e :
  0 <= a -> 0 < m -> 2 ^ Z.max 0 (- e) <= 2 * (m * 2 ^ Z.max 0 e) ->
  Z.abs (ratio_round (scale_round (a * m) e) (m * 1) e - a) <= 1.
Proof.
  intros Ha Hm He. rewrite Z.mul_1_r. unfold ratio_round, scale_round.
  destruct (Z.ltb_spec e 0).
  - rewrite Z.max_r, Z.max_l, Z.mul_1_r in He by lia. set (k := 2 ^ - e) in *.
    assert (0 < k) by (apply Z.pow_pos_nonneg; lia).
    pose proof (rdiv_error (a * m) k ltac:(lia)) as X. set (D := rdiv (a * m) k) in *.
    pose proof (rdiv_error (D * k) m ltac:(lia)) as Y. set (R := rdiv (D * k) m) in *.
    assert (Z.abs (2 * ((R - a) * m)) <= 3 * m) as B by lia. rewrite Z.abs_mul, Z.abs_mul in B. nia.
  - pose proof (Z.pow_pos_nonneg 2 e ltac:(lia) ltac:(lia)).
    replace (a * m * 2 ^ e) with (a * (m * 2 ^ e)) by ring. rewrite rdiv_exact; nia.
Qed.

(** The trip there and back, as one rounding after another. *)
Lemma ghost_trip_value x h m e s :
  f64_is_finite (slope x) = true -> f64_eqb (slope x) f64_zero = false -> valid_f64 (slope x) ->
  integer_decode (slope x) = (m, e, s) ->
  2 * Z.abs (scale_round (duration_nanos h * m) e) <= i128_MAX ->
  let back := ratio_round (scale_round (Z.abs (duration_nanos h) * m) e) (m * 1) e in
  checked_ghost_nanos_to_host x (host_to_ghost_wide_nanos x h) =
  if max_nanos <? back then None else Some (duration_from_nanos (Z.sgn (duration_nanos h) * back)).
Proof.
  intros F NZ V D Hr. pose proof (duration_nanos_range h) as Rh.
  pose proof (duration_nanos_range (intercept x)) as Ri.
  destruct (integer_decode_range _ _ _ _ F D) as (_ & _ & Rs).
  pose proof (integer_decode_pos _ _ _ _ F NZ V D) as Pm.
  unfold checked_ghost_nanos_to_host. rewrite NZ, F. cbn [orb negb].
  rewrite (host_to_ghost_wide_eq x h m e s F V D). set (n := duration_nanos h) in *.
  set (d := scale_round (n * m) e) in *. rewrite clamp_i128_id by durlia.
  rewrite (ghost_nanos_to_host_units_eq x _ 1 m e s F NZ V D) by (durlia || auto).
  replace (s * d + duration_nanos (intercept x) - duration_nanos (intercept x)) with (s * d) by lia.
  pose proof (scale_round_nonneg (Z.abs n * m) e ltac:(nia)) as P.
  assert (d = Z.sgn n * scale_round (Z.abs n * m) e) as Ed.
  { subst d. destruct (Z.lt_trichotomy n 0) as [L|[->|L]].
    - rewrite (Z.abs_neq n), Z.mul_opp_l, scale_round_opp, Z.sgn_neg in * by lia. lia.
    - simpl. unfold scale_round, rdiv. destruct (e <? 0); reflexivity.
    - rewrite (Z.abs_eq n), Z.sgn_pos in * by lia. lia. }
  set (S := scale_round (Z.abs n * m) e) in *.
  assert (Z.abs (s * d) = S /\ (S = 0 \/ s * Z.sgn (s * d) = Z.sgn n)) as [-> Sg].
  { assert (n = 0 -> S = 0) as Z0.
    { intros E0. unfold S, scale_round, rdiv. rewrite E0. destruct (e <? 0); reflexivity. }
    destruct Rs as [-> | ->], (Z.sgn_spec n) as [[? E]|[[? E]|[? E]]]; rewrite E in *; lia. }
  rewrite Z.div_1_r, Z.mul_1_r. cbv zeta. destruct (_ <? _); [reflexivity|]. cbn [result_ok]. do 2 f_equal.
  destruct Sg as [-> | ->]; [|now rewrite Z.mul_1_r]. rewrite ratio_round_0. lia.
Qed.

(** Host time survives the trip to ghost time and back: to the nanosecond
    when the slope is at least one in magnitude, and to one nanosecond when it
    is at least one half, far below any clock drift. *)
Theorem ghost_round_trip x h m e s :
  f64_is_finite (slope x) = true -> f64_eqb (slope x) f64_zero = false -> valid_f64 (slope x) ->
  integer_decode (slope x) = (m, e, s) -> 2 ^ Z.max 0 (- e) <= 2 * (m * 2 ^ Z.max 0 e) ->
  2 * Z.abs (scale_round (duration_nanos h * m) e) <= i128_MAX ->
  - max_nanos < duration_nanos h < max_nanos ->
  exists h', checked_ghost_nanos_to_host x (host_to_ghost_wide_nanos x h) = Some h' /\
    Z.abs (duration_nanos h' - duration_nanos h) <= 1 /\
    (2 ^ Z.max 0 (- e) <= m * 2 ^ Z.max 0 e -> h' = h).
Proof.
  intros F NZ V D Hs Hr Hn. pose proof (integer_decode_pos _ _ _ _ F NZ V D) as Pm.
  rewrite (ghost_trip_value x h m e s F NZ V D Hr). set (n := duration_nanos h) in *.
  pose proof (scale_ratio_close (Z.abs n) m e ltac:(lia) Pm Hs) as C.
  set (b := ratio_round _ _ _) in *. destruct (Z.ltb_spec max_nanos b); [lia|].
  eexists. split; [reflexivity|]. split.
  - assert (- max_nanos <= Z.sgn n * b <= max_nanos) by (destruct (Z.sgn_spec n) as [[? ->]|[[? ->]|[? ->]]]; lia).
    rewrite duration_nanos_from_id by assumption.
    destruct (Z.sgn_spec n) as [[? E]|[[? E]|[? E]]]; rewrite E in *; lia.
  - intros Hex. rewrite <- (duration_from_nanos_nanos h). f_equal. fold n. subst b.
    rewrite scale_ratio_trip by (assumption || lia). lia.
Qed.

End XFormProperties.
