(* ===== verification/TimelineSync.v ===== *)
(** Moving timelines between the session and a client:
    [update_client_timeline_from_session] and
    [update_session_timeline_from_client] of src/src/link/timeline.rs. *)

From stdpp Require Import base list numbers.
From Stdlib Require Import ZArith Lia SpecFloat.
From S2P Require Import Prelude Chrono F64 Encoding Beats Tempo Timeline GhostXForm.

Inductive CommitError :=
| TimelineOriginExhausted
| StartStopTimestampExhausted
| StaleClientState.

#[global] Instance CommitError_eq_dec : EqDecision CommitError.
Proof. solve_decision. Defined.

Section TimelineSync.
Context `{Ch : Chrono, FD : FloatDecode}.

Definition update_client_timeline_from_session
    (cur_client session : Timeline) (at_time : Duration) (x_form : GhostXForm)
  : result Timeline CommitError :=
  let? host_beat_zero :=
    ok_or (checked_ghost_nanos_to_host x_form (nanos_at_microbeats session 0))
          TimelineOriginExhausted in
  let elapsed := wrap_i128 (duration_nanos host_beat_zero - duration_nanos at_time) in
  let? beat_origin :=
    ok_or (let! origin := checked_i128 (microbeats_at cur_client at_time +
                                        microbeats_from_nanos (tempo session) elapsed) in
           checked_i64 origin)
          TimelineOriginExhausted in
  let timeline :=
    MkTimeline (tempo session) (Beats_from_microbeats beat_origin) host_beat_zero in
  if negb (microbeats_at timeline at_time =? microbeats_at cur_client at_time)
  then Err TimelineOriginExhausted
  else Ok timeline.

Definition update_session_timeline_from_client
    (cur_session client : Timeline) (at_time : Duration) (x_form : GhostXForm)
  : result Timeline CommitError :=
  let ghost_beat_0 := host_to_ghost_wide_nanos x_form (time_origin client) in
  if (nanos_at_microbeats cur_session 0 =? ghost_beat_0) &&
     Tempo_eqb (tempo client) (tempo cur_session)
  then Ok cur_session
  else
    let? next := ok_or (checked_i64 (Beats_value (beat_origin cur_session) + 1))
                       TimelineOriginExhausted in
    let new_beat_origin :=
      MkBeats (Z.max (clamp_i64 (microbeats_at_nanos cur_session
                                   (host_to_ghost_wide_nanos x_form at_time)))
                     next) in
    let? n :=
      ok_or (checked_i128 (ghost_beat_0 +
               nanos_from_microbeats (tempo client) (Beats_value new_beat_origin)))
            TimelineOriginExhausted in
    let time_origin := duration_from_nanos n in
    if negb (duration_nanos time_origin =? n) then Err TimelineOriginExhausted
    else Ok (MkTimeline (tempo client) new_beat_origin time_origin).

End TimelineSync.

(** ** What they compute *)

Section TimelineSyncProperties.
Context `{Laws : ChronoLaws, FL : FloatDecodeLaws}.

Lemma microbeats_at_range tl t : in_i128 (microbeats_at tl t).
Proof. apply clamp_i128_range. Qed.

(** Time and beat zero of a timeline, exactly, when the product fits. *)
Lemma nanos_at_zero tl :
  Beats_ok (beat_origin tl) -> Z.abs (period_micros (tempo tl)) <= i64_MAX ->
  nanos_at_microbeats tl 0 =
  duration_nanos (time_origin tl) - rdiv (Beats_value (beat_origin tl) * period_micros (tempo tl)) 1000.
Proof.
  intros Ho Hp. unfold nanos_at_microbeats, Beats_ok in *.
  rewrite wrap_i128_id by zlia. rewrite nanos_from_microbeats_eq.
  replace ((0 - Beats_value (beat_origin tl)) * period_micros (tempo tl))
    with (- (Beats_value (beat_origin tl) * period_micros (tempo tl))) by ring.
  rewrite rdiv_opp_l.
  set (b := Beats_value (beat_origin tl)) in *. set (p := period_micros (tempo tl)) in *.
  pose proof (rdiv_error (b * p) 1000 ltac:(lia)).
  assert (Z.abs (b * p) <= 2 ^ 126) by (rewrite Z.abs_mul; unfold_widths; nia).
  pose proof (duration_nanos_range (time_origin tl)).
  rewrite (clamp_i128_id (- _)) by zlia. rewrite clamp_i128_id; durlia.
Qed.

Lemma nanos_from_microbeats_i64 t b :
  in_i64 b -> Z.abs (period_micros t) <= i64_MAX ->
  nanos_from_microbeats t b = rdiv (b * period_micros t) 1000.
Proof.
  intros Hb Hp. rewrite nanos_from_microbeats_eq, clamp_i128_id; [reflexivity|].
  pose proof (rdiv_error (b * period_micros t) 1000 ltac:(lia)).
  assert (Z.abs (b * period_micros t) <= 2 ^ 126) by (rewrite Z.abs_mul; unfold_widths; nia). zlia.
Qed.

(** Less than [2 * max_nanos] of elapsed time is converted without
    saturation, and symmetrically. *)
Lemma microbeats_from_nanos_elapsed t n :
  period_micros t <> 0 -> - (2 * max_nanos) <= n <= 2 * max_nanos ->
  microbeats_from_nanos t n = rdiv (n * 1000) (period_micros t) /\
  Z.abs (rdiv (n * 1000) (period_micros t)) <= 2000 * max_nanos.
Proof.
  intros Hp Hn. pose proof (rdiv_abs_le (n * 1000) (period_micros t) Hp).
  split; [|lia]. rewrite microbeats_from_nanos_eq, clamp_i128_id; try durlia; assumption.
Qed.

Definition fits_duration (n : Z) : bool := (- max_nanos <=? n) && (n <=? max_nanos).

Lemma fits_duration_spec n : fits_duration n = true <-> - max_nanos <= n <= max_nanos.
Proof. unfold fits_duration. rewrite andb_true_iff, !Z.leb_le. reflexivity. Qed.

(** The [checked_add] and the comparison after [duration_from_nanos] accept
    exactly the representable durations. *)
Lemma checked_origin n :
  match checked_i128 n with
  | Some n => if negb (duration_nanos (duration_from_nanos n) =? n) then None
              else Some (duration_from_nanos n)
  | None => None
  end = if fits_duration n then Some (duration_from_nanos n) else None.
Proof.
  destruct (fits_duration n) eqn:F.
  - apply fits_duration_spec in F.
    replace (checked_i128 n) with (Some n) by (symmetry; apply checked_i128_Some; split; [durlia|reflexivity]).
    rewrite duration_nanos_from_id by assumption. now rewrite Z.eqb_refl.
  - destruct (checked_i128 n) as [n'|] eqn:E; [|reflexivity].
    apply checked_i128_Some in E as [_ ->].
    destruct (Z.eqb_spec (duration_nanos (duration_from_nanos n)) n) as [D|]; [|reflexivity].
    pose proof (duration_nanos_range (duration_from_nanos n)) as R. rewrite D in R.
    apply fits_duration_spec in R. congruence.
Qed.

(** The edit as a function of the ghost times of the client's origin and of
    the present: the new beat origin, the time it needs, and the outcome. *)
Definition edited_beat (cur : Timeline) (present : Z) : Z :=
  Z.max (clamp_i64 (microbeats_at_nanos cur present)) (Beats_value (beat_origin cur) + 1).

Definition edited_time (client : Timeline) (zero b : Z) : Z :=
  zero + rdiv (b * period_micros (tempo client)) 1000.

Definition session_edit (cur client : Timeline) (zero b : Z) : result Timeline CommitError :=
  if (nanos_at_microbeats cur 0 =? zero) && Tempo_eqb (tempo client) (tempo cur) then Ok cur
  else if Beats_value (beat_origin cur) =? i64_MAX then Err TimelineOriginExhausted
  else if fits_duration (edited_time client zero b)
  then Ok (MkTimeline (tempo client) (MkBeats b) (duration_from_nanos (edited_time client zero b)))
  else Err TimelineOriginExhausted.

Lemma edited_beat_range cur present :
  Beats_ok (beat_origin cur) -> Beats_value (beat_origin cur) <> i64_MAX ->
  Beats_value (beat_origin cur) < edited_beat cur present /\ in_i64 (edited_beat cur present).
Proof.
  intros Hc N. unfold edited_beat, Beats_ok in *.
  pose proof (clamp_i64_range (microbeats_at_nanos cur present)) as R.
  generalize dependent (clamp_i64 (microbeats_at_nanos cur present)). zlia.
Qed.

Lemma update_session_timeline_eq cur client at_time xf :
  Beats_ok (beat_origin cur) -> Z.abs (period_micros (tempo client)) <= i64_MAX ->
  update_session_timeline_from_client cur client at_time xf =
  session_edit cur client (host_to_ghost_wide_nanos xf (time_origin client))
    (edited_beat cur (host_to_ghost_wide_nanos xf at_time)).
Proof.
  intros Hc Hp. unfold update_session_timeline_from_client, session_edit, edited_time, edited_beat.
  destruct (_ && _); [reflexivity|]. unfold checked_i64, fits_i64, Beats_ok in *.
  destruct (Z.eqb_spec (Beats_value (beat_origin cur)) i64_MAX) as [->|N]; [reflexivity|].
  rewrite !(proj2 (Z.leb_le _ _)) by zlia. cbn [andb ok_or Beats_value].
  pose proof (clamp_i64_range (microbeats_at_nanos cur (host_to_ghost_wide_nanos xf at_time))) as R.
  generalize dependent (clamp_i64 (microbeats_at_nanos cur (host_to_ghost_wide_nanos xf at_time))).
  intros c R. rewrite nanos_from_microbeats_i64 by (assumption || zlia).
  generalize (host_to_ghost_wide_nanos xf (time_origin client) +
    rdiv (Z.max c (Beats_value (beat_origin cur) + 1) * period_micros (tempo client)) 1000).
  intros n. pose proof (checked_origin n) as X. destruct (checked_i128 n) as [n'|]; cbn [ok_or];
    destruct (fits_duration n); try discriminate X; try reflexivity.
  - destruct (negb _); [discriminate|]. now injection X as ->.
  - destruct (negb _); [reflexivity|discriminate].
Qed.

Lemma session_edit_ok cur client zero b tl :
  Beats_ok (beat_origin cur) -> Z.abs (period_micros (tempo client)) <= i64_MAX ->
  (Beats_value (beat_origin cur) <> i64_MAX -> Beats_value (beat_origin cur) < b /\ in_i64 b) ->
  session_edit cur client zero b = Ok tl ->
  nanos_at_microbeats tl 0 = zero /\ Beats_ok (beat_origin tl) /\
  ((tl = cur /\ Tempo_eqb (tempo client) (tempo tl) = true) \/
   (tempo tl = tempo client /\ Beats_value (beat_origin cur) < Beats_value (beat_origin tl))).
Proof.
  intros Hc Hp Hb. unfold session_edit. destruct (_ && _) eqn:C.
  - apply andb_prop in C as [C1 C2]. apply Z.eqb_eq in C1. intros [= <-]. auto.
  - destruct (Z.eqb_spec (Beats_value (beat_origin cur)) i64_MAX) as [|N]; [discriminate|].
    destruct (Hb N) as [B1 B2].
    destruct (fits_duration _) eqn:F; [|discriminate]. apply fits_duration_spec in F.
    intros [= <-]. rewrite nanos_at_zero by assumption.
    cbn [tempo beat_origin time_origin Beats_value] in *. rewrite duration_nanos_from_id by assumption.
    unfold edited_time. split; [lia|]. split; [exact B2|right; auto].
Qed.

(** C14 A client edit adopted by the session keeps the client's beat zero
    exactly where the client put it in ghost time and the client's tempo, and
    either leaves the session timeline as it is or moves its beat origin
    strictly forward, which is what makes peers prefer it. *)
Theorem update_session_timeline_ok cur client at_time xf tl :
  Beats_ok (beat_origin cur) -> Z.abs (period_micros (tempo client)) <= i64_MAX ->
  update_session_timeline_from_client cur client at_time xf = Ok tl ->
  nanos_at_microbeats tl 0 = host_to_ghost_wide_nanos xf (time_origin client) /\
  Beats_ok (beat_origin tl) /\
  ((tl = cur /\ Tempo_eqb (tempo client) (tempo tl) = true) \/
   (tempo tl = tempo client /\
    Beats_value (beat_origin cur) < Beats_value (beat_origin tl))).
Proof.
  intros Hc Hp. rewrite update_session_timeline_eq by assumption.
  apply session_edit_ok; try assumption. intros N. now apply edited_beat_range.
Qed.

(** The session refuses a client edit only when its beat origin is
    exhausted or when the time of the new origin is not a representable
    duration. *)
Theorem update_session_timeline_err cur client at_time xf e :
  Beats_ok (beat_origin cur) -> Z.abs (period_micros (tempo client)) <= i64_MAX ->
  update_session_timeline_from_client cur client at_time xf = Err e ->
  e = TimelineOriginExhausted /\
  (Beats_value (beat_origin cur) = i64_MAX \/
   fits_duration (edited_time client (host_to_ghost_wide_nanos xf (time_origin client))
                    (edited_beat cur (host_to_ghost_wide_nanos xf at_time))) = false).
Proof.
  intros Hc Hp. rewrite update_session_timeline_eq by assumption. unfold session_edit.
  destruct (_ && _); [discriminate|].
  destruct (Z.eqb_spec (Beats_value (beat_origin cur)) i64_MAX) as [E|]; [intros [= <-]; auto|].
  destruct (fits_duration _) eqn:F; [discriminate|]. intros [= <-]. auto.
Qed.

(** A client that follows the session keeps its beat at the present time. *)
Lemma update_client_timeline_eq cur session at_time xf :
  period_micros (tempo session) <> 0 ->
  update_client_timeline_from_session cur session at_time xf =
  match checked_ghost_nanos_to_host xf (nanos_at_microbeats session 0) with
  | None => Err TimelineOriginExhausted
  | Some zero =>
      let origin := microbeats_at cur at_time +
        rdiv ((duration_nanos zero - duration_nanos at_time) * 1000) (period_micros (tempo session)) in
      if fits_i64 origin then Ok (MkTimeline (tempo session) (MkBeats origin) zero)
      else Err TimelineOriginExhausted
  end.
Proof.
  intros Hp. unfold update_client_timeline_from_session.
  destruct (checked_ghost_nanos_to_host _ _) as [zero|]; cbn [ok_or]; [|reflexivity].
  pose proof (duration_nanos_range zero) as Rz. pose proof (duration_nanos_range at_time) as Ra.
  set (e := duration_nanos zero - duration_nanos at_time).
  rewrite (wrap_i128_id e) by (subst e; durlia).
  destruct (microbeats_from_nanos_elapsed (tempo session) e Hp ltac:(subst e; lia)) as [M B].
  rewrite M. set (c := microbeats_at cur at_time) in *. pose proof (microbeats_at_range cur at_time) as Rc.
  fold c in Rc. set (q := rdiv (e * 1000) (period_micros (tempo session))) in *. cbv zeta.
  destruct (fits_i64 (c + q)) eqn:F.
  - assert (in_i64 (c + q)) as I.
    { unfold fits_i64 in F. apply andb_prop in F as [F1 F2]. apply Z.leb_le in F1, F2. zlia. }
    replace (checked_i128 (c + q)) with (Some (c + q)) by (symmetry; apply checked_i128_Some; split; [zlia|reflexivity]).
    replace (checked_i64 (c + q)) with (Some (c + q)) by (symmetry; now apply checked_i64_Some).
    cbn [ok_or].
    replace (microbeats_at (MkTimeline (tempo session) (Beats_from_microbeats (c + q)) zero) at_time) with c.
    { now rewrite Z.eqb_refl. }
    unfold microbeats_at, microbeats_at_nanos. cbn [tempo beat_origin time_origin Beats_value Beats_from_microbeats].
    replace (duration_nanos at_time - duration_nanos zero) with (- e) by (subst e; lia).
    rewrite (clamp_i128_id (- e)) by (subst e; durlia).
    destruct (microbeats_from_nanos_elapsed (tempo session) (- e) Hp ltac:(subst e; lia)) as [-> _].
    rewrite Z.mul_opp_l, rdiv_opp_l. fold q. rewrite clamp_i128_id; zlia.
  - destruct (checked_i128 (c + q)) as [o|] eqn:E; [|reflexivity].
    apply checked_i128_Some in E as [_ ->]. unfold checked_i64. now rewrite F.
Qed.

(** A client that follows the session takes the session's tempo, puts beat
    zero of the session at its host time and keeps the beat it is on; it is
    refused only when that time or the beat origin it needs does not exist. *)
Theorem update_client_timeline_spec cur session at_time xf :
  period_micros (tempo session) <> 0 ->
  let zero := checked_ghost_nanos_to_host xf (nanos_at_microbeats session 0) in
  match update_client_timeline_from_session cur session at_time xf with
  | Ok tl => zero = Some (time_origin tl) /\ tempo tl = tempo session /\
             microbeats_at tl at_time = microbeats_at cur at_time
  | Err e => e = TimelineOriginExhausted /\
             forall z, zero = Some z ->
               ~ in_i64 (microbeats_at cur at_time +
                   rdiv ((duration_nanos z - duration_nanos at_time) * 1000)
                        (period_micros (tempo session)))
  end.
Proof.
  intros Hp zero. pose proof (update_client_timeline_eq cur session at_time xf Hp) as E.
  unfold update_client_timeline_from_session in *. fold zero in E |- *.
  destruct zero as [z|]; cbn [ok_or] in *; [|split; [reflexivity|discriminate]].
  set (o := ok_or _ _) in *. destruct o as [b|e'] eqn:O.
  - destruct (Z.eqb_spec (microbeats_at (MkTimeline (tempo session) (Beats_from_microbeats b) z) at_time)
      (microbeats_at cur at_time)) as [M|M]; cbn [negb] in *; [now rewrite M|].
    split; [reflexivity|]. intros z' [= <-] I. apply fits_i64_spec in I. cbv zeta in E.
    rewrite I in E. discriminate.
  - cbv zeta in E. destruct (fits_i64 _) eqn:F; [discriminate|]. injection E as ->.
    split; [reflexivity|]. intros z' [= <-] I. apply fits_i64_spec in I. congruence.
Qed.

End TimelineSyncProperties.
