(* ===== verification/Phase.v ===== *)
(** Phase arithmetic: src/src/link/phase.rs.  Beats are compared modulo a
    quantum; a timeline's beat values are shifted so that its origin is a
    quantum boundary (phase encoding), and [force_beat_at_time_impl] moves a
    timeline so that a given encoded beat falls on a given time.

    Sums of values that are known to fit 65 bits are written without a
    wrap-around: they cannot leave [i128]. *)

From stdpp Require Import base list numbers.
From Stdlib Require Import ZArith Lia SpecFloat.
From S2P Require Import Prelude Chrono F64 Encoding Beats Tempo Timeline.

Definition narrow (beats : Z) : Beats := Beats_from_microbeats (clamp_i64 beats).

(** [rem_euclid] by the magnitude of the quantum. *)
Definition phase_wide (beats quantum : Z) : Z :=
  if quantum =? 0 then 0 else beats mod Z.abs quantum.

Definition phase (beats quantum : Beats) : Beats :=
  narrow (phase_wide (Beats_value beats) (Beats_value quantum)).

Definition next_phase_match_wide (x target quantum : Z) : Z :=
  let offset := phase_wide (phase_wide target quantum - phase_wide x quantum) quantum in
  clamp_i128 (x + offset).

Definition closest_phase_match_wide (x target quantum : Z) : Z :=
  let quantum := Z.abs quantum in
  if quantum =? 0 then x
  else
    let offset := phase_wide (phase_wide target quantum - phase_wide x quantum) quantum in
    clamp_i128 (x + (if quantum <=? offset * 2 then offset - quantum else offset)).

Definition next_phase_match (x target quantum : Beats) : Beats :=
  narrow (next_phase_match_wide (Beats_value x) (Beats_value target) (Beats_value quantum)).

Definition closest_phase_match (x target quantum : Beats) : Beats :=
  narrow (closest_phase_match_wide (Beats_value x) (Beats_value target) (Beats_value quantum)).

(** The extended Euclidean loop of [exact_fast_anchor]. *)
Fixpoint euclid_loop (fuel : nat) (divisor remainder inverse coefficient : Z) : option (Z * Z) :=
  match fuel with
  | O => None
  | S fuel =>
      if remainder =? 0 then Some (divisor, inverse)
      else
        let quotient := Z.quot divisor remainder in
        euclid_loop fuel remainder (divisor - quotient * remainder)
          coefficient (inverse - quotient * coefficient)
  end.

(** How one pass of the residue loop ends. *)
Inductive flow (A : Type) := Break | Continue | Return (a : A).
Arguments Break {A}.
Arguments Continue {A}.
Arguments Return {A} a.

Fixpoint for_loop {A} (body : Z -> flow A) (l : list Z) : option A :=
  match l with
  | [] => None
  | i :: l =>
      match body i with
      | Break => None
      | Continue => for_loop body l
      | Return a => Some a
      end
  end.

Section Phase.
Context `{Ch : Chrono}.

Definition to_phase_encoded_microbeats (tl : Timeline) (time : Duration) (quantum : Beats) : Z :=
  let beat := microbeats_at tl time in
  closest_phase_match_wide beat
    (phase_wide beat (Beats_value quantum) -
     phase_wide (Beats_value (beat_origin tl)) (Beats_value quantum))
    (Beats_value quantum).

Definition to_phase_encoded_beats (tl : Timeline) (time : Duration) (quantum : Beats) : Beats :=
  narrow (to_phase_encoded_microbeats tl time quantum).

Definition from_phase_encoded_beats (tl : Timeline) (beat quantum : Beats) : Duration :=
  let beat := Beats_value beat in
  let origin := Beats_value (beat_origin tl) in
  let quantum := Z.abs (Beats_value quantum) in
  let from_origin := beat - origin in
  let remainder := phase_wide from_origin quantum in
  let origin_offset := from_origin - remainder in
  let inverse_phase_offset :=
    closest_phase_match_wide (quantum - remainder) (quantum - phase_wide beat quantum) quantum in
  time_at_microbeats tl (origin + origin_offset + quantum - inverse_phase_offset).

Definition shifted_time_origin_nanos (timeline : Timeline) (shift : Z) : Z :=
  let origin := Beats_value (beat_origin timeline) in
  let period := period_micros (tempo timeline) in
  let remainder := Z.rem period 1000000 in
  let delta :=
    clamp_i128 (clamp_i128 (shift * Z.quot period 1000000) +
      wrap_i128 (round_ratio (wrap_i128 (wrap_i128 (shift - origin) * remainder)) 1000000 -
                 round_ratio (wrap_i128 (- origin * remainder)) 1000000)) in
  clamp_i128 (duration_nanos (time_origin timeline) - clamp_i128 (delta * 1000)).

Definition shift_client_timeline_wide (timeline : Timeline) (shift : Z) : Timeline :=
  MkTimeline (tempo timeline) (beat_origin timeline)
             (duration_from_nanos (shifted_time_origin_nanos timeline shift)).

Definition shift_client_timeline (timeline : Timeline) (shift : Beats) : Timeline :=
  shift_client_timeline_wide timeline (Beats_value shift).

(** One residue of [exact_fast_anchor]'s inner loop. *)
Definition fast_anchor_residue (timeline : Timeline) (time : Duration) (quantum : Beats)
    (target magnitude quantum_magnitude divisor modulus inverse direction sign
     minimum maximum span residue : Z) : flow Timeline :=
  let time_nanos := duration_nanos time in
  if span <? residue then Break
  else
    let rounded := round_ratio (1000 * residue) magnitude in
    let rhs := sign * target - rounded in
    if negb (rhs mod divisor =? 0) then Continue
    else
      let first := (Z.quot rhs divisor mod modulus * inverse) mod modulus in
      let lower := Z.max ((minimum - rounded + 999) / 1000) 0 in
      let upper := Z.min ((maximum - rounded) / 1000) (Z.quot (span - residue) magnitude) in
      let cycles := lower + (first - lower) mod modulus in
      if upper <? cycles then Continue
      else
        let boundary := target - sign * (1000 * cycles + rounded) in
        let origin := narrow boundary in
        if negb (closest_phase_match_wide (Beats_value origin) 0 quantum_magnitude =? boundary)
        then Continue
        else
          let anchored :=
            MkTimeline (tempo timeline) origin
              (duration_from_nanos (time_nanos - direction * (cycles * magnitude + residue))) in
          if to_phase_encoded_microbeats anchored time quantum =? target
          then Return anchored else Continue.

(** One direction of its outer loop: [None] goes on to the next one. *)
Definition fast_anchor_direction (timeline : Timeline) (time : Duration) (quantum : Beats)
    (period target magnitude quantum_magnitude first_boundary last_boundary divisor modulus inverse
     direction : Z) : option Timeline :=
  let time_nanos := duration_nanos time in
  let sign := direction * Z.sgn period in
  let '(minimum, maximum) :=
    if 0 <? sign then (target - last_boundary, target - first_boundary)
    else (first_boundary - target, last_boundary - target) in
  let minimum := Z.max minimum 0 in
  if maximum <? minimum then None
  else
    let span :=
      if 0 <? direction then time_nanos - duration_nanos Duration_MIN
      else duration_nanos Duration_MAX - time_nanos in
    for_loop (fast_anchor_residue timeline time quantum target magnitude quantum_magnitude
                divisor modulus inverse direction sign minimum maximum span)
             (seqZ 0 magnitude).

(** More passes than the remainder, at most 1000 after the first one, can
    take before it is zero. *)
Definition euclid_fuel : nat := Z.to_nat 1002.

Definition exact_fast_anchor (timeline : Timeline) (beat : Beats) (time : Duration) (quantum : Beats)
  : option Timeline :=
  let period := period_micros (tempo timeline) in
  let magnitude := Z.abs period in
  let quantum_magnitude := Z.abs (Beats_value quantum) in
  if negb ((1 <=? magnitude) && (magnitude <? 1000)) || (quantum_magnitude =? 0) then None
  else
    let target := Beats_value beat in
    let first_boundary := closest_phase_match_wide i64_MIN 0 quantum_magnitude in
    let last_boundary := closest_phase_match_wide i64_MAX 0 quantum_magnitude in
    let! (divisor, inverse) := euclid_loop euclid_fuel 1000 quantum_magnitude 1 0 in
    let modulus := Z.quot quantum_magnitude divisor in
    let inverse := inverse mod modulus in
    let go := fast_anchor_direction timeline time quantum period target magnitude quantum_magnitude
                first_boundary last_boundary divisor modulus inverse in
    match go 1 with
    | Some anchored => Some anchored
    | None => go (-1)
    end.

(** One boundary of [force_beat_at_time_impl]'s inner loop. *)
Definition anchor_at_boundary (timeline : Timeline) (beat : Beats) (time : Duration)
    (quantum : Beats) (precise : bool) (boundary : Z) : option Timeline :=
  let origin := narrow boundary in
  if negb (closest_phase_match_wide (Beats_value origin) 0 (Beats_value quantum) =? boundary)
  then None
  else
    let offset := Beats_value beat - boundary in
    let elapsed :=
      if precise then nanos_from_microbeats (tempo timeline) offset
      else clamp_i128 (micros_from_microbeats (tempo timeline) offset * 1000) in
    let anchored_time := clamp_i128 (duration_nanos time - elapsed) in
    if precise || ((duration_nanos Duration_MIN <=? anchored_time) &&
                   (anchored_time <=? duration_nanos Duration_MAX)) then
      let anchored :=
        MkTimeline (tempo timeline) origin (duration_from_nanos anchored_time) in
      if negb precise || (to_phase_encoded_microbeats anchored time quantum =? Beats_value beat)
      then Some anchored else None
    else None.

Definition first_some {A} (a b : option A) : option A :=
  match a with Some _ => a | None => b end.

Definition force_beat_at_time_impl (timeline : Timeline) (beat : Beats) (time : Duration)
    (quantum : Beats) : Timeline :=
  let cur_beat_at_time := to_phase_encoded_microbeats timeline time quantum in
  let closest_in_phase :=
    closest_phase_match_wide cur_beat_at_time (Beats_value beat) (Beats_value quantum) in
  let time_origin' :=
    shifted_time_origin_nanos timeline (wrap_i128 (closest_in_phase - cur_beat_at_time)) in
  let beat_origin' :=
    clamp_i128 (Beats_value (beat_origin timeline) + Beats_value beat - closest_in_phase) in
  let out_of_range :=
    negb (fits_i64 beat_origin') ||
    negb ((duration_nanos Duration_MIN <=? time_origin') &&
          (time_origin' <=? duration_nanos Duration_MAX)) in
  let adjusted :=
    MkTimeline (tempo timeline) (narrow beat_origin') (duration_from_nanos time_origin') in
  if out_of_range ||
     negb (to_phase_encoded_microbeats adjusted time quantum =? Beats_value beat) then
    let boundary := Beats_value beat - phase_wide (Beats_value beat) (Beats_value quantum) in
    let next_boundary := boundary + Z.abs (Beats_value quantum) in
    let anchors precise :=
      first_some (anchor_at_boundary timeline beat time quantum precise boundary)
                 (anchor_at_boundary timeline beat time quantum precise next_boundary) in
    match first_some (first_some (anchors true) (exact_fast_anchor timeline beat time quantum))
                     (if out_of_range then anchors false else None) with
    | Some anchored => anchored
    | None => adjusted
    end
  else adjusted.

End Phase.

(** ** Matching phases *)

Lemma phase_wide_range b q : q <> 0 -> 0 <= phase_wide b q < Z.abs q.
Proof.
  intros Hq. unfold phase_wide. destruct (Z.eqb_spec q 0); [contradiction|].
  apply Z.mod_pos_bound. lia.
Qed.

Lemma phase_wide_0 b : phase_wide b 0 = 0.
Proof. reflexivity. Qed.

Lemma phase_wide_abs b q : phase_wide b (Z.abs q) = phase_wide b q.
Proof.
  unfold phase_wide. rewrite Z.abs_involutive.
  destruct (Z.eqb_spec (Z.abs q) 0), (Z.eqb_spec q 0); (reflexivity || lia).
Qed.

(** A value and its phase differ by whole quanta. *)
Lemma phase_wide_spec b q : exists k, b = phase_wide b q + k * Z.abs q \/ q = 0.
Proof.
  destruct (Z.eq_dec q 0); [exists 0; auto|]. exists (b / Z.abs q). left.
  unfold phase_wide. destruct (Z.eqb_spec q 0); [contradiction|].
  pose proof (Z.div_mod b (Z.abs q) ltac:(lia)). lia.
Qed.

(** [a] and [b] have the same phase. *)
Definition same_phase (q a b : Z) : Prop := (q | a - b).

Lemma phase_wide_same q b : q <> 0 -> same_phase q (phase_wide b q) b.
Proof.
  intros Hq. destruct (phase_wide_spec b q) as [k [E|]]; [|contradiction].
  unfold same_phase. rewrite E at 2. replace (phase_wide b q - _) with (- k * Z.abs q) by lia.
  apply Z.divide_mul_r, Z.divide_abs_r, Z.divide_refl.
Qed.

#[global] Instance same_phase_equiv q : Equivalence (same_phase q).
Proof.
  split; unfold same_phase.
  - intros a. rewrite Z.sub_diag. apply Z.divide_0_r.
  - intros a b H. replace (b - a) with (- (a - b)) by lia. now apply Z.divide_opp_r.
  - intros a b c H1 H2. replace (a - c) with (a - b + (b - c)) by lia. now apply Z.divide_add_r.
Qed.

#[global] Instance same_phase_add q :
  Proper (same_phase q ==> same_phase q ==> same_phase q) Z.add.
Proof.
  unfold same_phase. intros a b H c d H'.
  replace (a + c - (b + d)) with (a - b + (c - d)) by lia. now apply Z.divide_add_r.
Qed.

#[global] Instance same_phase_sub q :
  Proper (same_phase q ==> same_phase q ==> same_phase q) Z.sub.
Proof.
  unfold same_phase. intros a b H c d H'.
  replace (a - c - (b - d)) with (a - b - (c - d)) by lia. now apply Z.divide_sub_r.
Qed.

Lemma same_phase_quantum q a k : same_phase q (a + k * Z.abs q) a.
Proof.
  unfold same_phase. replace (a + k * Z.abs q - a) with (k * Z.abs q) by lia.
  apply Z.divide_mul_r, Z.divide_abs_r, Z.divide_refl.
Qed.

(** Two values of the same phase closer than a quantum are equal. *)
Lemma same_phase_near q a b : same_phase q a b -> Z.abs (a - b) < Z.abs q -> a = b.
Proof.
  intros [k E] H. assert (k = 0); [|nia]. destruct (Z.eq_dec k 0); [assumption|].
  rewrite E, Z.abs_mul in H. nia.
Qed.

(** The offset both matches are made of. *)
Lemma phase_offset x t q :
  q <> 0 -> let off := phase_wide (phase_wide t q - phase_wide x q) q in
  0 <= off < Z.abs q /\ same_phase q (x + off) t.
Proof.
  intros Hq off. split; [now apply phase_wide_range|]. subst off.
  rewrite phase_wide_same by assumption. rewrite (phase_wide_same q t), (phase_wide_same q x) by assumption.
  replace (x + (t - x)) with t by lia. reflexivity.
Qed.

Lemma next_phase_match_wide_spec x t q :
  q <> 0 -> in_i128 (x + Z.abs q) -> in_i128 x ->
  same_phase q (next_phase_match_wide x t q) t /\
  x <= next_phase_match_wide x t q < x + Z.abs q.
Proof.
  intros Hq H1 H2. unfold next_phase_match_wide. destruct (phase_offset x t q Hq) as [R S].
  rewrite clamp_i128_id by zlia. split; [assumption|lia].
Qed.

(** Twice the distance, to state midpoints in integers. *)
Lemma closest_phase_match_wide_spec x t q :
  q <> 0 -> in_i128 (x + Z.abs q) -> in_i128 (x - Z.abs q) ->
  same_phase q (closest_phase_match_wide x t q) t /\
  - Z.abs q <= 2 * (closest_phase_match_wide x t q - x) < Z.abs q.
Proof.
  intros Hq H1 H2. unfold closest_phase_match_wide. destruct (Z.eqb_spec (Z.abs q) 0); [lia|].
  rewrite !phase_wide_abs. destruct (phase_offset x t q Hq) as [R S].
  destruct (Z.leb_spec (Z.abs q) (phase_wide (phase_wide t q - phase_wide x q) q * 2)).
  - rewrite clamp_i128_id by zlia. split; [|lia].
    set (o := phase_wide _ _) in *. transitivity (x + o); [|exact S]. replace (x + (o - Z.abs q)) with (x + o + (-1) * Z.abs q) by lia.
    apply same_phase_quantum.
  - rewrite clamp_i128_id by zlia. split; [assumption|lia].
Qed.

Lemma closest_phase_match_0 x t : closest_phase_match_wide x t 0 = x.
Proof. reflexivity. Qed.

(** The only phase match within half a quantum is the closest one. *)
Lemma closest_phase_match_unique x t q y :
  q <> 0 -> in_i128 (x + Z.abs q) -> in_i128 (x - Z.abs q) ->
  same_phase q y t -> - Z.abs q <= 2 * (y - x) < Z.abs q ->
  closest_phase_match_wide x t q = y.
Proof.
  intros Hq H1 H2 S R. destruct (closest_phase_match_wide_spec x t q Hq H1 H2) as [S' R'].
  apply (same_phase_near q); [now rewrite S, S'|lia].
Qed.

(** [next_phase_match] returns the least beat at or above [x] with the phase
    of [target], whenever that beat fits. *)
Theorem next_phase_match_least x target quantum :
  Beats_ok x -> Beats_value quantum <> 0 -> Beats_ok quantum ->
  Beats_value x + Z.abs (Beats_value quantum) <= i64_MAX ->
  let y := Beats_value (next_phase_match x target quantum) in
  same_phase (Beats_value quantum) y (Beats_value target) /\ Beats_value x <= y /\
  forall z, Beats_value x <= z -> same_phase (Beats_value quantum) z (Beats_value target) -> y <= z.
Proof.
  intros Hx Hq Bq Hr y. unfold Beats_ok in Hx, Bq.
  destruct (next_phase_match_wide_spec (Beats_value x) (Beats_value target) (Beats_value quantum))
    as [S R]; [assumption|zlia|zlia|].
  assert (y = next_phase_match_wide (Beats_value x) (Beats_value target) (Beats_value quantum)) as E.
  { unfold y, next_phase_match, narrow, Beats_from_microbeats. cbn [Beats_value].
    apply clamp_i64_id. zlia. }
  rewrite E. split; [assumption|]. split; [lia|]. intros z Hz Sz.
  destruct (Z.le_gt_cases (next_phase_match_wide (Beats_value x) (Beats_value target)
    (Beats_value quantum)) z); [assumption|].
  rewrite (same_phase_near (Beats_value quantum)
    (next_phase_match_wide (Beats_value x) (Beats_value target) (Beats_value quantum)) z);
    [lia|now rewrite S, Sz|lia].
Qed.

(** [closest_phase_match] returns a beat with the phase of [target] that no
    other such beat is closer than, the lower one at a tie. *)
Theorem closest_phase_match_nearest x target quantum :
  Beats_ok x -> Beats_value quantum <> 0 -> Beats_ok quantum ->
  i64_MIN <= Beats_value x - Z.abs (Beats_value quantum) ->
  Beats_value x + Z.abs (Beats_value quantum) <= i64_MAX ->
  let y := Beats_value (closest_phase_match x target quantum) in
  same_phase (Beats_value quantum) y (Beats_value target) /\
  forall z, same_phase (Beats_value quantum) z (Beats_value target) ->
    Z.abs (y - Beats_value x) <= Z.abs (z - Beats_value x) /\
    (Z.abs (y - Beats_value x) = Z.abs (z - Beats_value x) -> y <= z).
Proof.
  intros Hx Hq Bq Hl Hr y. unfold Beats_ok in Hx, Bq.
  destruct (closest_phase_match_wide_spec (Beats_value x) (Beats_value target) (Beats_value quantum))
    as [S R]; [assumption|zlia|zlia|].
  assert (y = closest_phase_match_wide (Beats_value x) (Beats_value target) (Beats_value quantum)) as E.
  { unfold y, closest_phase_match, narrow, Beats_from_microbeats. cbn [Beats_value].
    apply clamp_i64_id. zlia. }
  rewrite E. split; [assumption|]. intros z Sz.
  destruct (Z.le_gt_cases (Z.abs (Beats_value quantum))
    (Z.abs (closest_phase_match_wide (Beats_value x) (Beats_value target) (Beats_value quantum) - z))).
  - split; lia.
  - rewrite (same_phase_near (Beats_value quantum)
      (closest_phase_match_wide (Beats_value x) (Beats_value target) (Beats_value quantum)) z);
      [lia|now rewrite S, Sz|lia].
Qed.

(** ** Phase encoding is a shift by the centred phase of the origin *)

(** The representative of [o] modulo the quantum in (-q/2, q/2]. *)
Definition centered (o q : Z) : Z :=
  let r := phase_wide o q in if 2 * r <=? Z.abs q then r else r - Z.abs q.

Lemma centered_0 o : centered o 0 = 0.
Proof. reflexivity. Qed.

Lemma centered_spec o q :
  q <> 0 -> same_phase q (centered o q) o /\ - Z.abs q < 2 * centered o q <= Z.abs q.
Proof.
  intros Hq. unfold centered. pose proof (phase_wide_range o q Hq) as R.
  pose proof (phase_wide_same q o Hq) as S. destruct (Z.leb_spec (2 * phase_wide o q) (Z.abs q)).
  - split; [assumption|lia].
  - split; [|lia]. transitivity (phase_wide o q); [|assumption].
    replace (phase_wide o q - Z.abs q) with (phase_wide o q + (-1) * Z.abs q) by lia.
    apply same_phase_quantum.
Qed.

Lemma centered_small o q : in_i64 q -> - 2 ^ 62 <= centered o q <= 2 ^ 62.
Proof.
  intros Hq. destruct (Z.eq_dec q 0) as [->|N]; [rewrite centered_0; lia|].
  destruct (centered_spec o q N) as [_ R]. zlia.
Qed.

Lemma same_phase_minus q a b c : same_phase q a b -> same_phase q (c - a) (c - b).
Proof. intros H. now rewrite H. Qed.

Section PhaseEncoding.
Context `{Laws : ChronoLaws}.

Lemma to_phase_encoded_eq tl time q :
  in_i64 (Beats_value q) ->
  i128_MIN + 2 ^ 64 <= microbeats_at tl time <= i128_MAX - 2 ^ 64 ->
  to_phase_encoded_microbeats tl time q =
  microbeats_at tl time - centered (Beats_value (beat_origin tl)) (Beats_value q).
Proof.
  intros Hq Hr. unfold to_phase_encoded_microbeats.
  generalize dependent (microbeats_at tl time). intros u Hr.
  generalize (Beats_value (beat_origin tl)). intros o. set (c := Beats_value q) in *.
  destruct (Z.eq_dec c 0) as [->|N]; [rewrite centered_0, closest_phase_match_0; lia|].
  destruct (centered_spec o c N) as [S R].
  apply closest_phase_match_unique; [assumption|zlia|zlia| |lia].
  rewrite (same_phase_minus _ _ _ u S). apply same_phase_minus with (c := u) in S.
  rewrite !phase_wide_same by assumption. reflexivity.
Qed.

Lemma from_phase_encoded_eq tl beat q :
  in_i64 (Beats_value q) -> in_i64 (Beats_value beat) -> in_i64 (Beats_value (beat_origin tl)) ->
  from_phase_encoded_beats tl beat q =
  time_at_microbeats tl (Beats_value beat + centered (Beats_value (beat_origin tl)) (Beats_value q)).
Proof.
  intros Hq Hb Ho. unfold from_phase_encoded_beats. f_equal.
  set (o := Beats_value (beat_origin tl)) in *. set (b := Beats_value beat) in *.
  set (c := Beats_value q) in *. rewrite !phase_wide_abs.
  destruct (Z.eq_dec c 0) as [->|N]; [rewrite centered_0, closest_phase_match_0; lia|].
  destruct (centered_spec o c N) as [S R]. pose proof (phase_wide_range (b - o) c N) as P.
  assert (closest_phase_match_wide (Z.abs c - phase_wide (b - o) c) (Z.abs c - phase_wide b c) (Z.abs c)
          = Z.abs c - phase_wide (b - o) c - centered o c) as ->; [|lia].
  assert (Z.abs c <> 0) by lia.
  apply closest_phase_match_unique; rewrite ?Z.abs_involutive; [assumption|zlia|zlia| |lia].
  unfold same_phase.
  replace (Z.abs c - phase_wide (b - o) c - centered o c - (Z.abs c - phase_wide b c))
    with (phase_wide b c - phase_wide (b - o) c - centered o c) by lia.
  apply Z.divide_abs_l. fold (same_phase c (phase_wide b c - phase_wide (b - o) c) (centered o c)).
  rewrite !phase_wide_same, S by assumption. replace (b - (b - o)) with o by lia. reflexivity.
Qed.

(** Decoding a phase-encoded beat to a time and encoding that time again
    returns the beat, whatever the quantum, on any timeline whose beat period
    exceeds a millisecond. *)
Theorem phase_encoding_round_trip tl beat q :
  Beats_ok (beat_origin tl) -> Beats_ok beat -> Beats_ok q -> 1000 < period_micros (tempo tl) ->
  - max_nanos <= duration_nanos (time_origin tl) +
      rdiv ((Beats_value beat + centered (Beats_value (beat_origin tl)) (Beats_value q)
             - Beats_value (beat_origin tl)) * period_micros (tempo tl)) 1000 <= max_nanos ->
  to_phase_encoded_beats tl (from_phase_encoded_beats tl beat q) q = beat.
Proof.
  unfold Beats_ok. intros Ho Hb Hq Hp Hr. rewrite from_phase_encoded_eq by assumption.
  pose proof (centered_small (Beats_value (beat_origin tl)) (Beats_value q) Hq) as C.
  set (u := Beats_value beat + centered _ _) in *.
  assert (microbeats_at tl (time_at_microbeats tl u) = u) as E.
  { apply microbeats_at_time_at; [assumption|unfold u; zlia|assumption|assumption]. }
  unfold to_phase_encoded_beats. rewrite to_phase_encoded_eq by (rewrite ?E; unfold u; zlia).
  rewrite E. unfold u, narrow, Beats_from_microbeats.
  replace (Beats_value beat + _ - _) with (Beats_value beat) by lia.
  rewrite clamp_i64_id by assumption. now destruct beat.
Qed.

(** ** Forcing a beat at a time *)

(** An accepted precise anchor has been checked. *)
Lemma anchor_at_boundary_sound tl beat time q boundary anchored :
  anchor_at_boundary tl beat time q true boundary = Some anchored ->
  to_phase_encoded_microbeats anchored time q = Beats_value beat /\ tempo anchored = tempo tl.
Proof.
  unfold anchor_at_boundary. destruct (negb _); [discriminate|]. cbn [orb negb].
  match goal with |- context [if ?a =? ?b then _ else _] => destruct (Z.eqb_spec a b) end; [|discriminate].
  now intros [= <-].
Qed.

(** The anchor at the last quantum boundary before the beat is accepted. *)
Lemma anchor_at_boundary_complete tl beat time q :
  let boundary := Beats_value beat - phase_wide (Beats_value beat) (Beats_value q) in
  let anchor := duration_nanos time -
    rdiv ((Beats_value beat - boundary) * period_micros (tempo tl)) 1000 in
  Beats_ok beat -> Beats_ok q -> in_i64 boundary -> 1000 < period_micros (tempo tl) ->
  - max_nanos <= anchor <= max_nanos ->
  anchor_at_boundary tl beat time q true boundary =
  Some (MkTimeline (tempo tl) (MkBeats boundary) (duration_from_nanos anchor)).
Proof.
  intros boundary anchor Hb Hq Hi Hp Ha. unfold Beats_ok in *.
  set (b := Beats_value beat) in *. set (c := Beats_value q) in *.
  assert (c <> 0 -> same_phase c boundary 0) as SB.
  { intros N. unfold boundary. rewrite (same_phase_minus _ _ _ b (phase_wide_same c b N)).
    now rewrite Z.sub_diag. }
  assert (closest_phase_match_wide boundary 0 c = boundary) as CB.
  { destruct (Z.eq_dec c 0) as [->|N]; [apply closest_phase_match_0|].
    apply closest_phase_match_unique; [assumption|zlia|zlia|auto|lia]. }
  assert (centered boundary c = 0) as C0.
  { destruct (Z.eq_dec c 0) as [->|N]; [apply centered_0|].
    destruct (centered_spec boundary c N) as [S R]. apply (same_phase_near c); [|lia].
    rewrite S. auto. }
  unfold anchor_at_boundary, narrow, Beats_from_microbeats. fold b c. cbn [Beats_value].
  rewrite (clamp_i64_id boundary) by assumption. rewrite CB, Z.eqb_refl. cbn [negb orb].
  pose proof (duration_nanos_range time) as Rt.
  rewrite nanos_from_microbeats_eq. rewrite (clamp_i128_id (rdiv _ 1000)) by durlia. fold anchor.
  rewrite (clamp_i128_id anchor) by durlia.
  set (tl' := MkTimeline (tempo tl) (MkBeats boundary) (duration_from_nanos anchor)).
  assert (microbeats_at tl' time = b) as E.
  { replace time with (time_at_microbeats tl' b).
    - apply microbeats_at_time_at; cbn [tl' tempo beat_origin time_origin Beats_value]; unfold Beats_ok;
        cbn [Beats_value]; [assumption|zlia|assumption|].
      rewrite duration_nanos_from_id by assumption. unfold anchor. lia.
    - apply duration_nanos_inj. unfold time_at_microbeats, nanos_at_microbeats.
      cbn [tl' tempo beat_origin time_origin Beats_value]. rewrite wrap_i128_id by zlia.
      rewrite nanos_from_microbeats_eq, (clamp_i128_id (rdiv _ 1000)) by durlia.
      rewrite (duration_nanos_from_id anchor) by assumption.
      unfold anchor. rewrite Z.sub_add, clamp_i128_id, duration_nanos_from_id by durlia. reflexivity. }
  rewrite to_phase_encoded_eq by (rewrite ?E; zlia). rewrite E.
  cbn [tl' beat_origin Beats_value]. fold c. rewrite C0, Z.sub_0_r, Z.eqb_refl. reflexivity.
Qed.

(** ** The fast anchor *)

Lemma euclid_loop_spec fuel d r i k a b :
  0 <= d -> 0 <= r -> (Z.to_nat r < fuel)%nat -> 0 < d + r ->
  (exists y, d = i * a + y * b) -> (exists y, r = k * a + y * b) ->
  exists g inv, euclid_loop fuel d r i k = Some (g, inv) /\ g = Z.gcd d r /\ 0 < g /\
    exists y, g = inv * a + y * b.
Proof.
  revert d r i k. induction fuel as [|fuel IH]; intros d r i k Hd Hr Hf Hpos [y1 E1] [y2 E2]; [lia|].
  cbn [euclid_loop]. destruct (Z.eqb_spec r 0) as [->|Nr].
  - exists d, i. rewrite Z.gcd_0_r, Z.abs_eq by lia. eauto with lia.
  - pose proof (Z.quot_rem' d r) as Q. pose proof (Z.rem_bound_pos d r ltac:(lia) ltac:(lia)) as R.
    replace (d - Z.quot d r * r) with (Z.rem d r) by lia.
    destruct (IH r (Z.rem d r) k (i - Z.quot d r * k)) as (g & inv & G1 & G2 & G3 & G4);
      [lia|lia|lia|lia|eauto|exists (y1 - Z.quot d r * y2); nia|].
    exists g, inv. repeat split; try assumption. rewrite G2, Z.rem_mod_nonneg, Z.gcd_comm by lia.
    rewrite Z.gcd_mod by lia. apply Z.gcd_comm.
Qed.

(** The fuel is enough, and the loop computes an inverse of 1000 up to the
    greatest common divisor. *)
Lemma euclid_loop_1000 q :
  0 < q -> exists inv, euclid_loop euclid_fuel 1000 q 1 0 = Some (Z.gcd 1000 q, inv) /\
    same_phase q (inv * 1000) (Z.gcd 1000 q).
Proof.
  intros Hq. unfold euclid_fuel. replace (Z.to_nat 1002) with (S (Z.to_nat 1001)) by lia.
  cbn [euclid_loop]. destruct (Z.eqb_spec q 0); [lia|].
  pose proof (Z.quot_rem' 1000 q) as Q. pose proof (Z.rem_bound_pos 1000 q ltac:(lia) Hq) as R.
  pose proof (Z.quot_pos 1000 q ltac:(lia) Hq).
  replace (1000 - Z.quot 1000 q * q) with (Z.rem 1000 q) by lia.
  destruct (euclid_loop_spec (Z.to_nat 1001) q (Z.rem 1000 q) 0 (1 - Z.quot 1000 q * 0) 1000 q)
    as (g & inv & G1 & G2 & _ & y & G4);
    [lia|lia|nia|lia|exists 1; lia|exists (- Z.quot 1000 q); lia|].
  assert (g = Z.gcd 1000 q) as ->.
  { rewrite G2, Z.rem_mod_nonneg, Z.gcd_comm by lia. rewrite Z.gcd_mod by lia. apply Z.gcd_comm. }
  exists inv. split; [assumption|]. exists (- y). lia.
Qed.

Lemma for_loop_Some {A} (body : Z -> flow A) l a :
  for_loop body l = Some a -> exists i, i ∈ l /\ body i = Return a.
Proof.
  induction l as [|i l IH]; [discriminate|]. cbn [for_loop].
  destruct (body i) eqn:B; [discriminate| |].
  - intros G. destruct (IH G) as (j & J1 & J2). exists j. split; [now right|assumption].
  - intros [= ->]. exists i. split; [left|assumption].
Qed.

Lemma exact_fast_anchor_sound tl beat time q anchored :
  exact_fast_anchor tl beat time q = Some anchored ->
  to_phase_encoded_microbeats anchored time q = Beats_value beat /\ tempo anchored = tempo tl.
Proof.
  unfold exact_fast_anchor. destruct (_ || _); [discriminate|].
  destruct (euclid_loop _ _ _ _ _) as [[divisor inverse]|]; [|discriminate].
  assert (forall direction, fast_anchor_direction tl time q (period_micros (tempo tl))
    (Beats_value beat) (Z.abs (period_micros (tempo tl))) (Z.abs (Beats_value q))
    (closest_phase_match_wide i64_MIN 0 (Z.abs (Beats_value q)))
    (closest_phase_match_wide i64_MAX 0 (Z.abs (Beats_value q))) divisor
    (Z.quot (Z.abs (Beats_value q)) divisor)
    (inverse mod Z.quot (Z.abs (Beats_value q)) divisor) direction = Some anchored ->
    to_phase_encoded_microbeats anchored time q = Beats_value beat /\ tempo anchored = tempo tl) as D.
  { intros direction. unfold fast_anchor_direction. destruct (if 0 <? _ then _ else _) as [mn mx].
    destruct (mx <? _); [discriminate|]. intros G. apply for_loop_Some in G as (r & _ & G).
    unfold fast_anchor_residue in G. destruct (_ <? r); [discriminate|].
    destruct (negb _); [discriminate|]. destruct (_ <? _); [discriminate|].
    destruct (negb _); [discriminate|].
    match type of G with (if ?a =? ?b then _ else _) = _ => destruct (Z.eqb_spec a b) end;
      [|discriminate]. now injection G as <-. }
  cbv zeta. destruct (fast_anchor_direction _ _ _ _ _ _ _ _ _ _ _ _ 1) as [t|] eqn:F1.
  - intros [= <-]. eapply D, F1.
  - apply D.
Qed.

(** *** When there is an anchor, it finds one *)

Lemma microbeats_at_eq tl time :
  Beats_ok (beat_origin tl) -> period_micros (tempo tl) <> 0 ->
  microbeats_at tl time =
  rdiv ((duration_nanos time - duration_nanos (time_origin tl)) * 1000) (period_micros (tempo tl)) +
  Beats_value (beat_origin tl).
Proof.
  intros Ho Hp. unfold Beats_ok in Ho. unfold microbeats_at, microbeats_at_nanos.
  pose proof (duration_nanos_range time). pose proof (duration_nanos_range (time_origin tl)).
  set (e := duration_nanos time - duration_nanos (time_origin tl)).
  assert (Z.abs e <= 2 * max_nanos) by durlia. rewrite (clamp_i128_id e) by durlia.
  rewrite microbeats_from_nanos_eq by (try assumption; durlia).
  set (p := period_micros (tempo tl)) in *.
  pose proof (rdiv_abs_le (e * 1000) p Hp). rewrite (clamp_i128_id (rdiv _ _)) by durlia.
  apply clamp_i128_id. durlia.
Qed.

Lemma closest_boundary o q :
  in_i64 o -> in_i64 q -> q <> 0 ->
  closest_phase_match_wide o 0 (Z.abs q) = o - centered o q /\ same_phase q (o - centered o q) 0.
Proof.
  intros Ho Hq N. destruct (centered_spec o q N) as [S R].
  assert (same_phase q (o - centered o q) 0) as S'.
  { rewrite (same_phase_minus _ _ _ o S). now rewrite Z.sub_diag. }
  split; [|exact S']. apply closest_phase_match_unique; rewrite ?Z.abs_involutive; [lia|zlia|zlia| |lia].
  unfold same_phase in *. now apply Z.divide_abs_l.
Qed.

(** The boundaries of origins that fit lie between those of the two ends, and a
    multiple of the quantum between these is the boundary of a value that fits. *)
Lemma boundary_between o q :
  in_i64 o -> in_i64 q -> q <> 0 ->
  i64_MIN - centered i64_MIN q <= o - centered o q <= i64_MAX - centered i64_MAX q.
Proof.
  intros Ho Hq N.
  assert (forall x, in_i64 x -> same_phase q (x - centered x q) 0 /\ - Z.abs q < 2 * centered x q <= Z.abs q) as B.
  { intros x Hx. split; [now apply closest_boundary|now apply centered_spec]. }
  destruct (B o Ho) as [S1 R1], (B i64_MIN ltac:(zlia)) as [S2 R2], (B i64_MAX ltac:(zlia)) as [S3 R3].
  assert (forall x y, same_phase q x 0 -> same_phase q y 0 -> x < y -> x + Z.abs q <= y) as G.
  { intros x y X Y L. destruct (Z.le_gt_cases (x + Z.abs q) y) as [|G]; [assumption|exfalso].
    assert (x = y); [|lia]. apply (same_phase_near q); [now rewrite X, Y|lia]. }
  split.
  - destruct (Z.le_gt_cases (i64_MIN - centered i64_MIN q) (o - centered o q)) as [|L]; [assumption|].
    pose proof (G _ _ S1 S2 L). zlia.
  - destruct (Z.le_gt_cases (o - centered o q) (i64_MAX - centered i64_MAX q)) as [|L]; [assumption|].
    pose proof (G _ _ S3 S1 L). zlia.
Qed.

Lemma boundary_narrow b q :
  in_i64 q -> q <> 0 -> same_phase q b 0 ->
  i64_MIN - centered i64_MIN q <= b <= i64_MAX - centered i64_MAX q ->
  clamp_i64 b - centered (clamp_i64 b) q = b.
Proof.
  intros Hq N S R.
  assert (in_i64 (clamp_i64 b)) as Hc by apply clamp_i64_range.
  destruct (closest_boundary (clamp_i64 b) q Hc Hq N) as [_ S'].
  apply (same_phase_near q); [etransitivity; [exact S'|now symmetry]|].
  pose proof (proj2 (centered_spec (clamp_i64 b) q N)) as Rc.
  pose proof (proj2 (centered_spec i64_MIN q N)) as R1. pose proof (proj2 (centered_spec i64_MAX q N)) as R2.
  destruct (Z.lt_ge_cases b i64_MIN) as [L|L].
  - replace (clamp_i64 b) with i64_MIN in * by clamplia. lia.
  - destruct (Z.lt_ge_cases i64_MAX b) as [L'|L'].
    + replace (clamp_i64 b) with i64_MAX in * by clamplia. lia.
    + rewrite clamp_i64_id in * by zlia. lia.
Qed.

(** Elapsed nanoseconds as cycles and a residue. *)
Lemma microbeats_of_cycles m c r :
  0 < m -> 0 <= c -> 0 <= r -> rdiv ((c * m + r) * 1000) m = 1000 * c + rdiv (1000 * r) m.
Proof.
  intros Hm Hc Hr. replace ((c * m + r) * 1000) with ((1000 * c) * m + 1000 * r) by ring.
  apply rdiv_add_same_sign; nia.
Qed.

Lemma rdiv_signed n p d :
  p <> 0 -> d = 1 \/ d = -1 -> rdiv (d * n * 1000) p = (d * Z.sgn p) * rdiv (n * 1000) (Z.abs p).
Proof.
  intros Hp D. assert (rdiv (d * n * 1000) p = d * rdiv (n * 1000) p) as ->.
  { destruct D as [->| ->]; [rewrite !Z.mul_1_l; reflexivity|].
    replace (-1 * n * 1000) with (- (n * 1000)) by ring. rewrite rdiv_opp_l. lia. }
  destruct (Z.lt_ge_cases p 0).
  - rewrite (Z.sgn_neg p), (Z.abs_neq p), rdiv_opp_r by lia. lia.
  - rewrite (Z.sgn_pos p), (Z.abs_eq p) by lia. lia.
Qed.

(** The congruence [1000 * c = rhs] modulo the quantum, solved with the inverse. *)
Lemma congruence_solved q inverse rhs c :
  0 < q -> same_phase q (inverse * 1000) (Z.gcd 1000 q) -> same_phase q rhs (1000 * c) ->
  let g := Z.gcd 1000 q in
  let m := Z.quot q g in
  rhs mod g = 0 /\ 0 < m /\ q = m * g /\
  (Z.quot rhs g mod m * (inverse mod m)) mod m = c mod m.
Proof.
  intros Hq [k Ik] [j Rj] g m. fold g in Ik.
  assert (0 < g) as Hg by (pose proof (Z.gcd_nonneg 1000 q); destruct (Z.eq_dec g 0) as [E|]; [apply Z.gcd_eq_0_r in E|]; lia).
  destruct (Z.gcd_divide_l 1000 q) as [t Ht], (Z.gcd_divide_r 1000 q) as [u Hu]. fold g in Ht, Hu.
  clearbody g. assert (m = u) as -> by (unfold m; rewrite Hu, Z.quot_mul; lia).
  assert (0 < u) as Hpos by nia.
  assert (rhs = (t * c + j * u) * g) as Er.
  { replace rhs with (1000 * c + j * q) by lia. rewrite Ht, Hu at 1. ring. }
  split; [rewrite Er; apply Z.mod_mul; lia|]. split; [exact Hpos|]. split; [lia|].
  rewrite Er, Z.quot_mul by lia.
  rewrite <- Z.mul_mod by lia.
  assert (inverse * t = 1 + k * u) as Ei.
  { apply (Z.mul_reg_r _ _ g); [lia|]. replace (inverse * t * g) with (inverse * 1000) by (rewrite Ht; ring).
    replace (inverse * 1000) with (g + k * q) by lia. rewrite Hu. ring. }
  replace ((t * c + j * u) * inverse) with (c * (inverse * t) + j * inverse * u) by ring.
  rewrite Ei. replace (c * (1 + k * u) + j * inverse * u) with (c + (k * c + j * inverse) * u) by ring.
  apply Z.mod_add. lia.
Qed.

(** The first solution at or above a bound. *)
Lemma first_solution m first lower c :
  0 < m -> first mod m = c mod m -> lower <= c ->
  let x := lower + (first - lower) mod m in
  lower <= x <= c /\ exists k, x = c + k * m.
Proof.
  intros Hm E L x. unfold x.
  assert ((first - lower) mod m = (c - lower) mod m) as -> by (rewrite Zminus_mod, E, <- Zminus_mod; reflexivity).
  pose proof (Z.mod_pos_bound (c - lower) m Hm). pose proof (Z.div_mod (c - lower) m ltac:(lia)).
  pose proof (Z.div_pos (c - lower) m ltac:(lia) Hm). split; [nia|]. exists (- ((c - lower) / m)). nia.
Qed.

(** What the beat at [time] is on an anchor [n] nanoseconds away. *)
Lemma anchor_encodes tl time q origin n direction :
  let p := period_micros (tempo tl) in
  in_i64 origin -> in_i64 (Beats_value q) -> p <> 0 -> direction = 1 \/ direction = -1 -> 0 <= n ->
  n <= (if 0 <? direction then duration_nanos time - duration_nanos Duration_MIN
        else duration_nanos Duration_MAX - duration_nanos time) ->
  to_phase_encoded_microbeats
    (MkTimeline (tempo tl) (MkBeats origin) (duration_from_nanos (duration_nanos time - direction * n))) time q =
  origin - centered origin (Beats_value q) + direction * Z.sgn p * rdiv (n * 1000) (Z.abs p).
Proof.
  intros p Ho Hq Hp Hd Hn Hs. pose proof (duration_nanos_range time) as Rt.
  rewrite (duration_nanos_eq Duration_MIN), (duration_nanos_eq Duration_MAX), nanos_MIN, nanos_MAX in Hs.
  assert (- max_nanos <= duration_nanos time - direction * n <= max_nanos) as Ra.
  { destruct Hd as [-> | ->]; cbn in Hs; lia. }
  set (tl' := MkTimeline _ _ _).
  assert (microbeats_at tl' time = origin + direction * Z.sgn p * rdiv (n * 1000) (Z.abs p)) as E.
  { rewrite microbeats_at_eq by first [exact Ho | exact Hp].
    cbn [tl' tempo beat_origin time_origin Beats_value]. rewrite duration_nanos_from_id by assumption.
    replace (_ - (_ - _)) with (direction * n) by lia. rewrite rdiv_signed by assumption. fold p. lia. }
  rewrite to_phase_encoded_eq; rewrite ?E; cbn [tl' beat_origin Beats_value]; [lia|exact Hq|].
  pose proof (rdiv_abs_le (n * 1000) (Z.abs p) ltac:(lia)) as L.
  assert (n <= 2 * max_nanos) by (destruct Hd as [-> | ->]; cbn in Hs; lia).
  assert (Z.abs (direction * Z.sgn p * rdiv (n * 1000) (Z.abs p)) <= n * 1000) as L'.
  { rewrite !Z.abs_mul. replace (Z.abs (Z.sgn p)) with 1 by lia. replace (Z.abs direction) with 1 by lia. lia. }
  durlia.
Qed.


(** A residue that has a solution returns an anchor. *)
Lemma fast_anchor_residue_complete tl time q target direction residue c :
  let p := period_micros (tempo tl) in
  let quantum := Z.abs (Beats_value q) in
  let first_boundary := closest_phase_match_wide i64_MIN 0 quantum in
  let last_boundary := closest_phase_match_wide i64_MAX 0 quantum in
  let sign := direction * Z.sgn p in
  let '(minimum, maximum) :=
    if 0 <? sign then (target - last_boundary, target - first_boundary)
    else (first_boundary - target, last_boundary - target) in
  let span :=
    if 0 <? direction then duration_nanos time - duration_nanos Duration_MIN
    else duration_nanos Duration_MAX - duration_nanos time in
  let rounded := rdiv (1000 * residue) (Z.abs p) in
  let boundary := target - sign * (1000 * c + rounded) in
  forall inverse,
  in_i64 target -> in_i64 (Beats_value q) -> Beats_value q <> 0 -> 1 <= Z.abs p < 1000 ->
  direction = 1 \/ direction = -1 -> 0 <= residue < Z.abs p -> 0 <= c ->
  c * Z.abs p + residue <= span -> same_phase (Beats_value q) boundary 0 ->
  first_boundary <= boundary <= last_boundary ->
  same_phase quantum (inverse * 1000) (Z.gcd 1000 quantum) ->
  exists anchored,
    fast_anchor_residue tl time q target (Z.abs p) quantum (Z.gcd 1000 quantum)
      (Z.quot quantum (Z.gcd 1000 quantum)) (inverse mod Z.quot quantum (Z.gcd 1000 quantum))
      direction sign (Z.max minimum 0) maximum span residue = Return anchored.
Proof.
  intros p quantum first_boundary last_boundary sign.
  destruct (if 0 <? sign then _ else _) as [minimum maximum] eqn:Em.
  intros span rounded boundary inverse Ht Hq Nq Hp Hd Hr Hc Hs Sb Rb Hi.
  assert (p <> 0) as Np by lia. assert (0 < quantum) as Pq by (unfold quantum; lia).
  assert (sign = 1 \/ sign = -1) as Sg.
  { unfold sign. destruct (Z.lt_ge_cases p 0); [rewrite (Z.sgn_neg p)|rewrite (Z.sgn_pos p)]; lia. }
  assert (0 <= rounded) as Pr by (apply rdiv_sign; lia).
  assert (minimum <= 1000 * c + rounded <= maximum) as Rm.
  { destruct Sg as [E|E]; rewrite E in Em; cbn in Em; injection Em as <- <-; unfold boundary in Rb; rewrite E in Rb; lia. }
  unfold fast_anchor_residue. rewrite (round_ratio_rdiv (1000 * residue)) by zlia. fold rounded.
  assert (0 <= c * Z.abs p) by nia.
  destruct (Z.ltb_spec span residue) as [|_]; [lia|].
  assert (same_phase quantum (sign * target - rounded) (1000 * c)) as Cg.
  { unfold quantum, same_phase in *. apply Z.divide_abs_l. unfold boundary in Sb. rewrite Z.sub_0_r in Sb.
    destruct Sg as [-> | ->]; [|apply Z.divide_opp_r in Sb];
      match goal with H : (_ | ?x) |- (_ | ?y) => replace y with x by lia; exact H end. }
  destruct (congruence_solved quantum inverse _ c Pq Hi Cg) as (G1 & G2 & G3 & G4).
  set (g := Z.gcd 1000 quantum) in *. set (m := Z.quot quantum g) in *.
  rewrite G1. change (0 =? 0) with true. cbn [negb].
  set (first := (Z.quot _ _ mod m * _) mod m) in *.
  set (lower := Z.max ((Z.max minimum 0 - rounded + 999) / 1000) 0).
  assert (lower <= c) as Lc.
  { unfold lower. apply Z.max_lub; [|exact Hc]. apply Z.lt_succ_r, Z.div_lt_upper_bound; lia. }
  assert (first mod m = c mod m) as Ef by (unfold first; rewrite Zmod_mod; exact G4).
  destruct (first_solution m first lower c G2 Ef Lc) as [B1 [k Bk]].
  set (cycles := lower + (first - lower) mod m) in *.
  set (upper := Z.min _ _).
  assert (c <= upper) as Uc.
  { unfold upper. apply Z.min_glb; [apply Z.div_le_lower_bound; lia|].
    rewrite Z.quot_div_nonneg by lia. apply Z.div_le_lower_bound; lia. }
  destruct (Z.ltb_spec upper cycles) as [|_]; [lia|].
  set (b := target - sign * (1000 * cycles + rounded)).
  assert (same_phase (Beats_value q) b 0) as Sb'.
  { transitivity boundary; [|exact Sb]. unfold same_phase, b, boundary. rewrite Bk.
    replace (_ - _) with (- sign * 1000 * k * m) by ring.
    destruct (Z.gcd_divide_l 1000 quantum) as [t Et]. fold g in Et.
    replace (- sign * 1000 * k * m) with (- sign * k * t * quantum) by (rewrite G3, Et; ring).
    apply Z.divide_mul_r. unfold quantum. apply Z.divide_abs_r, Z.divide_refl. }
  assert (first_boundary <= b <= last_boundary) as Rb'.
  { assert (Z.max minimum 0 - rounded <= 1000 * lower) as L1.
    { unfold lower. pose proof (Z.div_mod (Z.max minimum 0 - rounded + 999) 1000 ltac:(lia)).
      pose proof (Z.mod_pos_bound (Z.max minimum 0 - rounded + 999) 1000 ltac:(lia)). lia. }
    unfold b. destruct Sg as [E|E]; rewrite E in Em; cbn in Em; injection Em as <- <-; rewrite E in *; lia. }
  destruct (closest_boundary i64_MIN (Beats_value q) ltac:(zlia) Hq Nq) as [F1 _].
  destruct (closest_boundary i64_MAX (Beats_value q) ltac:(zlia) Hq Nq) as [F2 _].
  fold quantum in F1, F2. fold first_boundary in F1. fold last_boundary in F2.
  pose proof (boundary_narrow b (Beats_value q) Hq Nq Sb' ltac:(lia)) as Nb.
  cbn [narrow Beats_from_microbeats Beats_value].
  destruct (closest_boundary (clamp_i64 b) (Beats_value q) (clamp_i64_range b) Hq Nq) as [Cb _].
  fold quantum in Cb. rewrite Cb, Nb, Z.eqb_refl. cbn [negb].
  match goal with |- context [to_phase_encoded_microbeats ?t _ _] => set (tl' := t) end.
  assert (to_phase_encoded_microbeats tl' time q = target) as ->; [|rewrite Z.eqb_refl; eauto].
  assert (0 <= cycles * Z.abs p + residue <= span) as Rn.
  { assert (cycles <= Z.quot (span - residue) (Z.abs p)) as L by (unfold upper in Uc; lia).
    rewrite Z.quot_div_nonneg in L by lia. pose proof (Z.mul_div_le (span - residue) (Z.abs p) ltac:(lia)). nia. }
  refine (eq_trans (anchor_encodes tl time q (clamp_i64 b) (cycles * Z.abs p + residue) direction
    (clamp_i64_range b) Hq Np Hd (proj1 Rn) (proj2 Rn)) _).
  fold p. fold sign. rewrite Nb, microbeats_of_cycles by (unfold lower in B1; lia).
  fold rounded. unfold b. lia.
Qed.


Lemma for_loop_finds {A} (body : Z -> flow A) m i a :
  0 <= i < m -> body i = Return a -> (forall j, body j = Break -> i < j) -> for_loop body (seqZ 0 m) <> None.
Proof.
  intros Hi B N. replace m with (i + (m - i)) by lia. rewrite seqZ_app by lia.
  rewrite (seqZ_cons (0 + i)) by lia. rewrite Z.add_0_l.
  assert (Forall (fun j => body j <> Break) (seqZ 0 i)) as F.
  { apply Forall_forall. intros j J X. apply list_elem_of_In, elem_of_seqZ in J. specialize (N j X). lia. }
  induction F as [|j l J _ IH]; cbn [for_loop app]; [now rewrite B|].
  destruct (body j); [contradiction|exact IH|discriminate].
Qed.

Lemma fast_anchor_residue_breaks tl time q target m quantum d modulus inverse direction sign minimum maximum span j :
  fast_anchor_residue tl time q target m quantum d modulus inverse direction sign minimum maximum span j = Break ->
  span < j.
Proof.
  unfold fast_anchor_residue. destruct (Z.ltb_spec span j); [now intros|]. cbv zeta.
  repeat match goal with |- context [if ?c then _ else _] => destruct c; try discriminate end.
Qed.

(** The fast anchor is found whenever some timeline of the same tempo, wherever
    its origin, puts the beat at the time. *)
Lemma exact_fast_anchor_complete tl alternative beat time q :
  Beats_ok q -> Beats_value q <> 0 -> Beats_ok beat -> 1 <= Z.abs (period_micros (tempo tl)) < 1000 ->
  tempo alternative = tempo tl -> Beats_ok (beat_origin alternative) ->
  to_phase_encoded_microbeats alternative time q = Beats_value beat ->
  exact_fast_anchor tl beat time q <> None.
Proof.
  intros Hq Nq Hb Hp Ht Ho E. unfold Beats_ok in *. set (p := period_micros (tempo tl)) in *.
  destruct alternative as [tp [o] t0]. cbn [tempo beat_origin Beats_value] in *. subst tp.
  pose proof (duration_nanos_range time) as Rt. pose proof (duration_nanos_range t0) as R0.
  set (e := duration_nanos time - duration_nanos t0).
  set (direction := if 0 <=? e then 1 else -1).
  assert (direction = 1 \/ direction = -1) as Hd by (unfold direction; destruct (0 <=? e); auto).
  assert (direction * Z.abs e = e) as De by (unfold direction; destruct (Z.leb_spec 0 e); lia).
  assert (Z.abs e <= (if 0 <? direction then duration_nanos time - duration_nanos Duration_MIN
                      else duration_nanos Duration_MAX - duration_nanos time)) as Hs.
  { rewrite (duration_nanos_eq Duration_MIN), (duration_nanos_eq Duration_MAX), nanos_MIN, nanos_MAX.
    unfold direction. destruct (Z.leb_spec 0 e); cbn; unfold e in *; lia. }
  replace t0 with (duration_from_nanos (duration_nanos time - direction * Z.abs e)) in E
    by (rewrite De; unfold e; replace (_ - (_ - _)) with (duration_nanos t0) by lia; apply duration_from_nanos_nanos).
  rewrite anchor_encodes in E by (assumption || lia). fold p in E.
  pose proof (Z.div_mod (Z.abs e) (Z.abs p) ltac:(lia)) as Dm. pose proof (Z.mod_pos_bound (Z.abs e) (Z.abs p) ltac:(lia)) as Bm.
  pose proof (Z.div_pos (Z.abs e) (Z.abs p) ltac:(lia) ltac:(lia)) as Pc.
  set (c := Z.abs e / Z.abs p) in *. set (residue := Z.abs e mod Z.abs p) in *.
  replace (Z.abs e) with (c * Z.abs p + residue) in E, Hs by lia. rewrite microbeats_of_cycles in E by lia.
  destruct (closest_boundary o _ Ho Hq Nq) as [_ Sb].
  destruct (closest_boundary i64_MIN _ ltac:(zlia) Hq Nq) as [F1 _].
  destruct (closest_boundary i64_MAX _ ltac:(zlia) Hq Nq) as [F2 _].
  pose proof (boundary_between o _ Ho Hq Nq) as Bb.
  set (boundary := o - centered o (Beats_value q)) in *.
  destruct (euclid_loop_1000 (Z.abs (Beats_value q)) ltac:(lia)) as (inverse & Eu & Ei).
  pose proof (fast_anchor_residue_complete tl time q (Beats_value beat) direction residue c) as C.
  fold p in C. cbv zeta in C.
  unfold exact_fast_anchor. cbv zeta. fold p.
  replace (1 <=? Z.abs p) with true by lia. replace (Z.abs p <? 1000) with true by lia.
  replace (Z.abs (Beats_value q) =? 0) with false by lia. cbn [negb andb orb]. rewrite Eu.
  assert (forall d, d = direction ->
    fast_anchor_direction tl time q p (Beats_value beat) (Z.abs p) (Z.abs (Beats_value q))
      (closest_phase_match_wide i64_MIN 0 (Z.abs (Beats_value q))) (closest_phase_match_wide i64_MAX 0 (Z.abs (Beats_value q)))
      (Z.gcd 1000 (Z.abs (Beats_value q))) (Z.quot (Z.abs (Beats_value q)) (Z.gcd 1000 (Z.abs (Beats_value q))))
      (inverse mod Z.quot (Z.abs (Beats_value q)) (Z.gcd 1000 (Z.abs (Beats_value q)))) d <> None) as D.
  { intros d ->. unfold fast_anchor_direction.
    replace (Beats_value beat - direction * Z.sgn p * (1000 * c + rdiv (1000 * residue) (Z.abs p))) with boundary in C by lia.
    assert (0 <= rdiv (1000 * residue) (Z.abs p)) as Pr by (apply rdiv_sign; lia).
    destruct (if 0 <? direction * Z.sgn p then _ else _) as [minimum maximum] eqn:Em.
    destruct (C inverse) as [anchored A]; try assumption; try lia.
    destruct (Z.ltb_spec maximum (Z.max minimum 0)) as [L|_].
    - exfalso. assert (direction * Z.sgn p = 1 \/ direction * Z.sgn p = -1) as [Sg|Sg]
        by (destruct (Z.lt_ge_cases p 0); [rewrite (Z.sgn_neg p)|rewrite (Z.sgn_pos p)]; lia);
        rewrite Sg in Em, E; cbn in Em; injection Em as <- <-; lia.
    - eapply for_loop_finds; [exact Bm|exact A|]. intros j J. apply fast_anchor_residue_breaks in J.
      assert (0 <= c * Z.abs p) by nia. lia. }
  destruct Hd as [Hd|Hd]; specialize (D _ (eq_sym Hd)).
  - now destruct (fast_anchor_direction _ _ _ _ _ _ _ _ _ _ _ _ 1).
  - destruct (fast_anchor_direction _ _ _ _ _ _ _ _ _ _ _ _ 1); [discriminate|exact D].
Qed.

(** *** The whole of it *)

Lemma anchor_at_boundary_tempo tl beat time q precise boundary anchored :
  anchor_at_boundary tl beat time q precise boundary = Some anchored -> tempo anchored = tempo tl.
Proof.
  unfold anchor_at_boundary. cbv zeta.
  repeat match goal with |- context [if ?c then _ else _] => destruct c end; try discriminate; now intros [= <-].
Qed.

Lemma force_beat_tempo tl beat time q : tempo (force_beat_at_time_impl tl beat time q) = tempo tl.
Proof.
  unfold force_beat_at_time_impl. cbv zeta. destruct (_ || _); [|reflexivity].
  match goal with |- tempo (match first_some (first_some (first_some ?a ?b) ?c) ?d with _ => _ end) = _ =>
    destruct a eqn:A; [now apply anchor_at_boundary_tempo in A|]; destruct b eqn:B; [now apply anchor_at_boundary_tempo in B|];
    destruct c eqn:C; [now apply exact_fast_anchor_sound in C|] end.
  cbn [first_some]. destruct (negb _ || negb _); [|reflexivity].
  match goal with |- tempo (match first_some ?a ?b with _ => _ end) = _ =>
    destruct a eqn:D; [now apply anchor_at_boundary_tempo in D|]; destruct b eqn:E; [now apply anchor_at_boundary_tempo in E|] end.
  reflexivity.
Qed.

(** Once an exact anchor is found, the result is exact. *)
Lemma force_beat_found tl beat time q :
  anchor_at_boundary tl beat time q true (Beats_value beat - phase_wide (Beats_value beat) (Beats_value q)) <> None \/
  exact_fast_anchor tl beat time q <> None ->
  to_phase_encoded_microbeats (force_beat_at_time_impl tl beat time q) time q = Beats_value beat.
Proof.
  intros F. unfold force_beat_at_time_impl. cbv zeta. destruct (_ || negb (_ =? _)) eqn:O.
  2: { apply orb_false_iff in O as [_ O]. now apply negb_false_iff, Z.eqb_eq in O. }
  match goal with |- to_phase_encoded_microbeats (match first_some (first_some (first_some ?a ?b) ?c) _ with _ => _ end) _ _ = _ =>
    destruct a eqn:A; [now apply anchor_at_boundary_sound in A|]; destruct b eqn:B; [now apply anchor_at_boundary_sound in B|];
    destruct c eqn:C; [now apply exact_fast_anchor_sound in C|] end.
  destruct F as [F|F]; now destruct F.
Qed.

Lemma force_beat_exact_eq tl beat time q :
  let boundary := Beats_value beat - phase_wide (Beats_value beat) (Beats_value q) in
  Beats_ok beat -> Beats_ok q -> in_i64 boundary -> 1000 < period_micros (tempo tl) ->
  - max_nanos <= duration_nanos time -
    rdiv ((Beats_value beat - boundary) * period_micros (tempo tl)) 1000 <= max_nanos ->
  let tl' := force_beat_at_time_impl tl beat time q in
  to_phase_encoded_microbeats tl' time q = Beats_value beat /\ tempo tl' = tempo tl.
Proof.
  intros boundary Hb Hq Hi Hp Ha. split; [|apply force_beat_tempo]. apply force_beat_found. left.
  rewrite (anchor_at_boundary_complete tl beat time q Hb Hq Hi Hp Ha). discriminate.
Qed.

(** Without a quantum the anchor is the beat itself. *)
Lemma anchor_without_quantum tl beat time q :
  Beats_ok beat -> Beats_value q = 0 -> period_micros (tempo tl) <> 0 ->
  anchor_at_boundary tl beat time q true (Beats_value beat) <> None.
Proof.
  intros Hb Q Hp. unfold Beats_ok in Hb. unfold anchor_at_boundary, narrow, Beats_from_microbeats. cbv zeta. cbn [Beats_value].
  rewrite Q, closest_phase_match_0, (clamp_i64_id _ Hb), Z.eqb_refl, Z.sub_diag, nanos_from_microbeats_eq. cbn [negb orb].
  pose proof (duration_nanos_range time). change (rdiv (0 * _) 1000) with 0. rewrite (clamp_i128_id 0) by zlia.
  rewrite Z.sub_0_r, (clamp_i128_id (duration_nanos time)) by durlia.
  set (tl' := MkTimeline _ _ _).
  assert (microbeats_at tl' time = Beats_value beat) as E.
  { rewrite microbeats_at_eq by first [exact Hb | exact Hp]. cbn [tl' time_origin beat_origin Beats_value tempo].
    rewrite duration_nanos_from_id, Z.sub_diag by assumption. unfold rdiv. cbn. lia. }
  rewrite to_phase_encoded_eq; rewrite ?E, ?Q; [|zlia|zlia]. now rewrite centered_0, Z.sub_0_r, Z.eqb_refl.
Qed.

(** C3 [force_beat_at_time_impl] keeps the tempo, and on the timeline it returns
    the phase-encoded beat at [time] is exactly [beat]: for a beat period above a
    millisecond, hence for every tempo the session allows, whenever the quantum
    boundary before [beat] and the time that boundary falls on can be represented;
    and for the shorter periods, of either sign, whenever any timeline of that
    tempo, wherever its origin, has that beat at that time. *)
Theorem force_beat_at_time_exact tl beat time q :
  let boundary := Beats_value beat - phase_wide (Beats_value beat) (Beats_value q) in
  let period := period_micros (tempo tl) in
  let tl' := force_beat_at_time_impl tl beat time q in
  Beats_ok beat -> Beats_ok q ->
  tempo tl' = tempo tl /\
  (in_i64 boundary -> 1000 < period ->
   - max_nanos <= duration_nanos time - rdiv ((Beats_value beat - boundary) * period) 1000 <= max_nanos ->
   to_phase_encoded_microbeats tl' time q = Beats_value beat) /\
  (1 <= Z.abs period < 1000 ->
   (exists alternative, tempo alternative = tempo tl /\ Beats_ok (beat_origin alternative) /\
      to_phase_encoded_microbeats alternative time q = Beats_value beat) ->
   to_phase_encoded_microbeats tl' time q = Beats_value beat).
Proof.
  intros boundary period tl' Hb Hq. split; [apply force_beat_tempo|]. split.
  - intros Hi Hp Ha. now apply (force_beat_exact_eq tl beat time q).
  - intros Hp (alternative & Ht & Ho & E). apply force_beat_found. destruct (Z.eq_dec (Beats_value q) 0) as [Q|Q].
    + left. rewrite Q, phase_wide_0, Z.sub_0_r. apply anchor_without_quantum; [exact Hb|exact Q|fold period; lia].
    + right. now apply (exact_fast_anchor_complete tl alternative).
Qed.

(** ** Shifting a timeline *)

(** The shift computes the difference of the two rounded conversions it
    replaces: the new time origin is the old one less the time of [shift]
    beats, each end rounded to the microsecond on its own. *)
Theorem shifted_time_origin_exact tl shift :
  Beats_ok (beat_origin tl) -> in_i64 shift -> Z.abs (period_micros (tempo tl)) <= 2 ^ 40 ->
  let p := period_micros (tempo tl) in
  let o := Beats_value (beat_origin tl) in
  shifted_time_origin_nanos tl shift =
  duration_nanos (time_origin tl) -
  1000 * (rdiv ((shift - o) * p) 1000000 - rdiv (- o * p) 1000000).
Proof.
  intros Ho Hs Hp p o. unfold Beats_ok in Ho. unfold shifted_time_origin_nanos. fold p o.
  pose proof (Z.quot_rem' p 1000000) as E. pose proof (Z.rem_bound_abs p 1000000 ltac:(lia)) as B.
  assert (0 <= Z.quot p 1000000 * Z.rem p 1000000) as SG.
  { pose proof (Z.quot_pos p 1000000). pose proof (Z.rem_bound_pos p 1000000).
    destruct (Z.le_gt_cases 0 p); [nia|].
    assert (Z.rem p 1000000 <= 0) by (apply Z.rem_nonpos; lia).
    assert (Z.quot p 1000000 <= 0) by (rewrite <- (Z.opp_involutive p), Z.quot_opp_l by lia;
      pose proof (Z.quot_pos (- p) 1000000); lia). nia. }
  fold p in Hp. fold o in Ho. set (P := Z.quot p 1000000) in *. set (r := Z.rem p 1000000) in *.
  assert (forall x, rdiv (x * p) 1000000 = x * P + rdiv (x * r) 1000000) as R.
  { intros x. rewrite E. replace (x * (1000000 * P + r)) with (x * P * 1000000 + x * r) by ring.
    apply rdiv_add_same_sign; nia. }
  pose proof (duration_nanos_range (time_origin tl)) as Rt.
  assert (forall x, in_i128 (x * r) -> round_ratio (x * r) 1000000 = rdiv (x * r) 1000000) as RR.
  { intros x Hx. apply round_ratio_rdiv; [assumption|lia|lia]. }
  assert (Z.abs P <= 2 ^ 40) by lia.
  assert (Z.abs ((shift - o) * r) <= 2 ^ 64 * 1000000) by (unfold_widths; rewrite Z.abs_mul; nia).
  assert (Z.abs (- o * r) <= 2 ^ 64 * 1000000) by (unfold_widths; rewrite Z.abs_mul; nia).
  assert (Z.abs (shift * P) <= 2 ^ 104) by (unfold_widths; rewrite Z.abs_mul; nia).
  rewrite (wrap_i128_id (shift - o)) by zlia. rewrite (wrap_i128_id ((shift - o) * r)) by zlia.
  rewrite (wrap_i128_id (- o * r)) by zlia. rewrite !RR by zlia.
  pose proof (rdiv_abs_le ((shift - o) * r) 1000000 ltac:(lia)).
  pose proof (rdiv_abs_le (- o * r) 1000000 ltac:(lia)).
  rewrite !R. set (a := rdiv ((shift - o) * r) 1000000) in *. set (b := rdiv (- o * r) 1000000) in *.
  rewrite (wrap_i128_id (a - b)) by zlia. rewrite (clamp_i128_id (shift * P)) by zlia.
  rewrite (clamp_i128_id (shift * P + (a - b))) by zlia.
  rewrite (clamp_i128_id (_ * 1000)) by zlia. rewrite clamp_i128_id by durlia. lia.
Qed.

End PhaseEncoding.
