(* ===== verification/Entries.v ===== *)
(** The values that payload entries carry: node and session identities
    (src/src/link/node.rs, src/src/link/sessions.rs), the start/stop and
    client states of src/src/link/state.rs, and the measurement and audio
    endpoints (src/src/link/measurement.rs, src/src/link/audio_endpoint.rs). *)

From stdpp Require Import base list numbers strings.
From Stdlib Require Import ZArith Lia SpecFloat.
From S2P Require Import Prelude Chrono F64 Encoding Beats Tempo Timeline GhostXForm.

(** src/src/link/error.rs. *)
Inductive Error :=
| Encoding (e : EncodeError)
| Decoding (e : DecodeError)
| Protocol (msg : string).

(** [From] of the two error conversions, as [?] applies it. *)
Definition lift_encode {A} (r : result A EncodeError) : result A Error := map_err Encoding r.
Definition lift_decode {A} (r : result A DecodeError) : result A Error := map_err Decoding r.

(** ** Node and session identities *)

(** [NodeIdArray]: eight bytes. *)
Definition NodeId : Type := bytes.
Definition NodeId_default : NodeId := [0; 0; 0; 0; 0; 0; 0; 0].
Definition NodeId_from_array (rhs : bytes) : NodeId := rhs.

#[global] Instance NodeId_eq_dec : EqDecision NodeId := _.

Definition node_id_wire : EncodeDecode NodeId := {|
  encode_to id out := let? out := encode_to (array_wire 8) id out in Ok out;
  encoded_size _ := 8%nat;
  decode_from b := let? (arr, n) := decode_from (array_wire 8) b in Ok (arr, n)
|}.

#[global] Instance node_id_laws : WireLaws node_id_wire.
Proof. apply (wire_via (array_wire 8) node_id_wire id id); solve_via. Defined.

Record SessionId := MkSessionId { session_node : NodeId }.

#[global] Instance SessionId_eq_dec : EqDecision SessionId.
Proof. solve_decision. Defined.

Definition SessionId_default : SessionId := MkSessionId NodeId_default.

Definition session_id_wire : EncodeDecode SessionId := {|
  encode_to id out := let? out := encode_to node_id_wire (session_node id) out in Ok out;
  encoded_size id := encoded_size node_id_wire (session_node id);
  decode_from b := let? (node, n) := decode_from node_id_wire b in Ok (MkSessionId node, n)
|}.

#[global] Instance session_id_laws : WireLaws session_id_wire.
Proof. apply (wire_via node_id_wire session_id_wire session_node MkSessionId); solve_via. Defined.

(** ["sess"] *)
Definition SESSION_MEMBERSHIP_HEADER_KEY : Z := fourcc 115 101 115 115.
Definition SESSION_MEMBERSHIP_SIZE : Z := 8.
Definition SESSION_MEMBERSHIP_HEADER : PayloadEntryHeader :=
  {| key := SESSION_MEMBERSHIP_HEADER_KEY; size := SESSION_MEMBERSHIP_SIZE |}.

Record SessionMembership := MkMembership { member_session_id : SessionId }.

Definition membership_wire : EncodeDecode SessionMembership := {|
  encode_to m out := let? out := encode_to session_id_wire (member_session_id m) out in Ok out;
  encoded_size m := encoded_size session_id_wire (member_session_id m);
  decode_from b := let? (id, n) := decode_from session_id_wire b in Ok (MkMembership id, n)
|}.

#[global] Instance membership_laws : WireLaws membership_wire.
Proof. apply (wire_via session_id_wire membership_wire member_session_id MkMembership); solve_via. Defined.

Definition SessionMembership_encode (m : SessionMembership) : result bytes EncodeError :=
  let? encoded := PayloadEntryHeader_encode SESSION_MEMBERSHIP_HEADER in
  let? body := encode_to_vec session_id_wire (member_session_id m) in
  Ok (encoded ++ body).

(** ** Endpoints *)

Record SocketAddrV4 := MkAddr { ip : Ipv4Addr; port : Z }.

#[global] Instance SocketAddrV4_eq_dec : EqDecision SocketAddrV4.
Proof. solve_decision. Defined.

(** [u32::from(Ipv4Addr)] and [Ipv4Addr::from(u32)]. *)
Definition u32_of_ip (a : Ipv4Addr) : Z := from_be_bytes [oct0 a; oct1 a; oct2 a; oct3 a].
Definition ip_of_u32 (z : Z) : Ipv4Addr :=
  match to_be_bytes 4 z with
  | [a; b; c; d] => MkIpv4 a b c d
  | _ => MkIpv4 0 0 0 0
  end.

Definition UNSPECIFIED : Ipv4Addr := MkIpv4 0 0 0 0.
Definition is_unspecified (a : Ipv4Addr) : bool := bool_decide (a = UNSPECIFIED).

Definition unwrap_endpoint (e : option SocketAddrV4) : SocketAddrV4 :=
  match e with Some a => a | None => MkAddr UNSPECIFIED 0 end.

(** ["mep4"] *)
Definition MEASUREMENT_ENDPOINT_V4_HEADER_KEY : Z := fourcc 109 101 112 52.
Definition MEASUREMENT_ENDPOINT_V4_SIZE : Z := 6.
Definition MEASUREMENT_ENDPOINT_V4_HEADER : PayloadEntryHeader :=
  {| key := MEASUREMENT_ENDPOINT_V4_HEADER_KEY; size := MEASUREMENT_ENDPOINT_V4_SIZE |}.

Record MeasurementEndpointV4 := MkMeasurementEndpoint { me_endpoint : option SocketAddrV4 }.

Definition measurement_endpoint_wire : EncodeDecode MeasurementEndpointV4 := {|
  encode_to e out :=
    let ep := unwrap_endpoint (me_endpoint e) in
    let? out := encode_to u32_wire (u32_of_ip (ip ep)) out in
    let? out := encode_to u16_wire (port ep) out in
    Ok out;
  encoded_size _ := 6%nat;
  decode_from b :=
    let? (ip_raw, n1) := decode_from u32_wire b in
    let? (port, n2) := decode_from u16_wire (drop n1 b) in
    Ok (MkMeasurementEndpoint
          (if negb (ip_raw =? 0) || negb (port =? 0)
           then Some (MkAddr (ip_of_u32 ip_raw) port) else None),
        (n1 + n2)%nat)
|}.

Definition MeasurementEndpointV4_encode (e : MeasurementEndpointV4) : result bytes EncodeError :=
  let? encoded := PayloadEntryHeader_encode MEASUREMENT_ENDPOINT_V4_HEADER in
  let? body := encode_to_vec measurement_endpoint_wire e in
  Ok (encoded ++ body).

(** ["aep4"] and ["aep6"] *)
Definition AUDIO_ENDPOINT_V4_HEADER_KEY : Z := fourcc 97 101 112 52.
Definition AUDIO_ENDPOINT_V4_SIZE : Z := 6.
Definition AUDIO_ENDPOINT_V4_HEADER : PayloadEntryHeader :=
  {| key := AUDIO_ENDPOINT_V4_HEADER_KEY; size := AUDIO_ENDPOINT_V4_SIZE |}.
Definition AUDIO_ENDPOINT_V6_HEADER_KEY : Z := fourcc 97 101 112 54.
Definition AUDIO_ENDPOINT_V6_SIZE : Z := 18.

Record AudioEndpointV4 := MkAudioEndpoint { ae_endpoint : option SocketAddrV4 }.

Definition audio_endpoint_wire : EncodeDecode AudioEndpointV4 := {|
  encode_to e out :=
    let endpoint := unwrap_endpoint (ae_endpoint e) in
    let? out := encode_to u32_wire (u32_of_ip (ip endpoint)) out in
    let? out := encode_to u16_wire (port endpoint) out in
    Ok out;
  encoded_size _ := Z.to_nat AUDIO_ENDPOINT_V4_SIZE;
  decode_from b :=
    let? (ip_raw, n1) := decode_from u32_wire b in
    let? (port, n2) := decode_from u16_wire (drop n1 b) in
    let ip := ip_of_u32 ip_raw in
    Ok (MkAudioEndpoint (if is_unspecified ip || (port =? 0) then None else Some (MkAddr ip port)),
        (n1 + n2)%nat)
|}.

Definition AudioEndpointV4_encode (e : AudioEndpointV4) : result bytes EncodeError :=
  let? encoded := PayloadEntryHeader_encode AUDIO_ENDPOINT_V4_HEADER in
  let? body := encode_to_vec audio_endpoint_wire e in
  Ok (encoded ++ body).

Definition endpoint_pair (e : option SocketAddrV4) : Z * Z :=
  (u32_of_ip (ip (unwrap_endpoint e)), port (unwrap_endpoint e)).

#[global] Instance measurement_endpoint_laws : WireLaws measurement_endpoint_wire.
Proof.
  apply (wire_via (pair_wire u32_wire u16_wire) measurement_endpoint_wire
    (fun e => endpoint_pair (me_endpoint e))
    (fun p => MkMeasurementEndpoint (if negb (p.1 =? 0) || negb (p.2 =? 0)
                                     then Some (MkAddr (ip_of_u32 p.1) p.2) else None))); solve_via.
Defined.

#[global] Instance audio_endpoint_laws : WireLaws audio_endpoint_wire.
Proof.
  apply (wire_via (pair_wire u32_wire u16_wire) audio_endpoint_wire
    (fun e => endpoint_pair (ae_endpoint e))
    (fun p => MkAudioEndpoint (if is_unspecified (ip_of_u32 p.1) || (p.2 =? 0)
                               then None else Some (MkAddr (ip_of_u32 p.1) p.2)))); solve_via.
Defined.

(** ** Start/stop state and the states built from it *)

Section States.
Context `{Ch : Chrono}.

(** ["stst"] *)
Definition START_STOP_STATE_HEADER_KEY : Z := fourcc 115 116 115 116.
Definition START_STOP_STATE_SIZE : Z := 17.
Definition START_STOP_STATE_HEADER : PayloadEntryHeader :=
  {| key := START_STOP_STATE_HEADER_KEY; size := START_STOP_STATE_SIZE |}.

Record StartStopState := MkStartStop {
  ss_is_playing : bool;
  ss_beats : Beats;
  ss_timestamp : Duration
}.

Definition StartStopState_default : StartStopState := MkStartStop false (MkBeats 0) Duration_zero.

Definition StartStopState_eqb (a b : StartStopState) : bool :=
  Bool.eqb (ss_is_playing a) (ss_is_playing b) &&
  (Beats_value (ss_beats a) =? Beats_value (ss_beats b)) &&
  Duration_eqb (ss_timestamp a) (ss_timestamp b).

Definition start_stop_wire : EncodeDecode StartStopState := {|
  encode_to s out :=
    let? out := encode_to bool_wire (ss_is_playing s) out in
    let? out := encode_to beats_wire (ss_beats s) out in
    let? out := encode_to i64_wire (micros (ss_timestamp s)) out in
    Ok out;
  encoded_size s :=
    (encoded_size bool_wire (ss_is_playing s) + encoded_size beats_wire (ss_beats s) + 8)%nat;
  decode_from b :=
    let? (is_playing, n1) := decode_from bool_wire b in
    let? (beats, n2) := decode_from beats_wire (drop n1 b) in
    let? (timestamp, n3) := decode_from i64_wire (drop (n1 + n2) b) in
    Ok (MkStartStop is_playing beats (Duration_microseconds timestamp), (n1 + n2 + n3)%nat)
|}.

#[global] Instance start_stop_laws : WireLaws start_stop_wire.
Proof.
  apply (wire_via (triple_wire bool_wire beats_wire i64_wire) start_stop_wire
    (fun s => (ss_is_playing s, ss_beats s, micros (ss_timestamp s)))
    (fun p => MkStartStop p.1.1 p.1.2 (Duration_microseconds p.2))); solve_via.
Defined.

Definition StartStopState_encode (s : StartStopState) : result bytes EncodeError :=
  let? encoded := PayloadEntryHeader_encode START_STOP_STATE_HEADER in
  let? body := encode_to_vec start_stop_wire s in
  Ok (encoded ++ body).

Record ClientStartStopState := MkClientStartStop {
  css_is_playing : bool;
  css_time : Duration;
  css_timestamp : Duration
}.

Definition ClientStartStopState_default : ClientStartStopState :=
  MkClientStartStop false Duration_zero Duration_zero.

Definition ClientStartStopState_eqb (a b : ClientStartStopState) : bool :=
  Bool.eqb (css_is_playing a) (css_is_playing b) && Duration_eqb (css_time a) (css_time b) &&
  Duration_eqb (css_timestamp a) (css_timestamp b).

(** [state::SessionState]. *)
Record SessionState := MkSessionState {
  session_timeline : Timeline;
  session_start_stop : StartStopState;
  ghost_x_form : GhostXForm
}.

Definition SessionState_default : SessionState :=
  MkSessionState Timeline_default StartStopState_default GhostXForm_default.

Record ClientState := MkClientState {
  client_timeline : Timeline;
  timeline_session_id : SessionId;
  client_start_stop : ClientStartStopState
}.

Definition ClientState_default : ClientState :=
  MkClientState Timeline_default SessionId_default ClientStartStopState_default.

Definition ClientState_eqb (a b : ClientState) : bool :=
  Timeline_eqb (client_timeline a) (client_timeline b) &&
  bool_decide (timeline_session_id a = timeline_session_id b) &&
  ClientStartStopState_eqb (client_start_stop a) (client_start_stop b).

(** ** Nodes and peers *)

Record NodeState := MkNodeState {
  node_id : NodeId;
  node_session_id : SessionId;
  node_timeline : Timeline;
  node_start_stop : StartStopState
}.

Definition ident (n : NodeState) : NodeId := node_id n.

(** [NodeState::new]; the random identity is an argument. *)
Definition NodeState_new (random_id : NodeId) (session_id : SessionId) : NodeState :=
  MkNodeState random_id session_id Timeline_default StartStopState_default.

Definition NodeState_eqb (a b : NodeState) : bool :=
  bool_decide (node_id a = node_id b) && bool_decide (node_session_id a = node_session_id b) &&
  Timeline_eqb (node_timeline a) (node_timeline b) &&
  StartStopState_eqb (node_start_stop a) (node_start_stop b).

(** [discovery::peers::PeerState]. *)
Record PeerState := MkPeerState {
  peer_node_state : NodeState;
  measurement_endpoint : option SocketAddrV4;
  audio_endpoint : option SocketAddrV4
}.

End States.

(** ** What endpoints lose on the wire *)

Lemma ip_of_u32_of_ip a : Ipv4Addr_ok a -> ip_of_u32 (u32_of_ip a) = a.
Proof.
  intros (H0 & H1 & H2 & H3). unfold ip_of_u32, u32_of_ip.
  change 4%nat with (length [oct0 a; oct1 a; oct2 a; oct3 a]).
  rewrite to_from_be_bytes by (repeat constructor; assumption || apply H0 || apply H1 || apply H2 || apply H3).
  now destruct a.
Qed.

Lemma u32_of_ip_range a : Ipv4Addr_ok a -> in_u32 (u32_of_ip a).
Proof.
  intros (H0 & H1 & H2 & H3). unfold u32_of_ip.
  pose proof (from_be_bytes_range [oct0 a; oct1 a; oct2 a; oct3 a]
    ltac:(repeat constructor; apply H0 || apply H1 || apply H2 || apply H3)) as R.
  change (256 ^ Z.of_nat (length [oct0 a; oct1 a; oct2 a; oct3 a])) with 4294967296 in R. zlia.
Qed.

Lemma u32_of_ip_0 a : Ipv4Addr_ok a -> u32_of_ip a = 0 <-> a = UNSPECIFIED.
Proof.
  intros H. split; [|intros ->; reflexivity]. intros E.
  rewrite <- (ip_of_u32_of_ip a H), E. reflexivity.
Qed.

Definition SocketAddrV4_ok (a : SocketAddrV4) : Prop := Ipv4Addr_ok (ip a) /\ in_u16 (port a).

Lemma endpoint_pair_ok e :
  (forall a, e = Some a -> SocketAddrV4_ok a) -> wire_ok (pair_wire u32_wire u16_wire) (endpoint_pair e).
Proof.
  intros H. unfold endpoint_pair. destruct e as [a|]; cbn.
  - destruct (H a eq_refl) as [H1 H2]. split; [now apply u32_of_ip_range|assumption].
  - split; zlia.
Qed.

(** A measurement endpoint is read back unchanged, but for the address
    0.0.0.0:0, which stands for none. *)
Lemma measurement_endpoint_norm e :
  (forall a, me_endpoint e = Some a -> SocketAddrV4_ok a) ->
  wire_norm measurement_endpoint_wire e =
  (if bool_decide (me_endpoint e = Some (MkAddr UNSPECIFIED 0)) then MkMeasurementEndpoint None else e).
Proof.
  intros H. destruct e as [[a|]]; [|reflexivity]. destruct (H a eq_refl) as [H1 H2].
  change (MkMeasurementEndpoint
    (if negb (u32_of_ip (ip a) =? 0) || negb (port a =? 0)
     then Some (MkAddr (ip_of_u32 (u32_of_ip (ip a))) (port a)) else None) =
    if bool_decide (Some a = Some (MkAddr UNSPECIFIED 0)) then MkMeasurementEndpoint None
    else MkMeasurementEndpoint (Some a)). rewrite ip_of_u32_of_ip by assumption.
  case_bool_decide as E.
  - injection E as ->. reflexivity.
  - destruct (Z.eqb_spec (u32_of_ip (ip a)) 0) as [E1|], (Z.eqb_spec (port a) 0) as [E2|];
      cbn; try (now destruct a).
    exfalso. apply E. apply u32_of_ip_0 in E1; [|assumption]. destruct a; cbn in *; congruence.
Qed.
