(* ===== verification/Payload.v ===== *)
(** Payloads: src/src/link/payload.rs, and [NodeState::from_payload] of
    src/src/link/node.rs.  A payload is a run of entries, each a header (key
    and size) and that many bytes; [payload_decode] is the loop that reads one
    received from the network. *)

From stdpp Require Import base list numbers strings.
From Stdlib Require Import ZArith Lia SpecFloat.
From S2P Require Import Prelude Chrono F64 Encoding Beats Tempo Timeline GhostXForm Entries.

(** ["__ht"], ["__gt"] and ["_pgt"] *)
Definition HOST_TIME_HEADER_KEY : Z := fourcc 95 95 104 116.
Definition HOST_TIME_SIZE : Z := 8.
Definition HOST_TIME_HEADER : PayloadEntryHeader :=
  {| key := HOST_TIME_HEADER_KEY; size := HOST_TIME_SIZE |}.
Definition GHOST_TIME_HEADER_KEY : Z := fourcc 95 95 103 116.
Definition GHOST_TIME_SIZE : Z := 8.
Definition GHOST_TIME_HEADER : PayloadEntryHeader :=
  {| key := GHOST_TIME_HEADER_KEY; size := GHOST_TIME_SIZE |}.
Definition PREV_GHOST_TIME_HEADER_KEY : Z := fourcc 95 112 103 116.
Definition PREV_GHOST_TIME_SIZE : Z := 8.
Definition PREV_GHOST_TIME_HEADER : PayloadEntryHeader :=
  {| key := PREV_GHOST_TIME_HEADER_KEY; size := PREV_GHOST_TIME_SIZE |}.

Section Payload.
Context `{Ch : Chrono}.

Record HostTime := MkHostTime { ht_time : Duration }.
Record GhostTime := MkGhostTime { gt_time : Duration }.
Record PrevGhostTime := MkPrevGhostTime { pgt_time : Duration }.

Definition wire_micros (time : Duration) : result Z Error :=
  ok_or (num_microseconds time) (Protocol "time out of range").

Definition HostTime_encode (t : HostTime) : result bytes Error :=
  let? encoded := lift_encode (PayloadEntryHeader_encode HOST_TIME_HEADER) in
  let? us := wire_micros (ht_time t) in
  let? body := lift_encode (encode_to_vec i64_wire us) in
  Ok (encoded ++ body).

Definition HostTime_decode (b : bytes) : result (HostTime * nat) DecodeError :=
  let? (time, n) := decode_from i64_wire b in Ok (MkHostTime (Duration_microseconds time), n).

Definition GhostTime_encode (t : GhostTime) : result bytes Error :=
  let? encoded := lift_encode (PayloadEntryHeader_encode GHOST_TIME_HEADER) in
  let? us := wire_micros (gt_time t) in
  let? body := lift_encode (encode_to_vec i64_wire us) in
  Ok (encoded ++ body).

Definition GhostTime_decode (b : bytes) : result (GhostTime * nat) DecodeError :=
  let? (time, n) := decode_from i64_wire b in Ok (MkGhostTime (Duration_microseconds time), n).

Definition PrevGhostTime_encode (t : PrevGhostTime) : result bytes Error :=
  let? encoded := lift_encode (PayloadEntryHeader_encode PREV_GHOST_TIME_HEADER) in
  let? us := wire_micros (pgt_time t) in
  let? body := lift_encode (encode_to_vec i64_wire us) in
  Ok (encoded ++ body).

Definition PrevGhostTime_decode (b : bytes) : result (PrevGhostTime * nat) DecodeError :=
  let? (time, n) := decode_from i64_wire b in Ok (MkPrevGhostTime (Duration_microseconds time), n).

Inductive PayloadEntry :=
| EHostTime (t : HostTime)
| EGhostTime (t : GhostTime)
| EPrevGhostTime (t : PrevGhostTime)
| ETimeline (tl : Timeline)
| ESessionMembership (m : SessionMembership)
| EStartStopState (s : StartStopState)
| EMeasurementEndpointV4 (e : MeasurementEndpointV4)
| EAudioEndpointV4 (e : AudioEndpointV4).

Definition entry_size (e : PayloadEntry) : Z :=
  match e with
  | EHostTime _ => HOST_TIME_SIZE
  | EGhostTime _ => GHOST_TIME_SIZE
  | EPrevGhostTime _ => PREV_GHOST_TIME_SIZE
  | ETimeline _ => TIMELINE_SIZE
  | ESessionMembership _ => SESSION_MEMBERSHIP_SIZE
  | EStartStopState _ => START_STOP_STATE_SIZE
  | EMeasurementEndpointV4 _ => MEASUREMENT_ENDPOINT_V4_SIZE
  | EAudioEndpointV4 _ => AUDIO_ENDPOINT_V4_SIZE
  end.

Definition entry_encode (e : PayloadEntry) : result bytes Error :=
  match e with
  | EHostTime t => HostTime_encode t
  | EGhostTime t => GhostTime_encode t
  | EPrevGhostTime t => PrevGhostTime_encode t
  | ETimeline tl => lift_encode (Timeline_encode tl)
  | ESessionMembership m => lift_encode (SessionMembership_encode m)
  | EStartStopState s => lift_encode (StartStopState_encode s)
  | EMeasurementEndpointV4 e => lift_encode (MeasurementEndpointV4_encode e)
  | EAudioEndpointV4 e => lift_encode (AudioEndpointV4_encode e)
  end.

(** [Payload]: its entries, in order. *)
Definition Payload : Type := list PayloadEntry.
Definition Payload_default : Payload := [].

Definition wrap_u32 (z : Z) : Z := z mod 2 ^ 32.

(** [u32] additions. *)
Definition payload_size (p : Payload) : Z :=
  fold_left (fun s e => wrap_u32 (s + wrap_u32 (Z.of_nat PAYLOAD_ENTRY_HEADER_SIZE + entry_size e))) p 0.

Fixpoint payload_encode_from (encoded : bytes) (p : Payload) : result bytes Error :=
  match p with
  | [] => Ok encoded
  | e :: p =>
      let? encoded_entry := entry_encode e in
      payload_encode_from (encoded ++ encoded_entry) p
  end.

Definition payload_encode (p : Payload) : result bytes Error := payload_encode_from [] p.

Definition payload_of_node_state (value : NodeState) : Payload :=
  [ ETimeline (node_timeline value);
    ESessionMembership (MkMembership (node_session_id value));
    EStartStopState (node_start_stop value) ].

Definition payload_of_peer_state (value : PeerState) : Payload :=
  payload_of_node_state (peer_node_state value) ++
  (match measurement_endpoint value with
   | Some _ => [EMeasurementEndpointV4 (MkMeasurementEndpoint (measurement_endpoint value))]
   | None => []
   end) ++
  (match audio_endpoint value with
   | Some _ => [EAudioEndpointV4 (MkAudioEndpoint (audio_endpoint value))]
   | None => []
   end).

(** The [sized] closure of [decode]. *)
Definition sized (h : PayloadEntryHeader) (expected : Z) : result unit Error :=
  if size h =? expected then Ok tt else Err (Protocol "payload entry size mismatch").

(** The [match header.key]. *)
Definition decode_entry (h : PayloadEntryHeader) (body : bytes) : result (option PayloadEntry) Error :=
  if key h =? HOST_TIME_HEADER_KEY then
    let? _ := sized h HOST_TIME_SIZE in
    let? (t, _) := lift_decode (HostTime_decode body) in Ok (Some (EHostTime t))
  else if key h =? TIMELINE_HEADER_KEY then
    let? _ := sized h TIMELINE_SIZE in
    let? (t, _) := lift_decode (decode_from_slice timeline_wire body) in Ok (Some (ETimeline t))
  else if key h =? SESSION_MEMBERSHIP_HEADER_KEY then
    let? _ := sized h SESSION_MEMBERSHIP_SIZE in
    let? (t, _) := lift_decode (decode_from_slice membership_wire body) in
    Ok (Some (ESessionMembership t))
  else if key h =? START_STOP_STATE_HEADER_KEY then
    let? _ := sized h START_STOP_STATE_SIZE in
    let? (t, _) := lift_decode (decode_from_slice start_stop_wire body) in
    Ok (Some (EStartStopState t))
  else if key h =? MEASUREMENT_ENDPOINT_V4_HEADER_KEY then
    let? _ := sized h MEASUREMENT_ENDPOINT_V4_SIZE in
    let? (t, _) := lift_decode (decode_from_slice measurement_endpoint_wire body) in
    Ok (Some (EMeasurementEndpointV4 t))
  else if key h =? AUDIO_ENDPOINT_V4_HEADER_KEY then
    let? _ := sized h AUDIO_ENDPOINT_V4_SIZE in
    let? (t, _) := lift_decode (decode_from_slice audio_endpoint_wire body) in
    Ok (Some (EAudioEndpointV4 t))
  else if key h =? AUDIO_ENDPOINT_V6_HEADER_KEY then Ok None
  else if key h =? GHOST_TIME_HEADER_KEY then
    let? _ := sized h GHOST_TIME_SIZE in
    let? (t, _) := lift_decode (GhostTime_decode body) in Ok (Some (EGhostTime t))
  else if key h =? PREV_GHOST_TIME_HEADER_KEY then
    let? _ := sized h PREV_GHOST_TIME_SIZE in
    let? (t, _) := lift_decode (PrevGhostTime_decode body) in Ok (Some (EPrevGhostTime t))
  else Ok None.

(** One pass of the loop on input of at least a header: the entries read so
    far and the input left, or the error that ends it. *)
Definition decode_pass (entries : Payload) (data : bytes) : result (Payload * bytes) Error :=
  let? (header, _) :=
    lift_decode (decode_from_slice header_wire (take PAYLOAD_ENTRY_HEADER_SIZE data)) in
  let end_ := (PAYLOAD_ENTRY_HEADER_SIZE + Z.to_nat (size header))%nat in
  if (length data <? end_)%nat then Err (Protocol "truncated payload entry")
  else
    let body := drop PAYLOAD_ENTRY_HEADER_SIZE (take end_ data) in
    let? entry := decode_entry header body in
    Ok (match entry with Some e => entries ++ [e] | None => entries end, drop end_ data).

(** The loop: the entries pushed so far and how it ended; [None] when the
    fuel runs out. *)
Fixpoint decode_loop (fuel : nat) (entries : Payload) (data : bytes)
  : option (Payload * result unit Error) :=
  match fuel with
  | O => None
  | S fuel =>
      if (PAYLOAD_ENTRY_HEADER_SIZE <=? length data)%nat then
        match decode_pass entries data with
        | Ok (entries, data) => decode_loop fuel entries data
        | Err e => Some (entries, Err e)
        end
      else Some (entries, Ok tt)
  end.

(** [payload::decode]: every pass consumes at least a header, so one pass per
    byte and one more is enough fuel. *)
Definition payload_decode (entries : Payload) (data : bytes) : option (Payload * result unit Error) :=
  decode_loop (S (length data)) entries data.

(** [discovery::messages::parse_payload]. *)
Definition parse_payload (data : bytes) : option (result Payload Error) :=
  let! (payload, r) := payload_decode Payload_default data in
  Some (let? _ := r in Ok payload).

Definition from_payload_entry (node_state : NodeState) (e : PayloadEntry) : NodeState :=
  match e with
  | ETimeline tl =>
      MkNodeState (node_id node_state) (node_session_id node_state) tl (node_start_stop node_state)
  | ESessionMembership sm =>
      MkNodeState (node_id node_state) (member_session_id sm) (node_timeline node_state)
                  (node_start_stop node_state)
  | EStartStopState st =>
      MkNodeState (node_id node_state) (node_session_id node_state) (node_timeline node_state) st
  | _ => node_state
  end.

Definition from_payload (id : NodeId) (p : Payload) : NodeState :=
  fold_left from_payload_entry p
    (MkNodeState id SessionId_default Timeline_default StartStopState_default).

End Payload.

(** ** Encoding and decoding one entry *)

Section PayloadProperties.
Context `{Laws : ChronoLaws}.

(** What an entry must satisfy to be encoded: the wide fields fit. *)
Definition entry_ok (e : PayloadEntry) : Prop :=
  match e with
  | EHostTime t => is_Some (num_microseconds (ht_time t))
  | EGhostTime t => is_Some (num_microseconds (gt_time t))
  | EPrevGhostTime t => is_Some (num_microseconds (pgt_time t))
  | ETimeline tl => wire_ok timeline_wire tl
  | ESessionMembership m => wire_ok membership_wire m
  | EStartStopState s => wire_ok start_stop_wire s
  | EMeasurementEndpointV4 e => wire_ok measurement_endpoint_wire e
  | EAudioEndpointV4 e => wire_ok audio_endpoint_wire e
  end.

(** The time read back: whole microseconds. *)
Definition time_norm (d : Duration) : Duration := Duration_microseconds (micros d).

Definition entry_norm (e : PayloadEntry) : PayloadEntry :=
  match e with
  | EHostTime t => EHostTime (MkHostTime (time_norm (ht_time t)))
  | EGhostTime t => EGhostTime (MkGhostTime (time_norm (gt_time t)))
  | EPrevGhostTime t => EPrevGhostTime (MkPrevGhostTime (time_norm (pgt_time t)))
  | ETimeline tl => ETimeline (wire_norm timeline_wire tl)
  | ESessionMembership m => ESessionMembership (wire_norm membership_wire m)
  | EStartStopState s => EStartStopState (wire_norm start_stop_wire s)
  | EMeasurementEndpointV4 e => EMeasurementEndpointV4 (wire_norm measurement_endpoint_wire e)
  | EAudioEndpointV4 e => EAudioEndpointV4 (wire_norm audio_endpoint_wire e)
  end.

Definition entry_header (e : PayloadEntry) : PayloadEntryHeader :=
  match e with
  | EHostTime _ => HOST_TIME_HEADER
  | EGhostTime _ => GHOST_TIME_HEADER
  | EPrevGhostTime _ => PREV_GHOST_TIME_HEADER
  | ETimeline _ => TIMELINE_HEADER
  | ESessionMembership _ => SESSION_MEMBERSHIP_HEADER
  | EStartStopState _ => START_STOP_STATE_HEADER
  | EMeasurementEndpointV4 _ => MEASUREMENT_ENDPOINT_V4_HEADER
  | EAudioEndpointV4 _ => AUDIO_ENDPOINT_V4_HEADER
  end.

Definition entry_body (e : PayloadEntry) : bytes :=
  match e with
  | EHostTime t => wire_bytes i64_wire (micros (ht_time t))
  | EGhostTime t => wire_bytes i64_wire (micros (gt_time t))
  | EPrevGhostTime t => wire_bytes i64_wire (micros (pgt_time t))
  | ETimeline tl => wire_bytes timeline_wire tl
  | ESessionMembership m => wire_bytes membership_wire m
  | EStartStopState s => wire_bytes start_stop_wire s
  | EMeasurementEndpointV4 e => wire_bytes measurement_endpoint_wire e
  | EAudioEndpointV4 e => wire_bytes audio_endpoint_wire e
  end.

Definition entry_bytes (e : PayloadEntry) : bytes := wire_bytes header_wire (entry_header e) ++ entry_body e.

Lemma entry_header_ok e : wire_ok header_wire (entry_header e).
Proof. destruct e; vm_compute; repeat split; discriminate. Qed.

Lemma entry_header_size e : size (entry_header e) = entry_size e.
Proof. now destruct e. Qed.

Lemma header_bytes_length h : wire_ok header_wire h -> length (wire_bytes header_wire h) = 8%nat.
Proof. apply (wire_length header_wire). Qed.

Lemma wire_micros_ok d : is_Some (num_microseconds d) -> wire_micros d = Ok (micros d) /\ in_i64 (micros d).
Proof.
  intros [us E]. split; [|apply micros_range]. unfold wire_micros, micros. now rewrite E.
Qed.

(** Two pieces of the entry encoders. *)
Lemma encode_header e : PayloadEntryHeader_encode (entry_header e) = Ok (wire_bytes header_wire (entry_header e)).
Proof. unfold PayloadEntryHeader_encode, encode_to_vec. now rewrite (wire_encode header_wire) by apply entry_header_ok. Qed.

Lemma encode_body {T} (W : EncodeDecode T) `{WireLaws T W} v :
  wire_ok W v -> encode_to_vec W v = Ok (wire_bytes W v).
Proof. intros Hv. unfold encode_to_vec. now rewrite (wire_encode W) by assumption. Qed.

Lemma entry_encode_eq e : entry_ok e -> entry_encode e = Ok (entry_bytes e).
Proof.
  intros He. pose proof (encode_header e) as Hh. unfold entry_bytes.
  destruct e; cbn [entry_header entry_encode entry_body entry_ok] in *;
    unfold HostTime_encode, GhostTime_encode, PrevGhostTime_encode, Timeline_encode,
      SessionMembership_encode, StartStopState_encode, MeasurementEndpointV4_encode,
      AudioEndpointV4_encode; rewrite Hh; cbn [lift_encode map_err];
    try (destruct (wire_micros_ok _ He) as [-> R]; now rewrite (encode_body i64_wire) by exact R).
  - now rewrite (encode_body timeline_wire) by assumption.
  - now rewrite (encode_body session_id_wire) by exact He.
  - now rewrite (encode_body start_stop_wire) by assumption.
  - now rewrite (encode_body measurement_endpoint_wire) by assumption.
  - now rewrite (encode_body audio_endpoint_wire) by assumption.
Qed.

Lemma entry_body_length e : entry_ok e -> Z.of_nat (length (entry_body e)) = entry_size e.
Proof.
  intros He. destruct e; cbn [entry_body entry_ok entry_size] in *.
  1-3: now rewrite (wire_length i64_wire) by apply micros_range.
  - now rewrite (wire_length timeline_wire) by assumption.
  - now rewrite (wire_length membership_wire) by assumption.
  - now rewrite (wire_length start_stop_wire) by assumption.
  - now rewrite (wire_length measurement_endpoint_wire) by assumption.
  - now rewrite (wire_length audio_endpoint_wire) by assumption.
Qed.

Lemma decode_body {T} (W : EncodeDecode T) `{WireLaws T W} v :
  wire_ok W v -> decode_from W (wire_bytes W v) = Ok (wire_norm W v, encoded_size W v).
Proof. intros Hv. rewrite <- (app_nil_r (wire_bytes W v)). now apply (wire_decode W). Qed.

Lemma decode_entry_eq e : entry_ok e -> decode_entry (entry_header e) (entry_body e) = Ok (Some (entry_norm e)).
Proof.
  intros He. destruct e; cbn [entry_body entry_ok entry_header entry_norm] in *;
    unfold decode_entry; cbn [key TIMELINE_HEADER HOST_TIME_HEADER GHOST_TIME_HEADER PREV_GHOST_TIME_HEADER
      SESSION_MEMBERSHIP_HEADER START_STOP_STATE_HEADER MEASUREMENT_ENDPOINT_V4_HEADER
      AUDIO_ENDPOINT_V4_HEADER];
    repeat match goal with |- context [?a =? ?b] =>
      let v := eval vm_compute in (a =? b) in change (a =? b) with v end; cbv iota;
    cbn [sized size TIMELINE_HEADER]; cbv iota;
    unfold HostTime_decode, GhostTime_decode, PrevGhostTime_decode, decode_from_slice.
  1-3: rewrite (decode_body i64_wire) by apply micros_range; reflexivity.
  - now rewrite (decode_body timeline_wire) by assumption.
  - now rewrite (decode_body membership_wire) by assumption.
  - now rewrite (decode_body start_stop_wire) by assumption.
  - now rewrite (decode_body measurement_endpoint_wire) by assumption.
  - now rewrite (decode_body audio_endpoint_wire) by assumption.
Qed.

(** ** The loop *)

(** A pass over a well-formed header followed by its body. *)
Lemma decode_pass_entry entries h body rest :
  wire_ok header_wire h -> Z.of_nat (length body) = size h ->
  decode_pass entries (wire_bytes header_wire h ++ body ++ rest) =
  let? entry := decode_entry h body in
  Ok (match entry with Some e => entries ++ [e] | None => entries end, rest).
Proof.
  intros Hh Hb. unfold decode_pass, decode_from_slice, PAYLOAD_ENTRY_HEADER_SIZE.
  pose proof (header_bytes_length h Hh) as L.
  rewrite (take_app_length' _ _ 8) by (symmetry; exact L).
  rewrite (decode_body header_wire) by assumption.
  assert (wire_norm header_wire h = h) as -> by now destruct h.
  cbn [lift_decode map_err].
  replace (8 + Z.to_nat (size h))%nat with (length (wire_bytes header_wire h ++ body))
    by (rewrite length_app, L; lia).
  rewrite app_assoc. rewrite take_app_length, drop_app_length.
  destruct (Nat.ltb_spec (length ((wire_bytes header_wire h ++ body) ++ rest))
    (length (wire_bytes header_wire h ++ body))) as [C|_]; [rewrite length_app in C; lia|].
  now rewrite drop_app_length' by (symmetry; exact L).
Qed.

(** Each pass consumes at least a header. *)
Lemma decode_pass_progress entries data entries' data' :
  (8 <= length data)%nat -> decode_pass entries data = Ok (entries', data') ->
  (length data' + 8 <= length data)%nat.
Proof.
  intros Hl. unfold decode_pass. destruct (lift_decode _) as [[h n]|]; [|discriminate].
  destruct (Nat.ltb_spec (length data) (PAYLOAD_ENTRY_HEADER_SIZE + Z.to_nat (size h))) as [|L];
    [discriminate|].
  destruct (decode_entry h _) as [o|]; [|discriminate]. intros [=]; subst.
  rewrite length_drop. unfold PAYLOAD_ENTRY_HEADER_SIZE in *. lia.
Qed.

Lemma decode_loop_total fuel entries data :
  (length data < fuel)%nat -> exists r, decode_loop fuel entries data = Some r.
Proof.
  revert entries data. induction fuel as [|fuel IH]; intros entries data Hf; [lia|].
  cbn [decode_loop]. unfold PAYLOAD_ENTRY_HEADER_SIZE. destruct (Nat.leb_spec 8 (length data)); [|eauto].
  destruct (decode_pass entries data) as [[es d]|e] eqn:E; [|eauto].
  apply IH. apply decode_pass_progress in E; lia.
Qed.

(** More fuel changes nothing. *)
Lemma decode_loop_fuel fuel fuel' entries data :
  (length data < fuel)%nat -> (length data < fuel')%nat ->
  decode_loop fuel entries data = decode_loop fuel' entries data.
Proof.
  revert fuel' entries data. induction fuel as [|fuel IH]; intros fuel' entries data H1 H2; [lia|].
  destruct fuel' as [|fuel']; [lia|]. cbn [decode_loop]. unfold PAYLOAD_ENTRY_HEADER_SIZE.
  destruct (Nat.leb_spec 8 (length data)); [|reflexivity].
  destruct (decode_pass entries data) as [[es d]|e] eqn:E; [|reflexivity].
  apply decode_pass_progress in E; [|assumption]. apply IH; lia.
Qed.

Lemma decode_loop_S fuel entries data :
  decode_loop (S fuel) entries data =
  if (8 <=? length data)%nat then
    match decode_pass entries data with
    | Ok (entries, data) => decode_loop fuel entries data
    | Err e => Some (entries, Err e)
    end
  else Some (entries, Ok tt).
Proof. reflexivity. Qed.

(** One pass of [payload_decode]. *)
Lemma payload_decode_step entries data :
  (8 <= length data)%nat ->
  payload_decode entries data =
  match decode_pass entries data with
  | Ok (entries, data) => payload_decode entries data
  | Err e => Some (entries, Err e)
  end.
Proof.
  intros Hl. unfold payload_decode. rewrite (decode_loop_S (length data)).
  destruct (Nat.leb_spec 8 (length data)); [|lia].
  destruct (decode_pass entries data) as [[es d]|e] eqn:E; [|reflexivity].
  apply decode_pass_progress in E; [|assumption]. apply decode_loop_fuel; lia.
Qed.

Lemma payload_decode_end entries data :
  (length data < 8)%nat -> payload_decode entries data = Some (entries, Ok tt).
Proof.
  intros Hl. unfold payload_decode. cbn [decode_loop]. unfold PAYLOAD_ENTRY_HEADER_SIZE.
  destruct (Nat.leb_spec 8 (length data)); [lia|reflexivity].
Qed.

Lemma payload_decode_entry entries e rest :
  entry_ok e ->
  payload_decode entries (entry_bytes e ++ rest) = payload_decode (entries ++ [entry_norm e]) rest.
Proof.
  intros He. pose proof (header_bytes_length _ (entry_header_ok e)) as L.
  rewrite payload_decode_step by (unfold entry_bytes; rewrite !length_app; lia).
  unfold entry_bytes. rewrite <- app_assoc, decode_pass_entry, decode_entry_eq;
    [reflexivity|assumption|apply entry_header_ok|].
  now rewrite entry_body_length, entry_header_size.
Qed.

Lemma payload_decode_entries entries p rest :
  Forall entry_ok p ->
  payload_decode entries (concat (map entry_bytes p) ++ rest) =
  payload_decode (entries ++ map entry_norm p) rest.
Proof.
  intros HF. revert entries. induction HF as [|e p He Hp IH]; intros entries; cbn [map concat].
  - now rewrite app_nil_r.
  - rewrite <- app_assoc, payload_decode_entry, IH, <- app_assoc by assumption. reflexivity.
Qed.

Lemma payload_encode_from_eq encoded p :
  Forall entry_ok p -> payload_encode_from encoded p = Ok (encoded ++ concat (map entry_bytes p)).
Proof.
  intros HF. revert encoded. induction HF as [|e p He Hp IH]; intros encoded; cbn [payload_encode_from map concat].
  - now rewrite app_nil_r.
  - rewrite entry_encode_eq, IH, <- app_assoc by assumption. reflexivity.
Qed.

Lemma payload_encode_eq p : Forall entry_ok p -> payload_encode p = Ok (concat (map entry_bytes p)).
Proof. apply (payload_encode_from_eq []). Qed.

Lemma payload_size_from p s :
  0 <= s -> s + Z.of_nat (length (concat (map entry_bytes p))) <= u32_MAX -> Forall entry_ok p ->
  fold_left (fun s e => wrap_u32 (s + wrap_u32 (Z.of_nat PAYLOAD_ENTRY_HEADER_SIZE + entry_size e))) p s
  = s + Z.of_nat (length (concat (map entry_bytes p))).
Proof.
  intros Hs Hb HF. revert s Hs Hb. induction HF as [|e p He Hp IH]; intros s Hs Hb;
    cbn [fold_left map concat] in *; [simpl; lia|].
  rewrite length_app in *. pose proof (entry_body_length e He) as B.
  assert (length (entry_bytes e) = (8 + length (entry_body e))%nat) as L.
  { unfold entry_bytes. rewrite length_app, header_bytes_length by apply entry_header_ok. reflexivity. }
  assert (0 <= entry_size e <= 100) by (destruct e; cbn; unfold HOST_TIME_SIZE, GHOST_TIME_SIZE,
    PREV_GHOST_TIME_SIZE, TIMELINE_SIZE, SESSION_MEMBERSHIP_SIZE, START_STOP_STATE_SIZE,
    MEASUREMENT_ENDPOINT_V4_SIZE, AUDIO_ENDPOINT_V4_SIZE; lia).
  unfold wrap_u32, PAYLOAD_ENTRY_HEADER_SIZE in *. rewrite (Z.mod_small (Z.of_nat 8 + _)) by lia.
  rewrite Z.mod_small by zlia. rewrite IH by lia. lia.
Qed.

Lemma payload_size_eq p :
  Forall entry_ok p -> Z.of_nat (length (concat (map entry_bytes p))) <= u32_MAX ->
  payload_size p = Z.of_nat (length (concat (map entry_bytes p))).
Proof. intros Hp Hb. unfold payload_size. rewrite payload_size_from by (assumption || lia). lia. Qed.

(** ** Theorems *)

(** C21 A payload whose entries fit the wire is encoded in exactly
    [payload_size] bytes and read back entry by entry, each normalised to the
    wire's precision, up to seven bytes of trailing garbage being ignored. *)
Theorem payload_round_trip p trailing :
  Forall entry_ok p -> (length trailing < 8)%nat ->
  Z.of_nat (length (concat (map entry_bytes p))) <= u32_MAX ->
  exists b, payload_encode p = Ok b /\ Z.of_nat (length b) = payload_size p /\
    parse_payload (b ++ trailing) = Some (Ok (map entry_norm p)).
Proof.
  intros Hp Ht Hs. exists (concat (map entry_bytes p)). rewrite payload_encode_eq by assumption.
  rewrite payload_size_eq by assumption. split; [reflexivity|]. split; [reflexivity|].
  unfold parse_payload. rewrite payload_decode_entries, payload_decode_end by assumption. reflexivity.
Qed.

(** Decoding a received payload always ends, whatever the bytes: with the
    entries read, or with an error. *)
Theorem payload_decode_terminates entries data : exists r, payload_decode entries data = Some r.
Proof. apply decode_loop_total. lia. Qed.

(** An entry of an unknown key, and an [aep6] entry, is skipped by its
    declared size: what follows is decoded as if it were not there. *)
Theorem payload_decode_skips entries h body rest :
  in_u32 (key h) -> in_u32 (size h) -> Z.of_nat (length body) = size h ->
  ~ (key h ∈ map (fun e => key e) [HOST_TIME_HEADER; GHOST_TIME_HEADER; PREV_GHOST_TIME_HEADER;
       TIMELINE_HEADER; SESSION_MEMBERSHIP_HEADER; START_STOP_STATE_HEADER;
       MEASUREMENT_ENDPOINT_V4_HEADER; AUDIO_ENDPOINT_V4_HEADER]) ->
  payload_decode entries (wire_bytes header_wire h ++ body ++ rest) = payload_decode entries rest.
Proof.
  intros Hk Hz Hb Hn. assert (wire_ok header_wire h) as Hh by (split; assumption).
  pose proof (header_bytes_length h Hh).
  rewrite payload_decode_step by (rewrite length_app; lia).
  rewrite decode_pass_entry by assumption.
  assert (decode_entry h body = Ok None) as ->; [|reflexivity]. unfold decode_entry.
  cbn [map key TIMELINE_HEADER HOST_TIME_HEADER GHOST_TIME_HEADER PREV_GHOST_TIME_HEADER
      SESSION_MEMBERSHIP_HEADER START_STOP_STATE_HEADER MEASUREMENT_ENDPOINT_V4_HEADER
      AUDIO_ENDPOINT_V4_HEADER] in Hn.
  repeat match goal with |- context [key h =? ?k] =>
    destruct (Z.eqb_spec (key h) k) as [Ek|];
      [try (exfalso; apply Hn; rewrite Ek, !elem_of_cons; tauto)|] end;
    reflexivity.
Qed.

(** A header that declares more bytes than the payload has left ends the
    decoding with an error, and so does a known entry of the wrong size. *)
Theorem payload_decode_rejects entries h body :
  in_u32 (key h) -> in_u32 (size h) ->
  (Z.of_nat (length body) < size h ->
   payload_decode entries (wire_bytes header_wire h ++ body) =
   Some (entries, Err (Protocol "truncated payload entry"))) /\
  (forall e, key h = key (entry_header e) -> size h <> entry_size e ->
   Z.of_nat (length body) = size h -> forall rest,
   payload_decode entries (wire_bytes header_wire h ++ body ++ rest) =
   Some (entries, Err (Protocol "payload entry size mismatch"))).
Proof.
  intros Hk Hz. assert (wire_ok header_wire h) as Hh by (split; assumption).
  pose proof (header_bytes_length h Hh) as L. split.
  - intros Hb. rewrite payload_decode_step by (rewrite length_app; lia).
    unfold decode_pass, decode_from_slice, PAYLOAD_ENTRY_HEADER_SIZE.
    rewrite (take_app_length' _ _ 8) by (symmetry; exact L).
    rewrite (decode_body header_wire) by assumption.
    assert (wire_norm header_wire h = h) as -> by now destruct h.
    cbn [lift_decode map_err]. rewrite length_app, L.
    destruct (Nat.ltb_spec (8 + length body) (8 + Z.to_nat (size h))); [reflexivity|lia].
  - intros e Ek Es Hb rest. rewrite payload_decode_step by (rewrite length_app; lia).
    rewrite decode_pass_entry by assumption.
    assert (decode_entry h body = Err (Protocol "payload entry size mismatch")) as ->; [|reflexivity].
    unfold decode_entry, sized. rewrite Ek. apply Z.eqb_neq in Es.
    destruct e; cbn [entry_size] in Es; rewrite Es; reflexivity.
Qed.

End PayloadProperties.
