(* ===== verification/Messages.v ===== *)
(** Datagrams: the discovery messages of src/src/discovery/messages.rs and the
    ping and pong messages of src/src/link/pingresponder.rs. *)

From stdpp Require Import base list numbers strings.
From Stdlib Require Import ZArith Lia SpecFloat.
From S2P Require Import Prelude Chrono F64 Encoding Beats Tempo Timeline GhostXForm Entries Payload.

Definition MAX_MESSAGE_SIZE : Z := 512.
Definition PROTOCOL_HEADER_SIZE : nat := 8.

(** ** Discovery *)

Definition INVALID : Z := 0.
Definition ALIVE : Z := 1.
Definition RESPONSE : Z := 2.
Definition BYEBYE : Z := 3.
Definition MESSAGE_TYPES_len : Z := 4.

(** ["_asdp_v" 1] *)
Definition PROTOCOL_HEADER : bytes := [95; 97; 115; 100; 112; 95; 118; 1].
Definition MESSAGE_HEADER_SIZE : nat := 12.

Record MessageHeader := MkHeader {
  message_type : Z;
  ttl : Z;
  group_id : Z;
  header_ident : NodeId
}.

Definition message_header_wire : EncodeDecode MessageHeader := {|
  encode_to h out :=
    let? out := encode_to u8_wire (message_type h) out in
    let? out := encode_to u8_wire (ttl h) out in
    let? out := encode_to u16_wire (group_id h) out in
    let? out := encode_to node_id_wire (header_ident h) out in
    Ok out;
  encoded_size _ := (1 + 1 + 2 + 8)%nat;
  decode_from b :=
    let? (message_type, n1) := decode_from u8_wire b in
    let? (ttl, n2) := decode_from u8_wire (drop n1 b) in
    let? (group_id, n3) := decode_from u16_wire (drop (n1 + n2) b) in
    let? (ident, n4) := decode_from node_id_wire (drop (n1 + n2 + n3) b) in
    Ok (MkHeader message_type ttl group_id ident, (n1 + n2 + n3 + n4)%nat)
|}.

#[global] Instance message_header_laws : WireLaws message_header_wire.
Proof.
  apply (wire_via (pair_wire (triple_wire u8_wire u8_wire u16_wire) node_id_wire) message_header_wire
    (fun h => ((message_type h, ttl h, group_id h), header_ident h))
    (fun p => MkHeader p.1.1.1 p.1.1.2 p.1.2 p.2)); solve_via.
Defined.

(** [slice::starts_with]. *)
Definition starts_with (b prefix : bytes) : bool := bool_decide (take (length prefix) b = prefix).

Section Messages.
Context `{Ch : Chrono, FD : FloatDecode}.

Definition encode_message (from : NodeId) (ttl message_type : Z) (payload : Payload) (group_id : Z)
  : result bytes Error :=
  let header := MkHeader message_type ttl group_id from in
  let message_size :=
    Z.of_nat PROTOCOL_HEADER_SIZE + Z.of_nat MESSAGE_HEADER_SIZE + payload_size payload in
  if MAX_MESSAGE_SIZE <? message_size
  then Err (Encoding (MessageTooLarge message_size MAX_MESSAGE_SIZE))
  else
    let? encoded := lift_encode (encode_to_vec (array_wire 8) PROTOCOL_HEADER) in
    let? h := lift_encode (encode_to_vec message_header_wire header) in
    let? p := payload_encode payload in
    Ok ((encoded ++ h) ++ p).

Definition alive_message (from : NodeId) (ttl : Z) (payload : Payload) (group_id : Z) :=
  encode_message from ttl ALIVE payload group_id.

Definition response_message (from : NodeId) (ttl : Z) (payload : Payload) (group_id : Z) :=
  encode_message from ttl RESPONSE payload group_id.

Definition byebye_message (from : NodeId) : result bytes Error :=
  encode_message from 0 BYEBYE Payload_default 0.

Definition parse_message_header (data : bytes) : result (MessageHeader * nat) Error :=
  let min_message_size := (PROTOCOL_HEADER_SIZE + MESSAGE_HEADER_SIZE)%nat in
  if (length data <? min_message_size)%nat then Err (Protocol "invalid message size")
  else if negb (starts_with data PROTOCOL_HEADER) then Err (Protocol "invalid protocol header")
  else
    let? (header, consumed) :=
      lift_decode (decode_from_slice message_header_wire
                     (drop PROTOCOL_HEADER_SIZE (take min_message_size data))) in
    if MESSAGE_TYPES_len <=? message_type header then Err (Protocol "unknown message type")
    else Ok (header, (PROTOCOL_HEADER_SIZE + consumed)%nat).

(** ** Ping and pong *)

Definition PING : Z := 1.
Definition PONG : Z := 2.

(** ["_link_v" 1] *)
Definition PING_PROTOCOL_HEADER : bytes := [95; 108; 105; 110; 107; 95; 118; 1].
Definition PING_HEADER_SIZE : nat := 1.

Definition ping_encode_message (message_type : Z) (payload : Payload) : result bytes Error :=
  let message_size :=
    Z.of_nat PROTOCOL_HEADER_SIZE + Z.of_nat PING_HEADER_SIZE + payload_size payload in
  if MAX_MESSAGE_SIZE <? message_size
  then Err (Encoding (MessageTooLarge message_size MAX_MESSAGE_SIZE))
  else
    let? encoded := lift_encode (encode_to_vec (array_wire 8) PING_PROTOCOL_HEADER) in
    let? h := lift_encode (encode_to_vec u8_wire message_type) in
    let? p := payload_encode payload in
    Ok ((encoded ++ h) ++ p).

(** The header of these messages is its type alone. *)
Definition ping_parse_message_header (data : bytes) : result (Z * nat) Error :=
  let min_message_size := (PROTOCOL_HEADER_SIZE + PING_HEADER_SIZE)%nat in
  if (length data <? min_message_size)%nat then Err (Protocol "invalid message size")
  else if negb (starts_with data PING_PROTOCOL_HEADER) then Err (Protocol "invalid protocol header")
  else
    let? (header, consumed) :=
      lift_decode (decode_from_slice u8_wire
                     (drop PROTOCOL_HEADER_SIZE (take min_message_size data))) in
    Ok (header, (PROTOCOL_HEADER_SIZE + consumed)%nat).

(** The responder's shared state; its clock is read by the caller. *)
Record PingResponder := MkResponder {
  pr_session_id : SessionId;
  pr_x_form : GhostXForm;
  ping_message_received : bool
}.

Definition is_echoed (e : PayloadEntry) : bool :=
  match e with EHostTime _ | EPrevGhostTime _ => true | _ => false end.

(** [pong_message], with the present host time and whether the two mutexes
    could be taken ([try_state]); the second component is the responder
    after the call. *)
Definition pong_message (r : PingResponder) (now : Duration) (id_free form_free : bool) (data : bytes)
  : option bytes * PingResponder :=
  if (length data <? PROTOCOL_HEADER_SIZE + PING_HEADER_SIZE)%nat
     || negb (starts_with data PING_PROTOCOL_HEADER)
     || negb (bool_decide (nth_error data PROTOCOL_HEADER_SIZE = Some PING))
  then (None, r)
  else
    match ping_parse_message_header data with
    | Err _ => (None, r)
    | Ok (_, header_len) =>
        let payload_size := length (drop header_len data) in
        if (40 <? payload_size)%nat then (None, r)
        else
          let r' := MkResponder (pr_session_id r) (pr_x_form r) true in
          match parse_payload (drop header_len data) with
          | None | Some (Err _) => (None, r')
          | Some (Ok payload) =>
              let payload_entries := List.filter is_echoed payload in
              if negb id_free || negb form_free then (None, r')
              else
                let time := host_to_ghost (pr_x_form r) now in
                let current_gt := MkGhostTime (Duration_microseconds (micros time)) in
                let pong_payload :=
                  (payload_entries ++ [ESessionMembership (MkMembership (pr_session_id r))])
                    ++ [EGhostTime current_gt] in
                (result_ok (ping_encode_message PONG pong_payload), r')
          end
    end.

(** [update_node_state]: both fields under both locks. *)
Definition update_node_state (r : PingResponder) (session_id : SessionId) (x_form : GhostXForm)
  : PingResponder :=
  MkResponder session_id x_form (ping_message_received r).

End Messages.

(** ** Round trips *)

Section MessageProperties.
Context `{Laws : ChronoLaws, FD : FloatDecode}.

Lemma starts_with_app p b : starts_with (p ++ b) p = true.
Proof. unfold starts_with. rewrite take_app_length. now apply bool_decide_true. Qed.

Definition message_ok (from : NodeId) (ttl message_type group_id : Z) : Prop :=
  length from = 8%nat /\ bytes_ok from /\ in_u8 ttl /\ 0 <= message_type < 4 /\ in_u16 group_id.

Definition fits_message (header : nat) (p : Payload) : Prop :=
  Forall entry_ok p /\ (header + length (concat (map entry_bytes p)) <= 512)%nat.

Lemma fits_message_size header p :
  fits_message header p -> payload_size p = Z.of_nat (length (concat (map entry_bytes p))).
Proof. intros [Hp Hl]. apply payload_size_eq; [assumption|]. zlia. Qed.

Lemma encode_message_eq from t mt p g :
  message_ok from t mt g -> fits_message 20 p ->
  encode_message from t mt p g =
  Ok (PROTOCOL_HEADER ++ wire_bytes message_header_wire (MkHeader mt t g from) ++ concat (map entry_bytes p)).
Proof.
  intros (H1 & H2 & H3 & H4 & H5) Hp. unfold encode_message. rewrite (fits_message_size 20) by assumption.
  destruct Hp as [Hp Hl]. unfold PROTOCOL_HEADER_SIZE, MESSAGE_HEADER_SIZE, MAX_MESSAGE_SIZE.
  destruct (Z.ltb_spec 512 (Z.of_nat 8 + Z.of_nat 12 + Z.of_nat (length (concat (map entry_bytes p))))); [lia|].
  rewrite (encode_body message_header_wire) by (repeat split; cbn; try assumption; unfold in_u8, in_u16 in *; lia).
  rewrite payload_encode_eq by assumption. cbn [lift_encode map_err encode_to_vec encode_to array_wire].
  now rewrite app_nil_l, <- app_assoc.
Qed.

(** What the receiver of a discovery message reads. *)
Lemma discovery_message_reads from t mt p g :
  message_ok from t mt g -> fits_message 20 p ->
  exists b, encode_message from t mt p g = Ok b /\ Z.of_nat (length b) <= MAX_MESSAGE_SIZE /\
    parse_message_header b = Ok (MkHeader mt t g from, 20%nat) /\
    parse_payload (drop 20 b) = Some (Ok (map entry_norm p)).
Proof.
  intros Hm Hp. eexists. split; [now apply encode_message_eq|].
  destruct Hm as (H1 & H2 & H3 & H4 & H5), Hp as [Hp Hl].
  set (hb := wire_bytes message_header_wire (MkHeader mt t g from)).
  assert (wire_ok message_header_wire (MkHeader mt t g from)) as Hw
    by (repeat split; cbn; try assumption; unfold in_u8, in_u16 in *; lia).
  assert (length hb = 12%nat) as Lh by apply (wire_length message_header_wire _ Hw).
  split; [|split].
  - rewrite !length_app, Lh. cbn [length PROTOCOL_HEADER]. unfold MAX_MESSAGE_SIZE. lia.
  - unfold parse_message_header, PROTOCOL_HEADER_SIZE, MESSAGE_HEADER_SIZE. rewrite starts_with_app.
    destruct (Nat.ltb_spec (length (PROTOCOL_HEADER ++ hb ++ concat (map entry_bytes p))) (8 + 12)) as [C|_].
    { rewrite !length_app, Lh in C. cbn [length PROTOCOL_HEADER] in C. lia. }
    cbn [negb].
    replace (drop 8 (take (8 + 12) (PROTOCOL_HEADER ++ hb ++ concat (map entry_bytes p)))) with hb.
    2: { rewrite app_assoc, (take_app_length' (PROTOCOL_HEADER ++ hb)) by (rewrite length_app, Lh; reflexivity).
         now rewrite (drop_app_length' PROTOCOL_HEADER). }
    unfold decode_from_slice, hb. rewrite (decode_body message_header_wire) by exact Hw.
    cbn [lift_decode map_err]. change (wire_norm message_header_wire (MkHeader mt t g from)) with (MkHeader mt t g from).
    cbn [message_type]. unfold MESSAGE_TYPES_len. destruct (Z.leb_spec 4 mt); [lia|reflexivity].
  - rewrite app_assoc, (drop_app_length' (PROTOCOL_HEADER ++ hb)) by (rewrite length_app, Lh; reflexivity).
    unfold parse_payload. rewrite <- (app_nil_r (concat _)).
    rewrite payload_decode_entries, payload_decode_end by (assumption || (cbn; lia)). reflexivity.
Qed.

(** A discovery message that fits is at most 512 bytes, and its receiver
    reads the same header and the same payload back. *)
Theorem discovery_message_round_trip from t mt p g :
  message_ok from t mt g -> fits_message 20 p ->
  exists b, encode_message from t mt p g = Ok b /\ Z.of_nat (length b) <= MAX_MESSAGE_SIZE /\
    parse_message_header b = Ok (MkHeader mt t g from, 20%nat) /\
    parse_payload (drop 20 b) = Some (Ok (map entry_norm p)).
Proof. apply discovery_message_reads. Qed.

(** ** Pings *)

Lemma time_entry_micros (b : bytes) us n :
  bytes_ok b -> decode_from i64_wire b = Ok (us, n) -> in_i64 us.
Proof.
  intros Hb. cbn [decode_from i64_wire]. unfold sint_decode. destruct (Nat.ltb_spec (length b) 8); [discriminate|].
  intros [= <- <-]. unfold signed. change (256 ^ Z.of_nat 8) with 18446744073709551616.
  pose proof (from_be_bytes_range (take 8 b) (Forall_take _ _ _ Hb)) as R.
  rewrite length_take, Nat.min_l in R by lia. change (256 ^ Z.of_nat 8) with 18446744073709551616 in R.
  change (18446744073709551616 / 2) with 9223372036854775808.
  destruct (Z.ltb_spec (from_be_bytes (take 8 b)) 9223372036854775808); zlia.
Qed.

(** An entry that a ping reply echoes can be encoded again, in the bytes it
    was read from. *)
Lemma decode_entry_echo h body e :
  bytes_ok body -> decode_entry h body = Ok (Some e) ->
  entry_size e = size h /\ (is_echoed e = true -> entry_ok e).
Proof.
  intros Hb. unfold decode_entry, sized, HostTime_decode, GhostTime_decode, PrevGhostTime_decode, lift_decode.
  repeat match goal with |- context [key h =? ?k] => destruct (key h =? k); [
    first [discriminate
          |match goal with |- context [size h =? ?z] => destruct (Z.eqb_spec (size h) z) as [->|]; [|discriminate] end;
           cbv iota beta;
           first [match goal with |- context [decode_from_slice ?W body] =>
                    destruct (decode_from_slice W body) as [[v n]|]; [|discriminate] end
                 |destruct (decode_from i64_wire body) as [[us n]|] eqn:D; [|discriminate]];
           cbn [map_err]; intros [= <-]; split; [reflexivity|]; intros C; try discriminate C; clear C; cbn [entry_ok ht_time pgt_time];
           (apply time_entry_micros in D; [|assumption];
            rewrite num_microseconds_microseconds by assumption; eauto)]|] end.
  discriminate.
Qed.

Definition echo_size (p : Payload) : nat := length (concat (map entry_bytes (List.filter is_echoed p))).

Lemma entry_bytes_length e : entry_ok e -> Z.of_nat (length (entry_bytes e)) = 8 + entry_size e.
Proof.
  intros He. unfold entry_bytes. rewrite length_app, header_bytes_length by apply entry_header_ok.
  pose proof (entry_body_length e He). lia.
Qed.

Lemma decode_pass_echo entries data entries' data' :
  bytes_ok data -> (8 <= length data)%nat -> decode_pass entries data = Ok (entries', data') ->
  bytes_ok data' /\ exists es, entries' = entries ++ es /\ Forall entry_ok (List.filter is_echoed es) /\
    (echo_size es + length data' <= length data)%nat.
Proof.
  intros Hb Hl. unfold decode_pass, decode_from_slice.
  destruct (decode_from header_wire _) as [[h n]|]; [|discriminate]. cbn [lift_decode map_err].
  destruct (Nat.ltb_spec (length data) (PAYLOAD_ENTRY_HEADER_SIZE + Z.to_nat (size h))) as [|L]; [discriminate|].
  unfold PAYLOAD_ENTRY_HEADER_SIZE in *.
  destruct (decode_entry h _) as [[e|]|] eqn:E; [| |discriminate]; intros [= <- <-].
  - apply decode_entry_echo in E as [E1 E2]; [|now apply Forall_drop, Forall_take].
    split; [now apply Forall_drop|]. exists [e]. split; [reflexivity|]. unfold echo_size. cbn [List.filter].
    destruct (is_echoed e); [|cbn; rewrite length_drop; split; [constructor|lia]].
    split; [now repeat constructor; apply E2|]. cbn [map concat]. rewrite app_nil_r, length_drop.
    pose proof (entry_bytes_length e (E2 eq_refl)). lia.
  - split; [now apply Forall_drop|]. exists []. rewrite app_nil_r, length_drop. cbn. split; [reflexivity|].
    split; [constructor|lia].
Qed.

Lemma echo_size_app p q : echo_size (p ++ q) = (echo_size p + echo_size q)%nat.
Proof. unfold echo_size. now rewrite List.filter_app, map_app, concat_app, length_app. Qed.

Lemma decode_loop_echo fuel entries data entries' r :
  bytes_ok data -> decode_loop fuel entries data = Some (entries', r) ->
  exists es, entries' = entries ++ es /\ Forall entry_ok (List.filter is_echoed es) /\
    (echo_size es <= length data)%nat.
Proof.
  revert entries data. induction fuel as [|fuel IH]; intros entries data Hb; [discriminate|].
  cbn [decode_loop]. unfold PAYLOAD_ENTRY_HEADER_SIZE.
  destruct (Nat.leb_spec 8 (length data)) as [L|].
  - destruct (decode_pass entries data) as [[es d]|] eqn:E.
    + apply decode_pass_echo in E as (Hd & es1 & -> & F1 & S1); [|assumption|assumption].
      intros D. apply IH in D as (es2 & -> & F2 & S2); [|assumption].
      exists (es1 ++ es2). rewrite app_assoc, List.filter_app, echo_size_app. split; [reflexivity|].
      split; [now apply Forall_app|lia].
    + intros [= <- <-]. exists []. rewrite app_nil_r. cbn. split; [reflexivity|]. split; [constructor|lia].
  - intros [= <- <-]. exists []. rewrite app_nil_r. cbn. split; [reflexivity|]. split; [constructor|lia].
Qed.

Definition pong_entries (r : PingResponder) (now : Duration) (p : Payload) : Payload :=
  List.filter is_echoed p ++
  [ESessionMembership (MkMembership (pr_session_id r));
   EGhostTime (MkGhostTime (Duration_microseconds (micros (host_to_ghost (pr_x_form r) now))))].

Definition responder_ok (r : PingResponder) : Prop :=
  length (session_node (pr_session_id r)) = 8%nat /\ bytes_ok (session_node (pr_session_id r)).

Lemma ping_encode_eq mt p :
  in_u8 mt -> fits_message 9 p ->
  ping_encode_message mt p = Ok (PING_PROTOCOL_HEADER ++ mt :: concat (map entry_bytes p)).
Proof.
  intros Hm Hp. unfold ping_encode_message. rewrite (fits_message_size 9) by assumption.
  destruct Hp as [Hp Hl]. unfold PROTOCOL_HEADER_SIZE, PING_HEADER_SIZE, MAX_MESSAGE_SIZE.
  destruct (Z.ltb_spec 512 (Z.of_nat 8 + Z.of_nat 1 + Z.of_nat (length (concat (map entry_bytes p))))); [lia|].
  rewrite payload_encode_eq by assumption. reflexivity.
Qed.

Lemma pong_fits r now p :
  responder_ok r -> Forall entry_ok (List.filter is_echoed p) -> (echo_size p <= 40)%nat ->
  fits_message 9 (pong_entries r now p).
Proof.
  intros [R1 R2] F S. unfold fits_message, pong_entries.
  assert (Forall entry_ok [ESessionMembership (MkMembership (pr_session_id r));
    EGhostTime (MkGhostTime (Duration_microseconds (micros (host_to_ghost (pr_x_form r) now))))]) as G.
  { constructor; [split; assumption|]. constructor; [|constructor]. cbn.
    rewrite num_microseconds_microseconds by apply micros_range. eauto. }
  split; [now apply Forall_app|]. rewrite map_app, concat_app, length_app. fold (echo_size p).
  inversion G as [|? ? G1 G2]; subst. inversion G2 as [|? ? G3 _]; subst. cbn [map concat].
  rewrite app_nil_r, length_app. apply entry_bytes_length in G1, G3. cbn [entry_size] in *.
  unfold SESSION_MEMBERSHIP_SIZE, GHOST_TIME_SIZE in *. lia.
Qed.

(** A ping of any content whose payload is at most 40 bytes and decodes is
    answered, when the responder's state can be read: the reply fits the
    message limit, and carries the echoed host times, the responder's session
    and its present ghost time. *)
Theorem pong_answers_ping r now body p :
  responder_ok r -> bytes_ok body -> (length body <= 40)%nat -> parse_payload body = Some (Ok p) ->
  exists b, fst (pong_message r now true true (PING_PROTOCOL_HEADER ++ PING :: body)) = Some b /\
    Z.of_nat (length b) <= MAX_MESSAGE_SIZE /\
    ping_parse_message_header b = Ok (PONG, 9%nat) /\
    parse_payload (drop 9 b) = Some (Ok (map entry_norm (pong_entries r now p))).
Proof.
  intros Hr Hb Hl Hp. pose proof Hp as Hp'. unfold parse_payload in Hp'.
  destruct (payload_decode Payload_default body) as [[es res]|] eqn:D; [|discriminate].
  apply decode_loop_echo in D as (es' & E & F & S); [|assumption]. cbn [app Payload_default] in E. subst es'.
  destruct res; [|discriminate]. injection Hp' as ->.
  pose proof (pong_fits r now p Hr F ltac:(lia)) as Fit.
  eexists. split.
  { unfold pong_message. rewrite starts_with_app. unfold PROTOCOL_HEADER_SIZE, PING_HEADER_SIZE.
    destruct (Nat.ltb_spec (length (PING_PROTOCOL_HEADER ++ PING :: body)) (8 + 1)) as [C|_];
      [rewrite length_app in C; cbn [length PING_PROTOCOL_HEADER] in C; lia|].
    cbn [nth_error app PING_PROTOCOL_HEADER]. rewrite bool_decide_true by reflexivity. cbn [negb orb].
    change (ping_parse_message_header _) with (@Ok (Z * nat) Error (PING, 9%nat)). cbv iota beta.
    change (drop 9 _) with body. destruct (Nat.ltb_spec 40 (length body)); [lia|]. rewrite Hp. cbn [negb orb].
    rewrite <- app_assoc. change (List.filter is_echoed p ++ [_] ++ [_]) with (pong_entries r now p).
    rewrite ping_encode_eq by (assumption || (unfold in_u8, PONG; lia)).
    reflexivity. }
  destruct Fit as [FE FL]. split; [|split].
  - rewrite length_app, length_cons. change (length PING_PROTOCOL_HEADER) with 8%nat.
    unfold MAX_MESSAGE_SIZE. lia.
  - reflexivity.
  - change (drop 9 _) with (concat (map entry_bytes (pong_entries r now p))).
    unfold parse_payload. rewrite <- (app_nil_r (concat _)).
    rewrite payload_decode_entries, payload_decode_end by (assumption || (cbn; lia)). reflexivity.
Qed.

End MessageProperties.
