(* ===== verification/Measurement.v ===== *)
(** Clock measurement: the sample arithmetic and the message handling of
    src/src/link/measurement.rs, the statistics of src/src/link/median.rs and
    src/src/link/linear_regression.rs, and the drift filter of
    src/src/link/host_time_filter.rs.

    A [NaN] has no sign in this model of floats; it sorts last, as the
    positive ones do under [total_cmp]. *)

From stdpp Require Import base list numbers strings.
From Stdlib Require Import ZArith Lia SpecFloat Sorted.
From S2P Require Import Prelude Chrono F64 Encoding Beats Tempo Timeline GhostXForm Entries Payload Messages.

(** ** Statistics *)

(** [a.partial_cmp(b).unwrap_or(Equal)] is not [Greater]. *)
Definition partial_leb (a b : f64) : bool := negb (f64_ltb b a).

Definition f64_two : f64 := f64_of_int 2.

(** [median::median]; the slice is returned sorted as well. *)
Definition median (data : list f64) : option f64 :=
  if (length data <? 3)%nat then None
  else
    let n := length data in
    let data := sort_by partial_leb data in
    if Nat.even n then
      Some (f64_div (f64_add (nth (n / 2 - 1) data f64_zero) (nth (n / 2) data f64_zero)) f64_two)
    else Some (nth (n / 2) data f64_zero).

(** The points are collected first; an iterator is a list here. *)
Definition median_from_iter (iter : list f64) : option f64 := median iter.

(** [f64::total_cmp] is not [Greater]. *)
Definition total_leb (a b : f64) : bool :=
  if f64_is_nan b then true
  else if f64_is_nan a then false
  else if f64_ltb a b then true
  else f64_eqb a b &&
       match a, b with S754_zero false, S754_zero true => false | _, _ => true end.

(** [measurement::median]. *)
Definition measurement_median (numbers : list f64) : f64 :=
  let numbers := sort_by total_leb numbers in
  let length := length numbers in
  if (length =? 0)%nat then f64_zero
  else if Nat.even length then
    let mid := (length / 2)%nat in
    f64_div (f64_add (nth (mid - 1) numbers f64_zero) (nth mid numbers f64_zero)) f64_two
  else nth (length / 2) numbers f64_zero.

Definition regression_sums (acc : f64 * f64 * f64 * f64) (p : f64 * f64) : f64 * f64 * f64 * f64 :=
  let '(sum_x, sum_xx, sum_xy, sum_y) := acc in
  let '(x, y) := p in
  (f64_add sum_x x, f64_add sum_xx (f64_mul x x), f64_add sum_xy (f64_mul x y), f64_add sum_y y).

Definition linear_regression (points : list (f64 * f64)) : f64 * f64 :=
  let num_points := f64_of_int (Z.of_nat (length points)) in
  if f64_eqb num_points f64_zero then (f64_zero, f64_zero)
  else
    let '(sum_x, sum_xx, sum_xy, sum_y) :=
      fold_left regression_sums points (f64_zero, f64_zero, f64_zero, f64_zero) in
    let denominator := f64_sub (f64_mul num_points sum_xx) (f64_mul sum_x sum_x) in
    let slope :=
      if f64_eqb denominator f64_zero then f64_zero
      else f64_div (f64_sub (f64_mul num_points sum_xy) (f64_mul sum_x sum_y)) denominator in
    let intercept := f64_div (f64_sub sum_y (f64_mul slope sum_x)) num_points in
    (slope, intercept).

Section Measurement.
Context `{Ch : Chrono}.

(** ** Drift filter *)

(** [HostTimeFilter<NUM_POINTS>]: its points, oldest first. *)
Definition HostTimeFilter : Type := list (f64 * f64).

Definition HostTimeFilter_new : HostTimeFilter := [].
Definition HostTimeFilter_reset (f : HostTimeFilter) : HostTimeFilter := [].

(** [now] and [now'] are the two readings of the clock; the second one is
    used when there are too few points. *)
Definition sample_time_to_host_time (NUM_POINTS : nat) (f : HostTimeFilter) (sample_time : f64)
    (now now' : Duration) : Duration * HostTimeFilter :=
  let host_micros := f64_of_int (micros now) in
  let point := (sample_time, host_micros) in
  let points := if (NUM_POINTS <=? length f)%nat then tl f else f in
  let points := points ++ [point] in
  if (2 <=? length points)%nat then
    let '(slope, intercept) := linear_regression points in
    let host_time := f64_add (f64_mul slope sample_time) intercept in
    (Duration_microseconds (f64_as_i64 (f64_round host_time)), points)
  else (now', points).

Definition num_points (f : HostTimeFilter) : nat := length f.
Definition is_ready (f : HostTimeFilter) : bool := (10 <=? length f)%nat.

(** ** Samples of one reply *)

Definition NUMBER_DATA_POINTS : nat := 20.
Definition NUMBER_MEASUREMENTS : nat := 5.

Definition pong_samples (host previous_host ghost previous_ghost : Duration) : option (list (f64 * f64)) :=
  if Duration_eqb ghost Duration_zero || Duration_eqb previous_host Duration_zero then Some []
  else
    let! host := num_microseconds host in
    let! previous_host := num_microseconds previous_host in
    let! ghost := num_microseconds ghost in
    let! previous_ghost := num_microseconds previous_ghost in
    let sum_host := host + previous_host in
    let second :=
      if negb (previous_ghost =? 0)
      then [(f64_of_int previous_host,
             f64_mul (f64_of_int (ghost + previous_ghost - 2 * previous_host)) f64_half)]
      else [] in
    Some ((f64_mul (f64_of_int sum_host) f64_half,
           f64_mul (f64_of_int (2 * ghost - sum_host)) f64_half) :: second).

(** The transform a finished measurement reports ([measure_peer_in_epoch]):
    the default one stands for failure. *)
Definition measured_x_form (data : list (f64 * f64)) : GhostXForm :=
  match data with
  | [] => GhostXForm_default
  | _ =>
      let '(slope, intercept) :=
        if (3 <=? length data)%nat then
          let '(reg_slope, reg_intercept) := linear_regression data in
          if f64_is_finite reg_intercept then (f64_add f64_one reg_slope, reg_intercept)
          else (f64_one, measurement_median (map snd data))
        else
          let offsets := sort_by partial_leb (map snd data) in
          (f64_one, nth (length offsets / 2) offsets f64_zero) in
      MkXForm slope (Duration_microseconds (f64_as_i64 (f64_round intercept)))
  end.

(** ** The measurement's message loop *)

(** The fields of a reply the loop looks at, the last entry of each kind. *)
Record PongFields := MkFields {
  pf_session_id : SessionId;
  pf_ghost_time : Duration;
  pf_prev_ghost_time : Duration;
  pf_prev_host_time : Duration
}.

Definition pong_field (f : PongFields) (e : PayloadEntry) : PongFields :=
  match e with
  | ESessionMembership m =>
      MkFields (member_session_id m) (pf_ghost_time f) (pf_prev_ghost_time f) (pf_prev_host_time f)
  | EGhostTime t => MkFields (pf_session_id f) (gt_time t) (pf_prev_ghost_time f) (pf_prev_host_time f)
  | EPrevGhostTime t => MkFields (pf_session_id f) (pf_ghost_time f) (pgt_time t) (pf_prev_host_time f)
  | EHostTime t => MkFields (pf_session_id f) (pf_ghost_time f) (pf_prev_ghost_time f) (ht_time t)
  | _ => f
  end.

Definition pong_fields (p : Payload) : PongFields :=
  fold_left pong_field p (MkFields SessionId_default Duration_zero Duration_zero Duration_zero).

(** The ping that starts a round ([reset_timer]) and the one that answers a
    reply ([listen]). *)
Definition first_ping (host_time : Duration) : Payload := [EHostTime (MkHostTime host_time)].
Definition followup_ping (host_time prev_ghost_time : Duration) : Payload :=
  [EHostTime (MkHostTime host_time); EPrevGhostTime (MkPrevGhostTime prev_ghost_time)].

(** What [listen] does with one datagram: nothing, or the ping it sends, the
    samples it now holds and whether the measurement is complete. *)
Inductive PongOutcome :=
| Ignored
| Sampled (followup : Payload) (data : list (f64 * f64)) (complete : bool).

Definition handle_pong (s_id : SessionId) (data : list (f64 * f64)) (host_time : Duration) (buf : bytes)
  : PongOutcome :=
  match ping_parse_message_header buf with
  | Err _ => Ignored
  | Ok (message_type, header_len) =>
      if negb (message_type =? PONG) then Ignored
      else
        match parse_payload (drop header_len buf) with
        | None | Some (Err _) => Ignored
        | Some (Ok payload) =>
            let f := pong_fields payload in
            if negb (bool_decide (s_id = pf_session_id f)) then Ignored
            else
              let ping := followup_ping host_time (pf_prev_ghost_time f) in
              match pong_samples host_time (pf_prev_host_time f) (pf_ghost_time f)
                      (pf_prev_ghost_time f) with
              | None => Sampled ping data false
              | Some samples =>
                  let data := data ++ samples in
                  Sampled ping data (NUMBER_DATA_POINTS <? length data)%nat
              end
        end
  end.

(** [message_type], by which the shared socket routes a datagram. *)
Definition datagram_type (data : bytes) : option Z :=
  if (length data <? PROTOCOL_HEADER_SIZE + PING_HEADER_SIZE)%nat
     || negb (starts_with data PING_PROTOCOL_HEADER)
  then None
  else match ping_parse_message_header data with Ok (t, _) => Some t | Err _ => None end.

(** One pass of [reset_timer]'s loop: [true] ends it. *)
Inductive TimerAction := SendPing (p : Payload) | GiveUp.

Definition timer_pass (measurements_started : nat) (now : Duration) : TimerAction * nat :=
  if (measurements_started <? NUMBER_MEASUREMENTS)%nat
  then (SendPing (first_ping now), S measurements_started)
  else (GiveUp, measurements_started).

End Measurement.

(** ** The median *)

Lemma partial_leb_key a b :
  f64_is_nan a = false -> f64_is_nan b = false ->
  partial_leb a b = match key_compare (f64_key a) (f64_key b) with Gt => false | _ => true end.
Proof.
  intros Ha Hb. unfold partial_leb. rewrite f64_ltb_key, (key_compare_antisym (f64_key b)) by assumption.
  now destruct (key_compare (f64_key a) (f64_key b)).
Qed.

Definition not_nan (x : f64) : Prop := f64_is_nan x = false.

Lemma partial_leb_sorted l :
  Forall not_nan l -> StronglySorted (fun a b => partial_leb a b = true) (sort_by partial_leb l).
Proof.
  apply sort_by_sorted.
  - intros x y Hx Hy. rewrite !partial_leb_key, (key_compare_antisym (f64_key y)) by assumption.
    now destruct (key_compare (f64_key x) (f64_key y)).
  - intros x y z Hx Hy Hz. rewrite !partial_leb_key by assumption. intros H1 H2.
    pose proof (key_compare_trans (f64_key x) (f64_key y) (f64_key z)) as T.
    destruct (key_compare (f64_key x) (f64_key z)); try reflexivity. exfalso.
    apply T; [| |reflexivity]; intros C; rewrite C in *; discriminate.
Qed.

(** The median of at least three numbers, none of them NaN, is the middle of
    the sorted numbers, or the mean of the two in the middle; fewer numbers
    have none. *)
Theorem median_is_middle data :
  Forall not_nan data ->
  exists sorted, sorted ≡ₚ data /\ StronglySorted (fun a b => partial_leb a b = true) sorted /\
    median data =
    (if (length data <? 3)%nat then None
     else if Nat.even (length data)
     then Some (f64_div (f64_add (nth (length data / 2 - 1) sorted f64_zero)
                                 (nth (length data / 2) sorted f64_zero)) f64_two)
     else Some (nth (length data / 2) sorted f64_zero)).
Proof.
  intros Hn. exists (sort_by partial_leb data). split; [apply sort_by_perm|].
  split; [now apply partial_leb_sorted|reflexivity].
Qed.

Section MeasurementProperties.
Context `{Laws : ChronoLaws, FD : FloatDecode}.

(** The drift filter never holds more than its capacity, and its points are
    the most recent ones, in order of arrival. *)
Theorem host_time_filter_window NUM_POINTS f (calls : list (f64 * Duration * Duration)) :
  (0 < NUM_POINTS)%nat -> (length f <= NUM_POINTS)%nat ->
  let push f c := snd (sample_time_to_host_time NUM_POINTS f c.1.1 c.1.2 c.2) in
  let f' := fold_left push calls f in
  let all := f ++ map (fun c => (c.1.1, f64_of_int (micros c.1.2))) calls in
  (length f' <= NUM_POINTS)%nat /\ f' = drop (length all - length f') all /\
  length f' = Nat.min NUM_POINTS (length all).
Proof.
  intros HN. revert f. induction calls as [|c calls IH]; intros f Hf; cbv zeta.
  - cbn [fold_left map]. rewrite app_nil_r, Nat.sub_diag. cbn. repeat split; lia.
  - cbn [fold_left map]. set (pt := (c.1.1, f64_of_int (micros c.1.2))).
    set (f1 := snd (sample_time_to_host_time NUM_POINTS f c.1.1 c.1.2 c.2)).
    assert (f1 = (if (NUM_POINTS <=? length f)%nat then tl f else f) ++ [pt]) as E.
    { unfold f1, sample_time_to_host_time. fold pt. destruct (2 <=? _)%nat; [|reflexivity].
      now destruct (linear_regression _). }
    assert (length f1 <= NUM_POINTS)%nat as L1.
    { rewrite E, length_app. cbn [length]. destruct (Nat.leb_spec NUM_POINTS (length f)); [|lia].
      destruct f; cbn [tl length] in *; lia. }
    destruct (IH f1 L1) as (I1 & I2 & I3). cbv zeta in I1, I2, I3. split; [exact I1|].
    set (rest := map (fun c0 : f64 * Duration * Duration => (c0.1.1, f64_of_int (micros c0.1.2))) calls) in *.
    set (f' := fold_left _ calls f1) in *.
    assert (f1 ++ rest = drop (length f + 1 - length f1) (f ++ pt :: rest) /\
            (length f1 <= length f + 1)%nat /\ (length f1 = Nat.min NUM_POINTS (length f + 1))%nat)
      as (D & L2 & L3).
    { rewrite E. destruct (Nat.leb_spec NUM_POINTS (length f)) as [Lf|Lf].
      - destruct f as [|p f]; cbn [length tl] in *; [lia|]. rewrite length_app. cbn [length].
        replace (S (length f) + 1 - (length f + 1))%nat with 1%nat by lia. cbn [drop app].
        rewrite <- app_assoc. split; [reflexivity|lia].
      - rewrite length_app. cbn [length]. replace (length f + 1 - (length f + 1))%nat with 0%nat by lia.
        rewrite <- app_assoc. cbn [drop app]. split; [reflexivity|lia]. }
    rewrite !length_app in *. cbn [length] in *. split.
    + rewrite I2 at 1. rewrite D, drop_drop. f_equal. lia.
    + lia.
Qed.

(** ** The exchange of pings and replies *)

Lemma time_norm_zero : time_norm Duration_zero = Duration_zero.
Proof.
  apply duration_nanos_inj. unfold time_norm. rewrite micros_eq, duration_nanos_zero.
  change (clamp_i64 (Z.quot 0 1000)) with 0. rewrite duration_nanos_microseconds by zlia. reflexivity.
Qed.

(** The previous ghost time a list of entries carries, if any. *)
Definition prev_ghost (p : Payload) : Duration := pf_prev_ghost_time (pong_fields p).

Definition reply_payload (r : PingResponder) (now : Duration) (ping : Payload) : Payload :=
  map entry_norm (pong_entries r now (map entry_norm ping)).

(** The pings of one round against a responder: the timer's, then one for
    each reply. *)
Inductive ping_round (r : PingResponder) : Payload -> Prop :=
| round_first host : ping_round r (first_ping host)
| round_next ping now host :
    ping_round r ping ->
    ping_round r (followup_ping host (prev_ghost (reply_payload r now ping))).

Lemma reply_prev_ghost_first r now host : prev_ghost (reply_payload r now (first_ping host)) = Duration_zero.
Proof. reflexivity. Qed.

Lemma reply_prev_ghost_next r now host g :
  prev_ghost (reply_payload r now (followup_ping host g)) = time_norm (time_norm g).
Proof. reflexivity. Qed.

(** Against a responder that echoes what it is sent, the ghost time a ping
    repeats is always zero: it is copied from the reply's echo and never from
    the ghost time just received, so every reply yields at most one sample
    and the second sample of [pong_samples] is never taken. *)
Theorem second_sample_never_taken r ping now host :
  ping_round r ping ->
  let f := pong_fields (reply_payload r now ping) in
  pf_prev_ghost_time f = Duration_zero /\
  forall samples, pong_samples host (pf_prev_host_time f) (pf_ghost_time f) (pf_prev_ghost_time f) = Some samples ->
    (length samples <= 1)%nat.
Proof.
  intros Hr f. assert (pf_prev_ghost_time f = Duration_zero) as E.
  { unfold f. change (prev_ghost (reply_payload r now ping) = Duration_zero). clear f. revert now.
    induction Hr as [h|ping n h Hr IH]; intros now; [apply reply_prev_ghost_first|].
    rewrite reply_prev_ghost_next, IH. now rewrite !time_norm_zero. }
  split; [exact E|]. intros samples. rewrite E. unfold pong_samples. destruct (_ || _); [intros [= <-]; simpl; lia|].
  destruct (num_microseconds host); [|discriminate]. destruct (num_microseconds (pf_prev_host_time f)); [|discriminate].
  destruct (num_microseconds (pf_ghost_time f)); [|discriminate].
  assert (num_microseconds Duration_zero = Some 0) as ->.
  { rewrite num_microseconds_spec, nanos_zero. reflexivity. }
  cbn [Z.eqb negb]. intros [= <-]. simpl. lia.
Qed.

End MeasurementProperties.
