(* ===== verification/Sessions.v ===== *)
(** The session registry: src/src/link/sessions.rs.

    [Registry] is the state behind the mutexes of [Sessions]: the session the
    node is in, the candidate sessions, the known peers, and the events sent
    on the two channels.  An [Arc::new(())] is a fresh incarnation number and
    the static revision counter is part of the state, both in [Supply].  Each
    critical section (what runs while the locks are held) is one function of
    the registry; [sessions_step] interleaves them in any order, so a
    measurement result is applied in the two sections the code has. *)

From stdpp Require Import base list numbers strings relations.
From Stdlib Require Import ZArith Lia SpecFloat.
From S2P Require Import Prelude Chrono F64 Encoding Beats Tempo Timeline GhostXForm Entries.

(** Lexicographic order of the eight bytes: the derived [PartialOrd]. *)
Fixpoint NodeId_ltb (a b : NodeId) : bool :=
  match a, b with
  | x :: a, y :: b => (x <? y) || ((x =? y) && NodeId_ltb a b)
  | [], _ :: _ => true
  | _, [] => false
  end.

Definition SessionId_ltb (a b : SessionId) : bool := NodeId_ltb (session_node a) (session_node b).

(** ** Fresh identities *)

Record Supply := MkSupply { fresh_incarnation : Z; edit_counter : Z }.

(** [Arc::new(())]: an allocation no live [Arc] shares. *)
Definition Arc_new (s : Supply) : Z * Supply :=
  (fresh_incarnation s, MkSupply (fresh_incarnation s + 1) (edit_counter s)).

(** [NonZeroU64::new]. *)
Definition NonZeroU64_new (z : Z) : option Z := if z =? 0 then None else Some z.

(** [allocate_edit_revision]: the compare-exchange loop retries until no
    other thread has moved the counter, so it reads and increments it
    atomically. *)
Definition allocate_edit_revision (counter : Z) : option Z * Z :=
  if u64_MAX <? counter + 1 then (None, counter) else (NonZeroU64_new counter, counter + 1).

Definition new_edit_revision (s : Supply) : option Z * Supply :=
  let '(r, counter) := allocate_edit_revision (edit_counter s) in
  (r, MkSupply (fresh_incarnation s) counter).

Section Sessions.
Context `{Ch : Chrono, FD : FloatDecode}.

Record SessionMeasurement := MkMeasurement { x_form : GhostXForm; m_timestamp : Duration }.

Definition SessionMeasurement_default : SessionMeasurement :=
  MkMeasurement GhostXForm_default Duration_zero.

Record SessionKey := MkKey { key_session_id : SessionId; key_incarnation : Z }.

Record Session := MkSession {
  incarnation : Z;
  edit_revision : option Z;
  session_id : SessionId;
  timeline : Timeline;
  measurement : SessionMeasurement
}.

Definition SessionKey_matches (k : SessionKey) (s : Session) : bool :=
  bool_decide (key_session_id k = session_id s) && (key_incarnation k =? incarnation s).

Definition Session_matches (a b : Session) : bool :=
  bool_decide (session_id a = session_id b) && (incarnation a =? incarnation b).

Definition invalidate_edit_origin (s : Session) (sup : Supply) : Session * Supply :=
  let '(r, sup) := new_edit_revision sup in
  (MkSession (incarnation s) r (session_id s) (timeline s) (measurement s), sup).

Definition set_timeline (s : Session) (tl : Timeline) (sup : Supply) : Session * Supply :=
  if negb (Timeline_eqb (timeline s) tl) then
    let '(s, sup) := invalidate_edit_origin s sup in
    (MkSession (incarnation s) (edit_revision s) (session_id s) tl (measurement s), sup)
  else (s, sup).

Definition with_measurement (s : Session) (m : SessionMeasurement) : Session :=
  MkSession (incarnation s) (edit_revision s) (session_id s) (timeline s) m.

Record SessionEditOrigin := MkOrigin {
  origin_session_id : SessionId;
  origin_revision : Z;
  origin_timeline : Timeline;
  origin_mapping : GhostXForm
}.

Definition edit_origin (s : Session) : option SessionEditOrigin :=
  let! r := edit_revision s in
  Some (MkOrigin (session_id s) r (timeline s) (x_form (measurement s))).

Definition origin_matches (o : SessionEditOrigin) (s : Session) : bool :=
  bool_decide (origin_session_id o = session_id s) &&
  bool_decide (Some (origin_revision o) = edit_revision s) &&
  Timeline_eqb (origin_timeline o) (timeline s) &&
  GhostXForm_eqb (origin_mapping o) (x_form (measurement s)).

Definition Session_key (s : Session) : SessionKey := MkKey (session_id s) (incarnation s).

Definition Session_new (id : SessionId) (tl : Timeline) (m : SessionMeasurement) (sup : Supply)
  : Session * Supply :=
  let '(i, sup) := Arc_new sup in
  let '(r, sup) := new_edit_revision sup in
  (MkSession i r id tl m, sup).

(** [discovery::peers::ControllerPeer]. *)
Record ControllerPeer := MkPeer { peer_state : PeerState }.

Definition peer_session_id (p : ControllerPeer) : SessionId :=
  node_session_id (peer_node_state (peer_state p)).
Definition peer_ident (p : ControllerPeer) : NodeId := ident (peer_node_state (peer_state p)).

(** The events of the measurement channel. *)
Inductive MeasurePeerEvent :=
| MPeerState (k : SessionKey) (p : PeerState)
| MXForm (k : SessionKey) (x : GhostXForm)
| MCancelled (k : SessionKey) (peer : NodeId).

Record Registry := MkRegistry {
  current : Session;
  other_sessions : list Session;
  peers : list ControllerPeer;
  has_joined : bool;
  supply : Supply;
  requests : list MeasurePeerEvent;
  joins : list Session
}.

(** ** Choosing a peer to measure *)

Definition is_some {A} (o : option A) : bool := match o with Some _ => true | None => false end.

(** The sort key: the founder of the session first, then by identity. *)
Definition measurement_leb (session : SessionId) (a b : ControllerPeer) : bool :=
  let ka := negb (bool_decide (peer_ident a = session_node session)) in
  let kb := negb (bool_decide (peer_ident b = session_node session)) in
  if Bool.eqb ka kb then negb (NodeId_ltb (peer_ident b) (peer_ident a)) else negb ka.

Fixpoint position {A} (f : A -> bool) (l : list A) : option nat :=
  match l with
  | [] => None
  | x :: l => if f x then Some O else option_map S (position f l)
  end.

Definition eligible_peers (ps : list ControllerPeer) (session : SessionId) : list ControllerPeer :=
  let eligible := List.filter (fun p => bool_decide (peer_session_id p = session)) ps in
  let measurable p := is_some (measurement_endpoint (peer_state p)) in
  let eligible := if existsb measurable eligible then List.filter measurable eligible else eligible in
  sort_by (measurement_leb session) eligible.

Definition measurement_peer (ps : list ControllerPeer) (session : SessionId) (after : option NodeId)
  : option ControllerPeer :=
  let eligible := eligible_peers ps session in
  let index :=
    match (let! previous := after in
           position (fun p => bool_decide (peer_ident p = previous)) eligible) with
    | Some index => ((index + 1) mod length eligible)%nat
    | None => O
    end in
  eligible !! index.

Definition session_peers (ps : list ControllerPeer) (id : SessionId) : list ControllerPeer :=
  sort_by (fun a b => negb (NodeId_ltb (peer_ident b) (peer_ident a)))
    (List.filter (fun p => bool_decide (peer_session_id p = id)) ps).

(** ** Critical sections *)

Definition update_timeline (s : Session) (tl : Timeline) (sup : Supply) : Session * Supply :=
  let tl := clamp_tempo tl in
  if Beats_value (beat_origin (timeline s)) <? Beats_value (beat_origin tl)
  then set_timeline s tl sup else (s, sup).

(** [iter_mut().find(p)] and an update of what it finds. *)
Fixpoint update_first {A S : Type} (p : A -> bool) (f : A -> S -> A * S) (l : list A) (s : S)
  : option (list A * S) :=
  match l with
  | [] => None
  | x :: l =>
      if p x then let '(x, s) := f x s in Some (x :: l, s)
      else let! (l, s) := update_first p f l s in Some (x :: l, s)
  end.

Definition Sessions_reset_session (g : Registry) (session : Session) : Registry :=
  let '(i, sup) := Arc_new (supply g) in
  let session := MkSession i (edit_revision session) (session_id session) (timeline session)
                           (measurement session) in
  let '(session, sup) := set_timeline session (clamp_tempo (timeline session)) sup in
  let '(session, sup) := invalidate_edit_origin session sup in
  MkRegistry session [] (peers g) (has_joined g) sup (requests g) (joins g).

(** [for session in others.iter_mut().filter(..)]. *)
Fixpoint update_all {A S : Type} (p : A -> bool) (f : A -> S -> A * S) (l : list A) (s : S)
  : list A * S :=
  match l with
  | [] => ([], s)
  | x :: l =>
      let '(x, s) := if p x then f x s else (x, s) in
      let '(l, s) := update_all p f l s in (x :: l, s)
  end.

Definition reset_timeline (g : Registry) (origin : SessionKey) (mapping : GhostXForm) (tl : Timeline)
  : bool * Registry :=
  let tl := clamp_tempo tl in
  if negb (SessionKey_matches origin (current g)) ||
     negb (GhostXForm_eqb (x_form (measurement (current g))) mapping)
  then (false, g)
  else
    let '(cur, sup) := set_timeline (current g) tl (supply g) in
    let '(others, sup) :=
      update_all (SessionKey_matches origin) (fun s => set_timeline s tl) (other_sessions g) sup in
    (true, MkRegistry cur others (peers g) (has_joined g) sup (requests g) (joins g)).

Inductive Sighting := NeedsCapacity | Complete (tl : Timeline).

(** [try_sighting], once its locks are taken; [slot] says whether a permit of
    the measurement channel is at hand. *)
Definition try_sighting (g : Registry) (id : SessionId) (tl : Timeline) (slot : bool)
  : Sighting * Registry :=
  let tl := clamp_tempo tl in
  if bool_decide (session_id (current g) = id) then
    let '(cur, sup) := update_timeline (current g) tl (supply g) in
    (Complete (timeline cur),
     MkRegistry cur (other_sessions g) (peers g) true sup (requests g) (joins g))
  else
    match update_first (fun s => bool_decide (session_id s = id)) (fun s => update_timeline s tl)
            (other_sessions g) (supply g) with
    | Some (others, sup) =>
        (Complete (timeline (current g)),
         MkRegistry (current g) others (peers g) (has_joined g) sup (requests g) (joins g))
    | None =>
        if negb slot then (NeedsCapacity, g)
        else
          match measurement_peer (peers g) id None with
          | Some peer =>
              let '(s, sup) := Session_new id tl SessionMeasurement_default (supply g) in
              (Complete (timeline (current g)),
               MkRegistry (current g) (other_sessions g ++ [s]) (peers g) (has_joined g) sup
                 (requests g ++ [MPeerState (Session_key s) (peer_state peer)]) (joins g))
          | None => (Complete (timeline (current g)), g)
          end
    end.

Inductive Admission := Sent | Absent | Retired.

(** [admit_owned_request], once a permit is reserved. *)
Definition admit_owned_request (g : Registry) (k : SessionKey) (after : option NodeId)
  : Admission * Registry :=
  let is_current := SessionKey_matches k (current g) in
  if negb is_current && negb (existsb (SessionKey_matches k) (other_sessions g)) then (Retired, g)
  else
    match measurement_peer (peers g) (key_session_id k) after with
    | Some peer =>
        (Sent, MkRegistry (current g) (other_sessions g) (peers g) (has_joined g) (supply g)
                 (requests g ++ [MPeerState k (peer_state peer)]) (joins g))
    | None =>
        if is_current then (Absent, g)
        else (Retired,
              MkRegistry (current g)
                (List.filter (fun s => negb (SessionKey_matches k s)) (other_sessions g))
                (peers g) (has_joined g) (supply g) (requests g) (joins g))
    end.

Definition SESSION_EPS_NANOS : Z := 500000000.

Definition measurement_wins (cur : Session) (candidate : SessionId) (m : SessionMeasurement)
    (host_time : Duration) : bool :=
  let diff := duration_nanos (host_to_ghost (x_form m) host_time) -
              duration_nanos (host_to_ghost (x_form (measurement cur)) host_time) in
  (SESSION_EPS_NANOS <? diff) ||
  ((Z.abs diff <? SESSION_EPS_NANOS) && SessionId_ltb candidate (session_id cur)).

(** The first section of [handle_successful_measurement_inner]: [Some true]
    when the key is the current session, [Some false] when its candidate
    wins, [None] when nothing is to be joined.  [now] is the time
    [measurement_wins] is asked about. *)
Definition measurement_decide (g : Registry) (k : SessionKey) (m : SessionMeasurement) (now : Duration)
  : option bool * Registry :=
  if SessionKey_matches k (current g) then (Some true, g)
  else
    match List.find (SessionKey_matches k) (other_sessions g) with
    | None => (None, g)
    | Some candidate =>
        if Duration_ltb (m_timestamp m) (m_timestamp (measurement candidate)) then (None, g)
        else if negb (measurement_wins (current g) (key_session_id k) m now) then
          match update_first (SessionKey_matches k) (fun s u => (with_measurement s m, u))
                  (other_sessions g) tt with
          | Some (others, _) =>
              (None, MkRegistry (current g) others (peers g) (has_joined g) (supply g)
                       (requests g) (joins g))
          | None => (None, g)
          end
        else (Some false, g)
    end.

(** Its second section, once a permit of the join channel is reserved. *)
Definition measurement_commit (g : Registry) (k : SessionKey) (m : SessionMeasurement)
    (now : Duration) (was_current : bool) : option Session * Registry :=
  if was_current && negb (SessionKey_matches k (current g)) then (None, g)
  else if SessionKey_matches k (current g) then
    if Duration_ltb (m_timestamp m) (m_timestamp (measurement (current g))) then (None, g)
    else
      let '(cur, sup) :=
        if negb (GhostXForm_eqb (x_form (measurement (current g))) (x_form m))
        then invalidate_edit_origin (current g) (supply g) else (current g, supply g) in
      let cur := with_measurement cur m in
      (Some cur, MkRegistry cur (other_sessions g) (peers g) (has_joined g) sup (requests g)
                   (joins g ++ [cur]))
  else
    match List.find (SessionKey_matches k) (other_sessions g) with
    | None => (None, g)
    | Some candidate =>
        if Duration_ltb (m_timestamp m) (m_timestamp (measurement candidate)) then (None, g)
        else
          let candidate := with_measurement candidate m in
          let put c :=
            match update_first (SessionKey_matches k) (fun _ u => (c, u)) (other_sessions g) tt with
            | Some (others, _) => others
            | None => other_sessions g
            end in
          if measurement_wins (current g) (key_session_id k) m now then
            let '(winner, sup) := invalidate_edit_origin candidate (supply g) in
            (Some winner, MkRegistry winner (put (current g)) (peers g) (has_joined g) sup (requests g)
                            (joins g ++ [winner]))
          else (None, MkRegistry (current g) (put candidate) (peers g) (has_joined g) (supply g)
                        (requests g) (joins g))
    end.

Definition handle_failed_measurement_inner (g : Registry) (k : SessionKey) : option Session * Registry :=
  if SessionKey_matches k (current g) then (Some (current g), g)
  else if existsb (SessionKey_matches k) (other_sessions g) then
    let others := List.filter (fun s => negb (SessionKey_matches k s)) (other_sessions g) in
    let ps :=
      if negb (bool_decide (session_id (current g) = key_session_id k)) &&
         negb (existsb (fun s => bool_decide (session_id s = key_session_id k)) others)
      then List.filter (fun p => negb (bool_decide (peer_session_id p = key_session_id k))) (peers g)
      else peers g in
    (None, MkRegistry (current g) others ps (has_joined g) (supply g) (requests g) (joins g))
  else (None, g).

(** The section a cancelled measurement runs: which session to retry. *)
Definition cancelled_session (g : Registry) (k : SessionKey) : option Session :=
  if SessionKey_matches k (current g) then Some (current g)
  else List.find (SessionKey_matches k) (other_sessions g).

(** [launch_session_measurement], once a permit is reserved. *)
Definition launch_session_measurement (g : Registry) (s : Session) : Registry :=
  match measurement_peer (peers g) (session_id s) None with
  | Some peer =>
      MkRegistry (current g) (other_sessions g) (peers g) (has_joined g) (supply g)
        (requests g ++ [MPeerState (Session_key s) (peer_state peer)]) (joins g)
  | None => g
  end.

(** [retain_live_sessions] of src/src/discovery/peers.rs. *)
Definition retain_live_sessions (cur : Session) (others : list Session) (live : list SessionId)
  : list Session :=
  List.filter (fun s => SessionKey_matches (Session_key s) cur || bool_decide (session_id s ∈ live)) others.

(** What [with_observer_state] leaves after its action on the peers. *)
Definition observe_peers (g : Registry) (ps : list ControllerPeer) : Registry :=
  MkRegistry (current g) (retain_live_sessions (current g) (other_sessions g) (map peer_session_id ps))
    ps (has_joined g) (supply g) (requests g) (joins g).

(** [Sessions::with_dispatch_gate]: the initial registry lists the first
    session among the candidates too. *)
Definition Sessions_init (init : Session) (ps : list ControllerPeer) (sup : Supply) : Registry :=
  MkRegistry init [init] ps false sup [] [].

(** Any critical section may run next. *)
Inductive sessions_step : Registry -> Registry -> Prop :=
| step_reset g s : sessions_step g (Sessions_reset_session g s)
| step_reset_timeline g k x tl : sessions_step g (snd (reset_timeline g k x tl))
| step_sighting g id tl slot : sessions_step g (snd (try_sighting g id tl slot))
| step_admit g k after : sessions_step g (snd (admit_owned_request g k after))
| step_decide g k m now : sessions_step g (snd (measurement_decide g k m now))
| step_commit g k m now was : sessions_step g (snd (measurement_commit g k m now was))
| step_failed g k : sessions_step g (snd (handle_failed_measurement_inner g k))
| step_launch g s : sessions_step g (launch_session_measurement g s)
| step_observe g ps : sessions_step g (observe_peers g ps).

End Sessions.

(** ** Revision tokens are never reused *)

Section SessionProperties.
Context `{Ch : Chrono, FD : FloatDecode}.

Definition revision_below (c : Z) (s : Session) : Prop :=
  forall r, edit_revision s = Some r -> r < c.

(** [s'] is [s] as far as a captured edit is concerned. *)
Definition same_edit (s s' : Session) : Prop :=
  edit_revision s' = edit_revision s /\ timeline s' = timeline s /\
  incarnation s' = incarnation s /\ session_id s' = session_id s.

(** [s'] carries a token the counter handed out on the way from [c] to [c']. *)
Definition fresh_edit (c c' : Z) (s' : Session) : Prop :=
  forall r, edit_revision s' = Some r -> c <= r < c'.

Definition edit_kept (c c' : Z) (s s' : Session) : Prop :=
  c <= c' /\ (same_edit s s' \/ fresh_edit c c' s').

Lemma new_edit_revision_spec sup r sup' :
  new_edit_revision sup = (r, sup') ->
  fresh_incarnation sup' = fresh_incarnation sup /\ edit_counter sup <= edit_counter sup' /\
  (forall x, r = Some x -> edit_counter sup <= x < edit_counter sup').
Proof.
  unfold new_edit_revision, allocate_edit_revision, NonZeroU64_new.
  destruct (_ <? _); [intros [= <- <-]; simpl; intuition (lia || discriminate)|].
  destruct (_ =? _); intros [= <- <-]; simpl; (split; [reflexivity|]); (split; [lia|]);
    intros x [=]; lia.
Qed.

Lemma same_edit_kept c s : edit_kept c c s s.
Proof. split; [lia|left; repeat split]. Qed.

Lemma fresh_edit_mono c0 c c' c1 s : c0 <= c -> c' <= c1 -> fresh_edit c c' s -> fresh_edit c0 c1 s.
Proof. intros H1 H2 F r Hr. specialize (F r Hr). lia. Qed.

Lemma edit_kept_below c c' s s' : edit_kept c c' s s' -> revision_below c s -> revision_below c' s'.
Proof.
  intros [L [(E & _) | F]] B r Hr; [|now apply F]. rewrite E in Hr. specialize (B r Hr). lia.
Qed.

Lemma invalidate_fresh s sup s' sup' :
  invalidate_edit_origin s sup = (s', sup') ->
  edit_counter sup <= edit_counter sup' /\ fresh_edit (edit_counter sup) (edit_counter sup') s' /\
  incarnation s' = incarnation s /\ timeline s' = timeline s /\ measurement s' = measurement s /\
  session_id s' = session_id s /\ fresh_incarnation sup' = fresh_incarnation sup.
Proof.
  unfold invalidate_edit_origin. destruct (new_edit_revision sup) as [r sup1] eqn:E. intros [= <- <-].
  destruct (new_edit_revision_spec _ _ _ E) as (I & L & B). repeat split; auto; now apply B.
Qed.

Lemma set_timeline_kept s tl sup s' sup' :
  set_timeline s tl sup = (s', sup') -> edit_kept (edit_counter sup) (edit_counter sup') s s'.
Proof.
  unfold set_timeline. destruct (negb _); [|intros [= <- <-]; apply same_edit_kept].
  destruct (invalidate_edit_origin s sup) as [s1 sup1] eqn:E. intros [= <- <-].
  apply invalidate_fresh in E as (L & F & _). split; [assumption|right; exact F].
Qed.

Lemma update_timeline_kept s tl sup s' sup' :
  update_timeline s tl sup = (s', sup') -> edit_kept (edit_counter sup) (edit_counter sup') s s'.
Proof.
  unfold update_timeline. destruct (_ <? _); [apply set_timeline_kept|].
  intros [= <- <-]. apply same_edit_kept.
Qed.

Lemma update_first_counter {A} (p : A -> bool) f l sup l' sup' :
  (forall x s x' s', f x s = (x', s') -> edit_counter s <= edit_counter s') ->
  update_first p f l sup = Some (l', sup') -> edit_counter sup <= edit_counter sup'.
Proof.
  intros Hf. revert l'. induction l as [|x l IH]; intros l'; cbn [update_first]; [discriminate|].
  destruct (p x).
  - destruct (f x sup) as [x' s1] eqn:E. intros [= <- <-]. eapply Hf, E.
  - destruct (update_first p f l sup) as [[l1 s1]|]; [|discriminate]. intros [= <- <-]. eauto.
Qed.

Lemma update_all_counter {A} (p : A -> bool) f l sup l' sup' :
  (forall x s x' s', f x s = (x', s') -> edit_counter s <= edit_counter s') ->
  update_all p f l sup = (l', sup') -> edit_counter sup <= edit_counter sup'.
Proof.
  intros Hf. revert sup l'. induction l as [|x l IH]; intros sup l'; cbn [update_all]; [intros [= <- <-]; lia|].
  destruct (if p x then f x sup else (x, sup)) as [x1 s1] eqn:E.
  destruct (update_all p f l s1) as [l2 s2] eqn:E2. intros [= <- <-].
  apply IH in E2. destruct (p x); [apply Hf in E; lia|injection E as <- <-; lia].
Qed.

Definition registry_kept (g g' : Registry) : Prop :=
  edit_kept (edit_counter (supply g)) (edit_counter (supply g')) (current g) (current g').

(** Every critical section keeps the current session's token together with
    its timeline and incarnation, or replaces it by an unused one. *)
Lemma sessions_step_kept g g' : sessions_step g g' -> registry_kept g g'.
Proof.
  unfold registry_kept. intros St. destruct St; cbn [snd].
  - unfold Sessions_reset_session. cbn [Arc_new].
    destruct (set_timeline _ _ _) as [s1 sup1] eqn:E1.
    destruct (invalidate_edit_origin s1 sup1) as [s2 sup2] eqn:E2. cbn [current supply].
    apply set_timeline_kept in E1 as (L1 & _). cbn [edit_counter] in L1.
    apply invalidate_fresh in E2 as (L2 & F2 & _). split; [lia|right].
    eapply fresh_edit_mono; [| |exact F2]; lia.
  - unfold reset_timeline. destruct (_ || _); [apply same_edit_kept|].
    destruct (set_timeline _ _ _) as [cur sup] eqn:E1. apply set_timeline_kept in E1 as (L1 & K1).
    destruct (update_all _ _ _ _) as [others sup2] eqn:E2. cbn [snd current supply].
    apply update_all_counter in E2; [|intros y t y' t' E; now apply set_timeline_kept in E as (? & _)].
    split; [lia|]. destruct K1 as [K|K]; [now left|right]. eapply fresh_edit_mono; [| |exact K]; lia.
  - unfold try_sighting. case_bool_decide.
    + destruct (update_timeline _ _ _) as [cur sup] eqn:E. now apply update_timeline_kept in E.
    + destruct (update_first _ _ _ _) as [[others sup]|] eqn:E.
      * apply update_first_counter in E; [|intros y t y' t' U; now apply update_timeline_kept in U as (? & _)].
        split; [exact E|left; repeat split].
      * destruct slot; cbn [negb]; [|apply same_edit_kept].
        destruct (measurement_peer _ _ _) as [p|]; [|apply same_edit_kept].
        unfold Session_new. cbn [Arc_new]. destruct (new_edit_revision _) as [r sup] eqn:E1. cbn [snd current supply].
        apply new_edit_revision_spec in E1 as (_ & L & _). split; [exact L|left; repeat split].
  - unfold admit_owned_request. destruct (_ && _); [apply same_edit_kept|].
    destruct (measurement_peer _ _ _); [apply same_edit_kept|].
    destruct (SessionKey_matches _ _); apply same_edit_kept.
  - unfold measurement_decide. destruct (SessionKey_matches _ _); [apply same_edit_kept|].
    destruct (List.find _ _) as [c|]; [|apply same_edit_kept].
    destruct (Duration_ltb _ _); [apply same_edit_kept|]. destruct (negb _); [|apply same_edit_kept].
    destruct (update_first _ _ _ _) as [[others u]|]; apply same_edit_kept.
  - unfold measurement_commit. destruct (_ && _); [apply same_edit_kept|].
    destruct (SessionKey_matches _ _).
    + destruct (Duration_ltb _ _); [apply same_edit_kept|]. destruct (negb _).
      * destruct (invalidate_edit_origin _ _) as [cur sup] eqn:E. cbn [snd current supply].
        apply invalidate_fresh in E as (L & F & _). split; [exact L|right; exact F].
      * split; [cbn; lia|left; repeat split].
    + destruct (List.find _ _) as [c|]; [|apply same_edit_kept].
      destruct (Duration_ltb _ _); [apply same_edit_kept|].
      destruct (measurement_wins _ _ _ _); [|apply same_edit_kept].
      destruct (invalidate_edit_origin _ _) as [win sup] eqn:E. cbn [snd current supply].
      apply invalidate_fresh in E as (L & F & _). split; [exact L|right; exact F].
  - unfold handle_failed_measurement_inner. destruct (SessionKey_matches _ _); [apply same_edit_kept|].
    destruct (existsb _ _); apply same_edit_kept.
  - unfold launch_session_measurement. destruct (measurement_peer _ _ _); apply same_edit_kept.
  - apply same_edit_kept.
Qed.

Lemma sessions_steps_kept g g' : rtc sessions_step g g' -> registry_kept g g'.
Proof.
  induction 1 as [g|g g1 g2 S1 _ IH]; [apply same_edit_kept|].
  apply sessions_step_kept in S1 as [L1 K1]. destruct IH as [L2 K2]. split; [lia|].
  destruct K2 as [K2|K2]; [|right; eapply fresh_edit_mono; [| |exact K2]; lia].
  destruct K1 as [K1|K1]; [left|right].
  - unfold same_edit in *. intuition congruence.
  - destruct K2 as (E & _). intros r Hr. rewrite E in Hr. specialize (K1 r Hr). lia.
Qed.

(** An edit captured from the current session is accepted later only if the
    session is still the same incarnation with the same timeline: whatever
    critical sections have run in between, including a switch to another
    session and back, a change retires the captured revision for good. *)
Theorem captured_edit_is_current g g' o :
  revision_below (edit_counter (supply g)) (current g) ->
  edit_origin (current g) = Some o -> rtc sessions_step g g' ->
  origin_matches o (current g') = true ->
  incarnation (current g') = incarnation (current g) /\ timeline (current g') = timeline (current g) /\
  session_id (current g') = session_id (current g).
Proof.
  intros B O S M. unfold edit_origin in O. destruct (edit_revision (current g)) as [r|] eqn:R; [|discriminate].
  injection O as <-. apply sessions_steps_kept in S as [L [K|K]]; [unfold same_edit in K; tauto|].
  unfold origin_matches in M. cbn [origin_revision] in M. apply andb_prop in M as [M _].
  apply andb_prop in M as [M _]. apply andb_prop in M as [_ M]. apply bool_decide_eq_true in M.
  specialize (K r (eq_sym M)). specialize (B r R). lia.
Qed.

(** The hypothesis of the theorem is an invariant. *)
Lemma revision_below_steps g g' :
  revision_below (edit_counter (supply g)) (current g) -> rtc sessions_step g g' ->
  revision_below (edit_counter (supply g')) (current g').
Proof. intros B S. eapply edit_kept_below; [exact (sessions_steps_kept _ _ S)|exact B]. Qed.

(** ** Choosing between sessions *)

Lemma NodeId_ltb_asym a b : NodeId_ltb a b = true -> NodeId_ltb b a = false.
Proof.
  revert b. induction a as [|x a IH]; intros [|y b]; simpl; try easy.
  rewrite orb_true_iff, andb_true_iff, Z.ltb_lt, Z.eqb_eq. intros [L|[-> L]].
  - destruct (Z.ltb_spec y x), (Z.eqb_spec y x); (lia || reflexivity).
  - rewrite Z.ltb_irrefl, Z.eqb_refl. simpl. auto.
Qed.

(** Two sessions measured against the same host time never both win over
    each other, so nodes do not switch back and forth between them. *)
Theorem measurement_wins_asymmetric a b host_time :
  measurement_wins a (session_id b) (measurement b) host_time = true ->
  measurement_wins b (session_id a) (measurement a) host_time = false.
Proof.
  unfold measurement_wins, SESSION_EPS_NANOS, SessionId_ltb.
  set (ga := duration_nanos (host_to_ghost (x_form (measurement a)) host_time)).
  set (gb := duration_nanos (host_to_ghost (x_form (measurement b)) host_time)).
  rewrite orb_true_iff, andb_true_iff, Z.ltb_lt, Z.ltb_lt. intros W. apply orb_false_iff.
  split; [apply Z.ltb_ge; lia|]. apply andb_false_iff.
  destruct W as [W|[W1 W2]]; [left; apply Z.ltb_ge; lia|right; now apply NodeId_ltb_asym].
Qed.

Lemma set_timeline_result s tl sup :
  timeline (fst (set_timeline s tl sup)) = (if Timeline_eqb (timeline s) tl then timeline s else tl) /\
  incarnation (fst (set_timeline s tl sup)) = incarnation s.
Proof.
  unfold set_timeline. destruct (Timeline_eqb _ _); cbn [negb]; [now split|].
  destruct (invalidate_edit_origin s sup) as [s1 sup1] eqn:E. apply invalidate_fresh in E. now simpl.
Qed.

(** A timeline received for the current session is adopted exactly when its
    beat origin is later than the one held, tempo clamped; the incarnation is
    kept, and the beat origin never moves backwards. *)
Theorem sighting_adopts_later_origin g id tl slot :
  session_id (current g) = id ->
  let '(r, g') := try_sighting g id tl slot in
  incarnation (current g') = incarnation (current g) /\ has_joined g' = true /\
  r = Complete (timeline (current g')) /\
  timeline (current g') =
    (if (Beats_value (beat_origin (timeline (current g))) <? Beats_value (beat_origin tl)) &&
        negb (Timeline_eqb (timeline (current g)) (clamp_tempo (clamp_tempo tl)))
     then clamp_tempo (clamp_tempo tl) else timeline (current g)) /\
  Beats_value (beat_origin (timeline (current g))) <= Beats_value (beat_origin (timeline (current g'))).
Proof.
  intros E. unfold try_sighting. rewrite bool_decide_true by assumption. unfold update_timeline.
  set (T := clamp_tempo (clamp_tempo tl)).
  assert (beat_origin T = beat_origin tl) as -> by reflexivity.
  destruct (Z.ltb_spec (Beats_value (beat_origin (timeline (current g)))) (Beats_value (beat_origin tl))).
  - pose proof (set_timeline_result (current g) T (supply g)) as [S1 S2].
    destruct (set_timeline _ _ _) as [cur sup]. cbn [fst current has_joined andb] in *.
    rewrite S1, S2. destruct (Timeline_eqb _ _); cbn [negb]; repeat split; try lia.
    change (beat_origin T) with (beat_origin tl). lia.
  - cbn. repeat split. lia.
Qed.

(** ** No session is lost when a measurement is committed *)

Lemma update_first_find {A S} (p : A -> bool) (f : A -> S -> A * S) l s x :
  List.find p l = Some x ->
  exists l1 l2, l = l1 ++ x :: l2 /\ p x = true /\
    update_first p f l s = Some (l1 ++ fst (f x s) :: l2, snd (f x s)).
Proof.
  induction l as [|y l IH]; cbn [List.find update_first]; [discriminate|]. destruct (p y) eqn:P.
  - intros [= ->]. exists [], l. destruct (f x s). auto.
  - intros F. destruct (IH F) as (l1 & l2 & -> & Px & ->). exists (y :: l1), l2. auto.
Qed.

(** Committing a successful measurement never loses or invents a session:
    the incarnations held, the current one included, are a permutation of
    those before, and a session announced to the client is the current one. *)
Theorem measurement_commit_conserves g k m now was :
  let '(r, g') := measurement_commit g k m now was in
  map incarnation (current g' :: other_sessions g') ≡ₚ map incarnation (current g :: other_sessions g) /\
  (forall s, r = Some s -> current g' = s /\ joins g' = joins g ++ [s] /\
     measurement s = m /\ SessionKey_matches k s = true) /\
  (r = None -> joins g' = joins g /\ current g' = current g).
Proof.
  unfold measurement_commit. destruct (_ && _); [repeat split; easy|].
  destruct (SessionKey_matches k (current g)) eqn:K.
  - destruct (Duration_ltb _ _); [repeat split; easy|].
    destruct (if negb _ then _ else _) as [cur sup] eqn:E.
    assert (incarnation cur = incarnation (current g) /\ session_id cur = session_id (current g)) as [I1 I2].
    { destruct (negb _); [|now injection E as <- <-].
      apply invalidate_fresh in E. tauto. }
    cbn [current other_sessions joins map with_measurement incarnation]. rewrite I1.
    split; [reflexivity|]. split; [|discriminate]. intros s [= <-]. repeat split.
    unfold SessionKey_matches in *. cbn. now rewrite I1, I2.
  - destruct (List.find _ _) as [c|] eqn:F; [|repeat split; easy].
    destruct (Duration_ltb _ _); [repeat split; easy|].
    destruct (measurement_wins _ _ _ _).
    + destruct (invalidate_edit_origin _ _) as [win sup] eqn:E. apply invalidate_fresh in E as (_ & _ & I & _ & M & D & _).
      destruct (update_first_find (SessionKey_matches k) (fun _ u => (current g, u)) _ tt _ F)
        as (l1 & l2 & -> & Px & ->). cbn [fst snd current other_sessions joins].
      split; [|split; [|discriminate]].
      * cbn [map]. rewrite !map_app. cbn [map]. rewrite I. cbn [with_measurement incarnation].
        rewrite <- !Permutation_middle. constructor.
      * intros s [= <-]. repeat split; [exact M|]. unfold SessionKey_matches in *. rewrite I, D. exact Px.
    + destruct (update_first_find (SessionKey_matches k) (fun _ u => (with_measurement c m, u)) _ tt _ F)
        as (l1 & l2 & -> & Px & ->). cbn [fst snd current other_sessions joins].
      split; [|split; [discriminate|auto]]. cbn [map]. now rewrite !map_app.
Qed.

(** ** The peer to measure *)

Lemma filter_Forall {A} (p : A -> bool) l : Forall (fun x => p x = true) (List.filter p l).
Proof. apply List.Forall_forall. intros x Hx. now apply List.filter_In in Hx. Qed.

Lemma eligible_peers_spec ps id p :
  p ∈ eligible_peers ps id -> p ∈ ps /\ peer_session_id p = id /\
  ((exists q, q ∈ ps /\ peer_session_id q = id /\ measurement_endpoint (peer_state q) <> None) ->
   measurement_endpoint (peer_state p) <> None).
Proof.
  unfold eligible_peers. rewrite sort_by_perm. set (e := List.filter _ ps).
  assert (forall q, q ∈ e <-> q ∈ ps /\ peer_session_id q = id) as He.
  { intros q. unfold e. rewrite !list_elem_of_In, List.filter_In, bool_decide_eq_true. reflexivity. }
  destruct (existsb _ e) eqn:X.
  - rewrite list_elem_of_In, List.filter_In, <- list_elem_of_In. intros [H1 H2]. apply He in H1 as [H3 H4].
    repeat split; try assumption. intros _. now destruct (measurement_endpoint (peer_state p)).
  - intros Hp. destruct (proj1 (He p) Hp) as [H3 H4]. repeat split; try assumption.
    intros (q & Q1 & Q2 & Q3) _. rewrite <- not_true_iff_false in X. apply X, existsb_exists.
    exists q. split; [apply list_elem_of_In, He; auto|]. now destruct (measurement_endpoint (peer_state q)).
Qed.

(** The peer chosen for a measurement belongs to the session, is one with a
    measurement endpoint if the session has any, and one is chosen whenever
    the session has a peer at all. *)
Theorem measurement_peer_sound ps id after :
  match measurement_peer ps id after with
  | Some p => p ∈ ps /\ peer_session_id p = id /\
      ((exists q, q ∈ ps /\ peer_session_id q = id /\ measurement_endpoint (peer_state q) <> None) ->
       measurement_endpoint (peer_state p) <> None)
  | None => forall q, q ∈ ps -> peer_session_id q <> id
  end.
Proof.
  unfold measurement_peer. destruct (_ !! _) as [p|] eqn:L.
  - apply eligible_peers_spec. eapply list_elem_of_lookup_2, L.
  - intros q Q1 Q2. assert (0 < length (eligible_peers ps id))%nat as N.
    { unfold eligible_peers. rewrite sort_by_length. set (e := List.filter _ ps).
      assert (q ∈ e) as He by (unfold e; rewrite list_elem_of_In, List.filter_In, <- list_elem_of_In;
        split; [assumption|now apply bool_decide_eq_true]).
      destruct (existsb _ e) eqn:X.
      - apply existsb_exists in X as (x & X1 & X2). destruct (List.filter _ e) eqn:Fe; [|simpl; lia].
        exfalso. assert (In x []) as []. rewrite <- Fe. now apply List.filter_In.
      - destruct e; [easy|simpl; lia]. }
    apply lookup_ge_None in L. destruct (let! previous := after in _) as [i|]; [|lia].
    pose proof (Nat.mod_upper_bound (i + 1) (length (eligible_peers ps id))). lia.
Qed.

End SessionProperties.

(** ** Every timeline held is clamped *)

Section ClampedRegistry.
Context `{Laws : ChronoLaws, FD : FloatDecode}.

Definition session_clamped (s : Session) : Prop := clamped (timeline s).

Definition registry_clamped (g : Registry) : Prop :=
  session_clamped (current g) /\ Forall session_clamped (other_sessions g).

Lemma update_first_Forall {A S} (P : A -> Prop) (p : A -> bool) f l (s : S) l' s' :
  (forall x s x' s', P x -> f x s = (x', s') -> P x') -> Forall P l ->
  update_first p f l s = Some (l', s') -> Forall P l'.
Proof.
  intros Hf. revert l' s'. induction l as [|x l IH]; intros l' s' Hl; cbn [update_first]; [discriminate|].
  inversion_clear Hl. destruct (p x).
  - destruct (f x s) as [x' s1] eqn:E. intros [= <- <-]. constructor; eauto.
  - destruct (update_first p f l s) as [[l1 s1]|]; [|discriminate]. intros [= <- <-]. constructor; eauto.
Qed.

Lemma update_all_Forall {A S} (P : A -> Prop) (p : A -> bool) f l (s : S) l' s' :
  (forall x s x' s', P x -> f x s = (x', s') -> P x') -> Forall P l ->
  update_all p f l s = (l', s') -> Forall P l'.
Proof.
  intros Hf. revert s l' s'. induction l as [|x l IH]; intros s l' s' Hl; cbn [update_all].
  { intros [= <- <-]. constructor. }
  inversion_clear Hl. destruct (if p x then f x s else (x, s)) as [x1 s1] eqn:E.
  destruct (update_all p f l s1) as [l2 s2] eqn:E2. intros [= <- <-]. constructor; [|eauto].
  destruct (p x); [eauto|now injection E as <- <-].
Qed.

Lemma Forall_kept {A} (P : A -> Prop) (f : A -> bool) l : Forall P l -> Forall P (List.filter f l).
Proof. induction 1; cbn; [constructor|]. destruct (f x); [constructor|]; auto. Qed.

Lemma set_timeline_fields s tl sup s' sup' :
  clamped tl -> set_timeline s tl sup = (s', sup') ->
  timeline s' = tl /\ session_id s' = session_id s /\ measurement s' = measurement s /\
  incarnation s' = incarnation s.
Proof.
  intros C. unfold set_timeline. destruct (Timeline_eqb _ _) eqn:E; cbn [negb].
  - intros [= <- <-]. repeat split. now apply Timeline_eqb_clamped.
  - destruct (invalidate_edit_origin s sup) as [s1 sup1] eqn:I. intros [= <- <-].
    apply invalidate_fresh in I as (_ & _ & I & _ & M & N & _). now repeat split.
Qed.

Lemma set_timeline_clamped s tl sup s' sup' :
  clamped tl -> set_timeline s tl sup = (s', sup') -> session_clamped s'.
Proof. intros C E. red. now rewrite (proj1 (set_timeline_fields _ _ _ _ _ C E)). Qed.

Lemma update_timeline_keeps_clamped s tl sup s' sup' :
  session_clamped s -> update_timeline s tl sup = (s', sup') -> session_clamped s'.
Proof.
  intros Cs. unfold update_timeline. destruct (_ <? _); [|now intros [= <- <-]].
  apply set_timeline_clamped, clamp_tempo_clamped.
Qed.

Lemma invalidate_keeps_clamped s sup s' sup' :
  session_clamped s -> invalidate_edit_origin s sup = (s', sup') -> session_clamped s'.
Proof. intros Cs E. apply invalidate_fresh in E as (_ & _ & _ & T & _). red. now rewrite T. Qed.

Lemma find_Forall {A} (P : A -> Prop) f l (x : A) : Forall P l -> List.find f l = Some x -> P x.
Proof. intros Fl E. apply find_some in E as [E _]. rewrite List.Forall_forall in Fl. auto. Qed.

Lemma measurement_commit_clamped g k m now was :
  registry_clamped g -> registry_clamped (snd (measurement_commit g k m now was)).
Proof.
  intros [C O]. unfold measurement_commit. destruct (_ && _); [now split|].
  destruct (SessionKey_matches _ _).
  - destruct (Duration_ltb _ _); [now split|]. destruct (negb _).
    + destruct (invalidate_edit_origin _ _) as [cur sup] eqn:E. split; [|exact O].
      exact (invalidate_keeps_clamped _ _ _ _ C E).
    + now split.
  - destruct (List.find _ _) as [c|] eqn:F; [|now split]. pose proof (find_Forall _ _ _ _ O F) as Cc.
    destruct (Duration_ltb _ _); [now split|]. cbv zeta. destruct (measurement_wins _ _ _ _).
    + destruct (invalidate_edit_origin _ _) as [win sup] eqn:E.
      apply invalidate_keeps_clamped in E; [|exact Cc]. split; [exact E|]. cbn [snd other_sessions].
      destruct (update_first _ _ _ _) as [[others u]|] eqn:U; [|exact O].
      eapply update_first_Forall, U; [|exact O]. now intros y t y' t' _ [= <- <-].
    + split; [exact C|]. cbn [snd other_sessions].
      destruct (update_first _ _ _ _) as [[others u]|] eqn:U; [|exact O].
      eapply update_first_Forall, U; [|exact O]. now intros y t y' t' _ [= <- <-].
Qed.

Lemma try_sighting_clamped g id tl slot :
  registry_clamped g -> registry_clamped (snd (try_sighting g id tl slot)).
Proof.
  intros [C O]. unfold try_sighting. case_bool_decide.
  - destruct (update_timeline _ _ _) as [cur sup] eqn:E. split; [|exact O].
    exact (update_timeline_keeps_clamped _ _ _ _ _ C E).
  - destruct (update_first _ _ _ _) as [[others sup]|] eqn:E.
    + split; [exact C|]. eapply update_first_Forall, E; [|exact O].
      intros y t y' t' Cy U. exact (update_timeline_keeps_clamped _ _ _ _ _ Cy U).
    + destruct slot; cbn [negb]; [|now split].
      destruct (measurement_peer _ _ _) as [p|]; [|now split].
      unfold Session_new. cbn [Arc_new]. destruct (new_edit_revision _) as [r sup]. split; [exact C|].
      apply Forall_app. split; [exact O|]. repeat constructor. apply clamp_tempo_clamped.
Qed.

Lemma sessions_step_clamped g g' : sessions_step g g' -> registry_clamped g -> registry_clamped g'.
Proof.
  intros St [C O]. destruct St; cbn [snd].
  - unfold Sessions_reset_session. cbn [Arc_new].
    destruct (set_timeline _ _ _) as [s1 sup1] eqn:E1.
    destruct (invalidate_edit_origin s1 sup1) as [s2 sup2] eqn:E2. split; [|constructor].
    eapply invalidate_keeps_clamped; [|exact E2].
    exact (set_timeline_clamped _ _ _ _ _ (clamp_tempo_clamped _) E1).
  - unfold reset_timeline. destruct (_ || _); [now split|].
    destruct (set_timeline _ _ _) as [cur sup] eqn:E1. destruct (update_all _ _ _ _) as [os sup2] eqn:E2.
    pose proof (clamp_tempo_clamped tl) as Ct. split.
    + exact (set_timeline_clamped _ _ _ _ _ Ct E1).
    + eapply update_all_Forall, E2; [|exact O].
      intros y t y' t' _ U. exact (set_timeline_clamped _ _ _ _ _ Ct U).
  - now apply try_sighting_clamped.
  - unfold admit_owned_request. destruct (_ && _); [now split|].
    destruct (measurement_peer _ _ _); [now split|].
    destruct (SessionKey_matches _ _); [now split|]. split; [exact C|now apply Forall_kept].
  - unfold measurement_decide. destruct (SessionKey_matches _ _); [now split|].
    destruct (List.find _ _) as [c|]; [|now split].
    destruct (Duration_ltb _ _); [now split|]. destruct (negb _); [|now split].
    destruct (update_first _ _ _ _) as [[os u]|] eqn:U; [|now split]. split; [exact C|].
    eapply update_first_Forall, U; [|exact O]. now intros y t y' t' Cy [= <- <-].
  - now apply measurement_commit_clamped.
  - unfold handle_failed_measurement_inner. destruct (SessionKey_matches _ _); [now split|].
    destruct (existsb _ _); [|now split]. split; [exact C|now apply Forall_kept].
  - unfold launch_session_measurement. destruct (measurement_peer _ _ _); now split.
  - split; [exact C|now apply Forall_kept].
Qed.

End ClampedRegistry.
