(* ===== verification/Peers.v ===== *)
(** The peer registry: src/src/discovery/peers.rs.

    Each observer action runs under the locks of the registry of
    src/src/link/sessions.rs and ends by retiring the candidate sessions that
    lost their last peer ([observe_peers] of Sessions.v).  Instants are
    integers; each reading of the clock is an argument. *)

From stdpp Require Import base list numbers strings relations.
From Stdlib Require Import ZArith Lia SpecFloat.
From S2P Require Import Prelude Chrono F64 Encoding Beats Tempo Timeline GhostXForm Entries Sessions.

Section Peers.
Context `{Ch : Chrono, FD : FloatDecode}.

Definition peer_timeline (p : PeerState) : Timeline := node_timeline (peer_node_state p).
Definition peer_start_stop (p : PeerState) : StartStopState := node_start_stop (peer_node_state p).
Definition state_ident (p : PeerState) : NodeId := ident (peer_node_state p).
Definition state_session_id (p : PeerState) : SessionId := node_session_id (peer_node_state p).

Inductive PeerStateChange :=
| ChSessionMembership
| ChSessionTimeline (id : SessionId) (tl : Timeline)
| ChSessionStartStopState (id : SessionId) (tl : Timeline) (s : StartStopState)
| ChPeerLeft
| ChAudioEndpoint (id : NodeId) (e : option SocketAddrV4).

(** The identities of the peers of a session, own node excepted, counted
    once each. *)
Definition count_session_peers (id : SessionId) (ps : list ControllerPeer) (self_node_id : NodeId) : nat :=
  length (remove_dups (map peer_ident
    (List.filter (fun p => bool_decide (peer_session_id p = id) &&
                           negb (bool_decide (peer_ident p = self_node_id))) ps))).

(** [deadline.is_some_and(|d| d <= now)]. *)
Definition expired (deadline : option Z) (now : Z) : bool :=
  match deadline with Some d => d <=? now | None => false end.

Definition apply_peer (state : PeerState) (ps : list ControllerPeer) (self_peer_state : PeerState)
    (deadline : option Z) (now : Z) : list PeerStateChange * list ControllerPeer :=
  if bool_decide (state_ident state = state_ident self_peer_state) then ([], ps)
  else
    let same_timeline p :=
      bool_decide (peer_session_id p = state_session_id state) &&
      Timeline_eqb (peer_timeline (peer_state p)) (peer_timeline state) in
    let timeline_changed := negb (existsb same_timeline ps) in
    let start_stop_changed :=
      negb (existsb (fun p => same_timeline p &&
              StartStopState_eqb (peer_start_stop (peer_state p)) (peer_start_stop state)) ps) in
    let previous := position (fun p => bool_decide (peer_ident p = state_ident state)) ps in
    let was_or (f : ControllerPeer -> bool) :=
      match (let! i := previous in ps !! i) with Some p => f p | None => true end in
    let membership_changed :=
      was_or (fun p => negb (bool_decide (peer_session_id p = state_session_id state))) in
    let audio_changed :=
      was_or (fun p => negb (bool_decide (audio_endpoint (peer_state p) = audio_endpoint state))) in
    let changes :=
      (if timeline_changed
       then [ChSessionTimeline (state_session_id state) (peer_timeline state)] else []) ++
      (if timeline_changed || start_stop_changed
       then [ChSessionStartStopState (state_session_id state) (peer_timeline state)
               (peer_start_stop state)] else []) ++
      (if membership_changed then [ChSessionMembership] else []) ++
      (if audio_changed then [ChAudioEndpoint (state_ident state) (audio_endpoint state)] else []) in
    if expired deadline now then ([], ps)
    else
      (changes, match previous with
                | Some i => <[i := MkPeer state]> ps
                | None => ps ++ [MkPeer state]
                end).

Definition remove_peer (node : NodeId) (ps : list ControllerPeer)
  : list PeerStateChange * list ControllerPeer :=
  let ps' := List.filter (fun p => negb (bool_decide (peer_ident p = node))) ps in
  if negb (length ps =? length ps')%nat then ([ChPeerLeft], ps') else ([], ps').

(** ** Observer actions *)

(** The registry, and the change lists sent to the controller. *)
Record Observer := MkObserver { registry : Registry; published : list (list PeerStateChange) }.

(** Runs an action on the peers under the registry's locks and sends its
    changes when there are any. *)
Definition with_observer_state (o : Observer)
    (action : list ControllerPeer -> list PeerStateChange * list ControllerPeer) : Observer :=
  let '(changes, ps) := action (peers (registry o)) in
  MkObserver (observe_peers (registry o) ps)
    (match changes with [] => published o | _ => published o ++ [changes] end).

Record PeerStateMessage := MkPeerMessage {
  msg_node_state : NodeState;
  msg_ttl : Z;
  msg_measurement_endpoint : option SocketAddrV4;
  msg_audio_endpoint : option SocketAddrV4
}.

(** The section [observed_peer] commits in, with the three readings of the
    clock it makes and whether its observation is still the current one
    ([true] for a standalone message). *)
Definition observed_peer (o : Observer) (m : PeerStateMessage) (self_state : PeerState)
    (deadline now1 now2 now3 : Z) (observation_current : bool) : Observer :=
  with_observer_state o (fun ps =>
    if (0 <? msg_ttl m) && (deadline <=? now1) then ([], ps)
    else if negb observation_current then ([], ps)
    else if (0 <? msg_ttl m) && (deadline <=? now2) then ([], ps)
    else if msg_ttl m =? 0 then remove_peer (ident (msg_node_state m)) ps
    else apply_peer (MkPeerState (msg_node_state m) (msg_measurement_endpoint m) (msg_audio_endpoint m))
           ps self_state (Some deadline) now3).

Definition saw_peer (o : Observer) (state self_state : PeerState) (now : Z) : Observer :=
  with_observer_state o (fun ps => apply_peer state ps self_state None now).

(** [peer_left], for [PeerLeft] and [PeerTimedOut] alike. *)
Definition peer_left (o : Observer) (node : NodeId) : Observer :=
  with_observer_state o (remove_peer node).

Definition set_session_timeline (o : Observer) (id : SessionId) (tl : Timeline) : Observer :=
  let set p :=
    if bool_decide (peer_session_id p = id) then
      let st := peer_state p in
      let n := peer_node_state st in
      MkPeer (MkPeerState (MkNodeState (node_id n) (node_session_id n) tl (node_start_stop n))
                (measurement_endpoint st) (audio_endpoint st))
    else p in
  let g := registry o in
  MkObserver (MkRegistry (current g) (other_sessions g) (map set (peers g)) (has_joined g) (supply g)
                (requests g) (joins g)) (published o).

Definition forget_session (o : Observer) (id : SessionId) : Observer :=
  with_observer_state o (fun ps =>
    ([], List.filter (fun p => negb (bool_decide (peer_session_id p = id))) ps)).

Definition reset_peers (o : Observer) : Observer := with_observer_state o (fun _ => ([], [])).

Inductive observer_step (self_state : PeerState) : Observer -> Observer -> Prop :=
| obs_observed o m deadline now1 now2 now3 cur :
    observer_step self_state o (observed_peer o m self_state deadline now1 now2 now3 cur)
| obs_saw o st now : observer_step self_state o (saw_peer o st self_state now)
| obs_left o node : observer_step self_state o (peer_left o node)
| obs_timeline o id tl : observer_step self_state o (set_session_timeline o id tl)
| obs_forget o id : observer_step self_state o (forget_session o id)
| obs_reset o : observer_step self_state o (reset_peers o).

End Peers.

(** ** The registry's invariant *)

Section PeerProperties.
Context `{Ch : Chrono, FD : FloatDecode}.

(** One entry per node, and none for the node itself. *)
Definition peers_ok (self : NodeId) (ps : list ControllerPeer) : Prop :=
  NoDup (map peer_ident ps) /\ self ∉ map peer_ident ps.

Lemma position_Some {A} (f : A -> bool) l i :
  position f l = Some i -> exists x, l !! i = Some x /\ f x = true.
Proof.
  revert i. induction l as [|y l IH]; intros i; simpl; [discriminate|]. destruct (f y) eqn:F.
  - intros [= <-]. eauto.
  - destruct (position f l) as [j|]; [|discriminate]. intros [= <-]. apply IH. reflexivity.
Qed.

Lemma position_None {A} (f : A -> bool) l x : position f l = None -> x ∈ l -> f x = false.
Proof.
  induction l as [|y l IH]; simpl; [easy|]. destruct (f y) eqn:F; [discriminate|].
  destruct (position f l); [discriminate|]. intros _ Hx. apply elem_of_cons in Hx as [->|]; auto.
Qed.

(** Replacing an element by one with the same image under [f]. *)
Lemma map_insert_same {A B} (f : A -> B) l i x y :
  l !! i = Some x -> f y = f x -> map f (<[i := y]> l) = map f l.
Proof.
  intros L E. rewrite (list_fmap_insert f). apply list_insert_id. rewrite list_lookup_fmap, L. simpl. now rewrite E.
Qed.

Lemma map_filter_sublist {A B} (f : A -> B) p l : sublist (map f (List.filter p l)) (map f l).
Proof. induction l as [|x l IH]; simpl; [constructor|]. destruct (p x); now constructor. Qed.

Lemma peers_ok_filter self p ps : peers_ok self ps -> peers_ok self (List.filter p ps).
Proof.
  intros [N S]. assert (sublist (map peer_ident (List.filter p ps)) (map peer_ident ps)) as L
    by apply map_filter_sublist.
  split; [eapply sublist_NoDup; eauto|]. intros H. apply S. eapply elem_of_sublist; eauto.
Qed.

(** What [apply_peer] leaves. *)
Lemma apply_peer_peers state ps self deadline now :
  state_ident state <> state_ident self -> expired deadline now = false ->
  snd (apply_peer state ps self deadline now) =
  match position (fun p => bool_decide (peer_ident p = state_ident state)) ps with
  | Some i => <[i := MkPeer state]> ps
  | None => ps ++ [MkPeer state]
  end.
Proof. intros N E. unfold apply_peer. rewrite bool_decide_false by assumption. now rewrite E. Qed.

Lemma apply_peer_ok state ps self deadline now :
  peers_ok (state_ident self) ps -> peers_ok (state_ident self) (snd (apply_peer state ps self deadline now)).
Proof.
  intros [N S]. destruct (decide (state_ident state = state_ident self)) as [E|E].
  { unfold apply_peer. now rewrite bool_decide_true by assumption. }
  destruct (expired deadline now) eqn:X.
  { unfold apply_peer. now rewrite bool_decide_false, X by assumption. }
  rewrite apply_peer_peers by assumption. destruct (position _ ps) as [i|] eqn:P.
  - apply position_Some in P as (x & L & F). apply bool_decide_eq_true in F.
    split; rewrite (map_insert_same peer_ident ps i x) by (assumption || now rewrite F); assumption.
  - unfold peers_ok. rewrite map_app. cbn [map]. assert (state_ident state ∉ map peer_ident ps) as F.
    { intros I. apply list_elem_of_fmap in I as (x & E1 & I).
      pose proof (position_None _ _ x P I) as F. apply bool_decide_eq_false in F. congruence. }
    split.
    + apply NoDup_app. split; [assumption|]. split; [|apply NoDup_singleton].
      intros y Hy Hy2. apply list_elem_of_singleton in Hy2. subst y. now apply F.
    + rewrite elem_of_app, list_elem_of_singleton. intros [?|C]; [now apply S|]. now apply E.
Qed.

Lemma remove_peer_ok self node ps : peers_ok self ps -> peers_ok self (snd (remove_peer node ps)).
Proof. intros H. unfold remove_peer. destruct (negb _); now apply peers_ok_filter. Qed.

(** Whatever the network announces and however observations, departures,
    timeline updates and resets interleave, the registry holds at most one
    entry per node and never one for the node itself. *)
Theorem observer_keeps_unique_peers self o o' :
  peers_ok (state_ident self) (peers (registry o)) -> rtc (observer_step self) o o' ->
  peers_ok (state_ident self) (peers (registry o')).
Proof.
  intros Hok St. induction St as [|o o1 o2 S1 _ IH]; [assumption|]. apply IH. clear IH o2.
  assert (forall f, (forall ps, peers_ok (state_ident self) ps -> peers_ok (state_ident self) (snd (f ps))) ->
    peers_ok (state_ident self) (peers (registry (with_observer_state o f)))) as W.
  { intros f Hf. unfold with_observer_state. specialize (Hf _ Hok).
    destruct (f (peers (registry o))) as [c ps]. exact Hf. }
  destruct S1.
  - apply W. intros ps Hps. destruct (_ && _); [assumption|]. destruct (negb _); [assumption|].
    destruct (_ && _); [assumption|]. destruct (_ =? _); [now apply remove_peer_ok|now apply apply_peer_ok].
  - apply W. intros ps Hps. now apply apply_peer_ok.
  - apply W. intros ps Hps. now apply remove_peer_ok.
  - unfold set_session_timeline. cbn [registry peers]. unfold peers_ok in *.
    replace (map peer_ident (map _ (peers (registry o)))) with (map peer_ident (peers (registry o)));
      [assumption|]. rewrite map_map. apply map_ext. intros p. now destruct (bool_decide _).
  - apply W. intros ps Hps. now apply peers_ok_filter.
  - apply W. intros ps Hps. split; [constructor|]. simpl. now rewrite elem_of_nil.
Qed.

(** After an announcement is applied the registry answers with it: the
    announced state is the one entry of that node, and every other node's
    entry is what it was. *)
Theorem apply_peer_lookup state ps self deadline now :
  peers_ok (state_ident self) ps -> state_ident state <> state_ident self -> expired deadline now = false ->
  let ps' := snd (apply_peer state ps self deadline now) in
  (forall p, p ∈ ps' -> peer_ident p = state_ident state -> p = MkPeer state) /\
  MkPeer state ∈ ps' /\
  (forall p, peer_ident p <> state_ident state -> p ∈ ps' <-> p ∈ ps).
Proof.
  intros Hok N E ps'. pose proof (apply_peer_ok state ps self deadline now Hok) as [ND _]. fold ps' in ND.
  assert (MkPeer state ∈ ps') as M.
  { unfold ps'. rewrite apply_peer_peers by assumption. destruct (position _ ps) as [i|] eqn:P.
    - apply position_Some in P as (x & L & _). apply list_elem_of_lookup_2 with i.
      apply list_lookup_insert_eq. now apply lookup_lt_Some in L.
    - rewrite elem_of_app. right. now apply list_elem_of_singleton. }
  split; [|split; [exact M|]].
  - intros p Hp Ep. apply list_elem_of_lookup_1 in Hp as [i Li], M as [j Lj].
    assert (i = j) as ->; [|congruence].
    apply (NoDup_lookup (map peer_ident ps') i j (state_ident state) ND);
      change (map peer_ident ps') with (peer_ident <$> ps'); rewrite list_lookup_fmap, ?Li, ?Lj; simpl;
      [now rewrite Ep|reflexivity].
  - intros p Np. unfold ps'. rewrite apply_peer_peers by assumption.
    destruct (position _ ps) as [i|] eqn:P.
    + apply position_Some in P as (x & L & F). apply bool_decide_eq_true in F. split.
      * intros Hp. apply list_elem_of_lookup_1 in Hp as [j Lj]. destruct (decide (i = j)) as [->|Nij].
        -- rewrite list_lookup_insert_eq in Lj by now apply lookup_lt_Some in L. injection Lj as <-. now destruct Np.
        -- rewrite list_lookup_insert_ne in Lj by assumption. eapply list_elem_of_lookup_2, Lj.
      * intros Hp. apply list_elem_of_lookup_1 in Hp as [j Lj]. apply list_elem_of_lookup_2 with j.
        rewrite list_lookup_insert_ne; [assumption|]. intros ->. congruence.
    + rewrite elem_of_app, list_elem_of_singleton. split; [|now left]. intros [?| ->]; [assumption|].
      now destruct Np.
Qed.

Lemma remove_peer_spec node ps :
  snd (remove_peer node ps) = List.filter (fun p => negb (bool_decide (peer_ident p = node))) ps /\
  (fst (remove_peer node ps) = [ChPeerLeft] <-> node ∈ map peer_ident ps).
Proof.
  unfold remove_peer. set (f := fun p : ControllerPeer => negb (bool_decide (peer_ident p = node))).
  assert ((length ps =? length (List.filter f ps))%nat = false <-> node ∈ map peer_ident ps) as L.
  { rewrite Nat.eqb_neq. rewrite list_elem_of_In, in_map_iff. split.
    - intros N. destruct (existsb (fun p => negb (f p)) ps) eqn:X.
      + apply existsb_exists in X as (x & X1 & X2). exists x. split; [|assumption].
        unfold f in X2. rewrite negb_involutive in X2. now apply bool_decide_eq_true in X2.
      + exfalso. apply N. clear N. induction ps as [|p ps IH]; [reflexivity|]. simpl in *.
        apply orb_false_iff in X as [X1 X2]. apply negb_false_iff in X1. rewrite X1. simpl. f_equal. auto.
    - intros (x & E & I). apply in_split in I as (l1 & l2 & ->). rewrite List.filter_app, !length_app. simpl.
      unfold f at 2. rewrite bool_decide_true by assumption. simpl.
      pose proof (List.filter_length_le f l1). pose proof (List.filter_length_le f l2). lia. }
  destruct (length ps =? length (List.filter f ps))%nat; cbn [negb fst snd]; intuition congruence.
Qed.

(** ** Changes reported *)

Lemma count_session_peers_pairs id ps ps' self :
  map (fun p => (peer_ident p, peer_session_id p)) ps = map (fun p => (peer_ident p, peer_session_id p)) ps' ->
  count_session_peers id ps self = count_session_peers id ps' self.
Proof.
  intros E. unfold count_session_peers. do 2 f_equal. revert ps' E.
  induction ps as [|p ps IH]; intros [|p' ps'] E; try discriminate; [reflexivity|].
  cbn [map] in E. injection E as E1 E2 E3. cbn [List.filter]. rewrite E1, E2.
  destruct (_ && _); cbn [map]; rewrite ?E1, (IH ps' E3); reflexivity.
Qed.

(** No change of a session's peer count goes unreported: when applying an
    announcement changes the count of any session, the changes sent to the
    controller include a membership change. *)
Theorem apply_peer_reports_membership state ps self deadline now id self_id :
  let '(changes, ps') := apply_peer state ps self deadline now in
  count_session_peers id ps' self_id <> count_session_peers id ps self_id ->
  ChSessionMembership ∈ changes.
Proof.
  destruct (apply_peer state ps self deadline now) as [changes ps'] eqn:E.
  intros C. unfold apply_peer in E. case_bool_decide; [injection E as <- <-; now destruct C|].
  destruct (expired deadline now); [injection E as <- <-; now destruct C|]. injection E as <- <-.
  rewrite !elem_of_app. right. right. left.
  destruct (position _ ps) as [i|] eqn:P; [|now left].
  apply position_Some in P as (x & L & F). apply bool_decide_eq_true in F. rewrite L in *.
  case_bool_decide as S; [|now left]. exfalso. apply C, count_session_peers_pairs.
  apply map_insert_same with x; [assumption|]. simpl. f_equal; [now rewrite F|now rewrite S].
Qed.

End PeerProperties.
