(* ===== verification/SessionApi.v ===== *)
(** The client's view of a session: the API state of src/src/link/mod.rs,
    [SessionState] there ([ApiSessionState] here), with its tempo, beat and
    playback operations. *)

From stdpp Require Import base list numbers strings relations.
From Stdlib Require Import ZArith Lia SpecFloat.
From S2P Require Import Prelude Chrono F64 Encoding Beats Tempo Timeline GhostXForm Phase Entries Sessions.

Section SessionApi.
Context `{Ch : Chrono, FD : FloatDecode}.

Record ApiStartStopState := MkApiStartStop { api_is_playing : bool; api_time : Duration }.

Definition ApiStartStopState_default : ApiStartStopState := MkApiStartStop false Duration_zero.

Definition ApiStartStopState_eqb (a b : ApiStartStopState) : bool :=
  Bool.eqb (api_is_playing a) (api_is_playing b) && Duration_eqb (api_time a) (api_time b).

Record ApiState := MkApiState {
  api_timeline : Timeline;
  api_timeline_session_id : SessionId;
  api_start_stop : ApiStartStopState
}.

Record ApiSessionState := MkApiSession {
  original_state : ApiState;
  api_state : ApiState;
  respect_quantum : bool;
  api_origin : option SessionEditOrigin
}.

Definition ApiSessionState_new (state : ApiState) (respect_quantum : bool) : ApiSessionState :=
  MkApiSession state state respect_quantum None.

Definition to_session_state (state : ClientState) (is_connected : bool) : ApiSessionState :=
  ApiSessionState_new
    (MkApiState (client_timeline state) (timeline_session_id state)
       (MkApiStartStop (css_is_playing (client_start_stop state)) (css_time (client_start_stop state))))
    true.

Record IncomingClientState := MkIncoming {
  in_timeline : option Timeline;
  in_start_stop : option ClientStartStopState;
  timeline_timestamp : Duration
}.

Definition to_incoming_client_state (state original_state : ApiState) (timestamp : Duration)
  : IncomingClientState :=
  let tl :=
    if negb (Timeline_eqb (api_timeline original_state) (api_timeline state))
    then Some (api_timeline state) else None in
  let start_stop :=
    if negb (ApiStartStopState_eqb (api_start_stop original_state) (api_start_stop state))
    then Some (MkClientStartStop (api_is_playing (api_start_stop state))
                 (api_time (api_start_stop state)) timestamp)
    else None in
  MkIncoming tl start_stop timestamp.

Definition with_api_timeline (s : ApiSessionState) (tl : Timeline) : ApiSessionState :=
  MkApiSession (original_state s)
    (MkApiState tl (api_timeline_session_id (api_state s)) (api_start_stop (api_state s)))
    (respect_quantum s) (api_origin s).

Definition with_api_start_stop (s : ApiSessionState) (ss : ApiStartStopState) : ApiSessionState :=
  MkApiSession (original_state s)
    (MkApiState (api_timeline (api_state s)) (api_timeline_session_id (api_state s)) ss)
    (respect_quantum s) (api_origin s).

Definition api_tempo (s : ApiSessionState) : f64 := bpm (tempo (api_timeline (api_state s))).

Definition set_tempo (s : ApiSessionState) (bpm : f64) (at_time : Duration) : ApiSessionState :=
  let tl := api_timeline (api_state s) in
  let new_tempo :=
    tempo (clamp_tempo (MkTimeline (Tempo_new bpm) (beat_origin tl) (time_origin tl))) in
  if Tempo_eqb new_tempo (tempo tl) then s
  else
    let difference := clamp_i128 (Beats_value (beat_origin tl) - microbeats_at tl at_time) in
    with_api_timeline s
      (MkTimeline new_tempo (beat_origin tl)
         (duration_from_nanos
            (clamp_i128 (duration_nanos at_time + nanos_from_microbeats new_tempo difference)))).

Definition beat_at_time (s : ApiSessionState) (time : Duration) (quantum : f64) : f64 :=
  Beats_floating (to_phase_encoded_beats (api_timeline (api_state s)) time (Beats_new quantum)).

Definition phase_at_time (s : ApiSessionState) (time : Duration) (quantum : f64) : f64 :=
  Beats_floating (phase (Beats_new (beat_at_time s time quantum)) (Beats_new quantum)).

Definition time_at_beat (s : ApiSessionState) (beat quantum : f64) : Duration :=
  from_phase_encoded_beats (api_timeline (api_state s)) (Beats_new beat) (Beats_new quantum).

(** [self.beat_at_time(..) > beat]. *)
Definition force_beat_at_time (s : ApiSessionState) (beat : f64) (time : Duration) (quantum : f64)
  : ApiSessionState :=
  let s := with_api_timeline s
    (force_beat_at_time_impl (api_timeline (api_state s)) (Beats_new beat) time (Beats_new quantum)) in
  if f64_ltb beat (beat_at_time s time quantum) then
    with_api_timeline s
      (force_beat_at_time_impl (api_timeline (api_state s)) (Beats_new beat)
         (duration_from_nanos (wrap_i128 (duration_nanos time + 1000))) (Beats_new quantum))
  else s.

Definition request_beat_at_time (s : ApiSessionState) (beat : f64) (time : Duration) (quantum : f64)
  : ApiSessionState :=
  let time :=
    if respect_quantum s then
      time_at_beat s
        (Beats_floating (next_phase_match (Beats_new (beat_at_time s time quantum)) (Beats_new beat)
                           (Beats_new quantum)))
        quantum
    else time in
  force_beat_at_time s beat time quantum.

Definition set_is_playing (s : ApiSessionState) (is_playing : bool) (time : Duration)
  : ApiSessionState := with_api_start_stop s (MkApiStartStop is_playing time).

Definition is_playing (s : ApiSessionState) : bool := api_is_playing (api_start_stop (api_state s)).

Definition time_for_is_playing (s : ApiSessionState) : Duration :=
  api_time (api_start_stop (api_state s)).

Definition request_beat_at_start_playing_time (s : ApiSessionState) (beat quantum : f64)
  : ApiSessionState :=
  if is_playing s then request_beat_at_time s beat (time_for_is_playing s) quantum else s.

Definition set_is_playing_and_request_beat_at_time (s : ApiSessionState) (is_playing : bool)
    (time : Duration) (beat quantum : f64) : ApiSessionState :=
  let s := with_api_start_stop s (MkApiStartStop is_playing time) in
  request_beat_at_start_playing_time s beat quantum.

End SessionApi.

(** ** What the operations guarantee *)

Section SessionApiProperties.
Context `{Laws : ChronoLaws, FD : FloatDecode}.

Lemma rdiv_lower n d b : 0 < d -> Z.abs (rdiv n d) <= b -> Z.abs n <= (b + 1) * d.
Proof. intros Hd Hb. pose proof (rdiv_error n d ltac:(lia)). nia. Qed.

(** The new timeline, seen from the instant of the change. *)
Lemma retempo_keeps_beat new o u t :
  60060 <= period_micros new <= 3000000 -> in_i64 o -> in_i128 u ->
  - max_nanos <= duration_nanos t + rdiv ((o - u) * period_micros new) 1000 <= max_nanos ->
  microbeats_at
    (MkTimeline new (MkBeats o)
       (duration_from_nanos
          (clamp_i128 (duration_nanos t + nanos_from_microbeats new (clamp_i128 (o - u)))))) t = u.
Proof.
  intros Hp Ho Hu Hr. pose proof (duration_nanos_range t) as Rt. set (p := period_micros new) in *.
  assert (Z.abs (o - u) <= 2 ^ 100) as Hd.
  { assert (Z.abs ((o - u) * p) <= (2 * max_nanos + 1) * 1000) as B
      by (apply rdiv_lower; [lia|]; set (q := rdiv ((o - u) * p) 1000) in *; lia).
    rewrite Z.abs_mul in B. unfold max_nanos in B. unfold_widths. nia. }
  rewrite (clamp_i128_id (o - u)) by zlia. rewrite nanos_from_microbeats_eq. fold p.
  set (q := rdiv ((o - u) * p) 1000) in *.
  rewrite (clamp_i128_id q), clamp_i128_id by durlia.
  unfold microbeats_at, microbeats_at_nanos. cbn [tempo beat_origin time_origin Beats_value].
  rewrite duration_nanos_from_id by assumption.
  replace (duration_nanos t - (duration_nanos t + q)) with (- q) by lia.
  rewrite (clamp_i128_id (- q)) by durlia. rewrite microbeats_from_nanos_eq by (fold p; durlia). fold p.
  rewrite Z.mul_opp_l, rdiv_opp_l. unfold q. rewrite rdiv_trip by lia.
  rewrite (clamp_i128_id (- (o - u))) by zlia. rewrite clamp_i128_id; zlia.
Qed.

(** Changing the tempo does not move the beat: at the time of the change the
    timeline reads the same microbeat before and after, for every requested
    tempo, NaN and infinities included, whenever the new time origin is
    representable.  The tempo becomes the clamped request, unless the state
    has it already and is left as it is. *)
Theorem set_tempo_keeps_beat s bpm at_time :
  valid_f64 bpm -> Beats_ok (beat_origin (api_timeline (api_state s))) ->
  let tl := api_timeline (api_state s) in
  let new := tempo (clamp_tempo (MkTimeline (Tempo_new bpm) (beat_origin tl) (time_origin tl))) in
  - max_nanos <= duration_nanos at_time +
      rdiv ((Beats_value (beat_origin tl) - microbeats_at tl at_time) * period_micros new) 1000
    <= max_nanos ->
  let tl' := api_timeline (api_state (set_tempo s bpm at_time)) in
  microbeats_at tl' at_time = microbeats_at tl at_time /\
  (tempo tl' = new \/ (tl' = tl /\ Tempo_eqb new (tempo tl) = true)).
Proof.
  intros Vb Ho tl new Hr tl'. fold tl in Ho.
  destruct (clamp_tempo_period_bounds (MkTimeline (Tempo_new bpm) (beat_origin tl) (time_origin tl)) Vb)
    as (Hp & _). fold new in Hp.
  assert (tl' = if Tempo_eqb new (tempo tl) then tl else
    MkTimeline new (MkBeats (Beats_value (beat_origin tl)))
       (duration_from_nanos (clamp_i128 (duration_nanos at_time +
          nanos_from_microbeats new (clamp_i128 (Beats_value (beat_origin tl) - microbeats_at tl at_time))))))
    as E.
  { unfold tl', set_tempo. fold tl. fold new. destruct (Tempo_eqb new (tempo tl)); [reflexivity|].
    cbn [api_timeline api_state with_api_timeline]. now destruct (beat_origin tl). }
  rewrite E. destruct (Tempo_eqb new (tempo tl)) eqn:Eq; [auto|]. split; [|now left].
  apply retempo_keeps_beat; [assumption|exact Ho|apply clamp_i128_range|assumption].
Qed.

(** [force_beat_at_time] of the client API puts the beat on the time: the
    beat it reports for [time] afterwards is [beat] rounded to the microbeat,
    when that rounding is not above [beat] (otherwise the code forces again a
    microsecond later), the tempo is one the session allows and the anchor is
    representable. *)
Theorem api_force_beat_exact s beat time quantum :
  let tl := api_timeline (api_state s) in
  let b := Beats_new beat in
  let q := Beats_new quantum in
  let boundary := Beats_value b - phase_wide (Beats_value b) (Beats_value q) in
  in_i64 boundary -> 1000 < period_micros (tempo tl) ->
  - max_nanos <= duration_nanos time -
    rdiv ((Beats_value b - boundary) * period_micros (tempo tl)) 1000 <= max_nanos ->
  f64_ltb beat (Beats_floating b) = false ->
  let s' := force_beat_at_time s beat time quantum in
  beat_at_time s' time quantum = Beats_floating b /\
  api_tempo s' = api_tempo s /\ api_start_stop (api_state s') = api_start_stop (api_state s).
Proof.
  intros tl b q boundary Hi Hp Hr Hf s'.
  destruct (force_beat_exact_eq tl b time q) as [E1 E2]; try assumption; try apply Beats_new_ok.
  assert (to_phase_encoded_beats (force_beat_at_time_impl tl b time q) time q = b) as E3.
  { unfold to_phase_encoded_beats, narrow, Beats_from_microbeats. rewrite E1, clamp_i64_id by apply Beats_new_ok.
    now destruct b. }
  assert (s' = with_api_timeline s (force_beat_at_time_impl tl b time q)) as ->.
  { unfold s', force_beat_at_time. fold tl b q.
    unfold beat_at_time. cbn [api_timeline api_state with_api_timeline]. fold q. now rewrite E3, Hf. }
  unfold beat_at_time, api_tempo, bpm. cbn [api_timeline api_state with_api_timeline api_start_stop].
  fold q. now rewrite E3, E2.
Qed.

(** A commit carries exactly what the client changed: the timeline when it
    differs from the captured one, the playback state when that differs. *)
Theorem incoming_state_is_the_edit state original timestamp :
  let inc := to_incoming_client_state state original timestamp in
  (in_timeline inc = None <-> Timeline_eqb (api_timeline original) (api_timeline state) = true) /\
  (forall tl, in_timeline inc = Some tl -> tl = api_timeline state) /\
  (in_start_stop inc = None <->
   api_is_playing (api_start_stop original) = api_is_playing (api_start_stop state) /\
   api_time (api_start_stop original) = api_time (api_start_stop state)) /\
  timeline_timestamp inc = timestamp.
Proof.
  cbv zeta. unfold to_incoming_client_state. cbn [in_timeline in_start_stop timeline_timestamp].
  destruct (Timeline_eqb _ _); cbn [negb]; (split; [split; easy|]); (split; [intros tl; congruence|]);
    (split; [|reflexivity]); unfold ApiStartStopState_eqb.
  all: rewrite <- (eqb_true_iff (api_is_playing _)), <- Duration_eqb_spec.
  all: destruct (Bool.eqb _ _), (Duration_eqb _ _); cbn [andb negb]; split; easy.
Qed.

End SessionApiProperties.
