(* ===== verification/RtQueue.v ===== *)
(** The audio thread's proposal queue: [PendingUpdate] and its operations in
    src/src/link/safe_rt_session_state.rs, with the wrapper of
    src/src/link/atomic_session_state.rs.

    Each operation holds the queue's mutex from its first to its last access,
    so it is one function of the queue; whether a [try_lock] succeeds is an
    argument. *)

From stdpp Require Import base list numbers strings relations.
From Stdlib Require Import ZArith Lia SpecFloat.
From S2P Require Import Prelude Chrono F64 Encoding Beats Tempo Timeline GhostXForm TimelineSync Phase Entries Sessions SessionApi.

Section RtQueue.
Context `{Ch : Chrono, FD : FloatDecode}.

Record AudioCommitTicket := MkTicket { ticket_queue : Z; ticket_sequence : Z }.

#[global] Instance AudioCommitTicket_eq_dec : EqDecision AudioCommitTicket.
Proof. solve_decision. Defined.

Inductive AudioQueueError := QueueBusy | TicketExhausted | UnknownTicket.
Inductive AudioCaptureError := CaptureBusy | ReaderExhausted.

Record PendingUpdate := MkPending {
  sequence : Z;
  incoming : option IncomingClientState;
  pending_result : option (result unit CommitError);
  pending_origin : option SessionEditOrigin
}.

Definition PendingUpdate_default : PendingUpdate := MkPending 0 None None None.

Record RtQueue := MkQueue {
  queue_id : option Z;
  pending : PendingUpdate;
  has_pending_updates : bool
}.

(** The queue of [SafeRtSessionStateHandler::new]: its identity is an edit
    revision. *)
Definition RtQueue_new (sup : Supply) : RtQueue * Supply :=
  let '(id, sup) := new_edit_revision sup in
  (MkQueue id PendingUpdate_default false, sup).

Definition update_rt_client_state_from_origin (h : RtQueue) (lock_free : bool)
    (incoming_state : IncomingClientState) (origin : option SessionEditOrigin)
  : result AudioCommitTicket AudioQueueError * RtQueue :=
  match queue_id h with
  | None => (Err TicketExhausted, h)
  | Some queue =>
      if negb lock_free then (Err QueueBusy, h)
      else
        let p := pending h in
        if is_some (incoming p) || is_some (pending_result p) then (Err QueueBusy, h)
        else if u64_MAX <? sequence p + 1 then (Err TicketExhausted, h)
        else
          (Ok (MkTicket queue (sequence p + 1)),
           MkQueue (queue_id h)
             (MkPending (sequence p + 1) (Some incoming_state) (pending_result p) origin) true)
  end.

Definition update_rt_client_state (h : RtQueue) (lock_free : bool) (incoming_state : IncomingClientState) :=
  update_rt_client_state_from_origin h lock_free incoming_state None.

Definition pending_update_from_origin (h : RtQueue)
  : option (AudioCommitTicket * IncomingClientState * option SessionEditOrigin) :=
  let! queue := queue_id h in
  let! inc := incoming (pending h) in
  Some (MkTicket queue (sequence (pending h)), inc, pending_origin (pending h)).

Definition pending_update (h : RtQueue) : option (AudioCommitTicket * IncomingClientState) :=
  let! queue := queue_id h in
  let! inc := incoming (pending h) in
  Some (MkTicket queue (sequence (pending h)), inc).

Definition complete_pending_update (h : RtQueue) (ticket : AudioCommitTicket) (r : result unit CommitError)
  : bool * RtQueue :=
  if negb (bool_decide (queue_id h = Some (ticket_queue ticket))) then (false, h)
  else
    let p := pending h in
    if negb (ticket_sequence ticket =? sequence p) || negb (is_some (incoming p)) then (false, h)
    else (true, MkQueue (queue_id h) (MkPending (sequence p) None (Some r) None) false).

Definition take_commit_result (h : RtQueue) (lock_free : bool) (ticket : AudioCommitTicket)
  : result (option (result unit CommitError)) AudioQueueError * RtQueue :=
  if negb (bool_decide (queue_id h = Some (ticket_queue ticket))) then (Err UnknownTicket, h)
  else if negb lock_free then (Err QueueBusy, h)
  else
    let p := pending h in
    if negb (ticket_sequence ticket =? sequence p) then (Err UnknownTicket, h)
    else if is_some (incoming p) then (Ok None, h)
    else
      match pending_result p with
      | Some r =>
          (Ok (Some r),
           MkQueue (queue_id h) (MkPending (sequence p) (incoming p) None (pending_origin p))
             (has_pending_updates h))
      | None => (Err UnknownTicket, h)
      end.

Definition outstanding_commit_ticket (h : RtQueue) (lock_free : bool)
  : result (option AudioCommitTicket) AudioQueueError :=
  match queue_id h with
  | None => Ok None
  | Some queue =>
      if negb lock_free then Err QueueBusy
      else
        Ok (if is_some (incoming (pending h)) || is_some (pending_result (pending h))
            then Some (MkTicket queue (sequence (pending h))) else None)
  end.

(** The operations that change the queue, in any order. *)
Inductive queue_step : RtQueue -> RtQueue -> Prop :=
| q_update h free inc o : queue_step h (snd (update_rt_client_state_from_origin h free inc o))
| q_complete h t r : queue_step h (snd (complete_pending_update h t r))
| q_take h free t : queue_step h (snd (take_commit_result h free t)).

(** ** Invariant *)

(** A slot is empty, holds a proposal, or holds a result; the flag the
    consumer polls says which. *)
Definition queue_ok (h : RtQueue) : Prop :=
  0 <= sequence (pending h) <= u64_MAX /\
  (is_some (incoming (pending h)) = true -> pending_result (pending h) = None) /\
  (incoming (pending h) = None -> pending_origin (pending h) = None) /\
  has_pending_updates h = is_some (incoming (pending h)).

Lemma queue_step_ok h h' : queue_ok h -> queue_step h h' -> queue_ok h'.
Proof.
  intros Hok St. pose proof Hok as (S & X & O & F). destruct St.
  - unfold update_rt_client_state_from_origin. destruct (queue_id h) eqn:Q; [|exact Hok].
    destruct free; cbn [negb]; [|exact Hok].
    destruct (incoming (pending h)) eqn:I; cbn [is_some orb]; [exact Hok|].
    destruct (pending_result (pending h)) eqn:R; cbn [is_some]; [exact Hok|].
    destruct (Z.ltb_spec u64_MAX (sequence (pending h) + 1)); [exact Hok|].
    repeat split; cbn; easy || lia.
  - unfold complete_pending_update. destruct (negb _); [exact Hok|].
    destruct (_ || _); [exact Hok|]. repeat split; cbn; easy || lia.
  - unfold take_commit_result. destruct (negb _); [exact Hok|].
    destruct free; cbn [negb]; [|exact Hok]. destruct (negb _); [exact Hok|].
    destruct (incoming (pending h)) eqn:I; cbn [is_some]; [exact Hok|].
    destruct (pending_result (pending h)) eqn:R; [|exact Hok].
    repeat split; cbn; easy || lia || now rewrite I.
Qed.

(** What every operation does to the sequence number and to a slot with a
    given one. *)
Lemma queue_step_sequence h h' :
  queue_step h h' -> queue_id h' = queue_id h /\ sequence (pending h) <= sequence (pending h').
Proof.
  intros St. destruct St.
  - unfold update_rt_client_state_from_origin. destruct (queue_id h) eqn:Q; [|split; [easy|cbn; lia]].
    destruct free; cbn [negb]; [|split; [easy|cbn; lia]].
    destruct (_ || _); [split; [easy|cbn; lia]|]. destruct (_ <? _); split; cbn; easy || lia.
  - unfold complete_pending_update. destruct (negb _); [split; [easy|cbn; lia]|].
    destruct (_ || _); split; cbn; easy || lia.
  - unfold take_commit_result. destruct (negb _); [split; [easy|cbn; lia]|].
    destruct free; cbn [negb]; [|split; [easy|cbn; lia]]. destruct (negb _); [split; [easy|cbn; lia]|].
    destruct (is_some _); [split; [easy|cbn; lia]|].
    destruct (pending_result (pending h)); split; cbn; easy || lia.
Qed.

(** A ticket is spent when its slot is empty or reused. *)
Definition spent (t : AudioCommitTicket) (h : RtQueue) : Prop :=
  ticket_sequence t < sequence (pending h) \/
  (ticket_sequence t = sequence (pending h) /\ incoming (pending h) = None /\
   pending_result (pending h) = None).

Lemma spent_step t h h' : spent t h -> queue_step h h' -> spent t h'.
Proof.
  intros Sp St. destruct (queue_step_sequence h h' St) as [_ L].
  destruct Sp as [Lt|(E & I & R)]; [left; lia|]. destruct St.
  - unfold update_rt_client_state_from_origin in *. destruct (queue_id h); [|right; auto].
    destruct free; cbn [negb] in *; [|right; auto]. rewrite I, R in *. cbn [is_some orb] in *.
    destruct (_ <? _); [right; auto|left; cbn; lia].
  - unfold complete_pending_update in *. destruct (negb _); [right; auto|]. rewrite I in *.
    cbn [is_some negb] in *. rewrite orb_true_r in *. right; auto.
  - unfold take_commit_result in *. destruct (negb _); [right; auto|].
    destruct free; cbn [negb] in *; [|right; auto]. destruct (negb _); [right; auto|]. rewrite I, R in *. right; auto.
Qed.

Lemma spent_steps t h h' : spent t h -> rtc queue_step h h' -> spent t h'.
Proof. intros Sp St. induction St; eauto using spent_step. Qed.

(** A commit result is delivered at most once: after an acknowledgment
    returned it, no later acknowledgment of the same ticket returns a result,
    whatever proposals, completions and acknowledgments follow. *)
Theorem commit_result_delivered_once h free t r h' free' :
  fst (take_commit_result h free t) = Ok (Some r) ->
  rtc queue_step (snd (take_commit_result h free t)) h' ->
  forall r', fst (take_commit_result h' free' t) <> Ok (Some r').
Proof.
  intros T St r'. assert (spent t (snd (take_commit_result h free t))) as Sp.
  { unfold take_commit_result in *. destruct (negb _); [discriminate|]. destruct free; cbn [negb] in *; [|discriminate].
    destruct (Z.eqb_spec (ticket_sequence t) (sequence (pending h))) as [E|]; cbn [negb] in *; [|discriminate].
    destruct (incoming (pending h)) eqn:I; cbn [is_some] in *; [discriminate|].
    destruct (pending_result (pending h)); [|discriminate]. right. auto. }
  apply (spent_steps t _ _ Sp) in St. unfold take_commit_result. destruct (negb _); [discriminate|].
  destruct free'; cbn [negb]; [|discriminate].
  destruct (Z.eqb_spec (ticket_sequence t) (sequence (pending h'))); cbn [negb]; [|discriminate].
  destruct St as [|(_ & I & R)]; [lia|]. rewrite I, R. discriminate.
Qed.

(** ** No proposal is lost or overwritten *)

(** The slot holds the proposal of [t]. *)
Definition holds (t : AudioCommitTicket) inc o (h : RtQueue) : Prop :=
  queue_id h = Some (ticket_queue t) /\ sequence (pending h) = ticket_sequence t /\
  incoming (pending h) = Some inc /\ pending_origin (pending h) = o.

(** The slot holds the result of [t]. *)
Definition completed (t : AudioCommitTicket) r (h : RtQueue) : Prop :=
  queue_id h = Some (ticket_queue t) /\ sequence (pending h) = ticket_sequence t /\
  incoming (pending h) = None /\ pending_result (pending h) = Some r.

Lemma holds_step t inc o h h' :
  holds t inc o h -> queue_step h h' -> holds t inc o h' \/ exists r, completed t r h'.
Proof.
  intros (Q & S & I & O) St. destruct St.
  - unfold update_rt_client_state_from_origin. rewrite Q. destruct free; cbn [negb]; [|left; now repeat split].
    rewrite I. cbn [is_some orb]. left; now repeat split.
  - unfold complete_pending_update. destruct (bool_decide _) eqn:B; cbn [negb]; [|left; now repeat split].
    destruct (_ || _); [left; now repeat split|]. right. exists r. now repeat split.
  - unfold take_commit_result. destruct (negb _); [left; now repeat split|].
    destruct free; cbn [negb]; [|left; now repeat split]. destruct (negb _); [left; now repeat split|].
    rewrite I. cbn [is_some]. left; now repeat split.
Qed.

Lemma completed_step t r h h' : completed t r h -> queue_step h h' -> completed t r h' \/ spent t h'.
Proof.
  intros (Q & S & I & R) St. destruct St.
  - unfold update_rt_client_state_from_origin. rewrite Q. destruct free; cbn [negb]; [|left; now repeat split].
    rewrite I, R. cbn [is_some orb]. left; now repeat split.
  - unfold complete_pending_update. destruct (negb _); [left; now repeat split|]. rewrite I. cbn [is_some negb].
    rewrite orb_true_r. left; now repeat split.
  - unfold take_commit_result. destruct (negb _); [left; now repeat split|].
    destruct free; cbn [negb]; [|left; now repeat split]. destruct (negb _); [left; now repeat split|].
    rewrite I, R. right. right. cbn. auto.
Qed.

Lemma ticket_fate_steps t inc o a b :
  rtc queue_step a b ->
  holds t inc o a \/ (exists r, completed t r a) \/ spent t a ->
  holds t inc o b \/ (exists r, completed t r b) \/ spent t b.
Proof.
  induction 1 as [|a b c S1 _ IH]; [auto|]. intros D. apply IH. destruct D as [D|[[r D]|D]].
  - destruct (holds_step _ _ _ _ _ D S1); auto.
  - destruct (completed_step _ _ _ _ D S1); eauto.
  - right; right. eapply spent_step; eauto.
Qed.

(** An admitted proposal stays in the queue, unchanged, until the consumer
    completes that very ticket; its result then stays until it is read. *)
Theorem proposal_is_never_lost h free inc o t h' :
  fst (update_rt_client_state_from_origin h free inc o) = Ok t ->
  rtc queue_step (snd (update_rt_client_state_from_origin h free inc o)) h' ->
  pending_update_from_origin h' = Some (t, inc, o) \/
  (exists r, completed t r h' /\ fst (take_commit_result h' true t) = Ok (Some r)) \/
  spent t h'.
Proof.
  intros U St. assert (holds t inc o (snd (update_rt_client_state_from_origin h free inc o))) as H0.
  { unfold update_rt_client_state_from_origin in *. destruct (queue_id h) as [q|] eqn:Q; [|discriminate].
    destruct free; cbn [negb] in *; [|discriminate]. destruct (_ || _); [discriminate|].
    destruct (_ <? _); [discriminate|]. injection U as <-. now repeat split. }
  assert (holds t inc o h' \/ (exists r, completed t r h') \/ spent t h') as H1.
  { eapply ticket_fate_steps; [exact St|now left]. }
  destruct H1 as [(Q & S & I & O)|[[r (Q & S & I & R)]|Sp]]; [left|right; left|right; right; exact Sp].
  - unfold pending_update_from_origin. rewrite Q, I, O, S. now destruct t.
  - exists r. split; [now repeat split|]. unfold take_commit_result.
    rewrite bool_decide_true by assumption. cbn [negb]. rewrite S, Z.eqb_refl, I, R. reflexivity.
Qed.

End RtQueue.
