(* ===== verification/RtAccepted.v ===== *)
(** The accepted-state cache: [AcceptedState] of
    src/src/link/safe_rt_session_state.rs, two slots behind [RwLock]s, the
    index of the published one, a count of pinned readers and a pending value
    behind a mutex.

    Every atomic access and every lock operation is one step of a thread, and
    the threads interleave in any order ([SeqCst] accesses).  Which locks are
    held follows from where the threads are.  [Unreachable] is the
    [unreachable!] of [read_with_pin_hook]: a reader whose published slot is
    being written.  [history] records the values that have been published,
    the initial one first. *)

From stdpp Require Import base list numbers relations.
From Stdlib Require Import ZArith Lia.
From S2P Require Import Prelude.

Section RtAccepted.
Context {V : Type}.

(** What a thread does after [flush]: finish [publish], go on with
    [read_with_pin_hook], or go on with [read_app]. *)
Inductive after_flush := ThenPublished | ThenPin | ThenRead.

Inductive pc :=
| Idle
(* publish and read_app: the blocking lock of [pending] *)
| PublishLock (v : V)
| AppLock
(* flush, with [pending] locked *)
| Flush (k : after_flush)
| FlushEmpty (k : after_flush) (v : V)
| FlushTry (k : after_flush) (v : V) (next : bool)
| FlushWrite (k : after_flush) (v : V) (next : bool)
| FlushStore (k : after_flush) (next : bool)
| FlushDone (k : after_flush)
(* read_app, with [pending] locked *)
| AppLoad
| AppWait (slot : bool)
| AppCopy (slot : bool)
(* read_with_pin_hook *)
| ReadTryLock
| ReadLoad
| ReadPin (readers : Z)
| ReadPublished
| ReadSlot (slot : bool)
| ReadCopy (slot : bool)
| ReadUnpin (v : V)
| Unreachable.

Record Accepted := MkAccepted {
  slot0 : V;
  slot1 : V;
  published : bool;
  readers : Z;
  accepted_pending : option V;
  history : list V
}.

Definition slot (s : Accepted) (i : bool) : V := if i then slot1 s else slot0 s.

Definition set_slot (s : Accepted) (i : bool) (v : V) : Accepted :=
  MkAccepted (if i then slot0 s else v) (if i then v else slot1 s) (published s) (readers s)
    (accepted_pending s) (history s).

Definition Accepted_new (initial : V) : Accepted := MkAccepted initial initial false 0 None [initial].

(** ** Who holds what *)

(** The mutex of [pending]. *)
Definition has_lock (p : pc) : bool :=
  match p with
  | Flush _ | FlushEmpty _ _ | FlushTry _ _ _ | FlushWrite _ _ _ | FlushStore _ _ | FlushDone _
  | AppLoad | AppWait _ | AppCopy _ => true
  | _ => false
  end.

Definition writes (i : bool) (p : pc) : bool :=
  match p with FlushWrite _ _ next => Bool.eqb next i | _ => false end.

Definition reads (i : bool) (p : pc) : bool :=
  match p with ReadCopy j | AppCopy j => Bool.eqb j i | _ => false end.

(** Between the pin and its release. *)
Definition pinned (p : pc) : bool :=
  match p with ReadPublished | ReadSlot _ | ReadCopy _ | ReadUnpin _ => true | _ => false end.

Definition usize_MAX : Z := u64_MAX.

(** ** Steps *)

Definition config : Type := Accepted * list pc.

(** Where a thread goes when [flush] returns; the guard of [pending] is
    dropped except in [read_app]. *)
Definition resume (k : after_flush) : pc :=
  match k with ThenPublished => Idle | ThenPin => ReadLoad | ThenRead => AppLoad end.

(** One step of a thread on the shared state. *)
Inductive thread_step (s : Accepted) (others : list pc) : pc -> Accepted -> pc -> Prop :=
| t_publish v : thread_step s others Idle s (PublishLock v)
| t_app : thread_step s others Idle s AppLock
| t_read : thread_step s others Idle s ReadTryLock
| t_publish_lock v :
    existsb has_lock others = false ->
    thread_step s others (PublishLock v)
      (MkAccepted (slot0 s) (slot1 s) (published s) (readers s) (Some v) (history s)) (Flush ThenPublished)
| t_app_lock :
    existsb has_lock others = false -> thread_step s others AppLock s (Flush ThenRead)
| t_flush_none k : accepted_pending s = None -> thread_step s others (Flush k) s (FlushDone k)
| t_flush_pinned k v :
    accepted_pending s = Some v -> readers s <> 0 -> thread_step s others (Flush k) s (FlushDone k)
| t_flush_unpinned k v :
    accepted_pending s = Some v -> readers s = 0 -> thread_step s others (Flush k) s (FlushEmpty k v)
| t_flush_next k v :
    thread_step s others (FlushEmpty k v) s (FlushTry k v (negb (published s)))
| t_flush_block k v next :
    existsb (reads next) others || existsb (writes next) others = true ->
    thread_step s others (FlushTry k v next) s (FlushDone k)
| t_flush_lock k v next :
    existsb (reads next) others || existsb (writes next) others = false ->
    thread_step s others (FlushTry k v next) s (FlushWrite k v next)
| t_flush_write k v next :
    thread_step s others (FlushWrite k v next)
      (let s := set_slot s next v in
       MkAccepted (slot0 s) (slot1 s) (published s) (readers s) None (history s)) (FlushStore k next)
| t_flush_store k next :
    thread_step s others (FlushStore k next)
      (MkAccepted (slot0 s) (slot1 s) next (readers s) (accepted_pending s) (history s ++ [slot s next]))
      (FlushDone k)
| t_flush_done k : thread_step s others (FlushDone k) s (resume k)
| t_app_load : thread_step s others AppLoad s (AppWait (published s))
| t_app_wait i :
    existsb (writes i) others = false -> thread_step s others (AppWait i) s (AppCopy i)
| t_app_copy i : thread_step s others (AppCopy i) s Idle
| t_read_locked : existsb has_lock others = true -> thread_step s others ReadTryLock s ReadLoad
| t_read_flush : existsb has_lock others = false -> thread_step s others ReadTryLock s (Flush ThenPin)
| t_read_exhausted : usize_MAX <= readers s -> thread_step s others ReadLoad s Idle
| t_read_load : readers s < usize_MAX -> thread_step s others ReadLoad s (ReadPin (readers s))
| t_read_busy r : readers s <> r -> thread_step s others (ReadPin r) s Idle
| t_read_pin r :
    readers s = r ->
    thread_step s others (ReadPin r)
      (MkAccepted (slot0 s) (slot1 s) (published s) (r + 1) (accepted_pending s) (history s)) ReadPublished
| t_read_published : thread_step s others ReadPublished s (ReadSlot (published s))
| t_read_unreachable i :
    existsb (writes i) others = true -> thread_step s others (ReadSlot i) s Unreachable
| t_read_slot i :
    existsb (writes i) others = false -> thread_step s others (ReadSlot i) s (ReadCopy i)
| t_read_copy i : thread_step s others (ReadCopy i) s (ReadUnpin (slot s i))
| t_read_unpin v :
    thread_step s others (ReadUnpin v)
      (MkAccepted (slot0 s) (slot1 s) (published s) (readers s - 1) (accepted_pending s) (history s)) Idle.

(** Any thread may be next. *)
Inductive accepted_step : config -> config -> Prop :=
| step_thread s s' l1 p l2 p' :
    thread_step s (l1 ++ l2) p s' p' -> accepted_step (s, l1 ++ p :: l2) (s', l1 ++ p' :: l2).

(** ** The invariant *)

(** After the check that no reader is pinned, until the index is stored. *)
Definition flushing (p : pc) : bool :=
  match p with FlushEmpty _ _ | FlushTry _ _ _ | FlushWrite _ _ _ | FlushStore _ _ => true | _ => false end.

Definition b2z (b : bool) : Z := if b then 1 else 0.
Definition count (f : pc -> bool) (l : list pc) : Z := foldr (fun p n => b2z (f p) + n) 0 l.

Lemma count_cons f p l : count f (p :: l) = b2z (f p) + count f l.
Proof. reflexivity. Qed.

Lemma count_app f l1 l2 : count f (l1 ++ l2) = count f l1 + count f l2.
Proof. induction l1 as [|p l IH]; [easy|]. cbn [app]. rewrite !count_cons, IH. lia. Qed.

Lemma count_nonneg f l : 0 <= count f l.
Proof. induction l as [|p l IH]; [easy|]. rewrite count_cons. destruct (f p); simpl; lia. Qed.

Lemma count_0 f l : count f l = 0 -> Forall (fun p => f p = false) l.
Proof.
  induction l as [|p l IH]; [constructor|]. rewrite count_cons. pose proof (count_nonneg f l).
  destruct (f p) eqn:E; simpl; [lia|]. constructor; [exact E|apply IH; lia].
Qed.

Lemma existsb_false_count f l : existsb f l = false -> count f l = 0.
Proof.
  induction l as [|p l IH]; [reflexivity|]. cbn [existsb]. rewrite count_cons, orb_false_iff.
  intros [-> E]. rewrite (IH E). reflexivity.
Qed.

(** What each thread guarantees of the shared state: the writer writes the
    slot that is not published; a pinned reader's slot has been published,
    and is the published one unless no flush is under way. *)
Definition thread_ok (s : Accepted) (quiet : Prop) (p : pc) : Prop :=
  match p with
  | FlushTry _ _ next | FlushWrite _ _ next => next = negb (published s)
  | FlushStore _ next => next = negb (published s)
  | ReadSlot i | ReadCopy i => slot s i ∈ history s /\ (i = published s \/ quiet)
  | ReadUnpin v => v ∈ history s
  | Unreachable => False
  | _ => True
  end.

Definition quiet (l : list pc) : Prop := count flushing l = 0.

Definition accepted_ok (c : config) : Prop :=
  let '(s, l) := c in
  readers s = count pinned l /\ count has_lock l <= 1 /\ slot s (published s) ∈ history s /\
  Forall (thread_ok s (quiet l)) l.

(** Steps that leave the slots and the index alone. *)
Definition same_slots (s s' : Accepted) : Prop :=
  slot0 s' = slot0 s /\ slot1 s' = slot1 s /\ published s' = published s /\ history s' = history s.

Lemma thread_ok_frame s s' (q q' : Prop) l :
  same_slots s s' -> (q -> q') -> Forall (thread_ok s q) l -> Forall (thread_ok s' q') l.
Proof.
  intros (E0 & E1 & EP & EH) Hq F. eapply Forall_impl; [exact F|]. intros p. clear F.
  assert (forall i, slot s' i = slot s i) as ES by (intros []; simpl; congruence).
  destruct p; cbn [thread_ok]; rewrite ?ES, ?EP, ?EH; tauto.
Qed.

Lemma count_insert f l1 p l2 : count f (l1 ++ p :: l2) = count f (l1 ++ l2) + b2z (f p).
Proof. rewrite !count_app, count_cons. lia. Qed.

Lemma quiet_frame l1 l2 p p' :
  (flushing p' = true -> flushing p = true) -> quiet (l1 ++ p :: l2) -> quiet (l1 ++ p' :: l2).
Proof.
  unfold quiet. rewrite !count_insert. pose proof (count_nonneg flushing (l1 ++ l2)).
  destruct (flushing p), (flushing p'); simpl; intuition lia.
Qed.

(** A step of that kind keeps the invariant when the moving thread stays
    sound, does not start a flush, and keeps the counts. *)
Lemma accepted_ok_frame s s' l1 l2 p p' :
  accepted_ok (s, l1 ++ p :: l2) -> same_slots s s' ->
  readers s' = readers s + b2z (pinned p') - b2z (pinned p) ->
  (has_lock p' = true -> has_lock p = true \/ existsb has_lock (l1 ++ l2) = false) ->
  (flushing p' = true -> flushing p = true) ->
  (thread_ok s (quiet (l1 ++ p :: l2)) p -> thread_ok s' (quiet (l1 ++ p' :: l2)) p') ->
  accepted_ok (s', l1 ++ p' :: l2).
Proof.
  intros (R & L & H & T) SS ER HL HF HT. cbn [accepted_ok]. rewrite !count_insert in *.
  apply Forall_app in T as [T1 T2]. inversion T2 as [|? ? Tp T3]; subst.
  pose proof (quiet_frame l1 l2 p p' HF) as Q. split; [lia|]. split.
  { destruct (has_lock p') eqn:E; [|simpl; pose proof (count_nonneg has_lock (l1 ++ l2)); destruct (has_lock p); simpl in L; lia].
    destruct (HL eq_refl) as [Hp|He]; [rewrite Hp in L; exact L|].
    apply existsb_false_count in He. rewrite He. simpl. lia. }
  split.
  { destruct SS as (E0 & E1 & EP & EH). rewrite EP, EH. unfold slot in *. destruct (published s); congruence. }
  apply Forall_app. split; [now apply (thread_ok_frame s s' _ _ _ SS Q)|].
  constructor; [now apply HT|now apply (thread_ok_frame s s' _ _ _ SS Q)].
Qed.

(** Who flushes holds the lock, so nobody else does. *)
Lemma sole_flusher s l1 p l2 :
  accepted_ok (s, l1 ++ p :: l2) -> has_lock p = true ->
  count has_lock (l1 ++ l2) = 0 /\ count flushing (l1 ++ l2) = 0.
Proof.
  intros (_ & L & _ & _) Hp. rewrite count_insert, Hp in L. simpl in L.
  pose proof (count_nonneg has_lock (l1 ++ l2)). assert (count has_lock (l1 ++ l2) = 0) as Z0 by lia.
  split; [assumption|]. apply existsb_false_count. apply not_true_iff_false. intros X.
  apply existsb_exists in X as (x & X1 & X2). apply count_0 in Z0. rewrite List.Forall_forall in Z0.
  specialize (Z0 x X1). destruct x; discriminate.
Qed.

Lemma same_slots_refl s : same_slots s s.
Proof. now repeat split. Qed.

Lemma writes_lock i l : existsb (writes i) l = true -> exists k v, FlushWrite k v i ∈ l.
Proof.
  intros X. apply existsb_exists in X as (x & X1 & X2). destruct x; try discriminate.
  apply Bool.eqb_prop in X2. subst. exists k, v. now apply list_elem_of_In.
Qed.

(** A pinned reader never meets a writer on its slot. *)
Lemma reader_never_blocked s l1 l2 i :
  accepted_ok (s, l1 ++ ReadSlot i :: l2) -> existsb (writes i) (l1 ++ l2) = false.
Proof.
  intros (_ & _ & _ & T). apply not_true_iff_false. intros X. apply writes_lock in X as (k & v & X).
  apply elem_of_app in X. rewrite Forall_forall in T.
  assert (FlushWrite k v i ∈ l1 ++ ReadSlot i :: l2) as E1.
  { rewrite elem_of_app, elem_of_cons. tauto. }
  pose proof (T _ E1) as W. pose proof (T (ReadSlot i) ltac:(rewrite elem_of_app, elem_of_cons; tauto)) as Rd.
  cbn [thread_ok] in W, Rd. destruct Rd as [_ [->|Q]].
  - destruct (published s); discriminate.
  - unfold quiet in Q. apply count_0 in Q. rewrite Forall_forall in Q. now specialize (Q _ E1).
Qed.

Lemma flush_start_ok s l1 l2 k v :
  accepted_ok (s, l1 ++ Flush k :: l2) -> readers s = 0 -> accepted_ok (s, l1 ++ FlushEmpty k v :: l2).
Proof.
  intros (R & L & H & T) R0. cbn [accepted_ok]. rewrite !count_insert in *. cbn in R, L |- *.
  split; [lia|]. split; [lia|]. split; [assumption|].
  assert (count pinned (l1 ++ l2) = 0) as P by lia. apply count_0 in P. rewrite Forall_app in P.
  assert (forall l, Forall (fun p => pinned p = false) l -> Forall (thread_ok s (quiet (l1 ++ Flush k :: l2))) l ->
    Forall (thread_ok s (quiet (l1 ++ FlushEmpty k v :: l2))) l) as M.
  { intros l P1 T1. rewrite Forall_forall in *. intros p Hp. specialize (P1 p Hp). specialize (T1 p Hp).
    destruct p; try discriminate P1; exact T1. }
  apply Forall_app in T as [T1 T2]. inversion T2; subst. apply Forall_app.
  split; [apply M; tauto|]. constructor; [exact I|apply M; tauto].
Qed.

Lemma flush_write_ok s l1 l2 k v next :
  accepted_ok (s, l1 ++ FlushWrite k v next :: l2) ->
  accepted_ok (MkAccepted (slot0 (set_slot s next v)) (slot1 (set_slot s next v)) (published s) (readers s)
                 None (history s), l1 ++ FlushStore k next :: l2).
Proof.
  intros Hok. destruct (sole_flusher _ _ _ _ Hok eq_refl) as [_ NF]. destruct Hok as (R & L & H & T).
  cbn [accepted_ok]. rewrite !count_insert in *. cbn in R, L |- *. apply Forall_app in T as [T1 T2].
  inversion T2 as [|? ? Tp T3]; subst. cbn [thread_ok] in Tp. subst next.
  set (s' := MkAccepted _ _ _ _ _ _).
  assert (slot s' (published s) = slot s (published s)) as SP by (unfold s', slot; destruct (published s); reflexivity).
  split; [lia|]. split; [lia|]. split; [now rewrite SP|].
  assert (~ quiet (l1 ++ FlushWrite k v (negb (published s)) :: l2)) as NQ
    by (unfold quiet; rewrite count_insert, NF; discriminate).
  assert (forall l, Forall (thread_ok s (quiet (l1 ++ FlushWrite k v (negb (published s)) :: l2))) l ->
    Forall (thread_ok s' (quiet (l1 ++ FlushStore k (negb (published s)) :: l2))) l) as M.
  { intros l F. eapply Forall_impl; [exact F|]. intros p. destruct p; cbn [thread_ok]; try tauto;
      (intros [Hh [-> | Q]]; [rewrite SP; auto|contradiction]). }
  apply Forall_app. split; [now apply M|]. constructor; [reflexivity|now apply M].
Qed.

Lemma flush_store_ok s l1 l2 k next :
  accepted_ok (s, l1 ++ FlushStore k next :: l2) ->
  accepted_ok (MkAccepted (slot0 s) (slot1 s) next (readers s) (accepted_pending s)
                 (history s ++ [slot s next]), l1 ++ FlushDone k :: l2).
Proof.
  intros Hok. destruct (sole_flusher _ _ _ _ Hok eq_refl) as [NL NF]. destruct Hok as (R & L & H & T).
  cbn [accepted_ok]. rewrite !count_insert in *. cbn in R, L |- *. apply Forall_app in T as [T1 T2].
  inversion T2 as [|? ? Tp T3]; subst. set (s' := MkAccepted _ _ _ _ _ _).
  split; [lia|]. split; [lia|]. split.
  { rewrite elem_of_app. right. apply list_elem_of_singleton. reflexivity. }
  assert (quiet (l1 ++ FlushDone k :: l2)) as Q by (unfold quiet; rewrite count_insert, NF; reflexivity).
  apply count_0 in NF. rewrite Forall_app in NF.
  assert (forall l, Forall (fun p => flushing p = false) l ->
    Forall (thread_ok s (quiet (l1 ++ FlushStore k next :: l2))) l ->
    Forall (thread_ok s' (quiet (l1 ++ FlushDone k :: l2))) l) as M.
  { intros l F1 G1. rewrite Forall_forall in *. intros p Hp. specialize (F1 p Hp). specialize (G1 p Hp).
    destruct p; try discriminate F1; cbn [thread_ok] in *; try exact G1; unfold s'; cbn [history];
      rewrite elem_of_app; tauto. }
  apply Forall_app. split; [apply M; tauto|]. constructor; [exact I|apply M; tauto].
Qed.

Lemma accepted_step_ok c c' : accepted_ok c -> accepted_step c c' -> accepted_ok c'.
Proof.
  intros Hok St. destruct St as [s s' l1 p l2 p' St].
  destruct St; try (now apply flush_write_ok); try (now apply flush_store_ok);
    try (now apply flush_start_ok);
    try (eapply accepted_ok_frame; [exact Hok|now repeat split| | | |];
         cbn [pinned has_lock flushing b2z readers resume];
         solve [lia | auto | discriminate | destruct k; cbn; lia || auto || discriminate | cbn [thread_ok]; tauto]).
  - exact (flush_write_ok s l1 l2 k v next Hok).
  - eapply accepted_ok_frame; [exact Hok|now repeat split|cbn; lia|discriminate|discriminate|].
    intros _. cbn [thread_ok]. destruct Hok as (_ & _ & Hp & _). auto.
  - rewrite (reader_never_blocked _ _ _ _ Hok) in *. discriminate.
  - eapply accepted_ok_frame; [exact Hok|now repeat split|cbn; lia|discriminate|discriminate|].
    cbn [thread_ok]. intros [Hh [Hi|Q]]; split; auto. right. eapply quiet_frame; [|exact Q]. discriminate.
Qed.

Lemma accepted_new_ok initial n : accepted_ok (Accepted_new initial, repeat Idle n).
Proof.
  assert (forall f, f Idle = false -> count f (repeat Idle n) = 0) as C.
  { intros f Hf. induction n as [|n IH]; [reflexivity|]. cbn [repeat]. rewrite count_cons, Hf, IH. reflexivity. }
  cbn [accepted_ok]. rewrite !C by reflexivity. split; [reflexivity|]. split; [lia|].
  split; [now left|]. apply Forall_forall. intros p Hp. apply list_elem_of_In, repeat_spec in Hp. now subst.
Qed.

Lemma accepted_reachable_ok initial n c :
  rtc accepted_step (Accepted_new initial, repeat Idle n) c -> accepted_ok c.
Proof.
  intros St. pose proof (accepted_new_ok initial n) as H0. induction St as [|a b c S1 _ IH]; [assumption|].
  apply IH. eapply accepted_step_ok; eauto.
Qed.

(** C25 The [unreachable!] of the audio thread's capture is unreachable: with any
    number of threads publishing, reading and capturing in any interleaving,
    no pinned reader finds its slot locked by a writer. *)
Theorem capture_never_unreachable initial n s l :
  rtc accepted_step (Accepted_new initial, repeat Idle n) (s, l) -> Unreachable ∉ l.
Proof.
  intros St Hu. apply accepted_reachable_ok in St as (_ & _ & _ & T). rewrite Forall_forall in T.
  exact (T _ Hu).
Qed.

(** A capture returns a value that was published in full: the initial state
    or one that a publisher stored before, never a slot under construction. *)
Theorem capture_returns_published initial n s l v :
  rtc accepted_step (Accepted_new initial, repeat Idle n) (s, l) -> ReadUnpin v ∈ l -> v ∈ history s.
Proof.
  intros St Hu. apply accepted_reachable_ok in St as (_ & _ & _ & T). rewrite Forall_forall in T.
  exact (T _ Hu).
Qed.

(** The pin count is exact: it is the number of captures between their pin
    and their release, so it returns to zero when they are done and a pending
    publication cannot be starved by a leaked pin. *)
Theorem reader_count_exact initial n s l :
  rtc accepted_step (Accepted_new initial, repeat Idle n) (s, l) ->
  readers s = count pinned l /\ (Forall (fun p => pinned p = false) l -> readers s = 0).
Proof.
  intros St. apply accepted_reachable_ok in St as (R & _ & _ & _). split; [assumption|]. intros F. rewrite R.
  clear - F. induction F as [|p l Hp F IH]; [reflexivity|]. rewrite count_cons, Hp, IH. reflexivity.
Qed.

End RtAccepted.
