(* ===== verification/Controller.v ===== *)
(** The controller's publication boundary: [SessionCommit] of
    src/src/link/controller.rs and the functions it is built from.

    Every change of the shared session state runs as one function of
    [SessionCommit] while all locks are held ([try_session_commit]); when a
    lock is taken elsewhere nothing runs and the attempt is repeated.  A
    reading of the clock is an argument of the function that takes it, and so
    is the random identity of [NodeId::new]. *)

From stdpp Require Import base list numbers strings relations.
From Stdlib Require Import ZArith Lia SpecFloat.
From S2P Require Import Prelude Chrono F64 Encoding Beats Tempo Timeline GhostXForm TimelineSync Entries Sessions Peers SessionApi.

Section Controller.
Context `{Ch : Chrono, FD : FloatDecode}.

(** ** Initial states and the maps of the playback state *)

Definition init_x_form (now : Duration) : GhostXForm := MkXForm f64_one (Duration_neg now).

Definition init_session_state (tempo : Tempo) (now : Duration) : SessionState :=
  MkSessionState
    (clamp_tempo (MkTimeline tempo (Beats_new f64_zero) Duration_zero))
    (MkStartStop false (Beats_new f64_zero) (Duration_microseconds 0))
    (init_x_form now).

Definition init_client_state (session_state : SessionState) (session_id : SessionId) : ClientState :=
  let host_time := ghost_to_host_nanos (ghost_x_form session_state) (Duration_microseconds 0) in
  let tl := session_timeline session_state in
  MkClientState (MkTimeline (tempo tl) (beat_origin tl) host_time) session_id
    (MkClientStartStop (ss_is_playing (session_start_stop session_state)) host_time host_time).

Definition map_start_stop_state_from_session_to_client (s : StartStopState) (tl : Timeline)
    (x_form : GhostXForm) : ClientStartStopState :=
  MkClientStartStop (ss_is_playing s)
    (ghost_nanos_to_host x_form (nanos_at_microbeats tl (Beats_value (ss_beats s))))
    (ghost_to_host_nanos x_form (ss_timestamp s)).

Definition map_start_stop_state_from_client_to_session (s : ClientStartStopState) (tl : Timeline)
    (x_form : GhostXForm) : StartStopState :=
  MkStartStop (css_is_playing s) (to_beats tl (host_to_ghost_nanos x_form (css_time s)))
    (host_to_ghost_nanos x_form (css_timestamp s)).

Definition with_css_timestamp (s : ClientStartStopState) (t : Duration) : ClientStartStopState :=
  MkClientStartStop (css_is_playing s) (css_time s) t.

Definition with_ss_timestamp (s : StartStopState) (t : Duration) : StartStopState :=
  MkStartStop (ss_is_playing s) (ss_beats s) t.

(** ** Installing a timing *)

(** The two states behind [&mut] are returned with the result. *)
Definition update_timing_guarded (session : SessionState) (client : ClientState)
    (new_timeline : Timeline) (new_x_form : GhostXForm) (now : Duration) (sync_enabled : bool)
    (id : SessionId) : result (option Tempo) CommitError * SessionState * ClientState :=
  let tl := clamp_tempo new_timeline in
  match num_microseconds (time_origin tl) with
  | None => (Err TimelineOriginExhausted, session, client)
  | Some _ =>
      let old := session_timeline session in
      let outcome := if Tempo_eqb (tempo old) (tempo tl) then None else Some (tempo tl) in
      if negb (Timeline_eqb old tl) || negb (GhostXForm_eqb (ghost_x_form session) new_x_form) then
        match update_client_timeline_from_session (client_timeline client) tl now new_x_form with
        | Err e => (Err e, session, client)
        | Ok ctl =>
            let session := MkSessionState tl (session_start_stop session) new_x_form in
            let start_stop :=
              if sync_enabled &&
                 negb (StartStopState_eqb (session_start_stop session) StartStopState_default) then
                with_css_timestamp
                  (map_start_stop_state_from_session_to_client (session_start_stop session) tl
                     new_x_form)
                  (css_timestamp (client_start_stop client))
              else client_start_stop client in
            (Ok outcome, session, MkClientState ctl id start_stop)
        end
      else
        (Ok outcome, session, MkClientState (client_timeline client) id (client_start_stop client))
  end.

(** ** The state of a commit *)

Inductive ClientCommit :=
| WaitingForPublication
| CommitComplete (changed : option Tempo)
| Rejected (e : CommitError).

Record SessionCommit := MkCommit {
  c_published : Session;
  c_current : Session;
  c_others : list Session;
  c_peers : list ControllerPeer;
  c_peer : PeerState;
  c_session : SessionState;
  c_client : ClientState;
  c_counter : nat;
  c_sync_enabled : bool;
  c_responder_id : SessionId;
  c_responder_form : GhostXForm;
  c_gateway_peer : option PeerState;
  c_supply : Supply
}.

(** Assignments to the fields. *)
Definition with_registry (s : SessionCommit) (cur : Session) (others : list Session)
    (ps : list ControllerPeer) (sup : Supply) : SessionCommit :=
  MkCommit (c_published s) cur others ps (c_peer s) (c_session s) (c_client s) (c_counter s)
    (c_sync_enabled s) (c_responder_id s) (c_responder_form s) (c_gateway_peer s) sup.

Definition with_states (s : SessionCommit) (session : SessionState) (client : ClientState)
  : SessionCommit :=
  MkCommit (c_published s) (c_current s) (c_others s) (c_peers s) (c_peer s) session client
    (c_counter s) (c_sync_enabled s) (c_responder_id s) (c_responder_form s) (c_gateway_peer s)
    (c_supply s).

Definition with_identity (s : SessionCommit) (node : NodeId) (id : SessionId) : SessionCommit :=
  let n := peer_node_state (c_peer s) in
  MkCommit (c_published s) (c_current s) (c_others s) (c_peers s)
    (MkPeerState (MkNodeState node id (node_timeline n) (node_start_stop n))
       (measurement_endpoint (c_peer s)) (audio_endpoint (c_peer s)))
    (c_session s) (c_client s) (c_counter s) (c_sync_enabled s) (c_responder_id s)
    (c_responder_form s) (c_gateway_peer s) (c_supply s).

Definition with_counter (s : SessionCommit) (n : nat) : SessionCommit :=
  MkCommit (c_published s) (c_current s) (c_others s) (c_peers s) (c_peer s) (c_session s)
    (c_client s) n (c_sync_enabled s) (c_responder_id s) (c_responder_form s) (c_gateway_peer s)
    (c_supply s).

Definition publish_discovery (s : SessionCommit) : SessionCommit :=
  let n := peer_node_state (c_peer s) in
  let node := MkNodeState (node_id n) (node_session_id n) (session_timeline (c_session s))
                (session_start_stop (c_session s)) in
  MkCommit (c_current s) (c_current s) (c_others s) (c_peers s)
    (MkPeerState node (measurement_endpoint (c_peer s)) (audio_endpoint (c_peer s)))
    (c_session s) (c_client s) (c_counter s) (c_sync_enabled s)
    (node_session_id node) (ghost_x_form (c_session s))
    (match c_gateway_peer s with
     | Some p => Some (MkPeerState node (measurement_endpoint p) (audio_endpoint p))
     | None => None
     end)
    (c_supply s).

Definition reject_pending_timing (s : SessionCommit) : SessionCommit :=
  let rejected := c_current s in
  let published := c_published s in
  let others :=
    if negb (Session_matches published rejected) then
      List.filter (fun o => negb (Session_matches published o) && negb (Session_matches rejected o))
        (c_others s)
    else map (fun o => if Session_matches published o then published else o) (c_others s) in
  with_registry s published others (c_peers s) (c_supply s).

(** [now] is the reading of [init_x_form], [now'] the one of
    [update_timing_guarded], [random_id] the result of [NodeId::new()]. *)
Definition reset (s : SessionCommit) (now now' : Duration) (random_id : NodeId)
  : result (option Tempo) CommitError * SessionCommit :=
  let node := if bool_decide (state_ident (c_peer s) = NodeId_default) then random_id
              else state_ident (c_peer s) in
  let id := MkSessionId node in
  let x := init_x_form now in
  let host_time := Duration_neg (intercept x) in
  let tl := MkTimeline (tempo (session_timeline (c_session s)))
              (to_beats (session_timeline (c_session s))
                 (host_to_ghost_nanos (ghost_x_form (c_session s)) host_time))
              (host_to_ghost_nanos x host_time) in
  let session := MkSessionState (session_timeline (c_session s)) StartStopState_default
                   (ghost_x_form (c_session s)) in
  match update_timing_guarded session (c_client s) tl x now' (c_sync_enabled s) id with
  | (Err e, _, _) => (Err e, reject_pending_timing s)
  | (Ok changed, session, client) =>
      let s := with_identity s node id in
      let s := with_states s session client in
      let '(cur, sup) := Session_new id tl (MkMeasurement x host_time) (c_supply s) in
      let s := with_registry s cur [] [] sup in
      let s := with_counter s 0 in
      (Ok changed, publish_discovery s)
  end.

(** Every candidate of the current incarnation takes its edit revision. *)
Definition share_revision (cur : Session) (others : list Session) : list Session :=
  map (fun o => if SessionKey_matches (Session_key cur) o
                then MkSession (incarnation o) (edit_revision cur) (session_id o) (timeline o)
                       (measurement o)
                else o) others.

Definition invalidate_client_captures (s : SessionCommit) : SessionCommit :=
  let '(cur, sup) := invalidate_edit_origin (c_current s) (c_supply s) in
  with_registry s cur (share_revision cur (c_others s)) (c_peers s) sup.

Definition refresh_timing (s : SessionCommit) (now : Duration)
  : result (option Tempo) CommitError * SessionCommit :=
  if negb (Session_matches (c_published s) (c_current s)) ||
     negb (bool_decide (session_id (c_current s) = state_session_id (c_peer s)))
  then (Ok None, s)
  else
    let session := c_current s in
    let before := c_client s in
    match update_timing_guarded (c_session s) (c_client s) (timeline session)
            (x_form (measurement session)) now (c_sync_enabled s) (session_id session) with
    | (Err e, st, cl) => (Err e, reject_pending_timing (with_states s st cl))
    | (Ok changed, st, cl) =>
        let s := with_states s st cl in
        let s := if negb (ClientState_eqb (c_client s) before) then invalidate_client_captures s
                 else s in
        (Ok changed, publish_discovery s)
    end.

(** ** Client edits *)

(** The calculations of [client_edit_from_origin] that can refuse the edit,
    in the order of the code: the session timeline it leads to, ... *)
Definition edit_target (s : SessionCommit) (incoming : IncomingClientState)
  : result (option Timeline) CommitError :=
  match in_timeline incoming with
  | Some tl =>
      let? target := update_session_timeline_from_client (timeline (c_current s)) (clamp_tempo tl)
                       (timeline_timestamp incoming) (ghost_x_form (c_session s)) in
      Ok (Some target)
  | None => Ok None
  end.

(** ... the playback state of the session, later than the one it has, ... *)
Definition edit_start_stop (s : SessionCommit) (incoming : IncomingClientState)
    (target : option Timeline) : result (option StartStopState) CommitError :=
  match in_start_stop incoming with
  | Some state =>
      if Duration_leb (css_timestamp state) (css_timestamp (client_start_stop (c_client s)))
      then Err StaleClientState
      else if c_sync_enabled s then
        let? successor :=
          ok_or (checked_i64 (micros (ss_timestamp (session_start_stop (c_session s))) + 1))
                StartStopTimestampExhausted in
        let mapped := map_start_stop_state_from_client_to_session state
                        (default (session_timeline (c_session s)) target)
                        (ghost_x_form (c_session s)) in
        Ok (Some (with_ss_timestamp mapped
                    (Duration_microseconds (Z.max (micros (ss_timestamp mapped)) successor))))
      else Ok None
  | None => Ok None
  end.

(** ... and the two states with the new timing. *)
Definition edit_prepared (s : SessionCommit) (incoming : IncomingClientState)
    (target : option Timeline) (now : Duration)
  : result (option (Timeline * SessionState * ClientState * option Tempo)) CommitError :=
  match in_timeline incoming, target with
  | Some tl, Some target =>
      let client := MkClientState (clamp_tempo tl) (timeline_session_id (c_client s))
                      (client_start_stop (c_client s)) in
      match update_timing_guarded (c_session s) client target (ghost_x_form (c_session s)) now
              (c_sync_enabled s) (session_id (c_current s)) with
      | (Ok changed, st, cl) => Ok (Some (target, st, cl, changed))
      | (Err e, _, _) => Err e
      end
  | _, _ => Ok None
  end.

Definition set_peer_timeline (id : SessionId) (tl : Timeline) (p : ControllerPeer) : ControllerPeer :=
  if bool_decide (peer_session_id p = id) then
    let st := peer_state p in
    let n := peer_node_state st in
    MkPeer (MkPeerState (MkNodeState (node_id n) (node_session_id n) tl (node_start_stop n))
              (measurement_endpoint st) (audio_endpoint st))
  else p.

(** The part that installs an accepted timeline. *)
Definition install_timeline (s : SessionCommit) (target : Timeline) (st : SessionState)
    (cl : ClientState) : SessionCommit :=
  let '(cur, sup) := set_timeline (c_current s) target (c_supply s) in
  let others :=
    map (fun o => if SessionKey_matches (Session_key cur) o
                  then MkSession (incarnation o) (edit_revision cur) (session_id o) target
                         (measurement o)
                  else o) (c_others s) in
  let ps := map (set_peer_timeline (session_id cur) target) (c_peers s) in
  with_states (with_registry s cur others ps sup) st cl.

(** The part that installs an accepted playback state. *)
Definition install_start_stop (s : SessionCommit) (state : ClientStartStopState)
    (mapped : option StartStopState) : SessionCommit :=
  let cl := c_client s in
  let s := with_registry s (c_current s) (share_revision (c_current s) (c_others s)) (c_peers s)
             (c_supply s) in
  let st := match mapped with
            | Some m => MkSessionState (session_timeline (c_session s)) m (ghost_x_form (c_session s))
            | None => c_session s
            end in
  with_states s st (MkClientState (client_timeline cl) (timeline_session_id cl) state).

Definition install_edit (s : SessionCommit) (incoming : IncomingClientState)
    (prepared : option (Timeline * SessionState * ClientState * option Tempo))
    (mapped : option StartStopState) : ClientCommit * SessionCommit :=
  let s :=
    if is_some (in_timeline incoming) || is_some (in_start_stop incoming) then
      let '(cur, sup) := invalidate_edit_origin (c_current s) (c_supply s) in
      with_registry s cur (c_others s) (c_peers s) sup
    else s in
  let '(s, changed) :=
    match prepared with
    | Some (target, st, cl, changed) => (install_timeline s target st cl, changed)
    | None => (s, None)
    end in
  let s :=
    match in_start_stop incoming with
    | Some state => install_start_stop s state mapped
    | None => s
    end in
  (CommitComplete changed, publish_discovery s).

(** A proposal is held back while the session it would edit is not the one
    published. *)
Definition edit_must_wait (s : SessionCommit) (incoming : IncomingClientState) : bool :=
  negb (Session_matches (c_published s) (c_current s)) ||
  negb (bool_decide (session_id (c_current s) = state_session_id (c_peer s))) ||
  negb (GhostXForm_eqb (x_form (measurement (c_current s))) (ghost_x_form (c_session s))) ||
  (negb (is_some (in_timeline incoming)) &&
   negb (Timeline_eqb (timeline (c_current s)) (session_timeline (c_session s)))).

Definition client_edit_from_origin (s : SessionCommit) (incoming : IncomingClientState)
    (now : Duration) (origin : option SessionEditOrigin) : ClientCommit * SessionCommit :=
  if (match origin with Some o => negb (origin_matches o (c_current s)) | None => false end)
  then (Rejected StaleClientState, s)
  else if edit_must_wait s incoming then (WaitingForPublication, s)
  else
    match
      let? target := edit_target s incoming in
      let? mapped := edit_start_stop s incoming target in
      let? prepared := edit_prepared s incoming target now in
      Ok (prepared, mapped)
    with
    | Err e => (Rejected e, s)
    | Ok (prepared, mapped) => install_edit s incoming prepared mapped
    end.

(** [Controller::capture_client_state]; [locks_free]: the four locks were
    taken. *)
Definition capture_client_state (s : SessionCommit) (locks_free : bool)
  : option (ClientState * SessionEditOrigin) :=
  if locks_free &&
     Session_matches (c_published s) (c_current s) &&
     bool_decide (session_id (c_current s) = timeline_session_id (c_client s)) &&
     Timeline_eqb (timeline (c_current s)) (session_timeline (c_session s)) &&
     GhostXForm_eqb (x_form (measurement (c_current s))) (ghost_x_form (c_session s))
  then let! origin := edit_origin (c_current s) in Some (c_client s, origin)
  else None.

(** ** What peers announce *)

(** [now] is the reading of [update_timing_guarded], [now'] the later one. *)
Definition received_start_stop (s : SessionCommit) (source : SessionId) (advertised : Timeline)
    (incoming : StartStopState) (now now' : Duration) : ClientCommit * SessionCommit :=
  let tl := session_timeline (c_session s) in
  let adv := clamp_tempo advertised in
  if negb (bool_decide (source = session_id (c_current s))) then (CommitComplete None, s)
  else if negb (Session_matches (c_published s) (c_current s)) ||
          negb (bool_decide (state_session_id (c_peer s) = source)) ||
          negb (GhostXForm_eqb (x_form (measurement (c_current s))) (ghost_x_form (c_session s))) ||
          negb (Timeline_eqb (timeline (c_current s)) tl)
  then (WaitingForPublication, s)
  else if negb (Beats_value (beat_origin adv) =? Beats_value (beat_origin tl)) ||
          negb (period_micros (tempo adv) =? period_micros (tempo tl)) ||
          negb (micros (time_origin adv) =? micros (time_origin tl))
  then (CommitComplete None, s)
  else if Duration_leb (ss_timestamp incoming) (ss_timestamp (session_start_stop (c_session s)))
  then (CommitComplete None, s)
  else
    match update_timing_guarded
            (MkSessionState tl incoming (ghost_x_form (c_session s))) (c_client s)
            (timeline (c_current s)) (x_form (measurement (c_current s))) now (c_sync_enabled s)
            source with
    | (Err e, _, _) => (Rejected e, s)
    | (Ok changed, st, cl) =>
        let cl :=
          if c_sync_enabled s then
            let old := css_timestamp (client_start_stop cl) in
            let observation := if Duration_ltb old now' then now' else old in
            MkClientState (client_timeline cl) (timeline_session_id cl)
              (with_css_timestamp
                 (map_start_stop_state_from_session_to_client incoming (session_timeline st)
                    (ghost_x_form st))
                 observation)
          else cl in
        let s := invalidate_client_captures s in
        (CommitComplete changed, publish_discovery (with_states s st cl))
    end.

(** [now], [now'] and [random_id] as in [reset]. *)
Definition join (s : SessionCommit) (queued : Session) (now now' : Duration) (random_id : NodeId)
  : result (option Tempo) CommitError * SessionCommit :=
  if negb (SessionKey_matches (Session_key queued) (c_current s)) then (Ok None, s)
  else
    let session := c_current s in
    let count := count_session_peers (session_id session) (c_peers s) (state_ident (c_peer s)) in
    if negb (bool_decide (session_node (session_id session) = state_ident (c_peer s))) &&
       (count =? 0)%nat
    then reset s now now' random_id
    else
      let st := c_session s in
      let st := if negb (bool_decide (state_session_id (c_peer s) = session_id session))
                then MkSessionState (session_timeline st) StartStopState_default (ghost_x_form st)
                else st in
      let before := c_client s in
      match update_timing_guarded st (c_client s) (timeline session)
              (x_form (measurement session)) now (c_sync_enabled s) (session_id session) with
      | (Err e, _, _) => (Err e, reject_pending_timing s)
      | (Ok changed, st, cl) =>
          let s := with_identity s (state_ident (c_peer s)) (session_id session) in
          let s := with_states s st cl in
          let s := if negb (ClientState_eqb (c_client s) before) then invalidate_client_captures s
                   else s in
          (Ok changed, with_counter (publish_discovery s) count)
      end.

(** The commit of [reset_state_if_peerless]. *)
Definition reset_if_peerless (s : SessionCommit) (expected : option SessionId) (now now' : Duration)
    (random_id : NodeId) : result (option Tempo) CommitError * SessionCommit :=
  match expected with
  | Some id =>
      if negb (bool_decide (session_id (c_current s) = id)) ||
         negb (bool_decide (state_session_id (c_peer s) = id)) ||
         negb (count_session_peers id (c_peers s) (state_ident (c_peer s)) =? 0)%nat
      then (Ok None, s)
      else reset s now now' random_id
  | None => reset s now now' random_id
  end.

Definition refresh_peer_count (s : SessionCommit) : (SessionId * nat * nat) * SessionCommit :=
  let count := count_session_peers (state_session_id (c_peer s)) (c_peers s)
                 (state_ident (c_peer s)) in
  ((state_session_id (c_peer s), c_counter s, count), with_counter s count).

(** [dispatch_current_tempo]: what the callback is called with, if it is;
    [free] says whether both locks were taken. *)
Definition dispatch_current_tempo (session : SessionState) (free : bool) (t : Tempo) : option f64 :=
  if free && Tempo_eqb (tempo (session_timeline session)) t then Some (bpm t) else None.

(** The registry of src/src/link/sessions.rs inside the state of a commit. *)
Definition registry_of (s : SessionCommit) (joined : bool) (reqs : list MeasurePeerEvent)
    (js : list Session) : Registry :=
  MkRegistry (c_current s) (c_others s) (c_peers s) joined (c_supply s) reqs js.

(** [Controller::enable_start_stop_sync] and [Controller::set_audio_endpoint]. *)
Definition enable_start_stop_sync (s : SessionCommit) (enable : bool) : SessionCommit :=
  MkCommit (c_published s) (c_current s) (c_others s) (c_peers s) (c_peer s) (c_session s)
    (c_client s) (c_counter s) enable (c_responder_id s) (c_responder_form s) (c_gateway_peer s)
    (c_supply s).

Definition set_audio_endpoint (s : SessionCommit) (endpoint : option SocketAddrV4) : SessionCommit :=
  MkCommit (c_published s) (c_current s) (c_others s) (c_peers s)
    (MkPeerState (peer_node_state (c_peer s)) (measurement_endpoint (c_peer s)) endpoint)
    (c_session s) (c_client s) (c_counter s) (c_sync_enabled s) (c_responder_id s)
    (c_responder_form s) (c_gateway_peer s) (c_supply s).

(** The state [Controller::new_on_io] builds; [now] is the reading of
    [init_x_form], [now'] the timestamp of the first measurement.  The ping
    responder is created from the same peer and session states. *)
Definition Controller_new (tempo : Tempo) (now now' : Duration) (random_id : NodeId) (sup : Supply)
  : SessionCommit :=
  let id := MkSessionId random_id in
  let st := init_session_state tempo now in
  let tl := session_timeline st in
  let '(first, sup) := Session_new id tl (MkMeasurement (ghost_x_form st) now') sup in
  MkCommit first first [first] []
    (MkPeerState (MkNodeState random_id id tl StartStopState_default) None None)
    st (init_client_state st id) 0 false id (ghost_x_form st) None sup.

(** One commit at a time runs under [try_session_commit]; between two of them
    the measurement and discovery tasks run the critical sections of the
    registry. *)
Inductive commit_step : SessionCommit -> SessionCommit -> Prop :=
| StepSessions s joined reqs js g :
    sessions_step (registry_of s joined reqs js) g ->
    commit_step s (with_registry s (current g) (other_sessions g) (peers g) (supply g))
| StepSync s enable : commit_step s (enable_start_stop_sync s enable)
| StepEndpoint s endpoint : commit_step s (set_audio_endpoint s endpoint)
| StepCount s : commit_step s (refresh_peer_count s).2
| StepEdit s incoming now origin : commit_step s (client_edit_from_origin s incoming now origin).2
| StepStartStop s source tl ss now now' : commit_step s (received_start_stop s source tl ss now now').2
| StepRefresh s now : commit_step s (refresh_timing s now).2
| StepJoin s queued now now' id : commit_step s (join s queued now now' id).2
| StepReset s expected now now' id : commit_step s (reset_if_peerless s expected now now' id).2.

End Controller.

(** ** What a commit guarantees *)

Section ControllerProperties.
Context `{Laws : ChronoLaws, FL : FloatDecodeLaws}.

(** The code's [==] of two mappings, or identity (a NaN slope is not equal to
    itself). *)
Definition same_form (a b : GhostXForm) : Prop := a = b \/ GhostXForm_eqb a b = true.

Lemma GhostXForm_eqb_sym a b : GhostXForm_eqb a b = true -> GhostXForm_eqb b a = true.
Proof.
  unfold GhostXForm_eqb. intros E. apply andb_prop in E as [E1 E2].
  apply Duration_eqb_spec in E2. rewrite E2, (proj2 (Duration_eqb_spec _ _) eq_refl), andb_true_r.
  apply f64_eqb_eq in E1 as Q. destruct Q as [Q | (s & r & Q1 & Q2)].
  - now rewrite Q in E1 |- *.
  - now rewrite Q1, Q2.
Qed.

(** An accepted timing installs the clamped timeline, the mapping and the
    session, and keeps the session's playback state. *)
Lemma update_timing_ok st cl tl x now sync id ch st' cl' :
  update_timing_guarded st cl tl x now sync id = (Ok ch, st', cl') ->
  session_timeline st' = clamp_tempo tl /\ same_form x (ghost_x_form st') /\
  session_start_stop st' = session_start_stop st /\ timeline_session_id cl' = id.
Proof.
  unfold update_timing_guarded. destruct (num_microseconds _); [|discriminate].
  destruct (negb _ || negb _) eqn:N.
  - destruct (update_client_timeline_from_session _ _ _ _); [|discriminate].
    intros [= _ <- <-]. cbn. repeat split. now left.
  - apply orb_false_elim in N as [N1 N2]. apply negb_false_iff in N1, N2.
    intros [= _ <- <-]. cbn. repeat split.
    + eapply Timeline_eqb_clamped; [apply clamp_tempo_clamped|exact N1].
    + right. now apply GhostXForm_eqb_sym.
Qed.

Lemma update_timing_err st cl tl x now sync id e st' cl' :
  update_timing_guarded st cl tl x now sync id = (Err e, st', cl') -> st' = st /\ cl' = cl.
Proof.
  unfold update_timing_guarded. destruct (num_microseconds _); [|now intros [= _ <- <-]].
  destruct (negb _ || negb _); [|discriminate].
  destruct (update_client_timeline_from_session _ _ _ _); [discriminate|now intros [= _ <- <-]].
Qed.

(** With the mapping it already has, the session keeps it as it is. *)
Lemma update_timing_form st cl tl now sync id ch st' cl' :
  update_timing_guarded st cl tl (ghost_x_form st) now sync id = (Ok ch, st', cl') ->
  ghost_x_form st' = ghost_x_form st.
Proof.
  unfold update_timing_guarded. destruct (num_microseconds _); [|discriminate].
  destruct (negb _ || negb _); [|now intros [= _ <- <-]].
  destruct (update_client_timeline_from_session _ _ _ _); [|discriminate]. now intros [= _ <- <-].
Qed.

(** The session timeline of an accepted edit has a clamped tempo. *)
Lemma update_session_tempo cur client at_time x tl :
  update_session_timeline_from_client cur client at_time x = Ok tl ->
  tl = cur \/ tempo tl = tempo client.
Proof.
  unfold update_session_timeline_from_client. destruct (_ && _); [intros [= <-]; now left|].
  destruct (checked_i64 _); cbn [ok_or]; [|discriminate].
  destruct (checked_i128 _) as [n|]; cbn [ok_or]; [|discriminate].
  destruct (negb _); [discriminate|]. intros [= <-]. now right.
Qed.

Lemma edit_target_clamped s incoming tl :
  clamped (timeline (c_current s)) -> edit_target s incoming = Ok (Some tl) -> clamped tl.
Proof.
  unfold edit_target. intros C. destruct (in_timeline incoming) as [t|]; [|discriminate].
  destruct (update_session_timeline_from_client _ _ _ _) as [tl'|] eqn:E; [|discriminate].
  intros [= <-]. apply update_session_tempo in E as [-> | E]; [assumption|].
  eapply clamped_tempo; [apply (clamp_tempo_clamped t)|exact E].
Qed.

(** ** The published snapshot *)

(** What other nodes and the client see, the discovery state, the ping
    responder, the client's capture domain and the published session, is one
    snapshot of the session state. *)
Record snapshot (s : SessionCommit) : Prop := {
  snap_timeline : node_timeline (peer_node_state (c_peer s)) = session_timeline (c_session s);
  snap_start_stop : node_start_stop (peer_node_state (c_peer s)) = session_start_stop (c_session s);
  snap_responder_id : c_responder_id s = state_session_id (c_peer s);
  snap_responder_form : c_responder_form s = ghost_x_form (c_session s);
  snap_gateway : forall p, c_gateway_peer s = Some p -> peer_node_state p = peer_node_state (c_peer s);
  snap_client : timeline_session_id (c_client s) = state_session_id (c_peer s);
  snap_published_id : session_id (c_published s) = state_session_id (c_peer s);
  snap_published_timeline : timeline (c_published s) = session_timeline (c_session s);
  snap_published_form : same_form (x_form (measurement (c_published s))) (ghost_x_form (c_session s))
}.

Definition commit_clamped (s : SessionCommit) : Prop :=
  session_clamped (c_published s) /\ session_clamped (c_current s) /\
  Forall session_clamped (c_others s).

Definition coherent (s : SessionCommit) : Prop := snapshot s /\ commit_clamped s.

(** Publishing makes the snapshot, when the current session agrees with the
    session state. *)
Lemma publish_coherent s :
  timeline (c_current s) = session_timeline (c_session s) ->
  same_form (x_form (measurement (c_current s))) (ghost_x_form (c_session s)) ->
  session_id (c_current s) = state_session_id (c_peer s) ->
  timeline_session_id (c_client s) = state_session_id (c_peer s) ->
  session_clamped (c_current s) -> Forall session_clamped (c_others s) ->
  coherent (publish_discovery s).
Proof.
  intros T X I C K O. split; [|now repeat split].
  destruct s as [pub cur oth ps [n me ae] st cl cnt sy ri rf gw sup]. constructor; cbn in *; auto.
  intros p. destruct gw; [|discriminate]. now intros [= <-].
Qed.

Lemma reject_coherent s : coherent s -> coherent (reject_pending_timing s).
Proof.
  intros [[] (P & C & O)]. split.
  - constructor; assumption.
  - split; [exact P|]. split; [exact P|]. unfold reject_pending_timing. cbn [c_others with_registry].
    destruct (negb _); [now apply Forall_kept|]. apply Forall_map. eapply Forall_impl; [exact O|].
    intros o Ho. cbn. now destruct (Session_matches _ _).
Qed.

Lemma with_states_same s : with_states s (c_session s) (c_client s) = s.
Proof. now destruct s. Qed.

Lemma share_revision_clamped cur others :
  Forall session_clamped others -> Forall session_clamped (share_revision cur others).
Proof.
  intros O. apply Forall_map. eapply Forall_impl; [exact O|]. intros o Ho. cbn.
  now destruct (SessionKey_matches _ _).
Qed.

(** Invalidating captures changes nothing but the revisions. *)
Lemma invalidate_captures_fields s :
  let s' := invalidate_client_captures s in
  timeline (c_current s') = timeline (c_current s) /\
  measurement (c_current s') = measurement (c_current s) /\
  session_id (c_current s') = session_id (c_current s) /\
  c_session s' = c_session s /\ c_client s' = c_client s /\ c_peer s' = c_peer s /\
  (Forall session_clamped (c_others s) -> Forall session_clamped (c_others s')).
Proof.
  cbv zeta. unfold invalidate_client_captures.
  destruct (invalidate_edit_origin _ _) as [cur sup] eqn:E.
  apply invalidate_fresh in E as (_ & _ & _ & T & M & I & _). cbn.
  repeat split; auto using share_revision_clamped.
Qed.

Lemma reset_coherent s now now' rid : coherent s -> coherent (reset s now now' rid).2.
Proof.
  intros H2. unfold reset. set (node := if bool_decide _ then _ else _).
  destruct (update_timing_guarded _ _ _ _ _ _ _) as [[[ch|e] st] cl] eqn:U; cbn [snd];
    [|now apply reject_coherent].
  destruct H2 as [Sn (P & _ & _)].
  apply update_timing_ok in U as (T & X & _ & I).
  assert (clamped (session_timeline (c_session s))) as Ct.
  { rewrite <- (snap_published_timeline _ Sn). exact P. }
  assert (forall b t, clamped (MkTimeline (tempo (session_timeline (c_session s))) b t)) as K
    by (intros b t; now apply (clamped_tempo _ (MkTimeline _ b t) Ct)).
  unfold Session_new. destruct (Arc_new _) as [i sup1]. destruct (new_edit_revision sup1) as [r sup2].
  apply publish_coherent; cbn; auto; [rewrite T; symmetry|]; apply K.
Qed.

Lemma refresh_coherent s now : coherent s -> coherent (refresh_timing s now).2.
Proof.
  intros H2. unfold refresh_timing. destruct (_ || _) eqn:G; [exact H2|].
  apply orb_false_elim in G as [_ G2]. apply negb_false_iff, bool_decide_eq_true in G2.
  destruct (update_timing_guarded _ _ _ _ _ _ _) as [[[ch|e] st] cl] eqn:U; cbn [snd].
  - apply update_timing_ok in U as (T & X & _ & I). destruct H2 as [Sn (P & C & O)].
    assert (timeline (c_current s) = session_timeline st) as Q by (rewrite T; symmetry; exact C).
    destruct (negb (ClientState_eqb _ _)).
    + destruct (invalidate_captures_fields (with_states s st cl)) as (F1 & F2 & F3 & F4 & F5 & F6 & F7).
      apply publish_coherent; rewrite ?F1, ?F2, ?F3, ?F4, ?F5, ?F6; cbn; auto; try congruence.
      red. rewrite F1. exact C.
    + apply publish_coherent; cbn; auto; congruence.
  - apply update_timing_err in U as [-> ->]. rewrite with_states_same. now apply reject_coherent.
Qed.

Lemma join_coherent s queued now now' rid : coherent s -> coherent (join s queued now now' rid).2.
Proof.
  intros H2. unfold join. destruct (negb (SessionKey_matches _ _)); [exact H2|].
  destruct (negb _ && _); [now apply reset_coherent|].
  set (st0 := if negb _ then _ else c_session s).
  destruct (update_timing_guarded st0 _ _ _ _ _ _) as [[[ch|e] st] cl] eqn:U; cbn [snd];
    [|now apply reject_coherent].
  apply update_timing_ok in U as (T & X & _ & I). destruct H2 as [Sn (P & C & O)].
  assert (timeline (c_current s) = session_timeline st) as Q by (rewrite T; symmetry; exact C).
  set (s1 := with_states _ st cl).
  assert (forall s, coherent s -> forall n, coherent (with_counter s n)) as W
    by (intros u [[] K] n; split; [constructor; assumption|exact K]).
  apply W. destruct (negb (ClientState_eqb _ _)).
  - destruct (invalidate_captures_fields s1) as (F1 & F2 & F3 & F4 & F5 & F6 & F7).
    apply publish_coherent; rewrite ?F1, ?F2, ?F3, ?F4, ?F5, ?F6; cbn; auto.
    red. rewrite F1. exact C.
  - apply publish_coherent; cbn; auto.
Qed.

Lemma received_start_stop_coherent s source tl ss now now' :
  coherent s -> coherent (received_start_stop s source tl ss now now').2.
Proof.
  intros H2. unfold received_start_stop. destruct (negb (bool_decide _)) eqn:S0; [exact H2|].
  destruct (_ || _ || _ || _) eqn:G; [exact H2|]. apply orb_false_elim in G as [G _].
  apply orb_false_elim in G as [G _]. apply orb_false_elim in G as [_ G2].
  apply negb_false_iff, bool_decide_eq_true in S0, G2.
  destruct (_ || _ || _); [exact H2|]. destruct (Duration_leb _ _); [exact H2|].
  destruct (update_timing_guarded _ _ _ _ _ _ _) as [[[ch|e] st] cl] eqn:U; cbn [snd]; [|exact H2].
  apply update_timing_ok in U as (T & X & _ & I). destruct H2 as [Sn (P & C & O)].
  set (cl' := if c_sync_enabled s then _ else cl).
  assert (timeline_session_id cl' = source) as I' by (unfold cl'; now destruct (c_sync_enabled s)).
  destruct (invalidate_captures_fields s) as (F1 & F2 & F3 & F4 & F5 & F6 & F7).
  apply publish_coherent; cbn; rewrite ?F1, ?F2, ?F3, ?F6; auto; congruence.
Qed.

(** ** Client edits *)

(** What an accepted edit installs. *)
Lemma client_edit_inv s incoming now origin ch s' :
  client_edit_from_origin s incoming now origin = (CommitComplete ch, s') ->
  edit_must_wait s incoming = false /\
  (forall o, origin = Some o -> origin_matches o (c_current s) = true) /\
  exists target mapped prepared,
    edit_target s incoming = Ok target /\ edit_start_stop s incoming target = Ok mapped /\
    edit_prepared s incoming target now = Ok prepared /\
    install_edit s incoming prepared mapped = (CommitComplete ch, s').
Proof.
  unfold client_edit_from_origin. destruct (match origin with Some _ => _ | None => _ end) eqn:Om;
    [discriminate|]. destruct (edit_must_wait s incoming); [discriminate|].
  destruct (edit_target s incoming) as [target|e] eqn:E1; [|discriminate].
  destruct (edit_start_stop s incoming target) as [mapped|e] eqn:E2; [|discriminate].
  destruct (edit_prepared s incoming target now) as [prepared|e] eqn:E3; [|discriminate].
  intros E. split; [reflexivity|]. split; [|exists target, mapped, prepared; auto].
  intros o ->. now apply negb_false_iff in Om.
Qed.

(** The state an edit starts from, once it has a fresh revision. *)
Definition edit_begun (s : SessionCommit) (incoming : IncomingClientState) : SessionCommit :=
  if is_some (in_timeline incoming) || is_some (in_start_stop incoming) then
    let '(cur, sup) := invalidate_edit_origin (c_current s) (c_supply s) in
    with_registry s cur (c_others s) (c_peers s) sup
  else s.

Lemma edit_begun_fields s incoming :
  let s' := edit_begun s incoming in
  timeline (c_current s') = timeline (c_current s) /\
  measurement (c_current s') = measurement (c_current s) /\
  session_id (c_current s') = session_id (c_current s) /\
  c_session s' = c_session s /\ c_client s' = c_client s /\ c_peer s' = c_peer s /\
  c_others s' = c_others s /\ c_peers s' = c_peers s.
Proof.
  cbv zeta. unfold edit_begun. destruct (_ || _); [|now repeat split].
  destruct (invalidate_edit_origin _ _) as [cur sup] eqn:E.
  apply invalidate_fresh in E as (_ & _ & _ & T & M & I & _). now repeat split.
Qed.

(** The state an edit publishes. *)
Definition edit_installed (s : SessionCommit) (incoming : IncomingClientState)
    (prepared : option (Timeline * SessionState * ClientState * option Tempo))
    (mapped : option StartStopState) : SessionCommit :=
  let s := match prepared with
           | Some (target, st, cl, _) => install_timeline (edit_begun s incoming) target st cl
           | None => edit_begun s incoming
           end in
  match in_start_stop incoming with
  | Some state => install_start_stop s state mapped
  | None => s
  end.

Lemma install_edit_eq s incoming prepared mapped :
  (install_edit s incoming prepared mapped).2 =
  publish_discovery (edit_installed s incoming prepared mapped).
Proof.
  unfold install_edit, edit_installed. fold (edit_begun s incoming).
  destruct prepared as [[[[target st] cl] ch]|]; destruct (in_start_stop incoming); reflexivity.
Qed.

(** Before it is published, the edit has made the current session agree with
    the session state. *)
Definition agrees (s : SessionCommit) : Prop :=
  timeline (c_current s) = session_timeline (c_session s) /\
  same_form (x_form (measurement (c_current s))) (ghost_x_form (c_session s)) /\
  session_id (c_current s) = state_session_id (c_peer s) /\
  timeline_session_id (c_client s) = state_session_id (c_peer s) /\
  session_clamped (c_current s) /\ Forall session_clamped (c_others s).

Lemma install_start_stop_agrees s state mapped : agrees s -> agrees (install_start_stop s state mapped).
Proof.
  intros (A1 & A2 & A3 & A4 & A5 & A6). unfold install_start_stop, agrees. cbn.
  destruct mapped; cbn; repeat split; auto using share_revision_clamped.
Qed.

Lemma install_timeline_agrees s target st cl :
  clamped target -> session_timeline st = target ->
  same_form (x_form (measurement (c_current s))) (ghost_x_form st) ->
  session_id (c_current s) = state_session_id (c_peer s) ->
  timeline_session_id cl = state_session_id (c_peer s) ->
  Forall session_clamped (c_others s) -> agrees (install_timeline s target st cl).
Proof.
  intros K T X I C O. unfold install_timeline, agrees.
  destruct (set_timeline _ _ _) as [cur sup] eqn:E. apply set_timeline_fields in E as (E1 & E2 & E3 & E4); [|exact K].
  cbn. rewrite E1, E2, E3. repeat split; auto.
  - red. now rewrite E1.
  - apply Forall_map. eapply Forall_impl; [exact O|]. intros o Ho. cbn.
    now destruct (SessionKey_matches _ _).
Qed.

Lemma edit_prepared_inv s incoming target now prepared :
  edit_target s incoming = Ok target -> edit_prepared s incoming target now = Ok prepared ->
  match prepared with
  | Some (tl, st, cl, ch) =>
      target = Some tl /\ (exists edited, in_timeline incoming = Some edited) /\
      exists client, update_timing_guarded (c_session s) client tl (ghost_x_form (c_session s)) now
                       (c_sync_enabled s) (session_id (c_current s)) = (Ok ch, st, cl)
  | None => in_timeline incoming = None
  end.
Proof.
  unfold edit_target, edit_prepared. destruct (in_timeline incoming) as [edited|].
  - destruct (update_session_timeline_from_client _ _ _ _) as [tl|]; [|discriminate]. intros [= <-].
    destruct (update_timing_guarded _ _ _ _ _ _ _) as [[[ch|e] st] cl] eqn:U; [|discriminate].
    intros [= <-]. split; [reflexivity|]. split; eauto.
  - intros _. now intros [= <-].
Qed.

Lemma edit_must_wait_false s incoming :
  edit_must_wait s incoming = false ->
  Session_matches (c_published s) (c_current s) = true /\
  session_id (c_current s) = state_session_id (c_peer s) /\
  GhostXForm_eqb (x_form (measurement (c_current s))) (ghost_x_form (c_session s)) = true /\
  (in_timeline incoming = None ->
   Timeline_eqb (timeline (c_current s)) (session_timeline (c_session s)) = true).
Proof.
  unfold edit_must_wait. intros E. apply orb_false_elim in E as [E E4].
  apply orb_false_elim in E as [E E3]. apply orb_false_elim in E as [E1 E2].
  apply negb_false_iff in E1, E2, E3. apply bool_decide_eq_true in E2. repeat split; auto.
  intros N. rewrite N in E4. cbn in E4. now apply negb_false_iff.
Qed.

(** An edit that is not completed leaves everything as it was. *)
Lemma client_edit_refused s incoming now origin r s' :
  client_edit_from_origin s incoming now origin = (r, s') ->
  (forall ch, r <> CommitComplete ch) -> s' = s.
Proof.
  unfold client_edit_from_origin. destruct (match origin with Some _ => _ | None => _ end);
    [now intros [= _ <-]|]. destruct (edit_must_wait s incoming); [now intros [= _ <-]|].
  destruct (edit_target s incoming) as [target|e]; [|now intros [= _ <-]].
  destruct (edit_start_stop s incoming target) as [mapped|e]; [|now intros [= _ <-]].
  destruct (edit_prepared s incoming target now) as [prepared|e]; [|now intros [= _ <-]].
  unfold install_edit. destruct (match prepared with Some _ => _ | None => _ end) as [s1 ch].
  intros [= <- <-] N. now destruct (N ch).
Qed.

Lemma edit_coherent s incoming now origin :
  coherent s -> coherent (client_edit_from_origin s incoming now origin).2.
Proof.
  intros H2. destruct (client_edit_from_origin s incoming now origin) as [[|ch|e] s'] eqn:E; cbn [snd].
  1, 3: apply client_edit_refused in E as ->; easy.
  apply client_edit_inv in E as (W & _ & target & mapped & prepared & E1 & E2 & E3 & E4).
  pose proof (install_edit_eq s incoming prepared mapped) as Q. rewrite E4 in Q. cbn [snd] in Q. subst s'.
  apply edit_must_wait_false in W as (_ & W2 & W3 & W4). apply (edit_prepared_inv _ _ _ _ _ E1) in E3.
  destruct H2 as [Sn (P & C & O)].
  destruct (edit_begun_fields s incoming) as (F1 & F2 & F3 & F4 & F5 & F6 & F7 & F8).
  assert (agrees (edit_installed s incoming prepared mapped)) as A.
  { unfold edit_installed.
    set (s1 := match prepared with Some _ => _ | None => _ end). assert (agrees s1) as A.
    - unfold s1. destruct prepared as [[[[tl st] cl] ch']|].
      + destruct E3 as (-> & _ & client & U). pose proof (update_timing_form _ _ _ _ _ _ _ _ _ U) as Fo.
        apply update_timing_ok in U as (T & _ & _ & I). pose proof (edit_target_clamped _ _ _ C E1) as K.
        apply install_timeline_agrees; rewrite ?F2, ?F3, ?F6, ?F7; auto; try congruence.
        right. now rewrite Fo.
      + unfold agrees. rewrite F1, F2, F3, F4, F5, F6, F7. repeat split; auto.
        * apply Timeline_eqb_clamped; [|auto]. rewrite <- (snap_published_timeline _ Sn). exact P.
        * now right.
        * exact (snap_client _ Sn).
        * red. rewrite F1. exact C.
    - destruct (in_start_stop incoming); [now apply install_start_stop_agrees|exact A]. }
  destruct A as (A1 & A2 & A3 & A4 & A5 & A6). now apply publish_coherent.
Qed.

Lemma commit_step_coherent s s' : commit_step s s' -> coherent s -> coherent s'.
Proof.
  intros St C0. destruct St.
  - destruct C0 as [[] (P & C & O)].
    destruct (sessions_step_clamped _ _ H1 (conj C O)) as [C' O']. split; [constructor; assumption|].
    now repeat split.
  - destruct C0 as [[] K]. split; [constructor; assumption|exact K].
  - destruct C0 as [[] K]. split; [constructor; assumption|exact K].
  - destruct C0 as [[] K]. split; [constructor; assumption|exact K].
  - now apply edit_coherent.
  - now apply received_start_stop_coherent.
  - now apply refresh_coherent.
  - now apply join_coherent.
  - unfold reset_if_peerless. destruct expected; [|now apply reset_coherent].
    destruct (_ || _); [exact C0|now apply reset_coherent].
Qed.

Lemma Controller_new_coherent tempo now now' rid sup : coherent (Controller_new tempo now now' rid sup).
Proof.
  unfold Controller_new, Session_new. destruct (Arc_new sup) as [i sup1].
  destruct (new_edit_revision sup1) as [r sup2].
  assert (Duration_microseconds 0 = Duration_zero) as Z0.
  { apply nanos_inj. rewrite nanos_microseconds, nanos_zero by zlia. reflexivity. }
  split.
  - constructor; cbn; auto; try discriminate; [|now left].
    unfold StartStopState_default. rewrite Z0. reflexivity.
  - assert (session_clamped (MkSession i r (MkSessionId rid) (session_timeline (init_session_state tempo now))
      (MkMeasurement (ghost_x_form (init_session_state tempo now)) now'))) as K by apply clamp_tempo_clamped.
    repeat split; try exact K. now constructor.
Qed.

(** C1 However client edits, announcements from peers, session changes and the
    measurement and discovery tasks interleave after the controller was
    created, what the node shows is one snapshot: the timeline and playback
    state it announces, the session and mapping its ping responder answers
    with, the session a client captures in and the published session all
    belong to the same session state. *)
Theorem published_snapshot_coherent tempo now now' rid sup s :
  rtc commit_step (Controller_new tempo now now' rid sup) s -> coherent s.
Proof.
  apply (rtc_ind_r (fun s => coherent s)); [apply Controller_new_coherent|].
  intros s1 s2 _ St. now apply commit_step_coherent.
Qed.

(** A client edit or a received playback state that is not completed, held
    back for publication or refused, changes nothing at all. *)
Theorem refused_commit_changes_nothing s incoming now origin source tl ss now1 now2 r s' :
  client_edit_from_origin s incoming now origin = (r, s') \/
  received_start_stop s source tl ss now1 now2 = (r, s') ->
  (forall ch, r <> CommitComplete ch) -> s' = s.
Proof.
  intros [E|E]; [exact (client_edit_refused _ _ _ _ _ _ E)|]. revert E. unfold received_start_stop.
  destruct (negb (bool_decide _)); [now intros [= _ <-]|].
  destruct (_ || _ || _ || _); [now intros [= _ <-]|].
  destruct (_ || _ || _); [now intros [= _ <-]|]. destruct (Duration_leb _ _); [now intros [= _ <-]|].
  destruct (update_timing_guarded _ _ _ _ _ _ _) as [[[ch|e] st] cl]; [|now intros [= _ <-]].
  intros [= <- _] N. now destruct (N ch).
Qed.

(** ** An edit from a capture is accepted once *)

(** The revisions [s'] holds are those of [s] or were handed out since. *)
Definition tracks (s s' : SessionCommit) : Prop :=
  edit_counter (c_supply s) <= edit_counter (c_supply s') /\
  forall r, edit_revision (c_current s') = Some r \/ edit_revision (c_published s') = Some r ->
  edit_revision (c_current s) = Some r \/ edit_revision (c_published s) = Some r \/
  edit_counter (c_supply s) <= r < edit_counter (c_supply s').

#[local] Instance tracks_preorder : PreOrder tracks.
Proof.
  split; [intros s; split; [lia|tauto]|]. intros s1 s2 s3 [L1 T1] [L2 T2]. split; [lia|].
  intros r Hr. destruct (T2 r Hr) as [Q|[Q|Q]]; [destruct (T1 r)|destruct (T1 r)|]; intuition lia.
Qed.

(** A commit touches revisions only by replacing the current session. *)
Lemma tracks_registry s cur others ps sup :
  edit_kept (edit_counter (c_supply s)) (edit_counter sup) (c_current s) cur ->
  tracks s (with_registry s cur others ps sup).
Proof.
  intros [L K]. split; [exact L|]. cbn. intros r [Q|Q]; [|auto].
  destruct K as [(K & _)|K]; [rewrite <- K; auto|]. right. right. now apply K.
Qed.

Lemma tracks_publish s : tracks s (publish_discovery s).
Proof. split; [cbn; lia|]. cbn. tauto. Qed.

Lemma tracks_reject s : tracks s (reject_pending_timing s).
Proof. split; [cbn; lia|]. cbn. tauto. Qed.

Lemma invalidate_kept s sup s' sup' :
  invalidate_edit_origin s sup = (s', sup') -> edit_kept (edit_counter sup) (edit_counter sup') s s'.
Proof. intros E. apply invalidate_fresh in E as (L & F & _). split; [exact L|now right]. Qed.

Lemma tracks_invalidate s : tracks s (invalidate_client_captures s).
Proof.
  unfold invalidate_client_captures. destruct (invalidate_edit_origin _ _) as [cur sup] eqn:E.
  apply tracks_registry, (invalidate_kept _ _ _ _ E).
Qed.

Lemma tracks_begun s incoming : tracks s (edit_begun s incoming).
Proof.
  unfold edit_begun. destruct (_ || _); [|reflexivity].
  destruct (invalidate_edit_origin _ _) as [cur sup] eqn:E.
  apply tracks_registry, (invalidate_kept _ _ _ _ E).
Qed.

(** Fields without revisions. *)
Lemma tracks_same s s' :
  c_current s' = c_current s -> c_published s' = c_published s -> c_supply s' = c_supply s -> tracks s s'.
Proof. intros E1 E2 E3. split; rewrite ?E1, ?E2, ?E3; [lia|tauto]. Qed.

Lemma tracks_states s s' st cl : tracks s s' -> tracks s (with_states s' st cl).
Proof. exact id. Qed.

Lemma installed_kept s incoming prepared mapped :
  let s1 := edit_begun s incoming in
  let s2 := edit_installed s incoming prepared mapped in
  edit_kept (edit_counter (c_supply s1)) (edit_counter (c_supply s2)) (c_current s1) (c_current s2) /\
  c_published s2 = c_published s1.
Proof.
  cbv zeta. unfold edit_installed. set (s1 := edit_begun s incoming).
  set (s2 := match prepared with Some _ => _ | None => _ end).
  assert (edit_kept (edit_counter (c_supply s1)) (edit_counter (c_supply s2)) (c_current s1) (c_current s2) /\
    c_published s2 = c_published s1) as T.
  { unfold s2. destruct prepared as [[[[target st] cl] ch]|]; [|split; [apply same_edit_kept|reflexivity]].
    unfold install_timeline. destruct (set_timeline _ _ _) as [cur sup] eqn:E.
    split; [exact (set_timeline_kept _ _ _ _ _ E)|reflexivity]. }
  destruct (in_start_stop incoming); [|exact T]. destruct mapped; exact T.
Qed.

Lemma tracks_installed s incoming prepared mapped :
  tracks (edit_begun s incoming) (edit_installed s incoming prepared mapped).
Proof.
  destruct (installed_kept s incoming prepared mapped) as [[L K] P]. split; [exact L|].
  rewrite P. intros r [Q|Q]; [|auto].
  destruct K as [(K & _)|K]; [rewrite <- K; auto|]. right. right. now apply K.
Qed.

Lemma tracks_edit s incoming now origin : tracks s (client_edit_from_origin s incoming now origin).2.
Proof.
  destruct (client_edit_from_origin s incoming now origin) as [[|ch|e] s'] eqn:E; cbn [snd].
  1, 3: apply client_edit_refused in E as ->; easy.
  apply client_edit_inv in E as (_ & _ & target & mapped & prepared & _ & _ & _ & E).
  pose proof (install_edit_eq s incoming prepared mapped) as Q. rewrite E in Q. cbn [snd] in Q. subst s'.
  etransitivity; [|apply tracks_publish]. etransitivity; [apply tracks_begun|apply tracks_installed].
Qed.

Lemma tracks_reset s now now' rid : tracks s (reset s now now' rid).2.
Proof.
  unfold reset. destruct (update_timing_guarded _ _ _ _ _ _ _) as [[[ch|e] st] cl]; cbn [snd];
    [|apply tracks_reject].
  unfold Session_new. cbn [c_supply with_states with_identity]. destruct (Arc_new _) as [i sup1] eqn:A.
  destruct (new_edit_revision sup1) as [r sup2] eqn:E. apply new_edit_revision_spec in E as (_ & L & B).
  injection A as _ <-. cbn [edit_counter] in L, B. etransitivity; [|apply tracks_publish].
  split; [exact L|]. cbn. intros x [Q|Q]; [|auto]. right. right. now apply B.
Qed.

Lemma tracks_step s s' : commit_step s s' -> tracks s s'.
Proof.
  intros St. destruct St.
  - apply tracks_registry. exact (sessions_step_kept _ _ H1).
  - now apply tracks_same.
  - now apply tracks_same.
  - now apply tracks_same.
  - apply tracks_edit.
  - unfold received_start_stop. destruct (negb (bool_decide _)); [reflexivity|].
    destruct (_ || _ || _ || _); [reflexivity|]. destruct (_ || _ || _); [reflexivity|].
    destruct (Duration_leb _ _); [reflexivity|].
    destruct (update_timing_guarded _ _ _ _ _ _ _) as [[[ch|e] st] cl]; [|reflexivity]. cbn [snd].
    etransitivity; [|apply tracks_publish]. apply tracks_states, tracks_invalidate.
  - unfold refresh_timing. destruct (_ || _); [reflexivity|].
    destruct (update_timing_guarded _ _ _ _ _ _ _) as [[[ch|e] st] cl]; cbn [snd];
      [|exact (tracks_reject (with_states s st cl))].
    etransitivity; [|apply tracks_publish]. destruct (negb (ClientState_eqb _ _)); [|now apply tracks_same].
    apply (tracks_invalidate (with_states s st cl)).
  - unfold join. destruct (negb (SessionKey_matches _ _)); [reflexivity|].
    destruct (negb _ && _); [apply tracks_reset|].
    destruct (update_timing_guarded _ _ _ _ _ _ _) as [[[ch|e] st] cl]; cbn [snd]; [|apply tracks_reject].
    set (s1 := with_states _ st cl). transitivity s1; [now apply tracks_same|].
    destruct (negb (ClientState_eqb _ _)); [|apply (tracks_publish s1)].
    etransitivity; [apply tracks_invalidate|exact (tracks_publish (invalidate_client_captures s1))].
  - unfold reset_if_peerless. destruct expected; [|apply tracks_reset].
    destruct (_ || _); [reflexivity|apply tracks_reset].
Qed.

Lemma tracks_steps s s' : rtc commit_step s s' -> tracks s s'.
Proof. induction 1 as [|s s1 s2 St _ IH]; [reflexivity|]. etransitivity; [apply tracks_step, St|exact IH]. Qed.

(** Every revision held was handed out before: an invariant. *)
Definition revisions_below (s : SessionCommit) : Prop :=
  revision_below (edit_counter (c_supply s)) (c_current s) /\
  revision_below (edit_counter (c_supply s)) (c_published s).

(** An accepted edit leaves a revision no capture has. *)
Lemma accepted_edit_fresh s incoming now origin ch s' :
  in_timeline incoming <> None \/ in_start_stop incoming <> None ->
  client_edit_from_origin s incoming now origin = (CommitComplete ch, s') ->
  c_published s' = c_current s' /\
  forall r, edit_revision (c_current s') = Some r -> edit_counter (c_supply s) <= r.
Proof.
  intros N E. apply client_edit_inv in E as (_ & _ & target & mapped & prepared & _ & _ & _ & E).
  pose proof (install_edit_eq s incoming prepared mapped) as Q. rewrite E in Q. cbn [snd] in Q. subst s'.
  split; [reflexivity|]. cbn [c_current publish_discovery]. intros r.
  destruct (installed_kept s incoming prepared mapped) as [[L K] _]. revert L K.
  unfold edit_begun. replace (is_some _ || is_some _) with true
    by (destruct (in_timeline incoming), (in_start_stop incoming); cbn; tauto).
  destruct (invalidate_edit_origin _ _) as [cur sup] eqn:I.
  apply invalidate_fresh in I as (L1 & F1 & _). cbn. intros L [(K & _)|K] R.
  - rewrite K in R. now apply F1.
  - apply K in R. lia.
Qed.

(** Once an edit made from a capture is accepted, no later state of the current
    session is the captured one. *)
Lemma captured_origin_superseded s incoming now o ch s' s'' :
  revisions_below s -> in_timeline incoming <> None \/ in_start_stop incoming <> None ->
  client_edit_from_origin s incoming now (Some o) = (CommitComplete ch, s') ->
  rtc commit_step s' s'' -> origin_matches o (c_current s'') = false.
Proof.
  intros [B _] N E St. destruct (accepted_edit_fresh _ _ _ _ _ _ N E) as [P F].
  pose proof (tracks_edit s incoming now (Some o)) as [L _]. rewrite E in L. cbn [snd] in L.
  apply client_edit_inv in E as (_ & M & _). specialize (M o eq_refl).
  assert (forall u, origin_matches o u = true -> edit_revision u = Some (origin_revision o)) as R.
  { intros u Mu. unfold origin_matches in Mu. apply andb_prop in Mu as [Mu _]. apply andb_prop in Mu as [Mu _].
    apply andb_prop in Mu as [_ Mu]. now apply bool_decide_eq_true in Mu. }
  apply R, B in M. apply not_true_iff_false. intros X. apply R in X.
  destruct (proj2 (tracks_steps _ _ St) _ (or_introl X)) as [Q|[Q|Q]].
  - apply F in Q. lia.
  - rewrite P in Q. apply F in Q. lia.
  - lia.
Qed.

(** C2 No update is lost: once an edit made from a capture is accepted, every
    later edit made from the same capture is refused as stale and changes
    nothing, whatever happens in between. *)
Theorem captured_edit_applies_once s incoming now o ch s' s'' :
  revisions_below s -> in_timeline incoming <> None \/ in_start_stop incoming <> None ->
  client_edit_from_origin s incoming now (Some o) = (CommitComplete ch, s') ->
  rtc commit_step s' s'' ->
  forall incoming' now',
  client_edit_from_origin s'' incoming' now' (Some o) = (Rejected StaleClientState, s'').
Proof.
  intros B N E St incoming' now'. unfold client_edit_from_origin.
  now rewrite (captured_origin_superseded _ _ _ _ _ _ _ B N E St).
Qed.

(** The hypothesis on the revisions is an invariant. *)
Lemma revisions_below_steps s s' : rtc commit_step s s' -> revisions_below s -> revisions_below s'.
Proof.
  intros St [B1 B2]. apply tracks_steps in St as [L T].
  assert (forall r, edit_revision (c_current s) = Some r \/ edit_revision (c_published s) = Some r \/
    edit_counter (c_supply s) <= r < edit_counter (c_supply s') -> r < edit_counter (c_supply s')) as Q.
  { intros r [Hr|[Hr|Hr]]; [apply B1 in Hr|apply B2 in Hr|]; lia. }
  split; intros r Hr; auto.
Qed.

(** ** Effects of the commits *)

(** An accepted timeline edit reaches everyone at once: the session, the
    current registry entry, the announced state and every known peer of the
    session carry the timeline that
    [update_session_timeline_from_client] computes from the clamped edit. *)
Theorem accepted_edit_reaches_session s incoming now origin ch s' tl :
  coherent s -> in_timeline incoming = Some tl ->
  client_edit_from_origin s incoming now origin = (CommitComplete ch, s') ->
  exists target,
    update_session_timeline_from_client (timeline (c_current s)) (clamp_tempo tl)
      (timeline_timestamp incoming) (ghost_x_form (c_session s)) = Ok target /\
    session_timeline (c_session s') = target /\ timeline (c_current s') = target /\
    node_timeline (peer_node_state (c_peer s')) = target /\
    Forall (fun p => peer_session_id p = session_id (c_current s) -> peer_timeline (peer_state p) = target)
      (c_peers s').
Proof.
  intros [Sn (P & C & O)] N E.
  apply client_edit_inv in E as (W & _ & target & mapped & prepared & E1 & E2 & E3 & E4).
  pose proof (edit_prepared_inv _ _ _ _ _ E1 E3) as Pr.
  destruct prepared as [[[[t st] cl] ch']|]; [|congruence].
  destruct Pr as (-> & _ & client & U). pose proof (edit_target_clamped _ _ _ C E1) as K.
  exists t. split.
  { unfold edit_target in E1. rewrite N in E1.
    destruct (update_session_timeline_from_client _ _ _ _); [|discriminate]. now injection E1 as ->. }
  apply update_timing_ok in U as (T & _ & _ & _). rewrite K in T.
  pose proof (install_edit_eq s incoming (Some (t, st, cl, ch')) mapped) as Q. rewrite E4 in Q.
  cbn [snd] in Q. subst s'. destruct (edit_begun_fields s incoming) as (F1 & F2 & F3 & F4 & F5 & F6 & F7 & F8).
  unfold edit_installed, install_timeline. set (s1 := edit_begun s incoming) in *.
  destruct (set_timeline _ _ _) as [cur sup] eqn:Es. apply set_timeline_fields in Es as (G1 & G2 & _); [|exact K].
  assert (Forall (fun p => peer_session_id p = session_id (c_current s) -> peer_timeline (peer_state p) = t)
    (map (set_peer_timeline (session_id cur) t) (c_peers s1))) as FP.
  { apply Forall_map, Forall_true. intros p. cbn. unfold set_peer_timeline. rewrite G2, F3.
    case_bool_decide as D; [reflexivity|]. intros Q. now destruct (D Q). }
  destruct (in_start_stop incoming); [destruct mapped|]; cbn; auto.
Qed.

Lemma successor_later old a n :
  in_i64 a -> checked_i64 (micros old + 1) = Some n ->
  duration_nanos old < duration_nanos (Duration_microseconds (Z.max a n)).
Proof.
  intros Ha. rewrite micros_eq. generalize (duration_nanos old). intros d. unfold checked_i64.
  destruct (fits_i64 _) eqn:F; [|discriminate]. intros [= <-]. apply fits_i64_spec in F.
  pose proof (Z.quot_rem' d 1000) as Q. pose proof (Z.rem_bound_abs d 1000 ltac:(lia)) as B.
  revert F Q B. generalize (Z.quot d 1000), (Z.rem d 1000). intros q m F Q B.
  unfold clamp_i64 in *. rewrite clampZ_minmax in * by zlia.
  rewrite duration_nanos_microseconds by zlia. zlia.
Qed.

Lemma edit_timestamp_advances s incoming now origin ch s' :
  client_edit_from_origin s incoming now origin = (CommitComplete ch, s') ->
  session_start_stop (c_session s') = session_start_stop (c_session s) \/
  duration_nanos (ss_timestamp (session_start_stop (c_session s))) <
  duration_nanos (ss_timestamp (session_start_stop (c_session s'))).
Proof.
  intros E. apply client_edit_inv in E as (_ & _ & target & mapped & prepared & E1 & E2 & E3 & E4).
  pose proof (install_edit_eq s incoming prepared mapped) as Q. rewrite E4 in Q. cbn [snd] in Q. subst s'.
  apply (edit_prepared_inv _ _ _ _ _ E1) in E3.
  destruct (edit_begun_fields s incoming) as (_ & _ & _ & F4 & _). cbn. unfold edit_installed.
  set (s1 := match prepared with Some _ => _ | None => _ end).
  assert (session_start_stop (c_session s1) = session_start_stop (c_session s)) as S1.
  { unfold s1. destruct prepared as [[[[tl st] cl] ch']|]; [|now rewrite F4].
    destruct E3 as (_ & _ & client & U). apply update_timing_ok in U as (_ & _ & S & _).
    unfold install_timeline. destruct (set_timeline _ _ _). exact S. }
  unfold edit_start_stop in E2. destruct (in_start_stop incoming) as [state|]; [|now left].
  destruct mapped as [m|]; [right|now left]. cbn. revert E2.
  destruct (Duration_leb _ _); [discriminate|]. destruct (c_sync_enabled s); [|discriminate].
  destruct (checked_i64 _) as [n|] eqn:N; [|discriminate]. intros [= <-]. cbn [with_ss_timestamp ss_timestamp].
  apply successor_later; [|exact N]. rewrite micros_eq. apply clamp_i64_range.
Qed.

(** A playback state of the session is only ever replaced by a later one: a
    client's is stamped at least one microsecond after the one it replaces, a
    received one is adopted only if it is later. *)
Theorem playback_timestamp_advances s incoming now origin source tl ss now1 now2 r s' :
  client_edit_from_origin s incoming now origin = (r, s') \/
  received_start_stop s source tl ss now1 now2 = (r, s') ->
  session_start_stop (c_session s') = session_start_stop (c_session s) \/
  duration_nanos (ss_timestamp (session_start_stop (c_session s))) <
  duration_nanos (ss_timestamp (session_start_stop (c_session s'))).
Proof.
  intros [E|E].
  - destruct r as [|ch|e]; try (apply client_edit_refused in E as ->; [now left|easy]).
    exact (edit_timestamp_advances _ _ _ _ _ _ E).
  - revert E. unfold received_start_stop. destruct (negb (bool_decide _)); [intros [= _ <-]; now left|].
    destruct (_ || _ || _ || _); [intros [= _ <-]; now left|].
    destruct (_ || _ || _); [intros [= _ <-]; now left|].
    destruct (Duration_leb _ _) eqn:D; [intros [= _ <-]; now left|].
    destruct (update_timing_guarded _ _ _ _ _ _ _) as [[[ch|e] st] cl] eqn:U;
      [|intros [= _ <-]; now left].
    apply update_timing_ok in U as (_ & _ & S & _). intros [= _ <-]. right. cbn. rewrite S. cbn.
    unfold Duration_leb in D. apply negb_false_iff, Duration_ltb_spec in D. now rewrite !duration_nanos_eq.
Qed.

(** The mapping of a new session takes [now] to ghost time zero. *)
Lemma init_x_form_zero now : host_to_ghost_nanos (init_x_form now) now = Duration_zero.
Proof.
  unfold host_to_ghost_nanos. destruct (integer_decode f64_one) as [[m e] sg] eqn:D.
  rewrite (host_to_ghost_wide_eq (init_x_form now) now m e sg eq_refl eq_refl D).
  assert (valid_f64 f64_one) as V by reflexivity.
  pose proof (integer_decode_range f64_one m e sg eq_refl D) as (Rm & Re & _).
  destruct (integer_decode_finite false 4503599627370496 (-52) m e sg V D) as [M ->].
  change (4503599627370496 * 2 ^ (-52 + 1075)) with (2 ^ 1075) in M.
  pose proof (Z.pow_pos_nonneg 2 1075 ltac:(lia) ltac:(lia)) as P.
  assert (e <= 0) as Le.
  { destruct (Z.le_gt_cases e 0) as [|G]; [assumption|].
    assert (2 ^ 1075 < 2 ^ (e + 1075)) as Lt by (apply Z.pow_lt_mono_r; lia).
    revert M P Lt. generalize (2 ^ 1075), (2 ^ (e + 1075)). intros x y M P Lt.
    destruct (Z.eq_dec m 0) as [->|]; [lia|]. assert (1 <= m) by lia. clear - M Lt H1 P. nia. }
  assert (m = 2 ^ (- e)) as ->.
  { replace 1075 with (- e + (e + 1075)) in M at 2 by lia. rewrite (Z.pow_add_r 2 (- e) (e + 1075)) in M by lia.
    pose proof (Z.pow_pos_nonneg 2 (e + 1075) ltac:(lia) ltac:(lia)).
    now apply Z.mul_cancel_r in M; [|lia]. }
  assert (scale_round (duration_nanos now * 2 ^ (- e)) e = duration_nanos now) as ->.
  { pose proof (Z.pow_pos_nonneg 2 (- e) ltac:(lia) ltac:(lia)). unfold scale_round.
    destruct (Z.ltb_spec e 0); [apply rdiv_exact; lia|]. replace e with 0 by lia. now rewrite !Z.mul_1_r. }
  cbn [init_x_form intercept]. rewrite !duration_nanos_eq, nanos_neg.
  replace (1 * nanos now + - nanos now) with 0 by lia. apply duration_from_nanos_0.
Qed.

(** At its own origin a timeline reads its beat origin. *)
Lemma to_beats_origin tl : Beats_ok (beat_origin tl) -> to_beats tl (time_origin tl) = beat_origin tl.
Proof.
  intros B. unfold to_beats, microbeats_at, microbeats_at_nanos. rewrite Z.sub_diag.
  change (clamp_i128 0) with 0. assert (microbeats_from_nanos (tempo tl) 0 = 0) as ->.
  { destruct (Z.eq_dec (period_micros (tempo tl)) 0) as [Z0|NZ].
    - unfold microbeats_from_nanos. rewrite Z0. reflexivity.
    - now rewrite microbeats_from_nanos_eq by (assumption || zlia). }
  unfold Beats_ok in B. destruct (beat_origin tl) as [b]. cbn [Beats_value] in *.
  rewrite Z.add_0_l, (clamp_i128_id b) by zlia. now rewrite clamp_i64_id.
Qed.

(** Founding a session of its own does not move the beat: at the time of the
    reset the new session reads the same beat as the one left behind, whatever
    its timeline and mapping, and starts with playback stopped. *)
Theorem reset_keeps_beat s now now' rid ch s' :
  coherent s -> reset s now now' rid = (Ok ch, s') ->
  to_beats (session_timeline (c_session s')) (host_to_ghost_nanos (ghost_x_form (c_session s')) now) =
  to_beats (session_timeline (c_session s)) (host_to_ghost_nanos (ghost_x_form (c_session s)) now) /\
  session_start_stop (c_session s') = StartStopState_default /\
  c_others s' = [] /\ c_peers s' = [] /\ session_id (c_current s') = state_session_id (c_peer s').
Proof.
  intros [Sn (P & _ & _)] E. revert E. unfold reset. set (node := if bool_decide _ then _ else _).
  assert (Duration_neg (intercept (init_x_form now)) = now) as N.
  { apply nanos_inj. cbn [intercept init_x_form]. rewrite !nanos_neg. lia. }
  rewrite N, init_x_form_zero. clear N.
  destruct (update_timing_guarded _ _ _ _ _ _ _) as [[[c|e] st] cl] eqn:U; [|discriminate].
  apply update_timing_ok in U as (T & X & S & _).
  unfold Session_new. destruct (Arc_new _) as [i sup1]. destruct (new_edit_revision sup1) as [r sup2].
  intros [= _ <-]. cbn. split; [|auto].
  assert (ghost_x_form st = init_x_form now) as Xe.
  { destruct X as [X|X]; [auto|]. unfold GhostXForm_eqb in X. apply andb_prop in X as [X1 X2].
    apply Duration_eqb_spec in X2. apply f64_eqb_eq in X1 as [X1|(a & b & X1 & _)]; [|discriminate X1].
    destruct (ghost_x_form st). cbn in *. now subst. }
  rewrite Xe, init_x_form_zero, T.
  set (tl := MkTimeline _ _ _). assert (clamp_tempo tl = tl) as ->.
  { apply (clamped_tempo (session_timeline (c_session s))); [|reflexivity].
    rewrite <- (snap_published_timeline _ Sn). exact P. }
  exact (to_beats_origin tl (clamp_i64_range _)).
Qed.

(** When a session's timing cannot be installed, a refresh or a join rolls
    the registry back to the published session: the node keeps showing exactly
    what it showed, and a session that failed to become current is dropped
    from the candidates. *)
Theorem rejected_timing_restores_published s queued now now' rid e s' :
  join s queued now now' rid = (Err e, s') \/ refresh_timing s now = (Err e, s') ->
  c_current s' = c_published s /\ c_published s' = c_published s /\ c_session s' = c_session s /\
  c_client s' = c_client s /\ c_peer s' = c_peer s /\ c_responder_id s' = c_responder_id s /\
  c_responder_form s' = c_responder_form s /\ c_gateway_peer s' = c_gateway_peer s /\
  (Session_matches (c_published s) (c_current s) = false ->
   Forall (fun o => Session_matches (c_current s) o = false) (c_others s')).
Proof.
  intros E. assert (s' = reject_pending_timing s) as ->.
  { destruct E as [E|E]; revert E.
    - unfold join, reset. destruct (negb (SessionKey_matches _ _)); [discriminate|].
      destruct (negb _ && _).
      + destruct (update_timing_guarded _ _ _ _ _ _ _) as [[[ch|x] st] cl]; [|now intros [= _ <-]].
        destruct (Session_new _ _ _ _). discriminate.
      + destruct (update_timing_guarded _ _ _ _ _ _ _) as [[[ch|x] st] cl]; [discriminate|now intros [= _ <-]].
    - unfold refresh_timing. destruct (_ || _); [discriminate|].
      destruct (update_timing_guarded _ _ _ _ _ _ _) as [[[ch|x] st] cl] eqn:U; [discriminate|].
      apply update_timing_err in U as [-> ->]. rewrite with_states_same. now intros [= _ <-]. }
  repeat split. intros M. unfold reject_pending_timing. rewrite M. cbn [negb c_others with_registry].
  apply List.Forall_forall. intros o Ho. apply List.filter_In in Ho as [_ Ho].
  apply andb_prop in Ho as [_ Ho]. now apply negb_true_iff in Ho.
Qed.

Lemma update_session_err_kind cur client at_time x e :
  update_session_timeline_from_client cur client at_time x = Err e -> e = TimelineOriginExhausted.
Proof.
  unfold update_session_timeline_from_client. destruct (_ && _); [discriminate|].
  destruct (checked_i64 _); cbn [ok_or]; [|now intros [= <-]].
  destruct (checked_i128 _) as [n|]; cbn [ok_or]; [|now intros [= <-]].
  destruct (negb _); [now intros [= <-]|discriminate].
Qed.

Lemma update_timing_err_kind st cl tl x now sync id e st' cl' :
  update_timing_guarded st cl tl x now sync id = (Err e, st', cl') -> e = TimelineOriginExhausted.
Proof.
  unfold update_timing_guarded. destruct (num_microseconds _); [|now intros [= <- _ _]].
  destruct (negb _ || negb _); [|discriminate].
  destruct (update_client_timeline_from_session _ _ _ _) as [|e'] eqn:U; [discriminate|].
  intros [= <- _ _]. revert U. unfold update_client_timeline_from_session.
  destruct (checked_ghost_nanos_to_host _ _); cbn [ok_or]; [|now intros [= <-]].
  destruct (ok_or _ _) as [b|e1] eqn:O; [destruct (negb _); [now intros [= <-]|discriminate]|].
  intros [= <-]. unfold ok_or in O. destruct (let! _ := _ in _); [discriminate|now injection O as <-].
Qed.

(** Only an outdated playback state makes an edit stale after its capture. *)
Lemma preflight_stale s incoming now :
  (let? target := edit_target s incoming in
   let? mapped := edit_start_stop s incoming target in
   let? prepared := edit_prepared s incoming target now in
   Ok (prepared, mapped)) = Err StaleClientState ->
  exists state, in_start_stop incoming = Some state /\
  Duration_leb (css_timestamp state) (css_timestamp (client_start_stop (c_client s))) = true.
Proof.
  destruct (edit_target s incoming) as [target|e] eqn:E1.
  2: { unfold edit_target in E1. destruct (in_timeline incoming); [|discriminate].
       destruct (update_session_timeline_from_client _ _ _ _) eqn:U; [discriminate|].
       apply update_session_err_kind in U. intros [= ->]. congruence. }
  destruct (edit_start_stop s incoming target) as [mapped|e] eqn:E2.
  - destruct (edit_prepared s incoming target now) as [prepared|e] eqn:E3; [discriminate|].
    unfold edit_prepared in E3. destruct (in_timeline incoming), target; try discriminate.
    destruct (update_timing_guarded _ _ _ _ _ _ _) as [[[c|x] st] cl] eqn:U; [discriminate|].
    apply update_timing_err_kind in U. intros [= ->]. congruence.
  - intros [= ->]. unfold edit_start_stop in E2. destruct (in_start_stop incoming) as [state|]; [|discriminate].
    destruct (Duration_leb _ _) eqn:D; [eauto|]. destruct (c_sync_enabled s); [|discriminate].
    destruct (checked_i64 _); discriminate.
Qed.

Lemma GhostXForm_eqb_left a b : GhostXForm_eqb a b = true -> GhostXForm_eqb a a = true.
Proof.
  unfold GhostXForm_eqb. intros E. apply andb_prop in E as [E _].
  rewrite (proj2 (Duration_eqb_spec _ _) eq_refl), andb_true_r. apply f64_eqb_refl.
  now destruct (slope a).
Qed.

(** A capture matches the session it was taken from. *)
Lemma capture_inv s cl o :
  coherent s -> capture_client_state s true = Some (cl, o) ->
  cl = c_client s /\ origin_matches o (c_current s) = true /\
  forall incoming, edit_must_wait s incoming = false.
Proof.
  intros [Sn (P & C & O)]. unfold capture_client_state. cbn [andb].
  destruct (_ && _) eqn:G; [|discriminate]. apply andb_prop in G as [G G4]. apply andb_prop in G as [G G3].
  apply andb_prop in G as [G1 G2]. apply bool_decide_eq_true in G2.
  unfold edit_origin. destruct (edit_revision (c_current s)) as [r|] eqn:R; [|discriminate].
  intros [= <- <-]. split; [reflexivity|]. split.
  - unfold origin_matches. cbn. rewrite R, !bool_decide_true by reflexivity.
    rewrite (Timeline_eqb_refl _ C). exact (GhostXForm_eqb_left _ _ G4).
  - intros incoming. unfold edit_must_wait. rewrite G1, G3, G4, (bool_decide_true _) by (rewrite G2; apply Sn).
    cbn. apply andb_false_r.
Qed.

(** An edit committed from a fresh capture is decided at once: it is never
    held back for publication, and refused as stale only when its playback
    state is not newer than the captured one. *)
Theorem captured_edit_is_decided s cl o incoming now :
  coherent s -> capture_client_state s true = Some (cl, o) ->
  let r := (client_edit_from_origin s incoming now (Some o)).1 in
  r <> WaitingForPublication /\
  (r = Rejected StaleClientState ->
   exists state, in_start_stop incoming = Some state /\
   duration_nanos (css_timestamp state) <= duration_nanos (css_timestamp (client_start_stop cl))).
Proof.
  intros Co Ca. cbv zeta. destruct (capture_inv _ _ _ Co Ca) as (-> & M & W).
  unfold client_edit_from_origin. rewrite M, W. cbn [negb].
  pose proof (preflight_stale s incoming now) as St. destruct (let? target := _ in _) as [[prepared mapped]|e].
  - unfold install_edit. destruct (match prepared with Some _ => _ | None => _ end). split; discriminate.
  - split; [discriminate|]. cbn [fst]. intros [= ->]. destruct (St eq_refl) as (state & S1 & S2).
    exists state. split; [exact S1|]. unfold Duration_leb in S2. apply negb_true_iff in S2.
    rewrite !duration_nanos_eq. apply not_true_iff_false in S2. rewrite Duration_ltb_spec in S2. lia.
Qed.

Lemma Controller_new_revisions tempo now now' rid sup :
  revisions_below (Controller_new tempo now now' rid sup).
Proof.
  unfold Controller_new, Session_new. destruct (Arc_new sup) as [i sup1].
  destruct (new_edit_revision sup1) as [r sup2] eqn:E. apply new_edit_revision_spec in E as (_ & _ & B).
  split; intros x Hx; now apply B.
Qed.

End ControllerProperties.
