(* ===== verification/BasicLink.v ===== *)
(** The application's link: [BasicLink] of src/src/link/mod.rs over the
    controller's commits, the audio thread's queue and its view of the accepted
    state, with [AtomicSessionState] of src/src/link/atomic_session_state.rs.

    A call of [process_audio_session_state_updates] or
    [commit_app_session_state] holds [non_rt_commit] from its first to its last
    change; where it stands is the [Consumer].  Between two of its operations
    anything else may happen: the controller's other commits, the audio
    thread's submissions, acknowledgments and captures, a dispatch of the
    playback callback.  Its future may be dropped where it waits, which is
    while it retries a commit or the lock of the client state, and nowhere
    else: from an accepted commit to the completion of the ticket, and from the
    sample of the client state to the notification, the code does not wait.

    The accepted view is the value of the published slot and the value waiting
    to be flushed; RtAccepted.v has the atomic steps below it.  A [try_lock] and
    the count of pinned readers are arguments.  The playback callback is assumed
    to return. *)

From stdpp Require Import base list numbers strings relations.
From Stdlib Require Import ZArith Lia SpecFloat Sorting.Sorted.
From S2P Require Import Prelude Chrono F64 Encoding Beats Tempo Timeline GhostXForm TimelineSync Phase Entries Sessions Peers SessionApi RtQueue Controller.

Section BasicLink.
Context `{Ch : Chrono, FD : FloatDecode}.

(** An accepted client state, with its place in the history of the
    controller's. *)
Definition Sample : Type := nat * ClientState.

Inductive Consumer :=
| NoConsumer
| Committing (ticket : option AudioCommitTicket) (inc : IncomingClientState) (origin : option SessionEditOrigin)
| Completing (ticket : AudioCommitTicket) (r : result unit CommitError)
| Refreshing
| Publishing (accepted : Sample)
| Notifying (accepted : Sample).

(** [dispatch_playback_notification] after its [take], and in the callback. *)
Inductive Dispatcher := NoDispatch | Taken (playing : bool) | Calling (playing : bool).

(** How a queued request was decided: the controller before and after. *)
Record Decision := MkDecision {
  d_ticket : AudioCommitTicket;
  d_incoming : IncomingClientState;
  d_origin : option SessionEditOrigin;
  d_before : SessionCommit;
  d_result : result unit CommitError;
  d_after : SessionCommit
}.

Record Request := MkRequest {
  r_ticket : AudioCommitTicket;
  r_incoming : IncomingClientState;
  r_origin : option SessionEditOrigin
}.

(** What has happened: the client states the controller has had, the requests
    admitted and decided, the captures of the audio thread, and the calls of
    the installed playback callback. *)
Record History := MkHistory {
  clients : list ClientState;
  admitted : list Request;
  decided : list Decision;
  captures : list Sample;
  playback_calls : list bool
}.

Record BasicLink := MkLink {
  controller : SessionCommit;
  rt_queue : RtQueue;
  accepted_slot : Sample;
  accepted_pending : option Sample;
  rt_enabled : bool;
  non_rt_commit : Consumer;
  has_start_stop_callback : bool;
  last_is_playing_for_callback : bool;
  pending_playback_notification : option bool;
  notification_dispatch : Dispatcher;
  past : History
}.

(** [BasicLink::new], over the controller just created; the queue's identity
    comes from the counter of the edit revisions. *)
Definition BasicLink_new (c : SessionCommit) : BasicLink :=
  let '(q, sup) := RtQueue_new (c_supply c) in
  MkLink (with_registry c (c_current c) (c_others c) (c_peers c) sup) q (0%nat, c_client c) None false NoConsumer
    false false None NoDispatch (MkHistory [c_client c] [] [] [] []).

(** ** Assignments *)

Definition with_controller (b : BasicLink) (c : SessionCommit) : BasicLink :=
  MkLink c (rt_queue b) (accepted_slot b) (accepted_pending b) (rt_enabled b) (non_rt_commit b)
    (has_start_stop_callback b) (last_is_playing_for_callback b) (pending_playback_notification b)
    (notification_dispatch b)
    (MkHistory (clients (past b) ++ [c_client c]) (admitted (past b)) (decided (past b)) (captures (past b))
       (playback_calls (past b))).

Definition with_queue (b : BasicLink) (q : RtQueue) (reqs : list Request) : BasicLink :=
  MkLink (controller b) q (accepted_slot b) (accepted_pending b) (rt_enabled b) (non_rt_commit b)
    (has_start_stop_callback b) (last_is_playing_for_callback b) (pending_playback_notification b)
    (notification_dispatch b)
    (MkHistory (clients (past b)) (admitted (past b) ++ reqs) (decided (past b)) (captures (past b))
       (playback_calls (past b))).

Definition with_view (b : BasicLink) (slot : Sample) (waiting : option Sample) (read : list Sample) : BasicLink :=
  MkLink (controller b) (rt_queue b) slot waiting (rt_enabled b) (non_rt_commit b)
    (has_start_stop_callback b) (last_is_playing_for_callback b) (pending_playback_notification b)
    (notification_dispatch b)
    (MkHistory (clients (past b)) (admitted (past b)) (decided (past b)) (captures (past b) ++ read)
       (playback_calls (past b))).

Definition with_consumer (b : BasicLink) (k : Consumer) (ds : list Decision) : BasicLink :=
  MkLink (controller b) (rt_queue b) (accepted_slot b) (accepted_pending b) (rt_enabled b) k
    (has_start_stop_callback b) (last_is_playing_for_callback b) (pending_playback_notification b)
    (notification_dispatch b)
    (MkHistory (clients (past b)) (admitted (past b)) (decided (past b) ++ ds) (captures (past b))
       (playback_calls (past b))).

Definition with_playback (b : BasicLink) (last : bool) (waiting : option bool) (d : Dispatcher) (calls : list bool)
  : BasicLink :=
  MkLink (controller b) (rt_queue b) (accepted_slot b) (accepted_pending b) (rt_enabled b) (non_rt_commit b)
    (has_start_stop_callback b) last waiting d
    (MkHistory (clients (past b)) (admitted (past b)) (decided (past b)) (captures (past b)) calls).

(** ** The accepted view *)

(** [AcceptedState::flush], to its effect: a waiting value is published unless
    readers are pinned. *)
Definition flush (b : BasicLink) (no_readers : bool) : BasicLink :=
  match accepted_pending b with
  | Some v => if no_readers then with_view b v None [] else b
  | None => b
  end.

Definition publish_client_state (b : BasicLink) (v : Sample) (no_readers : bool) : BasicLink :=
  flush (with_view b (accepted_slot b) (Some v) []) no_readers.

(** [read]: [locked] when the [try_lock] of the waiting value succeeds, then
    the reader is pinned or the capture fails. *)
Definition get_rt_client_state (b : BasicLink) (locked no_readers : bool) (pin : result unit AudioCaptureError)
  : result ClientState AudioCaptureError * BasicLink :=
  let b := if locked then flush b no_readers else b in
  match pin with
  | Ok _ => (Ok (accepted_slot b).2, with_view b (accepted_slot b) (accepted_pending b) [accepted_slot b])
  | Err e => (Err e, b)
  end.

Definition get_app_client_state (b : BasicLink) (no_readers : bool) : ClientState * BasicLink :=
  let b := flush b no_readers in
  ((accepted_slot b).2, with_view b (accepted_slot b) (accepted_pending b) [accepted_slot b]).

(** ** Captures *)

Definition with_origin (s : ApiSessionState) (o : option SessionEditOrigin) : ApiSessionState :=
  MkApiSession (original_state s) (api_state s) (respect_quantum s) o.

(** The rest of [capture_audio_session_state]: [c] is the controller when it is
    asked for the origin. *)
Definition capture_audio_session_state (client_state : ClientState) (num_peers : nat) (c : SessionCommit)
    (locks_free : bool) : ApiSessionState :=
  let captured := to_session_state client_state (0 <? num_peers)%nat in
  match capture_client_state c locks_free with
  | Some (accepted, origin) =>
      if ClientState_eqb accepted client_state then with_origin captured (Some origin) else captured
  | None => captured
  end.

(** [view] is what the cache gives when the lock of the client state is taken. *)
Definition capture_app_session_state (c : SessionCommit) (num_peers : nat) (locks_free client_free : bool)
    (view : ClientState) : ApiSessionState :=
  match capture_client_state c locks_free with
  | Some (accepted, origin) => with_origin (to_session_state accepted (0 <? num_peers)%nat) (Some origin)
  | None => to_session_state (if client_free then c_client c else view) (0 <? num_peers)%nat
  end.

(** ** The audio thread's requests *)

Definition commit_audio_session_state (b : BasicLink) (st : ApiSessionState) (current_time : Duration) (lock_free : bool)
  : result AudioCommitTicket AudioQueueError * BasicLink :=
  let incoming_state := to_incoming_client_state (api_state st) (original_state st) current_time in
  let '(r, q) := update_rt_client_state_from_origin (rt_queue b) lock_free incoming_state (api_origin st) in
  (r, with_queue b q
        (match r with Ok t => [MkRequest t incoming_state (api_origin st)] | Err _ => [] end)).

Definition take_audio_commit_result (b : BasicLink) (ticket : AudioCommitTicket) (lock_free : bool)
  : result (option (result unit CommitError)) AudioQueueError * BasicLink :=
  let '(r, q) := take_commit_result (rt_queue b) lock_free ticket in (r, with_queue b q []).

Definition outstanding_audio_commit_ticket (b : BasicLink) (lock_free : bool)
  : result (option AudioCommitTicket) AudioQueueError := outstanding_commit_ticket (rt_queue b) lock_free.

(** ** The consumer *)

(** [process_audio_session_state_updates] up to its first wait. *)
Definition start_drain (b : BasicLink) : BasicLink :=
  match non_rt_commit b with
  | NoConsumer =>
      match pending_update_from_origin (rt_queue b) with
      | Some (ticket, inc, origin) => with_consumer b (Committing (Some ticket) inc origin) []
      | None => with_consumer b Refreshing []
      end
  | _ => b
  end.

(** [commit_app_session_state], once it has the lock. *)
Definition start_app_commit (b : BasicLink) (st : ApiSessionState) (now : Duration) : BasicLink :=
  match non_rt_commit b with
  | NoConsumer =>
      with_consumer b
        (Committing None (to_incoming_client_state (api_state st) (original_state st) now) (api_origin st)) []
  | _ => b
  end.

(** One attempt of [commit_incoming_client_state]: [None] when the proposal is
    held back and the attempt is to be repeated. *)
Definition commit_incoming_client_state (c : SessionCommit) (inc : IncomingClientState)
    (origin : option SessionEditOrigin) (now : Duration) : option (result unit CommitError) * SessionCommit :=
  match origin with
  | None => (Some (Err StaleClientState), c)
  | Some o =>
      match client_edit_from_origin c inc now (Some o) with
      | (WaitingForPublication, c') => (None, c')
      | (CommitComplete _, c') => (Some (Ok tt), c')
      | (Rejected e, c') => (Some (Err e), c')
      end
  end.

Definition attempt (b : BasicLink) (now : Duration) : BasicLink :=
  match non_rt_commit b with
  | Committing ticket inc origin =>
      let '(r, c') := commit_incoming_client_state (controller b) inc origin now in
      let b' := with_controller b c' in
      match r with
      | None => b'
      | Some r =>
          match ticket with
          | Some t => with_consumer b' (Completing t r) [MkDecision t inc origin (controller b) r c']
          | None => with_consumer b' (match r with Ok _ => Refreshing | Err _ => NoConsumer end) []
          end
      end
  | _ => b
  end.

Definition complete (b : BasicLink) : BasicLink :=
  match non_rt_commit b with
  | Completing t r =>
      with_consumer (with_queue b (complete_pending_update (rt_queue b) t r).2 []) Refreshing []
  | _ => b
  end.

(** [refresh_accepted_client_state]: the sample, ... *)
Definition sample (b : BasicLink) : BasicLink :=
  match non_rt_commit b with
  | Refreshing =>
      with_consumer b (Publishing (pred (length (clients (past b))), c_client (controller b))) []
  | _ => b
  end.

(** ... and its publication. *)
Definition publish (b : BasicLink) (no_readers : bool) : BasicLink :=
  match non_rt_commit b with
  | Publishing v => with_consumer (publish_client_state b v no_readers) (Notifying v) []
  | _ => b
  end.

(** [queue_playback_notification] and the end of the guard. *)
Definition queue_playback_notification (b : BasicLink) : BasicLink :=
  match non_rt_commit b with
  | Notifying v =>
      with_consumer
        (with_playback b (last_is_playing_for_callback b) (Some (css_is_playing (client_start_stop v.2)))
           (notification_dispatch b) (playback_calls (past b))) NoConsumer []
  | _ => b
  end.

(** The future is dropped: the guard ends with it. *)
Definition cancel (b : BasicLink) : BasicLink :=
  match non_rt_commit b with
  | Committing _ _ _ | Refreshing => with_consumer b NoConsumer []
  | _ => b
  end.

(** ** The playback callback *)

Definition take_notification (b : BasicLink) : BasicLink :=
  match notification_dispatch b, pending_playback_notification b with
  | NoDispatch, Some playing =>
      if Bool.eqb (last_is_playing_for_callback b) playing
      then with_playback b (last_is_playing_for_callback b) None NoDispatch (playback_calls (past b))
      else if has_start_stop_callback b
      then with_playback b (last_is_playing_for_callback b) None (Taken playing) (playback_calls (past b))
      else with_playback b playing None NoDispatch (playback_calls (past b))
  | _, _ => b
  end.

(** The callback is locked elsewhere, or it is called. *)
Definition try_callback (b : BasicLink) (callback_free : bool) : BasicLink :=
  match notification_dispatch b with
  | Taken playing =>
      if callback_free
      then with_playback b (last_is_playing_for_callback b) (pending_playback_notification b) (Calling playing)
             (playback_calls (past b) ++ [playing])
      else with_playback b (last_is_playing_for_callback b)
             (Some (default playing (pending_playback_notification b))) NoDispatch (playback_calls (past b))
  | _ => b
  end.

Definition callback_returns (b : BasicLink) : BasicLink :=
  match notification_dispatch b with
  | Calling playing =>
      with_playback b playing (pending_playback_notification b) NoDispatch (playback_calls (past b))
  | _ => b
  end.

(** [set_start_stop_callback], which borrows the link exclusively. *)
Definition set_start_stop_callback (b : BasicLink) (client_free : bool) : BasicLink :=
  let playing := css_is_playing (client_start_stop (c_client (controller b))) in
  let b' := if client_free
            then with_playback b playing (pending_playback_notification b) (notification_dispatch b) [playing]
            else with_playback b (last_is_playing_for_callback b) (pending_playback_notification b)
                   (notification_dispatch b) [] in
  MkLink (controller b') (rt_queue b') (accepted_slot b') (accepted_pending b') (rt_enabled b') (non_rt_commit b')
    true (last_is_playing_for_callback b') (pending_playback_notification b') (notification_dispatch b') (past b').

Definition set_enabled (b : BasicLink) (enabled : bool) : BasicLink :=
  MkLink (controller b) (rt_queue b) (accepted_slot b) (accepted_pending b) enabled (non_rt_commit b)
    (has_start_stop_callback b) (last_is_playing_for_callback b) (pending_playback_notification b)
    (notification_dispatch b) (past b).

Inductive link_step : BasicLink -> BasicLink -> Prop :=
| LinkController b c : commit_step (controller b) c -> link_step b (with_controller b c)
| LinkCapture b locked no_readers pin : link_step b (get_rt_client_state b locked no_readers pin).2
| LinkRead b no_readers : link_step b (get_app_client_state b no_readers).2
| LinkSubmit b st now free : link_step b (commit_audio_session_state b st now free).2
| LinkTake b t free : link_step b (take_audio_commit_result b t free).2
| LinkDrain b : link_step b (start_drain b)
| LinkApp b st now : link_step b (start_app_commit b st now)
| LinkAttempt b now : link_step b (attempt b now)
| LinkComplete b : link_step b (complete b)
| LinkSample b : link_step b (sample b)
| LinkPublish b no_readers : link_step b (publish b no_readers)
| LinkNotify b : link_step b (queue_playback_notification b)
| LinkCancel b : link_step b (cancel b)
| LinkDispatch b : link_step b (take_notification b)
| LinkCall b free : link_step b (try_callback b free)
| LinkReturn b : link_step b (callback_returns b)
| LinkCallback b free : notification_dispatch b = NoDispatch -> non_rt_commit b = NoConsumer -> link_step b (set_start_stop_callback b free)
| LinkEnabled b e : link_step b (set_enabled b e).

(** What follows an accepted commit, undisturbed. *)
Definition finish (b : BasicLink) : BasicLink :=
  match non_rt_commit b with
  | Refreshing =>
      callback_returns (try_callback (take_notification (queue_playback_notification (publish (sample b) true))) true)
  | _ => b
  end.

(** [process_audio_session_state_updates] and [commit_app_session_state] alone,
    with every lock free, up to the point where a proposal is held back. *)
Definition process_audio_session_state_updates (b : BasicLink) (now : Duration) : BasicLink :=
  finish (complete (attempt (start_drain b) now)).

Definition commit_app_session_state (b : BasicLink) (st : ApiSessionState) (now now' : Duration) : BasicLink :=
  finish (attempt (start_app_commit b st now) now').

End BasicLink.

(** ** Requests *)

Section BasicLinkProperties.
Context `{Laws : ChronoLaws, FL : FloatDecodeLaws}.

Definition decision_sound (d : Decision) : Prop :=
  exists now, commit_incoming_client_state (d_before d) (d_incoming d) (d_origin d) now = (Some (d_result d), d_after d).

(** What the log of requests and the queue say of each other. *)
Record requests_ok (q : RtQueue) (k : Consumer) (reqs : list Request) (ds : list Decision) : Prop := {
  rq_queue : queue_ok q;
  rq_tickets : forall r, r ∈ reqs -> queue_id q = Some (ticket_queue (r_ticket r)) /\
    ticket_sequence (r_ticket r) <= sequence (pending q);
  rq_slot : forall t inc o, pending_update_from_origin q = Some (t, inc, o) -> MkRequest t inc o ∈ reqs;
  rq_fate : forall r, r ∈ reqs -> holds (r_ticket r) (r_incoming r) (r_origin r) q \/
    exists d, d ∈ ds /\ d_ticket d = r_ticket r;
  rq_decided : forall d, d ∈ ds -> MkRequest (d_ticket d) (d_incoming d) (d_origin d) ∈ reqs;
  rq_nodup : NoDup (d_ticket <$> ds);
  rq_closed : forall d, d ∈ ds -> ticket_sequence (d_ticket d) = sequence (pending q) ->
    incoming (pending q) = None \/ k = Completing (d_ticket d) (d_result d);
  rq_result : forall r, pending_result (pending q) = Some r ->
    exists d, d ∈ ds /\ ticket_sequence (d_ticket d) = sequence (pending q) /\ d_result d = r;
  rq_consumer : match k with
    | Committing (Some t) inc o => holds t inc o q
    | Completing t r => (exists inc o, holds t inc o q) /\ exists d, d ∈ ds /\ d_ticket d = t /\ d_result d = r
    | _ => True
    end
}.

Definition link_requests_ok (b : BasicLink) : Prop :=
  requests_ok (rt_queue b) (non_rt_commit b) (admitted (past b)) (decided (past b)).

Lemma pending_holds q t inc o : pending_update_from_origin q = Some (t, inc, o) <-> holds t inc o q.
Proof.
  unfold pending_update_from_origin, holds. destruct (queue_id q) as [id|]; cbn; [|split; intros; intuition discriminate].
  destruct (incoming (pending q)); cbn; [|split; intros; intuition discriminate].
  split; [intros [= <- <- <-]; auto|]. intros (I0 & S & [= ->] & <-). injection I0 as ->. rewrite S. now destruct t.
Qed.

Lemma holds_ticket t t' inc o inc' o' q : holds t inc o q -> holds t' inc' o' q -> t = t' /\ inc = inc' /\ o = o'.
Proof. intros H1%pending_holds H2%pending_holds. rewrite H1 in H2. now injection H2. Qed.

(** The consumer moves without touching the queue. *)
Lemma requests_ok_consumer q k k' reqs ds :
  requests_ok q k reqs ds -> (forall t r, k <> Completing t r) ->
  match k' with Committing (Some t) inc o => holds t inc o q | Completing _ _ => False | _ => True end ->
  requests_ok q k' reqs ds.
Proof.
  intros [] N K. constructor; auto; [|now destruct k' as [|[]| | | |]].
  intros d D E. destruct (rq_closed0 d D E) as [X|X]; [now left|now destruct (N _ _ X)].
Qed.

Lemma submit_ok q k reqs ds free inc o :
  requests_ok q k reqs ds ->
  requests_ok (update_rt_client_state_from_origin q free inc o).2 k
    (reqs ++ match (update_rt_client_state_from_origin q free inc o).1 with
             | Ok t => [MkRequest t inc o] | Err _ => [] end) ds.
Proof.
  intros R. pose proof R as [Q T S F D N C Re K].
  pose proof (queue_step_ok _ _ Q (q_update q free inc o)) as Q'. revert Q'.
  unfold update_rt_client_state_from_origin. destruct (queue_id q) as [id|] eqn:I; cbn [fst snd]; [|now rewrite app_nil_r].
  destruct free; cbn [negb fst snd]; [|now rewrite app_nil_r].
  destruct (incoming (pending q)) eqn:In; cbn [is_some orb fst snd]; [now rewrite app_nil_r|].
  destruct (pending_result (pending q)) eqn:Pr; cbn [is_some fst snd]; [now rewrite app_nil_r|].
  destruct (_ <? _); cbn [fst snd]; [now rewrite app_nil_r|]. intros Q'.
  assert (forall t i o', ~ holds t i o' q) as NH by (intros t i o' (_ & _ & X & _); congruence).
  assert (forall r, r ∈ reqs -> exists d, d ∈ ds /\ d_ticket d = r_ticket r) as F'.
  { intros r Hr. destruct (F r Hr) as [X|X]; [now destruct (NH _ _ _ X)|exact X]. }
  assert (forall d, d ∈ ds -> ticket_sequence (d_ticket d) <= sequence (pending q)) as L
    by (intros d Hd; apply D, T in Hd; apply Hd).
  constructor; cbn; auto.
  - intros r [Hr|Hr%list_elem_of_singleton]%elem_of_app.
    + destruct (T r Hr). split; [congruence|lia].
    + subst. cbn. split; [congruence|lia].
  - intros t i o' [= <- <- <-]. set_solver.
  - intros r [Hr|Hr%list_elem_of_singleton]%elem_of_app; [right; auto|]. subst. left. now repeat split.
  - intros d Hd. apply elem_of_app. auto.
  - intros d Hd E. apply L in Hd. lia.
  - congruence.
  - destruct k as [|[t|] i o'|t r| | |]; auto; [now destruct (NH _ _ _ K)|].
    destruct K as [(i & o' & X) _]. now destruct (NH _ _ _ X).
Qed.

Lemma take_ok q k reqs ds free t :
  requests_ok q k reqs ds -> requests_ok (take_commit_result q free t).2 k reqs ds.
Proof.
  intros R. pose proof R as [Q T S F D N C Re K].
  pose proof (queue_step_ok _ _ Q (q_take q free t)) as Q'. revert Q'. unfold take_commit_result.
  destruct (negb _); [auto|]. destruct free; cbn [negb]; [|auto]. destruct (negb _); [auto|].
  destruct (incoming (pending q)) eqn:In; cbn [is_some]; [auto|].
  destruct (pending_result (pending q)) eqn:Pr; [|auto]. cbn [snd]. intros Q'.
  assert (forall t i o', ~ holds t i o' q) as NH by (intros t' i o' (_ & _ & X & _); congruence).
  constructor; cbn; auto.
  - intros t' i o'. rewrite pending_holds. intros (_ & _ & X & _). cbn in X. congruence.
  - intros r' Hr. destruct (F r' Hr) as [X|X]; [now destruct (NH _ _ _ X)|auto].
  - intros r'. discriminate.
  - destruct k as [|[t'|] i o'|t' r'| | |]; auto; [now destruct (NH _ _ _ K)|].
    destruct K as [(i & o' & X) _]. now destruct (NH _ _ _ X).
Qed.

Lemma complete_ok q t r reqs ds :
  requests_ok q (Completing t r) reqs ds -> requests_ok (complete_pending_update q t r).2 Refreshing reqs ds.
Proof.
  intros R. pose proof R as [Q T S F D N C Re [(inc & o & Hh) (d & Hd & Dt & Dr)]].
  pose proof (queue_step_ok _ _ Q (q_complete q t r)) as Q'. revert Q'.
  pose proof Hh as (I & Sq & In & Og). unfold complete_pending_update.
  rewrite bool_decide_true by exact I. cbn [negb]. rewrite Sq, Z.eqb_refl, In. cbn [is_some negb orb snd]. intros Q'.
  assert (forall rq, rq ∈ reqs -> exists d, d ∈ ds /\ d_ticket d = r_ticket rq) as F'.
  { intros rq Hr. destruct (F rq Hr) as [X|X]; [|exact X].
    destruct (holds_ticket _ _ _ _ _ _ _ X Hh) as (-> & _ & _). eauto. }
  constructor; cbn; auto.
  - intros rq Hr. apply T in Hr. now rewrite Sq in Hr.
  - intros t' i o'. rewrite pending_holds. now intros (_ & _ & X & _).
  - intros r' [= <-]. exists d. now subst.
Qed.

Lemma link_decide_ok q t inc o reqs ds before r after :
  requests_ok q (Committing (Some t) inc o) reqs ds ->
  requests_ok q (Completing t r) reqs (ds ++ [MkDecision t inc o before r after]).
Proof.
  intros [Q T S F D N C Re K]. pose proof K as (I & Sq & In & Og).
  assert (forall d, d ∈ ds -> ticket_sequence (d_ticket d) <> sequence (pending q)) as NS.
  { intros d Hd E. destruct (C d Hd E); congruence. }
  constructor; auto.
  - intros rq Hr. destruct (F rq Hr) as [X|(d & Hd & E)]; [now left|right]. exists d. set_solver.
  - intros d [Hd|Hd%list_elem_of_singleton]%elem_of_app; [auto|]. subst. cbn. apply S. now apply pending_holds.
  - rewrite fmap_app. apply NoDup_app. repeat split; [exact N| |apply NoDup_singleton].
    intros t' Ht Ht'%list_elem_of_singleton. apply list_elem_of_fmap in Ht as (d & -> & Hd). cbn in Ht'.
    apply (NS d Hd). now rewrite Ht'.
  - intros d [Hd|Hd%list_elem_of_singleton]%elem_of_app E; [now destruct (NS d Hd)|]. subst. now right.
  - intros r' E. destruct Q as (_ & X & _). rewrite X in E; [discriminate|]. now rewrite In.
  - split; [eauto|]. eexists. split; [apply elem_of_app; right; now left|easy].
Qed.

Lemma flush_queue b n : rt_queue (flush b n) = rt_queue b /\ non_rt_commit (flush b n) = non_rt_commit b /\
  controller (flush b n) = controller b /\
  admitted (past (flush b n)) = admitted (past b) /\ decided (past (flush b n)) = decided (past b) /\
  clients (past (flush b n)) = clients (past b).
Proof. unfold flush. destruct (accepted_pending b), n; cbn; auto 10. Qed.

Lemma link_step_requests_ok b b' : link_requests_ok b -> link_step b b' -> link_requests_ok b'.
Proof.
  unfold link_requests_ok. intros Ok St.
  destruct St as [b c Hc|b locked n pin|b n|b st now free|b t free|b|b st now|b now|b|b|b n|b|b|b|b f|b|b f|b e].
  - exact Ok.
  - unfold get_rt_client_state. destruct (flush_queue b n) as (E1 & E2 & _ & E3 & E4 & _).
    destruct locked, pin; cbn; rewrite ?E1, ?E2, ?E3, ?E4; exact Ok.
  - unfold get_app_client_state. destruct (flush_queue b n) as (E1 & E2 & _ & E3 & E4 & _).
    cbn. rewrite E1, E2, E3, E4. exact Ok.
  - unfold commit_audio_session_state. set (inc := to_incoming_client_state _ _ _).
    pose proof (submit_ok _ _ _ _ free inc (api_origin st) Ok) as X.
    destruct (update_rt_client_state_from_origin _ _ _ _) as [r q]. exact X.
  - unfold take_audio_commit_result. pose proof (take_ok _ _ _ _ free t Ok) as X.
    destruct (take_commit_result _ _ _) as [r q]. cbn. rewrite app_nil_r. exact X.
  - unfold start_drain. destruct (non_rt_commit b) eqn:E; try (rewrite E; exact Ok).
    destruct (pending_update_from_origin (rt_queue b)) as [[[t inc] o]|] eqn:P; cbn; rewrite app_nil_r;
      apply (requests_ok_consumer _ NoConsumer); try discriminate; auto. now apply pending_holds.
  - unfold start_app_commit. destruct (non_rt_commit b) eqn:E; try (rewrite E; exact Ok).
    cbn. rewrite app_nil_r. now apply (requests_ok_consumer _ NoConsumer).
  - unfold attempt. destruct (non_rt_commit b) as [|[t|] inc o| | | |] eqn:E; try (rewrite E; exact Ok);
      destruct (commit_incoming_client_state _ _ _ _) as [[r|] c']; cbn; try (rewrite E; exact Ok).
    + now apply link_decide_ok.
    + rewrite app_nil_r. eapply requests_ok_consumer; [exact Ok|discriminate|now destruct r].
  - unfold complete. destruct (non_rt_commit b) eqn:E; try (rewrite E; exact Ok).
    cbn. rewrite !app_nil_r. now apply complete_ok.
  - unfold sample. destruct (non_rt_commit b) eqn:E; try (rewrite E; exact Ok).
    cbn. rewrite app_nil_r. now apply (requests_ok_consumer _ Refreshing).
  - unfold publish. destruct (non_rt_commit b) eqn:E; try (rewrite E; exact Ok). unfold publish_client_state, flush.
    destruct n; cbn; rewrite !app_nil_r; now apply (requests_ok_consumer _ (Publishing accepted)).
  - unfold queue_playback_notification. destruct (non_rt_commit b) eqn:E; try (rewrite E; exact Ok).
    cbn. rewrite app_nil_r. now apply (requests_ok_consumer _ (Notifying accepted)).
  - unfold cancel. destruct (non_rt_commit b) eqn:E; try (rewrite E; exact Ok); cbn; rewrite app_nil_r.
    + eapply requests_ok_consumer; [exact Ok|discriminate|exact I].
    + now apply (requests_ok_consumer _ Refreshing).
  - unfold take_notification. destruct (notification_dispatch b), (pending_playback_notification b); try exact Ok.
    destruct (Bool.eqb _ _); [exact Ok|]. now destruct (has_start_stop_callback b).
  - unfold try_callback. destruct (notification_dispatch b); try exact Ok. now destruct f.
  - unfold callback_returns. now destruct (notification_dispatch b).
  - unfold set_start_stop_callback. now destruct f.
  - exact Ok.
Qed.

Lemma BasicLink_new_requests_ok c : link_requests_ok (BasicLink_new c).
Proof.
  unfold link_requests_ok, BasicLink_new, RtQueue_new. destruct (new_edit_revision _) as [id sup].
  constructor; cbn; try (intros; set_solver); auto.
  - repeat split; cbn; easy || (unfold u64_MAX; lia).
  - intros t inc o. unfold pending_update_from_origin. cbn. now destruct id.
  - constructor.
Qed.

(** ** The controller, and what decided its requests *)

(** The controller's commits from [c0] to [c], with the decisions among them. *)
Inductive run (c0 : SessionCommit) : list Decision -> SessionCommit -> Prop :=
| run_commits c : rtc commit_step c0 c -> run c0 [] c
| run_decide ds d c :
    run c0 ds (d_before d) -> decision_sound d -> rtc commit_step (d_after d) c -> run c0 (ds ++ [d]) c.

Lemma run_commit c0 ds c c' : run c0 ds c -> rtc commit_step c c' -> run c0 ds c'.
Proof.
  intros [c1 R|ds' d c1 R D S] St; [apply run_commits; now transitivity c1|].
  apply run_decide; auto. now transitivity c1.
Qed.

Lemma commit_incoming_step c inc o now r c' :
  commit_incoming_client_state c inc o now = (r, c') -> rtc commit_step c c'.
Proof.
  unfold commit_incoming_client_state. destruct o as [o|]; [|intros [= _ <-]; reflexivity].
  pose proof (StepEdit c inc now (Some o)) as St. destruct (client_edit_from_origin _ _ _ _) as [[| |] c1]; cbn in St;
    intros [= _ <-]; exact (rtc_once _ _ St).
Qed.

Lemma decisions_run_steps c0 ds c : run c0 ds c -> rtc commit_step c0 c.
Proof.
  induction 1 as [c R|ds d c _ IH [now S] R]; [exact R|]. apply commit_incoming_step in S.
  etransitivity; [exact IH|]. etransitivity; eassumption.
Qed.

Lemma run_lookup c0 ds c i d :
  run c0 ds c -> ds !! i = Some d ->
  rtc commit_step c0 (d_before d) /\ decision_sound d /\ rtc commit_step (d_after d) c.
Proof.
  intros R. revert i d. induction R as [c R|ds e c R IH S St]; intros i d Hi; [discriminate|].
  apply lookup_snoc_Some in Hi as [[_ Hi]|[_ <-]].
  - destruct (IH _ _ Hi) as (A & B & D). repeat split; auto. destruct S as [now S%commit_incoming_step].
    etransitivity; [exact D|]. etransitivity; eassumption.
  - split; [exact (decisions_run_steps _ _ _ R)|auto].
Qed.

(** An earlier decision is followed by the later one. *)
Lemma run_order c0 ds c i j d d' :
  run c0 ds c -> (i < j)%nat -> ds !! i = Some d -> ds !! j = Some d' ->
  rtc commit_step (d_after d) (d_before d').
Proof.
  intros R. revert i j d d'. induction R as [c R|ds e c R IH S St]; intros i j d d' L Hi Hj; [discriminate|].
  apply lookup_snoc_Some in Hj as [[_ Hj]|[-> <-]].
  - apply lookup_snoc_Some in Hi as [[_ Hi]|[-> _]]; [eauto|]. apply lookup_lt_Some in Hj. lia.
  - apply lookup_snoc_Some in Hi as [[_ Hi]|[-> _]]; [|lia]. exact (proj2 (proj2 (run_lookup _ _ _ _ _ R Hi))).
Qed.

Lemma link_step_run c0 b b' :
  link_step b b' -> run c0 (decided (past b)) (controller b) -> run c0 (decided (past b')) (controller b').
Proof.
  intros St R. destruct St as [b c Hc|b locked n pin|b n|b st now free|b t free|b|b st now|b now|b|b|b n|b|b|b|b f|b|b f|b e].
  - cbn. eapply run_commit; [exact R|now apply rtc_once].
  - unfold get_rt_client_state. destruct (flush_queue b n) as (_ & _ & E1 & _ & E2 & _).
    destruct locked, pin; cbn; rewrite ?E1, ?E2; exact R.
  - unfold get_app_client_state. destruct (flush_queue b n) as (_ & _ & E1 & _ & E2 & _). cbn. now rewrite E1, E2.
  - unfold commit_audio_session_state. now destruct (update_rt_client_state_from_origin _ _ _ _).
  - unfold take_audio_commit_result. now destruct (take_commit_result _ _ _).
  - unfold start_drain. destruct (non_rt_commit b); auto.
    destruct (pending_update_from_origin _) as [[[t inc] o]|]; cbn; now rewrite app_nil_r.
  - unfold start_app_commit. destruct (non_rt_commit b); auto. cbn. now rewrite app_nil_r.
  - unfold attempt. destruct (non_rt_commit b) as [|t inc o| | | |]; auto.
    destruct (commit_incoming_client_state _ _ _ _) as [r c'] eqn:E.
    pose proof (commit_incoming_step _ _ _ _ _ _ E) as X. destruct r as [r|]; [destruct t as [t|]|]; cbn.
    + apply run_decide; [exact R| |reflexivity]. exists now. exact E.
    + rewrite app_nil_r. eapply run_commit; eauto.
    + eapply run_commit; eauto.
  - unfold complete. destruct (non_rt_commit b); auto. cbn. now rewrite app_nil_r.
  - unfold sample. destruct (non_rt_commit b); auto. cbn. now rewrite app_nil_r.
  - unfold publish, publish_client_state, flush. destruct (non_rt_commit b), n; auto; cbn; now rewrite app_nil_r.
  - unfold queue_playback_notification. destruct (non_rt_commit b); auto. cbn. now rewrite app_nil_r.
  - unfold cancel. destruct (non_rt_commit b); auto; cbn; now rewrite app_nil_r.
  - unfold take_notification. destruct (notification_dispatch b), (pending_playback_notification b); auto.
    destruct (Bool.eqb _ _); [exact R|]. now destruct (has_start_stop_callback b).
  - unfold try_callback. destruct (notification_dispatch b); auto. now destruct f.
  - unfold callback_returns. now destruct (notification_dispatch b).
  - unfold set_start_stop_callback. now destruct f.
  - exact R.
Qed.

Definition link_inv (c0 : SessionCommit) (b : BasicLink) : Prop :=
  link_requests_ok b /\ run c0 (decided (past b)) (controller b).

Lemma link_steps_inv c0 b b' : rtc link_step b b' -> link_inv c0 b -> link_inv c0 b'.
Proof.
  induction 1 as [b|b b1 b2 St _ IH]; [easy|]. intros [R Q]. apply IH.
  split; [eapply link_step_requests_ok|eapply link_step_run]; eauto.
Qed.

Lemma BasicLink_new_inv c : link_inv (controller (BasicLink_new c)) (BasicLink_new c).
Proof.
  split; [apply BasicLink_new_requests_ok|]. unfold BasicLink_new. destruct (RtQueue_new _) as [q sup]. cbn.
  now apply run_commits.
Qed.

(** The link's supply is the controller's, after the queue's identity. *)
Lemma BasicLink_new_revisions c : revisions_below c -> revisions_below (controller (BasicLink_new c)).
Proof.
  intros [B1 B2]. unfold BasicLink_new, RtQueue_new. destruct (new_edit_revision _) as [id sup] eqn:E.
  apply new_edit_revision_spec in E as (_ & L & _). cbn. split; intros r Hr; [apply B1 in Hr|apply B2 in Hr]; cbn; lia.
Qed.

Lemma refused_request c inc o now e c' :
  commit_incoming_client_state c inc o now = (Some (Err e), c') -> c' = c.
Proof.
  unfold commit_incoming_client_state. destruct o as [o|]; [|now intros [= _ <-]].
  destruct (client_edit_from_origin c inc now (Some o)) as [r c1] eqn:E.
  destruct r; intros [= -> <-] || discriminate. eapply client_edit_refused; [exact E|discriminate].
Qed.

(** A result that can be read is one that was decided. *)
Lemma read_result_decided b t free r :
  link_requests_ok b -> (take_audio_commit_result b t free).1 = Ok (Some r) ->
  exists d, d ∈ decided (past b) /\ d_ticket d = t /\ d_result d = r.
Proof.
  intros [Q T S F D N C Re K]. unfold take_audio_commit_result, take_commit_result.
  case_bool_decide as I; cbn [negb]; [|discriminate]. destruct free; cbn [negb]; [|discriminate].
  destruct (Z.eqb_spec (ticket_sequence t) (sequence (pending (rt_queue b)))) as [Sq|]; cbn [negb]; [|discriminate].
  destruct (is_some _); [discriminate|].
  destruct (pending_result (pending (rt_queue b))) as [r'|] eqn:P; [|discriminate]. cbn. intros [= ->].
  destruct (Re _ eq_refl) as (d & Hd & E & Er). exists d. split; [exact Hd|]. split; [|exact Er].
  apply D, T in Hd as [Hd _]. cbn in Hd. rewrite I in Hd. injection Hd as Hd. destruct t, (d_ticket d). cbn in *. congruence.
Qed.

(** C11 Audio requests are decided once.  However drains are started and dropped
    while the audio thread submits and reads results and the controller makes
    other commits: an admitted request waits unchanged in the queue or has been
    decided; no request is decided twice, and each as it was submitted; a
    refusal leaves the controller as it was; a result that can be read is the
    decision on that ticket; and of two requests from one capture, the later is
    refused as stale once the earlier, with an edit, was accepted. *)
Theorem audio_requests_decided_once tempo now now' rid sup b :
  rtc link_step (BasicLink_new (Controller_new tempo now now' rid sup)) b ->
  (forall q, q ∈ admitted (past b) ->
     pending_update_from_origin (rt_queue b) = Some (r_ticket q, r_incoming q, r_origin q) \/
     exists d, d ∈ decided (past b) /\ d_ticket d = r_ticket q) /\
  NoDup (d_ticket <$> decided (past b)) /\
  (forall d, d ∈ decided (past b) ->
     MkRequest (d_ticket d) (d_incoming d) (d_origin d) ∈ admitted (past b) /\
     forall e, d_result d = Err e -> d_after d = d_before d) /\
  (forall t free r, (take_audio_commit_result b t free).1 = Ok (Some r) ->
     exists d, d ∈ decided (past b) /\ d_ticket d = t /\ d_result d = r) /\
  (forall i j d d' o, (i < j)%nat -> decided (past b) !! i = Some d -> decided (past b) !! j = Some d' ->
     d_origin d = Some o -> d_origin d' = Some o -> d_result d = Ok tt ->
     in_timeline (d_incoming d) <> None \/ in_start_stop (d_incoming d) <> None ->
     d_result d' = Err StaleClientState).
Proof.
  intros St. pose proof (Controller_new_revisions tempo now now' rid sup) as B%BasicLink_new_revisions.
  set (c := Controller_new tempo now now' rid sup) in *. clearbody c.
  destruct (link_steps_inv _ _ _ St (BasicLink_new_inv c)) as [Rq Rn]. clear St.
  pose proof Rq as [Q T S F D N C Re K].
  split; [intros q Hq; rewrite pending_holds; auto|]. split; [exact N|]. split; [|split].
  - intros d Hd. split; [auto|]. intros e E. apply list_elem_of_lookup in Hd as [i Hi].
    destruct (run_lookup _ _ _ _ _ Rn Hi) as (_ & [now0 X] & _). rewrite E in X. now apply refused_request in X.
  - intros t free r. now apply read_result_decided.
  - intros i j d d' o L Hi Hj Oi Oj Ok Ed. pose proof (run_order _ _ _ _ _ _ _ Rn L Hi Hj) as St.
    destruct (run_lookup _ _ _ _ _ Rn Hi) as (R1 & [n1 X1] & _). destruct (run_lookup _ _ _ _ _ Rn Hj) as (_ & [n2 X2] & _).
    rewrite Oi, Ok in X1. rewrite Oj in X2. unfold commit_incoming_client_state in X1, X2.
    destruct (client_edit_from_origin (d_before d) (d_incoming d) n1 (Some o)) as [[|ch|e] c1] eqn:E1; try discriminate.
    injection X1 as ->.
    pose proof (captured_origin_superseded _ _ _ _ _ _ _ (revisions_below_steps _ _ R1 B) Ed E1 St) as M.
    unfold client_edit_from_origin in X2. rewrite M in X2. now injection X2.
Qed.

(** ** The accepted view *)

(** [v] is the client state the controller has had at its place. *)
Definition sampled (b : BasicLink) (v : Sample) : Prop := clients (past b) !! v.1 = Some v.2.

Record view_ok (b : BasicLink) : Prop := {
  vw_current : last (clients (past b)) = Some (c_client (controller b));
  vw_slot : sampled b (accepted_slot b);
  vw_pending : forall v, accepted_pending b = Some v -> sampled b v /\ ((accepted_slot b).1 <= v.1)%nat;
  vw_publishing : forall v, non_rt_commit b = Publishing v -> sampled b v /\ ((accepted_slot b).1 <= v.1)%nat /\
    forall w, accepted_pending b = Some w -> (w.1 <= v.1)%nat;
  vw_sorted : StronglySorted le (captures (past b)).*1;
  vw_captures : Forall (fun v => sampled b v /\ (v.1 <= (accepted_slot b).1)%nat) (captures (past b))
}.

(** Steps that leave the view alone, and may add to the history of the
    controller. *)
Lemma view_ok_frame b b' :
  view_ok b -> clients (past b) `prefix_of` clients (past b') -> last (clients (past b')) = Some (c_client (controller b')) ->
  accepted_slot b' = accepted_slot b -> accepted_pending b' = accepted_pending b -> captures (past b') = captures (past b) ->
  (forall v, non_rt_commit b' = Publishing v -> non_rt_commit b = Publishing v) -> view_ok b'.
Proof.
  intros [Cu Sl Pe Pu So Ca] [l L] La Es Ep Ec K.
  assert (forall v, sampled b v -> sampled b' v) as M by (intros v; unfold sampled; rewrite L; now apply lookup_app_l_Some).
  constructor; rewrite ?Es, ?Ep, ?Ec; auto.
  - intros v Hv. apply Pe in Hv as []. auto.
  - intros v Hv%K%Pu. intuition.
  - eapply Forall_impl; [exact Ca|]. intros v []. auto.
Qed.

Lemma flush_view_ok b n : view_ok b -> view_ok (flush b n).
Proof.
  intros Ok. unfold flush. destruct (accepted_pending b) as [v|] eqn:P; [|exact Ok]. destruct n; [|exact Ok].
  destruct Ok as [Cu Sl Pe Pu So Ca]. destruct (Pe v P) as [Sv Lv]. constructor; cbn; auto.
  - discriminate.
  - intros w Hw. apply Pu in Hw as (A & B & D). split; [exact A|]. split; [auto|discriminate].
  - now rewrite app_nil_r.
  - rewrite app_nil_r. eapply Forall_impl; [exact Ca|]. intros w []. split; [auto|cbn; lia].
Qed.

Lemma StronglySorted_snoc (l : list nat) x : StronglySorted le l -> Forall (fun y => y <= x)%nat l -> StronglySorted le (l ++ [x]).
Proof.
  induction 1 as [|y l S IH F]; intros G; [repeat constructor|]. inversion G; subst. cbn. constructor; [auto|].
  apply Forall_app. auto.
Qed.

Lemma capture_view_ok b : view_ok b -> view_ok (with_view b (accepted_slot b) (accepted_pending b) [accepted_slot b]).
Proof.
  intros [Cu Sl Pe Pu So Ca]. constructor; cbn; auto.
  - rewrite fmap_app. apply StronglySorted_snoc; [exact So|]. apply Forall_fmap. eapply Forall_impl; [exact Ca|]. now intros v [].
  - apply Forall_app. split; [exact Ca|]. repeat constructor; auto.
Qed.

Lemma last_place (b : BasicLink) : view_ok b -> sampled b (pred (length (clients (past b))), c_client (controller b)).
Proof. intros Ok. unfold sampled. cbn. rewrite <- last_lookup. apply Ok. Qed.

Lemma sampled_le b v : sampled b v -> (v.1 <= pred (length (clients (past b))))%nat.
Proof. intros Hv%lookup_lt_Some. lia. Qed.

Lemma sample_view_ok b : view_ok b -> view_ok (sample b).
Proof.
  intros Ok. unfold sample. destruct (non_rt_commit b) eqn:E; try exact Ok. pose proof (last_place b Ok) as L.
  destruct Ok as [Cu Sl Pe Pu So Ca]. constructor; cbn; auto. intros v [= <-]. split; [exact L|]. cbn.
  split; [now apply sampled_le|]. intros w Hw. apply Pe in Hw as [Hw _]. now apply sampled_le.
Qed.

Lemma publish_view_ok b n : view_ok b -> view_ok (publish b n).
Proof.
  intros Ok. unfold publish. destruct (non_rt_commit b) as [| | | |v|] eqn:E; try exact Ok.
  assert (view_ok (with_consumer (with_view b (accepted_slot b) (Some v) []) (Notifying v) [])) as W.
  { destruct Ok as [Cu Sl Pe Pu So Ca]. destruct (Pu v E) as (A & B & D).
    constructor; cbn; rewrite ?app_nil_r; auto; [|discriminate]. intros w [= <-]. auto. }
  apply (flush_view_ok _ n) in W. unfold publish_client_state. revert W. unfold flush. cbn. now destruct n.
Qed.

(** Unfolds an operation of the link and looks at where it stands. *)
Local Ltac link_cases :=
  repeat match goal with
  | |- context [match ?x with _ => _ end] =>
      lazymatch x with context [match _ with _ => _ end] => fail | _ => destruct x eqn:? end
  end; cbn [fst snd]; try assumption.

Local Ltac view_frame Ok :=
  apply (view_ok_frame _ _ Ok); cbn; solve [reflexivity | apply Ok | discriminate | congruence | auto].

Lemma link_step_view_ok b b' : view_ok b -> link_step b b' -> view_ok b'.
Proof.
  intros Ok St. destruct St as [b c Hc|b locked n pin|b n|b st now free|b t free|b|b st now|b now|b|b|b n|b|b|b|b f|b|b f|b e].
  - apply (view_ok_frame _ _ Ok); cbn; auto; [now eexists|apply last_snoc].
  - unfold get_rt_client_state. pose proof (flush_view_ok b n Ok). destruct locked, pin; cbn; auto using capture_view_ok.
  - apply capture_view_ok, flush_view_ok, Ok.
  - unfold commit_audio_session_state. link_cases; view_frame Ok.
  - unfold take_audio_commit_result. link_cases; view_frame Ok.
  - unfold start_drain. link_cases; view_frame Ok.
  - unfold start_app_commit. link_cases; view_frame Ok.
  - unfold attempt. destruct (non_rt_commit b) as [|t inc o| | | |] eqn:K; try exact Ok.
    destruct (commit_incoming_client_state _ _ _ _) as [[r|] c']; [destruct t as [t|]; [|destruct r]|];
      (apply (view_ok_frame _ _ Ok); cbn; solve [now eexists | apply last_snoc | congruence]).
  - unfold complete. link_cases; view_frame Ok.
  - apply sample_view_ok, Ok.
  - apply publish_view_ok, Ok.
  - unfold queue_playback_notification. link_cases; view_frame Ok.
  - unfold cancel. link_cases; view_frame Ok.
  - unfold take_notification. link_cases; view_frame Ok.
  - unfold try_callback. link_cases; view_frame Ok.
  - unfold callback_returns. link_cases; view_frame Ok.
  - unfold set_start_stop_callback. destruct f; view_frame Ok.
  - view_frame Ok.
Qed.

Lemma sorted_lookup (l : list nat) i j x y :
  StronglySorted le l -> (i <= j)%nat -> l !! i = Some x -> l !! j = Some y -> (x <= y)%nat.
Proof.
  intros S. revert i j. induction S as [|z l S IH F]; intros [|i] [|j] L Hi Hj; try discriminate; cbn in *; try lia.
  - simplify_eq. lia.
  - simplify_eq. rewrite Forall_forall in F. apply F. eapply list_elem_of_lookup_2; eauto.
  - apply (IH i j); auto. lia.
Qed.

Lemma BasicLink_new_view_ok c : view_ok (BasicLink_new c).
Proof.
  unfold BasicLink_new. destruct (RtQueue_new _) as [q sup]. constructor; cbn; try easy; constructor.
Qed.

Lemma link_steps_view_ok c b : rtc link_step (BasicLink_new c) b -> view_ok b.
Proof.
  apply (rtc_ind_r (fun b => view_ok b)); [apply BasicLink_new_view_ok|]. intros b1 b2 _ St Ok. eapply link_step_view_ok; eauto.
Qed.

(** C20 The audio thread never goes back: every value it captures is a client
    state the controller has had, a later capture never returns an earlier one,
    and no capture returns one from before the published one. *)
Theorem audio_view_never_goes_back c b i j v w :
  rtc link_step (BasicLink_new c) b -> (i <= j)%nat ->
  captures (past b) !! i = Some v -> captures (past b) !! j = Some w ->
  clients (past b) !! v.1 = Some v.2 /\ (v.1 <= w.1 <= (accepted_slot b).1)%nat /\
  clients (past b) !! (accepted_slot b).1 = Some (accepted_slot b).2.
Proof.
  intros [Cu Sl Pe Pu So Ca]%link_steps_view_ok L Hi Hj. rewrite Forall_forall in Ca.
  destruct (Ca v) as [Sv _]; [eapply list_elem_of_lookup_2; eauto|].
  destruct (Ca w) as [_ Lw]; [eapply list_elem_of_lookup_2; eauto|]. split; [exact Sv|]. split; [|exact Sl]. split; [|exact Lw].
  apply (sorted_lookup (captures (past b)).*1 i j); [exact So|exact L| |]; apply list_lookup_fmap_Some; eauto.
Qed.

(** ** The playback callback *)

Fixpoint alternating (l : list bool) : Prop :=
  match l with
  | x :: (y :: _) as l' => x <> y /\ alternating l'
  | _ => True
  end.

Lemma alternating_snoc l x :
  alternating l -> (forall y, last l = Some y -> y <> x) -> alternating (l ++ [x]).
Proof.
  induction l as [|y [|z l] IH]; intros A L; cbn in *; [exact I|auto|]. destruct A as [A1 A2]. split; [exact A1|].
  apply IH; auto.
Qed.

Record playback_ok (b : BasicLink) : Prop := {
  pb_alternating : alternating (playback_calls (past b));
  pb_last : playback_calls (past b) = [] \/
    last (playback_calls (past b)) = Some (match notification_dispatch b with
                                           | Calling p => p | _ => last_is_playing_for_callback b end);
  pb_taken : forall p, notification_dispatch b = Taken p -> last_is_playing_for_callback b <> p;
  pb_calling : forall p, notification_dispatch b = Calling p -> playback_calls (past b) <> [];
  pb_installed : has_start_stop_callback b = false ->
    playback_calls (past b) = [] /\ notification_dispatch b = NoDispatch
}.

(** Steps of everything else. *)
Lemma playback_ok_frame b b' :
  playback_ok b -> playback_calls (past b') = playback_calls (past b) -> notification_dispatch b' = notification_dispatch b ->
  last_is_playing_for_callback b' = last_is_playing_for_callback b ->
  has_start_stop_callback b' = has_start_stop_callback b -> playback_ok b'.
Proof. intros [A L T K N] E1 E2 E3 E4. constructor; rewrite ?E1, ?E2, ?E3, ?E4; auto. Qed.

Local Ltac playback_frame Ok := apply (playback_ok_frame _ _ Ok); reflexivity.

Lemma link_step_playback_ok b b' : playback_ok b -> link_step b b' -> playback_ok b'.
Proof.
  intros Ok St. destruct St as [b c Hc|b locked n pin|b n|b st now free|b t free|b|b st now|b now|b|b|b n|b|b|b|b f|b|b f Hd Hk|b e].
  - playback_frame Ok.
  - unfold get_rt_client_state, flush. link_cases; playback_frame Ok.
  - unfold get_app_client_state, flush. link_cases; playback_frame Ok.
  - unfold commit_audio_session_state. link_cases; playback_frame Ok.
  - unfold take_audio_commit_result. link_cases; playback_frame Ok.
  - unfold start_drain. link_cases; playback_frame Ok.
  - unfold start_app_commit. link_cases; playback_frame Ok.
  - unfold attempt. destruct (non_rt_commit b) as [|t inc o| | | |]; try exact Ok.
    destruct (commit_incoming_client_state _ _ _ _) as [[r|] c']; [destruct t|]; playback_frame Ok.
  - unfold complete. link_cases; playback_frame Ok.
  - unfold sample. link_cases; playback_frame Ok.
  - unfold publish, publish_client_state, flush. destruct (non_rt_commit b), n; try exact Ok; playback_frame Ok.
  - unfold queue_playback_notification. link_cases; playback_frame Ok.
  - unfold cancel. link_cases; playback_frame Ok.
  - pose proof Ok as [A L T K N]. unfold take_notification. destruct (notification_dispatch b) eqn:D; rewrite ?D in *; try exact Ok.
    destruct (pending_playback_notification b) as [p|]; [|exact Ok].
    destruct (Bool.eqb _ _) eqn:E; [constructor; cbn; auto; discriminate|].
    destruct (has_start_stop_callback b) eqn:Hs; constructor; cbn; auto; try discriminate; try congruence.
    + intros q [= <-] X. rewrite X, eqb_reflx in E. discriminate.
    + left. now apply N.
  - pose proof Ok as [A L T K N]. unfold try_callback. destruct (notification_dispatch b) as [|p|p] eqn:D; rewrite ?D in *; try exact Ok.
    destruct f; constructor; cbn; auto; try discriminate.
    + apply alternating_snoc; [exact A|]. intros y Hy. destruct L as [L|L]; [now rewrite L in Hy|]. rewrite Hy in L.
      injection L as ->. now apply T.
    + right. apply last_snoc.
    + intros q _ X. now apply app_eq_nil in X.
    + intros X. now destruct (N X).
    + intros X. split; [now apply N|reflexivity].
  - pose proof Ok as [A L T K N]. unfold callback_returns. destruct (notification_dispatch b) as [|p|p] eqn:D; rewrite ?D in *; try exact Ok.
    constructor; cbn; auto; try discriminate. intros X. split; [now apply N|reflexivity].
  - pose proof Ok as [A L T K N]. unfold set_start_stop_callback. destruct f; constructor; cbn; rewrite ?Hd; auto; discriminate.
  - playback_frame Ok.
Qed.

Lemma BasicLink_new_playback_ok c : playback_ok (BasicLink_new c).
Proof. unfold BasicLink_new. destruct (RtQueue_new _) as [q sup]. constructor; cbn; auto; discriminate. Qed.

(** The end of a drain, undisturbed: the view and the callback have the
    controller's client state. *)
Record settled (b b' : BasicLink) : Prop := {
  st_consumer : non_rt_commit b' = NoConsumer;
  st_controller : controller b' = controller b;
  st_queue : rt_queue b' = rt_queue b;
  st_view : (accepted_slot b').2 = c_client (controller b) /\ accepted_pending b' = None;
  st_waiting : pending_playback_notification b' = None /\ notification_dispatch b' = NoDispatch;
  st_playing : last_is_playing_for_callback b' = css_is_playing (client_start_stop (c_client (controller b)));
  st_calls : playback_calls (past b') =
    playback_calls (past b) ++
    (if has_start_stop_callback b && negb (Bool.eqb (last_is_playing_for_callback b)
          (css_is_playing (client_start_stop (c_client (controller b)))))
     then [css_is_playing (client_start_stop (c_client (controller b)))] else [])
}.

Lemma finish_settled b :
  non_rt_commit b = Refreshing -> notification_dispatch b = NoDispatch -> settled b (finish b).
Proof.
  destruct b as [c q slot waiting en k has lastp pend d [cls adm dec cap calls]]. cbn. intros -> ->.
  unfold finish, sample, publish, publish_client_state, flush, queue_playback_notification, take_notification,
    try_callback, callback_returns. cbn.
  destruct (Bool.eqb lastp _) eqn:E; cbn; [|destruct has]; cbn; constructor; cbn; rewrite ?E, ?andb_false_r, ?app_nil_r; auto;
    now apply eqb_prop in E.
Qed.

(** A drain alone ends where it started to refresh, or holds the proposal. *)
Lemma process_cases b now :
  non_rt_commit b = NoConsumer -> notification_dispatch b = NoDispatch ->
  (exists t inc o, non_rt_commit (process_audio_session_state_updates b now) = Committing (Some t) inc o) \/
  exists b1, non_rt_commit b1 = Refreshing /\ notification_dispatch b1 = NoDispatch /\
    process_audio_session_state_updates b now = finish b1 /\
    playback_calls (past b1) = playback_calls (past b) /\ has_start_stop_callback b1 = has_start_stop_callback b /\
    last_is_playing_for_callback b1 = last_is_playing_for_callback b.
Proof.
  intros K D. unfold process_audio_session_state_updates. set (b1 := complete (attempt (start_drain b) now)).
  assert (((exists t inc o, non_rt_commit b1 = Committing (Some t) inc o) \/ non_rt_commit b1 = Refreshing) /\
    notification_dispatch b1 = NoDispatch /\ playback_calls (past b1) = playback_calls (past b) /\
    has_start_stop_callback b1 = has_start_stop_callback b /\
    last_is_playing_for_callback b1 = last_is_playing_for_callback b) as (E & F).
  { unfold b1, start_drain. rewrite K. destruct (pending_update_from_origin (rt_queue b)) as [[[t inc] o]|]; [|cbn; auto].
    unfold attempt. cbn. destruct (commit_incoming_client_state _ _ _ _) as [[r|] c']; cbn; eauto 10. }
  destruct E as [(t & inc & o & E)|E]; [left|right].
  - unfold finish. rewrite E. eauto.
  - exists b1. tauto.
Qed.

(** C29 Playback notifications alternate and catch up: the calls of the callback
    that is installed never repeat a value, however drains, commits and
    dispatches interleave and are dropped; and a drain that is alone and whose
    proposal is not held back leaves the view with the controller's client
    state, nothing waiting, and the callback told whether that state plays, in
    one call when it had last been told otherwise. *)
Theorem playback_callback_catches_up c b now :
  rtc link_step (BasicLink_new c) b ->
  alternating (playback_calls (past b)) /\
  (non_rt_commit b = NoConsumer -> notification_dispatch b = NoDispatch ->
   let b' := process_audio_session_state_updates b now in
   let playing := css_is_playing (client_start_stop (c_client (controller b'))) in
   (exists t inc o, non_rt_commit b' = Committing (Some t) inc o) \/
   non_rt_commit b' = NoConsumer /\ (accepted_slot b').2 = c_client (controller b') /\
   pending_playback_notification b' = None /\ last_is_playing_for_callback b' = playing /\
   playback_calls (past b') = playback_calls (past b) ++
     (if has_start_stop_callback b && negb (Bool.eqb (last_is_playing_for_callback b) playing) then [playing] else [])).
Proof.
  intros St. assert (playback_ok b) as Ok.
  { revert St. apply (rtc_ind_r (fun b => playback_ok b)); [apply BasicLink_new_playback_ok|].
    intros b1 b2 _ St Ok. eapply link_step_playback_ok; eauto. }
  split; [apply Ok|]. intros K D. cbv zeta. destruct (process_cases b now K D) as [X|(b1 & K1 & D1 & -> & Ec & Eh & El)]; [now left|right].
  destruct (finish_settled b1 K1 D1) as [S1 S2 S3 [S4 _] [S5 _] S6 S7].
  rewrite S2, S7, Ec, Eh, El. auto.
Qed.

(** ** From the audio thread to the session and back *)

Lemma coherent_supply c sup :
  coherent c -> coherent (with_registry c (c_current c) (c_others c) (c_peers c) sup).
Proof. intros [[] Cl]. split; [now constructor|exact Cl]. Qed.

Lemma link_controller_coherent tempo now now' rid sup b :
  rtc link_step (BasicLink_new (Controller_new tempo now now' rid sup)) b -> coherent (controller b).
Proof.
  intros St. destruct (link_steps_inv _ _ _ St (BasicLink_new_inv _)) as [_ R%decisions_run_steps]. revert R.
  apply (rtc_ind_r (fun s => coherent s)).
  - unfold BasicLink_new. destruct (RtQueue_new _) as [q sup']. exact (coherent_supply _ sup' (Controller_new_coherent _ _ _ _ _)).
  - intros s1 s2 _ S Co. eapply commit_step_coherent; eauto.
Qed.

(** What one attempt makes of an edit from a capture. *)
Lemma captured_attempt c cl o inc now :
  coherent c -> capture_client_state c true = Some (cl, o) ->
  exists r c', commit_incoming_client_state c inc (Some o) now = (Some r, c') /\
  (forall e, r = Err e -> c' = c) /\
  (r = Err StaleClientState -> exists state, in_start_stop inc = Some state /\
     duration_nanos (css_timestamp state) <= duration_nanos (css_timestamp (client_start_stop cl))) /\
  (forall tl, r = Ok tt -> in_timeline inc = Some tl -> exists target,
     update_session_timeline_from_client (timeline (c_current c)) (clamp_tempo tl) (timeline_timestamp inc)
       (ghost_x_form (c_session c)) = Ok target /\
     session_timeline (c_session c') = target /\ node_timeline (peer_node_state (c_peer c')) = target).
Proof.
  intros Co Ca. destruct (captured_edit_is_decided c cl o inc now Co Ca) as [W S].
  assert (forall r c', commit_incoming_client_state c inc (Some o) now = (Some r, c') -> forall e, r = Err e -> c' = c) as R
    by (intros r c' E e ->; now apply refused_request in E).
  revert R. unfold commit_incoming_client_state. destruct (client_edit_from_origin c inc now (Some o)) as [k c'] eqn:E.
  cbn in W, S. destruct k as [|ch|e]; [now destruct W| |]; intros R; (eexists _, c'; split; [reflexivity|]);
    (split; [now apply R|]).
  - split; [discriminate|]. intros tl _ T.
    destruct (accepted_edit_reaches_session c inc now (Some o) ch c' tl Co T E) as (target & U & A & _ & N & _). eauto.
  - split; [|discriminate]. intros [= ->]. auto.
Qed.

(** A drain of a queued request that is decided at once. *)
Lemma drain_decides b t inc o r c' now :
  non_rt_commit b = NoConsumer -> pending_update_from_origin (rt_queue b) = Some (t, inc, o) ->
  commit_incoming_client_state (controller b) inc o now = (Some r, c') ->
  exists b1, process_audio_session_state_updates b now = finish b1 /\ non_rt_commit b1 = Refreshing /\
    notification_dispatch b1 = notification_dispatch b /\ controller b1 = c' /\
    rt_queue b1 = (complete_pending_update (rt_queue b) t r).2.
Proof.
  intros K P E. eexists. split; [reflexivity|]. unfold start_drain. rewrite K, P.
  unfold attempt. cbn [non_rt_commit with_consumer controller]. rewrite E. repeat split.
Qed.

(** C7 An edit made on the audio thread is decided by the next drain: it is
    admitted to an empty queue, the drain decides it without holding it back,
    the ticket's result is the verdict and frees the queue.  It is stale only
    when its playback state is not newer than the captured one; refused, it
    changes nothing; accepted, its timeline is the session's and the announced
    one; and the audio thread's view is the controller's new state. *)
Theorem audio_edit_round_trip tempo t0 t0' rid sup b cl o st id now now' :
  rtc link_step (BasicLink_new (Controller_new tempo t0 t0' rid sup)) b ->
  non_rt_commit b = NoConsumer -> notification_dispatch b = NoDispatch ->
  capture_client_state (controller b) true = Some (cl, o) -> api_origin st = Some o ->
  queue_id (rt_queue b) = Some id -> sequence (pending (rt_queue b)) < u64_MAX ->
  outstanding_audio_commit_ticket b true = Ok None ->
  let inc := to_incoming_client_state (api_state st) (original_state st) now in
  exists t b1, commit_audio_session_state b st now true = (Ok t, b1) /\
  let b2 := process_audio_session_state_updates b1 now' in
  exists r, (take_audio_commit_result b2 t true).1 = Ok (Some r) /\
  outstanding_audio_commit_ticket (take_audio_commit_result b2 t true).2 true = Ok None /\
  non_rt_commit b2 = NoConsumer /\ (accepted_slot b2).2 = c_client (controller b2) /\
  (forall e, r = Err e -> controller b2 = controller b) /\
  (r = Err StaleClientState -> exists state, in_start_stop inc = Some state /\
     duration_nanos (css_timestamp state) <= duration_nanos (css_timestamp (client_start_stop cl))) /\
  (forall tl, r = Ok tt -> in_timeline inc = Some tl -> exists target,
     update_session_timeline_from_client (timeline (c_current (controller b))) (clamp_tempo tl) now
       (ghost_x_form (c_session (controller b))) = Ok target /\
     session_timeline (c_session (controller b2)) = target /\
     node_timeline (peer_node_state (c_peer (controller b2))) = target).
Proof.
  intros St K D Ca Og Qi Sq Out inc. pose proof (link_controller_coherent _ _ _ _ _ _ St) as Co.
  destruct (captured_attempt _ _ _ inc now' Co Ca) as (r & c' & E & R1 & R2 & R3).
  unfold outstanding_audio_commit_ticket, outstanding_commit_ticket in Out. rewrite Qi in Out. cbn in Out.
  destruct (incoming (pending (rt_queue b))) eqn:In; [discriminate|].
  destruct (pending_result (pending (rt_queue b))) eqn:Pr; [discriminate|]. clear Out.
  set (n := sequence (pending (rt_queue b)) + 1).
  exists (MkTicket id n), (with_queue b (MkQueue (Some id) (MkPending n (Some inc) None (Some o)) true)
            [MkRequest (MkTicket id n) inc (Some o)]).
  split.
  { unfold commit_audio_session_state, update_rt_client_state_from_origin. rewrite Qi, In, Pr, Og. cbn.
    destruct (Z.ltb_spec u64_MAX (sequence (pending (rt_queue b)) + 1)); [lia|reflexivity]. }
  cbv zeta. set (b0 := with_queue _ _ _).
  destruct (drain_decides b0 (MkTicket id n) inc (Some o) r c' now' K eq_refl E) as (b1 & -> & K1 & D1 & C1 & Q1).
  assert (rt_queue b1 = MkQueue (Some id) (MkPending n None (Some r) None) false) as Q1'.
  { rewrite Q1. unfold complete_pending_update. rewrite bool_decide_true by reflexivity. cbn. now rewrite Z.eqb_refl. }
  assert (notification_dispatch b1 = NoDispatch) as D2 by (rewrite D1; exact D).
  destruct (finish_settled b1 K1 D2) as [S1 S2 S3 [S4 _] _ _ _].
  assert ((take_audio_commit_result (finish b1) (MkTicket id n) true).1 = Ok (Some r) /\
    outstanding_audio_commit_ticket (take_audio_commit_result (finish b1) (MkTicket id n) true).2 true = Ok None) as [T1 T2].
  { unfold take_audio_commit_result, take_commit_result, outstanding_audio_commit_ticket, outstanding_commit_ticket.
    rewrite S3, Q1'. cbn [queue_id ticket_queue ticket_sequence pending sequence incoming pending_result is_some].
    rewrite bool_decide_true by reflexivity. rewrite Z.eqb_refl. split; reflexivity. }
  exists r. rewrite S1, S2, S4, C1. split; [exact T1|]. split; [exact T2|]. split; [reflexivity|]. split; [reflexivity|].
  split; [exact R1|]. split; [exact R2|exact R3].
Qed.

End BasicLinkProperties.
