(* ===== verification/Lifecycle.v ===== *)
(** Enabling and disabling Link: [Controller::enable] and [disable] of
    src/src/link/controller.rs, the loop that applies the changes peers announce,
    and the gates under which everything in the background commits.

    [enable] and [disable] are sequences of operations with a wait between any
    two of them, and the future that runs them may be dropped at any wait.  They
    take the controller by exclusive reference, so one of them runs at a time.
    The gates are seen as Dispatch.v proves them to behave: nothing is admitted
    unless a gate is open, and [stop] returns when what was admitted has ended. *)

From stdpp Require Import base list numbers strings relations.
From Stdlib Require Import ZArith Lia SpecFloat.
From S2P Require Import Prelude Chrono F64 Encoding Beats Tempo Timeline GhostXForm Entries Sessions Peers SessionApi Controller.

(** The gates of the measurement service, of the controller's loops and of
    discovery; [permits] is the admitted work that has not ended. *)
Inductive GateId := Measurements | Loops | Discovery.

#[global] Instance GateId_eq_dec : EqDecision GateId.
Proof. solve_decision. Defined.

Inductive GateState := Closed | Preparing | Open.
Record GateView := MkGate { state : GateState; permits : nat }.

(** The operations of [enable] and [disable], in the order of the code. *)
Inductive LifecycleOp :=
| Close (g : GateId)
| Drained (g : GateId)
| ZeroCount
| ForgetPeers
| ResetState
| Prepare (g : GateId)
| OpenGate (g : GateId)
| Listen
| OpenEnabled
| ClearEnabled
| SayByebye
| NotifyWaiters
| Settle.

#[global] Instance LifecycleOp_eq_dec : EqDecision LifecycleOp.
Proof. solve_decision. Defined.

Definition quiesce : list LifecycleOp :=
  [Close Measurements; Drained Measurements; Close Discovery; Drained Discovery; Close Loops; Drained Loops].

Definition enable_plan : list LifecycleOp :=
  quiesce ++ [ZeroCount; ResetState; Prepare Measurements; OpenGate Measurements; Prepare Loops; OpenGate Loops;
              Listen; Prepare Discovery; OpenEnabled].

Definition disable_plan : list LifecycleOp :=
  ClearEnabled :: quiesce ++ [SayByebye; NotifyWaiters; ZeroCount; ForgetPeers; ResetState; Settle].

Section Lifecycle.
Context `{Ch : Chrono, FD : FloatDecode}.

(** What is left of a batch of changes: a change, or the second section a
    change leads to. *)
Inductive BatchOp :=
| Apply (c : PeerStateChange)
| ResetIfPeerless (id : SessionId)
| RefreshTiming.

(** [batch] is the batch the loop of the changes holds a permit for, [plan]
    what the [enable] or [disable] under way has left, [endpoints] the calls of
    the audio endpoint callback, [byebyes] the goodbyes sent. *)
Record Controller := MkController {
  commit : SessionCommit;
  enabled : bool;
  gates : GateId -> GateView;
  batch : option (list BatchOp);
  plan : list LifecycleOp;
  listening : bool;
  endpoints : list (NodeId * option SocketAddrV4);
  byebyes : list NodeId
}.

Definition with_commit (s : SessionCommit) (c : Controller) : Controller :=
  MkController s (enabled c) (gates c) (batch c) (plan c) (listening c) (endpoints c) (byebyes c).
Definition with_gate (g : GateId) (v : GateView) (c : Controller) : Controller :=
  MkController (commit c) (enabled c) (fun h => if decide (h = g) then v else gates c h) (batch c) (plan c) (listening c)
    (endpoints c) (byebyes c).
Definition with_batch (b : option (list BatchOp)) (c : Controller) : Controller :=
  MkController (commit c) (enabled c) (gates c) b (plan c) (listening c) (endpoints c) (byebyes c).
Definition with_plan (p : list LifecycleOp) (c : Controller) : Controller :=
  MkController (commit c) (enabled c) (gates c) (batch c) p (listening c) (endpoints c) (byebyes c).
Definition with_enabled (b : bool) (c : Controller) : Controller :=
  MkController (commit c) b (gates c) (batch c) (plan c) (listening c) (endpoints c) (byebyes c).

Definition set_state (g : GateId) (s : GateState) (c : Controller) : Controller :=
  with_gate g (MkGate s (permits (gates c g))) c.
Definition set_permits (g : GateId) (n : nat) (c : Controller) : Controller :=
  with_gate g (MkGate (state (gates c g)) n) c.

Definition new_controller (s : SessionCommit) : Controller :=
  MkController s false (fun _ => MkGate Closed 0) None [] false [] [].

(** What an operation reads: the clock twice, an identity drawn, and whether
    the lock of the peer state was free. *)
Record OpInputs := MkInputs { now1 : Duration; now2 : Duration; drawn : NodeId; lock_free : bool }.

(** One operation; [None] while it has to wait. *)
Definition op_step (o : LifecycleOp) (i : OpInputs) (c : Controller) : option Controller :=
  match o with
  | Close g => Some (set_state g Closed c)
  | Drained g => if (permits (gates c g) =? 0)%nat then Some c else None
  | ZeroCount => Some (with_commit (with_counter (commit c) 0) c)
  | ForgetPeers =>
      let g := observe_peers (registry_of (commit c) false [] []) [] in
      Some (with_commit (with_registry (commit c) (current g) (other_sessions g) (peers g) (supply g)) c)
  | ResetState => Some (with_commit (reset (commit c) (now1 i) (now2 i) (drawn i)).2 c)
  | Prepare g => Some (set_state g Preparing c)
  | OpenGate g => Some (set_state g Open c)
  | Listen => Some (MkController (commit c) (enabled c) (gates c) (batch c) (plan c) true (endpoints c) (byebyes c))
  | OpenEnabled => Some (set_state Discovery Open (with_enabled true c))
  | ClearEnabled => Some (with_enabled false c)
  | SayByebye =>
      Some (if lock_free i
            then MkController (commit c) (enabled c) (gates c) (batch c) (plan c) (listening c) (endpoints c)
                   (byebyes c ++ [node_id (peer_node_state (c_peer (commit c)))])
            else c)
  | NotifyWaiters | Settle => Some c
  end.

Definition enable (c : Controller) : Controller := if enabled c then c else with_plan enable_plan c.
Definition disable (c : Controller) : Controller := with_plan disable_plan c.

(** [apply_changes], one section at a time: what is left of the batch, the
    state, and a call of the endpoint callback. *)
Definition batch_step (o : BatchOp) (rest : list BatchOp) (slot : bool) (t1 t2 : Duration) (id : NodeId) (s : SessionCommit)
  : list BatchOp * SessionCommit * option (NodeId * option SocketAddrV4) :=
  match o with
  | Apply ChSessionMembership | Apply ChPeerLeft =>
      let '((session, old, count), s) := refresh_peer_count s in
      (if negb (old =? count)%nat && (count =? 0)%nat then ResetIfPeerless session :: rest else rest, s, None)
  | Apply (ChSessionTimeline session tl) =>
      match try_sighting (registry_of s false [] []) session tl slot with
      | (Complete _, g) => (RefreshTiming :: rest, with_registry s (current g) (other_sessions g) (peers g) (supply g), None)
      | (NeedsCapacity, _) => (o :: rest, s, None)
      end
  | Apply (ChSessionStartStopState session tl ss) =>
      match received_start_stop s session tl ss t1 t2 with
      | (WaitingForPublication, s) => (o :: rest, s, None)
      | (_, s) => (rest, s, None)
      end
  | Apply (ChAudioEndpoint peer e) => (rest, s, Some (peer, e))
  | ResetIfPeerless session => (rest, (reset_if_peerless s (Some session) t1 t2 id).2, None)
  | RefreshTiming => (rest, (refresh_timing s t1).2, None)
  end.

Definition apply_batch (slot : bool) (t1 t2 : Duration) (id : NodeId) (c : Controller) : Controller :=
  match batch c with
  | Some (o :: rest) =>
      let '(remaining, s, call) := batch_step o rest slot t1 t2 id (commit c) in
      MkController s (enabled c) (gates c) (Some remaining) (plan c) (listening c)
        (endpoints c ++ match call with Some x => [x] | None => [] end) (byebyes c)
  | _ => c
  end.

(** The sections that run in the background under a permit of a gate. *)
Inductive gated_commit : GateId -> SessionCommit -> SessionCommit -> Prop :=
| gc_join s queued t1 t2 id : gated_commit Loops s (join s queued t1 t2 id).2
| gc_decide s j r q k m now :
    let g := (measurement_decide (registry_of s j r q) k m now).2 in
    gated_commit Loops s (with_registry s (current g) (other_sessions g) (peers g) (supply g))
| gc_commit s j r q k m now was :
    let g := (measurement_commit (registry_of s j r q) k m now was).2 in
    gated_commit Loops s (with_registry s (current g) (other_sessions g) (peers g) (supply g))
| gc_failed s j r q k :
    let g := (handle_failed_measurement_inner (registry_of s j r q) k).2 in
    gated_commit Loops s (with_registry s (current g) (other_sessions g) (peers g) (supply g))
| gc_admit s j r q k after :
    let g := (admit_owned_request (registry_of s j r q) k after).2 in
    gated_commit Loops s (with_registry s (current g) (other_sessions g) (peers g) (supply g))
| gc_observe s j r q ps :
    let g := observe_peers (registry_of s j r q) ps in
    gated_commit Discovery s (with_registry s (current g) (other_sessions g) (peers g) (supply g)).

(** What the application commits, enabled or not. *)
Inductive client_commit : SessionCommit -> SessionCommit -> Prop :=
| cc_edit s incoming now origin : client_commit s (client_edit_from_origin s incoming now origin).2
| cc_sync s enable : client_commit s (enable_start_stop_sync s enable)
| cc_endpoint s endpoint : client_commit s (set_audio_endpoint s endpoint)
| cc_refresh s now : client_commit s (refresh_timing s now).2.

Definition held (c : Controller) (g : GateId) : nat :=
  match g, batch c with Loops, Some _ => 1 | _, _ => 0 end.

Inductive controller_step : Controller -> Controller -> Prop :=
| st_enable c : plan c = [] -> controller_step c (enable c)
| st_disable c : plan c = [] -> controller_step c (disable c)
| st_cancel c : controller_step c (with_plan [] c)
| st_op c o rest i c' : plan c = o :: rest -> op_step o i c = Some c' -> controller_step c (with_plan rest c')
| st_admit c g : state (gates c g) = Open -> controller_step c (set_permits g (S (permits (gates c g))) c)
| st_ended c g : (held c g < permits (gates c g))%nat -> controller_step c (set_permits g (pred (permits (gates c g))) c)
| st_work c g s : (0 < permits (gates c g))%nat -> gated_commit g (commit c) s -> controller_step c (with_commit s c)
| st_batch c changes : state (gates c Loops) = Open -> batch c = None ->
    controller_step c (with_batch (Some (map Apply changes)) (set_permits Loops (S (permits (gates c Loops))) c))
| st_apply c slot t1 t2 id : controller_step c (apply_batch slot t1 t2 id c)
| st_applied c b : batch c = Some b -> b = [] \/ state (gates c Loops) <> Open ->
    controller_step c (set_permits Loops (pred (permits (gates c Loops))) (with_batch None c))
| st_client c s : client_commit (commit c) s -> controller_step c (with_commit s c).

End Lifecycle.

(** ** What the lifecycle guarantees *)

Section LifecycleProperties.
Context `{Laws : ChronoLaws, FL : FloatDecodeLaws}.

Lemma with_counter_coherent s n : coherent s -> coherent (with_counter s n).
Proof. intros [[] K]. split; [constructor; assumption|exact K]. Qed.

Lemma sessions_coherent s j r q g :
  sessions_step (registry_of s j r q) g -> coherent s -> coherent (with_registry s (current g) (other_sessions g) (peers g) (supply g)).
Proof. intros St. apply commit_step_coherent. exact (StepSessions s j r q g St). Qed.

Lemma op_coherent o i c c' : op_step o i c = Some c' -> coherent (commit c) -> coherent (commit c').
Proof.
  intros E Co. destruct o; simpl in E; try (injection E as <-; exact Co).
  - destruct (_ =? _)%nat; [|discriminate]. injection E as <-. exact Co.
  - injection E as <-. now apply with_counter_coherent.
  - injection E as <-. exact (sessions_coherent (commit c) false [] [] _ (step_observe _ []) Co).
  - injection E as <-. now apply reset_coherent.
  - injection E as <-. destruct (lock_free i); exact Co.
Qed.

Lemma batch_coherent o rest slot t1 t2 id s : coherent s -> coherent (batch_step o rest slot t1 t2 id s).1.2.
Proof.
  intros Co. destruct o as [[|sid tl|sid tl ss| |peer e]|sid|]; simpl.
  - now apply (commit_step_coherent s (refresh_peer_count s).2 (StepCount s)).
  - pose proof (sessions_coherent s false [] [] _ (step_sighting _ sid tl slot) Co) as X.
    destruct (try_sighting _ _ _ _) as [[|tl'] g]; [exact Co|exact X].
  - pose proof (received_start_stop_coherent s sid tl ss t1 t2 Co) as X. destruct (received_start_stop _ _ _ _ _ _) as [[|ch|e] s']; exact X.
  - now apply (commit_step_coherent s (refresh_peer_count s).2 (StepCount s)).
  - exact Co.
  - exact (commit_step_coherent s _ (StepReset s (Some sid) t1 t2 id) Co).
  - now apply refresh_coherent.
Qed.

Lemma gated_coherent g s s' : gated_commit g s s' -> coherent s -> coherent s'.
Proof.
  intros W Co. destruct W.
  - now apply join_coherent.
  - exact (sessions_coherent s j r q _ (step_decide _ k m now) Co).
  - exact (sessions_coherent s j r q _ (step_commit _ k m now was) Co).
  - exact (sessions_coherent s j r q _ (step_failed _ k) Co).
  - exact (sessions_coherent s j r q _ (step_admit _ k after) Co).
  - exact (sessions_coherent s j r q _ (step_observe _ ps) Co).
Qed.

Lemma client_coherent s s' : client_commit s s' -> coherent s -> coherent s'.
Proof.
  intros W Co. destruct W.
  - exact (commit_step_coherent s _ (StepEdit s incoming now origin) Co).
  - exact (commit_step_coherent s _ (StepSync s enable0) Co).
  - exact (commit_step_coherent s _ (StepEndpoint s endpoint) Co).
  - now apply refresh_coherent.
Qed.

Lemma controller_step_coherent c c' : controller_step c c' -> coherent (commit c) -> coherent (commit c').
Proof.
  intros St Co. destruct St; simpl; auto.
  - unfold enable. now destruct (enabled c).
  - exact (op_coherent o i c c' H2 Co).
  - exact (gated_coherent g _ _ H2 Co).
  - unfold apply_batch. destruct (batch c) as [[|o rest]|]; auto. pose proof (batch_coherent o rest slot t1 t2 id (commit c) Co) as X.
    destruct (batch_step _ _ _ _ _ _ _) as [[remaining s] call]. exact X.
  - exact (client_coherent _ _ H1 Co).
Qed.

(** *** Where the plan stands *)

Fixpoint suffixes {A} (l : list A) : list (list A) := l :: match l with [] => [] | _ :: l => suffixes l end.

Definition plans : list (list LifecycleOp) := suffixes enable_plan ++ suffixes disable_plan.
Definition ahead (o : LifecycleOp) (p : list LifecycleOp) : bool := bool_decide (o ∈ p).

(** Between stopping a gate and the reset it is closed; between waiting for it
    and the reset nothing is admitted; and before discovery opens, the two other
    gates have. *)
Definition is_closed (p : list LifecycleOp) (g : GateId) : bool := ahead ResetState p && negb (ahead (Close g) p).
Definition is_drained (p : list LifecycleOp) (g : GateId) : bool := ahead ResetState p && negb (ahead (Drained g) p).
Definition is_open (p : list LifecycleOp) (g : GateId) : bool :=
  ahead OpenEnabled p && negb (ahead ResetState p) && negb (bool_decide (g = Discovery)) && negb (ahead (OpenGate g) p).

Definition touches (o : LifecycleOp) (g : GateId) : option GateState :=
  match o with
  | Close h => if decide (g = h) then Some Closed else None
  | Prepare h => if decide (g = h) then Some Preparing else None
  | OpenGate h => if decide (g = h) then Some Open else None
  | OpenEnabled => if decide (g = Discovery) then Some Open else None
  | _ => None
  end.

(** The state an operation sets agrees with the plan that remains; what the
    plan says and the operation does not set, it said before. *)
Definition plan_fact (p : list LifecycleOp) (g : GateId) : bool :=
  match p with
  | [] => true
  | o :: rest =>
      bool_decide (rest ∈ plans) &&
      implb (is_closed rest g) (match touches o g with Some Closed => true | Some _ => false | None => is_closed p g end) &&
      implb (is_open rest g) (match touches o g with Some Open => true | Some _ => false | None => is_open p g end) &&
      implb (is_drained rest g) (bool_decide (o = Drained g) || is_drained p g) &&
      implb (bool_decide (o = OpenEnabled)) (bool_decide (rest = []) && (bool_decide (g = Discovery) || is_open p g)) &&
      implb (bool_decide (o = ClearEnabled)) (bool_decide (p = disable_plan)) &&
      implb (is_drained p g) (is_closed p g)
  end.

Lemma plan_facts p g : p ∈ plans -> plan_fact p g = true.
Proof.
  assert (forallb (fun p => forallb (plan_fact p) [Measurements; Loops; Discovery]) plans = true) as F by (vm_compute; reflexivity).
  intros M. rewrite forallb_forall in F. apply list_elem_of_In, F in M. rewrite forallb_forall in M. apply M.
  destruct g; simpl; auto.
Qed.

Record gates_ok (c : Controller) : Prop := {
  ok_plan : plan c ∈ plans;
  ok_batch : batch c <> None -> (0 < permits (gates c Loops))%nat;
  ok_enabled : enabled c = true -> (plan c = [] \/ plan c = disable_plan) /\ forall g, state (gates c g) = Open;
  ok_closed : forall g, is_closed (plan c) g = true -> state (gates c g) = Closed;
  ok_drained : forall g, is_drained (plan c) g = true -> permits (gates c g) = 0%nat;
  ok_open : forall g, is_open (plan c) g = true -> state (gates c g) = Open
}.

Lemma with_gate_same g v c : gates (with_gate g v c) g = v.
Proof. simpl. now rewrite decide_True. Qed.
Lemma with_gate_other g h v c : h <> g -> gates (with_gate g v c) h = gates c h.
Proof. intros N. simpl. now rewrite decide_False. Qed.

(** What an operation does to the gates. *)
Lemma op_gates o i c c' g :
  op_step o i c = Some c' ->
  permits (gates c' g) = permits (gates c g) /\ batch c' = batch c /\
  state (gates c' g) = (match touches o g with Some s => s | None => state (gates c g) end) /\
  enabled c' = (match o with OpenEnabled => true | ClearEnabled => false | _ => enabled c end).
Proof.
  intros E. destruct o; simpl in E |- *; try (injection E as <-; simpl; try destruct (decide _) as [->|]; now repeat split).
  - destruct (_ =? _)%nat; [|discriminate]. injection E as <-. now repeat split.
  - injection E as <-. destruct (lock_free i); now repeat split.
Qed.

Lemma drained_closed c g : gates_ok c -> is_drained (plan c) g = true -> state (gates c g) = Closed.
Proof.
  intros Ok D. apply (ok_closed c Ok). pose proof (plan_facts (plan c) g (ok_plan c Ok)) as F. unfold plan_fact in F.
  destruct (plan c) as [|o rest]; [discriminate|]. apply andb_true_iff in F as [_ F]. now rewrite D in F.
Qed.

Lemma op_ok o rest i c c' : gates_ok c -> plan c = o :: rest -> op_step o i c = Some c' -> gates_ok (with_plan rest c').
Proof.
  intros Ok P E. assert (forall g, plan_fact (o :: rest) g = true) as F by (intros g; rewrite <- P; apply plan_facts, Ok).
  assert (forall b1 b2, implb b1 b2 = true -> b1 = true -> b2 = true) as Imp by (intros [] []; auto).
  unfold plan_fact in F. setoid_rewrite andb_true_iff in F. setoid_rewrite andb_true_iff in F. setoid_rewrite andb_true_iff in F.
  setoid_rewrite andb_true_iff in F. setoid_rewrite andb_true_iff in F. setoid_rewrite andb_true_iff in F.
  constructor; simpl.
  - destruct (F Loops) as [[[[[[F1 _] _] _] _] _] _]. now apply bool_decide_eq_true in F1.
  - destruct (op_gates o i c c' Loops E) as (-> & -> & _). apply (ok_batch c Ok).
  - intros En. destruct (op_gates o i c c' Loops E) as (_ & _ & _ & E'). rewrite En in E'.
    destruct (decide (o = OpenEnabled)) as [->|N].
    + assert (bool_decide (OpenEnabled = OpenEnabled) = true) as X5 by now apply bool_decide_eq_true. split.
      * left. destruct (F Loops) as [[[_ F5] _] _]. apply (Imp _ _ F5) in X5.
        apply andb_true_iff in X5 as [X5 _]. now apply bool_decide_eq_true in X5.
      * intros g. destruct (op_gates _ i c c' g E) as (_ & _ & -> & _). simpl. destruct (decide (g = Discovery)) as [D|D]; [reflexivity|].
        destruct (F g) as [[[_ F5] _] _]. apply (Imp _ _ F5) in X5.
        apply andb_true_iff in X5 as [_ X5]. rewrite bool_decide_false in X5 by exact D. apply (ok_open c Ok). now rewrite P.
    + exfalso. destruct (decide (o = ClearEnabled)) as [->|N']; [discriminate|].
      assert (enabled c = true) as En' by (destruct o; congruence). destruct (ok_enabled c Ok En') as [[Q|Q] _]; rewrite P in Q; [discriminate|].
      unfold disable_plan in Q. congruence.
  - intros g C. destruct (op_gates o i c c' g E) as (_ & _ & -> & _). destruct (F g) as [[[[[[_ F2] _] _] _] _] _]. apply (Imp _ _ F2) in C.
    destruct (touches o g) as [[| |]|]; try discriminate; [reflexivity|]. apply (ok_closed c Ok). now rewrite P.
  - intros g C. destruct (op_gates o i c c' g E) as (-> & _). destruct (F g) as [[[[_ F4] _] _] _]. apply (Imp _ _ F4) in C.
    apply orb_true_iff in C as [C|C]; [|apply (ok_drained c Ok); now rewrite P]. apply bool_decide_eq_true in C as ->. simpl in E.
    destruct (Nat.eqb_spec (permits (gates c g)) 0); [assumption|discriminate].
  - intros g C. destruct (op_gates o i c c' g E) as (_ & _ & -> & _). destruct (F g) as [[[[[_ F3] _] _] _] _]. apply (Imp _ _ F3) in C.
    destruct (touches o g) as [[| |]|]; try discriminate; [reflexivity|]. apply (ok_open c Ok). now rewrite P.
Qed.

(** Changing the permits of a gate that is not drained. *)
Lemma permits_ok c g n :
  gates_ok c -> (is_drained (plan c) g = true -> n = 0%nat) -> (g = Loops -> batch c <> None -> (0 < n)%nat) ->
  gates_ok (set_permits g n c).
Proof.
  intros Ok D B. constructor; simpl.
  - apply Ok.
  - intros Bc. destruct (decide (Loops = g)) as [<-|N]; simpl; [now apply B|now apply (ok_batch c Ok)].
  - intros En. destruct (ok_enabled c Ok En) as [P O]. split; [exact P|]. intros h. destruct (decide (h = g)) as [->|N]; simpl; apply O.
  - intros h C. destruct (decide (h = g)) as [->|N]; simpl; now apply (ok_closed c Ok).
  - intros h C. destruct (decide (h = g)) as [->|N]; simpl; [now apply D|now apply (ok_drained c Ok)].
  - intros h C. destruct (decide (h = g)) as [->|N]; simpl; now apply (ok_open c Ok).
Qed.

Lemma same_gates_ok c c' :
  gates_ok c -> gates c' = gates c -> batch c' = None \/ batch c <> None -> plan c' = plan c -> enabled c' = enabled c -> gates_ok c'.
Proof.
  intros [A B C D E F] G Bt P En. constructor; rewrite ?G, ?P, ?En; auto. intros N. destruct Bt as [Bt|Bt]; [congruence|auto].
Qed.

Lemma new_plan_ok c p :
  gates_ok c -> p ∈ plans -> (forall g, is_closed p g = false /\ is_drained p g = false /\ is_open p g = false) ->
  (enabled c = true -> p = [] \/ p = disable_plan) -> gates_ok (with_plan p c).
Proof.
  intros Ok M N En. constructor; simpl.
  - exact M.
  - apply Ok.
  - intros E. split; [now apply En|now apply (ok_enabled c Ok)].
  - intros g C. destruct (N g) as (X & _). congruence.
  - intros g C. destruct (N g) as (_ & X & _). congruence.
  - intros g C. destruct (N g) as (_ & _ & X). congruence.
Qed.

Lemma open_not_drained c g : gates_ok c -> state (gates c g) = Open -> is_drained (plan c) g = false.
Proof.
  intros Ok O. apply not_true_iff_false. intros D. rewrite (drained_closed c g Ok D) in O. discriminate.
Qed.

Lemma no_plan : [] ∈ plans.
Proof. apply elem_of_app. left. unfold enable_plan, quiesce. simpl. apply list_elem_of_In. simpl. tauto. Qed.

Lemma controller_step_ok c c' : gates_ok c -> controller_step c c' -> gates_ok c'.
Proof.
  intros Ok St. destruct St as [c P|c P|c|c o rest i c' P E|c g O|c g L|c g s L W|c changes O B|c slot t1 t2 id|c b B L|c s W].
  - unfold enable. destruct (enabled c) eqn:En; [exact Ok|]. apply new_plan_ok; [exact Ok| |intros []; vm_compute; auto|congruence].
    apply elem_of_app. left. left.
  - apply new_plan_ok; [exact Ok| |intros []; vm_compute; auto|auto]. apply elem_of_app. right. left.
  - apply new_plan_ok; [exact Ok|exact no_plan|intros []; vm_compute; auto|auto].
  - exact (op_ok o rest i c c' Ok P E).
  - apply permits_ok; auto; [|lia]. now rewrite (open_not_drained c g Ok O).
  - apply permits_ok; auto.
    + intros D. rewrite (ok_drained c Ok g D). reflexivity.
    + intros -> N. unfold held in L. destruct (batch c); [lia|now destruct N].
  - apply (same_gates_ok c); auto. simpl. destruct (batch c); [now right|now left].
  - assert (gates_ok (set_permits Loops (S (permits (gates c Loops))) c)) as Ok'.
    { apply permits_ok; auto; [|lia]. now rewrite (open_not_drained c Loops Ok O). }
    destruct Ok' as [A1 A2 A3 A4 A5 A6]. constructor; auto. intros _. simpl. lia.
  - unfold apply_batch. destruct (batch c) as [[|o rest]|] eqn:B; auto. destruct (batch_step _ _ _ _ _ _ _) as [[remaining s] call].
    apply (same_gates_ok c); auto. right. congruence.
  - apply permits_ok; [apply (same_gates_ok c); auto; now left| |simpl; now intros _ []].
    simpl. intros D. rewrite (ok_drained c Ok Loops D). reflexivity.
  - apply (same_gates_ok c); auto. simpl. destruct (batch c); [now right|now left].
Qed.

Lemma new_controller_ok s : gates_ok (new_controller s).
Proof. constructor; simpl; try discriminate; [exact no_plan|now intros []|intros [] E; discriminate E..]. Qed.

Lemma controller_steps_ok s c : rtc controller_step (new_controller s) c -> gates_ok c.
Proof.
  generalize (new_controller_ok s). generalize (new_controller s). intros c0 Ok St. revert Ok.
  induction St as [c0|c0 c1 c2 S1 _ IH]; [easy|]. intros Ok. apply IH. exact (controller_step_ok _ _ Ok S1).
Qed.

(** When a reset is due every gate is closed and drained. *)
Lemma reset_due c rest g :
  gates_ok c -> plan c = ResetState :: rest -> is_drained (plan c) g = true /\ is_closed (plan c) g = true.
Proof.
  intros Ok P. pose proof (ok_plan c Ok) as M. rewrite P in M |- *. apply list_elem_of_In in M. simpl in M.
  repeat destruct M as [M|M]; try discriminate M; try (injection M as <-; destruct g; split; vm_compute; reflexivity); destruct M.
Qed.

(** C9 The lifecycle keeps its promises however it is interrupted: from the
    controller's creation on, however enabling and disabling are started, dropped
    half-way and started again while batches, joins, measurements and edits go on,
    the published snapshot stays coherent; while Link counts as enabled every gate
    is open; and whenever a reset is due every gate is closed and no admitted work
    is left, so that nothing of the old lifecycle commits into the new one. *)
Theorem lifecycle_is_orderly tempo t1 t2 rid sup c :
  rtc controller_step (new_controller (Controller_new tempo t1 t2 rid sup)) c ->
  coherent (commit c) /\
  (enabled c = true -> forall g, state (gates c g) = Open) /\
  (forall rest, plan c = ResetState :: rest -> enabled c = false /\ batch c = None /\
     forall g, state (gates c g) = Closed /\ permits (gates c g) = 0%nat).
Proof.
  intros St. split; [|split].
  - assert (coherent (commit (new_controller (Controller_new tempo t1 t2 rid sup)))) as I0 by apply Controller_new_coherent.
    revert I0. induction St as [c0|c0 c1 c2 S1 _ IH]; [easy|]. intros I0. apply IH. exact (controller_step_coherent _ _ S1 I0).
  - intros En g. now apply (ok_enabled c (controller_steps_ok _ _ St)).
  - intros rest P. pose proof (controller_steps_ok _ _ St) as Ok.
    assert (forall g, is_drained (plan c) g = true /\ is_closed (plan c) g = true) as D by (intros g; exact (reset_due c rest g Ok P)).
    assert (enabled c = false) as En.
    { destruct (enabled c) eqn:E; [|reflexivity]. destruct (ok_enabled c Ok E) as [_ O]. specialize (O Loops).
      rewrite (ok_closed c Ok Loops (proj2 (D Loops))) in O. discriminate. }
    split; [exact En|]. split.
    + destruct (batch c) eqn:B; [|reflexivity]. pose proof (ok_batch c Ok ltac:(congruence)) as L.
      rewrite (ok_drained c Ok Loops (proj1 (D Loops))) in L. lia.
    + intros g. split; [apply (ok_closed c Ok), D|apply (ok_drained c Ok), D].
Qed.

(** *** A node that is disabled is alone *)

(** The session is the node's own, with nobody in it and no candidates. *)
Record alone (s : SessionCommit) : Prop := {
  alone_others : c_others s = [];
  alone_peers : c_peers s = [];
  alone_counter : c_counter s = 0%nat;
  alone_current : session_id (c_current s) = MkSessionId (state_ident (c_peer s));
  alone_state : state_session_id (c_peer s) = MkSessionId (state_ident (c_peer s));
  alone_published : session_id (c_published s) = MkSessionId (state_ident (c_peer s))
}.

Lemma publish_alone s :
  c_others s = [] -> c_peers s = [] -> c_counter s = 0%nat -> session_id (c_current s) = MkSessionId (state_ident (c_peer s)) ->
  state_session_id (c_peer s) = MkSessionId (state_ident (c_peer s)) -> alone (publish_discovery s).
Proof. intros A B C D E. constructor; simpl; auto. Qed.

Lemma reject_alone s : alone s -> alone (reject_pending_timing s).
Proof. intros [A B C D E F]. constructor; simpl; auto. rewrite A. now destruct (negb _). Qed.

Lemma reset_alone s t1 t2 rid ch s' : reset s t1 t2 rid = (Ok ch, s') -> alone s'.
Proof.
  unfold reset. set (node := if bool_decide _ then _ else _).
  destruct (update_timing_guarded _ _ _ _ _ _ _) as [[[c|e] st] cl] eqn:U; [|discriminate].
  unfold Session_new. destruct (Arc_new _) as [i sup1]. destruct (new_edit_revision sup1) as [r sup2].
  intros [= _ <-]. apply publish_alone; reflexivity.
Qed.

Lemma invalidate_alone_fields s :
  let s' := invalidate_client_captures s in
  c_others s' = map (fun o => o) (c_others s') /\ (c_others s = [] -> c_others s' = []) /\ c_peers s' = c_peers s /\ c_counter s' = c_counter s.
Proof.
  cbv zeta. unfold invalidate_client_captures. destruct (invalidate_edit_origin _ _) as [cur sup]. simpl. rewrite map_id.
  repeat split. intros ->. reflexivity.
Qed.

Lemma refresh_alone s now : alone s -> alone (refresh_timing s now).2.
Proof.
  intros Al. unfold refresh_timing. destruct (_ || _); [exact Al|]. destruct (update_timing_guarded _ _ _ _ _ _ _) as [[[c|e] st] cl] eqn:U.
  - simpl. set (s1 := with_states s st cl). assert (alone s1) as Al1 by (destruct Al; now constructor).
    destruct (negb (ClientState_eqb _ _)); [|destruct Al1; now apply publish_alone].
    destruct (invalidate_captures_fields s1) as (_ & _ & F3 & _ & _ & F6 & _). destruct (invalidate_alone_fields s1) as (_ & G1 & G2 & G3).
    destruct Al1 as [A B C D E F]. apply publish_alone; rewrite ?F3, ?F6, ?G2, ?G3; auto.
  - simpl. apply reject_alone. destruct Al. now constructor.
Qed.

Lemma install_timeline_alone s target st cl : alone s -> alone (install_timeline s target st cl).
Proof.
  intros [A B C D E F]. unfold install_timeline, set_timeline, invalidate_edit_origin.
  destruct (negb _); [destruct (new_edit_revision _)|]; constructor; simpl; rewrite ?A, ?B; auto.
Qed.

Lemma edit_alone s incoming now origin : alone s -> alone (client_edit_from_origin s incoming now origin).2.
Proof.
  intros Al. destruct (client_edit_from_origin s incoming now origin) as [[|ch|e] s'] eqn:E; simpl.
  1, 3: apply client_edit_refused in E as ->; [exact Al|easy].
  apply client_edit_inv in E as (_ & _ & target & mapped & prepared & _ & _ & _ & E).
  pose proof (install_edit_eq s incoming prepared mapped) as Q. rewrite E in Q. simpl in Q. subst s'. clear E.
  assert (alone (edit_begun s incoming)) as Al1.
  { unfold edit_begun. destruct (_ || _); [|exact Al]. destruct (invalidate_edit_origin _ _) as [cur sup] eqn:I.
    apply invalidate_fresh in I as (_ & _ & _ & _ & _ & I & _). destruct Al. constructor; simpl; auto. congruence. }
  set (s2 := edit_installed s incoming prepared mapped). assert (alone s2) as [A B C D E F].
  { unfold s2, edit_installed. set (s3 := match prepared with Some _ => _ | None => _ end).
    assert (alone s3) as Al3 by (unfold s3; destruct prepared as [[[[tg st] cl] c]|]; [now apply install_timeline_alone|exact Al1]).
    destruct (in_start_stop incoming); [|exact Al3]. destruct Al3 as [A B C D E F]. unfold install_start_stop.
    constructor; simpl; rewrite ?A; auto. }
  now apply publish_alone.
Qed.

Lemma client_alone s s' : client_commit s s' -> alone s -> alone s'.
Proof.
  intros W Al. destruct W; [now apply edit_alone| | |now apply refresh_alone]; destruct Al; now constructor.
Qed.

Lemma op_alone o i c c' : op_step o i c = Some c' -> alone (commit c) -> alone (commit c').
Proof.
  intros E Al. destruct o; simpl in E; try (injection E as <-; exact Al).
  - destruct (_ =? _)%nat; [|discriminate]. injection E as <-. exact Al.
  - injection E as <-. destruct Al. now constructor.
  - injection E as <-. destruct Al as [A B C D E F]. constructor; simpl; auto. now rewrite A.
  - injection E as <-. destruct (reset (commit c) (now1 i) (now2 i) (drawn i)) as [[ch|e] s] eqn:R; simpl; [exact (reset_alone _ _ _ _ _ _ R)|].
    revert R. unfold reset. destruct (update_timing_guarded _ _ _ _ _ _ _) as [[[ch|e'] st] cl].
    + unfold Session_new. destruct (Arc_new _) as [a sup1]. destruct (new_edit_revision sup1). discriminate.
    + intros [= _ <-]. now apply reject_alone.
  - injection E as <-. destruct (lock_free i); exact Al.
Qed.

(** Steps while every gate stays closed. *)
Definition closed_step (c c' : Controller) : Prop := controller_step c c' /\ forall g, state (gates c' g) = Closed.

(** C22 A node that is disabled is alone, whatever it does meanwhile: once the reset
    of a disable, or the one an enable begins with, has been accepted, and as long
    as no gate opens, the session is the node's own with no peers, no candidates
    and a count of zero, although the application may go on editing it and may
    start and drop further calls of enable and disable. *)
Theorem disabled_node_is_alone s0 c rest t1 t2 rid ch s c' :
  rtc controller_step (new_controller s0) c -> plan c = ResetState :: rest ->
  reset (commit c) t1 t2 rid = (Ok ch, s) ->
  rtc closed_step (with_plan rest (with_commit s c)) c' ->
  alone (commit c').
Proof.
  intros St P R Cl. pose proof (controller_steps_ok _ _ St) as Ok.
  assert (forall g, is_drained (plan c) g = true /\ is_closed (plan c) g = true) as D by (intros g; eapply reset_due; eauto).
  assert (alone (commit (with_plan rest (with_commit s c))) /\ (forall g, state (gates (with_plan rest (with_commit s c)) g) = Closed) /\
          (forall g, permits (gates (with_plan rest (with_commit s c)) g) = 0%nat) /\ batch (with_plan rest (with_commit s c)) = None) as I0.
  { split; [exact (reset_alone _ _ _ _ _ _ R)|]. simpl. split; [intros g; apply (ok_closed c Ok), D|].
    split; [intros g; apply (ok_drained c Ok), D|]. destruct (batch c) eqn:B; [|reflexivity].
    pose proof (ok_batch c Ok ltac:(congruence)) as L. rewrite (ok_drained c Ok Loops (proj1 (D Loops))) in L. lia. }
  clear St P R Ok D. revert I0. revert Cl. generalize (with_plan rest (with_commit s c)). clear. intros c0 Cl. induction Cl as [c1|c1 c2 c3 [S1 Cs] _ IH]; intros (Al & G & Pm & B); [exact Al|]. apply IH. clear IH.
  destruct S1 as [c P|c P|c|c o rest' i c' P E|c g O|c g L|c g s' L W|c changes O B'|c slot u1 u2 id|c b B' L|c s' W].
  - unfold enable in *. destruct (enabled c); auto.
  - auto.
  - auto.
  - simpl. split; [exact (op_alone o i c c' E Al)|]. split; [exact Cs|].
    split; [intros g; destruct (op_gates o i c c' g E) as (-> & _); apply Pm|destruct (op_gates o i c c' Loops E) as (_ & -> & _); exact B].
  - rewrite G in O. discriminate.
  - rewrite Pm in L. lia.
  - rewrite Pm in L. lia.
  - rewrite G in O. discriminate.
  - unfold apply_batch in *. rewrite B in *. auto.
  - congruence.
  - simpl. split; [exact (client_alone _ _ W Al)|auto].
Qed.

(** When the count of peers falls to zero, the batch resets the session, unless
    somebody has come back or the session has changed; otherwise it goes on. *)
Theorem last_peer_founds_session ch rest slot t1 t2 id s :
  ch = ChSessionMembership \/ ch = ChPeerLeft ->
  let count := count_session_peers (state_session_id (c_peer s)) (c_peers s) (state_ident (c_peer s)) in
  let '(remaining, s1, call) := batch_step (Apply ch) rest slot t1 t2 id s in
  call = None /\ c_counter s1 = count /\
  (remaining = rest <-> count <> 0%nat \/ c_counter s = 0%nat) /\
  (remaining <> rest -> remaining = ResetIfPeerless (state_session_id (c_peer s)) :: rest /\
     (session_id (c_current s) = state_session_id (c_peer s) ->
      let '(remaining', s2, _) := batch_step (ResetIfPeerless (state_session_id (c_peer s))) rest slot t1 t2 id s1 in
      remaining' = rest /\ (alone s2 \/ exists e, (reset s1 t1 t2 id).1 = Err e))).
Proof.
  intros [-> | ->] count; simpl; fold count.
  all: split; [reflexivity|]; split; [reflexivity|]; destruct (Nat.eqb_spec (c_counter s) count) as [E|E], (Nat.eqb_spec count 0) as [Z|Z]; simpl.
  all: split; [split; [intros Q; try (apply (f_equal length) in Q; simpl in Q; lia); auto; try (left; congruence); right; congruence
                      |intros [Q|Q]; try congruence; reflexivity]|].
  all: try (intros []; reflexivity).
  all: intros _; split; [reflexivity|]; intros Cur; split; [reflexivity|].
  all: rewrite Cur, !bool_decide_true by reflexivity; simpl; fold count; rewrite Z; simpl.
  all: destruct (reset (with_counter s 0) t1 t2 id) as [[ch|e] s2] eqn:R; simpl; [left; exact (reset_alone _ _ _ _ _ _ R)|right; eauto].
Qed.

(** *** Enabling and disabling complete *)

Definition final_enabled (p : list LifecycleOp) (b : bool) : bool :=
  fold_left (fun b o => match o with OpenEnabled => true | ClearEnabled => false | _ => b end) p b.
Definition final_state (p : list LifecycleOp) (g : GateId) (s : GateState) : GateState :=
  fold_left (fun s o => match touches o g with Some s' => s' | None => s end) p s.

(** Work admitted to a gate that is not open can end. *)
Lemma drains c g :
  gates_ok c -> state (gates c g) <> Open ->
  exists c', rtc controller_step c c' /\ plan c' = plan c /\ enabled c' = enabled c /\
    (forall h, state (gates c' h) = state (gates c h) /\ (permits (gates c' h) <= permits (gates c h))%nat) /\ permits (gates c' g) = 0%nat.
Proof.
  intros Ok N. assert (forall n c, permits (gates c g) = n -> held c g = 0%nat ->
    exists c', rtc controller_step c c' /\ plan c' = plan c /\ enabled c' = enabled c /\
      (forall h, state (gates c' h) = state (gates c h) /\ (permits (gates c' h) <= permits (gates c h))%nat) /\ permits (gates c' g) = 0%nat) as End.
  { intros n. induction n as [|n IH]; intros c0 P Hd.
    - exists c0. repeat split; auto. apply rtc_refl.
    - destruct (IH (set_permits g n c0)) as (c' & R & P' & E' & G' & Z').
      + unfold set_permits. now rewrite with_gate_same.
      + exact Hd.
      + exists c'. split; [|split; [exact P'|split; [exact E'|split; [|exact Z']]]].
        * eapply rtc_l; [|exact R]. replace n with (pred (permits (gates c0 g))) by (rewrite P; reflexivity). apply st_ended. lia.
        * intros h. destruct (G' h) as [-> L]. simpl in *. destruct (decide (h = g)) as [->|D]; simpl in *; split; auto; lia. }
  destruct (decide (held c g = 0%nat)) as [Hd|Hd]; [exact (End _ c eq_refl Hd)|].
  destruct g; try (now destruct Hd). unfold held in Hd. destruct (batch c) as [b|] eqn:B; [|now destruct Hd].
  destruct (End _ (set_permits Loops (pred (permits (gates c Loops))) (with_batch None c)) eq_refl eq_refl) as (c' & R & P' & E' & G' & Z').
  exists c'. split; [|split; [exact P'|split; [exact E'|split; [|exact Z']]]].
  - eapply rtc_l; [|exact R]. apply (st_applied c b B). now right.
  - intros h. destruct (G' h) as [-> L]. simpl in *. destruct (decide (h = Loops)) as [->|D]; simpl in *; split; auto; lia.
Qed.

Lemma run_plan p c (i : OpInputs) :
  gates_ok c -> plan c = p ->
  exists c', rtc controller_step c c' /\ plan c' = [] /\ enabled c' = final_enabled p (enabled c) /\
    forall g, state (gates c' g) = final_state p g (state (gates c g)) /\ (permits (gates c' g) <= permits (gates c g))%nat /\
      (Drained g ∈ p -> permits (gates c' g) = 0%nat).
Proof.
  revert c. induction p as [|o rest IH]; intros c Ok P.
  { exists c. repeat split; auto; [apply rtc_refl|]. intros M. inversion M. }
  assert (exists c0, rtc controller_step c c0 /\ plan c0 = plan c /\ enabled c0 = enabled c /\ (exists c1, op_step o i c0 = Some c1) /\
    forall g, state (gates c0 g) = state (gates c g) /\ (permits (gates c0 g) <= permits (gates c g))%nat /\ (o = Drained g -> permits (gates c0 g) = 0%nat))
    as (c0 & R0 & P0 & E0 & (c1 & O) & G0).
  { destruct o as [| g | | | | | | | | | | |].
    2: { destruct (drains c g Ok) as (c' & R & P' & E' & G' & Z').
         { rewrite (ok_closed c Ok g); [discriminate|]. pose proof (ok_plan c Ok) as M. rewrite P in M |- *. apply list_elem_of_In in M. simpl in M.
           repeat destruct M as [M|M]; try discriminate M; try (injection M as <- <-; vm_compute; reflexivity); destruct M. }
         exists c'. repeat split; auto; try apply G'. { exists c'. simpl. rewrite Z'. reflexivity. } now intros [= <-]. }
    all: exists c; repeat split; auto; [apply rtc_refl|simpl; eauto|discriminate]. }
  assert (gates_ok c0) as Ok0 by (clear - Ok R0; induction R0 as [c0|c0 c1 c2 S1 _ IH]; [exact Ok|]; apply IH; exact (controller_step_ok _ _ Ok S1)).
  rewrite P in P0. pose proof (op_ok o rest i c0 c1 Ok0 P0 O) as Ok1.
  destruct (IH (with_plan rest c1) Ok1 eq_refl) as (c' & R' & P' & E' & G'). exists c'.
  split; [|split; [exact P'|split]].
  - etrans; [exact R0|]. eapply rtc_l; [exact (st_op c0 o rest i c1 P0 O)|exact R'].
  - rewrite E'. simpl. destruct (op_gates o i c0 c1 Loops O) as (_ & _ & _ & ->). now rewrite E0.
  - intros g. destruct (G' g) as (G1 & G2 & G3). destruct (op_gates o i c0 c1 g O) as (O1 & _ & O3 & _). destruct (G0 g) as (H1 & H2 & H3).
    simpl in *. rewrite O1 in G2. split; [rewrite G1, O3, H1; reflexivity|]. split; [lia|].
    intros M. apply elem_of_cons in M as [M|M]; [|auto]. specialize (H3 (eq_sym M)). lia.
Qed.

(** Enabling and disabling can always complete: in every state the controller
    reaches, whatever calls were dropped half-way before, a call of enable can run
    to its end, with Link enabled and every gate open, and a call of disable can
    run to its end, with Link disabled, every gate closed and no admitted work
    left. *)
Theorem lifecycle_completes s c (i : OpInputs) :
  rtc controller_step (new_controller s) c -> plan c = [] ->
  (exists c', rtc controller_step c c' /\ plan c' = [] /\ enabled c' = true /\ forall g, state (gates c' g) = Open) /\
  (exists c', rtc controller_step c c' /\ plan c' = [] /\ enabled c' = false /\
     forall g, state (gates c' g) = Closed /\ permits (gates c' g) = 0%nat).
Proof.
  intros St P. pose proof (controller_steps_ok _ _ St) as Ok. split.
  - destruct (enabled c) eqn:En.
    + exists c. repeat split; auto; [apply rtc_refl|]. now apply (ok_enabled c Ok).
    + pose proof (controller_step_ok c _ Ok (st_enable c P)) as Ok'. unfold enable in Ok'. rewrite En in Ok'.
      destruct (run_plan enable_plan _ i Ok' eq_refl) as (c' & R & P' & E' & G'). exists c'. split; [|split; [exact P'|split; [exact E'|]]].
      * eapply rtc_l; [apply (st_enable c P)|]. unfold enable. now rewrite En.
      * intros g. destruct (G' g) as (-> & _). now destruct g.
  - pose proof (controller_step_ok c _ Ok (st_disable c P)) as Ok'.
    destruct (run_plan disable_plan _ i Ok' eq_refl) as (c' & R & P' & E' & G'). exists c'. split; [|split; [exact P'|split; [exact E'|]]].
    + eapply rtc_l; [apply (st_disable c P)|exact R].
    + intros g. destruct (G' g) as (-> & _ & Z). split; [now destruct g|]. apply Z. apply list_elem_of_In. destruct g; simpl; tauto.
Qed.

End LifecycleProperties.
