(* ===== verification/Dispatch.v ===== *)
(** The start/stop gate of the dispatch loops: [DispatchGate],
    [DispatchReceiver] and [gated_recv] of src/src/link/controller.rs.

    A gate is shared by consumers, which hold one phase of their loop each, by
    the runners of [run_in_epoch], and by the lifecycle that starts and stops
    it.  Every access to the shared state is an [Action] of its own, so the
    model has the interleavings of a multi-threaded executor.  A piece of work
    carries the lifecycle it was produced in, the value of the gate's epoch at
    the time; the program does not store it, the theorems speak of it. *)

From stdpp Require Import base list numbers relations gmap.
From Stdlib Require Import ZArith Lia.
From S2P Require Import Prelude.

Inductive DispatchState := Closed | Preparing (epoch : Z) | Open.

#[export] Instance DispatchState_eq_dec : EqDecision DispatchState.
Proof. solve_decision. Defined.

(** A channel is read by [gated_recv], a socket by the receive loop of
    src/src/discovery/messenger.rs, which waits in [wait_open]. *)
Inductive ConsumerKind := Channel | Socket.

Section Dispatch.
Context {T : Type}.

Definition Work : Type := Z * T.
Definition produced_in (w : Work) : Z := fst w.

Inductive Phase :=
| Top                                    (** at the head of the loop *)
| Drain (state : DispatchState)          (** read a state that is not open *)
| Ack (state : DispatchState)            (** the queue is drained *)
| Waiting                                (** for a change or for work *)
| WantPermit                             (** read an open state *)
| Permitted                              (** holds the permit *)
| Checked                                (** [is_open] answered true *)
| Receiving (epoch : Z)                  (** parked in [recv] *)
| Dispatching (epoch : Z) (work : Work)
| Gone.                                  (** the receiver was dropped *)

Record Consumer := MkConsumer {
  kind : ConsumerKind;
  phase : Phase;
  seen : nat;              (** the version of the state last read *)
  prepared_epoch : Z;
  queue : list Work
}.

Inductive Runner :=
| RWant (epoch : Z) | RPermitted (epoch : Z) | RChecked (epoch : Z) | RRunning (epoch : Z).

(** [version] counts the changes of [active] that receivers are told about,
    [starting] is the epoch of a start in progress, [stopped] holds between the
    return of a stop and the next start.  [log] has the work admitted, with the
    epoch it was admitted under, [polls] the polls of runners, with the epoch
    of the gate. *)
Record Gate := MkGate {
  active : DispatchState;
  version : nat;
  epoch : Z;
  consumers : gmap nat Consumer;
  runners : gmap nat Runner;
  starting : option Z;
  stopped : bool;
  log : list (Z * Work);
  polls : list (Z * Z)
}.

Definition DispatchGate_new : Gate := MkGate Closed 0 0 ∅ ∅ None false [] [].
Definition DispatchGate_new_open : Gate := MkGate Open 1 0 ∅ ∅ None false [] [].

Definition with_active (a : DispatchState) (g : Gate) : Gate :=
  MkGate a (S (version g)) (epoch g) (consumers g) (runners g) (starting g) (stopped g) (log g) (polls g).
Definition with_consumers (m : gmap nat Consumer) (g : Gate) : Gate :=
  MkGate (active g) (version g) (epoch g) m (runners g) (starting g) (stopped g) (log g) (polls g).
Definition with_consumer (id : nat) (c : Consumer) (g : Gate) : Gate := with_consumers (<[id := c]> (consumers g)) g.
Definition with_runners (m : gmap nat Runner) (g : Gate) : Gate :=
  MkGate (active g) (version g) (epoch g) (consumers g) m (starting g) (stopped g) (log g) (polls g).
Definition with_lifecycle (s : option Z) (b : bool) (g : Gate) : Gate :=
  MkGate (active g) (version g) (epoch g) (consumers g) (runners g) s b (log g) (polls g).
Definition with_log (l : list (Z * Work)) (g : Gate) : Gate :=
  MkGate (active g) (version g) (epoch g) (consumers g) (runners g) (starting g) (stopped g) l (polls g).
Definition with_polls (l : list (Z * Z)) (g : Gate) : Gate :=
  MkGate (active g) (version g) (epoch g) (consumers g) (runners g) (starting g) (stopped g) (log g) l.

Definition is_open (g : Gate) : bool := bool_decide (active g = Open).

(** ** Permits *)

Definition holds_permit (p : Phase) : bool :=
  match p with Permitted | Checked | Receiving _ | Dispatching _ _ => true | _ => false end.
Definition runner_holds_permit (r : Runner) : bool :=
  match r with RWant _ => false | _ => true end.
Definition in_flight (g : Gate) : bool :=
  existsb (fun x => holds_permit (phase (snd x))) (map_to_list (consumers g)) ||
  existsb (fun x => runner_holds_permit (snd x)) (map_to_list (runners g)).

(** ** Consumers *)

Definition in_phase (p : Phase) (c : Consumer) : Consumer :=
  MkConsumer (kind c) p (seen c) (prepared_epoch c) (queue c).
Definition gone (c : Consumer) : bool := match phase c with Gone => true | _ => false end.

(** The drop of a receiver: ready for any start that waits. *)
Definition receiver_drop (c : Consumer) : Consumer :=
  MkConsumer (kind c) Gone (seen c) u64_MAX (queue c).

Definition subscribe (id : nat) (k : ConsumerKind) (q : list Work) (g : Gate) : Gate :=
  with_consumers (<[id := MkConsumer k Top (version g) 0 q]> (filter (fun x => gone (snd x) = false) (consumers g))) g.

(** One access of [gated_recv] ([Channel]) or of [wait_open] and the loop
    around it ([Socket]); receiving work is [receive].  [None]: parked. *)
Definition poll (a : DispatchState) (v : nat) (ep : Z) (c : Consumer) : option Consumer :=
  match phase c with
  | Top =>
    match a, kind c with
    | Open, k => Some (MkConsumer k WantPermit v (prepared_epoch c) (queue c))
    | st, Channel => Some (MkConsumer Channel (Drain st) v (prepared_epoch c) (queue c))
    | Closed, Socket => Some (MkConsumer Socket Waiting v (prepared_epoch c) [])
    | Preparing e, Socket => Some (MkConsumer Socket Waiting v e [])
    end
  | Drain st => Some (MkConsumer (kind c) (Ack st) (seen c) (prepared_epoch c) [])
  | Ack st =>
    Some (MkConsumer (kind c) Waiting (seen c)
            (match st with Preparing e => e | _ => prepared_epoch c end) (queue c))
  | Waiting =>
    if negb (seen c =? v)%nat then Some (in_phase Top c)
    else match queue c, kind c with
         | [], _ => None
         | _ :: q, Channel => Some (MkConsumer Channel Top (seen c) (prepared_epoch c) q)
         | _ :: _, Socket => Some (in_phase Top c)
         end
  | WantPermit => Some (in_phase Permitted c)
  | Permitted => Some (in_phase (match a with Open => Checked | _ => Top end) c)
  | Checked => Some (in_phase (Receiving ep) c)
  | Receiving _ =>
    match a, kind c with
    | Open, _ => None
    | _, Channel => Some (MkConsumer Channel Top (seen c) (prepared_epoch c) [])
    | _, Socket => Some (in_phase Top c)
    end
  | Dispatching _ _ => Some (in_phase Top c)
  | Gone => None
  end.

Definition receive (c : Consumer) : option (Consumer * (Z * Work)) :=
  match phase c, queue c with
  | Receiving e, w :: q =>
    Some (MkConsumer (kind c) (Dispatching e w) (seen c) (prepared_epoch c) q, (e, w))
  | _, _ => None
  end.

(** ** Starting *)

Definition all_ready (e : Z) (g : Gate) : bool :=
  forallb (fun x => gone (snd x) || (e <=? prepared_epoch (snd x))) (map_to_list (consumers g)).

(** One attempt of [start_with_retry] under the lock of the subscribers. *)
Definition try_open (e : Z) (g : Gate) : Gate :=
  let g := with_consumers (filter (fun x => gone (snd x) = false) (consumers g)) g in
  if all_ready e g then with_lifecycle None (stopped g) (with_active Open g) else g.

Definition run_step (g : Gate) (r : Runner) : option Runner :=
  match r with
  | RWant e => Some (RPermitted e)
  | RPermitted e => if is_open g then Some (RChecked e) else None
  | RChecked e => if epoch g =? e then Some (RRunning e) else None
  | RRunning e => if is_open g then Some (RRunning e) else None
  end.

(** ** Actions

    [PollWork] polls the work of a runner, [RunStep] with [run_step] answering
    [None] drops the runner and its permit.  A gate is started by the owner of
    the controller, after a stop that returned and with no other start in
    progress ([enable] takes the controller by [&mut]); it is started fewer
    than 2^64 - 1 times. *)
Inductive Action :=
| Subscribe (id : nat) (k : ConsumerKind) (q : list Work)
| Depart (id : nat)
| Send (id : nat) (x : T)
| Poll (id : nat)
| Receive (id : nat)
| Close
| StopReturns
| StartBegin
| TryOpen
| StartCancelled
| RunStart (id : nat) (e : Z)
| RunStep (id : nat)
| PollWork (id : nat)
| RunEnd (id : nat).

Definition produced_before (ep : Z) (q : list Work) : bool :=
  forallb (fun w => (0 <=? produced_in w) && (produced_in w <=? ep)) q.

Definition act (a : Action) (g : Gate) : option Gate :=
  match a with
  | Subscribe id k q =>
    match consumers g !! id with
    | Some _ => None
    | None =>
      if produced_before (epoch g) q && (negb (is_open g) || match q with [] => true | _ => false end)
      then Some (subscribe id k q g) else None
    end
  | Depart id => let! c := consumers g !! id in Some (with_consumer id (receiver_drop c) g)
  | Send id x =>
    let! c := consumers g !! id in
    if gone c then None
    else Some (with_consumer id (MkConsumer (kind c) (phase c) (seen c) (prepared_epoch c)
                                   (queue c ++ [(epoch g, x)])) g)
  | Poll id =>
    let! c := consumers g !! id in
    let! c' := poll (active g) (version g) (epoch g) c in
    Some (with_consumer id c' g)
  | Receive id =>
    let! c := consumers g !! id in
    let! r := receive c in
    Some (with_log (log g ++ [snd r]) (with_consumer id (fst r) g))
  | Close => Some (match active g with Closed => g | _ => with_active Closed g end)
  | StopReturns =>
    if bool_decide (active g = Closed) && negb (in_flight g) && bool_decide (starting g = None)
    then Some (with_lifecycle None true g) else None
  | StartBegin =>
    if stopped g && (epoch g + 1 <? u64_MAX) then
      let e := epoch g + 1 in
      Some (MkGate (Preparing e) (S (version g)) e (consumers g) (runners g) (Some e) false (log g) (polls g))
    else None
  | TryOpen => let! e := starting g in Some (try_open e g)
  | StartCancelled => Some (with_lifecycle None (stopped g) g)
  | RunStart id e => match runners g !! id with
                     | Some _ => None
                     | None => Some (with_runners (<[id := RWant e]> (runners g)) g)
                     end
  | RunStep id =>
    let! r := runners g !! id in
    Some (with_runners (match run_step g r with
                        | Some r' => <[id := r']> (runners g)
                        | None => delete id (runners g)
                        end) g)
  | PollWork id =>
    match runners g !! id with
    | Some (RRunning e) => Some (with_polls (polls g ++ [(e, epoch g)]) g)
    | _ => None
    end
  | RunEnd id => Some (with_runners (delete id (runners g)) g)
  end.

Definition gate_step (g g' : Gate) : Prop := exists a, act a g = Some g'.
Definition reachable (g : Gate) : Prop := rtc gate_step DispatchGate_new g \/ rtc gate_step DispatchGate_new_open g.

End Dispatch.

(** ** Lifecycles *)

Section DispatchProperties.
Context {T : Type}.
Notation Gate := (@Gate T).
Notation Consumer := (@Consumer T).

Definition tags_from (lo hi : Z) (q : list (@Work T)) : Prop := Forall (fun w => lo <= produced_in w <= hi) q.

(** What a phase knows, at a state, an epoch and a stop. *)
Definition phase_ok (a : DispatchState) (ep : Z) (stop : bool) (c : Consumer) : Prop :=
  match phase c with
  | Drain st => st <> Open /\ (forall e, st = Preparing e -> 0 <= e <= ep)
  | Ack st => st <> Open /\ (forall e, st = Preparing e -> 0 <= e <= ep /\ tags_from e ep (queue c))
  | Checked => stop = false /\ tags_from ep ep (queue c)
  | Receiving e => stop = false /\ e = ep /\ tags_from ep ep (queue c)
  | Dispatching e w => stop = false /\ e = ep /\ produced_in w = ep
  | _ => True
  end.

Definition consumer_ok (a : DispatchState) (ep : Z) (stop : bool) (c : Consumer) : Prop :=
  phase c <> Gone ->
  0 <= prepared_epoch c <= ep /\ tags_from (prepared_epoch c) ep (queue c) /\
  (a = Open -> tags_from ep ep (queue c)) /\ phase_ok a ep stop c.

Definition runner_ok (ep : Z) (stop : bool) (r : Runner) : Prop :=
  match r with
  | RWant _ | RPermitted _ => True
  | RChecked _ => stop = false
  | RRunning e => stop = false /\ e = ep
  end.

Record gate_ok (g : Gate) : Prop := {
  ok_epoch : 0 <= epoch g < u64_MAX;
  ok_stopped : stopped g = true -> active g = Closed /\ starting g = None;
  ok_starting : forall e, starting g = Some e -> e = epoch g;
  ok_preparing : forall e, active g = Preparing e -> e = epoch g;
  ok_consumers : map_Forall (fun _ c => consumer_ok (active g) (epoch g) (stopped g) c) (consumers g);
  ok_runners : map_Forall (fun _ r => runner_ok (epoch g) (stopped g) r) (runners g);
  ok_log : Forall (fun x => fst x = produced_in (snd x)) (log g);
  ok_polls : Forall (fun x => fst x = snd x) (polls g);
  ok_open : active g = Open -> starting g = None
}.

Lemma tags_from_app lo hi q w : tags_from lo hi q -> lo <= produced_in w <= hi -> tags_from lo hi (q ++ [w]).
Proof. intros H Hw. apply Forall_app. split; [exact H|]. now constructor. Qed.

Lemma tags_from_weaken lo hi lo' hi' q : lo' <= lo -> hi <= hi' -> tags_from lo hi q -> tags_from lo' hi' q.
Proof. intros L H F. apply (Forall_impl _ _ _ F). intros w. lia. Qed.

Lemma consumers_gone_filter (P : Consumer -> Prop) (m : gmap nat Consumer) :
  map_Forall (fun _ c => P c) m ->
  map_Forall (fun _ c => P c) (filter (fun x => gone (snd x) = false) m).
Proof. intros H id c L. apply map_lookup_filter_Some in L as [L _]. exact (H id c L). Qed.

Lemma not_in_flight (g : Gate) : in_flight g = false ->
  (forall id c, consumers g !! id = Some c -> holds_permit (phase c) = false) /\
  (forall id r, runners g !! id = Some r -> runner_holds_permit r = false).
Proof.
  unfold in_flight. intros H. apply orb_false_iff in H as [H1 H2].
  rewrite <- not_true_iff_false, existsb_exists in H1, H2. split.
  - intros id c L. apply not_true_iff_false. intros X. apply H1. exists (id, c). split; [|exact X].
    now apply list_elem_of_In, elem_of_map_to_list.
  - intros id r L. apply not_true_iff_false. intros X. apply H2. exists (id, r). split; [|exact X].
    now apply list_elem_of_In, elem_of_map_to_list.
Qed.

Lemma all_ready_spec e (g : Gate) id c :
  all_ready e g = true -> consumers g !! id = Some c -> phase c <> Gone -> e <= prepared_epoch c.
Proof.
  unfold all_ready. rewrite forallb_forall. intros H L N.
  assert (In (id, c) (map_to_list (consumers g))) as I by now apply list_elem_of_In, elem_of_map_to_list.
  specialize (H _ I). simpl in H. unfold gone in H. destruct (phase c); simpl in H; try lia. now destruct N.
Qed.

(** One access of a consumer. *)
Lemma poll_ok a v ep stop c c' :
  (stop = true -> a = Closed) -> (forall e, a = Preparing e -> e = ep) -> 0 <= ep ->
  consumer_ok a ep stop c -> poll a v ep c = Some c' -> consumer_ok a ep stop c'.
Proof.
  intros St Pr E0 Ok P. destruct c as [k p s pe q]. unfold consumer_ok, phase_ok, poll, in_phase in *. simpl in *.
  assert (forall lo, tags_from lo ep (@nil (@Work T))) as Nil by (intros; constructor).
  destruct p.
  - specialize (Ok ltac:(discriminate)) as (O1 & O2 & O3 & _).
    destruct a, k; injection P as <-; simpl; intros _; repeat split; try assumption; try lia; try discriminate; auto;
      pose proof (Pr _ eq_refl); repeat match goal with H : Preparing _ = Preparing _ |- _ => injection H as <- end; lia.
  - specialize (Ok ltac:(discriminate)) as (O1 & O2 & O3 & O4). injection P as <-. simpl. intros _.
    destruct O4 as [N O4]. repeat split; auto; try lia; try (apply O4; assumption).
  - specialize (Ok ltac:(discriminate)) as (O1 & O2 & O3 & O4). injection P as <-. simpl. intros _.
    destruct O4 as [N O4]. destruct state as [|e|]; [auto| |now destruct N].
    destruct (O4 e eq_refl) as [O5 O6]. auto.
  - specialize (Ok ltac:(discriminate)) as (O1 & O2 & O3 & _).
    destruct (negb (s =? v)%nat); [injection P as <-; simpl; auto|].
    destruct q as [|w q]; [discriminate|].
    destruct k; injection P as <-; simpl; intros _; [|auto].
    apply Forall_cons in O2 as [_ O2]. repeat split; try lia; auto.
    intros A. specialize (O3 A). now apply Forall_cons in O3.
  - specialize (Ok ltac:(discriminate)) as (O1 & O2 & O3 & _). injection P as <-. simpl. auto.
  - specialize (Ok ltac:(discriminate)) as (O1 & O2 & O3 & _). injection P as <-. destruct a; simpl; auto.
    intros _. repeat split; auto; try lia. destruct stop; [|reflexivity]. discriminate (St eq_refl).
  - specialize (Ok ltac:(discriminate)) as (O1 & O2 & O3 & O4 & O5). injection P as <-. simpl. intros _. auto 10.
  - specialize (Ok ltac:(discriminate)) as (O1 & O2 & O3 & O4).
    destruct a, k; try discriminate; injection P as <-; simpl; intros _; repeat split; auto; try lia; discriminate.
  - specialize (Ok ltac:(discriminate)) as (O1 & O2 & O3 & O4). injection P as <-. simpl. auto.
  - discriminate.
Qed.

Lemma receive_ok a ep stop c c' e w :
  consumer_ok a ep stop c -> receive c = Some (c', (e, w)) ->
  consumer_ok a ep stop c' /\ stop = false /\ e = ep /\ produced_in w = ep.
Proof.
  destruct c as [k p s pe q]. unfold consumer_ok, phase_ok, receive. simpl. destruct p; try discriminate.
  destruct q as [|w' q]; [discriminate|]. intros Ok [= <- <- <-].
  specialize (Ok ltac:(discriminate)) as (O1 & O2 & O3 & O4 & O5 & O6). simpl.
  apply Forall_cons in O2 as [_ O2]. apply Forall_cons in O6 as [Hw O6].
  repeat split; auto; try lia.
Qed.

Lemma consumer_ok_start a ep c :
  consumer_ok Closed ep true c -> consumer_ok (Preparing a) (ep + 1) false c.
Proof.
  intros Ok N. specialize (Ok N) as (O1 & O2 & _ & O4). split; [lia|]. split; [|split; [discriminate|]].
  - exact (tags_from_weaken _ _ _ _ _ (Z.le_refl _) (Z.le_succ_diag_r ep) O2).
  - unfold phase_ok in *. destruct (phase c); try tauto; try (destruct O4; discriminate).
    + destruct O4 as [O5 O6]. split; [assumption|]. intros e E. specialize (O6 e E). lia.
    + destruct O4 as [O5 O6]. split; [assumption|]. intros e E. specialize (O6 e E) as [O6 O7]. split; [lia|].
      refine (tags_from_weaken _ _ _ _ _ _ _ O7); lia.
Qed.

Lemma consumer_ok_state a a' ep stop c :
  (a' = Open -> a = Open \/ ep <= prepared_epoch c) ->
  consumer_ok a ep stop c -> consumer_ok a' ep stop c.
Proof.
  intros H Ok N. specialize (Ok N) as (O1 & O2 & O3 & O4). split; [lia|]. split; [assumption|]. split; [|exact O4].
  intros A. destruct (H A) as [B|B]; [now apply O3|]. refine (tags_from_weaken _ _ _ _ _ _ _ O2); lia.
Qed.

Lemma with_consumer_ok g id c :
  gate_ok g -> consumer_ok (active g) (epoch g) (stopped g) c -> gate_ok (with_consumer id c g).
Proof.
  intros [O1 O2 O3 O4 O5 O6 O7 O8 O9] C. constructor; try assumption.
  simpl. now apply map_Forall_insert_2.
Qed.

Lemma with_runners_ok g m :
  gate_ok g -> map_Forall (fun _ r => runner_ok (epoch g) (stopped g) r) m -> gate_ok (with_runners m g).
Proof. intros [O1 O2 O3 O4 O5 O6 O7 O8 O9] C. now constructor. Qed.

Lemma subscribe_ok g id k q :
  gate_ok g -> produced_before (epoch g) q && (negb (is_open g) || match q with [] => true | _ => false end) = true ->
  gate_ok (subscribe id k q g).
Proof.
  intros [O1 O2 O3 O4 O5 O6 O7 O8 O9] H. apply andb_true_iff in H as [H1 H2]. constructor; try assumption.
  simpl. apply map_Forall_insert_2; [|now apply consumers_gone_filter].
  intros _. simpl. split; [lia|]. assert (tags_from 0 (epoch g) q) as Q.
  { apply Forall_forall. intros w W. unfold produced_before in H1. rewrite forallb_forall in H1.
    specialize (H1 w ltac:(now apply list_elem_of_In)). lia. }
  split; [assumption|]. split; [|exact I]. intros A. unfold is_open in H2.
  rewrite bool_decide_true in H2 by assumption. destruct q; [constructor|discriminate].
Qed.

Lemma stop_returns_ok g :
  gate_ok g -> active g = Closed -> in_flight g = false -> gate_ok (with_lifecycle None true g).
Proof.
  intros [O1 O2 O3 O4 O5 O6 O7 O8 O9] A F. apply not_in_flight in F as [F1 F2].
  constructor; try assumption; simpl; [auto|discriminate| | |auto].
  - intros id c L N. specialize (O5 id c L N) as (P1 & P2 & P3 & P4). repeat split; try assumption; try lia.
    specialize (F1 id c L). unfold phase_ok in *. destruct (phase c); try exact P4; discriminate.
  - intros id r L. specialize (F2 id r L). destruct r; try discriminate. exact I.
Qed.

Lemma start_begin_ok g :
  gate_ok g -> stopped g = true -> epoch g + 1 < u64_MAX ->
  gate_ok (MkGate (Preparing (epoch g + 1)) (S (version g)) (epoch g + 1) (consumers g) (runners g)
             (Some (epoch g + 1)) false (log g) (polls g)).
Proof.
  intros [O1 O2 O3 O4 O5 O6 O7 O8 O9] S B. destruct (O2 S) as [A N]. rewrite A, S in *.
  constructor; simpl; try assumption; try lia; try congruence.
  - intros id c L. apply consumer_ok_start, (O5 id c L).
  - intros id r L. specialize (O6 id r L). destruct r; simpl in *; try exact I; tauto || (destruct O6; discriminate).
Qed.

Lemma try_open_ok g e : gate_ok g -> starting g = Some e -> gate_ok (try_open e g).
Proof.
  intros [O1 O2 O3 O4 O5 O6 O7 O8 O9] S. unfold try_open.
  set (g1 := with_consumers _ g).
  assert (gate_ok g1) as Ok1 by (constructor; try assumption; now apply consumers_gone_filter).
  destruct (all_ready e g1) eqn:R; [|exact Ok1]. pose proof (O3 e S) as ->.
  assert (stopped g = false) as F.
  { destruct (stopped g) eqn:X; [|reflexivity]. destruct (O2 eq_refl). congruence. }
  destruct Ok1 as [P1 P2 P3 P4 P5 P6 P7 P8 P9]. constructor; simpl in *; try assumption; try discriminate; try reflexivity.
  - rewrite F. discriminate.
  - intros id c L NG. refine (consumer_ok_state (active g) _ _ _ _ _ (P5 id c L) NG).
    intros _. right. exact (all_ready_spec _ _ id c R L NG).
Qed.

Lemma act_ok a (g g' : Gate) : gate_ok g -> act a g = Some g' -> gate_ok g'.
Proof.
  intros Ok E. pose proof Ok as [O1 O2 O3 O4 O5 O6 O7 O8 O9]. destruct a as [id k q|id|id x|id|id| | | | | |id e|id|id|id]; simpl in E.
  - destruct (consumers g !! id); [discriminate|]. destruct (_ && _) eqn:B; [|discriminate].
    injection E as <-. now apply subscribe_ok.
  - destruct (consumers g !! id) as [c|] eqn:L; [|discriminate]. injection E as <-. apply with_consumer_ok; [exact Ok|].
    intros N. now destruct N.
  - destruct (consumers g !! id) as [c|] eqn:L; [|discriminate]. simpl in E. destruct (gone c) eqn:G; [discriminate|].
    injection E as <-. apply with_consumer_ok; [exact Ok|]. intros N. simpl in *.
    specialize (O5 id c L N) as (P1 & P2 & P3 & P4).
    repeat split; try lia; try (apply tags_from_app; simpl; auto; lia).
    + intros A. apply tags_from_app; simpl; [auto|lia].
    + unfold phase_ok in *. simpl. destruct (phase c); try assumption.
      * destruct P4 as [P4 P5]. split; [assumption|]. intros e0 X. specialize (P5 e0 X) as [P5 P6].
        split; [assumption|]. apply tags_from_app; simpl; [assumption|lia].
      * destruct P4. split; [assumption|]. apply tags_from_app; simpl; [assumption|lia].
      * destruct P4 as (Q1 & Q2 & Q3). repeat split; try assumption. apply tags_from_app; simpl; [assumption|lia].
  - destruct (consumers g !! id) as [c|] eqn:L; [|discriminate]. simpl in E.
    destruct (poll _ _ _ c) as [c'|] eqn:P; [|discriminate]. injection E as <-. apply with_consumer_ok; [exact Ok|].
    refine (poll_ok _ _ _ _ _ _ _ O4 _ (O5 id c L) P); [|lia]. intros S. now apply O2.
  - destruct (consumers g !! id) as [c|] eqn:L; [|discriminate]. simpl in E.
    destruct (receive c) as [[c' [e w]]|] eqn:R; [|discriminate]. injection E as <-.
    destruct (receive_ok _ _ _ _ _ _ _ (O5 id c L) R) as (C & F & -> & W).
    destruct (with_consumer_ok g id c' Ok C). constructor; try assumption. simpl.
    apply Forall_app. split; [assumption|]. now repeat constructor.
  - injection E as <-. destruct (active g) eqn:A; [exact Ok| |]; (constructor; try assumption; simpl; try discriminate;
      [intros S; destruct (O2 S); congruence|]); intros id c L; refine (consumer_ok_state _ _ _ _ _ _ (O5 id c L)); discriminate.
  - destruct (_ && _) eqn:B; [|discriminate]. injection E as <-.
    apply andb_true_iff in B as [B B3]. apply andb_true_iff in B as [B1 B2]. apply bool_decide_eq_true in B1.
    apply negb_true_iff in B2. now apply stop_returns_ok.
  - destruct (_ && _) eqn:B; [|discriminate]. injection E as <-. apply andb_true_iff in B as [B1 B2].
    apply start_begin_ok; [exact Ok|exact B1|lia].
  - destruct (starting g) as [e|] eqn:S; [|discriminate]. injection E as <-. now apply try_open_ok.
  - injection E as <-. constructor; try assumption; simpl; try discriminate; try reflexivity.
    intros S. split; [|reflexivity]. now apply O2.
  - destruct (runners g !! id); [discriminate|]. injection E as <-. apply with_runners_ok; [exact Ok|].
    now apply map_Forall_insert_2.
  - destruct (runners g !! id) as [r|] eqn:L; [|discriminate]. injection E as <-. apply with_runners_ok; [exact Ok|].
    pose proof (O6 id r L) as R. destruct (run_step g r) as [r'|] eqn:P; [|now apply map_Forall_delete].
    apply map_Forall_insert_2; [|assumption]. destruct r; simpl in P.
    + injection P as <-. exact I.
    + destruct (is_open g) eqn:X; [|discriminate]. injection P as <-. apply bool_decide_eq_true in X.
      simpl. destruct (stopped g); [|reflexivity]. destruct (O2 eq_refl). congruence.
    + destruct (epoch g =? _) eqn:X; [|discriminate]. injection P as <-. simpl in *. split; [exact R|lia].
    + destruct (is_open g); [|discriminate]. injection P as <-. exact R.
  - destruct (runners g !! id) as [[]|] eqn:L; try discriminate. injection E as <-. constructor; try assumption.
    simpl. apply Forall_app. split; [assumption|]. constructor; [|constructor]. apply (O6 id _ L).
  - injection E as <-. apply with_runners_ok; [exact Ok|]. now apply map_Forall_delete.
Qed.

Lemma reachable_ok (g : Gate) : reachable g -> gate_ok g.
Proof.
  assert (forall g0 : Gate, gate_ok g0 -> rtc gate_step g0 g -> gate_ok g) as Steps.
  { intros g0 Ok R. revert Ok. induction R as [|g0 g1 g2 [a E] _ IH]; [auto|]. intros Ok. apply IH. exact (act_ok a _ _ Ok E). }
  intros [R|R]; (refine (Steps _ _ R)); constructor; simpl; try discriminate; try lia;
    try apply map_Forall_empty; try constructor; unfold u64_MAX; lia.
Qed.

End DispatchProperties.

(** ** What a lifecycle delivers *)

Section DispatchTheorems.
Context {T : Type}.
Notation Gate := (@Gate T).
Notation Consumer := (@Consumer T).

(** C12 Work never crosses a restart: however consumers, producers, interface
    churn and the lifecycle interleave, every piece of work a consumer admits
    was produced in the lifecycle it is admitted under, and every poll of a
    task bound to an epoch happens in that epoch. *)
Theorem work_never_crosses_lifecycles (g : Gate) :
  reachable g ->
  (forall e w, (e, w) ∈ log g -> produced_in w = e) /\ (forall e now, (e, now) ∈ polls g -> now = e).
Proof.
  intros R. apply reachable_ok in R as [_ _ _ _ _ _ L P _]. rewrite Forall_forall in L. rewrite Forall_forall in P.
  split; [intros e w H; symmetry; exact (L _ H)|intros e now H; symmetry; exact (P _ H)].
Qed.

(** Steps that do not start the gate again. *)
Definition quiet_step (g g' : Gate) : Prop := exists a, a <> StartBegin /\ act a g = Some g'.

Lemma quiet_one (g g' : Gate) :
  gate_ok g -> stopped g = true -> quiet_step g g' ->
  stopped g' = true /\ log g' = log g /\ polls g' = polls g.
Proof.
  intros [O1 O2 O3 O4 O5 O6 O7 O8 O9] S (a & N & E). destruct (O2 S) as [A St].
  destruct a as [id k q|id|id x|id|id| | | | | |id e|id|id|id]; simpl in E; try now destruct N.
  - destruct (consumers g !! id); [discriminate|]. destruct (_ && _); [|discriminate]. now injection E as <-.
  - destruct (consumers g !! id); [|discriminate]. now injection E as <-.
  - destruct (consumers g !! id) as [c|]; [|discriminate]. simpl in E. destruct (gone c); [discriminate|].
    now injection E as <-.
  - destruct (consumers g !! id) as [c|]; [|discriminate]. simpl in E.
    destruct (poll _ _ _ c); [|discriminate]. now injection E as <-.
  - destruct (consumers g !! id) as [c|] eqn:L; [|discriminate]. simpl in E.
    destruct (receive c) as [[c' [e w]]|] eqn:R; [|discriminate].
    destruct (receive_ok _ _ _ _ _ _ _ (O5 id c L) R) as (_ & F & _). congruence.
  - injection E as <-. now rewrite A.
  - destruct (_ && _); [|discriminate]. now injection E as <-.
  - rewrite St in E. discriminate.
  - now injection E as <-.
  - destruct (runners g !! id); [discriminate|]. now injection E as <-.
  - destruct (runners g !! id); [|discriminate]. now injection E as <-.
  - destruct (runners g !! id) as [[]|] eqn:L; try discriminate. specialize (O6 id _ L). simpl in O6.
    destruct O6. congruence.
  - now injection E as <-.
Qed.

(** A stop is acknowledged: once it has returned, no consumer admits work
    and no epoch-bound task is polled, whatever arrives and whoever subscribes
    or leaves, until the gate is started again. *)
Theorem stop_is_acknowledged (g g' : Gate) :
  reachable g -> stopped g = true -> rtc quiet_step g g' -> log g' = log g /\ polls g' = polls g.
Proof.
  intros R S St. apply reachable_ok in R. revert R S.
  induction St as [|g g1 g2 St _ IH]; [auto|]. intros Ok S.
  destruct (quiet_one _ _ Ok S St) as (S1 & L1 & P1). destruct St as (a & _ & E).
  destruct (IH (act_ok a _ _ Ok E) S1) as [L2 P2]. split; congruence.
Qed.

(** ** What a consumer has read of the state *)

Definition seen_ok (a : DispatchState) (v : nat) (c : Consumer) : Prop :=
  (seen c <= v)%nat /\
  match phase c with
  | Drain st | Ack st => kind c = Channel /\ (seen c = v -> st = a)
  | Waiting => seen c = v -> forall e, a = Preparing e -> prepared_epoch c = e
  | _ => True
  end.

Definition all_seen_ok (g : Gate) : Prop := map_Forall (fun _ c => seen_ok (active g) (version g) c) (consumers g).

Lemma poll_seen_ok a v ep c c' : seen_ok a v c -> poll a v ep c = Some c' -> seen_ok a v c'.
Proof.
  destruct c as [k p s pe q]. unfold seen_ok, poll, in_phase. simpl. intros [S P] E. destruct p; simpl in *.
  - destruct a, k; injection E as <-; simpl; auto; split; auto; try discriminate. now intros _ e0 [= <-].
  - injection E as <-. simpl. tauto.
  - injection E as <-. simpl. split; [assumption|]. intros X e ->. destruct P as [_ P]. now rewrite (P X).
  - destruct (negb (s =? v)%nat); [injection E as <-; simpl; auto|].
    destruct q, k; try discriminate; injection E as <-; simpl; auto.
  - injection E as <-. auto.
  - injection E as <-. destruct a; simpl; auto.
  - injection E as <-. simpl. auto.
  - destruct a, k; try discriminate; injection E as <-; simpl; auto.
  - injection E as <-. simpl. auto.
  - discriminate.
Qed.

Lemma seen_ok_bump a a' v c : seen_ok a v c -> seen_ok a' (S v) c.
Proof. intros [S P]. split; [lia|]. destruct (phase c); try exact I; try (split; [apply P|]); intros; lia. Qed.

Lemma act_all_seen_ok a (g g' : Gate) : all_seen_ok g -> act a g = Some g' -> all_seen_ok g'.
Proof.
  unfold all_seen_ok. intros O E.
  destruct a as [id k q|id|id x|id|id| | | | | |id e|id|id|id]; simpl in E;
    try (destruct (consumers g !! id) as [c|] eqn:L; [|discriminate]; simpl in E; pose proof (O id c L) as [C1 C2]).
  - destruct (consumers g !! id); [discriminate|]. destruct (_ && _); [|discriminate]. injection E as <-.
    apply map_Forall_insert_2; [split; [simpl; lia|exact I]|now apply consumers_gone_filter].
  - injection E as <-. apply map_Forall_insert_2; [now split|assumption].
  - destruct (gone c); [discriminate|]. injection E as <-. now apply map_Forall_insert_2.
  - destruct (poll _ _ _ c) eqn:P; [|discriminate]. injection E as <-. apply map_Forall_insert_2; [|assumption].
    refine (poll_seen_ok _ _ _ c _ _ P). now split.
  - destruct (receive c) as [[c' [e w]]|] eqn:R; [|discriminate]. injection E as <-.
    apply map_Forall_insert_2; [|assumption]. destruct c as [k p s pe q]. unfold receive in R. simpl in *.
    destruct p; try discriminate. destruct q; [discriminate|]. injection R as <- <- <-. now split.
  - injection E as <-. destruct (active g) eqn:A; [now rewrite A| |]; intros id c L; exact (seen_ok_bump _ _ _ c (O id c L)).
  - destruct (_ && _); [|discriminate]. injection E as <-. exact O.
  - destruct (_ && _); [|discriminate]. injection E as <-. intros id c L. exact (seen_ok_bump _ _ _ c (O id c L)).
  - destruct (starting g) as [e|]; [|discriminate]. injection E as <-. unfold try_open.
    destruct (all_ready _ _); simpl; [|now apply consumers_gone_filter].
    intros id c L. apply map_lookup_filter_Some in L as [L _]. exact (seen_ok_bump _ _ _ c (O id c L)).
  - injection E as <-. exact O.
  - destruct (runners g !! id); [discriminate|]. injection E as <-. exact O.
  - destruct (runners g !! id); [|discriminate]. injection E as <-. exact O.
  - destruct (runners g !! id) as [[]|]; try discriminate. injection E as <-. exact O.
  - injection E as <-. exact O.
Qed.

Lemma reachable_seen_ok (g : Gate) : reachable g -> all_seen_ok g.
Proof.
  assert (forall g0 : Gate, all_seen_ok g0 -> rtc gate_step g0 g -> all_seen_ok g) as Steps.
  { intros g0 Ok R. revert Ok. induction R as [|g0 g1 g2 [a E] _ IH]; [auto|]. intros Ok. apply IH.
    exact (act_all_seen_ok a _ _ Ok E). }
  intros [R|R]; (refine (Steps _ _ R)); apply map_Forall_empty.
Qed.

(** ** Opening *)

(** Steps of a gate that stays open and of a consumer that stays. *)
Definition open_step (id : nat) (g g' : Gate) : Prop :=
  exists a, a <> Close /\ a <> Depart id /\ act a g = Some g'.

(** The work of a socket that is still queued, or was admitted. *)
Definition kept (id : nat) (ws : list (@Work T)) (g : Gate) : Prop :=
  exists c, consumers g !! id = Some c /\ kind c = Socket /\ phase c <> Gone /\
  forall w, w ∈ ws -> w ∈ queue c \/ exists e, (e, w) ∈ log g.

Lemma open_poll_keeps v ep (c c' : Consumer) :
  kind c = Socket -> seen_ok Open v c -> poll Open v ep c = Some c' ->
  kind c' = Socket /\ phase c' <> Gone /\ queue c' = queue c.
Proof.
  destruct c as [k p s pe q]. simpl. intros -> [_ S] P. unfold poll, in_phase in P. simpl in *.
  destruct p; try discriminate; try (now destruct S); try (injection P as <-; simpl; repeat split; discriminate).
  destruct (negb (s =? v)%nat); [injection P as <-; simpl; repeat split; discriminate|].
  destruct q; [discriminate|]. injection P as <-. simpl. repeat split; discriminate.
Qed.

Lemma open_one id ws (g g' : Gate) :
  active g = Open -> starting g = None -> stopped g = false -> all_seen_ok g -> kept id ws g -> open_step id g g' ->
  active g' = Open /\ starting g' = None /\ stopped g' = false /\ kept id ws g'.
Proof.
  intros A St Sp Ok (c & L & K & N & W) (a & N1 & N2 & E).
  assert (forall g1 : Gate, active g1 = active g -> starting g1 = starting g -> stopped g1 = stopped g ->
    log g1 = log g -> consumers g1 !! id = Some c ->
    active g1 = Open /\ starting g1 = None /\ stopped g1 = false /\ kept id ws g1) as Same.
  { intros g1 H1 H2 H3 H4 H5. repeat split; try congruence. exists c. rewrite H4. auto. }
  destruct a as [i k q|i|i x|i|i| | | | | |i e|i|i|i]; simpl in E; try (now destruct N1);
    try (destruct (consumers g !! i) as [ci|] eqn:Li; [|discriminate]; simpl in E).
  - destruct (consumers g !! i) eqn:Li; [discriminate|]. destruct (_ && _); [|discriminate]. injection E as <-.
    apply Same; auto. simpl. rewrite lookup_insert_ne by congruence. apply map_lookup_filter_Some. split; [exact L|].
    simpl. unfold gone. destruct (phase c); try reflexivity. now destruct N.
  - injection E as <-. apply Same; auto. simpl. rewrite lookup_insert_ne by congruence. exact L.
  - destruct (gone ci); [discriminate|]. injection E as <-. destruct (decide (i = id)) as [->|Ne].
    + rewrite L in Li. injection Li as <-. repeat split; auto. eexists. simpl. rewrite lookup_insert_eq.
      split; [reflexivity|]. repeat split; auto. intros w Hw. simpl. rewrite elem_of_app. destruct (W w Hw); auto.
    + apply Same; auto. simpl. now rewrite lookup_insert_ne.
  - destruct (poll _ _ _ ci) as [c'|] eqn:P; [|discriminate]. injection E as <-. destruct (decide (i = id)) as [->|Ne].
    + rewrite L in Li. injection Li as <-. rewrite A in P. pose proof (Ok id c L) as So. simpl in So. rewrite A in So.
      destruct (open_poll_keeps _ _ _ _ K So P) as (K' & N' & Q').
      repeat split; auto. exists c'. simpl. rewrite lookup_insert_eq, Q'. auto.
    + apply Same; auto. simpl. now rewrite lookup_insert_ne.
  - destruct (receive ci) as [[c' ew]|] eqn:R; [|discriminate]. injection E as <-. simpl.
    repeat split; auto. destruct (decide (i = id)) as [->|Ne].
    + rewrite L in Li. injection Li as <-. exists c'. simpl. rewrite lookup_insert_eq. split; [reflexivity|].
      destruct c as [k p s pe q]. unfold receive in R. simpl in *. destruct p; try discriminate.
      destruct q as [|w0 q]; [discriminate|]. injection R as <- <-. simpl.
      split; [assumption|]. split; [discriminate|].
      intros w Hw. destruct (W w Hw) as [Hq|[e He]].
      * apply elem_of_cons in Hq as [->|Hq]; [|now left]. right. exists epoch0. rewrite elem_of_app. right.
        now apply list_elem_of_singleton.
      * right. exists e. rewrite elem_of_app. now left.
    + exists c. simpl. rewrite lookup_insert_ne by assumption. repeat split; auto. intros w Hw.
      destruct (W w Hw) as [Hq|[e He]]; [now left|]. right. exists e. rewrite elem_of_app. now left.
  - destruct (_ && _) eqn:B; [|discriminate]. rewrite A in B. discriminate.
  - rewrite Sp in E. discriminate.
  - rewrite St in E. discriminate.
  - injection E as <-. apply Same; auto.
  - destruct (runners g !! i); [discriminate|]. injection E as <-. apply Same; auto.
  - destruct (runners g !! i); [|discriminate]. injection E as <-. apply Same; auto.
  - destruct (runners g !! i) as [[]|]; try discriminate. injection E as <-. apply Same; auto.
  - injection E as <-. apply Same; auto.
Qed.

(** No drain outlives the opening: what has reached a socket of an open gate
    is not discarded by a preparation that is still on its way.  For as long as
    the gate stays open and the receive loop lives, each datagram is in the
    socket's queue or was admitted, under the epoch it was produced in. *)
Theorem opened_socket_loses_nothing id (g g' : Gate) c :
  reachable g -> active g = Open ->
  consumers g !! id = Some c -> kind c = Socket -> phase c <> Gone ->
  rtc (open_step id) g g' ->
  exists c', consumers g' !! id = Some c' /\
    forall w, w ∈ queue c -> w ∈ queue c' \/ (produced_in w, w) ∈ log g'.
Proof.
  intros R A L K N Steps.
  pose proof (reachable_ok _ R) as Ok. pose proof (reachable_seen_ok _ R) as So.
  pose proof (ok_open _ Ok A) as St.
  assert (stopped g = false) as Sp.
  { destruct (stopped g) eqn:X; [|reflexivity]. destruct (ok_stopped _ Ok X). congruence. }
  assert (kept id (queue c) g) as Kp by (exists c; auto).
  remember (queue c) as ws eqn:Ews. clear R L K N Ews. revert A St Sp Kp Ok So.
  induction Steps as [g|g g1 g2 St1 _ IH]; intros A St Sp Kp Ok So.
  - destruct Kp as (c' & L & _ & _ & W). exists c'. split; [exact L|]. intros w Hw.
    destruct (W w Hw) as [?|[e He]]; [now left|]. right. pose proof (ok_log _ Ok) as F. rewrite Forall_forall in F.
    pose proof (F _ He) as X. simpl in X. now subst e.
  - destruct (open_one id ws g g1 A St Sp So Kp St1) as (A1 & T1 & P1 & K1). destruct St1 as (a & _ & _ & E).
    apply IH; auto; [exact (act_ok a _ _ Ok E)|exact (act_all_seen_ok a _ _ So E)].
Qed.

End DispatchTheorems.

(** ** A start completes *)

Section StartCompletes.
Context {T : Type}.
Notation Gate := (@Gate T).
Notation Consumer := (@Consumer T).

Definition polls_to (a : DispatchState) (v : nat) (ep : Z) (c c' : Consumer) : Prop := poll a v ep c = Some c'.

Definition ready (e : Z) (c : Consumer) : bool := gone c || (e <=? prepared_epoch c).

Lemma polls_once a v ep (c c' c'' : Consumer) :
  poll a v ep c = Some c' -> rtc (polls_to a v ep) c' c'' -> rtc (polls_to a v ep) c c''.
Proof. intros P R. exact (rtc_l _ _ _ _ P R). Qed.

(** From the head of its loop. *)
Lemma top_prepares v e (c : Consumer) :
  phase c = Top -> exists c', rtc (polls_to (Preparing e) v e) c c' /\ ready e c' = true /\ gone c' = false.
Proof.
  destruct c as [k p s pe q]. simpl. intros ->. eexists. split.
  - destruct k.
    + do 3 (eapply polls_once; [reflexivity|]). apply rtc_refl.
    + eapply polls_once; [reflexivity|]. apply rtc_refl.
  - destruct k; simpl; unfold ready; simpl; split; try reflexivity; apply Z.leb_refl.
Qed.

(** From anywhere, whatever the consumer was doing when the start began. *)
Lemma consumer_prepares v e (c : Consumer) :
  gone c = false -> seen_ok (Preparing e) v c ->
  exists c', rtc (polls_to (Preparing e) v e) c c' /\ ready e c' = true /\ gone c' = false.
Proof.
  intros G S. assert (forall c1, phase c1 = Top -> rtc (polls_to (Preparing e) v e) c c1 ->
    exists c', rtc (polls_to (Preparing e) v e) c c' /\ ready e c' = true /\ gone c' = false) as Via.
  { intros c1 P R. destruct (top_prepares v e c1 P) as (c' & R' & Q). exists c'. split; [now transitivity c1|exact Q]. }
  assert (forall c1, phase c1 = Waiting -> seen_ok (Preparing e) v c1 -> rtc (polls_to (Preparing e) v e) c c1 ->
    exists c', rtc (polls_to (Preparing e) v e) c c' /\ ready e c' = true /\ gone c' = false) as Wait.
  { intros c1 P [S1 S2] R. rewrite P in S2. destruct (decide (seen c1 = v)) as [E|E].
    - exists c1. split; [exact R|]. unfold ready, gone. rewrite P, (S2 E e eq_refl). split; [apply Z.leb_refl|reflexivity].
    - apply (Via (in_phase Top c1)); [reflexivity|]. transitivity c1; [exact R|]. eapply polls_once; [|apply rtc_refl].
      unfold poll. rewrite P. replace (seen c1 =? v)%nat with false by (symmetry; now apply Nat.eqb_neq). reflexivity. }
  destruct (phase c) eqn:P; unfold gone in G; rewrite P in G; try discriminate.
  - apply (Via c); [exact P|apply rtc_refl].
  - assert (exists c1, phase c1 = Waiting /\ rtc (polls_to (Preparing e) v e) c c1) as (c1 & P1 & R1).
    { eexists. split; [|eapply polls_once; [unfold poll; rewrite P; reflexivity|]; eapply polls_once; [reflexivity|apply rtc_refl]].
      reflexivity. }
    apply (Wait c1); [exact P1| |exact R1]. clear -S R1.
    induction R1 as [c|c c2 c3 E _ IH]; [exact S|]. apply IH. exact (poll_seen_ok _ _ _ _ _ S E).
  - eapply Wait; [|eapply (poll_seen_ok _ v e); [exact S|unfold poll; rewrite P; reflexivity]|
                 eapply polls_once; [unfold poll; rewrite P; reflexivity|apply rtc_refl]]. reflexivity.
  - apply (Wait c); [exact P|exact S|apply rtc_refl].
  - eapply Via; [|do 2 (eapply polls_once; [unfold poll; rewrite ?P; reflexivity|]); apply rtc_refl]. reflexivity.
  - eapply Via; [|eapply polls_once; [unfold poll; rewrite ?P; reflexivity|]; apply rtc_refl]. reflexivity.
  - destruct (kind c) eqn:K;
      (eapply Via; [|do 2 (eapply polls_once; [unfold poll; rewrite ?P; simpl; rewrite ?K; reflexivity|]); apply rtc_refl];
       reflexivity).
  - destruct (kind c) eqn:K;
      (eapply Via; [|eapply polls_once; [unfold poll; rewrite ?P, ?K; reflexivity|]; apply rtc_refl]; reflexivity).
  - eapply Via; [|eapply polls_once; [unfold poll; rewrite ?P; reflexivity|]; apply rtc_refl]. reflexivity.
Qed.

(** Polls of consumers, as steps of the gate. *)
Definition poll_step (g g' : Gate) : Prop := exists id, act (Poll id) g = Some g'.

Lemma polls_lift (g : Gate) id c c' :
  consumers g !! id = Some c -> rtc (polls_to (active g) (version g) (epoch g)) c c' ->
  rtc poll_step g (with_consumer id c' g).
Proof.
  intros L R. revert L.
  assert (forall c0, rtc (polls_to (active g) (version g) (epoch g)) c0 c' ->
    rtc poll_step (with_consumer id c0 g) (with_consumer id c' g)) as Lift.
  { clear R. intros c0 R. induction R as [c0|c0 c1 c2 E _ IH]; [apply rtc_refl|]. refine (rtc_l _ _ _ _ _ IH).
    exists id. simpl. rewrite lookup_insert_eq. simpl. unfold polls_to in E. rewrite E. simpl. f_equal.
    unfold with_consumer, with_consumers. simpl. now rewrite insert_insert_eq. }
  intros L. specialize (Lift c R). replace (with_consumer id c g) with g in Lift; [exact Lift|].
  unfold with_consumer, with_consumers. rewrite insert_id by exact L. now destruct g.
Qed.

Lemma consumers_prepare e (ids : list nat) (g : Gate) :
  active g = Preparing e -> epoch g = e -> all_seen_ok g ->
  exists m, rtc poll_step g (with_consumers m g) /\
  forall id, match consumers g !! id with
             | Some c => exists c', m !! id = Some c' /\ gone c' = gone c /\
                         (id ∈ ids -> ready e c' = true) /\ (id ∉ ids -> c' = c)
             | None => m !! id = None
             end.
Proof.
  intros A Ep Ok. induction ids as [|i ids (m & R & IH)].
  - exists (consumers g). split; [destruct g; apply rtc_refl|]. intros id. destruct (consumers g !! id) as [c|]; [|reflexivity].
    exists c. repeat split. intros H. now apply elem_of_nil in H.
  - destruct (decide (i ∈ ids)) as [I|I].
    { exists m. split; [exact R|]. intros id. specialize (IH id). destruct (consumers g !! id); [|exact IH].
      destruct IH as (c' & L & G & P & Q). exists c'. rewrite elem_of_cons. repeat split; auto. intros [->|]; auto. }
    pose proof (IH i) as Hi. destruct (consumers g !! i) as [c|] eqn:L.
    + destruct Hi as (c1 & L1 & _ & _ & Q1). specialize (Q1 I). subst c1.
      destruct (gone c) eqn:G.
      * exists m. split; [exact R|]. intros id. specialize (IH id). destruct (consumers g !! id) as [c2|] eqn:L2; [|exact IH].
        destruct IH as (c' & L' & G' & P & Q). exists c'. rewrite elem_of_cons. repeat split; auto. intros [->|]; [|auto].
        rewrite L2 in L. injection L as ->. unfold ready. now rewrite G', G.
      * destruct (consumer_prepares (version g) e c G) as (c' & Rc & Rd & Gc).
        { pose proof (Ok i c L) as S. simpl in S. now rewrite A in S. }
        exists (<[i := c']> m). split.
        -- transitivity (with_consumers m g); [exact R|]. apply (polls_lift (with_consumers m g) i c c'); [exact L1|].
           simpl. now rewrite A, Ep.
        -- intros id. destruct (decide (i = id)) as [<-|Ne].
           ++ rewrite L, lookup_insert_eq. exists c'. rewrite elem_of_cons. repeat split; auto; try congruence.
              intros N. exfalso. apply N. now left.
           ++ specialize (IH id). rewrite lookup_insert_ne by exact Ne. destruct (consumers g !! id); [|exact IH].
              destruct IH as (c2 & L2 & G2 & P & Q). exists c2. rewrite elem_of_cons. repeat split; auto.
              intros [->|]; [now destruct Ne|auto].
    + exists m. split; [exact R|]. intros id. specialize (IH id). destruct (consumers g !! id) as [c2|] eqn:L2; [|exact IH].
      destruct IH as (c' & L' & G' & P & Q). exists c'. rewrite elem_of_cons. repeat split; auto. intros [->|]; [congruence|auto].
Qed.

(** A start cannot deadlock: from every reachable state in which a start is
    preparing, polls of the consumers, none of which has to leave, bring the
    gate to a state in which the next attempt opens it at the epoch of that
    start, with every consumer still subscribed. *)
Theorem start_can_complete (g : Gate) e :
  reachable g -> starting g = Some e -> active g = Preparing e ->
  exists g1 g2, rtc poll_step g g1 /\ act TryOpen g1 = Some g2 /\ active g2 = Open /\ epoch g2 = e /\
  forall id c, consumers g !! id = Some c -> phase c <> Gone -> is_Some (consumers g2 !! id).
Proof.
  intros R St A. pose proof (ok_starting _ (reachable_ok _ R) e St) as Ep.
  destruct (consumers_prepare e (map fst (map_to_list (consumers g))) g A (eq_sym Ep) (reachable_seen_ok _ R))
    as (m & Rm & Hm).
  exists (with_consumers m g), (try_open e (with_consumers m g)). split; [exact Rm|].
  assert (all_ready e (with_consumers (filter (fun x => gone (snd x) = false) m) g) = true) as Rdy.
  { unfold all_ready. apply forallb_forall. intros [id c] I. apply list_elem_of_In, elem_of_map_to_list in I. simpl in *.
    apply map_lookup_filter_Some in I as [I _]. specialize (Hm id). destruct (consumers g !! id) as [c0|] eqn:L; [|congruence].
    destruct Hm as (c' & L' & _ & P & _). rewrite I in L'. injection L' as <-. apply P.
    apply list_elem_of_In, in_map_iff. exists (id, c0). split; [reflexivity|]. now apply list_elem_of_In, elem_of_map_to_list. }
  simpl. rewrite St. split; [reflexivity|]. unfold try_open. simpl. unfold with_consumers in *. simpl in *. rewrite Rdy. simpl.
  split; [reflexivity|]. split; [now symmetry|]. intros id c L N. specialize (Hm id). rewrite L in Hm.
  destruct Hm as (c' & L' & G & _). exists c'. apply map_lookup_filter_Some. split; [exact L'|]. simpl. rewrite G.
  unfold gone. destruct (phase c); try reflexivity. now destruct N.
Qed.

End StartCompletes.
