(* ===== verification/IoContext.v ===== *)
(** The thread that runs a Link instance's work: [IoContext] of
    src/src/platform/io_context.rs, and the priority it can be given,
    [ThreadPriority] of src/src/platform/thread.rs.

    The thread runs tokio's single-threaded runtime.  Its main future waits for
    the stop signal or a command; between two polls of it the runtime polls at
    most [event_interval] tasks.  Tasks may spawn others, start work on the
    pool of blocking threads, and drop the context they run on.  A poll of a
    task and a piece of blocking work come to an end, and blocking work does
    not shut its own context down. *)

From stdpp Require Import base list numbers gmap relations.
From Stdlib Require Import ZArith Lia Relation_Operators Lexicographic_Product.
From S2P Require Import Prelude.

Section IoContext.
(** The handle of the scheduling crate, and errors of the operating system. *)
Context {RtPriorityHandle OsError : Type}.
Variable event_interval : nat.

Inductive IoError :=
| OsFailed (e : OsError)
| JoinServicePoisoned
| StartupPanicked
| ThreadStopped
| RequestCancelled.

(** ** The priority *)

(** [ThreadPriority] is what was captured; the crate answers. *)
Definition try_set_high (promote : result RtPriorityHandle OsError) (p : option RtPriorityHandle)
  : result unit IoError * option RtPriorityHandle :=
  match p with
  | Some _ => (Ok tt, p)
  | None => match promote with Ok h => (Ok tt, Some h) | Err e => (Err (OsFailed e), None) end
  end.

Definition try_reset (demote : result unit OsError) (p : option RtPriorityHandle)
  : result unit IoError * option RtPriorityHandle :=
  match p with
  | Some _ => (match demote with Ok _ => Ok tt | Err e => Err (OsFailed e) end, None)
  | None => (Ok tt, None)
  end.

(** ** State *)

(** Where the thread is: between polls, with [n] more tasks before the main
    future; in a task; in the main future, before it looks for the stop signal
    and before it looks for a command; dropping the runtime, the guard of the
    priority, and what the closure captured. *)
Inductive Pc :=
| Serving (n : nat)
| Polling (n : nat) (task : nat)
| AtStop
| AtCommand
| Dropping
| Restoring
| Closing
| Ended.

(** Who has the handle to join the thread: the context, a call of [shutdown]
    that waits ([on_thread], when the thread waits for itself), the join
    service, nobody. *)
Inductive Joiner := Owned | Joining (on_thread : bool) | Reaping | Detached | Joined.

(** What the crate was asked. *)
Inductive OsCall := Promoted (h : RtPriorityHandle) | Refused | Demoted (h : RtPriorityHandle) (done : bool).

(** [stop] is the sender the context still has; [commands] are the requests of
    [set_priority] in the channel, [replies] what each was answered, [None]
    while its caller waits. *)
Record Io := MkIo {
  pc : Pc;
  stop : bool;
  stop_sent : bool;
  thread : Joiner;
  context_dropped : bool;
  commands : list (nat * bool);
  receiver_open : bool;
  replies : gmap nat (option (result unit IoError));
  priority : option RtPriorityHandle;
  os_calls : list OsCall;
  tasks : gset nat;
  blocking : gset nat
}.

Definition Io_started : Io := MkIo (Serving event_interval) true false Owned false [] true ∅ None [] ∅ ∅.

(** [reaper]: the join service of the process, started once. *)
Definition reaper (poisoned initialized : bool) (spawned : result unit OsError) : result unit IoError * bool :=
  if poisoned then (Err JoinServicePoisoned, initialized)
  else if initialized then (Ok tt, true)
  else match spawned with Ok _ => (Ok tt, true) | Err e => (Err (OsFailed e), false) end.

(** What the thread reports before it serves; [None] when it panics. *)
Definition IoContext_new (poisoned initialized : bool) (reaper_spawned spawned : result unit OsError)
    (ready : option (result unit OsError)) : result Io IoError * bool :=
  let '(r, initialized) := reaper poisoned initialized reaper_spawned in
  (match r with
   | Err e => Err e
   | Ok _ =>
     match spawned with
     | Err e => Err (OsFailed e)
     | Ok _ =>
       match ready with
       | Some (Ok _) => Ok Io_started
       | Some (Err e) => Err (OsFailed e)
       | None => Err StartupPanicked
       end
     end
   end, initialized).

Definition with_pc (p : Pc) (s : Io) : Io :=
  MkIo p (stop s) (stop_sent s) (thread s) (context_dropped s) (commands s) (receiver_open s) (replies s) (priority s)
    (os_calls s) (tasks s) (blocking s).
Definition with_thread (t : Joiner) (s : Io) : Io :=
  MkIo (pc s) (stop s) (stop_sent s) t (context_dropped s) (commands s) (receiver_open s) (replies s) (priority s)
    (os_calls s) (tasks s) (blocking s).
Definition with_work (ts bs : gset nat) (s : Io) : Io :=
  MkIo (pc s) (stop s) (stop_sent s) (thread s) (context_dropped s) (commands s) (receiver_open s) (replies s) (priority s)
    (os_calls s) ts bs.
Definition with_commands (cs : list (nat * bool)) (rs : gmap nat (option (result unit IoError))) (s : Io) : Io :=
  MkIo (pc s) (stop s) (stop_sent s) (thread s) (context_dropped s) cs (receiver_open s) rs (priority s) (os_calls s)
    (tasks s) (blocking s).
Definition with_priority (p : option RtPriorityHandle) (c : list OsCall) (s : Io) : Io :=
  MkIo (pc s) (stop s) (stop_sent s) (thread s) (context_dropped s) (commands s) (receiver_open s) (replies s) p
    (os_calls s ++ c) (tasks s) (blocking s).

(** ** The thread *)

(** The calls behind [try_set_high] and [try_reset]. *)
Definition promote_calls (promote : result RtPriorityHandle OsError) (p : option RtPriorityHandle) : list OsCall :=
  match p, promote with
  | Some _, _ => []
  | None, Ok h => [Promoted h]
  | None, Err _ => [Refused]
  end.
Definition demote_calls (demote : result unit OsError) (p : option RtPriorityHandle) : list OsCall :=
  match p with
  | Some h => [Demoted h (match demote with Ok _ => true | Err _ => false end)]
  | None => []
  end.

Definition poll_task (t : nat) (s : Io) : Io :=
  match pc s with
  | Serving (S n) => if bool_decide (t ∈ tasks s) then with_pc (Polling n t) s else s
  | _ => s
  end.
Definition poll_ends (completed : bool) (s : Io) : Io :=
  match pc s with
  | Polling n t => with_pc (Serving n) (if completed then with_work (tasks s ∖ {[t]}) (blocking s) s else s)
  | _ => s
  end.
Definition poll_main (s : Io) : Io := match pc s with Serving _ => with_pc AtStop s | _ => s end.

(** The biased [select!]: first the stop signal, then a command. *)
Definition look_for_stop (s : Io) : Io :=
  match pc s with AtStop => with_pc (if stop_sent s then Dropping else AtCommand) s | _ => s end.
Definition serve (promote : result RtPriorityHandle OsError) (demote : result unit OsError) (s : Io) : Io :=
  match pc s with
  | AtCommand =>
      match commands s with
      | (r, high) :: cs =>
          let '(outcome, p) := if high : bool then try_set_high promote (priority s) else try_reset demote (priority s) in
          let calls := if high then promote_calls promote (priority s) else demote_calls demote (priority s) in
          with_pc AtStop (with_commands cs (<[r := Some outcome]> (replies s)) (with_priority p calls s))
      | [] => with_pc (if context_dropped s then Dropping else Serving event_interval) s
      end
  | _ => s
  end.

(** Dropping the runtime drops the tasks and waits for the blocking work. *)
Definition drop_task (t : nat) (s : Io) : Io :=
  match pc s with Dropping => with_work (tasks s ∖ {[t]}) (blocking s) s | _ => s end.
Definition blocking_ends (b : nat) (s : Io) : Io := with_work (tasks s) (blocking s ∖ {[b]}) s.
Definition runtime_dropped (s : Io) : Io :=
  match pc s with
  | Dropping => if bool_decide (tasks s = ∅ /\ blocking s = ∅) then with_pc Restoring s else s
  | _ => s
  end.

(** [PriorityGuard::drop]. *)
Definition restore (demote : result unit OsError) (s : Io) : Io :=
  match pc s with
  | Restoring => with_pc Closing (with_priority None (demote_calls demote (priority s)) s)
  | _ => s
  end.

(** The receiver goes with the requests that are still in it. *)
Definition cancel_requests (cs : list (nat * bool)) (rs : gmap nat (option (result unit IoError)))
  : gmap nat (option (result unit IoError)) :=
  foldr (fun c => <[c.1 := Some (Err RequestCancelled)]>) rs cs.
Definition close_receiver (s : Io) : Io :=
  match pc s with
  | Closing =>
      MkIo Ended (stop s) (stop_sent s) (thread s) (context_dropped s) [] false (cancel_requests (commands s) (replies s))
        (priority s) (os_calls s) (tasks s) (blocking s)
  | _ => s
  end.

(** ** Its clients *)

(** The runtime takes tasks until it is dropped; then they are cancelled. *)
Definition takes_tasks (s : Io) : bool :=
  match pc s with Serving _ | Polling _ _ | AtStop | AtCommand => true | _ => false end.
Definition spawn (t : nat) (s : Io) : Io :=
  if takes_tasks s then with_work ({[t]} ∪ tasks s) (blocking s) s else s.
Definition spawn_blocking (b : nat) (s : Io) : Io :=
  match pc s with Polling _ _ => with_work (tasks s) ({[b]} ∪ blocking s) s | _ => s end.

Definition set_priority (r : nat) (high : bool) (s : Io) : Io :=
  if receiver_open s then with_commands (commands s ++ [(r, high)]) (<[r := None]> (replies s)) s
  else with_commands (commands s) (<[r := Some (Err ThreadStopped)]> (replies s)) s.

(** Up to the join: [on_thread] says that the caller is the thread itself, in a
    task or in a destructor of one. *)
Definition shutdown (on_thread reaper_alive : bool) (s : Io) : Io :=
  MkIo (pc s) false (stop s || stop_sent s)
    (match thread s with
     | Owned => if on_thread then (if reaper_alive then Reaping else Detached) else Joining on_thread
     | t => t
     end)
    (context_dropped s) (commands s) (receiver_open s) (replies s) (priority s) (os_calls s) (tasks s) (blocking s).

(** The join returns, in [shutdown] or in the join service. *)
Definition join_returns (s : Io) : Io :=
  match thread s, pc s with
  | Joining _, Ended | Reaping, Ended => with_thread Joined s
  | _, _ => s
  end.

(** The context is gone once [shutdown] has returned. *)
Definition drop_context (s : Io) : Io :=
  match thread s with
  | Owned | Joining _ => s
  | _ => MkIo (pc s) (stop s) (stop_sent s) (thread s) true (commands s) (receiver_open s) (replies s) (priority s)
           (os_calls s) (tasks s) (blocking s)
  end.

(** ** Steps *)

Definition on_own_thread (s : Io) : Prop := match pc s with Polling _ _ | Dropping => True | _ => False end.

(** A thread that joins itself takes no step. *)
Definition runs (s : Io) : Prop := thread s <> Joining true.

(** The thread, the blocking work it waits for, and who joins it. *)
Inductive io_internal : Io -> Io -> Prop :=
| IoPoll s t n : runs s -> pc s = Serving (S n) -> t ∈ tasks s -> io_internal s (poll_task t s)
| IoPolled s n t c : runs s -> pc s = Polling n t -> io_internal s (poll_ends c s)
| IoMain s n : runs s -> pc s = Serving n -> io_internal s (poll_main s)
| IoLook s : runs s -> pc s = AtStop -> io_internal s (look_for_stop s)
| IoServe s promote demote : runs s -> pc s = AtCommand -> io_internal s (serve promote demote s)
| IoDropTask s t : runs s -> pc s = Dropping -> t ∈ tasks s -> io_internal s (drop_task t s)
| IoWaited s b : pc s = Dropping -> b ∈ blocking s -> io_internal s (blocking_ends b s)
| IoDropped s : runs s -> pc s = Dropping -> tasks s = ∅ -> blocking s = ∅ -> io_internal s (runtime_dropped s)
| IoRestore s demote : runs s -> pc s = Restoring -> io_internal s (restore demote s)
| IoClose s : runs s -> pc s = Closing -> io_internal s (close_receiver s)
| IoJoin s : pc s = Ended -> (exists b, thread s = Joining b) \/ thread s = Reaping -> io_internal s (join_returns s).

(** A request is sent through a context there is. *)
Inductive io_client : Io -> Io -> Prop :=
| IoSpawn s t : io_client s (spawn t s)
| IoSpawnBlocking s b : io_client s (spawn_blocking b s)
| IoBlocking s b : pc s <> Dropping -> io_client s (blocking_ends b s)
| IoRequest s r high : replies s !! r = None -> context_dropped s = false -> io_client s (set_priority r high s)
| IoShutdown s alive : io_client s (shutdown false alive s)
| IoShutdownInside s alive : on_own_thread s -> io_client s (shutdown true alive s)
| IoDropContext s : io_client s (drop_context s).

Definition io_step (s s' : Io) : Prop := io_internal s s' \/ io_client s s'.

End IoContext.

(** ** What the thread leaves behind *)

Section IoProperties.
Context {RtPriorityHandle OsError : Type} {OE : Inhabited OsError}.
Variable event_interval : nat.
Notation Io := (@Io RtPriorityHandle OsError).
Notation OsCall := (@OsCall RtPriorityHandle).
Notation step := (@io_step RtPriorityHandle OsError event_interval).
Notation internal := (@io_internal RtPriorityHandle OsError event_interval).
Implicit Types s : Io.

(** Every promotion but the one still held is undone, once, before the next. *)
Inductive undone : list OsCall -> option RtPriorityHandle -> Prop :=
| undone_nil : undone [] None
| undone_promoted l h : undone l None -> undone (l ++ [Promoted h]) (Some h)
| undone_refused l : undone l None -> undone (l ++ [Refused]) None
| undone_demoted l h done : undone l (Some h) -> undone (l ++ [Demoted h done]) None.

Record io_ok (s : Io) : Prop := {
  io_waiting r : replies s !! r = Some None <-> r ∈ (commands s).*1;
  io_requests : NoDup (commands s).*1;
  io_open : receiver_open s = false <-> pc s = Ended;
  io_sent : stop_sent s = negb (stop s);
  io_owned : thread s = Owned <-> stop s = true;
  io_dropped : context_dropped s = true -> stop s = false;
  io_past : match pc s with Dropping | Restoring | Closing | Ended => stop s = false | _ => True end;
  io_runs : runs s;
  io_joined : thread s = Joined -> pc s = Ended;
  io_work : match pc s with Restoring | Closing | Ended => tasks s = ∅ /\ blocking s = ∅ | _ => True end;
  io_calls : undone (os_calls s) (priority s);
  io_restored : match pc s with
                | Closing => priority s = None
                | Ended => priority s = None /\ commands s = []
                | _ => True
                end
}.

Lemma Io_started_ok : io_ok (Io_started event_interval).
Proof.
  constructor; cbn; try easy; [apply NoDup_nil_2|apply undone_nil].
Qed.

Lemma promote_undone promote p c :
  undone c p -> undone (c ++ promote_calls promote p) (try_set_high (OsError := OsError) promote p).2.
Proof. intros U. destruct p as [h|]; cbn; [now rewrite app_nil_r|]. destruct promote; cbn; auto using undone_promoted, undone_refused. Qed.

Lemma demote_undone demote p c :
  undone c p -> undone (c ++ demote_calls demote p) (try_reset (OsError := OsError) demote p).2.
Proof. intros U. destruct p as [h|]; cbn; [now apply undone_demoted|now rewrite app_nil_r]. Qed.

Lemma demote_restores demote p : (try_reset (OsError := OsError) demote p).2 = (None : option RtPriorityHandle).
Proof. now destruct p. Qed.

Lemma cancel_waiting cs (rs : gmap nat (option (result unit (@IoError OsError)))) r :
  cancel_requests cs rs !! r = if bool_decide (r ∈ cs.*1) then Some (Some (Err RequestCancelled)) else rs !! r.
Proof.
  induction cs as [|[q h] cs IH]; [reflexivity|].
  change (cancel_requests ((q, h) :: cs) rs) with (<[q := Some (Err RequestCancelled)]> (cancel_requests cs rs)).
  change (((q, h) :: cs).*1) with (q :: cs.*1). destruct (decide (r = q)) as [->|Ne].
  - rewrite lookup_insert_eq, bool_decide_true by left. reflexivity.
  - rewrite lookup_insert_ne, IH by auto. destruct (bool_decide (r ∈ cs.*1)) eqn:D.
    + apply bool_decide_eq_true in D. rewrite bool_decide_true by now right. reflexivity.
    + apply bool_decide_eq_false in D. rewrite bool_decide_false; [reflexivity|]. intros [->|H]%elem_of_cons; easy.
Qed.

(** A step that moves on and leaves the requests alone. *)
Lemma with_pc_ok p s :
  io_ok s -> pc s <> Ended -> match p with Dropping => stop s = false | Serving _ | Polling _ _ | AtStop | AtCommand => True | _ => False end ->
  io_ok (with_pc p s).
Proof.
  intros [A1 A2 A3 A4 A5 A6 A7 A0 A8 A9 A10 A11] Ne Hp. constructor; cbn; auto.
  - rewrite A3. split; [easy|]. now intros ->.
  - now destruct p.
  - intros J. now apply A8 in J.
  - now destruct p.
  - now destruct p.
Qed.

Lemma with_work_ok ts bs s :
  io_ok s -> (match pc s with Restoring | Closing | Ended => ts = ∅ /\ bs = ∅ | _ => True end) -> io_ok (with_work ts bs s).
Proof. intros [A1 A2 A3 A4 A5 A6 A7 A0 A8 A9 A10 A11] W. now constructor. Qed.

(** The first request is answered. *)
Lemma answered_ok r cs h a p c s :
  io_ok s -> commands s = (r, h) :: cs -> undone (os_calls s ++ c) p -> pc s = AtCommand ->
  io_ok (with_pc AtStop (with_commands cs (<[r := Some a]> (replies s)) (with_priority p c s))).
Proof.
  intros [A1 A2 A3 A4 A5 A6 A7 A0 A8 A9 A10 A11] C U P. rewrite C in A1, A2. cbn in A2. apply NoDup_cons in A2 as [Nr A2].
  constructor; cbn; auto.
  - intros q. destruct (decide (q = r)) as [->|Ne]; [rewrite lookup_insert_eq; split; [easy|intros X; now apply Nr in X]|].
    rewrite lookup_insert_ne, A1 by auto. cbn. rewrite elem_of_cons. split; [now intros [->|?]|auto].
  - rewrite A3, P. split; discriminate.
  - intros J. apply A8 in J. congruence.
Qed.

Lemma io_internal_ok s s' : internal s s' -> io_ok s -> io_ok s'.
Proof.
  intros St Ok. destruct St as [s t n Ru P T|s n t c Ru P|s n Ru P|s Ru P|s promote demote Ru P|s t Ru P T|s b P B|s Ru P T B|s demote Ru P|s Ru P|s P J].
  - unfold poll_task. rewrite P, bool_decide_true by exact T. apply with_pc_ok; [exact Ok|congruence|exact I].
  - unfold poll_ends. rewrite P. apply with_pc_ok; [|destruct c; cbn; congruence|exact I].
    destruct c; [apply with_work_ok; [exact Ok|now rewrite P]|exact Ok].
  - unfold poll_main. rewrite P. apply with_pc_ok; [exact Ok|congruence|exact I].
  - unfold look_for_stop. rewrite P. apply with_pc_ok; [exact Ok|congruence|]. destruct (stop_sent s) eqn:E; [|exact I].
    rewrite (io_sent s Ok) in E. now destruct (stop s).
  - unfold serve. rewrite P. destruct (commands s) as [|[r high] cs] eqn:C.
    + apply with_pc_ok; [exact Ok|congruence|]. destruct (context_dropped s) eqn:D; [|exact I]. now apply Ok.
    + pose proof (promote_undone promote _ _ (io_calls s Ok)) as U1. pose proof (demote_undone demote _ _ (io_calls s Ok)) as U2.
      destruct high; [destruct (try_set_high _ _) as [a p] in U1 |- *|destruct (try_reset _ _) as [a p] in U2 |- *].
      all: cbn in U1, U2; eapply answered_ok; eassumption.
  - unfold drop_task. rewrite P. apply with_work_ok; [exact Ok|now rewrite P].
  - unfold blocking_ends. apply with_work_ok; [exact Ok|now rewrite P].
  - unfold runtime_dropped. rewrite P, bool_decide_true by easy. destruct Ok as [A1 A2 A3 A4 A5 A6 A7 A0 A8 A9 A10 A11].
    rewrite P in A3, A7. constructor; cbn; auto; [now rewrite A3|]. intros J. apply A8 in J. congruence.
  - unfold restore. rewrite P. pose proof (demote_undone demote _ _ (io_calls s Ok)) as U. rewrite demote_restores in U.
    destruct Ok as [A1 A2 A3 A4 A5 A6 A7 A0 A8 A9 A10 A11]. rewrite P in A3, A7, A9. constructor; cbn; auto; [now rewrite A3|].
    intros J. apply A8 in J. congruence.
  - unfold close_receiver. rewrite P. destruct Ok as [A1 A2 A3 A4 A5 A6 A7 A0 A8 A9 A10 A11]. rewrite P in *. constructor; cbn; auto.
    + intros r. rewrite cancel_waiting. split; [|intros X; inversion X]. destruct (bool_decide _) eqn:D; [easy|].
      apply bool_decide_eq_false in D. now rewrite A1.
    + constructor.
    + easy.
  - unfold join_returns. destruct Ok as [A1 A2 A3 A4 A5 A6 A7 A0 A8 A9 A10 A11]. rewrite P in *.
    assert (stop s = false) as Sf by exact A7.
    destruct J as [[b J]|J]; rewrite J, ?P; constructor; cbn; rewrite ?P; auto; try discriminate; now rewrite Sf.
Qed.

Lemma io_client_ok s s' : io_client s s' -> io_ok s -> io_ok s'.
Proof.
  intros St Ok. destruct St as [s t|s b|s b P|s r high R D|s alive|s alive P|s].
  - unfold spawn, takes_tasks. destruct (pc s) eqn:P; try exact Ok; (apply with_work_ok; [exact Ok|now rewrite P]).
  - unfold spawn_blocking. destruct (pc s) eqn:P; try exact Ok. apply with_work_ok; [exact Ok|now rewrite P].
  - apply with_work_ok; [exact Ok|]. pose proof (io_work s Ok) as W. destruct (pc s); auto; destruct W as [-> ->]; split; set_solver.
  - unfold set_priority. destruct Ok as [A1 A2 A3 A4 A5 A6 A7 A0 A8 A9 A10 A11].
    assert (r ∉ (commands s).*1) as Nr by (rewrite <- A1, R; easy).
    destruct (receiver_open s) eqn:O; constructor; cbn; rewrite ?O; auto.
    + intros q. rewrite fmap_app, elem_of_app. cbn. rewrite list_elem_of_singleton, <- A1.
      destruct (decide (q = r)) as [->|Ne]; [rewrite lookup_insert_eq; split; auto|].
      rewrite lookup_insert_ne by auto. split; [auto|]. now intros [|].
    + rewrite fmap_app. cbn. apply NoDup_app. split; [exact A2|]. split; [|apply NoDup_singleton].
      intros x Hx ->%list_elem_of_singleton. easy.
    + destruct (pc s); auto. discriminate (proj2 A3 eq_refl).
    + intros q. destruct (decide (q = r)) as [->|Ne]; [rewrite lookup_insert_eq; split; [easy|intros X; now apply Nr in X]|].
      rewrite lookup_insert_ne by auto. apply A1.
  - destruct Ok as [A1 A2 A3 A4 A5 A6 A7 A0 A8 A9 A10 A11]. constructor; cbn; auto.
    + rewrite A4. now destruct (stop s).
    + destruct (thread s) eqn:T; (split; [|discriminate]); try discriminate.
    + now destruct (pc s).
    + revert A0. unfold runs. cbn. now destruct (thread s).
    + destruct (thread s) eqn:T; try discriminate. intros _. now apply A8.
  - destruct Ok as [A1 A2 A3 A4 A5 A6 A7 A0 A8 A9 A10 A11]. constructor; cbn; auto.
    + rewrite A4. now destruct (stop s).
    + destruct (thread s) eqn:T, alive; (split; [|discriminate]); try discriminate.
    + now destruct (pc s).
    + revert A0. unfold runs. cbn. now destruct (thread s), alive.
    + destruct (thread s) eqn:T, alive; try discriminate; intros _; now apply A8.
  - unfold drop_context. destruct (thread s) eqn:T; try exact Ok; destruct Ok as [A1 A2 A3 A4 A5 A6 A7 A0 A8 A9 A10 A11];
      rewrite T in A5, A8; (assert (stop s = false) as Sf by (destruct (stop s); [discriminate (proj2 A5 eq_refl)|reflexivity]));
      constructor; unfold runs; cbn; rewrite ?T; auto; discriminate.
Qed.

Lemma io_steps_ok s s' : rtc step s s' -> io_ok s -> io_ok s'.
Proof. induction 1 as [|s s1 s2 [S1|S1] _ IH]; eauto using io_internal_ok, io_client_ok. Qed.

(** An answer is final. *)
Lemma answer_kept s s' r a : step s s' -> io_ok s -> replies s !! r = Some (Some a) -> replies s' !! r = Some (Some a).
Proof.
  intros St Ok R. assert (forall q, replies s !! q = None \/ replies s !! q = Some None -> q <> r) as Ne by (intros q [E|E] ->; congruence).
  destruct St as [St|St]; destruct St; cbn; unfold poll_task, poll_ends, poll_main, look_for_stop, serve, drop_task, runtime_dropped, restore, close_receiver,
    join_returns, spawn, spawn_blocking, set_priority, drop_context;
    repeat match goal with |- context [match ?x with _ => _ end] => destruct x eqn:? end; cbn; try exact R.
  all: try (rewrite lookup_insert_ne; [exact R|]; apply Ne; auto).
  all: try (rewrite cancel_waiting; rewrite bool_decide_false; [exact R|]; rewrite <- (io_waiting _ Ok); congruence).
  all: right; apply (io_waiting _ Ok); match goal with E : commands _ = _ |- _ => rewrite E end; left.
Qed.

Lemma answers_kept s s' r a : rtc step s s' -> io_ok s -> replies s !! r = Some (Some a) -> replies s' !! r = Some (Some a).
Proof.
  induction 1 as [|s s1 s2 S1 _ IH]; auto. intros Ok R. apply IH; [|now apply (answer_kept s)].
  destruct S1; eauto using io_internal_ok, io_client_ok.
Qed.

(** C34 The thread of a Link instance leaves nothing behind.  In every state that
    the thread, its tasks and its clients can reach: whoever has joined the
    thread finds it ended; it ends only when it was told to stop, and then no
    task and no blocking work is left, its priority is what it was, every
    promotion having been undone exactly once, and every request for a priority
    is answered; and an answer once given stays. *)
Theorem io_thread_leaves_nothing s :
  rtc step (Io_started event_interval) s ->
  (thread s = Joined -> pc s = Ended) /\
  (pc s = Ended -> stop s = false /\ tasks s = ∅ /\ blocking s = ∅ /\ undone (os_calls s) None /\ forall r, replies s !! r <> Some None) /\
  (forall s' r a, rtc step s s' -> replies s !! r = Some (Some a) -> replies s' !! r = Some (Some a)).
Proof.
  intros St. pose proof (io_steps_ok _ _ St Io_started_ok) as Ok. split; [apply Ok|]. split.
  - intros E. pose proof (io_past s Ok) as Pa. pose proof (io_work s Ok) as W. pose proof (io_restored s Ok) as Re. pose proof (io_calls s Ok) as U.
    rewrite E in *. destruct Re as [Re C]. rewrite Re in U. repeat split; try apply W; auto.
    intros r. rewrite (io_waiting s Ok), C. intros X. inversion X.
  - intros s' r a St' R. now apply (answers_kept s s').
Qed.
(** ** A shutdown returns *)

(** What is left to do once the thread was told to stop. *)
Definition left_to_do (s : Io) : nat * nat :=
  match pc s with
  | AtCommand => (6, 0)
  | Polling n _ => (5, S (2 * n))
  | Serving n => (5, 2 * n)
  | AtStop => (4, 0)
  | Dropping => (3, size (tasks s) + size (blocking s))
  | Restoring => (2, 0)
  | Closing => (1, 0)
  | Ended => (0, match thread s with Joining _ | Reaping => 1 | _ => 0 end)
  end%nat.

Definition less : nat * nat -> nat * nat -> Prop := slexprod nat nat lt lt.

Lemma less_wf : well_founded less.
Proof. apply wf_slexprod; apply Nat.lt_wf_0. Qed.

Lemma size_remove (x : nat) (X : gset nat) : x ∈ X -> (size (X ∖ {[x]}) < size X)%nat.
Proof. intros H. apply subset_size. set_solver. Qed.

Lemma internal_less s s' : internal s s' -> io_ok s -> stop s = false -> less (left_to_do s') (left_to_do s).
Proof.
  intros St Ok Sf. pose proof (io_sent s Ok) as Ss. rewrite Sf in Ss. cbn in Ss.
  destruct St as [s t n Ru P T|s n t c Ru P|s n Ru P|s Ru P|s promote demote Ru P|s t Ru P T|s b P B|s Ru P T B|s demote Ru P|s Ru P|s P J]; unfold left_to_do.
  - unfold poll_task. rewrite P, bool_decide_true by exact T. cbn. apply right_slex. lia.
  - unfold poll_ends. rewrite P. cbn. apply right_slex. lia.
  - unfold poll_main. rewrite P. cbn. apply left_slex. lia.
  - unfold look_for_stop. rewrite P, Ss. cbn. apply left_slex. lia.
  - unfold serve. rewrite P. destruct (commands s) as [|[r high] cs].
    + destruct (context_dropped s); cbn; apply left_slex; lia.
    + destruct high; [destruct (try_set_high _ _)|destruct (try_reset _ _)]; cbn; apply left_slex; lia.
  - unfold drop_task. rewrite P. cbn. rewrite P. apply right_slex. pose proof (size_remove t _ T). lia.
  - unfold blocking_ends. cbn. rewrite P. apply right_slex. pose proof (size_remove b _ B). lia.
  - unfold runtime_dropped. rewrite P, bool_decide_true by easy. cbn. apply left_slex. lia.
  - unfold restore. rewrite P. cbn. apply left_slex. lia.
  - unfold close_receiver. rewrite P. cbn. apply left_slex. lia.
  - unfold join_returns. destruct J as [[b J]|J]; rewrite J, P; cbn; rewrite P; apply right_slex; lia.
Qed.

Lemma internal_stop s s' : internal s s' -> stop s' = stop s.
Proof.
  intros St; destruct St; unfold poll_task, poll_ends, poll_main, look_for_stop, serve, drop_task, runtime_dropped, restore, close_receiver,
    join_returns; repeat match goal with |- context [match ?x with _ => _ end] => destruct x end; reflexivity.
Qed.

(** Clients of a context that shuts down add nothing to it. *)
Lemma client_adds_nothing s s' : io_client s s' -> io_ok s -> stop s = false -> left_to_do s' = left_to_do s /\ stop s' = false.
Proof.
  intros St Ok Sf. pose proof (io_owned s Ok) as Ow. rewrite Sf in Ow.
  destruct St as [s t|s b|s b P|s r high R D|s alive|s alive P|s]; unfold left_to_do.
  - unfold spawn, takes_tasks. destruct (pc s) eqn:P; cbn; rewrite ?P; auto.
  - unfold spawn_blocking. destruct (pc s) eqn:P; cbn; rewrite ?P; auto.
  - unfold blocking_ends. cbn. destruct (pc s); auto. congruence.
  - unfold set_priority. destruct (receiver_open s); cbn; auto.
  - cbn. destruct (thread s); auto. discriminate (proj1 Ow eq_refl).
  - cbn. destruct (thread s); auto. discriminate (proj1 Ow eq_refl).
  - unfold drop_context. destruct (thread s) eqn:T; cbn; rewrite ?T; auto.
Qed.

Lemma clients_add_nothing s s' : rtc io_client s s' -> io_ok s -> stop s = false ->
  io_ok s' /\ left_to_do s' = left_to_do s /\ stop s' = false.
Proof.
  induction 1 as [s|s s1 s2 S1 _ IH]; intros Ok Sf; [auto|]. destruct (client_adds_nothing _ _ S1 Ok Sf) as [E Sf1].
  destruct (IH (io_client_ok _ _ S1 Ok) Sf1) as (Ok2 & E2 & Sf2). split; [exact Ok2|]. split; [congruence|exact Sf2].
Qed.

(** A turn of the thread after any number of steps of its clients. *)
Definition turn (s' s : Io) : Prop := exists m, rtc io_client s m /\ internal m s'.

Lemma turns_end s : io_ok s -> stop s = false -> Acc turn s.
Proof.
  remember (left_to_do s) as m eqn:E. revert s E. induction (less_wf m) as [m _ IH]. intros s -> Ok Sf.
  constructor. intros s' (s1 & C & I). destruct (clients_add_nothing _ _ C Ok Sf) as (Ok1 & E1 & Sf1).
  pose proof (internal_less _ _ I Ok1 Sf1) as L. rewrite E1 in L.
  eapply IH; [exact L|reflexivity|exact (io_internal_ok _ _ I Ok1)|]. now rewrite (internal_stop _ _ I).
Qed.

(** There is always a turn to take, until the thread is joined. *)
Lemma turn_or_joined s : io_ok s -> stop s = false -> (exists s', internal s s') \/ pc s = Ended /\ (thread s = Joined \/ thread s = Detached).
Proof.
  intros Wf Sf. pose proof (io_runs s Wf) as Ru. destruct (pc s) as [n|n t| | | | | |] eqn:P.
  - left. eexists. eapply IoMain; [exact Ru|exact P].
  - left. eexists. exact (IoPolled event_interval s n t true Ru P).
  - left. eexists. now apply IoLook.
  - left. eexists. exact (IoServe event_interval s (Err inhabitant) (Ok tt) Ru P).
  - destruct (decide (tasks s = ∅)) as [T|(t & T)%set_choose_L]; [|left; eexists; exact (IoDropTask event_interval s t Ru P T)].
    destruct (decide (blocking s = ∅)) as [B|(b & B)%set_choose_L]; [|left; eexists; exact (IoWaited event_interval s b P B)].
    left. eexists. now apply IoDropped.
  - left. eexists. exact (IoRestore event_interval s (Ok tt) Ru P).
  - left. eexists. now apply IoClose.
  - destruct (thread s) eqn:T; auto.
    + apply (io_owned s Wf) in T. congruence.
    + left. eexists. apply IoJoin; eauto.
    + left. eexists. apply IoJoin; eauto.
Qed.

Lemma stop_kept s s' : rtc step s s' -> io_ok s -> stop s = false -> stop s' = false.
Proof.
  induction 1 as [s|s s1 s2 S1 _ IH]; intros Ok Sf; [exact Sf|]. destruct S1 as [I|C].
  - apply IH; [exact (io_internal_ok _ _ I Ok)|]. now rewrite (internal_stop _ _ I).
  - apply IH; [exact (io_client_ok _ _ C Ok)|]. now destruct (client_adds_nothing _ _ C Ok Sf).
Qed.

(** C35 A shutdown returns, whoever calls it.  Once a shutdown has begun, on
    another thread or on the thread itself, in a task or in the destructor of
    one, the thread and whoever joins it have only finitely many steps to take,
    whatever is spawned and requested meanwhile; and they can always take one
    until the thread has ended and is joined, or, when the join service is gone,
    detached: nobody waits for himself. *)
Theorem io_shutdown_returns s :
  rtc step (Io_started event_interval) s -> stop s = false ->
  Acc turn s /\
  forall s', rtc step s s' -> (exists s'', internal s' s'') \/ pc s' = Ended /\ (thread s' = Joined \/ thread s' = Detached).
Proof.
  intros St Sf. pose proof (io_steps_ok _ _ St Io_started_ok) as Ok. split; [now apply turns_end|].
  intros s' St'. apply turn_or_joined; [exact (io_steps_ok _ _ St' Ok)|exact (stop_kept _ _ St' Ok Sf)].
Qed.
End IoProperties.
