(* ===== verification/Gateway.v ===== *)
(** The peer gateway: src/src/discovery/gateway.rs.

    The gateway keeps the deadline of every peer it hears, in a list ordered by
    deadline, and turns announcements, byebyes and missed deadlines into the
    events the observer of src/src/discovery/peers.rs handles.  One pruning
    task sleeps until the first deadline.  Instants are nanoseconds; [clock] is
    what [Instant::now] answers.  The removal or insertion and the event it
    publishes are one step, since they share the guard of the list; the
    rescheduling of the pruning task is a step of its own. *)

From stdpp Require Import base list numbers strings relations sorting gmap.
From Stdlib Require Import ZArith Lia SpecFloat.
From S2P Require Import Prelude Chrono F64 Encoding Beats Tempo Timeline GhostXForm Entries Sessions Peers.

Section Gateway.
Context `{Ch : Chrono, FD : FloatDecode}.

Definition nanos_per_sec : Z := 1000000000.
Definition secs (n : Z) : Z := n * nanos_per_sec.
Definition millis (n : Z) : Z := n * 1000000.

(** [PeerStateMessageType], with the deadline the messenger gave it. *)
Record Announcement := MkAnnouncement { message : PeerStateMessage; expires_at : option Z }.
Definition announcer (m : Announcement) : NodeId := ident (msg_node_state (message m)).

Inductive PeerEvent :=
| Observed (m : Announcement)
| SawPeer (p : PeerState)
| PeerLeft (node : NodeId)
| PeerTimedOut (node : NodeId).

(** The pruning task: about to read the first deadline, asleep until 100 ms
    after the one it read, or waiting for room to publish. *)
Inductive Worker := NoWorker | WReading | WSleeping (deadline : Z) | WReserving (deadline : Z).

Inductive Lifecycle := LOpen | LClosing | LStopped.

(** [handoff]: a committed announcement has not rescheduled the pruning yet.
    [receiver_gone]: the receiver of the events was dropped. *)
Record PeerGateway := MkGateway {
  peer_timeouts : list (Z * NodeId);
  sent : list PeerEvent;
  worker : Worker;
  handoff : bool;
  lifecycle : Lifecycle;
  receiver_gone : bool;
  clock : Z
}.

Definition PeerGateway_new (now : Z) : PeerGateway := MkGateway [] [] NoWorker false LOpen false now.

Definition with_timeouts (l : list (Z * NodeId)) (evs : list PeerEvent) (g : PeerGateway) : PeerGateway :=
  MkGateway l (sent g ++ evs) (worker g) (handoff g) (lifecycle g) (receiver_gone g) (clock g).
Definition with_worker (w : Worker) (h : bool) (g : PeerGateway) : PeerGateway :=
  MkGateway (peer_timeouts g) (sent g) w h (lifecycle g) (receiver_gone g) (clock g).
Definition with_life (l : Lifecycle) (g : PeerGateway) : PeerGateway :=
  MkGateway (peer_timeouts g) (sent g) (worker g) (handoff g) l (receiver_gone g) (clock g).
Definition at_time (now : Z) (g : PeerGateway) : PeerGateway :=
  MkGateway (peer_timeouts g) (sent g) (worker g) (handoff g) (lifecycle g) (receiver_gone g) now.

Definition knows (id : NodeId) (l : list (Z * NodeId)) : bool := existsb (fun x => bool_decide (snd x = id)) l.
(** [timeouts.retain(|(_, other)| *other != id)]. *)
Definition forget (id : NodeId) (l : list (Z * NodeId)) : list (Z * NodeId) :=
  List.filter (fun x => negb (bool_decide (snd x = id))) l.

(** Inserts at the first position whose deadline is not earlier. *)
Definition insert_timeout (x : Z * NodeId) (l : list (Z * NodeId)) : list (Z * NodeId) :=
  let p := match position (fun y => fst x <=? fst y) l with Some p => p | None => length l end in
  take p l ++ x :: drop p l.

(** ** Announcements *)

Definition announcement_deadline (m : Announcement) (now : Z) : Z :=
  match expires_at m with Some d => d | None => now + secs (msg_ttl (message m)) end.

(** The closure [publish]: whether it committed, and the gateway it leaves. *)
Definition publish (m : Announcement) (deadline : Z) (g : PeerGateway) : bool * PeerGateway :=
  let id := announcer m in
  if (0 <? msg_ttl (message m)) && (deadline <=? clock g) then (false, g)
  else if msg_ttl (message m) =? 0 then
    if knows id (peer_timeouts g)
    then (true, with_timeouts (forget id (peer_timeouts g)) [PeerLeft id] g)
    else (false, g)
  else
    let new_to := (Z.min deadline (clock g + secs 3), id) in
    (true, with_timeouts (insert_timeout new_to (forget id (peer_timeouts g)))
             [Observed (MkAnnouncement (message m) (Some deadline))] g).

(** [cancel.notify_waiters], then a fresh pruning task, which has no effect
    once the gate has left the epoch it was spawned in. *)
Definition schedule_next_pruning (g : PeerGateway) : PeerGateway :=
  with_worker (match lifecycle g with LOpen => WReading | _ => NoWorker end) false g.

(** How the wait for room to publish ends. *)
Inductive Reserve := RvInvalidated | RvExpired | RvClosed | RvSlot.

(** [on_peer_state_in_epoch]: received at [now], the slot granted at [slot_at];
    [commit_at] is the time of the commit and whether the observation was still
    the current one, or [None] when the wait for it was given up. *)
Definition on_peer_state (m : Announcement) (now : Z) (slot : Reserve) (slot_at : Z)
    (commit_at : option (Z * bool)) (g : PeerGateway) : PeerGateway :=
  let deadline := announcement_deadline m now in
  match slot with
  | RvInvalidated | RvExpired | RvClosed => g
  | RvSlot =>
    if (0 <? msg_ttl (message m)) && (deadline <=? slot_at) then g
    else match commit_at with
         | None => g
         | Some (_, false) => g
         | Some (t, true) =>
           let '(committed, g') := publish m deadline (at_time t g) in
           if committed then schedule_next_pruning g' else g'
         end
  end.

(** ** Byebyes *)

Definition find_peer (id : NodeId) (g : PeerGateway) : bool := knows id (peer_timeouts g).

(** The section of [on_byebye] under the guard. *)
Definition byebye_commit (id : NodeId) (g : PeerGateway) : PeerGateway :=
  let g := if knows id (peer_timeouts g)
           then with_timeouts (forget id (peer_timeouts g)) [PeerLeft id] g else g in
  match peer_timeouts g with [] => with_worker NoWorker (handoff g) g | _ => g end.

Definition on_byebye (id : NodeId) (slot : bool) (g : PeerGateway) : PeerGateway :=
  if negb (find_peer id g) then g else if negb slot then g else byebye_commit id g.

(** ** Pruning *)

Definition prune_margin : Z := millis 100.

Definition read_deadline (g : PeerGateway) : PeerGateway :=
  with_worker (match peer_timeouts g with [] => NoWorker | (d, _) :: _ => WSleeping d end) (handoff g) g.

(** Removal and publication, after the room to publish was granted. *)
Definition prune_first (g : PeerGateway) : PeerGateway :=
  let g := match peer_timeouts g with
           | (t, p) :: rest => if t <=? clock g then with_timeouts rest [PeerTimedOut p] g else g
           | [] => g
           end in
  with_worker WReading (handoff g) g.

(** One turn of the loop when each wait ends as soon as it can. *)
Definition prune_turn (g : PeerGateway) : PeerGateway :=
  let g := read_deadline g in
  match worker g with
  | WSleeping d => prune_first (at_time (Z.max (clock g) (d + prune_margin)) (with_worker (WReserving d) (handoff g) g))
  | _ => g
  end.

Fixpoint prune_loop (fuel : nat) (g : PeerGateway) : option PeerGateway :=
  match worker g, fuel with
  | NoWorker, _ => Some g
  | _, O => None
  | _, S fuel => prune_loop fuel (prune_turn g)
  end.

(** ** Lifecycle *)

(** Closing the gate ends the pruning task, which runs in the gate's epoch;
    [stop] then waits for the handlers and clears the list. *)
Definition gate_close (g : PeerGateway) : PeerGateway := with_life LClosing (with_worker NoWorker (handoff g) g).
Definition stop (g : PeerGateway) : PeerGateway :=
  with_life LStopped (MkGateway [] (sent g) NoWorker false (lifecycle g) (receiver_gone g) (clock g)).

Inductive gateway_step : PeerGateway -> PeerGateway -> Prop :=
| gs_tick g now : clock g <= now -> gateway_step g (at_time now g)
| gs_announce g m deadline g' :
    lifecycle g <> LStopped -> receiver_gone g = false -> handoff g = false ->
    publish m deadline g = (true, g') -> gateway_step g (with_worker (worker g') true g')
| gs_schedule g : handoff g = true -> gateway_step g (schedule_next_pruning g)
| gs_byebye g id : lifecycle g <> LStopped -> receiver_gone g = false -> gateway_step g (byebye_commit id g)
| gs_read g : worker g = WReading -> gateway_step g (read_deadline g)
| gs_wake g d : worker g = WSleeping d -> d + prune_margin <= clock g ->
    gateway_step g (with_worker (WReserving d) (handoff g) g)
| gs_prune g d : worker g = WReserving d -> receiver_gone g = false -> gateway_step g (prune_first g)
| gs_give_up g d : worker g = WReserving d -> receiver_gone g = true ->
    gateway_step g (with_worker NoWorker (handoff g) g)
| gs_receiver_gone g : gateway_step g (MkGateway (peer_timeouts g) (sent g) (worker g) (handoff g) (lifecycle g) true (clock g))
| gs_close g : lifecycle g = LOpen -> gateway_step g (gate_close g)
| gs_stop g : lifecycle g = LClosing -> handoff g = false -> gateway_step g (stop g)
| gs_start g : lifecycle g = LStopped -> gateway_step g (with_life LOpen g).

(** ** The observer's side *)

(** What [GatewayObserver]'s loop does with an event: [now1] to [now3] and
    [current] are the readings of [observed_peer]. *)
Definition observer_event (self : PeerState) (now1 now2 now3 : Z) (current : bool) (o : Observer) (ev : PeerEvent)
  : Observer :=
  match ev with
  | Observed m => observed_peer o (message m) self (announcement_deadline m now1) now1 now2 now3 current
  | SawPeer p => saw_peer o p self now1
  | PeerLeft id | PeerTimedOut id => peer_left o id
  end.

Inductive observer_handles (self : PeerState) : list PeerEvent -> Observer -> Observer -> Prop :=
| handles_nil o : observer_handles self [] o o
| handles_snoc evs ev o o' now1 now2 now3 current :
    observer_handles self evs o o' ->
    observer_handles self (evs ++ [ev]) o (observer_event self now1 now2 now3 current o' ev).

End Gateway.

(** ** The list of deadlines *)

Section GatewayProperties.
Context `{Ch : Chrono, FD : FloatDecode}.

Definition earlier (x y : Z * NodeId) : Prop := fst x <= fst y.

#[export] Instance earlier_transitive : Transitive earlier.
Proof. intros x y z. unfold earlier. lia. Qed.

Definition timeouts_ok (l : list (Z * NodeId)) : Prop := StronglySorted earlier l /\ NoDup (map snd l).

Lemma elem_of_forget id l x : x ∈ forget id l <-> x ∈ l /\ snd x <> id.
Proof.
  unfold forget. rewrite !list_elem_of_In, filter_In, negb_true_iff, bool_decide_eq_false. reflexivity.
Qed.

Lemma knows_spec id l : knows id l = true <-> id ∈ map snd l.
Proof.
  unfold knows. rewrite existsb_exists, list_elem_of_In, in_map_iff.
  split; intros (x & H1 & H2); exists x; (split; [|assumption || now apply bool_decide_eq_true]); try assumption.
  now apply bool_decide_eq_true in H2.
Qed.

Lemma StronglySorted_filter l f : StronglySorted earlier l -> StronglySorted earlier (List.filter f l).
Proof.
  induction 1 as [|x l S IH F]; simpl; [constructor|]. destruct (f x); [|exact IH]. constructor; [exact IH|].
  rewrite Forall_forall in *. intros y Hy. apply F. apply list_elem_of_In, filter_In in Hy as [Hy _].
  now apply list_elem_of_In.
Qed.

Lemma forget_ok id l : timeouts_ok l -> timeouts_ok (forget id l).
Proof.
  intros [S N]. split; [now apply StronglySorted_filter|].
  exact (sublist_NoDup _ _ N (map_filter_sublist _ _ _)).
Qed.

Lemma insert_timeout_cons x y l :
  insert_timeout x (y :: l) = if fst x <=? fst y then x :: y :: l else y :: insert_timeout x l.
Proof.
  unfold insert_timeout. simpl. destruct (fst x <=? fst y); [reflexivity|].
  destruct (position _ l); reflexivity.
Qed.

Lemma insert_timeout_perm x l : insert_timeout x l ≡ₚ x :: l.
Proof.
  unfold insert_timeout. destruct (match position _ l with Some p => p | None => length l end) as [|p] eqn:E;
    rewrite <- Permutation_middle, take_drop; reflexivity.
Qed.

Lemma insert_timeout_sorted x l : StronglySorted earlier l -> StronglySorted earlier (insert_timeout x l).
Proof.
  induction 1 as [|y l S IH F]; [repeat constructor|]. rewrite insert_timeout_cons.
  destruct (fst x <=? fst y) eqn:E.
  - constructor; [now constructor|]. constructor; [unfold earlier; lia|].
    refine (Forall_impl _ _ _ F _). intros z. unfold earlier. lia.
  - constructor; [exact IH|]. rewrite (Permutation_forall_proper _ _ _ (insert_timeout_perm x l)) || idtac.
    apply Forall_forall. intros z Hz. rewrite insert_timeout_perm in Hz. apply elem_of_cons in Hz as [->|Hz].
    + unfold earlier. lia.
    + rewrite Forall_forall in F. now apply F.
Qed.

Lemma insert_timeout_ok x l : timeouts_ok l -> snd x ∉ map snd l -> timeouts_ok (insert_timeout x l).
Proof.
  intros [S N] X. split; [now apply insert_timeout_sorted|].
  rewrite (Permutation_map snd (insert_timeout_perm x l)). simpl. now constructor.
Qed.

Lemma forget_gone id l : id ∉ map snd (forget id l).
Proof.
  rewrite list_elem_of_In, in_map_iff. intros (x & E & H). apply list_elem_of_In, elem_of_forget in H. tauto.
Qed.

(** The one entry of a peer after an accepted announcement. *)
Lemma insert_forget_spec t id l x :
  x ∈ insert_timeout (t, id) (forget id l) <-> x = (t, id) \/ (x ∈ l /\ snd x <> id).
Proof. rewrite insert_timeout_perm, elem_of_cons, elem_of_forget. reflexivity. Qed.

(** ** The gateway's invariant *)

Definition armed (w : Worker) (l : list (Z * NodeId)) : Prop :=
  match w, l with
  | NoWorker, _ => False
  | WReading, _ => True
  | WSleeping d, (t, _) :: _ | WReserving d, (t, _) :: _ => d <= t
  | _, [] => True
  end.

Record gateway_ok (g : PeerGateway) : Prop := {
  ok_timeouts : timeouts_ok (peer_timeouts g);
  ok_bound : Forall (fun x => fst x <= clock g + secs 3) (peer_timeouts g);
  ok_armed : lifecycle g = LOpen -> receiver_gone g = false -> peer_timeouts g <> [] ->
             handoff g = true \/ armed (worker g) (peer_timeouts g);
  ok_closed : lifecycle g <> LOpen -> worker g = NoWorker;
  ok_cleared : lifecycle g = LStopped -> peer_timeouts g = []
}.

Lemma forget_incl id l x : x ∈ forget id l -> x ∈ l.
Proof. rewrite elem_of_forget. tauto. Qed.

(** Dropping entries never makes the pruning task late. *)
Lemma armed_forget w id l : StronglySorted earlier l -> armed w l -> armed w (forget id l).
Proof.
  intros S A. destruct w as [| |d|d]; simpl in *; try exact A;
    (destruct (forget id l) as [|[t p] r] eqn:E; [exact I|];
     assert ((t, p) ∈ l) as H by (apply (forget_incl id); rewrite E; left);
     destruct l as [|[t0 p0] l]; [now apply elem_of_nil in H|];
     apply StronglySorted_inv in S as [_ F]; apply elem_of_cons in H as [[= -> ->]|H]; [assumption|];
     rewrite Forall_forall in F; specialize (F _ H); unfold earlier in F; simpl in F; lia).
Qed.

Lemma Forall_forget (P : Z * NodeId -> Prop) id l : Forall P l -> Forall P (forget id l).
Proof. rewrite !Forall_forall. intros H x Hx. apply H, (forget_incl id), Hx. Qed.

Lemma publish_ok m deadline g g' :
  gateway_ok g -> lifecycle g <> LStopped -> publish m deadline g = (true, g') ->
  gateway_ok (with_worker (worker g') true g').
Proof.
  intros [[S N] B A C K] L P. unfold publish in P. destruct (_ && _); [discriminate|].
  destruct (msg_ttl (message m) =? 0); [destruct (knows _ _); [|discriminate]|]; injection P as <-;
    constructor; simpl; auto; try tauto.
  - now apply forget_ok.
  - now apply Forall_forget.
  - apply insert_timeout_ok; [now apply forget_ok|apply forget_gone].
  - apply Forall_forall. intros x Hx. apply insert_forget_spec in Hx as [->|[Hx _]]; simpl; [lia|].
    rewrite Forall_forall in B. now apply B.
Qed.

Lemma byebye_ok id g : gateway_ok g -> lifecycle g <> LStopped -> gateway_ok (byebye_commit id g).
Proof.
  intros [[S N] B A C K] L. unfold byebye_commit.
  set (g1 := if knows id (peer_timeouts g) then _ else g).
  assert (gateway_ok g1) as Ok1.
  { unfold g1. destruct (knows id (peer_timeouts g)); [|now constructor]. constructor; simpl; auto; try tauto.
    - now apply forget_ok.
    - now apply Forall_forget.
    - intros O R Ne. destruct (A O R) as [?|Ar]; [|now left|right; now apply armed_forget].
      intros E. apply Ne. now rewrite E. }
  destruct (peer_timeouts g1) as [|x r] eqn:E; [|exact Ok1]. destruct Ok1 as [A1 B1 C1 D1 E1].
  constructor; simpl; auto; intros _ _ Ne; now rewrite E in Ne.
Qed.

Lemma with_worker_ok w h g :
  gateway_ok g ->
  (lifecycle g = LOpen -> receiver_gone g = false -> peer_timeouts g <> [] -> h = true \/ armed w (peer_timeouts g)) ->
  (lifecycle g <> LOpen -> w = NoWorker) -> gateway_ok (with_worker w h g).
Proof. intros [S B A C K] A' C'. now constructor. Qed.

Lemma prune_first_ok g d : gateway_ok g -> worker g = WReserving d -> gateway_ok (prune_first g).
Proof.
  intros Ok W. pose proof Ok as [[S N] B A C K].
  assert (lifecycle g = LOpen) as O.
  { destruct (lifecycle g) eqn:L; [reflexivity| |]; rewrite C in W by discriminate; discriminate. }
  assert (forall g1, gateway_ok g1 -> lifecycle g1 = LOpen -> gateway_ok (with_worker WReading (handoff g1) g1)) as Re.
  { intros g1 Ok1 L1. apply with_worker_ok; [exact Ok1|right; exact I|]. intros X. now rewrite L1 in X. }
  unfold prune_first. destruct (peer_timeouts g) as [|[t p] rest] eqn:E; [now apply Re|].
  destruct (t <=? clock g); [|now apply Re].
  apply with_worker_ok; simpl; [|right; exact I|intros X; now rewrite O in X].
  apply StronglySorted_inv in S as [S F]. simpl in N. apply NoDup_cons in N as [_ N]. apply Forall_cons in B as [_ B].
  constructor; simpl; auto; [now split| |congruence]. intros L R Ne.
  destruct (A L R ltac:(discriminate)) as [?|Ar]; [now left|]. right. rewrite W in *. simpl in *.
  destruct rest as [|[t2 p2] r]; [exact I|]. apply Forall_cons in F as [F _]. unfold earlier in F. simpl in F. lia.
Qed.

Lemma gateway_step_ok g g' : gateway_ok g -> gateway_step g g' -> gateway_ok g'.
Proof.
  intros Ok St. pose proof Ok as [[S N] B A C K].
  destruct St as [g now H|g m deadline g' L R Hh P|g Hh|g id L R|g W|g d W T|g d W R|g d W R|g|g L|g L Hh|g L].
  - constructor; simpl; auto; [now split|]. refine (Forall_impl _ _ _ B _). intros x. simpl. lia.
  - now apply (publish_ok m deadline g).
  - apply with_worker_ok; [exact Ok| |]; destruct (lifecycle g); try discriminate; try tauto. right. exact I.
  - now apply byebye_ok.
  - apply with_worker_ok; [exact Ok| |].
    + intros _ _ Ne. right. destruct (peer_timeouts g) as [|[t p] r]; [now destruct Ne|]. simpl. lia.
    + intros L. rewrite (C L) in W. discriminate.
  - apply with_worker_ok; [exact Ok| |].
    + intros O R Ne. destruct (A O R Ne) as [?|Ar]; [now left|right]. rewrite W in Ar. exact Ar.
    + intros L. rewrite (C L) in W. discriminate.
  - now apply (prune_first_ok g d).
  - apply with_worker_ok; [exact Ok|congruence|reflexivity].
  - constructor; simpl; auto; [now split|discriminate].
  - constructor; simpl; auto; try discriminate. now split.
  - constructor; simpl; auto; try discriminate. split; constructor.
  - constructor; simpl; auto; try discriminate; now split.
Qed.

(** ** What the network sees of a peer *)

(** The announcements of [p] among events. *)
Definition announced (p : NodeId) (evs : list PeerEvent) : Prop := exists m, Observed m ∈ evs /\ announcer m = p.

(** [p] is due at [t], until another announcement of it is accepted. *)
Definition due (p : NodeId) (t : Z) (g0 g : PeerGateway) : Prop :=
  exists new, sent g = sent g0 ++ new /\
  (announced p new \/
   ((forall t', (t', p) ∈ peer_timeouts g -> t' = t) /\ (PeerTimedOut p ∈ new -> t <= clock g))).

Lemma due_same p t g0 g g' :
  sent g' = sent g -> peer_timeouts g' = peer_timeouts g -> clock g <= clock g' -> due p t g0 g -> due p t g0 g'.
Proof.
  intros E1 E2 E3 (new & S & D). exists new. rewrite E1, E2. split; [exact S|]. destruct D as [?|[D1 D2]]; [now left|].
  right. split; [exact D1|]. intros H. specialize (D2 H). lia.
Qed.

(** One event more, with no entry of [p] that was not there. *)
Lemma due_event p t g0 g ev l :
  (forall t', (t', p) ∈ l -> (t', p) ∈ peer_timeouts g) ->
  (ev = PeerTimedOut p -> forall new, sent g = sent g0 ++ new ->
     (forall t', (t', p) ∈ peer_timeouts g -> t' = t) -> t <= clock g) ->
  due p t g0 g -> due p t g0 (with_timeouts l [ev] g).
Proof.
  intros L E (new & S & D). exists (new ++ [ev]). simpl. split; [now rewrite S, app_assoc|].
  destruct D as [(m & M & A)|[D1 D2]]; [left; exists m; rewrite elem_of_app; auto|].
  right. split; [intros t' H; apply D1, L, H|]. rewrite elem_of_app, list_elem_of_singleton.
  intros [H|H]; [auto|]. symmetry in H. exact (E H new S D1).
Qed.

Lemma due_step p t g0 g g' : gateway_ok g -> due p t g0 g -> gateway_step g g' -> due p t g0 g'.
Proof.
  intros Ok D St.
  destruct St as [g now H|g m deadline g' L R Hh P|g Hh|g id L R|g W|g d W T|g d W R|g d W R|g|g L|g L Hh|g L];
    try (now apply (due_same p t g0 g)).
  - unfold publish in P. destruct (_ && _); [discriminate|].
    destruct (msg_ttl (message m) =? 0); [destruct (knows _ _); [|discriminate]|]; injection P as <-.
    + apply (due_same p t g0 (with_timeouts (forget (announcer m) (peer_timeouts g)) [PeerLeft (announcer m)] g));
        try reflexivity. apply due_event; [|discriminate|exact D]. intros t' Ht. now apply forget_incl in Ht.
    + destruct D as (new & S & D). eexists (new ++ [_]). simpl. split; [rewrite S; now rewrite <- app_assoc|].
      destruct (decide (announcer m = p)) as [E|E].
      { left. eexists. rewrite elem_of_app, list_elem_of_singleton. split; [right; reflexivity|exact E]. }
      destruct D as [(m' & M & Am)|[D1 D2]]; [left; exists m'; rewrite elem_of_app; auto|]. right. split.
      * intros t' Ht. apply insert_forget_spec in Ht as [[= _ X]|[Ht _]]; [congruence|now apply D1].
      * rewrite elem_of_app, list_elem_of_singleton. intros [X|X]; [now apply D2|discriminate].
  - unfold byebye_commit. destruct (knows id (peer_timeouts g)).
    + assert (due p t g0 (with_timeouts (forget id (peer_timeouts g)) [PeerLeft id] g)) as D1.
      { apply due_event; [|discriminate|exact D]. intros t' Ht. now apply forget_incl in Ht. }
      destruct (peer_timeouts (with_timeouts _ _ g)); [|exact D1].
      now apply (due_same p t g0 (with_timeouts (forget id (peer_timeouts g)) [PeerLeft id] g)).
    + destruct (peer_timeouts g); [|exact D]. now apply (due_same p t g0 g).
  - unfold prune_first. destruct (peer_timeouts g) as [|[t1 p1] rest] eqn:E;
      [now apply (due_same p t g0 g)|]. destruct (t1 <=? clock g) eqn:C; [|now apply (due_same p t g0 g)].
    apply (due_same p t g0 (with_timeouts rest [PeerTimedOut p1] g)); try reflexivity.
    apply due_event; [| |exact D]; rewrite E.
    + intros t' Ht. now right.
    + intros [= <-] _ _ D1. rewrite <- (D1 t1 ltac:(left)). lia.
  - apply (due_same p t g0 (with_timeouts [] [] g)); try reflexivity; [simpl; now rewrite app_nil_r|].
    destruct D as (new & S & D). exists new. simpl. rewrite app_nil_r. split; [exact S|].
    destruct D as [?|[D1 D2]]; [now left|]. right. split; [|exact D2]. intros t' Ht. now apply elem_of_nil in Ht.
Qed.

(** A renewed peer is never dropped early: once an announcement of a peer is
    accepted, no timeout of that peer is published before the announcement's
    own deadline, or three seconds after it, whichever comes first, unless a
    later announcement of the peer was accepted; whatever deadlines the pruning
    task had read before. *)
Theorem renewed_peer_not_dropped_early g m deadline g1 g2 :
  gateway_ok g -> lifecycle g <> LStopped -> 0 < msg_ttl (message m) ->
  publish m deadline g = (true, g1) ->
  rtc gateway_step (with_worker (worker g1) true g1) g2 ->
  exists new, sent g2 = sent g1 ++ new /\
  (PeerTimedOut (announcer m) ∈ new -> announced (announcer m) new \/ Z.min deadline (clock g + secs 3) <= clock g2).
Proof.
  intros Ok L T P St. pose proof (publish_ok m deadline g g1 Ok L P) as Ok1.
  assert (due (announcer m) (Z.min deadline (clock g + secs 3)) g1 (with_worker (worker g1) true g1)) as D.
  { exists []. simpl. rewrite app_nil_r. split; [reflexivity|]. right. split; [|intros H; now apply elem_of_nil in H].
    unfold publish in P. destruct (_ && _); [discriminate|].
    replace (msg_ttl (message m) =? 0) with false in P by (symmetry; lia). injection P as <-. simpl.
    intros t' Ht. apply insert_forget_spec in Ht as [[= ->]|[_ X]]; [reflexivity|now destruct X]. }
  revert Ok1 D. induction St as [g3|g3 g4 g5 S _ IH]; intros Ok1 D.
  - destruct D as (new & S & D). exists new. split; [exact S|]. intros H.
    destruct D as [?|[_ D]]; [now left|right; auto].
  - apply IH; [exact (gateway_step_ok _ _ Ok1 S)|exact (due_step _ _ _ _ _ Ok1 D S)].
Qed.

End GatewayProperties.

(** ** Silence *)

Section Silence.
Context `{Ch : Chrono, FD : FloatDecode}.

Lemma rtc_steps (a b c : PeerGateway) : gateway_step a b -> rtc gateway_step b c -> rtc gateway_step a c.
Proof. apply rtc_l. Qed.

(** A turn that finds a deadline drops the peer it belongs to. *)
Lemma prune_turn_spec g t p rest :
  worker g = WReading -> receiver_gone g = false -> peer_timeouts g = (t, p) :: rest ->
  let g' := prune_turn g in
  rtc gateway_step g g' /\ peer_timeouts g' = rest /\ sent g' = sent g ++ [PeerTimedOut p] /\
  worker g' = WReading /\ clock g' = Z.max (clock g) (t + prune_margin) /\ receiver_gone g' = false.
Proof.
  intros W R E. unfold prune_turn, read_deadline. rewrite E. simpl.
  set (now := Z.max (clock g) (t + prune_margin)).
  set (g1 := with_worker (WSleeping t) (handoff g) g).
  set (g2 := at_time now g1).
  set (g3 := with_worker (WReserving t) (handoff g2) g2).
  assert (t <=? now = true) as T by (unfold now, prune_margin, millis; lia).
  split.
  - apply (rtc_steps _ g1). { unfold g1. replace (with_worker (WSleeping t) (handoff g) g) with (read_deadline g)
      by (unfold read_deadline; now rewrite E). now constructor. }
    apply (rtc_steps _ g2). { apply gs_tick. unfold now. simpl. lia. }
    apply (rtc_steps _ g3). { apply gs_wake; [reflexivity|]. simpl. unfold now. lia. }
    apply (rtc_steps _ (prune_first g3)). { now apply (gs_prune g3 t). }
    apply rtc_refl.
  - unfold prune_first. simpl. rewrite E, T. simpl. repeat split. exact R.
Qed.

Lemma prune_loop_spec l g B :
  peer_timeouts g = l -> worker g = WReading -> receiver_gone g = false ->
  Forall (fun x => fst x <= B) l ->
  exists g', prune_loop (S (length l)) g = Some g' /\ rtc gateway_step g g' /\ peer_timeouts g' = [] /\
  sent g' = sent g ++ map (fun x => PeerTimedOut (snd x)) l /\ clock g <= clock g' <= Z.max (clock g) (B + prune_margin).
Proof.
  revert g. induction l as [|[t p] rest IH]; intros g E W R F.
  - exists (read_deadline g). cbn [length prune_loop]. rewrite W. unfold prune_turn, read_deadline. rewrite E. simpl.
    split; [reflexivity|]. rewrite app_nil_r. split; [|repeat split; auto; lia].
    apply (rtc_steps _ (read_deadline g)); [now constructor|]. unfold read_deadline. rewrite E. apply rtc_refl.
  - apply Forall_cons in F as [F1 F2]. simpl in F1.
    destruct (prune_turn_spec g t p rest W R E) as (S1 & E1 & Q1 & W1 & C1 & R1).
    destruct (IH (prune_turn g) E1 W1 R1 F2) as (g' & L & S2 & E2 & Q2 & C2).
    exists g'. cbn [length prune_loop]. rewrite W. split; [exact L|]. split; [now transitivity (prune_turn g)|].
    split; [exact E2|]. split; [rewrite Q2, Q1, <- app_assoc; reflexivity|]. rewrite C1 in C2. lia.
Qed.

(** C28 Silence is noticed: with the pruning task about to read the list, no
    further announcement and room to publish, its loop ends after as many turns
    as there are peers, having reported each of them as timed out in the order
    of the deadlines; all of it within 3.1 seconds. *)
Theorem silent_peers_time_out g :
  gateway_ok g -> worker g = WReading -> receiver_gone g = false ->
  exists g', prune_loop (S (length (peer_timeouts g))) g = Some g' /\ rtc gateway_step g g' /\
  peer_timeouts g' = [] /\ sent g' = sent g ++ map (fun x => PeerTimedOut (snd x)) (peer_timeouts g) /\
  clock g <= clock g' <= clock g + millis 3100.
Proof.
  intros [_ B _ _ _] W R.
  destruct (prune_loop_spec _ g (clock g + secs 3) eq_refl W R B) as (g' & L & St & E & Q & C).
  exists g'. repeat split; try assumption; try lia. unfold prune_margin, millis, secs, nanos_per_sec in *. lia.
Qed.

(** ** The registry follows the gateway *)

Definition idents (o : Observer) : list NodeId := map peer_ident (peers (registry o)).

Lemma with_observer_peers o f : peers (registry (with_observer_state o f)) = snd (f (peers (registry o))).
Proof. unfold with_observer_state. now destruct (f (peers (registry o))). Qed.

Lemma apply_peer_idents state ps self deadline now id :
  id ∈ map peer_ident (snd (apply_peer state ps self deadline now)) -> id ∈ map peer_ident ps \/ id = state_ident state.
Proof.
  unfold apply_peer. case_bool_decide; [now left|]. destruct (expired deadline now); [now left|]. cbn [snd].
  destruct (position _ ps) as [i|] eqn:P.
  - apply position_Some in P as (x & L & F). apply bool_decide_eq_true in F.
    rewrite (map_insert_same peer_ident ps i x) by (assumption || now rewrite F). now left.
  - rewrite map_app, elem_of_app. simpl. rewrite list_elem_of_singleton. now intros [?| ->]; [left|right].
Qed.

Lemma remove_peer_idents node ps id :
  id ∈ map peer_ident (snd (remove_peer node ps)) -> id ∈ map peer_ident ps /\ id <> node.
Proof.
  rewrite (proj1 (remove_peer_spec node ps)), !list_elem_of_In, !in_map_iff. intros (x & E & I).
  apply filter_In in I as [I F]. apply negb_true_iff, bool_decide_eq_false in F. split; [eauto|congruence].
Qed.

Lemma observer_event_idents self n1 n2 n3 cur o ev id :
  id ∈ idents (observer_event self n1 n2 n3 cur o ev) ->
  match ev with
  | Observed m => id ∈ idents o \/ id = announcer m
  | SawPeer p => id ∈ idents o \/ id = state_ident p
  | PeerLeft node | PeerTimedOut node => id ∈ idents o /\ id <> node
  end.
Proof.
  unfold idents, observer_event, observed_peer, saw_peer, peer_left.
  destruct ev as [m|p|node|node]; rewrite with_observer_peers; intros H.
  - destruct (_ && _); [now left|]. destruct (negb cur); [now left|]. destruct (_ && _); [now left|].
    destruct (_ =? 0); [left; now apply remove_peer_idents in H|].
    apply apply_peer_idents in H as [?|?]; [now left|now right].
  - now apply apply_peer_idents in H.
  - now apply remove_peer_idents in H.
  - now apply remove_peer_idents in H.
Qed.

(** Handling [evs] leaves no peer without a deadline in [l]. *)
Definition no_ghosts (self : PeerState) (evs : list PeerEvent) (l : list (Z * NodeId)) : Prop :=
  forall o o', peers (registry o) = [] -> observer_handles self evs o o' ->
  forall id, id ∈ idents o' -> id ∈ map snd l.

Lemma no_ghosts_snoc self evs ev l l' :
  no_ghosts self evs l ->
  (forall id, match ev with
   | Observed m => id ∈ map snd l \/ id = announcer m
   | SawPeer p => id ∈ map snd l \/ id = state_ident p
   | PeerLeft node | PeerTimedOut node => id ∈ map snd l /\ id <> node
   end -> id ∈ map snd l') ->
  no_ghosts self (evs ++ [ev]) l'.
Proof.
  intros G H o o' E Hd id I. remember (evs ++ [ev]) as all eqn:Eq. destruct Hd as [o|evs' ev' o o1 n1 n2 n3 cur Hd].
  { now destruct evs. }
  apply app_inj_tail in Eq as [-> ->]. apply H. apply observer_event_idents in I.
  destruct ev; intuition (eauto using (G o o1 E Hd)).
Qed.

Lemma forget_idents node l id : id ∈ map snd l -> id <> node -> id ∈ map snd (forget node l).
Proof.
  rewrite !list_elem_of_In, !in_map_iff. intros (x & E & I) N. exists x. split; [exact E|].
  apply list_elem_of_In, elem_of_forget. split; [now apply list_elem_of_In|congruence].
Qed.

Lemma step_no_ghosts self g0 evs g g' :
  sent g = g0 ++ evs -> no_ghosts self evs (peer_timeouts g) -> gateway_step g g' -> lifecycle g' <> LStopped ->
  exists evs', sent g' = g0 ++ evs' /\ no_ghosts self evs' (peer_timeouts g').
Proof.
  intros S G St Up.
  destruct St as [g now H|g m deadline g' L R Hh P|g Hh|g id L R|g W|g d W T|g d W R|g d W R|g|g L|g L Hh|g L];
    try (exists evs; now split).
  - unfold publish in P. destruct (_ && _); [discriminate|].
    destruct (msg_ttl (message m) =? 0); [destruct (knows _ _); [|discriminate]|]; injection P as <-; simpl;
      eexists; (split; [rewrite S; symmetry; apply app_assoc|]);
      apply (no_ghosts_snoc _ _ _ _ _ G); intros id H.
    + destruct H as [H N]. now apply forget_idents.
    + unfold announcer in *. simpl in H. rewrite (Permutation_map snd (insert_timeout_perm _ _)). simpl.
      destruct (decide (id = ident (msg_node_state (message m)))) as [->|Ne]; [now left|].
      right. destruct H as [H|H]; [now apply forget_idents|congruence].
  - unfold byebye_commit. destruct (knows id (peer_timeouts g)).
    + exists (evs ++ [PeerLeft id]).
      assert (no_ghosts self (evs ++ [PeerLeft id]) (forget id (peer_timeouts g))) as G'.
      { apply (no_ghosts_snoc _ _ _ _ _ G). intros i [H N]. now apply forget_idents. }
      destruct (peer_timeouts (with_timeouts _ _ g)) eqn:E; simpl in *; rewrite S, app_assoc; split; auto; now rewrite E in *.
    + exists evs. destruct (peer_timeouts g) eqn:E; simpl; rewrite ?E; now split.
  - unfold prune_first. destruct (peer_timeouts g) as [|[t p] rest] eqn:E;
      [exists evs; simpl; rewrite E; now split|]. destruct (t <=? clock g); [|exists evs; simpl; rewrite E; now split].
    exists (evs ++ [PeerTimedOut p]). simpl. split; [now rewrite S, app_assoc|].
    apply (no_ghosts_snoc _ _ _ _ _ G). simpl. intros i [H N]. apply elem_of_cons in H as [?|H]; [congruence|exact H].
Qed.

(** C19 No ghost peers: within one lifecycle of the gateway, whatever it hears and
    however late, stale or reordered in time the observer's commits are, once
    the observer has handled the events published so far every peer in its
    registry still has a deadline armed in the gateway.  A peer cannot be
    registered with nothing left to remove it. *)
Theorem registered_peer_has_deadline self g0 g o o' evs :
  peer_timeouts g0 = [] -> rtc (fun a b => gateway_step a b /\ lifecycle b <> LStopped) g0 g ->
  sent g = sent g0 ++ evs -> peers (registry o) = [] -> observer_handles self evs o o' ->
  forall id, id ∈ idents o' -> exists deadline, (deadline, id) ∈ peer_timeouts g.
Proof.
  intros E0 St S Eo Hd id I.
  assert (forall a b, rtc (fun x y => gateway_step x y /\ lifecycle y <> LStopped) a b ->
    (exists e, sent a = sent g0 ++ e /\ no_ghosts self e (peer_timeouts a)) ->
    exists e, sent b = sent g0 ++ e /\ no_ghosts self e (peer_timeouts b)) as Ind.
  { clear -FD. intros a b R. induction R as [a|a a1 b [R1 U] _ IH]; [auto|]. intros (e & Se & Ge). apply IH.
    exact (step_no_ghosts self (sent g0) e a a1 Se Ge R1 U). }
  destruct (Ind g0 g St) as (e & Se & G).
  { exists []. rewrite app_nil_r. split; [reflexivity|]. intros o1 o2 E1 H1 i Hi.
    remember (@nil PeerEvent) as n eqn:En. destruct H1 as [o1|evs1 ev1 o1 o3 n1 n2 n3 cur H1]; [|now destruct evs1].
    unfold idents in Hi. rewrite E1 in Hi. now apply elem_of_nil in Hi. }
  rewrite S in Se. apply app_inv_head in Se as ->.
  specialize (G o o' Eo Hd id I). rewrite list_elem_of_In, in_map_iff in G. destruct G as ([t i] & <- & H).
  exists t. now apply list_elem_of_In.
Qed.

End Silence.

(** ** The handlers, as steps *)

Section Handlers.
Context `{Ch : Chrono, FD : FloatDecode}.

Lemma gateway_new_ok now : gateway_ok (PeerGateway_new now).
Proof. constructor; simpl; auto; try discriminate; repeat constructor. Qed.

(** Handling an announcement from start to end is a run of the gateway. *)
Lemma on_peer_state_steps m now slot slot_at commit_at g :
  lifecycle g <> LStopped -> receiver_gone g = false -> handoff g = false ->
  (forall t c, commit_at = Some (t, c) -> clock g <= t) ->
  rtc gateway_step g (on_peer_state m now slot slot_at commit_at g).
Proof.
  intros L R H C. unfold on_peer_state. destruct slot; try apply rtc_refl.
  destruct (_ && _); [apply rtc_refl|]. destruct commit_at as [[t [|]]|]; try apply rtc_refl.
  specialize (C t true eq_refl). destruct (publish m _ (at_time t g)) as [[|] g'] eqn:P.
  - apply (rtc_steps _ (at_time t g)); [now constructor|].
    apply (rtc_steps _ (with_worker (worker g') true g')); [now apply (gs_announce (at_time t g) m (announcement_deadline m now) g')|].
    apply (rtc_steps _ (schedule_next_pruning (with_worker (worker g') true g'))); [now constructor|]. apply rtc_refl.
  - assert (g' = at_time t g) as ->.
    { unfold publish in P. destruct (_ && _); [congruence|]. destruct (_ =? 0); [|discriminate].
      destruct (knows _ _); [discriminate|congruence]. }
    apply (rtc_steps _ (at_time t g)); [now constructor|]. apply rtc_refl.
Qed.

Lemma on_byebye_steps id slot g :
  lifecycle g <> LStopped -> receiver_gone g = false -> rtc gateway_step g (on_byebye id slot g).
Proof.
  intros L R. unfold on_byebye. destruct (negb _); [apply rtc_refl|]. destruct (negb slot); [apply rtc_refl|].
  apply (rtc_steps _ (byebye_commit id g)); [now constructor|apply rtc_refl].
Qed.

(** What handling leaves: the announcer is known until its deadline or for
    three seconds, a withdrawal or a byebye makes it unknown, and every other
    peer keeps its deadline. *)
Lemma on_peer_state_entries m now slot_at t g p d :
  gateway_ok g -> (msg_ttl (message m) = 0 \/ (0 < msg_ttl (message m) /\ slot_at < announcement_deadline m now /\
                                               t < announcement_deadline m now)) ->
  (d, p) ∈ peer_timeouts (on_peer_state m now RvSlot slot_at (Some (t, true)) g) <->
  if bool_decide (p = announcer m)
  then 0 < msg_ttl (message m) /\ d = Z.min (announcement_deadline m now) (t + secs 3)
  else (d, p) ∈ peer_timeouts g.
Proof.
  intros Ok H. unfold on_peer_state.
  assert ((0 <? msg_ttl (message m)) && (announcement_deadline m now <=? slot_at) = false) as -> by lia.
  unfold publish. cbn [clock at_time].
  assert ((0 <? msg_ttl (message m)) && (announcement_deadline m now <=? t) = false) as -> by lia.
  destruct (msg_ttl (message m) =? 0) eqn:T.
  - simpl. destruct (knows (announcer m) (peer_timeouts g)) eqn:K; simpl.
    + rewrite elem_of_forget. simpl. case_bool_decide; [intuition lia|tauto].
    + case_bool_decide as E; [|reflexivity]. subst p. split; [|lia]. intros X.
      rewrite <- not_true_iff_false, knows_spec in K. exfalso. apply K. apply list_elem_of_In, in_map_iff.
      exists (d, announcer m). split; [reflexivity|]. now apply list_elem_of_In.
  - simpl. rewrite insert_forget_spec. simpl. case_bool_decide as E.
    + subst p. split; [intros [[= ->]|[_ X]]; [lia|congruence]|]. intros [_ ->]. now left.
    + split; [intros [[= _ X]|[X _]]; [congruence|exact X]|]. intros X. right. now split.
Qed.

End Handlers.
