(* ===== verification/AudioQueue.v ===== *)
(** The slot queue of Link Audio: src/src/link_audio/queue.rs.

    A fixed pool of buffers travels between one writer and one reader through
    two bounded channels of tokio.  The channels are a dependency and hence a
    parameter: [Mpsc] lists the operations used and [MpscLaws] their documented
    behaviour while both halves are alive.

    The writer and the reader run on different threads.  [slot_step] lets
    every access to a channel or to the shared epoch be a step of its own;
    [SpecQueue] is the queue an application sees, and [queue_refines] shows
    that every run of the first is a run of the second. *)

From stdpp Require Import base list numbers relations.
From Stdlib Require Import ZArith Lia.
From S2P Require Import Prelude.

(** ** Bounded channels *)

Class Mpsc := {
  Chan : Type -> Type;
  channel {A} : nat -> Chan A;
  try_send {A} : A -> Chan A -> bool * Chan A;
  try_recv {A} : Chan A -> option A * Chan A
}.

Class MpscLaws (M : Mpsc) := {
  queued {A} : Chan A -> list A;
  capacity {A} : Chan A -> nat;
  queued_channel A n : (0 < n)%nat -> queued (channel (A := A) n) = [];
  capacity_channel A n : (0 < n)%nat -> capacity (channel (A := A) n) = n;
  try_send_room A (a : A) c : (length (queued c) < capacity c)%nat ->
    fst (try_send a c) = true /\ queued (snd (try_send a c)) = queued c ++ [a] /\
    capacity (snd (try_send a c)) = capacity c;
  try_recv_cons A (a : A) l c : queued c = a :: l ->
    fst (try_recv c) = Some a /\ queued (snd (try_recv c)) = l /\
    capacity (snd (try_recv c)) = capacity c;
  try_recv_nil A (c : Chan A) : queued c = [] ->
    fst (try_recv c) = None /\ queued (snd (try_recv c)) = [] /\
    capacity (snd (try_recv c)) = capacity c
}.

(** A channel as its capacity and its messages in order. *)
Definition mpsc_ref : Mpsc := {|
  Chan A := (nat * list A)%type;
  channel _ n := (n, []);
  try_send _ a c := if (length c.2 <? c.1)%nat then (true, (c.1, c.2 ++ [a])) else (false, c);
  try_recv _ c := match c.2 with [] => (None, c) | a :: l => (Some a, (c.1, l)) end
|}.

#[global] Instance mpsc_ref_laws : MpscLaws mpsc_ref.
Proof.
  refine {| queued A (c : @Chan mpsc_ref A) := c.2; capacity A (c : @Chan mpsc_ref A) := c.1 |}.
  - reflexivity.
  - reflexivity.
  - intros A a [n l] H. simpl in *. destruct (Nat.ltb_spec (length l) n); [repeat split|lia].
  - intros A a l [n l'] H. simpl in *. now subst.
  - intros A [n l] H. simpl in *. now subst.
Defined.

Definition wrap_u64 (z : Z) : Z := z mod 2 ^ 64.

(** ** The two halves *)

Section Queue.
Context `{M : Mpsc} {T : Type}.

(** [epoch], [free] and [filled] are shared: each channel is one value held by
    a sender of one half and a receiver of the other. *)
Record SlotQueue := MkSlots {
  free : Chan T;
  filled : Chan (Z * T);
  epoch : Z;
  num_slots : nat;
  writer_current : option T;
  current_epoch : Z;
  reader_current : option T
}.

Definition with_free (c : Chan T) (q : SlotQueue) : SlotQueue :=
  MkSlots c (filled q) (epoch q) (num_slots q) (writer_current q) (current_epoch q) (reader_current q).
Definition with_filled (c : Chan (Z * T)) (q : SlotQueue) : SlotQueue :=
  MkSlots (free q) c (epoch q) (num_slots q) (writer_current q) (current_epoch q) (reader_current q).
Definition with_epoch (e : Z) (q : SlotQueue) : SlotQueue :=
  MkSlots (free q) (filled q) e (num_slots q) (writer_current q) (current_epoch q) (reader_current q).
Definition with_writer (w : option T) (e : Z) (q : SlotQueue) : SlotQueue :=
  MkSlots (free q) (filled q) (epoch q) (num_slots q) w e (reader_current q).
Definition with_reader (r : option T) (q : SlotQueue) : SlotQueue :=
  MkSlots (free q) (filled q) (epoch q) (num_slots q) (writer_current q) (current_epoch q) r.

(** [let _ = self.free_tx.try_send(slot)] *)
Definition recycle (slot : T) (q : SlotQueue) : SlotQueue :=
  with_free (snd (try_send slot (free q))) q.

Fixpoint preallocate (n : nat) (value : T) (c : Chan T) : Chan T :=
  match n with
  | O => c
  | S n => preallocate n value (snd (try_send value c))
  end.

Definition queue (slots : nat) (value : T) : SlotQueue :=
  let slots := Nat.max slots 1 in
  MkSlots (preallocate slots value (channel slots)) (channel slots) 0 slots None 0 None.

(** [Writer::retain_slot]: the epoch is read before the slot is taken. *)
Definition Writer_take (e : Z) (q : SlotQueue) : bool * SlotQueue :=
  match try_recv (free q) with
  | (Some slot, c) => (true, with_writer (Some slot) e (with_free c q))
  | (None, c) => (false, with_free c q)
  end.

Definition Writer_retain_slot (q : SlotQueue) : bool * SlotQueue :=
  match writer_current q with
  | Some _ => (false, q)
  | None => Writer_take (epoch q) q
  end.

Definition Writer_release_slot (q : SlotQueue) : SlotQueue :=
  match writer_current q with
  | Some slot =>
      with_writer None (current_epoch q)
        (with_filled (snd (try_send (current_epoch q, slot) (filled q))) q)
  | None => q
  end.

Definition Writer_slot_mut (q : SlotQueue) : option T := writer_current q.
Definition Writer_num_retained_slots (q : SlotQueue) : nat := if writer_current q then 1 else 0.

(** What is written through [slot_mut]. *)
Definition Writer_write (v : T) (q : SlotQueue) : SlotQueue :=
  match writer_current q with
  | Some _ => with_writer (Some v) (current_epoch q) q
  | None => q
  end.

(** One round of the loop of [Reader::retain_slot], up to the recycling of a
    slot that was discarded: delivered, discarded or nothing there. *)
Inductive Poll := Delivered_slot (slot : T) | Stale_slot (slot : T) | No_slot.

Definition Reader_poll (q : SlotQueue) : Poll * SlotQueue :=
  match try_recv (filled q) with
  | (Some (e, slot), c) =>
      if e =? epoch q then (Delivered_slot slot, with_reader (Some slot) (with_filled c q))
      else (Stale_slot slot, with_filled c q)
  | (None, c) => (No_slot, with_filled c q)
  end.

Fixpoint Reader_retain_loop (n : nat) (q : SlotQueue) : bool * SlotQueue :=
  match n with
  | O => (false, q)
  | S n =>
      match Reader_poll q with
      | (Delivered_slot _, q) => (true, q)
      | (Stale_slot slot, q) => Reader_retain_loop n (recycle slot q)
      | (No_slot, q) => (false, q)
      end
  end.

Definition Reader_retain_slot (q : SlotQueue) : bool * SlotQueue :=
  match reader_current q with
  | Some _ => (false, q)
  | None => Reader_retain_loop (num_slots q) q
  end.

Definition Reader_release_slot (q : SlotQueue) : SlotQueue :=
  match reader_current q with
  | Some slot => recycle slot (with_reader None q)
  | None => q
  end.

Definition Reader_slot_mut (q : SlotQueue) : option T := reader_current q.
Definition Reader_num_retained_slots (q : SlotQueue) : nat := if reader_current q then 1 else 0.

Fixpoint discard_loop (n : nat) (q : SlotQueue) : SlotQueue :=
  match n with
  | O => q
  | S n =>
      match try_recv (filled q) with
      | (Some (_, slot), c) => discard_loop n (recycle slot (with_filled c q))
      | (None, c) => with_filled c q
      end
  end.

Definition discard_pending (q : SlotQueue) : SlotQueue :=
  let q := with_epoch (wrap_u64 (epoch q + 1)) q in
  let q := Reader_release_slot q in
  discard_loop (num_slots q) q.

End Queue.
Arguments SlotQueue {M} T.

(** ** Two threads *)

Section Threads.
Context `{M : Mpsc} {T : Type}.

(** Where a thread is between two accesses.  The reader is the only thread
    that changes the epoch, so comparing a slot's epoch belongs to the step
    that received the slot. *)
Inductive WriterPc := WReady | WLoaded (e : Z).
Inductive ReaderPc :=
| RReady
| RPolling (rounds : nat)
| RReturning (slot : T) (rounds : nat)
| RDiscarding
| RDraining (rounds : nat)
| RRecycling (slot : T) (rounds : nat).

Record Threads := MkThreads { slots : SlotQueue T; wpc : WriterPc; rpc : ReaderPc }.

(** A call that retains a slot for the writer is seen to begin, when it reads the
    epoch, and to end, with or without a slot. *)
Inductive Event :=
| RetainBegin | Retained (got : bool) | Released (v : T) | Delivered (v : T) | DiscardBegin | DiscardEnd.

Definition poll_result (rounds : nat) (s : Threads) : option Event * Threads :=
  match Reader_poll (slots s) with
  | (Delivered_slot v, q) => (Some (Delivered v), MkThreads q (wpc s) RReady)
  | (Stale_slot v, q) => (None, MkThreads q (wpc s) (RReturning v rounds))
  | (No_slot, q) => (None, MkThreads q (wpc s) RReady)
  end.

Definition drain_result (rounds : nat) (s : Threads) : option Event * Threads :=
  match try_recv (filled (slots s)) with
  | (Some (_, v), c) => (None, MkThreads (with_filled c (slots s)) (wpc s) (RRecycling v rounds))
  | (None, c) => (Some DiscardEnd, MkThreads (with_filled c (slots s)) (wpc s) RReady)
  end.

Inductive slot_step : Threads -> option Event -> Threads -> Prop :=
| w_load s : wpc s = WReady -> writer_current (slots s) = None ->
    slot_step s (Some RetainBegin) (MkThreads (slots s) (WLoaded (epoch (slots s))) (rpc s))
| w_take s e : wpc s = WLoaded e ->
    slot_step s (Some (Retained (fst (Writer_take e (slots s))))) (MkThreads (snd (Writer_take e (slots s))) WReady (rpc s))
| w_write s v : wpc s = WReady ->
    slot_step s None (MkThreads (Writer_write v (slots s)) WReady (rpc s))
| w_release s v : wpc s = WReady -> writer_current (slots s) = Some v ->
    slot_step s (Some (Released v)) (MkThreads (Writer_release_slot (slots s)) WReady (rpc s))
| r_retain s : rpc s = RReady -> reader_current (slots s) = None ->
    slot_step s None (MkThreads (slots s) (wpc s) (RPolling (num_slots (slots s))))
| r_poll s n : rpc s = RPolling (S n) ->
    slot_step s (fst (poll_result n s)) (snd (poll_result n s))
| r_poll_end s : rpc s = RPolling 0 -> slot_step s None (MkThreads (slots s) (wpc s) RReady)
| r_return s v n : rpc s = RReturning v n ->
    slot_step s None (MkThreads (recycle v (slots s)) (wpc s) (RPolling n))
| r_release s : rpc s = RReady ->
    slot_step s None (MkThreads (Reader_release_slot (slots s)) (wpc s) RReady)
| r_discard s : rpc s = RReady ->
    slot_step s (Some DiscardBegin)
      (MkThreads (with_epoch (wrap_u64 (epoch (slots s) + 1)) (slots s)) (wpc s) RDiscarding)
| r_discard_release s : rpc s = RDiscarding ->
    slot_step s None
      (MkThreads (Reader_release_slot (slots s)) (wpc s) (RDraining (num_slots (slots s))))
| r_drain s n : rpc s = RDraining (S n) -> slot_step s (fst (drain_result n s)) (snd (drain_result n s))
| r_drain_end s : rpc s = RDraining 0 ->
    slot_step s (Some DiscardEnd) (MkThreads (slots s) (wpc s) RReady)
| r_recycle s v n : rpc s = RRecycling v n ->
    slot_step s None (MkThreads (recycle v (slots s)) (wpc s) (RDraining n)).

(** The events of a run, the first one first. *)
Inductive queue_run : Threads -> list Event -> Threads -> Prop :=
| run_refl s : queue_run s [] s
| run_step s tr s' ev s'' :
    queue_run s tr s' -> slot_step s' ev s'' -> queue_run s (tr ++ option_list ev) s''.

(** ** The queue an application sees

    Values wait in order.  A discard empties the queue and makes the slot the
    writer may hold, or is about to get, worthless: releasing it adds nothing.
    Only a call to retain a slot that begins after the discard gets one that
    counts.  Until the discard ends, values released meanwhile may be dropped,
    oldest first. *)
Inductive SpecWriter := SIdle | SRetaining (counts : bool) | SHolding (counts : bool).

Definition worthless (w : SpecWriter) : SpecWriter :=
  match w with SIdle => SIdle | SRetaining _ => SRetaining false | SHolding _ => SHolding false end.

Record SpecQueue := MkSpec { waiting : list T; spec_writer : SpecWriter; discarding : bool }.

Inductive spec_step : SpecQueue -> option Event -> SpecQueue -> Prop :=
| spec_retain q : spec_writer q = SIdle ->
    spec_step q (Some RetainBegin) (MkSpec (waiting q) (SRetaining true) (discarding q))
| spec_retained q c got : spec_writer q = SRetaining c ->
    spec_step q (Some (Retained got)) (MkSpec (waiting q) (if got then SHolding c else SIdle) (discarding q))
| spec_release q c v : spec_writer q = SHolding c ->
    spec_step q (Some (Released v))
      (MkSpec (if c then waiting q ++ [v] else waiting q) SIdle (discarding q))
| spec_deliver q v l : discarding q = false -> waiting q = v :: l ->
    spec_step q (Some (Delivered v)) (MkSpec l (spec_writer q) (discarding q))
| spec_discard q : discarding q = false -> spec_step q (Some DiscardBegin) (MkSpec [] (worthless (spec_writer q)) true)
| spec_drop q v l : discarding q = true -> waiting q = v :: l ->
    spec_step q None (MkSpec l (spec_writer q) true)
| spec_discarded q : discarding q = true -> spec_step q (Some DiscardEnd) (MkSpec (waiting q) (spec_writer q) false)
| spec_idle q : spec_step q None q.

Inductive spec_run : SpecQueue -> list Event -> SpecQueue -> Prop :=
| spec_refl q : spec_run q [] q
| spec_more q tr q' ev q'' :
    spec_run q tr q' -> spec_step q' ev q'' -> spec_run q (tr ++ option_list ev) q''.

Definition discards (tr : list Event) : Z :=
  Z.of_nat (length (List.filter (fun e => match e with DiscardBegin => true | _ => false end) tr)).

End Threads.

Section QueueProperties.
Context `{ML : MpscLaws} {T : Type}.
Implicit Types (q : SlotQueue T) (s : Threads (T := T)).

(** Slots neither channel holds because the reader is moving them. *)
Definition in_hand (r : ReaderPc (T := T)) : nat :=
  match r with RReturning _ _ | RRecycling _ _ => 1 | _ => 0 end.

Definition slot_count s : nat :=
  (length (queued (free (slots s))) + length (queued (filled (slots s)))
   + Writer_num_retained_slots (slots s) + Reader_num_retained_slots (slots s) + in_hand (rpc s))%nat.

Definition slots_ok s : Prop :=
  slot_count s = num_slots (slots s) /\
  capacity (free (slots s)) = num_slots (slots s) /\
  capacity (filled (slots s)) = num_slots (slots s) /\
  (match rpc s with RReady => True | RDiscarding => True | _ => reader_current (slots s) = None end) /\
  (match wpc s with WReady => True | WLoaded _ => writer_current (slots s) = None end).

(** The values that are waiting and have not been discarded. *)
Definition fresh q : list T := snd <$> List.filter (fun x => fst x =? epoch q) (queued (filled q)).

(** The epoch the writer has read, for the slot it holds or is about to get. *)
Definition writer_epoch s : option Z :=
  match wpc s with
  | WLoaded e => Some e
  | WReady => if writer_current (slots s) then Some (current_epoch (slots s)) else None
  end.

Definition writer_view s : SpecWriter :=
  match wpc s with
  | WLoaded e => SRetaining (e =? epoch (slots s))
  | WReady => if writer_current (slots s) then SHolding (current_epoch (slots s) =? epoch (slots s)) else SIdle
  end.

Definition in_discard (r : ReaderPc (T := T)) : bool :=
  match r with RDiscarding | RDraining _ | RRecycling _ _ => true | _ => false end.

Definition refines (n : Z) s (a : SpecQueue (T := T)) : Prop :=
  waiting a = fresh (slots s) /\
  spec_writer a = writer_view s /\ (forall e, writer_epoch s = Some e -> e <= epoch (slots s)) /\
  Forall (fun x => fst x <= epoch (slots s)) (queued (filled (slots s))) /\
  epoch (slots s) = n /\ discarding a = in_discard (rpc s).

Lemma try_recv_cases {A} (c : Chan A) :
  exists c', capacity c' = capacity c /\
  ((queued c = [] /\ queued c' = [] /\ try_recv c = (None, c')) \/
   (exists a l, queued c = a :: l /\ queued c' = l /\ try_recv c = (Some a, c'))).
Proof.
  exists (snd (try_recv c)). destruct (queued c) as [|a l] eqn:E.
  - destruct (try_recv_nil _ _ E) as (E1 & E2 & E3). split; [exact E3|left].
    repeat split; [exact E2|]. now destruct (try_recv c); simpl in *; subst.
  - destruct (try_recv_cons _ _ _ _ E) as (E1 & E2 & E3). split; [exact E3|right].
    exists a, l. repeat split; [exact E2|]. now destruct (try_recv c); simpl in *; subst.
Qed.

Lemma try_send_cases {A} (a : A) (c : Chan A) :
  (length (queued c) < capacity c)%nat ->
  exists c', snd (try_send a c) = c' /\ queued c' = queued c ++ [a] /\ capacity c' = capacity c.
Proof. intros H. eexists. split; [reflexivity|]. now destruct (try_send_room _ a c H) as (_ & ? & ?). Qed.

Ltac sends :=
  match goal with
  | |- context [snd (try_send ?a ?c)] =>
      let c' := fresh "c" in let E := fresh "E" in let L := fresh "L" in let K := fresh "K" in
      destruct (try_send_cases a c) as (c' & E & L & K); [simpl in *; lia|rewrite E in *; clear E]
  end.

Ltac receives :=
  match goal with
  | |- context [try_recv ?c] =>
      let c' := fresh "c" in let K := fresh "K" in
      let a := fresh "x" in let l := fresh "l" in
      let Q := fresh "Q" in let Q' := fresh "Q" in let E := fresh "E" in
      destruct (try_recv_cases c) as (c' & K & [(Q & Q' & E)|(a & l & Q & Q' & E)]); rewrite E in *; clear E
  end.

(** Unfolds an operation of the queue to its channel accesses. *)
Ltac open_ops :=
  unfold poll_result, drain_result, Writer_take, Writer_release_slot, Writer_write, Reader_release_slot,
    Reader_poll, recycle, slots_ok, slot_count, Writer_num_retained_slots, Reader_num_retained_slots,
    with_free, with_filled, with_epoch, with_writer, with_reader in *.

Lemma slots_ok_step s ev s' : slots_ok s -> slot_step s ev s' -> slots_ok s'.
Proof.
  intros Hok Hs. destruct Hs as [[q w r] E1 E2|[q w r] e E1|[q w r] v E1|[q w r] v E1 E2|[q w r] E1 E2
    |[q w r] n E1|[q w r] E1|[q w r] v n E1|[q w r] E1|[q w r] E1|[q w r] E1|[q w r] n E1|[q w r] E1|[q w r] v n E1];
    simpl in *; subst; destruct q as [fr fi ep ns wc ce rc]; open_ops; simpl in *.
  all: destruct Hok as (N & C1 & C2 & R & W); try subst wc; try subst rc; simpl in *.
  all: repeat (receives; simpl in * ); try (destruct x as [e' x]; simpl in *; destruct (e' =? ep); simpl in * ).
  all: try destruct wc; try destruct rc; simpl in *; try discriminate.
  all: repeat (sends; simpl in * ).
  all: repeat match goal with H : queued _ = _ |- _ => rewrite H in *; clear H end.
  all: rewrite ?length_app in *; simpl in *; repeat split; try reflexivity; try assumption; try lia; auto.
Qed.

Lemma discards_app tr tr' : discards (T := T) (tr ++ tr') = discards tr + discards tr'.
Proof. unfold discards. rewrite List.filter_app, length_app. lia. Qed.

Lemma discards_nonneg tr : 0 <= discards (T := T) tr.
Proof. unfold discards. lia. Qed.

(** Nothing that waits was taken after a discard that has yet to come. *)
Lemma fresh_next (l : list (Z * T)) e :
  Forall (fun x => fst x <= e) l -> List.filter (fun x => fst x =? e + 1) l = [].
Proof.
  induction 1 as [|x l Hx _ IH]; simpl; [reflexivity|]. destruct (Z.eqb_spec (fst x) (e + 1)); [lia|exact IH].
Qed.

(** A step that leaves the writer as it is. *)
Definition same_writer s s' : Prop := writer_view s' = writer_view s /\ writer_epoch s' = writer_epoch s.

(** The accesses an application does not see. *)
Lemma refines_idle n s s' a :
  refines n s a ->
  queued (filled (slots s')) = queued (filled (slots s)) -> epoch (slots s') = epoch (slots s) ->
  same_writer s s' -> in_discard (rpc s') = in_discard (rpc s) ->
  exists a', spec_step a None a' /\ refines (n + 0) s' a'.
Proof.
  intros (Wt & Wv & Wr & F & Ep & D) Q E [V We] Dc. exists a. split; [apply spec_idle|]. unfold refines, fresh in *.
  rewrite Q, E, Dc, V, We, Z.add_0_r. now repeat split.
Qed.

Lemma refines_load n s s' a :
  refines n s a -> writer_view s = SIdle ->
  queued (filled (slots s')) = queued (filled (slots s)) -> epoch (slots s') = epoch (slots s) ->
  wpc s' = WLoaded (epoch (slots s)) -> in_discard (rpc s') = in_discard (rpc s) ->
  exists a', spec_step a (Some RetainBegin) a' /\ refines (n + 0) s' a'.
Proof.
  intros (Wt & Wv & Wr & F & Ep & D) I Q E We Dc. eexists. split; [apply spec_retain; congruence|]. unfold refines, fresh in *.
  unfold writer_view, writer_epoch. simpl. rewrite Q, E, Dc, We, Z.eqb_refl, Z.add_0_r. repeat split; try assumption.
  intros e [= <-]. lia.
Qed.

Lemma refines_take n s s' a e got :
  refines n s a -> wpc s = WLoaded e ->
  queued (filled (slots s')) = queued (filled (slots s)) -> epoch (slots s') = epoch (slots s) -> wpc s' = WReady ->
  (if got : bool then writer_current (slots s') <> None /\ current_epoch (slots s') = e else writer_current (slots s') = None) ->
  in_discard (rpc s') = in_discard (rpc s) ->
  exists a', spec_step a (Some (Retained got)) a' /\ refines (n + 0) s' a'.
Proof.
  intros (Wt & Wv & Wr & F & Ep & D) L Q E W' G Dc. unfold writer_view, writer_epoch in *. rewrite L in *.
  specialize (Wr e eq_refl). eexists. split; [eapply spec_retained, Wv|].
  unfold refines, fresh, writer_view, writer_epoch. simpl. rewrite Q, E, Dc, W', Z.add_0_r. destruct got.
  - destruct G as [G <-]. destruct (writer_current (slots s')); [|contradiction]. repeat split; try assumption. now intros e [= <-].
  - rewrite G. now repeat split.
Qed.

(** The reader takes a slot and recycles it: it was discarded, or a discard
    is under way. *)
Lemma refines_drop n s s' a x l :
  refines n s a -> queued (filled (slots s)) = x :: l -> queued (filled (slots s')) = l ->
  fst x <> epoch (slots s) \/ in_discard (rpc s) = true ->
  epoch (slots s') = epoch (slots s) -> same_writer s s' -> in_discard (rpc s') = in_discard (rpc s) ->
  exists a', spec_step a None a' /\ refines (n + 0) s' a'.
Proof.
  intros (Wt & Wv & Wr & F & Ep & D) Q Q' Hx E [V We] Dc. unfold refines, fresh in *.
  rewrite Q', E, V, We, Dc, Z.add_0_r. rewrite Q in *. simpl in Wt. apply Forall_cons in F as [_ F'].
  destruct (Z.eqb_spec (fst x) (epoch (slots s))).
  - destruct Hx as [|Hx]; [contradiction|]. eexists. split; [eapply spec_drop; [now rewrite D|exact Wt]|].
    simpl. repeat split; try assumption. now symmetry.
  - exists a. split; [apply spec_idle|]. now repeat split.
Qed.

Lemma refines_release n s s' a e v :
  refines n s a -> writer_epoch s = Some e -> wpc s = WReady ->
  queued (filled (slots s')) = queued (filled (slots s)) ++ [(e, v)] ->
  epoch (slots s') = epoch (slots s) -> writer_view s' = SIdle -> writer_epoch s' = None -> in_discard (rpc s') = in_discard (rpc s) ->
  exists a', spec_step a (Some (Released v)) a' /\ refines (n + 0) s' a'.
Proof.
  intros (Wt & Wv & Wr & F & Ep & D) W P Q E V We Dc. pose proof (Wr e W) as Le.
  assert (spec_writer a = SHolding (e =? epoch (slots s))) as Wh.
  { rewrite Wv. unfold writer_view, writer_epoch in *. rewrite P in *. destruct (writer_current (slots s)); [|discriminate].
    now injection W as ->. }
  eexists. split; [apply spec_release, Wh|].
  unfold refines, fresh in *; simpl. rewrite Q, E, V, We, Dc, Z.add_0_r, List.filter_app, fmap_app. simpl.
  repeat split; try assumption; try discriminate.
  - rewrite Wt. destruct (_ =? _); simpl; [reflexivity|now rewrite app_nil_r].
  - apply Forall_app. now repeat constructor.
Qed.

Lemma refines_deliver n s s' a e v l :
  refines n s a -> queued (filled (slots s)) = (e, v) :: l -> queued (filled (slots s')) = l ->
  e = epoch (slots s) -> epoch (slots s') = epoch (slots s) -> same_writer s s' ->
  in_discard (rpc s) = false -> in_discard (rpc s') = false ->
  exists a', spec_step a (Some (Delivered v)) a' /\ refines (n + 0) s' a'.
Proof.
  intros (Wt & Wv & Wr & F & Ep & D) Q Q' He E [V We] D1 D2. unfold refines, fresh in *. rewrite Q in *. simpl in Wt.
  rewrite He, Z.eqb_refl in Wt. rewrite D1 in D. eexists. split; [apply spec_deliver; [exact D|exact Wt]|].
  simpl. rewrite Q', E, V, We, D2, Z.add_0_r. inversion F; subst. now repeat split.
Qed.

Lemma refines_discard n s s' a :
  refines n s a -> queued (filled (slots s')) = queued (filled (slots s)) -> 0 <= n -> n + 1 < 2 ^ 64 ->
  epoch (slots s') = wrap_u64 (epoch (slots s) + 1) -> wpc s' = wpc s ->
  writer_current (slots s') = writer_current (slots s) -> current_epoch (slots s') = current_epoch (slots s) ->
  in_discard (rpc s) = false -> in_discard (rpc s') = true ->
  exists a', spec_step a (Some DiscardBegin) a' /\ refines (n + 1) s' a'.
Proof.
  intros (Wt & Wv & Wr & F & Ep & D) Q H0 H1 E W1 W2 W3 D1 Dc. eexists. split; [apply spec_discard; congruence|].
  unfold wrap_u64 in E. rewrite Z.mod_small in E by lia.
  assert (forall e, writer_epoch s = Some e -> (e =? epoch (slots s) + 1) = false) as Old
    by (intros e We; specialize (Wr e We); lia).
  unfold refines, fresh; simpl. rewrite Q, E, Dc, fresh_next, Wv by assumption.
  unfold writer_view, writer_epoch in *. rewrite W1, W2, W3, E. repeat split; try lia.
  - destruct (wpc s) as [|e]; [destruct (writer_current (slots s))|]; cbn; rewrite ?Old; reflexivity.
  - intros e We. specialize (Wr e We). lia.
  - eapply Forall_impl; [exact F|]. simpl. lia.
Qed.

Lemma refines_discarded n s s' a :
  refines n s a -> queued (filled (slots s')) = queued (filled (slots s)) ->
  epoch (slots s') = epoch (slots s) -> same_writer s s' -> in_discard (rpc s) = true -> in_discard (rpc s') = false ->
  exists a', spec_step a (Some DiscardEnd) a' /\ refines (n + 0) s' a'.
Proof.
  intros (Wt & Wv & Wr & F & Ep & D) Q E [V We] D1 Dc. eexists. split; [apply spec_discarded; congruence|].
  unfold refines, fresh in *; simpl. rewrite Q, E, V, We, Dc, Z.add_0_r. now repeat split.
Qed.

Lemma slot_step_slots s ev s' : slot_step s ev s' -> num_slots (slots s') = num_slots (slots s).
Proof.
  intros Hs. destruct Hs as [[q w r] E1 E2|[q w r] e E1|[q w r] v E1|[q w r] v E1 E2|[q w r] E1 E2
    |[q w r] n E1|[q w r] E1|[q w r] v n E1|[q w r] E1|[q w r] E1|[q w r] E1|[q w r] n E1|[q w r] E1|[q w r] v n E1];
    simpl in *; subst; destruct q as [fr fi ep ns wc ce rc]; open_ops; simpl in *; try reflexivity.
  all: try (destruct wc; reflexivity); try (destruct rc; reflexivity).
  all: destruct (try_recv _) as [[x|] c]; try destruct x as [e' x]; simpl; try reflexivity.
  all: destruct (_ =? _); reflexivity.
Qed.

(** The facts a step's case is chosen by. *)
Ltac view :=
  unfold same_writer, writer_view, writer_epoch; simpl;
  repeat match goal with |- context [match ?o with Some _ => _ | None => _ end] => destruct o; simpl end;
  eauto; try congruence; try lia.

(** Every access of the threads is a step of the application's queue. *)
Lemma refines_step n s ev s' a :
  slots_ok s -> 0 <= n -> refines n s a -> slot_step s ev s' -> n + discards (option_list ev) < 2 ^ 64 ->
  exists a', spec_step a ev a' /\ refines (n + discards (option_list ev)) s' a'.
Proof.
  intros Hok Hn HR Hs. destruct Hs as [[q w r] E1 E2|[q w r] e E1|[q w r] v E1|[q w r] v E1 E2|[q w r] E1 E2
    |[q w r] n' E1|[q w r] E1|[q w r] v n' E1|[q w r] E1|[q w r] E1|[q w r] E1|[q w r] n' E1|[q w r] E1|[q w r] v n' E1];
    simpl in *; subst; destruct q as [fr fi ep ns wc ce rc]; open_ops; simpl in *; unfold discards; simpl.
  all: destruct Hok as (N & C1 & C2 & R & W).
  all: repeat (receives; simpl in * ).
  all: try (destruct x as [e' x]; simpl in *; destruct (Z.eqb_spec e' ep); simpl in * ).
  all: try (destruct wc; try discriminate; [idtac]; sends); simpl in *.
  all: intros Hd; rewrite ?Nat2Z.inj_0 in *.
  all: first
    [ solve [eapply refines_idle; [exact HR|..]; view]
    | solve [eapply refines_load; [exact HR|..]; view]
    | solve [eapply refines_take; [exact HR|..]; view]
    | solve [eapply refines_drop; [exact HR|..]; view]
    | solve [eapply refines_deliver; [exact HR|..]; view]
    | solve [eapply refines_release; [exact HR|..]; view]
    | solve [eapply refines_discard; [exact HR|..]; view]
    | solve [eapply refines_discarded; [exact HR|..]; view]
    | destruct rc, wc; (eapply refines_idle; [exact HR|..]; view) ].
Qed.

Lemma queue_run_app s tr s' : queue_run s tr s' -> slots_ok s -> slots_ok s'.
Proof. induction 1; eauto using slots_ok_step. Qed.

Lemma refines_run s tr s' :
  queue_run s tr s' -> forall a n, slots_ok s -> 0 <= n -> refines n s a -> n + discards tr < 2 ^ 64 ->
  exists a', spec_run a tr a' /\ refines (n + discards tr) s' a'.
Proof.
  induction 1 as [s|s tr s' ev s'' R IH S]; intros a n Hok Hn HR Hd.
  - exists a. split; [apply spec_refl|]. now rewrite Z.add_0_r.
  - rewrite discards_app, Z.add_assoc in *. pose proof (discards_nonneg (option_list ev)).
    pose proof (discards_nonneg tr).
    destruct (IH a n Hok Hn HR) as (a' & R' & HR'); [lia|].
    destruct (refines_step (n + discards tr) _ _ _ _ (queue_run_app _ _ _ R Hok) ltac:(lia) HR' S Hd) as (a'' & S' & HR'').
    exists a''. split; [eapply spec_more; eassumption|exact HR''].
Qed.

Lemma preallocate_queued n (v : T) c :
  (length (queued c) + n <= capacity c)%nat ->
  queued (preallocate n v c) = queued c ++ replicate n v /\ capacity (preallocate n v c) = capacity c.
Proof.
  revert c. induction n as [|n IH]; intros c H; simpl; [now rewrite app_nil_r|].
  destruct (try_send_cases v c) as (c' & E & Q & K); [lia|]. rewrite E.
  destruct (IH c') as [-> ->]; [rewrite Q, K, length_app; simpl; lia|]. rewrite Q, <- app_assoc. auto.
Qed.

Definition queue_init (n : nat) (v : T) : Threads := MkThreads (queue n v) WReady RReady.

Lemma queue_init_ok n v : slots_ok (queue_init n v) /\ refines 0 (queue_init n v) (MkSpec [] SIdle false).
Proof.
  unfold slots_ok, slot_count, refines, fresh, queue_init, queue, writer_epoch, Writer_num_retained_slots,
    Reader_num_retained_slots. simpl.
  set (k := Nat.max n 1). assert (0 < k)%nat by lia.
  destruct (preallocate_queued k v (channel k)) as [-> ->].
  { rewrite queued_channel, capacity_channel by assumption. simpl. lia. }
  rewrite !queued_channel, !capacity_channel by assumption. simpl. rewrite length_replicate.
  repeat split; try lia; try discriminate; exact (List.Forall_nil _).
Qed.

(** C4 The queue of two threads refines the queue an application sees: any
    interleaving of the accesses of writer and reader shows the same releases,
    deliveries and discards as a run of [SpecQueue], where values are
    delivered in the order of their release, a discard empties the queue, and a
    slot the writer holds, or is getting by a call begun before a discard, is
    never delivered after it.
    The 64-bit epoch is assumed not to come round within the run. *)
Theorem queue_refines n v tr s :
  queue_run (queue_init n v) tr s -> discards tr < 2 ^ 64 ->
  exists a, spec_run (MkSpec [] SIdle false) tr a /\ waiting a = fresh (slots s).
Proof.
  intros R D. destruct (queue_init_ok n v) as [Hok HR].
  destruct (refines_run _ _ _ R _ 0 Hok (Z.le_refl 0) HR D) as (a & Ra & W & _). eauto.
Qed.

(** No slot is lost or made up: at every point of every interleaving the
    slots in the two channels, held by the writer, held by the reader or being
    moved by it are exactly the ones allocated, so no send ever meets a full
    channel. *)
Theorem slots_conserved n v tr s :
  queue_run (queue_init n v) tr s ->
  slot_count s = Nat.max n 1 /\
  (length (queued (free (slots s))) <= capacity (free (slots s)))%nat /\
  (length (queued (filled (slots s))) <= capacity (filled (slots s)))%nat.
Proof.
  intros R. destruct (queue_init_ok n v) as [Hok _].
  assert (num_slots (slots s) = Nat.max n 1) as E.
  { clear Hok. remember (queue_init n v) as s0 eqn:E0. induction R; subst; [reflexivity|].
    rewrite <- (IHR eq_refl). now apply slot_step_slots in H. }
  destruct (queue_run_app _ _ _ R Hok) as (N & -> & -> & _). rewrite N, E. split; [reflexivity|].
  unfold slot_count in N. lia.
Qed.

(** One call of [Reader::retain_slot], seen from its loop. *)
Lemma retain_loop_spec k q ep :
  epoch q = ep -> (length (queued (filled q)) <= k)%nat ->
  let '(b, q') := Reader_retain_loop k q in
  match fresh q with
  | v :: l => b = true /\ reader_current q' = Some v /\ fresh q' = l
  | [] => b = false /\ reader_current q' = reader_current q /\ fresh q' = []
  end.
Proof.
  revert q. induction k as [|k IH]; intros q <- L.
  - destruct (queued (filled q)) eqn:Q; simpl in L; [|lia]. unfold fresh. simpl. now rewrite Q.
  - simpl. unfold Reader_poll, fresh. receives; rewrite Q in *; simpl in *.
    + now rewrite Q0.
    + destruct x as [e v]. simpl in *. destruct (Z.eqb_spec e (epoch q)); simpl; [now rewrite Q0|].
      specialize (IH (recycle v (with_filled c q)) eq_refl). simpl in IH. rewrite Q0 in IH.
      specialize (IH ltac:(lia)). unfold fresh in IH. simpl in IH. now rewrite Q0 in IH.
Qed.

(** A reader that holds no slot and asks for one is given the value that has
    waited longest, unless nothing but discarded slots waits: however many of
    those come first, one call skips them all. *)
Theorem reader_gets_oldest q :
  reader_current q = None -> (length (queued (filled q)) <= num_slots q)%nat ->
  let '(b, q') := Reader_retain_slot q in
  match fresh q with
  | v :: l => b = true /\ Reader_slot_mut q' = Some v /\ fresh q' = l
  | [] => b = false /\ Reader_slot_mut q' = None /\ fresh q' = []
  end.
Proof.
  intros R L. unfold Reader_retain_slot. rewrite R.
  pose proof (retain_loop_spec (num_slots q) q _ eq_refl L) as H. rewrite R in H. exact H.
Qed.

End QueueProperties.
