(* ===== verification/AudioStream.v ===== *)
(** The byte stream of Link Audio: src/src/link_audio/encoding.rs, with the
    errors of src/src/link_audio/error.rs and the UTF-8 strings it carries.

    A decoder is a function of the cursor, a [Read A]; [reads m bs v] says that
    [m] started before the bytes [bs] reads [v] and stops behind them,
    whatever follows.  Encoders append to the output. *)

From stdpp Require Import base list numbers strings.
From Stdlib Require Import ZArith Lia ZifyBool.
From S2P Require Import Prelude Encoding.

Inductive AudioError :=
| AudioRange (msg : string)
| AudioInvalid (msg : string)
| AudioMessageTooLarge (size max : Z).

(** ** Strings

    A [String] is the list of its bytes.  The replacement of malformed parts
    is [String::from_utf8_lossy] of the standard library. *)

Definition in_range (lo hi b : Z) : bool := (lo <=? b) && (b <=? hi).

(** Continuation bytes, and the second byte a leading byte of three or four
    admits: neither overlong forms, nor surrogates, nor code points past the
    last. *)
Definition is_continuation (b : Z) : bool := in_range 128 191 b.

Definition second_of_three (a b : Z) : bool :=
  ((a =? 224) && in_range 160 191 b) || (in_range 225 236 a && in_range 128 191 b) ||
  ((a =? 237) && in_range 128 159 b) || (in_range 238 239 a && in_range 128 191 b).

Definition second_of_four (a b : Z) : bool :=
  ((a =? 240) && in_range 144 191 b) || (in_range 241 243 a && in_range 128 191 b) ||
  ((a =? 244) && in_range 128 143 b).

(** [safe_get]: zero past the end, which continues nothing. *)
Definition byte_at (s : bytes) (i : nat) : Z := nth i s 0.

(** The length of the character [s] begins with and whether it is one; of a
    malformed part the length of what is replaced. *)
Definition utf8_char (s : bytes) : nat * bool :=
  let a := byte_at s 0 in let b := byte_at s 1 in let c := byte_at s 2 in let d := byte_at s 3 in
  if a <? 128 then (1%nat, true)
  else if in_range 194 223 a then
    if is_continuation b then (2%nat, true) else (1%nat, false)
  else if in_range 224 239 a then
    if negb (second_of_three a b) then (1%nat, false)
    else if is_continuation c then (3%nat, true) else (2%nat, false)
  else if in_range 240 244 a then
    if negb (second_of_four a b) then (1%nat, false)
    else if negb (is_continuation c) then (2%nat, false)
    else if is_continuation d then (4%nat, true) else (3%nat, false)
  else (1%nat, false).

Definition replacement : bytes := [239; 191; 189].

Fixpoint utf8_lossy (fuel : nat) (s : bytes) : bytes :=
  match fuel, s with
  | S fuel, _ :: _ =>
      let '(n, good) := utf8_char s in
      (if good then take n s else replacement) ++ utf8_lossy fuel (drop n s)
  | _, _ => []
  end.

(** A character takes at least a byte, so the length is enough fuel. *)
Definition from_utf8_lossy (s : bytes) : bytes := utf8_lossy (length s) s.

Fixpoint utf8_valid (fuel : nat) (s : bytes) : bool :=
  match fuel, s with
  | S fuel, _ :: _ => let '(n, good) := utf8_char s in good && utf8_valid fuel (drop n s)
  | _, _ => true
  end.

(** What a [String] of the program satisfies. *)
Definition utf8_ok (s : bytes) : bool := utf8_valid (length s) s.

(** [str::is_char_boundary] *)
Definition is_char_boundary (s : bytes) (i : nat) : bool :=
  if (i =? 0)%nat then true
  else if (length s <=? i)%nat then (i =? length s)%nat
  else negb (is_continuation (byte_at s i)).

(** ** Reading *)

Record ByteStreamReader := MkReader { stream_data : bytes; stream_pos : nat }.

Definition Reader_new (data : bytes) : ByteStreamReader := MkReader data 0.

Definition remaining (r : ByteStreamReader) : nat := (length (stream_data r) - stream_pos r)%nat.
Definition is_empty (r : ByteStreamReader) : bool := (remaining r =? 0)%nat.
Definition rest (r : ByteStreamReader) : bytes := drop (stream_pos r) (stream_data r).

Definition Read (A : Type) : Type := ByteStreamReader -> result (A * ByteStreamReader) AudioError.

Definition ret {A} (a : A) : Read A := fun r => Ok (a, r).
Definition bind {A B} (m : Read A) (k : A -> Read B) : Read B :=
  fun r => match m r with Ok (a, r) => k a r | Err e => Err e end.
Definition fail {A} (e : AudioError) : Read A := fun _ => Err e.

Declare Scope read_scope.
Delimit Scope read_scope with read.
Notation "x <-? m ; k" := (bind m (fun x => k%read)) (at level 100, m at next level, right associativity) : read_scope.
Notation "'ensure' b 'else' e ; k" := (if b : bool then k%read else fail e)
  (at level 100, b at next level, e at next level, right associativity) : read_scope.
Open Scope read_scope.

(** [take] *)
Definition read_bytes (n : nat) : Read bytes := fun r =>
  if (remaining r <? n)%nat then Err (AudioRange "parsing type from byte stream failed")
  else Ok (take n (rest r), MkReader (stream_data r) (stream_pos r + n)).

Definition read_u8 : Read Z := b <-? read_bytes 1; ret (nth 0 b 0).
Definition read_u16 : Read Z := b <-? read_bytes 2; ret (from_be_bytes b).
Definition read_u32 : Read Z := b <-? read_bytes 4; ret (from_be_bytes b).
Definition read_u64 : Read Z := b <-? read_bytes 8; ret (from_be_bytes b).

(** [as i8] to [as i64] *)
Definition read_i8 : Read Z := v <-? read_u8; ret (signed 1 v).
Definition read_i16 : Read Z := v <-? read_u16; ret (signed 2 v).
Definition read_i32 : Read Z := v <-? read_u32; ret (signed 4 v).
Definition read_i64 : Read Z := v <-? read_u64; ret (signed 8 v).

Definition read_array (N : nat) : Read bytes := read_bytes N.

Definition read_string : Read bytes :=
  len <-? read_u32;
  b <-? read_bytes (Z.to_nat len);
  ret (from_utf8_lossy b).

(** The loop ends early when the input does. *)
Fixpoint read_vec_loop {A} (count : nat) (f : Read A) (out : list A) : Read (list A) :=
  match count with
  | O => ret out
  | S count => fun r =>
      if is_empty r then Ok (out, r)
      else (v <-? f; read_vec_loop count f (out ++ [v])) r
  end.

Definition read_vec {A} (f : Read A) : Read (list A) :=
  count <-? read_u32;
  read_vec_loop (Z.to_nat count) f [].

(** ** Writing *)

Definition write_u8 (v : Z) (out : bytes) : bytes := out ++ [v].
Definition write_i8 (v : Z) (out : bytes) : bytes := out ++ [v mod 256].
Definition write_u16 (v : Z) (out : bytes) : bytes := out ++ to_be_bytes 2 v.
Definition write_i16 (v : Z) (out : bytes) : bytes := out ++ to_be_bytes 2 v.
Definition write_u32 (v : Z) (out : bytes) : bytes := out ++ to_be_bytes 4 v.
Definition write_i32 (v : Z) (out : bytes) : bytes := out ++ to_be_bytes 4 v.
Definition write_u64 (v : Z) (out : bytes) : bytes := out ++ to_be_bytes 8 v.
Definition write_i64 (v : Z) (out : bytes) : bytes := out ++ to_be_bytes 8 v.

(** [as u32] keeps the low 32 bits of a length. *)
Definition as_u32 (z : Z) : Z := z mod 2 ^ 32.
Definition as_u16 (z : Z) : Z := z mod 2 ^ 16.
Definition as_u8 (z : Z) : Z := z mod 2 ^ 8.

Definition write_string (v : bytes) (out : bytes) : bytes :=
  write_u32 (as_u32 (Z.of_nat (length v))) out ++ v.

Definition size_of_string (s : bytes) : Z := as_u32 (4 + as_u32 (Z.of_nat (length s))).

(** ** Strings survive *)

Lemma byte_at_past s i : (length s <= i)%nat -> byte_at s i = 0.
Proof. apply nth_overflow. Qed.

Lemma byte_at_take s i k : (k < i)%nat -> byte_at (take i s) k = byte_at s k.
Proof.
  intros L. unfold byte_at. revert i k L. induction s as [|x s IH]; intros [|i] [|k] L; simpl; try lia; auto.
  apply IH. lia.
Qed.

Lemma byte_at_drop s n k : byte_at (drop n s) k = byte_at s (n + k).
Proof. unfold byte_at. revert s. induction n as [|n IH]; intros [|x s]; simpl; auto. now destruct k. Qed.

Lemma is_continuation_0 : is_continuation 0 = false.
Proof. reflexivity. Qed.

(** Splits the tests [utf8_char] makes. *)
Ltac utf8_cases :=
  unfold utf8_char, second_of_three, second_of_four in *; cbv zeta in *;
  repeat match goal with
         | H : context [if ?b then _ else _] |- _ => destruct b eqn:?; simpl in *; try discriminate
         | |- context [if ?b then _ else _] => destruct b eqn:?; simpl in *; try discriminate
         end.

(** The bytes of a character after its first are continuation bytes. *)
Lemma utf8_char_continues s n k :
  utf8_char s = (n, true) -> (0 < k < n)%nat -> is_continuation (byte_at s k) = true.
Proof.
  intros E L. unfold is_continuation in *. utf8_cases; injection E as <-; try (clear - L; lia).
  all: assert (k = 1 \/ k = 2 \/ k = 3)%nat as [->|[->| ->]] by (clear - L; lia);
    try (clear - L; lia); try assumption.
  all: unfold is_continuation, in_range in *; lia.
Qed.

Lemma utf8_char_length s n : s <> [] -> utf8_char s = (n, true) -> (1 <= n <= length s)%nat.
Proof.
  intros N E. split; [utf8_cases; injection E as <-; repeat constructor|].
  destruct (decide (n <= length s)%nat); [assumption|exfalso].
  assert (0 < length s)%nat by (destruct s; [contradiction|simpl; lia]).
  pose proof (utf8_char_continues s n (length s) E ltac:(lia)) as C. now rewrite byte_at_past in C by lia.
Qed.

Lemma utf8_lossy_valid fuel s :
  (length s <= fuel)%nat -> utf8_valid fuel s = true -> utf8_lossy fuel s = s.
Proof.
  revert s. induction fuel as [|fuel IH]; intros [|x s] L V; simpl in L; try reflexivity; [lia|].
  cbn [utf8_valid utf8_lossy] in *. destruct (utf8_char (x :: s)) as [n good] eqn:E.
  apply andb_true_iff in V as [-> V]. pose proof (utf8_char_length (x :: s) n ltac:(discriminate) E) as B. simpl in B.
  rewrite IH; [apply take_drop|rewrite length_drop; simpl; lia|exact V].
Qed.

Lemma from_utf8_lossy_ok s : utf8_ok s = true -> from_utf8_lossy s = s.
Proof. intros V. apply utf8_lossy_valid; [lia|exact V]. Qed.

(** A character is recognised by its own bytes. *)
Lemma utf8_char_ext s s' n :
  utf8_char s = (n, true) -> (forall k, (k < n)%nat -> byte_at s' k = byte_at s k) -> utf8_char s' = (n, true).
Proof.
  intros E B. unfold utf8_char in *. cbv zeta in *.
  repeat match type of E with
         | context [if ?b then _ else _] => destruct b eqn:?; simpl in *; try discriminate
         end; injection E as <-; rewrite ?(B 0%nat), ?(B 1%nat), ?(B 2%nat), ?(B 3%nat) by lia.
  all: repeat match goal with H : _ = ?v |- context [if ?b then _ else _] =>
         match type of H with b = v => rewrite H; simpl | negb _ = _ => idtac end end.
  all: repeat match goal with H : ?b = _ |- context [?b] => rewrite H; simpl end; reflexivity.
Qed.

Lemma utf8_char_take s n i : utf8_char s = (n, true) -> (n <= i)%nat -> utf8_char (take i s) = (n, true).
Proof. intros E L. apply (utf8_char_ext s); [exact E|]. intros. apply byte_at_take; lia. Qed.

(** Cutting a string at a character boundary leaves a string. *)
Lemma utf8_valid_take fuel fuel' s i :
  (length s <= fuel)%nat -> (i <= fuel')%nat -> utf8_valid fuel s = true -> is_char_boundary s i = true ->
  utf8_valid fuel' (take i s) = true.
Proof.
  revert fuel' s i. induction fuel as [|fuel IH]; intros fuel' [|x s] i L L' V B; simpl in L; try lia;
    try (rewrite take_nil; now destruct fuel').
  destruct i as [|i]; [now destruct fuel'|]. destruct fuel' as [|fuel']; [reflexivity|].
  cbn [utf8_valid] in *. destruct (utf8_char (x :: s)) as [n good] eqn:E.
  apply andb_true_iff in V as [-> V]. pose proof (utf8_char_length (x :: s) n ltac:(discriminate) E) as N. simpl in N.
  destruct (Nat.le_gt_cases n (S i)) as [Ln|Ln].
  - rewrite (utf8_char_take _ _ (S i) E Ln). simpl take at 1. cbn match. simpl andb.
    change (x :: take i s) with (take (S i) (x :: s)). rewrite skipn_firstn_comm. apply IH; try lia; try assumption.
    { rewrite length_drop. simpl. lia. }
    unfold is_char_boundary in *. rewrite byte_at_drop, length_drop. simpl length in *.
    destruct (Nat.eqb_spec (S i - n) 0); [reflexivity|]. simpl Nat.eqb in B at 1.
    replace (n + (S i - n))%nat with (S i) by lia.
    destruct (Nat.leb_spec (S (length s)) (S i)), (Nat.leb_spec (S (length s) - n) (S i - n)); try lia; try assumption.
  - exfalso. unfold is_char_boundary in B. simpl Nat.eqb in B at 1. simpl length in B.
    destruct (Nat.leb_spec (S (length s)) (S i)); [apply Nat.eqb_eq in B; lia|].
    now rewrite (utf8_char_continues _ _ (S i) E ltac:(lia)) in B.
Qed.

Lemma utf8_ok_take s i : utf8_ok s = true -> is_char_boundary s i = true -> (i <= length s)%nat ->
  utf8_ok (take i s) = true.
Proof.
  intros V B L. unfold utf8_ok. rewrite length_take, Nat.min_l by lia.
  now apply (utf8_valid_take (length s)).
Qed.

(** ** What is written is read *)

Definition reader_ok (r : ByteStreamReader) : Prop := (stream_pos r <= length (stream_data r))%nat.

Definition reads {A} (m : Read A) (bs : bytes) (v : A) : Prop :=
  forall r tail, reader_ok r -> rest r = bs ++ tail ->
  exists r', m r = Ok (v, r') /\ rest r' = tail /\ reader_ok r'.

Lemma rest_length r : length (rest r) = remaining r.
Proof. unfold rest, remaining. apply length_drop. Qed.

Lemma reads_ret {A} (v : A) : reads (ret v) [] v.
Proof. intros r tail Hok E. exists r. now rewrite E. Qed.

Lemma reads_bind {A B} (m : Read A) (k : A -> Read B) b1 b2 v w :
  reads m b1 v -> reads (k v) b2 w -> reads (bind m k) (b1 ++ b2) w.
Proof.
  intros Hm Hk r tail Hok E. rewrite <- app_assoc in E.
  destruct (Hm r _ Hok E) as (r' & E1 & E2 & Hok'). destruct (Hk r' tail Hok' E2) as (r'' & E3 & E4 & Hok'').
  exists r''. unfold bind. rewrite E1. now rewrite E3.
Qed.

Lemma reads_bind_ret {A B} (m : Read A) (f : A -> B) b v :
  reads m b v -> reads (bind m (fun x => ret (f x))) b (f v).
Proof. intros Hm. rewrite <- (app_nil_r b). eapply reads_bind; [exact Hm|apply reads_ret]. Qed.

Lemma reads_ensure {A} (c : bool) e (m : Read A) b v :
  c = true -> reads m b v -> reads (if c then m else fail e) b v.
Proof. now intros ->. Qed.

Lemma reads_bytes n b : length b = n -> reads (read_bytes n) b b.
Proof.
  intros <- r tail Hok E. unfold read_bytes. pose proof (rest_length r) as R. rewrite E, length_app in R.
  destruct (Nat.ltb_spec (remaining r) (length b)); [lia|].
  exists (MkReader (stream_data r) (stream_pos r + length b)). rewrite E, take_app_length.
  unfold rest, reader_ok, remaining in *. simpl. rewrite <- drop_drop, E, drop_app_length.
  repeat split; lia.
Qed.

Lemma reads_uint n v : 0 <= v < 256 ^ Z.of_nat n ->
  reads (b <-? read_bytes n; ret (from_be_bytes b)) (to_be_bytes n v) v.
Proof.
  intros R. replace v with (from_be_bytes (to_be_bytes n v)) at 2
    by now rewrite from_to_be_bytes, Z.mod_small by lia.
  apply (reads_bind_ret _ from_be_bytes), reads_bytes, length_to_be_bytes.
Qed.

Lemma reads_u8 v : in_u8 v -> reads read_u8 [v] v.
Proof. intros R. apply (reads_bind_ret _ (fun b => nth 0 b 0) [v] [v]), reads_bytes. reflexivity. Qed.

Lemma reads_u16 v : in_u16 v -> reads read_u16 (to_be_bytes 2 v) v.
Proof. unfold in_u16. intros R. apply reads_uint. simpl. lia. Qed.

Lemma reads_u32 v : in_u32 v -> reads read_u32 (to_be_bytes 4 v) v.
Proof. intros R. apply reads_uint. simpl. zlia. Qed.

Lemma reads_u64 v : in_u64 v -> reads read_u64 (to_be_bytes 8 v) v.
Proof. intros R. apply reads_uint. simpl. zlia. Qed.

(** Two's complement: the unsigned reading of what was written, seen signed. *)
Lemma reads_sint n v (m : Read Z) :
  (0 < n)%nat -> - (256 ^ Z.of_nat n / 2) <= v < 256 ^ Z.of_nat n / 2 ->
  reads m (to_be_bytes n v) (v mod 256 ^ Z.of_nat n) ->
  reads (x <-? m; ret (signed n x)) (to_be_bytes n v) v.
Proof.
  intros Hn R Hm. rewrite <- (signed_mod n v Hn R) at 2. apply (reads_bind_ret _ (signed n)), Hm.
Qed.

Lemma to_be_bytes_mod n v : to_be_bytes n (v mod 256 ^ Z.of_nat n) = to_be_bytes n v.
Proof.
  rewrite <- (from_to_be_bytes n v).
  pose proof (to_from_be_bytes (to_be_bytes n v) (to_be_bytes_ok n v)) as E.
  now rewrite length_to_be_bytes in E.
Qed.

Lemma reads_i16 v : -32768 <= v <= 32767 -> reads read_i16 (to_be_bytes 2 v) v.
Proof.
  intros R. apply reads_sint; [lia|change (256 ^ Z.of_nat 2 / 2) with 32768; lia|]. rewrite <- to_be_bytes_mod. apply reads_u16.
  pose proof (Z.mod_pos_bound v (256 ^ Z.of_nat 2) ltac:(simpl; lia)). unfold in_u16.
  change (256 ^ Z.of_nat 2) with 65536 in *. lia.
Qed.

Lemma reads_i64 v : in_i64 v -> reads read_i64 (to_be_bytes 8 v) v.
Proof.
  intros R. apply reads_sint; [lia|change (256 ^ Z.of_nat 8 / 2) with 9223372036854775808; zlia|]. rewrite <- to_be_bytes_mod. apply reads_u64.
  pose proof (Z.mod_pos_bound v (256 ^ Z.of_nat 8) ltac:(simpl; lia)). 
  change (256 ^ Z.of_nat 8) with 18446744073709551616 in *. zlia.
Qed.

Lemma reads_string s : utf8_ok s = true -> Z.of_nat (length s) <= u32_MAX ->
  reads read_string (to_be_bytes 4 (Z.of_nat (length s)) ++ s) s.
Proof.
  intros V L. eapply reads_bind; [apply reads_u32; zlia|]. rewrite Nat2Z.id.
  rewrite <- (from_utf8_lossy_ok s V) at 3. now apply (reads_bind_ret _ from_utf8_lossy), reads_bytes.
Qed.

(** A sequence of elements, none written in no bytes; [g] is what an element
    reads back as. *)
Lemma reads_vec_map {A} (f : Read A) (wr : A -> bytes) (g : A -> A) l :
  Z.of_nat (length l) <= u32_MAX -> (forall x, In x l -> reads f (wr x) (g x) /\ wr x <> []) ->
  reads (read_vec f) (to_be_bytes 4 (Z.of_nat (length l)) ++ flat_map wr l) (map g l).
Proof.
  intros L H. eapply reads_bind; [apply reads_u32; zlia|]. rewrite Nat2Z.id. clear L.
  change (map g l) with ([] ++ map g l). generalize (@nil A). induction l as [|x l IH]; intros out; simpl.
  - rewrite app_nil_r. apply reads_ret.
  - destruct (H x (or_introl eq_refl)) as [Hx Nx]. intros r tail Hok E.
    assert (is_empty r = false) as ->.
    { unfold is_empty. rewrite <- rest_length, E. destruct (wr x); [contradiction|reflexivity]. }
    replace (out ++ g x :: map g l) with ((out ++ [g x]) ++ map g l) by now rewrite <- app_assoc.
    revert r tail Hok E. eapply reads_bind; [exact Hx|]. apply IH. intros y Hy. apply H. now right.
Qed.

Lemma reads_all {A} (m : Read A) b v : reads m b v -> exists r', m (Reader_new b) = Ok (v, r').
Proof.
  intros H. destruct (H (Reader_new b) []) as (r' & E & _); [unfold reader_ok; simpl; lia|now rewrite app_nil_r|eauto].
Qed.

(** ** Reading backwards *)

Lemma bind_inv {A B} (m : Read A) (k : A -> Read B) r v r' :
  bind m k r = Ok (v, r') -> exists a r1, m r = Ok (a, r1) /\ k a r1 = Ok (v, r').
Proof. unfold bind. destruct (m r) as [[a r1]|]; [eauto|discriminate]. Qed.

Lemma ensure_inv {A} (c : bool) e (m : Read A) r v :
  (if c then m else fail e) r = Ok v -> c = true /\ m r = Ok v.
Proof. destruct c; [auto|discriminate]. Qed.

Lemma read_bytes_inv n r b r' :
  read_bytes n r = Ok (b, r') -> b = take n (rest r) /\ length b = n /\
  rest r' = drop n (rest r) /\ (reader_ok r -> reader_ok r').
Proof.
  unfold read_bytes. destruct (Nat.ltb_spec (remaining r) n); [discriminate|]. intros [= <- <-].
  split; [reflexivity|]. rewrite <- rest_length in H. split; [rewrite length_take; lia|].
  unfold rest. simpl. rewrite drop_drop. split; [reflexivity|].
  unfold rest, reader_ok in *. rewrite length_drop in H. simpl. lia.
Qed.

(** Takes a successful read apart, one field at a time. *)
Ltac unread H :=
  repeat match type of H with
         | bind _ _ _ = Ok _ =>
             let a := fresh "a" in let r1 := fresh "r" in let E := fresh "E" in
             apply bind_inv in H as (a & r1 & E & H); cbv beta in H
         | (if _ then _ else fail _) _ = Ok _ =>
             let C := fresh "C" in apply ensure_inv in H as [C H]
         | ret _ _ = Ok _ => unfold ret in H; injection H; clear H; intros; subst
         end.

Lemma read_bytes_rest n r b r' :
  read_bytes n r = Ok (b, r') -> reader_ok r -> reader_ok r' /\ (length (rest r) = n + length (rest r'))%nat.
Proof.
  intros E Hok. apply read_bytes_inv in E as (Eb & L & -> & K). split; [now apply K|].
  rewrite Eb, length_take in L. rewrite length_drop. lia.
Qed.

Lemma read_u32_rest r v r' :
  read_u32 r = Ok (v, r') -> reader_ok r -> reader_ok r' /\ (length (rest r) = 4 + length (rest r'))%nat.
Proof. intros E. unfold read_u32 in E. unread E. eapply read_bytes_rest; eassumption. Qed.
