(* ===== verification/WireString.v ===== *)
(** Strings on the discovery wire: [Encode] and [Decode] for [String] in
    src/src/encoding.rs.

    A [String] is the list of its bytes, of which [utf8_ok] holds.  What is read
    is a [String] whatever the bytes are, and it is the string written when they
    are its encoding. *)

From stdpp Require Import base list numbers.
From Stdlib Require Import ZArith Lia ZifyBool.
From S2P Require Import Prelude Encoding AudioStream.

(** [u32::try_from(self.len())], and the slice lookup for [bytes.get(4..4 + len)]:
    an end that does not fit a 32-bit [usize] is past every slice. *)
Definition string_wire : EncodeDecode bytes := {|
  encode_to v out :=
    let len := Z.of_nat (length v) in
    if u32_MAX <? len then Err (StringTooLong len)
    else
      let? out := encode_to u32_wire len out in
      Ok (out ++ v);
  encoded_size v := (4 + length v)%nat;
  decode_from b :=
    let? (len, len_size) := decode_from u32_wire b in
    let end_ := (len_size + Z.to_nat len)%nat in
    if (length b <? end_)%nat then Err UnexpectedEnd
    else Ok (from_utf8_lossy (take (Z.to_nat len) (drop len_size b)), end_)
|}.

(** ** What is read is a string *)

Lemma utf8_char_app n s t : s <> [] -> utf8_char s = (n, true) -> utf8_char (take n s ++ t) = (n, true).
Proof.
  intros Ne E. pose proof (utf8_char_length s n Ne E) as [L1 L2].
  apply (utf8_char_ext s); [exact E|]. intros k Hk. unfold byte_at. rewrite app_nth1 by (rewrite length_take; lia).
  rewrite <- (take_drop n s) at 2. now rewrite app_nth1 by (rewrite length_take; lia).
Qed.

Lemma utf8_char_taken s : s <> [] -> (1 <= (utf8_char s).1)%nat.
Proof. intros _. unfold utf8_char. cbv zeta. repeat match goal with |- context [if ?b then _ else _] => destruct b end; cbn; lia. Qed.

(** More fuel changes nothing. *)
Lemma utf8_valid_fuel s fuel fuel' :
  (length s <= fuel)%nat -> (length s <= fuel')%nat -> utf8_valid fuel s = utf8_valid fuel' s.
Proof.
  revert s fuel'. induction fuel as [|fuel IH]; intros [|x s] [|fuel'] L L'; simpl in L, L'; try lia; try reflexivity.
  cbn [utf8_valid]. pose proof (utf8_char_taken (x :: s) ltac:(discriminate)) as N.
  destruct (utf8_char (x :: s)) as [n good]. cbn in N. f_equal. apply IH; rewrite length_drop; simpl; lia.
Qed.

Lemma utf8_ok_cons n s : s <> [] -> utf8_char s = (n, true) -> utf8_ok s = utf8_ok (drop n s).
Proof.
  intros Ne E. unfold utf8_ok at 1. destruct s as [|x s]; [contradiction|]. cbn [length utf8_valid]. rewrite E. cbn [andb].
  pose proof (utf8_char_length _ _ Ne E) as [L _]. apply utf8_valid_fuel; rewrite length_drop; simpl; lia.
Qed.

Lemma utf8_lossy_ok fuel s : utf8_ok (utf8_lossy fuel s) = true.
Proof.
  revert s. induction fuel as [|fuel IH]; intros [|x s]; try reflexivity. cbn [utf8_lossy].
  destruct (utf8_char (x :: s)) as [n good] eqn:E. destruct good.
  - pose proof (utf8_char_length (x :: s) n ltac:(discriminate) E) as [L1 L2].
    rewrite (utf8_ok_cons n); [|destruct n; [lia|cbn; congruence]|apply utf8_char_app; [discriminate|exact E]].
    rewrite drop_app_length'; [apply IH|rewrite length_take; lia].
  - rewrite (utf8_ok_cons 3); [|discriminate|reflexivity]. cbn [replacement app drop]. apply IH.
Qed.

Lemma from_utf8_lossy_string s : utf8_ok (from_utf8_lossy s) = true.
Proof. apply utf8_lossy_ok. Qed.

(** ** The contract of the wire *)

#[global] Instance string_laws : WireLaws string_wire.
Proof.
  refine {| wire_ok v := utf8_ok v = true /\ bytes_ok v /\ Z.of_nat (length v) <= u32_MAX; wire_norm := id;
            wire_bytes v := to_be_bytes 4 (Z.of_nat (length v)) ++ v |}; cbn [encode_to encoded_size decode_from string_wire].
  - intros v out (_ & _ & L). replace (u32_MAX <? Z.of_nat (length v)) with false by lia. cbn. now rewrite <- app_assoc.
  - intros v _. now rewrite length_app, length_to_be_bytes.
  - intros v (_ & B & _). apply Forall_app. split; [apply to_be_bytes_ok|exact B].
  - intros v rest (U & B & L). rewrite <- app_assoc.
    pose proof (wire_decode u32_wire (Z.of_nat (length v)) (v ++ rest)) as D. cbn [wire_bytes wire_norm u32_laws id encoded_size u32_wire] in D.
    rewrite D by (cbn; unfold in_u32; lia).
    rewrite Nat2Z.id, !length_app, length_to_be_bytes.
    destruct (Nat.ltb_spec (4 + (length v + length rest)) (4 + length v)); [lia|].
    rewrite drop_app_length' by (symmetry; apply length_to_be_bytes). rewrite take_app_length. now rewrite from_utf8_lossy_ok.
  - intros b v n. destruct (decode_from u32_wire b) as [[len k]|]; [|discriminate]. cbv zeta.
    destruct (Nat.ltb_spec (length b) (k + Z.to_nat len)); intros [=]; subst; lia.
Defined.

(** A [String] survives the wire; a string of more bytes than the prefix can
    count is refused, and nothing is written; and whatever the bytes are, what is
    read is a string that lies within them. *)
Theorem string_round_trip v out :
  utf8_ok v = true -> bytes_ok v ->
  (Z.of_nat (length v) <= u32_MAX ->
     exists b, encode_to string_wire v out = Ok (out ++ b) /\ length b = encoded_size string_wire v /\
       forall rest, decode_from string_wire (b ++ rest) = Ok (v, length b)) /\
  (u32_MAX < Z.of_nat (length v) -> encode_to string_wire v out = Err (StringTooLong (Z.of_nat (length v)))) /\
  (forall input s n, decode_from string_wire input = Ok (s, n) -> utf8_ok s = true /\ (n <= length input)%nat).
Proof.
  intros U B. split; [|split].
  - intros L. assert (wire_ok string_wire v) as Ok by (cbn; auto). exists (wire_bytes string_wire v).
    pose proof (wire_length string_wire v Ok) as E. split; [now apply wire_encode|]. split; [exact E|].
    intros rest. rewrite E. exact (wire_decode string_wire v rest Ok).
  - intros L. cbn [encode_to string_wire]. now replace (u32_MAX <? Z.of_nat (length v)) with true by lia.
  - intros input s n D. split; [|now apply (wire_consumed string_wire) in D]. cbn [decode_from string_wire] in D.
    destruct (decode_from u32_wire input) as [[len k]|]; [|discriminate]. cbv zeta in D.
    destruct (_ <? _)%nat; [discriminate|]. injection D as <- _. apply from_utf8_lossy_string.
Qed.
