(* ===== verification/AudioPayload.v ===== *)
(** The messages of Link Audio: src/src/link_audio/payload.rs and
    src/src/link_audio/messages.rs.

    An entry of a payload implements the trait [Entry]; [EntryLaws] is what
    the implementations promise: the body is appended to the output, takes
    [body_size] bytes and is read back, up to [entry_norm] where the wire is
    coarser than the value.  A message is a protocol header, a message header
    and a payload, or for audio the bare body of an [AudioBuffer]. *)

From stdpp Require Import base list numbers strings.
From Stdlib Require Import ZArith Lia ZifyBool SpecFloat.
From S2P Require Import Prelude Chrono F64 Encoding Beats Tempo Entries AudioStream.

Definition AUDIO_MAX_MESSAGE_SIZE : Z := 1200.
Definition AUDIO_HEADER_SIZE : Z := 24.
Definition MAX_PAYLOAD_SIZE : Z := AUDIO_MAX_MESSAGE_SIZE - AUDIO_HEADER_SIZE.
Definition MAX_NAME_SIZE : nat := 256.
Definition AUDIO_PROTOCOL_HEADER_SIZE : nat := 8.

(** ["chnnlsv"] and version 1 *)
Definition AUDIO_PROTOCOL_HEADER : bytes := [99; 104; 110; 110; 108; 115; 118; 1].
Definition AUDIO_MESSAGE_HEADER_SIZE : nat := 12.

Definition PEER_ANNOUNCEMENT : Z := 1.
Definition CHANNEL_BYES : Z := 2.
Definition AUDIO_PONG : Z := 3.
Definition CHANNEL_REQUEST : Z := 4.
Definition STOP_CHANNEL_REQUEST : Z := 5.
Definition AUDIO_BUFFER : Z := 6.

Notation Id := NodeId.

(** ** Message headers *)

Record AudioMessageHeader := MkAudioHeader {
  audio_message_type : Z;
  audio_ttl : Z;
  audio_group_id : Z;
  audio_ident : Id
}.

Definition AudioMessageHeader_encode (h : AudioMessageHeader) (out : bytes) : bytes :=
  let out := write_u8 (audio_message_type h) out in
  let out := write_u8 (audio_ttl h) out in
  let out := write_u16 (audio_group_id h) out in
  out ++ audio_ident h.

Definition AudioMessageHeader_decode : Read AudioMessageHeader :=
  t <-? read_u8;
  ttl <-? read_u8;
  g <-? read_u16;
  i <-? read_array 8;
  ret (MkAudioHeader t ttl g i).

Definition audio_encode_message (from : Id) (ttl message_type : Z) (payload : bytes) : result bytes AudioError :=
  let header := MkAudioHeader message_type ttl 0 from in
  let message_size := Z.of_nat (AUDIO_PROTOCOL_HEADER_SIZE + AUDIO_MESSAGE_HEADER_SIZE + length payload) in
  if AUDIO_MAX_MESSAGE_SIZE <? message_size then Err (AudioMessageTooLarge message_size AUDIO_MAX_MESSAGE_SIZE)
  else Ok (AudioMessageHeader_encode header AUDIO_PROTOCOL_HEADER ++ payload).

Definition audio_buffer_message (from : Id) (payload : bytes) : result bytes AudioError :=
  audio_encode_message from 0 AUDIO_BUFFER payload.

Definition audio_parse_message_header (data : bytes) : result (AudioMessageHeader * nat) AudioError :=
  let min_message_size := (AUDIO_PROTOCOL_HEADER_SIZE + AUDIO_MESSAGE_HEADER_SIZE)%nat in
  if (length data <? min_message_size)%nat then Err (AudioRange "message shorter than header")
  else if negb (bool_decide (take AUDIO_PROTOCOL_HEADER_SIZE data = AUDIO_PROTOCOL_HEADER))
  then Err (AudioInvalid "unexpected protocol header")
  else
    let reader := Reader_new (drop AUDIO_PROTOCOL_HEADER_SIZE (take min_message_size data)) in
    let? (header, _) := AudioMessageHeader_decode reader in
    Ok (header, min_message_size).

(** ** Entries *)

Definition ENTRY_HEADER_SIZE : Z := 8.

Definition PEER_INFO_KEY : Z := fourcc 95 95 112 105.
Definition CHANNEL_ID_KEY : Z := fourcc 99 104 105 100.
Definition CHANNEL_ANNOUNCEMENTS_KEY : Z := fourcc 97 117 99 97.
Definition CHANNEL_BYES_KEY : Z := fourcc 97 117 99 98.
Definition AUDIO_BUFFER_KEY : Z := fourcc 95 97 98 117.
Definition AUDIO_SESSION_MEMBERSHIP_KEY : Z := fourcc 115 101 115 115.
Definition AUDIO_HOST_TIME_KEY : Z := fourcc 95 95 104 116.

Class Entry (T : Type) := {
  KEY : Z;
  body_size : T -> Z;
  encode_body : T -> bytes -> bytes;
  decode_body : Read T
}.
Arguments KEY T {_}.

Section EntryMethods.
Context `{E : Entry T}.

Definition size_in_byte_stream (v : T) : Z := as_u32 (ENTRY_HEADER_SIZE + body_size v).

Definition audio_entry_encode (v : T) (out : bytes) : bytes :=
  encode_body v (write_u32 (body_size v) (write_u32 (KEY T) out)).

Definition to_payload (v : T) : bytes := audio_entry_encode v [].
End EntryMethods.

(** The closure [visit] is a function of the state it captures. *)
Section Parse.
Context {S : Type} (visit : Z -> S -> Read S).

(** One entry; the body is read with a cursor of its own. *)
Definition parse_entry (s : S) : Read S :=
  key <-? read_u32;
  size <-? read_u32;
  body <-? read_bytes (Z.to_nat size);
  match visit key s (Reader_new body) with
  | Ok (s, _) => ret s
  | Err e => fail e
  end.

Fixpoint parse_entries (fuel : nat) (s : S) (r : ByteStreamReader) : option (result S AudioError) :=
  match fuel with
  | O => None
  | Datatypes.S fuel =>
      if (8 <=? remaining r)%nat then
        match parse_entry s r with
        | Ok (s, r) => parse_entries fuel s r
        | Err e => Some (Err e)
        end
      else Some (Ok s)
  end.

(** An entry takes its header's eight bytes at least: a round per byte and one
    more is enough. *)
Definition audio_parse_payload (data : bytes) (s : S) : option (result S AudioError) :=
  parse_entries (Datatypes.S (length data)) s (Reader_new data).
End Parse.

(** [truncate_name]: the longest prefix that ends at a character boundary. *)
Fixpoint boundary_below (name : bytes) (e : nat) : nat :=
  match e with
  | O => O
  | S e' => if is_char_boundary name e then e else boundary_below name e'
  end.

Definition truncate_name (name : bytes) : bytes :=
  if (length name <=? MAX_NAME_SIZE)%nat then name
  else take (boundary_below name MAX_NAME_SIZE) name.

Definition write_id (id : Id) (out : bytes) : bytes := out ++ id.
Definition read_id : Read Id := read_array 8.

Record PeerInfo := MkPeerInfo { peer_name : bytes }.

Definition PeerInfo_new (name : bytes) : PeerInfo := MkPeerInfo (truncate_name name).

#[global] Instance PeerInfo_entry : Entry PeerInfo := {|
  KEY := PEER_INFO_KEY;
  body_size p := size_of_string (peer_name p);
  encode_body p out := write_string (peer_name p) out;
  decode_body := name <-? read_string; ret (MkPeerInfo name)
|}.

Record ChannelId := MkChannelId { channel_ident : Id }.

#[global] Instance ChannelId_entry : Entry ChannelId := {|
  KEY := CHANNEL_ID_KEY;
  body_size _ := 8;
  encode_body c out := write_id (channel_ident c) out;
  decode_body := i <-? read_id; ret (MkChannelId i)
|}.

Record AudioMembership := MkAudioMembership { audio_session : SessionId }.

#[global] Instance AudioMembership_entry : Entry AudioMembership := {|
  KEY := AUDIO_SESSION_MEMBERSHIP_KEY;
  body_size _ := 8;
  encode_body m out := write_id (session_node (audio_session m)) out;
  decode_body := i <-? read_id; ret (MkAudioMembership (MkSessionId i))
|}.

Record ChannelAnnouncement := MkAnnouncement { announced_name : bytes; announced_id : Id }.

Definition ChannelAnnouncement_size (c : ChannelAnnouncement) : Z :=
  as_u32 (size_of_string (announced_name c) + 8).

Definition ChannelAnnouncement_encode (c : ChannelAnnouncement) (out : bytes) : bytes :=
  write_id (announced_id c) (write_string (announced_name c) out).

Definition ChannelAnnouncement_decode : Read ChannelAnnouncement :=
  name <-? read_string;
  id <-? read_id;
  ret (MkAnnouncement name id).

Record ChannelAnnouncements := MkAnnouncements { announced_channels : list ChannelAnnouncement }.

(** [.sum::<u32>()] *)
Definition sum_u32 (l : list Z) : Z := fold_left (fun a b => as_u32 (a + b)) l 0.

#[global] Instance ChannelAnnouncements_entry : Entry ChannelAnnouncements := {|
  KEY := CHANNEL_ANNOUNCEMENTS_KEY;
  body_size a := as_u32 (4 + sum_u32 (map ChannelAnnouncement_size (announced_channels a)));
  encode_body a out :=
    fold_left (fun out c => ChannelAnnouncement_encode c out) (announced_channels a)
      (write_u32 (as_u32 (Z.of_nat (length (announced_channels a)))) out);
  decode_body := l <-? read_vec ChannelAnnouncement_decode; ret (MkAnnouncements l)
|}.

Record ChannelByes := MkByes { byes : list Id }.

#[global] Instance ChannelByes_entry : Entry ChannelByes := {|
  KEY := CHANNEL_BYES_KEY;
  body_size b := as_u32 (4 + sum_u32 (map (fun _ => 8) (byes b)));
  encode_body b out :=
    fold_left (fun out i => write_id i out) (byes b) (write_u32 (as_u32 (Z.of_nat (length (byes b)))) out);
  decode_body := l <-? read_vec read_id; ret (MkByes l)
|}.

Inductive Codec := InvalidCodec | PcmI16.

#[global] Instance Codec_eq_dec : EqDecision Codec.
Proof. solve_decision. Defined.

Definition Codec_to_u8 (c : Codec) : Z := match c with InvalidCodec => 0 | PcmI16 => 1 end.
Definition Codec_from_u8 (v : Z) : Codec := if v =? 1 then PcmI16 else InvalidCodec.

Record Chunk := MkChunk {
  chunk_count : Z;
  chunk_frames : Z;
  chunk_begin : Beats;
  chunk_tempo : Tempo
}.

Definition Chunk_SIZE : Z := 8 + 2 + 8 + 8.

Record AudioBuffer := MkAudioBuffer {
  channel_id : Id;
  audio_session_id : Id;
  audio_chunks : list Chunk;
  audio_codec : Codec;
  audio_sample_rate : Z;
  audio_num_channels : Z;
  audio_bytes : bytes
}.

Definition AudioBuffer_default : AudioBuffer := MkAudioBuffer NodeId_default NodeId_default [] InvalidCodec 0 0 [].

Definition NON_AUDIO_BYTES : Z := 50.
Definition BUFFER_MAX_AUDIO_BYTES : Z := MAX_PAYLOAD_SIZE - NON_AUDIO_BYTES.

Definition num_frames (b : AudioBuffer) : Z := sum_u32 (map chunk_frames (audio_chunks b)).

Section AudioPayload.
Context `{Ch : Chrono}.

Record AudioHostTime := MkAudioHostTime { audio_time : Duration }.

#[export] Instance AudioHostTime_entry : Entry AudioHostTime := {|
  KEY := AUDIO_HOST_TIME_KEY;
  body_size _ := 8;
  encode_body h out :=
    write_i64 (match num_microseconds (audio_time h) with Some us => us | None => 0 end) out;
  decode_body := us <-? read_i64; ret (MkAudioHostTime (Duration_microseconds us))
|}.

Definition Chunk_encode (c : Chunk) (out : bytes) : bytes :=
  let out := write_u64 (chunk_count c) out in
  let out := write_u16 (chunk_frames c) out in
  let out := write_i64 (micro_beats (chunk_begin c)) out in
  write_i64 (micros (micros_per_beat (chunk_tempo c))) out.

Definition Chunk_decode : Read Chunk :=
  count <-? read_u64;
  frames <-? read_u16;
  b <-? read_i64;
  period <-? read_i64;
  ret (MkChunk count frames (Beats_from_microbeats b)
         (if period =? 0 then Tempo_new f64_zero else Tempo_from_duration (Duration_microseconds period))).

(** Not [!bpm.is_finite() || bpm <= 0.0]. *)
Definition tempo_playable (t : Tempo) : bool := negb (negb (f64_is_finite (bpm t)) || f64_leb (bpm t) f64_zero).

#[export] Instance AudioBuffer_entry : Entry AudioBuffer := {|
  KEY := AUDIO_BUFFER_KEY;
  body_size b :=
    as_u32 (8 + 8 + 4 + as_u32 (Z.of_nat (length (audio_chunks b))) * Chunk_SIZE + 1 + 4 + 1 + 2
            + as_u32 (Z.of_nat (length (audio_bytes b))));
  encode_body b out :=
    let out := write_id (channel_id b) out in
    let out := write_id (audio_session_id b) out in
    let out := write_u32 (as_u32 (Z.of_nat (length (audio_chunks b)))) out in
    let out := fold_left (fun out c => Chunk_encode c out) (audio_chunks b) out in
    let out := write_u8 (Codec_to_u8 (audio_codec b)) out in
    let out := write_u32 (audio_sample_rate b) out in
    let out := write_u8 (audio_num_channels b) out in
    let out := write_u16 (as_u16 (Z.of_nat (length (audio_bytes b)))) out in
    out ++ audio_bytes b;
  decode_body :=
    channel <-? read_id;
    session <-? read_id;
    chunks <-? read_vec Chunk_decode;
    ensure negb (length chunks =? 0)%nat else AudioInvalid "audio buffer has no chunks";
    ensure forallb (fun c => tempo_playable (chunk_tempo c)) chunks else AudioInvalid "invalid tempo";
    codec <-? read_u8;
    ensure bool_decide (Codec_from_u8 codec = PcmI16) else AudioInvalid "unknown codec";
    sample_rate <-? read_u32;
    ensure negb (sample_rate =? 0) else AudioInvalid "invalid sample rate";
    num_channels <-? read_u8;
    ensure (num_channels =? 1) || (num_channels =? 2) else AudioInvalid "invalid channel count";
    num_bytes <-? read_u16;
    ensure num_bytes <=? BUFFER_MAX_AUDIO_BYTES else AudioRange "byte count exceeds maximum";
    ensure sum_u32 (map chunk_frames chunks) * num_channels * 2 =? num_bytes
      else AudioInvalid "byte count / frame count mismatch";
    data <-? read_bytes (Z.to_nat num_bytes);
    ret (MkAudioBuffer channel session chunks (Codec_from_u8 codec) sample_rate num_channels data)
|}.

Definition encode_raw (b : AudioBuffer) : bytes := encode_body b [].

Definition decode_raw (data : bytes) : result AudioBuffer AudioError :=
  let? (b, _) := decode_body (Reader_new data) in Ok b.
End AudioPayload.

(** ** Announcements and requests *)

Record PeerAnnouncement := MkPeerAnnouncement {
  announcing_node : Id;
  announced_session : SessionId;
  announced_peer : PeerInfo;
  announced_list : ChannelAnnouncements
}.

Definition announcement_payload_size (a : PeerAnnouncement) : Z :=
  as_u32 (as_u32 (size_in_byte_stream (MkAudioMembership (announced_session a))
                  + size_in_byte_stream (announced_peer a))
          + size_in_byte_stream (announced_list a)).

Definition announcement_to_payload (a : PeerAnnouncement) : bytes :=
  audio_entry_encode (announced_list a)
    (audio_entry_encode (announced_peer a)
       (audio_entry_encode (MkAudioMembership (announced_session a)) [])).

Definition announcement_visit (key : Z) (a : PeerAnnouncement) : Read PeerAnnouncement :=
  if key =? AUDIO_SESSION_MEMBERSHIP_KEY then
    m <-? decode_body;
    ret (MkPeerAnnouncement (announcing_node a) (audio_session m) (announced_peer a) (announced_list a))
  else if key =? PEER_INFO_KEY then
    p <-? decode_body;
    ret (MkPeerAnnouncement (announcing_node a) (announced_session a) p (announced_list a))
  else if key =? CHANNEL_ANNOUNCEMENTS_KEY then
    l <-? decode_body;
    ret (MkPeerAnnouncement (announcing_node a) (announced_session a) (announced_peer a) l)
  else ret a.

Definition announcement_from_payload (node : Id) (data : bytes) : option (result PeerAnnouncement AudioError) :=
  audio_parse_payload announcement_visit data
    (MkPeerAnnouncement node SessionId_default (MkPeerInfo []) (MkAnnouncements [])).

Record ChannelRequest := MkRequest { requesting_peer : Id; requested_channel : Id }.

Definition request_to_payload (r : ChannelRequest) : bytes := to_payload (MkChannelId (requested_channel r)).

Definition request_visit (key : Z) (r : ChannelRequest) : Read ChannelRequest :=
  if key =? CHANNEL_ID_KEY then
    c <-? decode_body; ret (MkRequest (requesting_peer r) (channel_ident c))
  else ret r.

Definition request_from_payload (peer : Id) (data : bytes) : option (result ChannelRequest AudioError) :=
  audio_parse_payload request_visit data (MkRequest peer NodeId_default).

(** The stop request has the fields and the payload of the request. *)
Record ChannelStopRequest := MkStopRequest { stopping_peer : Id; stopped_channel : Id }.

Definition stop_to_payload (r : ChannelStopRequest) : bytes := to_payload (MkChannelId (stopped_channel r)).

Definition stop_from_payload (peer : Id) (data : bytes) : option (result ChannelStopRequest AudioError) :=
  let! r := request_from_payload peer data in
  Some (let? r := r in Ok (MkStopRequest (requesting_peer r) (requested_channel r))).

(** ** What entries promise *)

Class EntryLaws (T : Type) `{E : Entry T} := {
  entry_ok : T -> Prop;
  entry_norm : T -> T;
  entry_body : T -> bytes;
  entry_encodes v out : entry_ok v -> encode_body v out = out ++ entry_body v;
  entry_length v : entry_ok v -> Z.of_nat (length (entry_body v)) = body_size v;
  entry_fits v : entry_ok v -> body_size v + ENTRY_HEADER_SIZE <= u32_MAX;
  entry_reads v : entry_ok v -> reads decode_body (entry_body v) (entry_norm v);
  entry_key : in_u32 (KEY T)
}.

Definition id_ok (i : Id) : Prop := length i = 8%nat.

Lemma as_u32_id z : 0 <= z <= u32_MAX -> as_u32 z = z.
Proof. intros R. apply Z.mod_small. zlia. Qed.

Lemma as_u32_range z : in_u32 (as_u32 z).
Proof. unfold as_u32, in_u32. pose proof (Z.mod_pos_bound z (2 ^ 32) ltac:(lia)). zlia. Qed.

Lemma fold_sum_acc l a :
  Forall (fun x => 0 <= x) l -> 0 <= a -> a + fold_right Z.add 0 l <= u32_MAX ->
  fold_left (fun a b => as_u32 (a + b)) l a = a + fold_right Z.add 0 l.
Proof.
  intros F. revert a. induction F as [|x l Hx F IH]; intros a Ha Hs; simpl in *; [lia|].
  assert (0 <= fold_right Z.add 0 l) by (clear - F; induction F; simpl; lia).
  rewrite as_u32_id by lia. rewrite IH; lia.
Qed.

Lemma sum_u32_nonneg l : 0 <= sum_u32 l.
Proof.
  unfold sum_u32. destruct l as [|x l] using rev_ind; [simpl; lia|]. rewrite fold_left_app. simpl.
  apply as_u32_range.
Qed.

Lemma sum_u32_id l :
  Forall (fun x => 0 <= x) l -> fold_right Z.add 0 l <= u32_MAX -> sum_u32 l = fold_right Z.add 0 l.
Proof. intros F H. unfold sum_u32. rewrite fold_sum_acc; auto; lia. Qed.

Lemma fold_write {A} (w : A -> bytes -> bytes) (body : A -> bytes) l out :
  (forall x, In x l -> forall o, w x o = o ++ body x) ->
  fold_left (fun o x => w x o) l out = out ++ flat_map body l.
Proof.
  revert out. induction l as [|x l IH]; intros out H; simpl; [now rewrite app_nil_r|].
  rewrite IH by (intros; apply H; now right). rewrite (H x (or_introl eq_refl)). now rewrite <- app_assoc.
Qed.

Lemma flat_map_length {A} (body : A -> bytes) (size : A -> Z) l :
  (forall x, In x l -> Z.of_nat (length (body x)) = size x) ->
  Z.of_nat (length (flat_map body l)) = fold_right Z.add 0 (map size l).
Proof.
  induction l as [|x l IH]; intros H; simpl; [reflexivity|]. rewrite length_app, Nat2Z.inj_add.
  rewrite IH by (intros; apply H; now right). now rewrite (H x (or_introl eq_refl)).
Qed.

Lemma reads_id i : id_ok i -> reads read_id i i.
Proof. apply reads_bytes. Qed.

Definition string_ok (s : bytes) : Prop := utf8_ok s = true /\ Z.of_nat (length s) + 20 <= u32_MAX.

Definition string_body (s : bytes) : bytes := to_be_bytes 4 (Z.of_nat (length s)) ++ s.

Lemma write_string_eq s out : string_ok s -> write_string s out = out ++ string_body s.
Proof.
  intros [_ L]. unfold write_string, write_u32, string_body. rewrite as_u32_id by zlia. now rewrite <- app_assoc.
Qed.

Lemma string_body_length s : string_ok s -> Z.of_nat (length (string_body s)) = size_of_string s.
Proof.
  intros [_ L]. unfold size_of_string, string_body. rewrite length_app, length_to_be_bytes.
  rewrite !as_u32_id; rewrite ?as_u32_id; zlia.
Qed.

Lemma size_of_string_eq s : string_ok s -> size_of_string s = 4 + Z.of_nat (length s).
Proof. intros [_ L]. unfold size_of_string. rewrite !as_u32_id; rewrite ?as_u32_id; zlia. Qed.

#[global] Instance PeerInfo_laws : EntryLaws PeerInfo.
Proof.
  refine {| entry_ok p := string_ok (peer_name p); entry_norm := id; entry_body p := string_body (peer_name p) |}.
  - intros p out H. now apply write_string_eq.
  - intros p H. now apply string_body_length.
  - intros p H. cbn. rewrite size_of_string_eq by assumption. destruct H. unfold ENTRY_HEADER_SIZE. lia.
  - intros [s] [V L]. apply (reads_bind_ret _ MkPeerInfo), reads_string; [exact V|cbn in L; lia].
  - compute; split; discriminate.
Defined.

#[global] Instance ChannelId_laws : EntryLaws ChannelId.
Proof.
  refine {| entry_ok c := id_ok (channel_ident c); entry_norm := id; entry_body c := channel_ident c |}.
  - reflexivity.
  - intros c H. cbn. now rewrite H.
  - cbn. intros _ _. unfold ENTRY_HEADER_SIZE. zlia.
  - intros [i] H. apply (reads_bind_ret _ MkChannelId), reads_id, H.
  - compute; split; discriminate.
Defined.

#[global] Instance AudioMembership_laws : EntryLaws AudioMembership.
Proof.
  refine {| entry_ok c := id_ok (session_node (audio_session c)); entry_norm := id;
            entry_body c := session_node (audio_session c) |}.
  - reflexivity.
  - intros c H. cbn. now rewrite H.
  - cbn. intros _ _. unfold ENTRY_HEADER_SIZE. zlia.
  - intros [[i]] H. apply (reads_bind_ret _ (fun i => MkAudioMembership (MkSessionId i)) i i), reads_id, H.
  - compute; split; discriminate.
Defined.

(** *** Announced channels *)

Definition announcement_body (c : ChannelAnnouncement) : bytes := string_body (announced_name c) ++ announced_id c.

Definition channel_ok (c : ChannelAnnouncement) : Prop := string_ok (announced_name c) /\ id_ok (announced_id c).

Lemma announcement_encode_eq c out : channel_ok c ->
  ChannelAnnouncement_encode c out = out ++ announcement_body c.
Proof.
  intros [H _]. unfold ChannelAnnouncement_encode, write_id. rewrite write_string_eq by assumption.
  now rewrite <- app_assoc.
Qed.

Lemma announcement_reads c : channel_ok c -> reads ChannelAnnouncement_decode (announcement_body c) c.
Proof.
  destruct c as [s i]. intros [[V L] I]. unfold announcement_body.
  cbn [announced_name announced_id] in *.
  eapply reads_bind; [apply reads_string; [exact V|zlia]|].
  apply (reads_bind_ret _ (MkAnnouncement s)), reads_id, I.
Qed.

Lemma announcement_length c : channel_ok c ->
  Z.of_nat (length (announcement_body c)) = ChannelAnnouncement_size c.
Proof.
  intros [H I]. unfold ChannelAnnouncement_size, announcement_body. rewrite length_app, Nat2Z.inj_add, I.
  rewrite string_body_length by assumption. rewrite size_of_string_eq by assumption. destruct H as [_ H].
  rewrite as_u32_id; zlia.
Qed.

Definition sizes_sum {A} (f : A -> Z) (l : list A) : Z := fold_right Z.add 0 (map f l).

Lemma sizes_sum_nonneg {A} (f : A -> Z) l : (forall x, In x l -> 0 <= f x) -> 0 <= sizes_sum f l.
Proof.
  unfold sizes_sum. induction l as [|x l IH]; intros H; simpl; [lia|].
  specialize (IH ltac:(intros; apply H; now right)). specialize (H x (or_introl eq_refl)). lia.
Qed.

Lemma sum_u32_sizes {A} (f : A -> Z) l :
  (forall x, In x l -> 0 <= f x) -> sizes_sum f l <= u32_MAX -> sum_u32 (map f l) = sizes_sum f l.
Proof.
  intros F H. apply sum_u32_id; [|exact H]. apply List.Forall_map, List.Forall_forall. exact F.
Qed.

(** Every element takes at least one byte, so the bytes bound the count. *)
Lemma length_le_sizes {A} (f : A -> Z) l :
  (forall x, In x l -> 1 <= f x) -> Z.of_nat (length l) <= sizes_sum f l.
Proof.
  unfold sizes_sum. induction l as [|x l IH]; intros H; simpl; [lia|].
  specialize (IH ltac:(intros; apply H; now right)). specialize (H x (or_introl eq_refl)). lia.
Qed.

Lemma announcement_size_pos c : channel_ok c -> 1 <= ChannelAnnouncement_size c.
Proof.
  intros H. rewrite <- announcement_length by assumption. destruct H as [_ I].
  unfold announcement_body. rewrite length_app, I. lia.
Qed.

(** Opens the operations of an entry but none of the byte functions. *)
Ltac cbn_entry :=
  cbn [body_size encode_body decode_body ChannelAnnouncements_entry ChannelByes_entry announced_channels byes] in *.

#[global] Instance ChannelAnnouncements_laws : EntryLaws ChannelAnnouncements.
Proof.
  refine {| entry_ok a := (forall c, In c (announced_channels a) -> channel_ok c) /\
              sizes_sum ChannelAnnouncement_size (announced_channels a) + 12 <= u32_MAX;
            entry_norm := id;
            entry_body a := to_be_bytes 4 (Z.of_nat (length (announced_channels a)))
                            ++ flat_map announcement_body (announced_channels a) |}.
  - intros a out [F L]. cbn_entry. pose proof (length_le_sizes _ _ (fun c H => announcement_size_pos c (F c H))).
    rewrite (fold_write _ announcement_body) by (intros c Hc o; apply announcement_encode_eq, F, Hc).
    unfold write_u32. rewrite as_u32_id by zlia. now rewrite <- app_assoc.
  - intros a [F L]. cbn_entry. pose proof (sizes_sum_nonneg _ _ (fun c H => Z.le_trans 0 1 _ ltac:(lia) (announcement_size_pos c (F c H)))).
    rewrite sum_u32_sizes, as_u32_id by (zlia || (intros c H'; pose proof (announcement_size_pos c (F c H')); lia)).
    rewrite length_app, length_to_be_bytes, Nat2Z.inj_add.
    rewrite (flat_map_length _ ChannelAnnouncement_size) by (intros c Hc; apply announcement_length, F, Hc).
    unfold sizes_sum. lia.
  - intros a [F L]. cbn_entry. pose proof (sizes_sum_nonneg _ _ (fun c H => Z.le_trans 0 1 _ ltac:(lia) (announcement_size_pos c (F c H)))).
    rewrite sum_u32_sizes, as_u32_id by (zlia || (intros c H'; pose proof (announcement_size_pos c (F c H')); lia)).
    unfold ENTRY_HEADER_SIZE. lia.
  - intros [l] [F L]. cbn_entry. pose proof (length_le_sizes _ _ (fun c H => announcement_size_pos c (F c H))).
    apply (reads_bind_ret _ MkAnnouncements). rewrite <- (List.map_id l) at 3. apply reads_vec_map; [lia|].
    intros c Hc. split; [apply announcement_reads, F, Hc|]. intros E.
    pose proof (announcement_size_pos c (F c Hc)) as P. rewrite <- announcement_length, E in P by auto. simpl in P. lia.
  - compute; split; discriminate.
Defined.

Lemma byes_sum (l : list Id) : fold_right Z.add 0 (map (fun _ => 8) l) = 8 * Z.of_nat (length l).
Proof. induction l as [|? ? IH]; cbn [map fold_right length]; lia. Qed.

Lemma byes_sum_u32 (l : list Id) : 8 * Z.of_nat (length l) <= u32_MAX ->
  sum_u32 (map (fun _ => 8) l) = 8 * Z.of_nat (length l).
Proof. intros L. rewrite <- byes_sum. apply sum_u32_sizes; [lia|]. unfold sizes_sum. now rewrite byes_sum. Qed.

#[global] Instance ChannelByes_laws : EntryLaws ChannelByes.
Proof.
  refine {| entry_ok b := (forall i, In i (byes b) -> id_ok i) /\
              8 * Z.of_nat (length (byes b)) + 12 <= u32_MAX;
            entry_norm := id;
            entry_body b := to_be_bytes 4 (Z.of_nat (length (byes b))) ++ flat_map id (byes b) |}.
  - intros b out [F L]. cbn_entry. rewrite (fold_write write_id id) by reflexivity.
    unfold write_u32. rewrite as_u32_id by zlia. now rewrite <- app_assoc.
  - intros b [F L]. cbn_entry. rewrite byes_sum_u32, as_u32_id by zlia.
    rewrite length_app, length_to_be_bytes, Nat2Z.inj_add.
    rewrite (flat_map_length _ (fun _ => 8)) by (intros i Hi; unfold id; now rewrite (F i Hi)).
    rewrite byes_sum. lia.
  - intros b [F L]. cbn_entry. rewrite byes_sum_u32, as_u32_id by zlia. unfold ENTRY_HEADER_SIZE. lia.
  - intros [l] [F L]. cbn_entry. apply (reads_bind_ret _ MkByes).
    assert (forall i, In i l -> reads read_id (id i) ((fun i => i) i) /\ id i <> []) as R.
    { intros i Hi. split; [apply reads_id, F, Hi|]. specialize (F i Hi). unfold id, id_ok in *. now destruct i. }
    apply reads_vec_map in R; [|zlia]. now rewrite List.map_id in R.
  - compute; split; discriminate.
Defined.

(** *** Audio *)

(** [lia] with the sizes of the protocol. *)
Ltac sizes :=
  unfold BUFFER_MAX_AUDIO_BYTES, MAX_PAYLOAD_SIZE, AUDIO_MAX_MESSAGE_SIZE, AUDIO_HEADER_SIZE, NON_AUDIO_BYTES,
    Chunk_SIZE, ENTRY_HEADER_SIZE, in_u16 in *; zlia.

Section AudioBufferLaws.
Context `{Laws : ChronoLaws}.

Definition chunk_body (c : Chunk) : bytes :=
  to_be_bytes 8 (chunk_count c) ++ to_be_bytes 2 (chunk_frames c) ++ to_be_bytes 8 (micro_beats (chunk_begin c))
  ++ to_be_bytes 8 (micros (micros_per_beat (chunk_tempo c))).

(** The tempo is carried as its beat period in whole microseconds. *)
Definition tempo_norm (t : Tempo) : Tempo :=
  let period := micros (micros_per_beat t) in
  if period =? 0 then Tempo_new f64_zero else Tempo_from_duration (Duration_microseconds period).

Definition chunk_norm (c : Chunk) : Chunk :=
  MkChunk (chunk_count c) (chunk_frames c) (chunk_begin c) (tempo_norm (chunk_tempo c)).

Definition chunk_ok (c : Chunk) : Prop :=
  in_u64 (chunk_count c) /\ in_u16 (chunk_frames c) /\ Beats_ok (chunk_begin c).

Lemma chunk_encode_eq c out : Chunk_encode c out = out ++ chunk_body c.
Proof. unfold Chunk_encode, write_u64, write_u16, write_i64, chunk_body. now rewrite <- !app_assoc. Qed.

Lemma chunk_body_length c : Z.of_nat (length (chunk_body c)) = Chunk_SIZE.
Proof. unfold chunk_body. now rewrite !length_app, !length_to_be_bytes. Qed.

Lemma chunk_reads c : chunk_ok c -> reads Chunk_decode (chunk_body c) (chunk_norm c).
Proof.
  destruct c as [n f [b] t]. intros (R1 & R2 & R3). unfold chunk_body.
  cbn [chunk_count chunk_frames chunk_begin chunk_tempo micro_beats Beats_value] in *.
  eapply reads_bind; [apply reads_u64, R1|]. eapply reads_bind; [apply reads_u16, R2|].
  eapply reads_bind; [apply reads_i64, R3|].
  apply (reads_bind_ret _ (fun p => MkChunk n f (MkBeats b)
    (if p =? 0 then Tempo_new f64_zero else Tempo_from_duration (Duration_microseconds p)))).
  apply reads_i64, micros_range.
Qed.

Definition buffer_ok (b : AudioBuffer) : Prop :=
  id_ok (channel_id b) /\ id_ok (audio_session_id b) /\
  audio_chunks b <> [] /\ 26 * Z.of_nat (length (audio_chunks b)) <= 100000000 /\
  (forall c, In c (audio_chunks b) -> chunk_ok c /\ tempo_playable (tempo_norm (chunk_tempo c)) = true) /\
  audio_codec b = PcmI16 /\ 0 < audio_sample_rate b <= u32_MAX /\
  (audio_num_channels b = 1 \/ audio_num_channels b = 2) /\
  num_frames b * audio_num_channels b * 2 = Z.of_nat (length (audio_bytes b)) /\
  Z.of_nat (length (audio_bytes b)) <= BUFFER_MAX_AUDIO_BYTES.

Definition buffer_norm (b : AudioBuffer) : AudioBuffer :=
  MkAudioBuffer (channel_id b) (audio_session_id b) (map chunk_norm (audio_chunks b)) (audio_codec b)
    (audio_sample_rate b) (audio_num_channels b) (audio_bytes b).

Definition buffer_body (b : AudioBuffer) : bytes :=
  channel_id b ++ audio_session_id b
  ++ (to_be_bytes 4 (Z.of_nat (length (audio_chunks b))) ++ flat_map chunk_body (audio_chunks b))
  ++ [Codec_to_u8 (audio_codec b)] ++ to_be_bytes 4 (audio_sample_rate b) ++ [audio_num_channels b]
  ++ to_be_bytes 2 (Z.of_nat (length (audio_bytes b))) ++ audio_bytes b.

Lemma as_u16_id z : 0 <= z <= 65535 -> as_u16 z = z.
Proof. intros R. apply Z.mod_small. lia. Qed.

Lemma chunks_length l : Z.of_nat (length (flat_map chunk_body l)) = 26 * Z.of_nat (length l).
Proof.
  rewrite (flat_map_length chunk_body (fun _ => 26)) by (intros; apply chunk_body_length).
  induction l as [|? ? IH]; cbn [map fold_right length]; lia.
Qed.

Lemma buffer_encode_eq b out : buffer_ok b -> encode_body b out = out ++ buffer_body b.
Proof.
  intros (_ & _ & _ & L & _ & _ & _ & _ & _ & B).
  cbn [encode_body AudioBuffer_entry]. rewrite (fold_write _ chunk_body) by (intros; apply chunk_encode_eq).
  unfold write_id, write_u8, write_u16, write_u32, buffer_body. rewrite as_u32_id, as_u16_id by sizes.
  now rewrite <- !app_assoc.
Qed.

Lemma buffer_reads b : buffer_ok b -> reads decode_body (buffer_body b) (buffer_norm b).
Proof.
  destruct b as [ci si ch co sr nc by_]. unfold buffer_ok, buffer_body, buffer_norm, num_frames.
  cbn [channel_id audio_session_id audio_chunks audio_codec audio_sample_rate audio_num_channels audio_bytes].
  intros (I1 & I2 & Ne & L & F & -> & Sr & Nc & Fr & B). cbn [decode_body AudioBuffer_entry].
  eapply reads_bind; [apply reads_id, I1|]. eapply reads_bind; [apply reads_id, I2|].
  eapply reads_bind.
  { apply (reads_vec_map _ chunk_body chunk_norm); [zlia|]. intros c Hc. split; [apply chunk_reads, F, Hc|].
    intros E. pose proof (chunk_body_length c) as X. now rewrite E in X. }
  apply reads_ensure; [rewrite length_map; now destruct ch|].
  apply reads_ensure.
  { apply forallb_forall. intros c Hc. apply in_map_iff in Hc as (c' & <- & Hc). now apply F. }
  eapply reads_bind; [apply reads_u8; compute; split; discriminate|].
  apply reads_ensure; [reflexivity|]. eapply reads_bind; [apply reads_u32; zlia|].
  apply reads_ensure; [lia|]. eapply reads_bind; [apply reads_u8; zlia|].
  apply reads_ensure; [lia|].
  eapply reads_bind; [apply reads_u16; sizes|].
  apply reads_ensure; [sizes|]. apply reads_ensure; [rewrite map_map; apply Z.eqb_eq, Fr|].
  rewrite Nat2Z.id.
  apply (reads_bind_ret _ (fun d => MkAudioBuffer ci si (map chunk_norm ch) PcmI16 sr nc d)), reads_bytes.
  reflexivity.
Qed.

Lemma buffer_body_length b : buffer_ok b ->
  Z.of_nat (length (buffer_body b)) =
  28 + 26 * Z.of_nat (length (audio_chunks b)) + Z.of_nat (length (audio_bytes b)).
Proof.
  intros (I1 & I2 & _). unfold buffer_body, id_ok in *.
  rewrite !length_app, !length_to_be_bytes, I1, I2, !Nat2Z.inj_add, chunks_length. cbn [length]. lia.
Qed.

#[export] Instance AudioBuffer_laws : EntryLaws AudioBuffer.
Proof.
  refine {| entry_ok := buffer_ok; entry_norm := buffer_norm; entry_body := buffer_body |}.
  - intros b out Hb. now apply buffer_encode_eq.
  - intros b Hb. rewrite buffer_body_length by assumption. destruct Hb as (_ & _ & _ & L & _ & _ & _ & _ & _ & B).
    cbn [body_size AudioBuffer_entry].
    rewrite !as_u32_id; rewrite ?as_u32_id; sizes.
  - intros b (_ & _ & _ & L & _ & _ & _ & _ & _ & B). cbn [body_size AudioBuffer_entry].
    rewrite !as_u32_id; rewrite ?as_u32_id; sizes.
  - intros b Hb. now apply buffer_reads.
  - compute; split; discriminate.
Defined.

Lemma decode_buffer_eq b : buffer_ok b ->
  decode_raw (encode_raw b) = Ok (buffer_norm b) /\
  Z.of_nat (length (encode_raw b)) = Z.of_nat (length (buffer_body b)).
Proof.
  intros Hb. unfold encode_raw, decode_raw. rewrite buffer_encode_eq by exact Hb. simpl app.
  destruct (reads_all _ _ _ (buffer_reads b Hb)) as [r ->]. auto.
Qed.

(** An audio buffer is written in exactly [body_size] bytes and its receiver
    reads the same samples, format and chunk positions back; the tempo of each
    chunk arrives rounded to the microsecond of its beat period. *)
Theorem audio_buffer_round_trip b :
  buffer_ok b ->
  decode_raw (encode_raw b) = Ok (buffer_norm b) /\ Z.of_nat (length (encode_raw b)) = body_size b.
Proof.
  intros Hb. destruct (decode_buffer_eq b Hb) as [-> ->]. split; [reflexivity|].
  exact (entry_length (EntryLaws := AudioBuffer_laws) b Hb).
Qed.

(** *** Tempos *)

Lemma f64_60e9 : f64_mul (f64_of_int 60) (f64_of_int 1000000000) = S754_finite false 7864320000000000 (-17).
Proof. vm_compute. reflexivity. Qed.

(** The quotient of two floats near [2 ^ 36] and [2 ^ 30] is a normal float. *)
Lemma tempo_quotient n :
  0 < n < 2 ^ 53 ->
  exists m e, f64_div (S754_finite false 7864320000000000 (-17)) (f64_of_int n) = S754_finite false m e.
Proof.
  intros Hn. unfold f64_of_int, binary_normalize. destruct n as [|p|p]; try lia.
  destruct (binary_round_small_normal false p ltac:(lia)) as (m & k & -> & Hk & Hm & HM).
  unfold f64_div, SFdiv, SFdiv_core_binary.
  rewrite (Zdigits2_log2 (Zpos m)), (Z.log2_unique (Zpos m) 52) by lia.
  replace (Zdigits2 7864320000000000) with 53 by (vm_compute; reflexivity).
  replace (Z.min _ _) with (k - 70) by (unfold fexp, emin, f64_prec, f64_emax; lia).
  replace (-17 - - k - (k - 70)) with 53 by lia. cbv iota. rewrite Z.shiftl_mul_pow2 by lia.
  pose proof (Z_div_mod (7864320000000000 * 2 ^ 53) (Zpos m) ltac:(lia)) as D.
  destruct (Z.div_eucl _ _) as [q r]. cbn [xorb].
  destruct (binary_round_aux_close q (k - 70) (new_location (Zpos m) r)) as (m3 & j & -> & _); [nia|lia|eauto].
Qed.

(** A tempo between 20 and 999 beats per minute arrives as one the receiver
    accepts. *)
Lemma clamped_tempo_playable x :
  valid_f64 x -> f64_leb (f64_of_int 20) x = true -> f64_leb x (f64_of_int 999) = true ->
  tempo_playable (tempo_norm (MkTempo x)) = true.
Proof.
  intros V L1 L2. pose proof (period_micros_bounds x V L1 L2) as B. unfold tempo_norm, micros_per_beat.
  set (p := period_micros (MkTempo x)) in *. clearbody p.
  rewrite micros_eq, clamp_i128_id, duration_nanos_from_id by (unfold max_nanos; zlia).
  rewrite Z.quot_mul by lia. rewrite clamp_i64_id by zlia. destruct (Z.eqb_spec p 0); [lia|].
  unfold Tempo_from_duration. rewrite duration_nanos_microseconds by zlia. rewrite f64_60e9.
  destruct (tempo_quotient (p * 1000) ltac:(lia)) as (m & e & ->). reflexivity.
Qed.

(** C37 Whatever bytes arrive, an audio buffer that is accepted is sound: it has
    chunks, every tempo is finite and positive, the codec is PCM, there is a
    sample rate, one or two channels, and exactly the bytes its frames take,
    within the size of a message. *)
Theorem decoded_buffer_sound data b :
  decode_raw data = Ok b ->
  audio_chunks b <> [] /\ Forall (fun c => tempo_playable (chunk_tempo c) = true) (audio_chunks b) /\
  audio_codec b = PcmI16 /\ audio_sample_rate b <> 0 /\
  (audio_num_channels b = 1 \/ audio_num_channels b = 2) /\
  Z.of_nat (length (audio_bytes b)) = num_frames b * audio_num_channels b * 2 /\
  Z.of_nat (length (audio_bytes b)) <= BUFFER_MAX_AUDIO_BYTES.
Proof.
  unfold decode_raw. destruct (decode_body (Reader_new data)) as [[b' r']|] eqn:D; [|discriminate].
  intros [= ->]. cbn [decode_body AudioBuffer_entry] in D. unread D.
  match goal with E : read_bytes _ _ = Ok _ |- _ => apply read_bytes_inv in E as (_ & Lb & _) end.
  unfold num_frames. cbn [audio_chunks audio_codec audio_sample_rate audio_num_channels audio_bytes].
  rewrite Lb. pose proof (sum_u32_nonneg (map chunk_frames a1)).
  repeat match goal with |- _ /\ _ => split end.
  - now destruct a1.
  - now apply List.Forall_forall, forallb_forall.
  - now apply bool_decide_eq_true in C1.
  - lia.
  - lia.
  - apply Z.eqb_eq in C5. rewrite C5, Z2Nat.id; lia.
  - lia.
Qed.
End AudioBufferLaws.

(** ** Payloads *)

Section ParseProperties.
Context {S : Type} (visit : Z -> S -> Read S).

(** The rest of the input is parsed from state [s] to state [s']. *)
Definition parses (s : S) (bs : bytes) (s' : S) : Prop :=
  forall fuel r, reader_ok r -> rest r = bs -> (length bs < fuel)%nat ->
  parse_entries visit fuel s r = Some (Ok s').

Lemma parses_end s bs : (length bs < 8)%nat -> parses s bs s.
Proof.
  intros L [|fuel] r Hok E Hf; [lia|]. cbn [parse_entries]. rewrite <- rest_length, E.
  destruct (Nat.leb_spec 8 (length bs)); [lia|reflexivity].
Qed.

Lemma parses_entry s e bs s1 s' :
  reads (parse_entry visit s) e s1 -> (8 <= length e)%nat -> parses s1 bs s' -> parses s (e ++ bs) s'.
Proof.
  intros R L P [|fuel] r Hok E Hf; [lia|]. cbn [parse_entries]. rewrite <- rest_length, E.
  rewrite length_app in *. destruct (Nat.leb_spec 8 (length e + length bs)); [|lia].
  destruct (R r bs Hok E) as (r' & -> & E' & Hok'). apply P; [assumption..|lia].
Qed.

(** An entry written by [audio_entry_encode] and visited by its own decoder. *)
Lemma reads_entry `{EL : EntryLaws T} (v : T) s (f : T -> S) :
  entry_ok v -> visit (KEY T) s = bind decode_body (fun x => ret (f x)) ->
  reads (parse_entry visit s) (to_be_bytes 4 (KEY T) ++ to_be_bytes 4 (body_size v) ++ entry_body v) (f (entry_norm v)).
Proof.
  intros Hv Vis. pose proof (entry_length v Hv) as L. pose proof (entry_fits v Hv) as F.
  unfold ENTRY_HEADER_SIZE in F.
  eapply reads_bind; [apply reads_u32, entry_key|]. eapply reads_bind; [apply reads_u32; zlia|].
  rewrite <- (app_nil_r (entry_body v)). eapply reads_bind; [apply reads_bytes; lia|].
  rewrite Vis.
  destruct (reads_all _ _ _ (reads_bind_ret _ f _ _ (entry_reads v Hv))) as [r' ->]. apply reads_ret.
Qed.

Lemma parse_entry_progress s r s' r' :
  reader_ok r -> parse_entry visit s r = Ok (s', r') -> reader_ok r' /\ (length (rest r') < length (rest r))%nat.
Proof.
  intros Hok E. unfold parse_entry in E. unread E.
  destruct (read_u32_rest _ _ _ E0 Hok) as [Ok1 L1]. destruct (read_u32_rest _ _ _ E1 Ok1) as [Ok2 L2].
  destruct (read_bytes_rest _ _ _ _ E2 Ok2) as [Ok3 L3].
  destruct (visit _ _ _) as [[x ?]|]; [|discriminate]. injection E as <- <-. split; [exact Ok3|lia].
Qed.

Lemma parse_entries_total fuel s r :
  reader_ok r -> (length (rest r) < fuel)%nat -> exists res, parse_entries visit fuel s r = Some res.
Proof.
  revert s r. induction fuel as [|fuel IH]; intros s r Hok Hf; [lia|]. cbn [parse_entries].
  destruct (_ <=? _)%nat; [|eauto]. destruct (parse_entry visit s r) as [[s1 r1]|] eqn:E; [|eauto].
  destruct (parse_entry_progress _ _ _ _ Hok E). apply IH; [assumption|lia].
Qed.

(** Parsing a Link Audio payload ends for every byte string and every
    visitor, with the visitor's final state or an error. *)
Theorem audio_parse_terminates data s : exists res, audio_parse_payload visit data s = Some res.
Proof.
  apply parse_entries_total; [unfold reader_ok; simpl; lia|]. change (rest (Reader_new data)) with data. lia.
Qed.
End ParseProperties.

(** What [audio_entry_encode] appends. *)
Definition entry_wire `{EL : EntryLaws T} (v : T) : bytes :=
  to_be_bytes 4 (KEY T) ++ to_be_bytes 4 (body_size v) ++ entry_body v.

Lemma entry_encode_wire `{EL : EntryLaws T} (v : T) out :
  entry_ok v -> audio_entry_encode v out = out ++ entry_wire v.
Proof.
  intros H. unfold audio_entry_encode, write_u32, entry_wire. rewrite entry_encodes by exact H.
  now rewrite <- !app_assoc.
Qed.

Lemma entry_size `{EL : EntryLaws T} (v : T) :
  entry_ok v -> size_in_byte_stream v = 8 + body_size v /\ 0 <= body_size v.
Proof.
  intros H. pose proof (entry_length v H) as L. pose proof (entry_fits v H) as F. unfold size_in_byte_stream.
  unfold ENTRY_HEADER_SIZE in *. rewrite as_u32_id by zlia. lia.
Qed.

Lemma entry_wire_length `{EL : EntryLaws T} (v : T) :
  entry_ok v -> Z.of_nat (length (entry_wire v)) = size_in_byte_stream v /\ (8 <= length (entry_wire v))%nat.
Proof.
  intros H. pose proof (entry_length v H) as L. pose proof (entry_fits v H) as F. unfold size_in_byte_stream, entry_wire.
  rewrite !length_app, !length_to_be_bytes. unfold ENTRY_HEADER_SIZE in *. rewrite as_u32_id by zlia. lia.
Qed.

Definition announcement_ok (a : PeerAnnouncement) : Prop :=
  entry_ok (MkAudioMembership (announced_session a)) /\ entry_ok (announced_peer a) /\ entry_ok (announced_list a) /\
  body_size (announced_peer a) + body_size (announced_list a) + 100 <= u32_MAX.

Section HostTimeLaws.
Context `{Laws : ChronoLaws}.

Definition host_micros (h : AudioHostTime) : Z :=
  match num_microseconds (audio_time h) with Some us => us | None => 0 end.

Lemma host_micros_range h : in_i64 (host_micros h).
Proof.
  unfold host_micros. rewrite num_microseconds_spec.
  destruct (checked_i64 _) eqn:E; [now apply checked_i64_Some in E as [? ->]|zlia].
Qed.

(** The time is carried in whole microseconds. *)
#[export] Instance AudioHostTime_laws : EntryLaws AudioHostTime.
Proof.
  refine {| entry_ok _ := True; entry_norm h := MkAudioHostTime (Duration_microseconds (host_micros h));
            entry_body h := to_be_bytes 8 (host_micros h) |}.
  - reflexivity.
  - intros h _. now rewrite length_to_be_bytes.
  - intros h _. cbn. unfold ENTRY_HEADER_SIZE. zlia.
  - intros h _. apply (reads_bind_ret _ (fun us => MkAudioHostTime (Duration_microseconds us))), reads_i64, host_micros_range.
  - compute; split; discriminate.
Defined.

Lemma host_time_ok (h : AudioHostTime) : entry_ok h.
Proof. exact I. Qed.
End HostTimeLaws.

(** An entry no visitor asks for is skipped. *)
Lemma reads_skipped {S} (visit : Z -> S -> Read S) `{EL : EntryLaws T} (v : T) s :
  entry_ok v -> visit (KEY T) s = ret s -> reads (parse_entry visit s) (entry_wire v) s.
Proof.
  intros Hv Vis. pose proof (entry_length v Hv) as L. pose proof (entry_fits v Hv) as F.
  unfold ENTRY_HEADER_SIZE in F. unfold entry_wire.
  eapply reads_bind; [apply reads_u32, entry_key|]. eapply reads_bind; [apply reads_u32; zlia|].
  rewrite <- (app_nil_r (entry_body v)). eapply reads_bind; [apply reads_bytes; lia|].
  rewrite Vis. apply reads_ret.
Qed.

(** A payload is parsed from its first byte. *)
Lemma parses_payload {S} (visit : Z -> S -> Read S) s bs s' :
  parses visit s bs s' -> audio_parse_payload visit bs s = Some (Ok s').
Proof. intros P. apply P; [unfold reader_ok; simpl; lia|reflexivity|lia]. Qed.

(** An announcement is read from the front of a payload. *)
Lemma announcement_parses a tail a' :
  announcement_ok a -> parses announcement_visit a tail a' ->
  parses announcement_visit (MkPeerAnnouncement (announcing_node a) SessionId_default (MkPeerInfo []) (MkAnnouncements []))
    (announcement_to_payload a ++ tail) a'.
Proof.
  destruct a as [node sess peer chans]. intros (O1 & O2 & O3 & _) P. unfold announcement_to_payload.
  cbn [announcing_node announced_session announced_peer announced_list] in *.
  rewrite !entry_encode_wire by assumption. rewrite app_nil_l, <- !app_assoc.
  destruct (entry_wire_length _ O1) as [_ B1], (entry_wire_length _ O2) as [_ B2], (entry_wire_length _ O3) as [_ B3].
  eapply parses_entry; [apply (reads_entry _ _ _ (fun m => MkPeerAnnouncement node (audio_session m)
    (MkPeerInfo []) (MkAnnouncements []))); [exact O1|reflexivity]|exact B1|].
  eapply parses_entry; [apply (reads_entry _ _ _ (fun p => MkPeerAnnouncement node sess p (MkAnnouncements [])));
    [exact O2|reflexivity]|exact B2|].
  eapply parses_entry; [apply (reads_entry _ _ _ (fun l => MkPeerAnnouncement node sess peer l));
    [exact O3|reflexivity]|exact B3|]. exact P.
Qed.

Lemma announcement_payload_length a :
  announcement_ok a -> Z.of_nat (length (announcement_to_payload a)) = announcement_payload_size a.
Proof.
  destruct a as [node sess peer chans]. intros (O1 & O2 & O3 & F). unfold announcement_to_payload.
  cbn [announcing_node announced_session announced_peer announced_list] in *.
  rewrite !entry_encode_wire by assumption. rewrite app_nil_l.
  destruct (entry_wire_length _ O1) as [L1 _], (entry_wire_length _ O2) as [L2 _], (entry_wire_length _ O3) as [L3 _].
  rewrite !length_app, !Nat2Z.inj_add, L1, L2, L3. unfold announcement_payload_size in *.
  cbn [announcing_node announced_session announced_peer announced_list] in *.
  destruct (entry_size _ O1) as [-> _], (entry_size _ O2) as [-> ?], (entry_size _ O3) as [-> ?].
  change (body_size (MkAudioMembership sess)) with 8 in *. rewrite !as_u32_id; rewrite ?as_u32_id; zlia.
Qed.

(** The announcement of a peer takes exactly [payload_size] bytes, and the
    receiver reads the same session, name and channels out of it. *)
Theorem announcement_round_trip a :
  announcement_ok a ->
  announcement_from_payload (announcing_node a) (announcement_to_payload a) = Some (Ok a) /\
  Z.of_nat (length (announcement_to_payload a)) = announcement_payload_size a.
Proof.
  intros H. split; [|now apply announcement_payload_length]. apply parses_payload.
  rewrite <- (app_nil_r (announcement_to_payload a)). apply announcement_parses; [exact H|]. apply parses_end. simpl. lia.
Qed.

Lemma request_decodes peer channel :
  id_ok channel ->
  request_from_payload peer (to_payload (MkChannelId channel)) = Some (Ok (MkRequest peer channel)).
Proof.
  intros H. assert (entry_ok (MkChannelId channel)) as O by exact H. apply parses_payload.
  unfold to_payload. rewrite entry_encode_wire by exact O. destruct (entry_wire_length _ O) as [_ B].
  rewrite app_nil_l, <- (app_nil_r (entry_wire _)).
  eapply parses_entry; [apply (reads_entry _ _ _ (fun c => MkRequest peer (channel_ident c)));
    [exact O|reflexivity]|exact B|]. apply parses_end. simpl. lia.
Qed.

(** A request for a channel, and one to stop it, reach the peer as they were
    made. *)
Theorem request_round_trip peer channel :
  id_ok channel ->
  request_from_payload peer (request_to_payload (MkRequest peer channel)) = Some (Ok (MkRequest peer channel)) /\
  stop_from_payload peer (stop_to_payload (MkStopRequest peer channel)) = Some (Ok (MkStopRequest peer channel)).
Proof.
  intros H. pose proof (request_decodes peer channel H) as E. split; [exact E|].
  unfold stop_from_payload, stop_to_payload. cbn [stopped_channel]. now rewrite E.
Qed.

(** ** Names *)

Lemma boundary_below_spec name e :
  (boundary_below name e <= e)%nat /\ is_char_boundary name (boundary_below name e) = true /\
  (forall i, (boundary_below name e < i <= e)%nat -> is_char_boundary name i = false).
Proof.
  induction e as [|e IH]; [split; [|split]; [reflexivity..|intros; lia]|]. cbn [boundary_below].
  destruct (is_char_boundary name (S e)) eqn:B; [split; [|split]; [lia|exact B|intros; lia]|].
  destruct IH as (L & C & M). split; [|split]; [lia|exact C|]. intros i Hi.
  destruct (decide (i = S e)) as [->|]; [exact B|apply M; lia].
Qed.

(** A name is cut to the 256 bytes the wire allows without breaking a
    character: what remains is a string, a prefix of the name, and no longer
    prefix that ends between characters would fit. *)
Theorem truncate_name_sound name :
  utf8_ok name = true ->
  exists n, truncate_name name = take n name /\ utf8_ok (take n name) = true /\
    (length (truncate_name name) <= MAX_NAME_SIZE)%nat /\
    forall i, (n < i <= length name)%nat -> (i <= MAX_NAME_SIZE)%nat -> is_char_boundary name i = false.
Proof.
  intros V. unfold truncate_name. destruct (Nat.leb_spec (length name) MAX_NAME_SIZE) as [L|L].
  - exists (length name). rewrite firstn_all. repeat split; [exact V|exact L|]. intros i Hi. lia.
  - destruct (boundary_below_spec name MAX_NAME_SIZE) as (B & C & M).
    exists (boundary_below name MAX_NAME_SIZE). repeat split.
    + apply utf8_ok_take; [exact V|exact C|lia].
    + rewrite length_take. lia.
    + intros i Hi Hm. apply M. lia.
Qed.

(** ** Messages *)

Lemma message_decodes from ttl t payload :
  id_ok from -> in_u8 ttl -> in_u8 t -> Z.of_nat (length payload) <= 1180 ->
  exists m, audio_encode_message from ttl t payload = Ok m /\ Z.of_nat (length m) <= AUDIO_MAX_MESSAGE_SIZE /\
    audio_parse_message_header m = Ok (MkAudioHeader t ttl 0 from, 20%nat) /\ drop 20 m = payload.
Proof.
  intros I Rt R Lp. unfold audio_encode_message. cbv zeta.
  destruct (Z.ltb_spec AUDIO_MAX_MESSAGE_SIZE (Z.of_nat (AUDIO_PROTOCOL_HEADER_SIZE + AUDIO_MESSAGE_HEADER_SIZE + length payload))) as [L|L].
  { unfold AUDIO_MAX_MESSAGE_SIZE, AUDIO_PROTOCOL_HEADER_SIZE, AUDIO_MESSAGE_HEADER_SIZE in L. lia. }
  eexists. split; [reflexivity|].
  assert (AudioMessageHeader_encode (MkAudioHeader t ttl 0 from) AUDIO_PROTOCOL_HEADER =
          AUDIO_PROTOCOL_HEADER ++ [t] ++ [ttl] ++ to_be_bytes 2 0 ++ from) as ->.
  { unfold AudioMessageHeader_encode, write_u8, write_u16. cbn [audio_message_type audio_ttl audio_group_id audio_ident].
    now rewrite <- !app_assoc. }
  set (h := [t] ++ [ttl] ++ to_be_bytes 2 0 ++ from).
  assert (length h = 12%nat) as Lh by (subst h; rewrite !length_app, length_to_be_bytes, I; reflexivity).
  rewrite <- app_assoc. rewrite !length_app, Lh. split; [exact L|].
  assert (drop 20 (AUDIO_PROTOCOL_HEADER ++ h ++ payload) = payload) as D.
  { change 20%nat with (length AUDIO_PROTOCOL_HEADER + 12)%nat. rewrite drop_app_add. now rewrite <- Lh, drop_app_length. }
  split; [|exact D]. unfold audio_parse_message_header.
  change (AUDIO_PROTOCOL_HEADER_SIZE + AUDIO_MESSAGE_HEADER_SIZE)%nat with 20%nat.
  destruct (Nat.ltb_spec (length (AUDIO_PROTOCOL_HEADER ++ h ++ payload)) 20) as [X|_].
  { rewrite !length_app, Lh in X. simpl in X. lia. }
  change (take AUDIO_PROTOCOL_HEADER_SIZE (AUDIO_PROTOCOL_HEADER ++ h ++ payload)) with AUDIO_PROTOCOL_HEADER.
  rewrite bool_decide_eq_true_2 by reflexivity. cbn [negb].
  assert (drop AUDIO_PROTOCOL_HEADER_SIZE (take 20 (AUDIO_PROTOCOL_HEADER ++ h ++ payload)) = h) as ->.
  { change 20%nat with (length AUDIO_PROTOCOL_HEADER + 12)%nat. rewrite take_app_add.
    change AUDIO_PROTOCOL_HEADER_SIZE with (length AUDIO_PROTOCOL_HEADER). rewrite drop_app_length.
    now rewrite <- Lh, take_app_length. }
  assert (reads AudioMessageHeader_decode h (MkAudioHeader t ttl 0 from)) as Rd.
  { eapply reads_bind; [apply reads_u8, R|]. eapply reads_bind; [apply reads_u8, Rt|].
    eapply reads_bind; [apply reads_u16; unfold in_u16; lia|].
    apply (reads_bind_ret _ (MkAudioHeader t ttl 0)), reads_bytes, I. }
  destruct (reads_all _ _ _ Rd) as [r ->]. reflexivity.
Qed.

(** A Link Audio message is at most 1200 bytes; the receiver finds the type,
    time to live and sender it was built with, and the payload behind the
    twenty bytes of header.  A payload that does not fit is refused. *)
Theorem audio_message_round_trip from ttl t payload :
  id_ok from -> in_u8 ttl -> in_u8 t ->
  match audio_encode_message from ttl t payload with
  | Ok m => Z.of_nat (length m) <= AUDIO_MAX_MESSAGE_SIZE /\
      audio_parse_message_header m = Ok (MkAudioHeader t ttl 0 from, 20%nat) /\ drop 20 m = payload
  | Err e => 1180 < Z.of_nat (length payload) /\
      e = AudioMessageTooLarge (Z.of_nat (20 + length payload)) AUDIO_MAX_MESSAGE_SIZE
  end.
Proof.
  intros I Rt R. destruct (Z.leb_spec (Z.of_nat (length payload)) 1180) as [L|L].
  - destruct (message_decodes from ttl t payload I Rt R L) as (m & -> & H). exact H.
  - unfold audio_encode_message. cbv zeta. destruct (Z.ltb_spec AUDIO_MAX_MESSAGE_SIZE
      (Z.of_nat (AUDIO_PROTOCOL_HEADER_SIZE + AUDIO_MESSAGE_HEADER_SIZE + length payload))) as [L'|L'].
    + split; [exact L|reflexivity].
    + unfold AUDIO_MAX_MESSAGE_SIZE, AUDIO_PROTOCOL_HEADER_SIZE, AUDIO_MESSAGE_HEADER_SIZE in L'. lia.
Qed.
