(* ===== verification/AudioResizer.v ===== *)
(** Splitting audio into messages: src/src/link_audio/resizer.rs, and the
    buffers of src/src/link_audio/buffer.rs it is fed with.

    The resizer hands each full block to its successor, anything that
    implements the trait [ResizerSink]; [Block] is one such call, and
    [block_log] the successor that records them.  Machine integers keep their
    width: indices and counters wrap as [u32], [u16] and [u64] do. *)

From stdpp Require Import base list numbers strings.
From Stdlib Require Import ZArith Lia ZifyBool SpecFloat.
From S2P Require Import Prelude Chrono F64 Encoding Beats Tempo Entries AudioStream AudioPayload.

(** ** Buffers *)

Record Buffer := MkBuffer {
  buf_sample_rate : Z;
  buf_num_channels : Z;
  buf_num_frames : Z;
  buf_samples : list Z;
  buf_begin_beats : Beats;
  buf_tempo : Tempo;
  buf_count : Z;
  buf_session_id : Id
}.

Definition Buffer_new (num_samples : nat) : Buffer :=
  MkBuffer 0 0 0 (repeat 0 num_samples) (Beats_new f64_zero) (Tempo_new f64_zero) 0 NodeId_default.

Definition Buffer_num_samples (b : Buffer) : Z := buf_num_frames b * buf_num_channels b.

Definition clear_timing (b : Buffer) : Buffer :=
  MkBuffer (buf_sample_rate b) (buf_num_channels b) (buf_num_frames b) (buf_samples b)
    (Beats_new f64_zero) (Tempo_new f64_zero) (buf_count b) (buf_session_id b).

Record BufferInfo := MkInfo {
  info_num_channels : Z;
  info_num_frames : Z;
  info_sample_rate : Z;
  info_count : Z;
  session_beat_time : f64;
  info_tempo : f64;
  info_session_id : Id
}.

Record BufferCallbackHandle := MkHandle { handle_samples : list Z; handle_info : BufferInfo }.

(** ** The resizer *)

(** [fn flush(&mut self, samples, chunks, num_channels, sample_rate, session_id)] *)
Class ResizerSink (K : Type) :=
  sink_flush : K -> list Z -> list Chunk -> Z -> Z -> Id -> K.

Definition u64_add (a b : Z) : Z := (a + b) mod 2 ^ 64.
Definition u64_sub (a b : Z) : Z := (a - b) mod 2 ^ 64.

Record Resizer (K : Type) := MkResizer {
  successor : K;
  max_num_bytes : Z;
  cache : list Z;
  cached_frames : Z;
  available_frames : Z;
  num_channels : Z;
  sample_rate : Z;
  session_id : Id;
  chunks : list Chunk;
  count : Z
}.
Arguments MkResizer {K}.
Arguments successor {K}.
Arguments max_num_bytes {K}.
Arguments cache {K}.
Arguments cached_frames {K}.
Arguments available_frames {K}.
Arguments num_channels {K}.
Arguments sample_rate {K}.
Arguments session_id {K}.
Arguments chunks {K}.
Arguments count {K}.

Definition BEAT_TIMING_TOLERANCE : Beats := MkBeats 1.

Section Resizer.
Context {K : Type} `{Sink : ResizerSink K}.
Implicit Type r : Resizer K.

Definition Resizer_new (s : K) (max_bytes : Z) : Resizer K :=
  MkResizer s max_bytes (repeat 0 (Z.to_nat (max_bytes / 2))) 0 0 0 0 NodeId_default [] 0.

Definition resizer_flush r : Resizer K :=
  match chunks r with
  | [] => MkResizer (successor r) (max_num_bytes r) (cache r) 0 (available_frames r) (num_channels r)
            (sample_rate r) (session_id r) [] (count r)
  | _ =>
      let num_samples := cached_frames r * num_channels r in
      MkResizer
        (sink_flush (successor r) (take (Nat.min (Z.to_nat num_samples) (length (cache r))) (cache r))
           (chunks r) (num_channels r) (sample_rate r) (session_id r))
        (max_num_bytes r) (cache r) 0 (available_frames r) (num_channels r) (sample_rate r) (session_id r) [] (count r)
  end.

Definition chunk_end_beats r (c : Chunk) : Beats :=
  if (sample_rate r =? 0) || f64_eqb (bpm (chunk_tempo c)) f64_zero then chunk_begin c
  else
    let seconds_per_beat := f64_div (f64_of_int 60) (bpm (chunk_tempo c)) in
    let range_duration := f64_div (f64_of_int (chunk_frames c)) (f64_of_int (sample_rate r)) in
    Beats_add (chunk_begin c) (Beats_new (f64_div range_duration seconds_per_beat)).

Definition new_chunk (beats : Beats) (t : Tempo) r : Resizer K :=
  let n := u64_add (count r) 1 in
  let r := MkResizer (successor r) (max_num_bytes r) (cache r) (cached_frames r) (available_frames r)
             (num_channels r) (sample_rate r) (session_id r) (chunks r) n in
  let chunk := MkChunk n 0 beats t in
  let bytes_per_frame := num_channels r * 2 in
  let r := if max_num_bytes r <? (cached_frames r + 1) * bytes_per_frame
                                 + Z.of_nat (length (chunks r)) * Chunk_SIZE
           then resizer_flush r else r in
  let cs := chunks r ++ [chunk] in
  let extra_chunk_bytes := (Z.of_nat (length cs) - 1) * Chunk_SIZE in
  MkResizer (successor r) (max_num_bytes r) (cache r) (cached_frames r)
    (as_u32 (u64_sub (max_num_bytes r) extra_chunk_bytes / bytes_per_frame))
    (num_channels r) (sample_rate r) (session_id r) cs (count r).

(** The inner loop: the channels from [channel] on of one frame.  It ends
    early at the end of the input or of the cache. *)
Fixpoint copy_channels (k : nat) (channel : Z) (samples : list Z) (nc frame cached : Z) (c : list Z) : list Z :=
  match k with
  | O => c
  | S k =>
      let src := Z.to_nat (as_u32 (as_u32 (nc * frame) + channel)) in
      let dst := Z.to_nat (as_u32 (as_u32 (nc * cached) + channel)) in
      if (length samples <=? src)%nat || (length c <=? dst)%nat then c
      else copy_channels k (channel + 1) samples nc frame cached (<[dst := nth src samples 0]> c)
  end.

(** [last.num_frames += 1] *)
Definition bump_chunk (c : Chunk) : Chunk :=
  MkChunk (chunk_count c) (as_u16 (chunk_frames c + 1)) (chunk_begin c) (chunk_tempo c).

Fixpoint bump_last (cs : list Chunk) : list Chunk :=
  match cs with
  | [] => []
  | [c] => [bump_chunk c]
  | c :: cs => c :: bump_last cs
  end.

Definition take_frame (samples : list Z) (nc frame : Z) r : Resizer K :=
  MkResizer (successor r) (max_num_bytes r)
    (copy_channels (Z.to_nat nc) 0 samples nc frame (cached_frames r) (cache r))
    (as_u32 (cached_frames r + 1)) (available_frames r) (num_channels r) (sample_rate r) (session_id r)
    (bump_last (chunks r)) (count r).

(** One round of the outer loop; [more] says whether another follows. *)
Definition process_frame (samples : list Z) (nc frame : Z) (more : bool) (begin_beats : Beats) (t : Tempo) r
  : Resizer K :=
  let r := take_frame samples nc frame r in
  if available_frames r <=? cached_frames r then
    let next_chunk_begin_beats :=
      match last (chunks r) with Some c => chunk_end_beats r c | None => begin_beats end in
    let r := resizer_flush r in
    if more then new_chunk next_chunk_begin_beats t r else r
  else r.

(** The frames from [frame] on. *)
Fixpoint process_frames (k : nat) (frame : Z) (samples : list Z) (nc : Z) (begin_beats : Beats) (t : Tempo) r
  : Resizer K :=
  match k with
  | O => r
  | S k =>
      process_frames k (frame + 1) samples nc begin_beats t
        (process_frame samples nc frame (negb (k =? 0)%nat) begin_beats t r)
  end.

Definition set_format (nc rate : Z) (session : Id) r : Resizer K :=
  MkResizer (successor r) (max_num_bytes r) (cache r) (cached_frames r) (available_frames r) nc rate session
    [] (count r).

(** The chunk the new audio goes to: the open one, unless there is none or the
    timing does not continue it. *)
Definition open_chunk (nc rate : Z) (begin_beats : Beats) (t : Tempo) (session : Id) r : Resizer K :=
  if cached_frames r =? 0 then new_chunk begin_beats t (set_format nc rate session r)
  else
    match last (chunks r) with
    | Some l =>
        if negb (Tempo_eqb t (chunk_tempo l))
           || (Beats_value BEAT_TIMING_TOLERANCE <?
               Beats_value (Beats_abs (Beats_sub begin_beats (chunk_end_beats r l))))
        then new_chunk begin_beats t r else r
    | None => r
    end.

(** Audio of another format is sent before any of the new one is taken. *)
Definition check_format (nc rate : Z) (session : Id) r : Resizer K :=
  if negb (cached_frames r =? 0)
     && (negb (nc =? num_channels r) || negb (rate =? sample_rate r) || negb (bool_decide (session = session_id r)))
  then resizer_flush r else r.

Definition process (samples : list Z) (frames nc rate : Z) (begin_beats : Beats) (t : Tempo) (session : Id) r
  : Resizer K :=
  if nc =? 0 then r
  else
    let r := check_format nc rate session r in
    if frames =? 0 then r
    else
      let r := open_chunk nc rate begin_beats t session r in
      process_frames (Z.to_nat frames) 0 samples nc begin_beats t r.
End Resizer.

(** ** The calls a resizer makes *)

Record Block := MkBlock {
  block_samples : list Z;
  block_chunks : list Chunk;
  block_channels : Z;
  block_rate : Z;
  block_session : Id
}.

#[global] Instance block_log : ResizerSink (list Block) :=
  fun log samples cs nc rate session => log ++ [MkBlock samples cs nc rate session].

(** Any successor sees the calls the log records. *)
Section Log.
Context {K : Type} `{Sink : ResizerSink K}.

Definition apply_block (s : K) (b : Block) : K :=
  sink_flush s (block_samples b) (block_chunks b) (block_channels b) (block_rate b) (block_session b).

Definition apply_log (s : K) (log : list Block) : K := fold_left apply_block log s.

(** The resizer that feeds [s] with what the logging one has recorded. *)
Definition with_sink (s : K) (l : Resizer (list Block)) : Resizer K :=
  MkResizer (apply_log s (successor l)) (max_num_bytes l) (cache l) (cached_frames l) (available_frames l)
    (num_channels l) (sample_rate l) (session_id l) (chunks l) (count l).

Lemma with_sink_flush s l : resizer_flush (with_sink s l) = with_sink s (resizer_flush l).
Proof.
  unfold resizer_flush. cbn [chunks with_sink]. destruct (chunks l); [reflexivity|].
  unfold with_sink, apply_log. cbn. f_equal. unfold sink_flush at 2, block_log. now rewrite fold_left_app.
Qed.

Lemma with_sink_new_chunk s l b t : new_chunk b t (with_sink s l) = with_sink s (new_chunk b t l).
Proof.
  unfold new_chunk. cbv zeta. cbn [with_sink max_num_bytes cached_frames num_channels chunks count].
  destruct (_ <? _); [|reflexivity].
  match goal with |- context [resizer_flush (MkResizer (successor (with_sink s l)) _ _ _ _ _ _ _ _ ?n)] =>
    change (resizer_flush (MkResizer (successor (with_sink s l)) _ _ _ _ _ _ _ _ n))
      with (resizer_flush (with_sink s (MkResizer (successor l) (max_num_bytes l) (cache l) (cached_frames l)
        (available_frames l) (num_channels l) (sample_rate l) (session_id l) (chunks l) n))) end.
  rewrite with_sink_flush. reflexivity.
Qed.

Lemma with_sink_frame s l samples nc f more b t :
  process_frame samples nc f more b t (with_sink s l) = with_sink s (process_frame samples nc f more b t l).
Proof.
  unfold process_frame. change (take_frame samples nc f (with_sink s l)) with (with_sink s (take_frame samples nc f l)).
  set (l' := take_frame samples nc f l).
  change (available_frames (with_sink s l')) with (available_frames l').
  change (cached_frames (with_sink s l')) with (cached_frames l').
  change (chunks (with_sink s l')) with (chunks l'). destruct (_ <=? _); [|reflexivity].
  rewrite with_sink_flush. destruct more; [|reflexivity]. now rewrite with_sink_new_chunk.
Qed.

Lemma with_sink_frames s k f samples nc b t l :
  process_frames k f samples nc b t (with_sink s l) = with_sink s (process_frames k f samples nc b t l).
Proof.
  revert f l. induction k as [|k IH]; intros f l; [reflexivity|]. cbn [process_frames].
  now rewrite with_sink_frame, IH.
Qed.

Lemma with_sink_check s l nc rate session :
  check_format nc rate session (with_sink s l) = with_sink s (check_format nc rate session l).
Proof.
  unfold check_format. rewrite with_sink_flush. cbn [with_sink cached_frames num_channels sample_rate session_id].
  now destruct (_ && _).
Qed.

Lemma with_sink_open s l nc rate b t session :
  open_chunk nc rate b t session (with_sink s l) = with_sink s (open_chunk nc rate b t session l).
Proof.
  unfold open_chunk.
  change (cached_frames (with_sink s l)) with (cached_frames l). change (chunks (with_sink s l)) with (chunks l).
  change (set_format nc rate session (with_sink s l)) with (with_sink s (set_format nc rate session l)).
  rewrite !with_sink_new_chunk. destruct (cached_frames l =? 0); [reflexivity|].
  destruct (last (chunks l)) as [c|]; [|reflexivity].
  change (chunk_end_beats (with_sink s l) c) with (chunk_end_beats l c). now destruct (_ || _).
Qed.

Lemma with_sink_process s samples n nc rate b t session l :
  process samples n nc rate b t session (with_sink s l) = with_sink s (process samples n nc rate b t session l).
Proof.
  unfold process. cbv zeta. rewrite with_sink_check. destruct (nc =? 0), (n =? 0); try reflexivity.
  now rewrite with_sink_open, with_sink_frames.
Qed.
End Log.

(** ** What the resizer keeps *)

Definition frames_of (cs : list Chunk) : Z := fold_right Z.add 0 (map chunk_frames cs).

Lemma frames_of_app a b : frames_of (a ++ b) = frames_of a + frames_of b.
Proof. unfold frames_of. induction a as [|x a IH]; cbn [app map fold_right]; lia. Qed.

Lemma bump_last_snoc cs c : bump_last (cs ++ [c]) = cs ++ [bump_chunk c].
Proof. induction cs as [|x [|y cs] IH]; [reflexivity..|]. cbn [app bump_last] in *. now rewrite IH. Qed.

Section ResizerProperties.
(** What the formats and tempos an application uses satisfy. *)
Context (Pf : Z -> Z -> Id -> Prop) (Pt : Tempo -> Prop).
Notation Resizer := (Resizer (list Block)).
Implicit Type r : Resizer.

Definition chunk_fine (c : Chunk) : Prop :=
  in_u64 (chunk_count c) /\ Beats_ok (chunk_begin c) /\ Pt (chunk_tempo c).

(** A block its receiver can use: no chunk is empty, the chunks describe the
    samples exactly, and all of it fits the allowance of a message. *)
Definition block_ok (max : Z) (b : Block) : Prop :=
  block_chunks b <> [] /\ Forall (fun c => chunk_fine c /\ 1 <= chunk_frames c) (block_chunks b) /\
  Z.of_nat (length (block_samples b)) = frames_of (block_chunks b) * block_channels b /\
  2 * Z.of_nat (length (block_samples b)) + 26 * (Z.of_nat (length (block_chunks b)) - 1) <= max /\
  1 <= block_channels b /\ Pf (block_channels b) (block_rate b) (block_session b).

Definition store_ok r : Prop :=
  2 <= max_num_bytes r <= 65535 /\ length (cache r) = Z.to_nat (max_num_bytes r / 2) /\
  Forall (block_ok (max_num_bytes r)) (successor r).

Definition format_ok r : Prop :=
  1 <= num_channels r /\ 2 * num_channels r <= max_num_bytes r /\ Pf (num_channels r) (sample_rate r) (session_id r).

Definition empty r : Prop := store_ok r /\ chunks r = [] /\ cached_frames r = 0.

(** The bytes of a message beside the first chunk, with [n] frames cached. *)
Definition used r (n : Z) : Z := n * (2 * num_channels r) + 26 * (Z.of_nat (length (chunks r)) - 1).

(** There is audio, and it can be sent. *)
Definition full r : Prop :=
  store_ok r /\ format_ok r /\ chunks r <> [] /\
  Forall (fun c => chunk_fine c /\ 1 <= chunk_frames c) (chunks r) /\
  cached_frames r = frames_of (chunks r) /\ used r (cached_frames r) <= max_num_bytes r.

(** A chunk is open and another frame fits. *)
Definition ready r : Prop :=
  store_ok r /\ format_ok r /\
  (exists cs c, chunks r = cs ++ [c] /\ Forall (fun c => chunk_fine c /\ 1 <= chunk_frames c) cs /\
                chunk_fine c /\ 0 <= chunk_frames c) /\
  cached_frames r = frames_of (chunks r) /\ used r (cached_frames r + 1) <= max_num_bytes r /\
  available_frames r = (max_num_bytes r - 26 * (Z.of_nat (length (chunks r)) - 1)) / (2 * num_channels r).

(** Between two calls. *)
Definition idle r : Prop := empty r \/ (full r /\ ready r).

(** Everything taken in so far: what was handed on and what is cached. *)
Definition stream r : list Z :=
  flat_map block_samples (successor r) ++ take (Z.to_nat (cached_frames r * num_channels r)) (cache r).

Lemma frames_of_nonneg cs : Forall (fun c => chunk_fine c /\ 1 <= chunk_frames c) cs ->
  Z.of_nat (length cs) <= frames_of cs.
Proof.
  unfold frames_of. induction 1 as [|c cs [_ H] _ IH]; cbn [map fold_right length]; lia.
Qed.

Lemma flush_full r : full r -> empty (resizer_flush r) /\ stream (resizer_flush r) = stream r.
Proof.
  intros ((M & C & B) & (N & N2 & F) & Ne & Fc & Ef & U). unfold used in U.
  pose proof (frames_of_nonneg _ Fc) as Q. assert (1 <= Z.of_nat (length (chunks r))) by (destruct (chunks r); [easy|simpl; lia]).
  assert (2 * (cached_frames r * num_channels r) <= max_num_bytes r) by nia.
  assert (cached_frames r * num_channels r <= max_num_bytes r / 2) by (apply Z.div_le_lower_bound; lia).
  assert (0 <= cached_frames r * num_channels r) by nia.
  unfold resizer_flush. destruct (chunks r) as [|c0 cs0] eqn:Ec; [contradiction|]. rewrite <- Ec in *.
  rewrite C, Nat.min_l by lia. unfold sink_flush, block_log. split.
  - unfold empty, store_ok. cbn. repeat split; try (exact C); try lia. apply Forall_app. split; [exact B|].
    repeat constructor; unfold block_ok; cbn; try assumption; try lia.
    + rewrite length_take, C, Nat.min_l by lia. rewrite Z2Nat.id by assumption. now rewrite Ef.
    + rewrite length_take, C, Nat.min_l by lia. lia.
  - unfold stream. cbn [successor cached_frames num_channels cache]. rewrite flat_map_app. cbn [flat_map block_samples].
    simpl Z.to_nat. now rewrite take_0, !app_nil_r.
Qed.

Lemma flush_empty r : empty r -> empty (resizer_flush r) /\ stream (resizer_flush r) = stream r.
Proof.
  intros (S & E & C). unfold resizer_flush. rewrite E. split; [now repeat split; try apply S|].
  unfold stream. cbn [successor cached_frames num_channels cache]. now rewrite C.
Qed.

Lemma flush_idle r : idle r -> empty (resizer_flush r) /\ stream (resizer_flush r) = stream r.
Proof. intros [E|[F _]]; [now apply flush_empty|now apply flush_full]. Qed.

(** A chunk is pushed where a frame of it fits. *)
Lemma push_chunk r n b t :
  store_ok r -> format_ok r -> Forall (fun c => chunk_fine c /\ 1 <= chunk_frames c) (chunks r) ->
  cached_frames r = frames_of (chunks r) -> Beats_ok b -> Pt t -> in_u64 n ->
  (cached_frames r + 1) * (2 * num_channels r) + 26 * Z.of_nat (length (chunks r)) <= max_num_bytes r ->
  let cs := chunks r ++ [MkChunk n 0 b t] in
  let r' := MkResizer (successor r) (max_num_bytes r) (cache r) (cached_frames r)
    (as_u32 (u64_sub (max_num_bytes r) ((Z.of_nat (length cs) - 1) * Chunk_SIZE) / (num_channels r * 2)))
    (num_channels r) (sample_rate r) (session_id r) cs (count r) in
  ready r' /\ stream r' = stream r.
Proof.
  intros (M & C & B) (N & N2 & F) Fc Ef Hb Ht Hn U cs r'. split; [|reflexivity].
  pose proof (frames_of_nonneg _ Fc).
  assert (Z.of_nat (length cs) - 1 = Z.of_nat (length (chunks r))) as El by (subst cs; rewrite length_app; simpl; lia).
  assert (u64_sub (max_num_bytes r) ((Z.of_nat (length cs) - 1) * Chunk_SIZE) =
          max_num_bytes r - 26 * Z.of_nat (length (chunks r))) as Es.
  { rewrite El. unfold u64_sub, Chunk_SIZE. rewrite Z.mod_small; nia. }
  assert (0 <= (max_num_bytes r - 26 * Z.of_nat (length (chunks r))) / (num_channels r * 2) <= 65535).
  { split; [apply Z.div_pos; nia|]. apply Z.div_le_upper_bound; nia. }
  unfold ready, store_ok, format_ok, used, r'. cbn [successor max_num_bytes cache cached_frames available_frames
    num_channels sample_rate session_id chunks count].
  rewrite Es, El, as_u32_id by zlia. repeat split; try assumption; try lia.
  - exists (chunks r), (MkChunk n 0 b t). repeat split; try assumption; try (apply Hn); try (apply Hb); simpl; lia.
  - unfold cs. rewrite frames_of_app. unfold frames_of at 2. simpl. lia.
  - f_equal. lia.
Qed.

Lemma new_chunk_ready r b t :
  (empty r /\ format_ok r) \/ full r -> Beats_ok b -> Pt t ->
  ready (new_chunk b t r) /\ stream (new_chunk b t r) = stream r.
Proof.
  intros Hr Hb Ht. unfold new_chunk. cbv zeta. set (n := u64_add (count r) 1).
  assert (in_u64 n) as Hn by (subst n; unfold u64_add; pose proof (Z.mod_pos_bound (count r + 1) (2 ^ 64) ltac:(lia)); zlia).
  set (r1 := MkResizer _ _ _ _ _ _ _ _ _ n). cbn [max_num_bytes cached_frames num_channels chunks] in *.
  assert ((empty r1 /\ format_ok r1) \/ full r1) as Hr1 by exact Hr.
  assert (stream r1 = stream r) as Hs by reflexivity. rewrite <- Hs. clearbody r1. clear Hr Hs.
  destruct (Z.ltb_spec (max_num_bytes r1) ((cached_frames r1 + 1) * (num_channels r1 * 2)
    + Z.of_nat (length (chunks r1)) * Chunk_SIZE)) as [L|L]; unfold Chunk_SIZE in L.
  - assert (full r1) as Hf.
    { destruct Hr1 as [((_ & E & C) & (_ & N2 & _))|H]; [|exact H]. rewrite E, C in L. simpl in L. lia. }
    destruct (flush_full r1 Hf) as [(S' & E & C) <-]. destruct Hf as ((M & _) & (N & N2 & F) & Ne & _).
    assert (format_ok (resizer_flush r1)) as F'.
    { unfold resizer_flush. destruct (chunks r1); [contradiction|]. now repeat split. }
    assert (num_channels r1 = num_channels (resizer_flush r1)) as ->.
    { unfold resizer_flush. now destruct (chunks r1). }
    apply push_chunk; try assumption; rewrite ?E, ?C; [constructor|reflexivity|].
    destruct F' as (_ & N2' & _). simpl. lia.
  - destruct Hr1 as [((S' & E & C) & F')|(S' & F' & _ & Fc & Ef & _)].
    + apply push_chunk; try assumption; rewrite ?E, ?C; [constructor|reflexivity|].
      destruct F' as (_ & N2' & _). simpl. lia.
    + apply push_chunk; try assumption. lia.
Qed.

(** The channels of one frame land behind what is cached. *)
Lemma copy_channels_spec k ch samples nc f n c :
  0 <= ch -> 0 <= f -> 0 <= n -> ch + Z.of_nat k <= nc ->
  nc * f + ch + Z.of_nat k <= Z.of_nat (length samples) -> nc * n + ch + Z.of_nat k <= Z.of_nat (length c) ->
  Z.of_nat (length samples) <= u32_MAX -> Z.of_nat (length c) <= u32_MAX ->
  let c' := copy_channels k ch samples nc f n c in
  length c' = length c /\
  take (Z.to_nat (nc * n + ch) + k) c' =
  take (Z.to_nat (nc * n + ch)) c ++ take k (drop (Z.to_nat (nc * f + ch)) samples).
Proof.
  revert ch c. induction k as [|k IH]; intros ch c H0 H1 H2 Hk Hs Hc Us Uc; cbn [copy_channels].
  - simpl. now rewrite Nat.add_0_r, take_0, app_nil_r.
  - cbv zeta. assert (0 <= nc * f) by nia. assert (0 <= nc * n) by nia.
    rewrite (as_u32_id (nc * f)), (as_u32_id (nc * n)), !as_u32_id by lia.
    destruct (Nat.leb_spec (length samples) (Z.to_nat (nc * f + ch))); [lia|].
    destruct (Nat.leb_spec (length c) (Z.to_nat (nc * n + ch))); [lia|]. cbn [orb].
    set (d := Z.to_nat (nc * n + ch)) in *. set (s := Z.to_nat (nc * f + ch)) in *.
    set (x := nth s samples 0).
    destruct (IH (ch + 1) (<[d:=x]> c)) as [L T]; try lia; [rewrite length_insert; lia..|].
    rewrite length_insert in L. split; [exact L|].
    replace (Z.to_nat (nc * n + (ch + 1))) with (S d) in T by lia.
    replace (Z.to_nat (nc * f + (ch + 1))) with (S s) in T by lia.
    rewrite Nat.add_succ_comm in T. rewrite T.
    erewrite take_S_r by (apply list_lookup_insert_eq; lia). rewrite take_insert_ge by lia.
    assert (samples !! s = Some x) as Ex by (destruct (nth_lookup_or_length samples s 0); [assumption|lia]).
    rewrite (drop_S samples x s Ex). rewrite <- app_assoc. reflexivity.
Qed.

(** One frame enters the cache. *)
Lemma take_frame_full r samples f :
  ready r -> 0 <= f -> num_channels r * (f + 1) <= Z.of_nat (length samples) ->
  Z.of_nat (length samples) <= u32_MAX ->
  let r' := take_frame samples (num_channels r) f r in
  full r' /\ num_channels r' = num_channels r /\ available_frames r' = available_frames r /\
  chunks r' <> [] /\ length (chunks r') = length (chunks r) /\ cached_frames r' = cached_frames r + 1 /\
  available_frames r' = (max_num_bytes r' - 26 * (Z.of_nat (length (chunks r')) - 1)) / (2 * num_channels r') /\
  stream r' = stream r ++ take (Z.to_nat (num_channels r)) (drop (Z.to_nat (num_channels r * f)) samples).
Proof.
  intros ((M & C & B) & (N & N2 & F) & (cs & c & Ec & Fc & Hc & Hc0) & Ef & U & A) Hf Hs Us. cbv zeta.
  pose proof (frames_of_nonneg _ Fc) as Q.
  assert (frames_of (chunks r) = frames_of cs + chunk_frames c) as Ef'.
  { rewrite Ec, frames_of_app. unfold frames_of at 2. simpl. lia. }
  assert (Z.of_nat (length (chunks r)) = Z.of_nat (length cs) + 1) as El by (rewrite Ec, length_app; simpl; lia).
  unfold used in U. rewrite El in U.
  set (n := cached_frames r) in *. set (nc := num_channels r) in *.
  assert (0 <= n) by lia.
  assert (2 * (nc * (n + 1)) <= max_num_bytes r) as Un by nia.
  assert (nc * (n + 1) <= max_num_bytes r / 2) as Un2 by (apply Z.div_le_lower_bound; lia).
  assert (max_num_bytes r / 2 <= 65535) by (apply Z.div_le_upper_bound; lia).
  assert (n < 65535) by nia.
  destruct (copy_channels_spec (Z.to_nat nc) 0 samples nc f n (cache r)) as [Lc Tc]; try lia; try (rewrite C; zlia).
  unfold take_frame. fold n nc.
  unfold full, store_ok, format_ok, used. cbn [successor max_num_bytes cache cached_frames available_frames
    num_channels sample_rate session_id chunks count].
  rewrite Ec, bump_last_snoc, as_u32_id by zlia.
  assert (length (cs ++ [bump_chunk c]) = length (cs ++ [c])) as Elb by (rewrite !length_app; reflexivity).
  assert (chunk_frames (bump_chunk c) = chunk_frames c + 1) as Eb by (unfold bump_chunk; simpl; apply as_u16_id; lia).
  rewrite Elb. repeat split; try assumption; try lia.
  all: try (now rewrite Lc). all: try (now destruct cs).
  - apply Forall_app. split; [exact Fc|]. repeat constructor; try apply Hc. simpl in *. lia.
  - rewrite frames_of_app. unfold frames_of at 2. simpl in *. lia.
  - rewrite length_app. simpl length. lia.
  - rewrite <- Ec. exact A.
  - unfold stream. cbn [successor cached_frames num_channels cache]. rewrite <- app_assoc. f_equal.
    fold n nc.
    rewrite !Z.add_0_r in Tc. replace (Z.to_nat (nc * n) + Z.to_nat nc)%nat with (Z.to_nat ((n + 1) * nc)) in Tc by nia.
    rewrite Tc. do 2 f_equal. lia.
Qed.

Lemma flush_format r :
  num_channels (resizer_flush r) = num_channels r /\ max_num_bytes (resizer_flush r) = max_num_bytes r /\
  sample_rate (resizer_flush r) = sample_rate r /\ session_id (resizer_flush r) = session_id r.
Proof. unfold resizer_flush. now destruct (chunks r). Qed.

Lemma new_chunk_channels r b t : num_channels (new_chunk b t r) = num_channels r.
Proof.
  unfold new_chunk. cbv zeta. cbn [num_channels]. destruct (_ <? _); [|reflexivity].
  destruct (flush_format (MkResizer (successor r) (max_num_bytes r) (cache r) (cached_frames r)
    (available_frames r) (num_channels r) (sample_rate r) (session_id r) (chunks r) (u64_add (count r) 1))) as [E _].
  exact E.
Qed.

Lemma flush_format_ok r : format_ok r -> format_ok (resizer_flush r).
Proof. unfold format_ok. destruct (flush_format r) as (-> & -> & -> & ->). auto. Qed.

Lemma full_ready r :
  full r ->
  available_frames r = (max_num_bytes r - 26 * (Z.of_nat (length (chunks r)) - 1)) / (2 * num_channels r) ->
  cached_frames r < available_frames r -> ready r.
Proof.
  intros (S & (N & N2 & F) & Ne & Fc & Ef & U) A L. rewrite A in L.
  assert ((cached_frames r + 1) * (2 * num_channels r) <= max_num_bytes r - 26 * (Z.of_nat (length (chunks r)) - 1)).
  { pose proof (Z.mul_div_le (max_num_bytes r - 26 * (Z.of_nat (length (chunks r)) - 1)) (2 * num_channels r) ltac:(lia)).
    nia. }
  unfold ready, format_ok, used. repeat match goal with |- _ /\ _ => split end; try assumption; try apply S; try lia.
  destruct (exists_last Ne) as (cs & c & E). rewrite E in *. apply Forall_app in Fc as [Fc Fl].
  apply Forall_cons in Fl as [[Fl1 Fl2] _]. exists cs, c. repeat split; try assumption; try apply Fl1; lia.
Qed.

Lemma chunk_end_beats_ok r c : Beats_ok (chunk_begin c) -> Beats_ok (chunk_end_beats r c).
Proof.
  intros H. unfold chunk_end_beats. destruct (_ || _); [exact H|]. apply clamp_i64_range.
Qed.

(** Whether the frame filled the message or not. *)
Lemma process_frame_ok r samples f (more : bool) b t :
  ready r -> 0 <= f -> num_channels r * (f + 1) <= Z.of_nat (length samples) ->
  Z.of_nat (length samples) <= u32_MAX -> Beats_ok b -> Pt t ->
  let r' := process_frame samples (num_channels r) f more b t r in
  (if more then ready r' else idle r') /\ num_channels r' = num_channels r /\
  stream r' = stream r ++ take (Z.to_nat (num_channels r)) (drop (Z.to_nat (num_channels r * f)) samples).
Proof.
  intros R Hf Hs Us Hb Ht. cbv zeta. unfold process_frame.
  destruct (take_frame_full r samples f R Hf Hs Us) as (Fu & En & Ea & Ne & El & Ec & A & St).
  set (r1 := take_frame _ _ _ _) in *. clearbody r1. cbv zeta.
  destruct (Z.leb_spec (available_frames r1) (cached_frames r1)) as [L|L].
  - destruct (flush_full r1 Fu) as [Em Es]. destruct (flush_format r1) as (En1 & _).
    destruct more.
    + assert (Beats_ok (match last (chunks r1) with Some c => chunk_end_beats r1 c | None => b end)) as Hb'.
      { destruct (last (chunks r1)) as [c|] eqn:El'; [|exact Hb]. apply chunk_end_beats_ok.
        apply last_Some in El' as (l & El'). destruct Fu as (_ & _ & _ & Fc & _). rewrite El' in Fc.
        apply Forall_app in Fc as [_ Fc]. apply Forall_cons in Fc as [[[_ [Fc _]] _] _]. exact Fc. }
      destruct (new_chunk_ready (resizer_flush r1) _ t
        (or_introl (conj Em (flush_format_ok _ (proj1 (proj2 Fu))))) Hb' Ht) as [R' S'].
      split; [exact R'|]. rewrite new_chunk_channels, S', Es. split; [congruence|exact St].
    + split; [now left|]. rewrite Es. split; [congruence|exact St].
  - pose proof (full_ready r1 Fu A ltac:(lia)) as R1.
    split; [destruct more; [exact R1|now right]|]. split; [exact En|exact St].
Qed.

Lemma process_frames_ok k r samples f b t :
  ready r -> 0 <= f -> (0 < k)%nat -> num_channels r * (f + Z.of_nat k) <= Z.of_nat (length samples) ->
  Z.of_nat (length samples) <= u32_MAX -> Beats_ok b -> Pt t ->
  let r' := process_frames k f samples (num_channels r) b t r in
  idle r' /\ num_channels r' = num_channels r /\
  stream r' = stream r ++ take (Z.to_nat (num_channels r * Z.of_nat k)) (drop (Z.to_nat (num_channels r * f)) samples).
Proof.
  revert r f. induction k as [|k IH]; intros r f R Hf Hk Hs Us Hb Ht; [lia|].
  assert (1 <= num_channels r) by apply R. cbv zeta. cbn [process_frames].
  destruct (process_frame_ok r samples f (negb (k =? 0)%nat) b t R Hf ltac:(nia) Us Hb Ht) as (R' & En & St).
  set (r1 := process_frame _ _ _ _ _ _ _) in *. clearbody r1.
  destruct k as [|k]; cbn [Nat.eqb negb] in R'.
  - split; [exact R'|]. split; [exact En|]. cbn [process_frames]. now rewrite St, Z.mul_1_r.
  - rewrite <- En in *. destruct (IH r1 (f + 1) R' ltac:(lia) ltac:(lia) ltac:(nia) Us Hb Ht) as (I & En' & St').
    split; [exact I|]. split; [exact En'|]. rewrite St', St, <- app_assoc. f_equal.
    replace (Z.to_nat (num_channels r1 * Z.of_nat (S (S k)))) with
      (Z.to_nat (num_channels r1) + Z.to_nat (num_channels r1 * Z.of_nat (S k)))%nat by nia.
    rewrite <- (take_take_drop (drop (Z.to_nat (num_channels r1 * f)) samples)). do 2 f_equal. rewrite drop_drop.
    f_equal. nia.
Qed.

(** A call of [process]: a format the messages have room for, and at least
    as many samples as the frames take. *)
Definition input_ok (max : Z) (b : Buffer) : Prop :=
  1 <= buf_num_channels b /\ 2 * buf_num_channels b <= max /\
  Pf (buf_num_channels b) (buf_sample_rate b) (buf_session_id b) /\
  0 <= buf_num_frames b /\ Buffer_num_samples b <= Z.of_nat (length (buf_samples b)) <= u32_MAX /\
  Beats_ok (buf_begin_beats b) /\ Pt (buf_tempo b).

Definition feed (r : Resizer) (b : Buffer) : Resizer :=
  process (buf_samples b) (buf_num_frames b) (buf_num_channels b) (buf_sample_rate b) (buf_begin_beats b)
    (buf_tempo b) (buf_session_id b) r.

Definition input_samples (b : Buffer) : list Z := take (Z.to_nat (Buffer_num_samples b)) (buf_samples b).

Lemma idle_cached r : idle r -> cached_frames r <> 0 -> full r /\ ready r.
Proof. intros [(_ & _ & E)|H] N; [contradiction|exact H]. Qed.

Lemma full_cached r : full r -> cached_frames r <> 0.
Proof.
  intros (_ & _ & Ne & Fc & Ef & _). pose proof (frames_of_nonneg _ Fc). destruct (chunks r); [contradiction|].
  cbn [length] in *. lia.
Qed.

Lemma check_format_ok r nc rate session :
  idle r ->
  let r' := check_format nc rate session r in
  idle r' /\ stream r' = stream r /\ max_num_bytes r' = max_num_bytes r /\
  (cached_frames r' <> 0 -> num_channels r' = nc).
Proof.
  intros Hi. unfold check_format. destruct (flush_idle r Hi) as [Em Es]. destruct (flush_format r) as (_ & Em2 & _).
  assert (cached_frames (resizer_flush r) = 0) as Z0 by apply Em.
  destruct (Z.eqb_spec (cached_frames r) 0) as [C|C]; cbn [negb andb]; [repeat split; auto; contradiction|].
  destruct (_ || _) eqn:D; [repeat split; [now left|assumption..|contradiction]|].
  repeat split; auto. intros _. lia.
Qed.

Lemma open_chunk_ready r nc rate b t session :
  idle r -> (cached_frames r <> 0 -> num_channels r = nc) ->
  1 <= nc -> 2 * nc <= max_num_bytes r -> Pf nc rate session -> Beats_ok b -> Pt t ->
  let r' := open_chunk nc rate b t session r in
  ready r' /\ stream r' = stream r /\ num_channels r' = nc.
Proof.
  intros Hi Hn N N2 HF Hb Ht. unfold open_chunk. destruct (Z.eqb_spec (cached_frames r) 0) as [C|C].
  - assert (empty r) as Em by (destruct Hi as [E|[F _]]; [exact E|now apply full_cached in F]).
    destruct Em as (S & E & _). set (r0 := set_format nc rate session r).
    destruct (new_chunk_ready r0 b t) as [R' S']; [|assumption..|].
    { left. split; [split; [apply S|split; [reflexivity|exact C]]|]. now repeat split. }
    split; [exact R'|]. rewrite S', new_chunk_channels. split; [|reflexivity].
    unfold stream. cbn. now rewrite C.
  - destruct (idle_cached r Hi C) as [F R]. rewrite <- (Hn C).
    destruct (last (chunks r)); [|now repeat split; try apply R]. destruct (_ || _); [|now repeat split; try apply R].
    destruct (new_chunk_ready r b t (or_intror F) Hb Ht) as [R' S']. rewrite new_chunk_channels. auto.
Qed.

Lemma new_chunk_max r b t : max_num_bytes (new_chunk b t r) = max_num_bytes r.
Proof.
  unfold new_chunk. cbv zeta. cbn [max_num_bytes]. destruct (_ <? _); [|reflexivity].
  match goal with |- max_num_bytes (resizer_flush ?x) = _ => destruct (flush_format x) as (_ & E & _) end. exact E.
Qed.

Lemma process_frames_max k f samples nc b t r : max_num_bytes (process_frames k f samples nc b t r) = max_num_bytes r.
Proof.
  revert f r. induction k as [|k IH]; intros f r; [reflexivity|]. cbn [process_frames]. rewrite IH.
  unfold process_frame. cbv zeta. set (r1 := take_frame _ _ _ _). change (max_num_bytes r) with (max_num_bytes r1).
  destruct (_ <=? _); [|reflexivity]. destruct (flush_format r1) as (_ & E & _).
  destruct (negb _); [now rewrite new_chunk_max|exact E].
Qed.

Lemma open_chunk_max nc rate b t session r : max_num_bytes (open_chunk nc rate b t session r) = max_num_bytes r.
Proof.
  unfold open_chunk. destruct (_ =? 0); [now rewrite new_chunk_max|]. destruct (last _); [|reflexivity].
  destruct (_ || _); [apply new_chunk_max|reflexivity].
Qed.

Lemma feed_ok r b :
  idle r -> input_ok (max_num_bytes r) b ->
  idle (feed r b) /\ stream (feed r b) = stream r ++ input_samples b /\ max_num_bytes (feed r b) = max_num_bytes r.
Proof.
  intros Hi (N & N2 & HF & H0 & Hs & Hb & Ht). unfold feed, process, input_samples, Buffer_num_samples in *.
  destruct (Z.eqb_spec (buf_num_channels b) 0); [lia|]. cbv zeta.
  destruct (check_format_ok r (buf_num_channels b) (buf_sample_rate b) (buf_session_id b) Hi) as (Hi1 & Es1 & Em1 & Hn1).
  set (r1 := check_format _ _ _ _) in *. clearbody r1. rewrite <- Es1, <- Em1 in *.
  destruct (Z.eqb_spec (buf_num_frames b) 0) as [E0|E0].
  { rewrite E0, take_0, app_nil_r. auto. }
  destruct (open_chunk_ready r1 _ (buf_sample_rate b) _ _ (buf_session_id b) Hi1 Hn1 N N2 HF Hb Ht) as (R2 & Es2 & En2).
  pose proof (open_chunk_max (buf_num_channels b) (buf_sample_rate b) (buf_begin_beats b) (buf_tempo b) (buf_session_id b) r1) as Em2.
  set (r2 := open_chunk _ _ _ _ _ _) in *. clearbody r2.
  pose proof (process_frames_ok (Z.to_nat (buf_num_frames b)) r2 (buf_samples b) 0
    (buf_begin_beats b) (buf_tempo b) R2 ltac:(lia) ltac:(lia)) as P.
  rewrite Z2Nat.id, En2 in P by lia. destruct P as (I3 & _ & Es3); try assumption; try lia; [].
  rewrite process_frames_max. split; [exact I3|]. split; [|exact Em2].
  rewrite Es3, Es2, Z.mul_0_r, drop_0. now rewrite (Z.mul_comm (buf_num_channels b)).
Qed.

Lemma feed_all_ok bufs r :
  idle r -> Forall (input_ok (max_num_bytes r)) bufs ->
  idle (fold_left feed bufs r) /\ stream (fold_left feed bufs r) = stream r ++ flat_map input_samples bufs /\
  max_num_bytes (fold_left feed bufs r) = max_num_bytes r.
Proof.
  revert r. induction bufs as [|b bufs IH]; intros r Hi Hb; cbn [fold_left flat_map].
  - now rewrite app_nil_r.
  - apply Forall_cons in Hb as [Hb Hbs]. destruct (feed_ok r b Hi Hb) as (Hi' & Es & Em).
    rewrite <- Em in Hbs. destruct (IH (feed r b) Hi' Hbs) as (Hi2 & Es2 & Em2).
    split; [exact Hi2|]. rewrite Es2, Es, <- app_assoc. split; [reflexivity|congruence].
Qed.

Lemma new_idle max : 2 <= max <= 65535 -> idle (Resizer_new [] max) /\ stream (Resizer_new [] max) = [].
Proof.
  intros M. split; [|reflexivity]. left. repeat split; cbn; try lia; [apply repeat_length|constructor].
Qed.

(** The blocks a resizer hands on for a sequence of buffers and a final
    flush. *)
Definition resize (max : Z) (bufs : list Buffer) : list Block :=
  successor (resizer_flush (fold_left feed bufs (Resizer_new [] max))).

Lemma resize_ok max bufs :
  2 <= max <= 65535 -> Forall (input_ok max) bufs ->
  flat_map block_samples (resize max bufs) = flat_map input_samples bufs /\ Forall (block_ok max) (resize max bufs).
Proof.
  intros M Hb. destruct (new_idle max M) as [Hi Hs].
  destruct (feed_all_ok bufs (Resizer_new [] max) Hi Hb) as (Hi' & Es & Em).
  destruct (flush_idle _ Hi') as [Ee Es']. unfold resize. set (r := resizer_flush _) in *.
  rewrite <- Es' in Es. rewrite Hs in Es. destruct Ee as ((_ & _ & B) & _ & C).
  unfold stream in Es. rewrite C, take_0, app_nil_r in Es. split; [exact Es|].
  unfold r in B at 1. destruct (flush_format (fold_left feed bufs (Resizer_new [] max))) as (_ & Em3 & _).
  rewrite Em3, Em in B. exact B.
Qed.

Lemma resizer_blocks max bufs :
  2 <= max <= 65535 -> Forall (input_ok max) bufs -> Forall (block_ok max) (resize max bufs).
Proof. intros M Hb. now apply resize_ok. Qed.

(** The resizer neither loses, repeats nor reorders audio: for any sequence
    of buffers, formats and tempos changing at will, the samples it hands on
    are the samples it was given. *)
Theorem resizer_conserves_audio max bufs :
  2 <= max <= 65535 -> Forall (input_ok max) bufs ->
  flat_map block_samples (resize max bufs) = flat_map input_samples bufs.
Proof. intros M Hb. now apply resize_ok. Qed.

(** Every block the resizer hands on keeps the allowance of a message, chunk
    descriptions beyond the first included, has no empty chunk, and describes
    exactly the samples it carries. *)
Theorem resizer_blocks_fit max bufs :
  2 <= max <= 65535 -> Forall (input_ok max) bufs -> Forall (block_ok max) (resize max bufs).
Proof. apply resizer_blocks. Qed.
End ResizerProperties.
