(* ===== verification/AudioCodec.v ===== *)
(** Encoding and decoding audio: src/src/link_audio/codec.rs.

    The encoder is a resizer whose successor, [PcmEncoder], serializes each
    block and hands the message to the sender; the sender's calls are
    recorded in [sent].  The decoder hands each chunk of a received buffer to
    the callback; its calls are the list [decode] returns. *)

From stdpp Require Import base list numbers strings.
From Stdlib Require Import ZArith Lia ZifyBool SpecFloat.
From S2P Require Import Prelude Chrono F64 Encoding Beats Tempo Entries AudioStream AudioPayload AudioResizer.

Definition MAX_AUDIO_BYTES : Z := 576 - AUDIO_HEADER_SIZE - NON_AUDIO_BYTES.

(** ** Encoding *)

Record PcmEncoder := MkPcmEncoder { output : AudioBuffer; sent : list AudioBuffer }.

Definition PcmEncoder_new (channel : Id) : PcmEncoder :=
  MkPcmEncoder (MkAudioBuffer channel NodeId_default [] InvalidCodec 0 0 []) [].

#[global] Instance PcmEncoder_flush : ResizerSink PcmEncoder :=
  fun e samples cs nc rate session =>
    let out := MkAudioBuffer (channel_id (output e)) session cs PcmI16 rate (as_u8 nc) (audio_bytes (output e)) in
    let num_samples := Z.min (num_frames out * nc) (Z.of_nat (length samples)) in
    let data := fold_left (fun o s => write_i16 s o) (take (Z.to_nat num_samples) samples) [] in
    let out := MkAudioBuffer (channel_id out) session cs PcmI16 rate (as_u8 nc) data in
    if negb (num_frames out * nc =? num_samples) then MkPcmEncoder out (sent e)
    else MkPcmEncoder out (sent e ++ [out]).

Definition Encoder : Type := Resizer PcmEncoder.

Definition Encoder_new (channel : Id) : Encoder := Resizer_new (PcmEncoder_new channel) MAX_AUDIO_BYTES.

Definition Encoder_encode (e : Encoder) (input : Buffer) : Encoder :=
  process (buf_samples input) (buf_num_frames input) (buf_num_channels input) (buf_sample_rate input)
    (buf_begin_beats input) (buf_tempo input) (buf_session_id input) e.

Definition Encoder_flush (e : Encoder) : Encoder := resizer_flush e.

(** ** Decoding *)

(** [PcmDecoder] is its cache of samples. *)
Notation PcmDecoder := (list Z).

Definition PcmDecoder_new (cache_size : nat) : PcmDecoder := repeat 0 cache_size.

(** The samples of the message, written over the cache from its start. *)
Fixpoint decode_samples (fuel : nat) (r : ByteStreamReader) (n : nat) (d : PcmDecoder) : option (PcmDecoder * nat) :=
  match fuel with
  | O => None
  | S fuel =>
      if is_empty r then Some (d, n)
      else
        match read_i16 r with
        | Ok (s, r) => decode_samples fuel r (S n) (if (n =? length d)%nat then d ++ [s] else <[n := s]> d)
        | Err _ => Some (d, n)
        end
  end.

(** A sample takes two bytes: a round per byte and one more is enough. *)
Definition read_samples (data : bytes) (d : PcmDecoder) : option (PcmDecoder * nat) :=
  decode_samples (S (length data)) (Reader_new data) 0 d.

Definition chunk_info (input : AudioBuffer) (c : Chunk) : BufferInfo :=
  MkInfo (audio_num_channels input) (chunk_frames c) (audio_sample_rate input) (chunk_count c)
    (Beats_floating (chunk_begin c)) (bpm (chunk_tempo c)) (audio_session_id input).

Fixpoint decode_chunks (input : AudioBuffer) (cs : list Chunk) (offset total : nat) (d : PcmDecoder)
  : list BufferCallbackHandle :=
  match cs with
  | [] => []
  | c :: cs =>
      let chunk_samples := Z.to_nat (chunk_frames c * audio_num_channels input) in
      if (total <? offset + chunk_samples)%nat then []
      else
        MkHandle (take chunk_samples (drop offset d)) (chunk_info input c)
        :: decode_chunks input cs (offset + chunk_samples) total d
  end.

Definition decode (d : PcmDecoder) (input : AudioBuffer) : option (PcmDecoder * list BufferCallbackHandle) :=
  if negb (bool_decide (audio_codec input = PcmI16)) || (audio_num_channels input =? 0) then Some (d, [])
  else
    let! (d, total) := read_samples (audio_bytes input) d in
    Some (d, decode_chunks input (audio_chunks input) 0 total d).

(** ** Samples survive *)

Definition in_i16 (z : Z) : Prop := -32768 <= z <= 32767.

Definition sample_bytes (l : list Z) : bytes := flat_map (to_be_bytes 2) l.

Lemma write_samples l : fold_left (fun o s => write_i16 s o) l [] = sample_bytes l.
Proof. apply (fold_write write_i16 (to_be_bytes 2) l []). reflexivity. Qed.

Lemma sample_bytes_length l : length (sample_bytes l) = (2 * length l)%nat.
Proof.
  unfold sample_bytes. induction l as [|x l IH]; [reflexivity|]. cbn [flat_map length].
  rewrite length_app, length_to_be_bytes, IH. lia.
Qed.

Lemma decode_samples_ok l fuel r n d :
  Forall in_i16 l -> reader_ok r -> rest r = sample_bytes l -> (2 * length l < fuel)%nat -> (n <= length d)%nat ->
  exists d', decode_samples fuel r n d = Some (d', (n + length l)%nat) /\
    take (n + length l) d' = take n d ++ l /\ (n + length l <= length d')%nat.
Proof.
  revert fuel r n d. induction l as [|x l IH]; intros fuel r n d F Hok E Hf Hn; (destruct fuel as [|fuel]; [simpl in Hf; lia|]);
    cbn [decode_samples]; unfold is_empty; rewrite <- rest_length, E.
  - cbn. exists d. rewrite Nat.add_0_r, app_nil_r. auto.
  - unfold sample_bytes in *. cbn [flat_map length] in *. rewrite length_app, length_to_be_bytes. cbn [Nat.eqb Nat.add].
    apply Forall_cons in F as [Fx F]. destruct (reads_i16 x Fx r _ Hok E) as (r' & -> & E' & Hok').
    set (d1 := if (n =? length d)%nat then _ else _).
    assert ((S n <= length d1)%nat /\ take (S n) d1 = take n d ++ [x]) as [L1 T1].
    { subst d1. destruct (Nat.eqb_spec n (length d)) as [->|N].
      - rewrite length_app. cbn [length]. split; [lia|]. rewrite firstn_all, take_ge; [reflexivity|].
        rewrite length_app. cbn [length]. lia.
      - rewrite length_insert. split; [lia|]. erewrite take_S_r by (apply list_lookup_insert_eq; lia).
        now rewrite take_insert_ge by lia. }
    destruct (IH fuel r' (S n) d1 F Hok' E' ltac:(lia) L1) as (d' & -> & T' & L').
    exists d'. rewrite Nat.add_succ_comm in *. split; [reflexivity|]. split; [|exact L'].
    rewrite T', T1, <- app_assoc. reflexivity.
Qed.

Lemma read_samples_ok l d :
  Forall in_i16 l ->
  exists d', read_samples (sample_bytes l) d = Some (d', length l) /\ take (length l) d' = l.
Proof.
  intros F. destruct (decode_samples_ok l (S (length (sample_bytes l))) (Reader_new (sample_bytes l)) 0 d F)
    as (d' & E & T & _); [unfold reader_ok; simpl; lia|reflexivity|rewrite sample_bytes_length; lia|lia|].
  exists d'. split; [exact E|exact T].
Qed.

Lemma decode_chunks_ok input cs offset d l :
  0 <= audio_num_channels input -> Forall (fun c => 0 <= chunk_frames c) cs ->
  take (length l) d = l ->
  Z.of_nat (length l) = Z.of_nat offset + frames_of cs * audio_num_channels input ->
  flat_map handle_samples (decode_chunks input cs offset (length l) d) = drop offset l /\
  map handle_info (decode_chunks input cs offset (length l) d) = map (chunk_info input) cs.
Proof.
  intros N F T. revert offset. induction F as [|c cs Hc F IH]; intros offset L.
  - cbn in *. rewrite drop_ge by lia. auto.
  - change (frames_of (c :: cs)) with (chunk_frames c + frames_of cs) in L.
    assert (0 <= frames_of cs) by (clear - F; unfold frames_of; induction F; cbn [map fold_right]; lia).
    cbn [decode_chunks]. set (k := Z.to_nat (chunk_frames c * audio_num_channels input)).
    assert (Z.of_nat k = chunk_frames c * audio_num_channels input) as Ek by (subst k; rewrite Z2Nat.id; nia).
    destruct (Nat.ltb_spec (length l) (offset + k)); [nia|].
    destruct (IH (offset + k)%nat ltac:(lia)) as [E1 E2]. cbn [flat_map map handle_samples handle_info].
    rewrite E1, E2. split; [|reflexivity].
    assert (take k (drop offset d) = take k (drop offset l)) as ->.
    { transitivity (take k (drop offset (take (length l) d))); [|now rewrite T].
      rewrite skipn_firstn_comm, take_take, Nat.min_l by lia. reflexivity. }
    rewrite <- (take_drop k (drop offset l)) at 2. now rewrite drop_drop.
Qed.

(** ** From one peer to another *)

(** What a sender transmits for a sequence of buffers and a final flush. *)
Definition transmit (channel : Id) (bufs : list Buffer) : list AudioBuffer :=
  sent (successor (Encoder_flush (fold_left Encoder_encode bufs (Encoder_new channel)))).

Section EndToEnd.
Context `{Laws : ChronoLaws}.

(** What a receiver hands to the application for a sequence of message
    bodies; [None] if one of them is refused. *)
Fixpoint receive (d : PcmDecoder) (packets : list bytes) : option (list BufferCallbackHandle) :=
  match packets with
  | [] => Some []
  | p :: ps =>
      match decode_raw p with
      | Err _ => None
      | Ok b =>
          let! (d, hs) := decode d b in
          let! hs' := receive d ps in
          Some (hs ++ hs')
      end
  end.

(** Mono or stereo at some rate, at a tempo of the range sessions keep to. *)
Definition stream_format (nc rate : Z) (session : Id) : Prop :=
  (nc = 1 \/ nc = 2) /\ 0 < rate <= u32_MAX /\ id_ok session.

Definition stream_tempo (t : Tempo) : Prop :=
  valid_f64 (bpm t) /\ f64_leb (f64_of_int 20) (bpm t) = true /\ f64_leb (bpm t) (f64_of_int 999) = true.

Definition stream_input (b : Buffer) : Prop :=
  input_ok stream_format stream_tempo MAX_AUDIO_BYTES b /\ Forall in_i16 (buf_samples b).

Notation stream_block := (block_ok stream_format stream_tempo MAX_AUDIO_BYTES).

Lemma resize_samples bufs : Forall stream_input bufs ->
  flat_map block_samples (resize MAX_AUDIO_BYTES bufs) = flat_map input_samples bufs.
Proof.
  intros F. apply (resize_ok stream_format stream_tempo); [compute; split; discriminate|].
  eapply Forall_impl; [exact F|]. now intros b [? _].
Qed.

(** The message of a block. *)
Definition block_message (channel : Id) (b : Block) : AudioBuffer :=
  MkAudioBuffer channel (block_session b) (block_chunks b) PcmI16 (block_rate b) (block_channels b)
    (sample_bytes (block_samples b)).

Lemma frames_of_bound cs n : Forall (fun c => 0 <= chunk_frames c) cs -> frames_of cs <= n ->
  Forall (fun c => chunk_frames c <= n) cs.
Proof.
  intros F. revert n. induction F as [|c cs Hc F IH]; intros n L; [constructor|].
  change (frames_of (c :: cs)) with (chunk_frames c + frames_of cs) in L.
  assert (0 <= frames_of cs) by (clear - F; unfold frames_of; induction F; cbn [map fold_right]; lia).
  constructor; [lia|]. eapply Forall_impl; [apply (IH (frames_of cs)); lia|]. simpl. lia.
Qed.

Lemma block_facts b : stream_block b ->
  (block_channels b = 1 \/ block_channels b = 2) /\ 1 <= frames_of (block_chunks b) <= 251 /\
  Z.of_nat (length (block_samples b)) = frames_of (block_chunks b) * block_channels b /\
  sum_u32 (map chunk_frames (block_chunks b)) = frames_of (block_chunks b) /\
  Forall (fun c => 0 <= chunk_frames c) (block_chunks b) /\
  1 <= Z.of_nat (length (block_chunks b)).
Proof.
  intros (Ne & Fc & El & U & _ & (Nc & _)). pose proof (frames_of_nonneg _ _ Fc).
  assert (1 <= Z.of_nat (length (block_chunks b))) by (destruct (block_chunks b); [easy|cbn [length]; lia]).
  change MAX_AUDIO_BYTES with 502 in U.
  assert (Forall (fun c => 0 <= chunk_frames c) (block_chunks b)) as F0
    by (eapply Forall_impl; [exact Fc|]; simpl; intros c [_ ?]; lia).
  assert (frames_of (block_chunks b) <= 251) by (destruct Nc as [E|E]; rewrite E in *; lia).
  repeat split; try assumption; try lia.
  apply sum_u32_id; [|unfold frames_of in *; zlia]. apply List.Forall_map. exact F0.
Qed.

Lemma flush_block e b : stream_block b ->
  apply_block e b = MkPcmEncoder (block_message (channel_id (output e)) b)
                      (sent e ++ [block_message (channel_id (output e)) b]).
Proof.
  intros Hb. destruct (block_facts b Hb) as (Nc & Fr & El & Es & _). unfold apply_block, sink_flush, PcmEncoder_flush.
  unfold num_frames. cbn [audio_chunks]. rewrite Es. cbv zeta. cbn [channel_id audio_chunks].
  rewrite <- El, Z.min_id, Nat2Z.id, firstn_all, Z.eqb_refl. cbn [negb].
  rewrite write_samples. assert (as_u8 (block_channels b) = block_channels b) as -> by (destruct Nc as [-> | ->]; reflexivity).
  reflexivity.
Qed.

Lemma sent_log log e : Forall stream_block log ->
  sent (apply_log e log) = sent e ++ map (block_message (channel_id (output e))) log.
Proof.
  intros F. revert e. induction F as [|b log Hb F IH]; intros e; [cbn; now rewrite app_nil_r|].
  unfold apply_log in *. cbn [fold_left map]. rewrite IH, flush_block by assumption. cbn [sent output channel_id block_message].
  now rewrite <- app_assoc.
Qed.

Lemma transmit_eq channel bufs : Forall stream_input bufs ->
  transmit channel bufs = map (block_message channel) (resize MAX_AUDIO_BYTES bufs) /\
  Forall stream_block (resize MAX_AUDIO_BYTES bufs).
Proof.
  intros F. assert (Forall (input_ok stream_format stream_tempo MAX_AUDIO_BYTES) bufs) as Fi
    by (eapply Forall_impl; [exact F|]; now intros b [? _]).
  pose proof (resizer_blocks stream_format stream_tempo MAX_AUDIO_BYTES bufs ltac:(compute; split; discriminate) Fi) as B.
  split; [|exact B].
  assert (forall bs l, fold_left Encoder_encode bs (with_sink (PcmEncoder_new channel) l) =
                       with_sink (PcmEncoder_new channel) (fold_left feed bs l)) as Q.
  { intros bs. induction bs as [|b bs IH]; intros l; [reflexivity|]. cbn [fold_left].
    rewrite <- IH. f_equal. apply with_sink_process. }
  unfold transmit, Encoder_flush. change (Encoder_new channel) with (with_sink (PcmEncoder_new channel) (Resizer_new [] MAX_AUDIO_BYTES)).
  rewrite Q, with_sink_flush. cbn [with_sink successor]. now rewrite sent_log.
Qed.

Lemma block_message_ok channel b : id_ok channel -> stream_block b -> buffer_ok (block_message channel b).
Proof.
  intros I Hb. destruct (block_facts b Hb) as (Nc & Fr & El & Es & F0 & L1).
  destruct Hb as (Ne & Fc & _ & U & _ & (_ & Sr & Is)). change MAX_AUDIO_BYTES with 502 in U.
  unfold buffer_ok, num_frames. cbn [block_message channel_id audio_session_id audio_chunks audio_codec
    audio_sample_rate audio_num_channels audio_bytes].
  rewrite Es, sample_bytes_length. repeat match goal with |- _ /\ _ => split end; try assumption; try reflexivity; try sizes.
  intros c Hc. rewrite List.Forall_forall in Fc. destruct (Fc c Hc) as [(C1 & C2 & C3) C4].
  pose proof (frames_of_bound _ 251 F0 ltac:(lia)) as Fb. rewrite List.Forall_forall in Fb. specialize (Fb c Hc).
  split; [repeat split; try apply C1; try apply C2; simpl in Fb; lia|].
  destruct (chunk_tempo c) as [x]. destruct C3 as (V & T1 & T2). now apply clamped_tempo_playable.
Qed.

Lemma decode_block_message channel b d :
  id_ok channel -> stream_block b -> Forall in_i16 (block_samples b) ->
  exists d' hs, decode d (buffer_norm (block_message channel b)) = Some (d', hs) /\
    flat_map handle_samples hs = block_samples b.
Proof.
  intros I Hb F. destruct (block_facts b Hb) as (Nc & Fr & El & Es & F0 & L1).
  destruct (read_samples_ok (block_samples b) d F) as (d' & Ed & Td).
  unfold decode. cbn [buffer_norm block_message audio_codec audio_num_channels audio_bytes audio_chunks].
  rewrite bool_decide_eq_true_2 by reflexivity. destruct (Z.eqb_spec (block_channels b) 0); [lia|]. cbn [negb orb].
  rewrite Ed. eexists d', _. split; [reflexivity|].
  destruct (decode_chunks_ok (buffer_norm (block_message channel b)) (map chunk_norm (block_chunks b)) 0 d' (block_samples b))
    as [E _]; [cbn; lia|now apply List.Forall_map|exact Td| |exact E].
  assert (frames_of (map chunk_norm (block_chunks b)) = frames_of (block_chunks b)) as ->.
  { unfold frames_of. rewrite map_map. reflexivity. }
  cbn. exact El.
Qed.

Lemma receive_blocks channel log d :
  id_ok channel -> Forall stream_block log -> Forall in_i16 (flat_map block_samples log) ->
  exists hs, receive d (map encode_raw (map (block_message channel) log)) = Some hs /\
    flat_map handle_samples hs = flat_map block_samples log.
Proof.
  intros I F. revert d. induction F as [|b log Hb F IH]; intros d Fs; [exists []; auto|].
  cbn [flat_map map receive] in *. apply Forall_app in Fs as [Fb Fs].
  destruct (decode_buffer_eq (block_message channel b) (block_message_ok channel b I Hb)) as [-> _].
  destruct (decode_block_message channel b d I Hb Fb) as (d' & hs & -> & Eh).
  destruct (IH d' Fs) as (hs' & -> & Eh'). exists (hs ++ hs'). split; [reflexivity|].
  now rewrite flat_map_app, Eh, Eh'.
Qed.

(** C8 Audio arrives as it was sent: whatever mono or stereo buffers of 16-bit
    samples an application commits, with the samples their frames need and at 20
    to 999 beats per minute, rate, session, beat position and tempo changing at
    will, the messages its encoder sends are all accepted by the receiver, and
    the samples handed to the receiving application, put together, are the
    samples committed.  (A buffer of three or more channels is encoded too, and
    refused by the receiver.) *)
Theorem audio_stream_arrives channel d bufs :
  id_ok channel -> Forall stream_input bufs ->
  exists hs, receive d (map encode_raw (transmit channel bufs)) = Some hs /\
    flat_map handle_samples hs = flat_map input_samples bufs.
Proof.
  intros I F. destruct (transmit_eq channel bufs F) as [-> B].
  pose proof (resize_samples bufs F) as S. rewrite <- S. apply receive_blocks; [exact I|exact B|].
  rewrite S. clear - F. induction F as [|b bufs [_ Hb] F IH]; [constructor|]. cbn [flat_map]. apply Forall_app.
  split; [now apply Forall_take|exact IH].
Qed.

(** Every audio message stays within the 576 bytes that any IPv4 node has to
    accept, however often the timing changes within it. *)
Theorem audio_packets_fit channel from bufs :
  id_ok channel -> Forall stream_input bufs -> id_ok from ->
  Forall (fun b => exists m, audio_buffer_message from (encode_raw b) = Ok m /\ (length m <= 576)%nat)
    (transmit channel bufs).
Proof.
  intros I F If. destruct (transmit_eq channel bufs F) as [-> B]. apply List.Forall_map.
  eapply Forall_impl; [exact B|]. intros b Hb. pose proof (block_message_ok channel b I Hb) as Ho.
  destruct (decode_buffer_eq _ Ho) as [_ L]. destruct Hb as (_ & _ & El & U & _). change MAX_AUDIO_BYTES with 502 in U.
  rewrite buffer_body_length in L by exact Ho. cbn [block_message audio_chunks audio_bytes] in L.
  rewrite sample_bytes_length in L.
  unfold audio_buffer_message, audio_encode_message. cbv zeta.
  unfold AUDIO_PROTOCOL_HEADER_SIZE, AUDIO_MESSAGE_HEADER_SIZE, AUDIO_MAX_MESSAGE_SIZE.
  destruct (Z.ltb_spec 1200 (Z.of_nat (8 + 12 + length (encode_raw (block_message channel b))))); [lia|].
  eexists. split; [reflexivity|]. unfold AudioMessageHeader_encode, write_u8, write_u16.
  cbn [audio_message_type audio_ttl audio_group_id audio_ident].
  rewrite !length_app, length_to_be_bytes, If. cbn [length AUDIO_PROTOCOL_HEADER]. lia.
Qed.
End EndToEnd.
