(* ===== verification/AudioRegistry.v ===== *)
(** What a Link Audio peer knows of others: the receivers of a channel
    (src/src/link_audio/receivers.rs), the channels of the session
    (src/src/link_audio/channels.rs) and the quality of the network
    (src/src/link_audio/network_metrics.rs).

    An [Instant] is a number of nanoseconds; each reading of the clock is an
    argument.  A [HashMap] is a [gmap]. *)

From stdpp Require Import base list numbers strings relations gmap sorting.
From Stdlib Require Import ZArith Lia ZifyBool SpecFloat.
From S2P Require Import Prelude Chrono F64 Encoding Entries AudioStream AudioPayload.

Definition from_secs (s : Z) : Z := s * 1000000000.

Definition PRUNE_PADDING : Z := from_secs 1.

(** [peers.contains(&id)] *)
Definition contains (ids : list Id) (id : Id) : bool := existsb (fun i => bool_decide (i = id)) ids.

(** ** Receivers *)

Record Receiver := MkReceiver {
  receiver_peer : Id;
  receiver_endpoint : option SocketAddrV4;
  receiver_expires : Z
}.

Definition Receivers : Type := list Receiver.

Definition Receivers_new : Receivers := [].

Definition not_peer (peer : Id) (r : Receiver) : bool := negb (bool_decide (receiver_peer r = peer)).

(** [partition_point] of a list that is partitioned: the length of the prefix
    that satisfies the predicate. *)
Fixpoint partition_point {A} (p : A -> bool) (l : list A) : nat :=
  match l with
  | x :: l => if p x then S (partition_point p l) else O
  | [] => O
  end.

Definition insert_at {A} (i : nat) (x : A) (l : list A) : list A := take i l ++ x :: drop i l.

Definition receive_channel_request (req : ChannelRequest) (ttl : Z) (endpoint : option SocketAddrV4) (now : Z)
    (rs : Receivers) : Receivers :=
  let rs := List.filter (not_peer (requesting_peer req)) rs in
  let receiver := MkReceiver (requesting_peer req) endpoint (now + from_secs ttl) in
  insert_at (partition_point (fun r => receiver_expires r <=? receiver_expires receiver) rs) receiver rs.

Definition receive_channel_stop_request (req : ChannelStopRequest) (rs : Receivers) : Receivers :=
  List.filter (not_peer (stopping_peer req)) rs.

Definition receivers_prune_expired (now : Z) (rs : Receivers) : Receivers :=
  List.filter (fun r => now <? receiver_expires r + PRUNE_PADDING) rs.

Definition retain_peers (peers : list Id) (rs : Receivers) : Receivers :=
  List.filter (fun r => contains peers (receiver_peer r)) rs.

Definition set_endpoint (peer : Id) (endpoint : option SocketAddrV4) (rs : Receivers) : Receivers :=
  map (fun r => if bool_decide (receiver_peer r = peer)
                then MkReceiver (receiver_peer r) endpoint (receiver_expires r) else r) rs.

Definition endpoints (rs : Receivers) : list SocketAddrV4 := omap receiver_endpoint rs.

Definition receivers_is_empty (rs : Receivers) : bool := (length rs =? 0)%nat.

(** ** Channels *)

Record Channel := MkChannel {
  ch_id : Id;
  ch_name : bytes;
  ch_peer_id : Id;
  ch_peer_name : bytes;
  ch_session : SessionId
}.

#[global] Instance Channel_eq_dec : EqDecision Channel.
Proof. solve_decision. Defined.

Record ChannelInfo := MkChannelInfo { ci_channel : Channel; ci_gateway : Ipv4Addr; ci_expires : Z }.

Record PeerSendHandler := MkHandler { handler_endpoint : SocketAddrV4; handler_quality : f64 }.

Record Channels := MkChannels {
  known_channels : list ChannelInfo;
  peer_send_handlers : gmap Id PeerSendHandler
}.

Definition Channels_new : Channels := MkChannels [] ∅.

(** [AnnouncedChannel] has the fields of [ChannelAnnouncement]. *)
Definition info_key (i : ChannelInfo) : Id * Ipv4Addr := (ch_id (ci_channel i), ci_gateway i).

(** The body of the loop of [saw_announcement], on the found entry or at the
    end of the list; the flag says whether something changed. *)
Fixpoint announce_channel (c : Channel) (gateway : Ipv4Addr) (expires : Z) (l : list ChannelInfo)
  : bool * list ChannelInfo :=
  match l with
  | [] => (true, [MkChannelInfo c gateway expires])
  | i :: l =>
      if bool_decide (ch_id (ci_channel i) = ch_id c) && bool_decide (ci_gateway i = gateway) then
        (negb (bool_decide (ci_channel i = c)), MkChannelInfo c (ci_gateway i) expires :: l)
      else
        let '(changed, l) := announce_channel c gateway expires l in (changed, i :: l)
  end.

Definition announce_all (cs : list Channel) (gateway : Ipv4Addr) (expires : Z) (l : list ChannelInfo)
  : bool * list ChannelInfo :=
  fold_left (fun '(changed, l) c =>
    let '(ch, l) := announce_channel c gateway expires l in (changed || ch, l)) cs (false, l).

Definition prefer_handler (peer : Id) (from : SocketAddrV4) (quality : f64) (hs : gmap Id PeerSendHandler)
  : gmap Id PeerSendHandler :=
  match hs !! peer with
  | Some existing => if f64_leb quality (handler_quality existing) then hs else <[peer := MkHandler from quality]> hs
  | None => <[peer := MkHandler from quality]> hs
  end.

Definition saw_announcement (peer : Id) (name : bytes) (session : SessionId) (announced : list ChannelAnnouncement)
    (gateway : Ipv4Addr) (from : SocketAddrV4) (quality : f64) (ttl now : Z) (cs : Channels) : bool * Channels :=
  let expires := now + from_secs ttl in
  let channels := map (fun a => MkChannel (announced_id a) (announced_name a) peer name session) announced in
  let '(changed, l) := announce_all channels gateway expires (known_channels cs) in
  (changed, MkChannels l (prefer_handler peer from quality (peer_send_handlers cs))).

Definition retain_handlers (keep : Id -> bool) (hs : gmap Id PeerSendHandler) : gmap Id PeerSendHandler :=
  filter (fun kv => keep kv.1 = true) hs.

Definition prune_send_handlers (cs : Channels) : Channels :=
  let peers := map (fun i => ch_peer_id (ci_channel i)) (known_channels cs) in
  MkChannels (known_channels cs) (retain_handlers (fun p => contains peers p) (peer_send_handlers cs)).

(** The common shape of the operations that remove channels. *)
Definition retain_channels (keep : ChannelInfo -> bool) (cs : Channels) : bool * Channels :=
  let l := List.filter keep (known_channels cs) in
  let changed := negb (length l =? length (known_channels cs))%nat in
  let cs := MkChannels l (peer_send_handlers cs) in
  (changed, if changed then prune_send_handlers cs else cs).

Definition channels_left (gateway : Ipv4Addr) (byes : list Id) (cs : Channels) : bool * Channels :=
  retain_channels (fun i => negb (bool_decide (ci_gateway i = gateway)
                                  && contains byes (ch_id (ci_channel i)))) cs.

Definition gateway_closed (gateway : Ipv4Addr) (cs : Channels) : bool * Channels :=
  retain_channels (fun i => negb (bool_decide (ci_gateway i = gateway))) cs.

Definition channels_prune_expired (now : Z) (cs : Channels) : bool * Channels :=
  retain_channels (fun i => now <? ci_expires i + PRUNE_PADDING) cs.

Definition prune_peer_channels (peers : list Id) (cs : Channels) : bool * Channels :=
  let l := List.filter (fun i => contains peers (ch_peer_id (ci_channel i))) (known_channels cs) in
  (negb (length l =? length (known_channels cs))%nat,
   MkChannels l (retain_handlers (fun p => contains peers p) (peer_send_handlers cs))).

(** The loop of [session_channels] and [all_channels]. *)
Definition collect_channels (keep : Channel -> bool) (l : list ChannelInfo) : list Channel :=
  fold_left (fun result i =>
    if keep (ci_channel i) && negb (existsb (fun c => bool_decide (ch_id c = ch_id (ci_channel i))) result)
    then result ++ [ci_channel i] else result) l [].

Definition session_channels (session : SessionId) (cs : Channels) : list Channel :=
  collect_channels (fun c => bool_decide (ch_session c = session)) (known_channels cs).

Definition all_channels (cs : Channels) : list Channel := collect_channels (fun _ => true) (known_channels cs).

Definition peer_endpoint (peer : Id) (cs : Channels) : option SocketAddrV4 :=
  handler_endpoint <$> peer_send_handlers cs !! peer.

Definition channel_endpoint (channel : Id) (cs : Channels) : option SocketAddrV4 :=
  let! i := List.find (fun i => bool_decide (ch_id (ci_channel i) = channel)) (known_channels cs) in
  peer_endpoint (ch_peer_id (ci_channel i)) cs.

Definition channels_is_empty (cs : Channels) : bool := (length (known_channels cs) =? 0)%nat.

(** ** Network quality *)

Definition METRICS_MAX_SIZE : nat := 10.

Definition f64_sqrt : f64 -> f64 := SFsqrt f64_prec f64_emax.

Record NetworkMetrics := MkMetrics { speed : f64; jitter : f64 }.

Definition metrics_quality (m : NetworkMetrics) : f64 := f64_div (speed m) (f64_add f64_one (jitter m)).

Section NetworkMetrics.
Context `{Ch : Chrono}.

Record NetworkMetricsFilter := MkFilter { ping_pong_times : list Duration; current_index : nat; times_count : nat }.

Definition NetworkMetricsFilter_new : NetworkMetricsFilter :=
  MkFilter (repeat Duration_zero METRICS_MAX_SIZE) 0 0.

Definition metrics_push (time : Duration) (f : NetworkMetricsFilter) : NetworkMetricsFilter :=
  MkFilter (<[current_index f := time]> (ping_pong_times f)) ((current_index f + 1) mod METRICS_MAX_SIZE)
    (if (times_count f <? METRICS_MAX_SIZE)%nat then times_count f + 1 else times_count f)%nat.

Definition time_f64 (t : Duration) : f64 :=
  f64_of_int (match num_microseconds t with Some us => us | None => 0 end).

Definition sum_f64 (l : list f64) : f64 := fold_left f64_add l f64_zero.

Definition metrics (f : NetworkMetricsFilter) : NetworkMetrics :=
  if (times_count f =? 0)%nat then MkMetrics f64_zero f64_zero
  else
    let times := take (times_count f) (ping_pong_times f) in
    let n := f64_of_int (Z.of_nat (times_count f)) in
    let avg_rtt := f64_div (sum_f64 (map time_f64 times)) n in
    let speed := if negb (f64_eqb avg_rtt f64_zero) then f64_div (f64_of_int 1000000) avg_rtt else f64_zero in
    let variance :=
      f64_div (sum_f64 (map (fun t => let diff := f64_sub (time_f64 t) avg_rtt in f64_mul diff diff) times)) n in
    let jitter :=
      f64_add (f64_sub (f64_of_int 10000)
                 (f64_div (f64_mul (f64_of_int 10000) n) (f64_of_int (Z.of_nat METRICS_MAX_SIZE))))
              (f64_sqrt variance) in
    MkMetrics speed jitter.

Definition filter_quality (f : NetworkMetricsFilter) : f64 := metrics_quality (metrics f).
End NetworkMetrics.

(** ** Receivers stay sorted and unique *)

Inductive receivers_step : Receivers -> Receivers -> Prop :=
| rs_request rs req ttl endpoint now : receivers_step rs (receive_channel_request req ttl endpoint now rs)
| rs_stop rs req : receivers_step rs (receive_channel_stop_request req rs)
| rs_prune rs now : receivers_step rs (receivers_prune_expired now rs)
| rs_retain rs peers : receivers_step rs (retain_peers peers rs)
| rs_endpoint rs peer endpoint : receivers_step rs (set_endpoint peer endpoint rs).

Definition expires_before (a b : Receiver) : Prop := receiver_expires a <= receiver_expires b.

Definition receivers_ok (rs : Receivers) : Prop :=
  StronglySorted expires_before rs /\ NoDup (map receiver_peer rs).

Lemma filter_sublist {A} (p : A -> bool) (l : list A) : sublist (List.filter p l) l.
Proof. induction l as [|x l IH]; simpl; [constructor|]. destruct (p x); now constructor. Qed.

Lemma filter_same_length {A} (p : A -> bool) l : length (List.filter p l) = length l -> List.filter p l = l.
Proof.
  induction l as [|x l IH]; simpl; [reflexivity|]. pose proof (sublist_length _ _ (filter_sublist p l)).
  destruct (p x); simpl; [|lia]. intros [= E]. now rewrite IH.
Qed.

Lemma Forall_sublist {A} (P : A -> Prop) l k : sublist l k -> Forall P k -> Forall P l.
Proof.
  induction 1 as [|x l k S IH|x l k S IH]; intros H; [constructor| |].
  - apply Forall_cons in H as [Hx H]. constructor; auto.
  - apply Forall_cons in H as [_ H]. auto.
Qed.

Lemma sorted_sublist {A} (R : A -> A -> Prop) l k : sublist l k -> StronglySorted R k -> StronglySorted R l.
Proof.
  induction 1 as [|x l k S IH|x l k S IH]; intros H; [constructor| |].
  - apply StronglySorted_inv in H as [H F]. constructor; [now apply IH|]. now apply (Forall_sublist _ l k).
  - apply StronglySorted_inv in H as [H _]. now apply IH.
Qed.

Lemma map_sublist {A B} (f : A -> B) l k : sublist l k -> sublist (map f l) (map f k).
Proof. induction 1; simpl; now constructor. Qed.

Lemma receivers_ok_filter p rs : receivers_ok rs -> receivers_ok (List.filter p rs).
Proof.
  intros [S N]. pose proof (filter_sublist p rs) as L. split; [now apply (sorted_sublist _ _ rs)|].
  apply (sublist_NoDup _ (map receiver_peer rs)); [exact N|now apply map_sublist].
Qed.

(** The new receiver goes behind those that expire no later. *)
Lemma insert_sorted x rs :
  StronglySorted expires_before rs ->
  StronglySorted expires_before
    (insert_at (partition_point (fun r => receiver_expires r <=? receiver_expires x) rs) x rs).
Proof.
  induction 1 as [|y rs S IH F]; simpl; [repeat constructor|]. unfold insert_at.
  destruct (Z.leb_spec (receiver_expires y) (receiver_expires x)) as [L|L]; simpl.
  - constructor; [exact IH|].
    assert (Forall (expires_before y) (take (partition_point (fun r => receiver_expires r <=? receiver_expires x) rs) rs
      ++ drop (partition_point (fun r => receiver_expires r <=? receiver_expires x) rs) rs)) as Fs by now rewrite take_drop.
    apply Forall_app in Fs as [F1 F2]. apply Forall_app. split; [exact F1|]. constructor; [exact L|exact F2].
  - constructor; [now constructor|]. constructor; [unfold expires_before; lia|].
    eapply Forall_impl; [exact F|]. unfold expires_before. intros z. simpl. lia.
Qed.

Lemma insert_at_perm {A} i (x : A) l : insert_at i x l ≡ₚ x :: l.
Proof. unfold insert_at. rewrite <- (take_drop i l) at 3. now rewrite <- Permutation_middle. Qed.

Lemma not_peer_spec peer r : not_peer peer r = true <-> receiver_peer r <> peer.
Proof. unfold not_peer. rewrite negb_true_iff. apply bool_decide_eq_false. Qed.

Lemma receivers_step_ok rs rs' : receivers_ok rs -> receivers_step rs rs' -> receivers_ok rs'.
Proof.
  intros Hok Hs. destruct Hs as [rs req ttl ep now|rs req|rs now|rs peers|rs peer ep].
  - destruct (receivers_ok_filter (not_peer (requesting_peer req)) rs Hok) as [S N].
    unfold receive_channel_request. cbv zeta. split; [now apply insert_sorted|].
    rewrite insert_at_perm. cbn [map receiver_peer]. constructor; [|exact N].
    rewrite list_elem_of_In, in_map_iff. intros (r & E & H). apply filter_In in H as [_ H].
    now apply not_peer_spec in H.
  - now apply receivers_ok_filter.
  - now apply receivers_ok_filter.
  - now apply receivers_ok_filter.
  - destruct Hok as [S N]. unfold set_endpoint. split.
    + clear N. induction S as [|r rs S IH F]; simpl; constructor; [exact IH|]. apply List.Forall_map.
      eapply Forall_impl; [exact F|]. unfold expires_before. intros x H. now repeat case_bool_decide.
    + rewrite map_map. erewrite map_ext; [exact N|]. intros r. simpl. now case_bool_decide.
Qed.

(** The receivers of a channel are always in the order of their expiry with
    at most one entry per peer, whatever requests, refreshes, stops, endpoint
    changes and prunings happen. *)
Theorem receivers_sorted_unique rs : rtc receivers_step Receivers_new rs -> receivers_ok rs.
Proof.
  intros R. assert (receivers_ok Receivers_new) as H by (split; constructor).
  revert H. induction R as [|x y z S R IH]; [auto|]. intros H. eapply IH, receivers_step_ok; eassumption.
Qed.

(** A request makes the peer a receiver at the given endpoint, leaves every
    other receiver alone, and lasts until a second after its time to live:
    pruning before then keeps it. *)
Theorem request_lasts req ttl endpoint now rs later :
  later < now + from_secs ttl + PRUNE_PADDING ->
  let rs' := receive_channel_request req ttl (Some endpoint) now rs in
  In endpoint (endpoints (receivers_prune_expired later rs')) /\
  (forall r, In r rs' -> receiver_peer r = requesting_peer req -> receiver_endpoint r = Some endpoint) /\
  (forall r, receiver_peer r <> requesting_peer req -> In r rs' <-> In r rs).
Proof.
  intros L rs'. set (x := MkReceiver (requesting_peer req) (Some endpoint) (now + from_secs ttl)).
  assert (forall r, In r rs' <-> r = x \/ (In r rs /\ receiver_peer r <> requesting_peer req)) as M.
  { intros r. subst rs'. unfold receive_channel_request. cbv zeta. fold x.
    rewrite <- list_elem_of_In, insert_at_perm, elem_of_cons, list_elem_of_In, filter_In, not_peer_spec. tauto. }
  repeat split.
  - unfold endpoints. apply list_elem_of_In, list_elem_of_omap. exists x. split; [|reflexivity].
    apply list_elem_of_In, filter_In. split; [apply M; now left|]. simpl. unfold PRUNE_PADDING in *. lia.
  - intros r Hr E. apply M in Hr as [->|[_ N]]; [reflexivity|contradiction].
  - intros Hr. apply M in Hr as [->|[Hr _]]; [contradiction|exact Hr].
  - intros Hr. apply M. now right.
Qed.

(** ** Channels stay reachable *)

(** An operation, what it reports and its result. *)
Inductive channels_step : Channels -> bool -> Channels -> Prop :=
| cs_saw cs peer name session announced gateway from quality ttl now changed cs' :
    saw_announcement peer name session announced gateway from quality ttl now cs = (changed, cs') ->
    channels_step cs changed cs'
| cs_left cs gateway ids changed cs' : channels_left gateway ids cs = (changed, cs') -> channels_step cs changed cs'
| cs_closed cs gateway changed cs' : gateway_closed gateway cs = (changed, cs') -> channels_step cs changed cs'
| cs_prune cs now changed cs' : channels_prune_expired now cs = (changed, cs') -> channels_step cs changed cs'
| cs_peers cs peers changed cs' : prune_peer_channels peers cs = (changed, cs') -> channels_step cs changed cs'.

Definition has_handler (hs : gmap Id PeerSendHandler) (i : ChannelInfo) : Prop :=
  is_Some (hs !! ch_peer_id (ci_channel i)).

Definition channels_ok (cs : Channels) : Prop :=
  NoDup (map info_key (known_channels cs)) /\ Forall (has_handler (peer_send_handlers cs)) (known_channels cs).

(** What an observer of the registry sees of an entry. *)
Definition visible (i : ChannelInfo) : Channel * Ipv4Addr := (ci_channel i, ci_gateway i).

Lemma contains_spec ids i : contains ids i = true <-> In i ids.
Proof.
  unfold contains. rewrite existsb_exists. split.
  - intros (x & H & E). now apply bool_decide_eq_true in E as ->.
  - intros H. exists i. split; [exact H|]. now apply bool_decide_eq_true.
Qed.

Lemma announce_channel_spec c gw ex l changed l' :
  announce_channel c gw ex l = (changed, l') ->
  (map info_key l' = map info_key l \/
   (~ In (ch_id c, gw) (map info_key l) /\ map info_key l' = map info_key l ++ [(ch_id c, gw)])) /\
  (forall i, In i l' -> In i l \/ ci_channel i = c) /\
  (changed = false -> map visible l' = map visible l).
Proof.
  revert changed l'. induction l as [|i l IH]; intros changed l' E; simpl in E.
  - injection E as <- <-. split; [right; simpl; auto|]. split; [|discriminate]. intros j [<-|[]]. now right.
  - destruct (bool_decide (ch_id (ci_channel i) = ch_id c) && bool_decide (ci_gateway i = gw)) eqn:K.
    + injection E as <- <-. apply andb_true_iff in K as [K1 K2].
      apply bool_decide_eq_true in K1. apply bool_decide_eq_true in K2. split; [|split].
      * left. simpl. unfold info_key at 1 3. simpl. now rewrite K1.
      * intros j [<-|H]; [now right|left; now right].
      * intros C. apply negb_false_iff, bool_decide_eq_true in C. simpl. unfold visible at 1 3. simpl. now rewrite C.
    + destruct (announce_channel c gw ex l) as [ch l1] eqn:E1. injection E as <- <-.
      destruct (IH _ _ eq_refl) as (Kk & Mm & Vv). split; [|split].
      * destruct Kk as [Kk|[Ni Kk]]; [left; simpl; now rewrite Kk|right]. split; [|simpl; now rewrite Kk].
        simpl. intros [H|H]; [|contradiction]. unfold info_key in H. injection H as H1 H2. subst.
        rewrite H1 in K. rewrite !bool_decide_eq_true_2 in K by reflexivity. discriminate.
      * intros j [<-|H]; [left; now left|]. destruct (Mm j H); [left; now right|now right].
      * intros C. simpl. now rewrite (Vv C).
Qed.

Lemma announce_all_spec cs gw ex l b changed l' :
  fold_left (fun '(changed, l) c =>
    let '(ch, l) := announce_channel c gw ex l in (changed || ch, l)) cs (b, l) = (changed, l') ->
  NoDup (map info_key l) ->
  NoDup (map info_key l') /\ (forall i, In i l' -> In i l \/ In (ci_channel i) cs) /\
  (changed = false -> b = false /\ map visible l' = map visible l).
Proof.
  revert b l. induction cs as [|c cs IH]; intros b l E N; simpl in E.
  - injection E as <- <-. auto.
  - destruct (announce_channel c gw ex l) as [ch l1] eqn:E1.
    destruct (announce_channel_spec _ _ _ _ _ _ E1) as (K & Mm & V).
    assert (NoDup (map info_key l1)) as N1.
    { destruct K as [->|[Ni ->]]; [exact N|]. apply NoDup_app. split; [exact N|].
      split; [|apply NoDup_singleton]. intros x Hx Hy. apply list_elem_of_singleton in Hy as ->.
      now apply list_elem_of_In in Hx. }
    destruct (IH _ _ E N1) as (N2 & M2 & V2). split; [exact N2|]. split.
    + intros i Hi. destruct (M2 i Hi) as [H|H]; [|right; now right].
      destruct (Mm i H) as [H'| ->]; [now left|right; now left].
    + intros C. destruct (V2 C) as [B V']. apply orb_false_iff in B as [-> ->]. split; [reflexivity|].
      rewrite V'. now apply V.
Qed.

Lemma prefer_handler_lookup peer from q hs p :
  is_Some (hs !! p) \/ p = peer -> is_Some (prefer_handler peer from q hs !! p).
Proof.
  intros H. unfold prefer_handler. destruct (hs !! peer) as [e|] eqn:E.
  - destruct (f64_leb _ _); [destruct H as [H| ->]; [exact H|now rewrite E]|].
    destruct (decide (peer = p)) as [<-|N]; [rewrite lookup_insert_eq; eauto|rewrite lookup_insert_ne by exact N].
    now destruct H as [H| ->].
  - destruct (decide (peer = p)) as [<-|N]; [rewrite lookup_insert_eq; eauto|rewrite lookup_insert_ne by exact N].
    now destruct H as [H| ->].
Qed.

Lemma retain_handlers_lookup keep hs p : keep p = true -> retain_handlers keep hs !! p = hs !! p.
Proof.
  intros K. unfold retain_handlers. destruct (hs !! p) as [h|] eqn:E.
  - apply map_lookup_filter_Some. auto.
  - apply map_lookup_filter_None. now left.
Qed.

Lemma retain_channels_ok keep cs changed cs' :
  retain_channels keep cs = (changed, cs') -> channels_ok cs ->
  channels_ok cs' /\ (changed = false -> known_channels cs' = known_channels cs).
Proof.
  intros E [N F]. unfold retain_channels in E. cbv zeta in E. injection E as <- <-.
  pose proof (filter_sublist keep (known_channels cs)) as S.
  assert (NoDup (map info_key (List.filter keep (known_channels cs)))) as N'
    by (eapply sublist_NoDup; [exact N|now apply map_sublist]).
  assert (Forall (has_handler (peer_send_handlers cs)) (List.filter keep (known_channels cs))) as F'
    by now apply (Forall_sublist _ _ _ S).
  destruct (Nat.eqb_spec (length (List.filter keep (known_channels cs))) (length (known_channels cs))) as [L|L]; simpl.
  - split; [now split|]. intros _. now apply filter_same_length.
  - split; [|discriminate]. split; [exact N'|]. simpl. apply List.Forall_forall. intros i Hi.
    unfold has_handler. simpl. rewrite retain_handlers_lookup.
    + rewrite List.Forall_forall in F'. now apply F'.
    + apply contains_spec, in_map_iff. eauto.
Qed.

Lemma channels_step_ok cs changed cs' :
  channels_step cs changed cs' -> channels_ok cs ->
  channels_ok cs' /\ (changed = false -> map visible (known_channels cs') = map visible (known_channels cs)).
Proof.
  intros S Hok. destruct S as [cs peer nm ss an gw fr q ttl now ch cs' E|cs gw ids ch cs' E|cs gw ch cs' E
    |cs now ch cs' E|cs peers ch cs' E].
  - unfold saw_announcement in E. cbv zeta in E. destruct (announce_all _ _ _ _) as [c l] eqn:E1.
    injection E as <- <-. destruct Hok as [N F].
    destruct (announce_all_spec _ _ _ _ _ _ _ E1 N) as (N' & M' & V'). split; [split; [exact N'|]|intros C; now apply V'].
    simpl. apply List.Forall_forall. intros i Hi. apply prefer_handler_lookup.
    destruct (M' i Hi) as [H|H].
    + left. rewrite List.Forall_forall in F. now apply F.
    + right. apply in_map_iff in H as (a & <- & _). reflexivity.
  - destruct (retain_channels_ok _ _ _ _ E Hok) as [? K]. split; [assumption|]. intros C. now rewrite K.
  - destruct (retain_channels_ok _ _ _ _ E Hok) as [? K]. split; [assumption|]. intros C. now rewrite K.
  - destruct (retain_channels_ok _ _ _ _ E Hok) as [? K]. split; [assumption|]. intros C. now rewrite K.
  - unfold prune_peer_channels in E. cbv zeta in E. injection E as <- <-. destruct Hok as [N F].
    set (keep := fun i => contains peers (ch_peer_id (ci_channel i))).
    pose proof (filter_sublist keep (known_channels cs)) as S. split; [split|].
    + eapply sublist_NoDup; [exact N|now apply map_sublist].
    + simpl. apply List.Forall_forall. intros i Hi. apply filter_In in Hi as [Hi K].
      unfold has_handler. rewrite retain_handlers_lookup by exact K. rewrite List.Forall_forall in F. now apply F.
    + simpl. intros C. apply negb_false_iff, Nat.eqb_eq in C. f_equal. now apply filter_same_length.
Qed.

Inductive channels_run : Channels -> Channels -> Prop :=
| channels_refl cs : channels_run cs cs
| channels_more cs cs' changed cs'' : channels_run cs cs' -> channels_step cs' changed cs'' -> channels_run cs cs''.

Lemma channels_run_ok cs : channels_run Channels_new cs -> channels_ok cs.
Proof.
  intros R. remember Channels_new as c0 eqn:E. induction R as [c|c c' ch c'' R IH S]; subst.
  - split; constructor.
  - now apply (channels_step_ok _ _ _ S), IH.
Qed.

Lemma collect_spec keep l acc :
  NoDup (map ch_id acc) ->
  let r := fold_left (fun result i =>
    if keep (ci_channel i) && negb (existsb (fun c => bool_decide (ch_id c = ch_id (ci_channel i))) result)
    then result ++ [ci_channel i] else result) l acc in
  NoDup (map ch_id r) /\
  (forall c, In c r -> In c acc \/ exists i, In i l /\ ci_channel i = c /\ keep c = true) /\
  (forall id, In id (map ch_id r) <->
     In id (map ch_id acc) \/ exists i, In i l /\ keep (ci_channel i) = true /\ ch_id (ci_channel i) = id).
Proof.
  revert acc. induction l as [|i l IH]; intros acc N; cbn [fold_left].
  - split; [exact N|]. split; [auto|]. intros id. split; [auto|]. intros [H|(? & [] & _)]. exact H.
  - set (dup := existsb _ acc).
    assert (dup = true <-> In (ch_id (ci_channel i)) (map ch_id acc)) as D.
    { unfold dup. rewrite existsb_exists, in_map_iff. split.
      - intros (c & H & E). apply bool_decide_eq_true in E. eauto.
      - intros (c & E & H). exists c. split; [exact H|]. now apply bool_decide_eq_true. }
    assert (NoDup (map ch_id (if keep (ci_channel i) && negb dup then acc ++ [ci_channel i] else acc))) as N'.
    { destruct (keep (ci_channel i)); [|exact N]. destruct dup; [exact N|]. simpl. rewrite map_app. apply NoDup_app.
      split; [exact N|]. split; [|apply NoDup_singleton]. intros x Hx Hy. apply list_elem_of_singleton in Hy as ->.
      apply list_elem_of_In in Hx. apply D in Hx. discriminate. }
    destruct (IH _ N') as (N2 & M2 & K2). split; [exact N2|]. split.
    + intros c Hc. destruct (M2 c Hc) as [H|(j & H & E & Kp)]; [|right; exists j; split; [now right|auto]].
      destruct (keep (ci_channel i)) eqn:Ek; [|now left]. destruct dup; [now left|]. simpl in H.
      apply in_app_iff in H as [H|[<-|[]]]; [now left|]. right. exists i. split; [now left|auto].
    + intros id. rewrite K2. split.
      * intros [H|(j & H & Kp & E)]; [|right; exists j; split; [now right|auto]].
        destruct (keep (ci_channel i)) eqn:Ek; [|now left]. destruct dup; [now left|]. simpl in H.
        rewrite map_app, in_app_iff in H. destruct H as [H|[<-|[]]]; [now left|]. right. exists i. split; [now left|auto].
      * intros [H|(j & [<-|H] & Kp & E)].
        -- left. destruct (_ && _); [rewrite map_app, in_app_iff; now left|exact H].
        -- left. rewrite Kp. destruct dup; simpl; [rewrite <- E; now apply D|].
           rewrite map_app, in_app_iff, <- E. right. now left.
        -- right. exists j. auto.
Qed.

(** Every channel the registry lists can be reached: under any sequence of
    announcements, goodbyes, closed gateways, expiries and departures, each
    listed channel appears once, is known at most once per gateway, and has an
    endpoint to send requests to. *)
Theorem listed_channels_reachable cs :
  channels_run Channels_new cs ->
  NoDup (map info_key (known_channels cs)) /\ NoDup (map ch_id (all_channels cs)) /\
  forall c, In c (all_channels cs) -> is_Some (channel_endpoint (ch_id c) cs).
Proof.
  intros R. destruct (channels_run_ok cs R) as [N F]. split; [exact N|].
  destruct (collect_spec (fun _ => true) (known_channels cs) [] ltac:(constructor)) as (N2 & M & _). split; [exact N2|].
  intros c Hc. destruct (M c Hc) as [[]|(i & Hi & <- & _)]. unfold channel_endpoint, peer_endpoint.
  destruct (List.find _ _) as [j|] eqn:E.
  - apply find_some in E as [Hj _]. rewrite List.Forall_forall in F. destruct (F j Hj) as [h ->]. simpl. eauto.
  - pose proof (find_none _ _ E i Hi) as X. simpl in X. now rewrite bool_decide_eq_true_2 in X.
Qed.

(** A change of the registry is never missed: an operation that reports no
    change leaves every channel and its gateway as it was, so the list shown
    to the application is still right. *)
Theorem unreported_means_unchanged cs cs' :
  channels_run Channels_new cs -> channels_step cs false cs' ->
  map visible (known_channels cs') = map visible (known_channels cs).
Proof. intros R S. exact (proj2 (channels_step_ok _ _ _ S (channels_run_ok cs R)) eq_refl). Qed.

(** The channels listed for a session are the channels known of it, each
    identifier once, however many gateways announced it. *)
Theorem session_channels_exact session cs :
  NoDup (map ch_id (session_channels session cs)) /\
  (forall c, In c (session_channels session cs) -> ch_session c = session) /\
  forall id, In id (map ch_id (session_channels session cs)) <->
    exists i, In i (known_channels cs) /\ ch_session (ci_channel i) = session /\ ch_id (ci_channel i) = id.
Proof.
  destruct (collect_spec (fun c => bool_decide (ch_session c = session)) (known_channels cs) [] ltac:(constructor))
    as (N & M & K). split; [exact N|]. split.
  - intros c Hc. destruct (M c Hc) as [[]|(i & _ & _ & E)]. now apply bool_decide_eq_true in E.
  - intros id. unfold session_channels, collect_channels. rewrite K. split.
    + intros [[]|(i & Hi & E & <-)]. apply bool_decide_eq_true in E. eauto.
    + intros (i & Hi & E & <-). right. exists i. split; [exact Hi|]. split; [now apply bool_decide_eq_true|reflexivity].
Qed.

(** ** The window of round-trip times *)

Section MetricsWindow.
Context `{Ch : Chrono}.

Definition push_all (ts : list Duration) : NetworkMetricsFilter :=
  fold_left (fun f t => metrics_push t f) ts NetworkMetricsFilter_new.

(** The times in the order they were taken, the oldest at the current index
    once the window is full. *)
Definition window (f : NetworkMetricsFilter) : list Duration :=
  if (times_count f <? METRICS_MAX_SIZE)%nat then take (times_count f) (ping_pong_times f)
  else drop (current_index f) (ping_pong_times f) ++ take (current_index f) (ping_pong_times f).

Definition filter_ok (f : NetworkMetricsFilter) : Prop :=
  length (ping_pong_times f) = METRICS_MAX_SIZE /\ (current_index f < METRICS_MAX_SIZE)%nat /\
  (times_count f <= METRICS_MAX_SIZE)%nat /\ ((times_count f < METRICS_MAX_SIZE)%nat -> current_index f = times_count f).

Lemma take_set {A} k (x : A) l : (k < length l)%nat -> take (S k) (<[k:=x]> l) = take k l ++ [x].
Proof.
  intros L. erewrite take_S_r by (apply list_lookup_insert_eq; exact L). now rewrite take_insert_ge by lia.
Qed.

Lemma metrics_push_window t f :
  filter_ok f ->
  filter_ok (metrics_push t f) /\
  window (metrics_push t f) = (if (times_count f <? METRICS_MAX_SIZE)%nat then window f else drop 1 (window f)) ++ [t] /\
  times_count (metrics_push t f) = Nat.min METRICS_MAX_SIZE (times_count f + 1).
Proof.
  destruct f as [l k n]. unfold filter_ok, metrics_push, window, METRICS_MAX_SIZE. cbn [ping_pong_times current_index times_count].
  intros (L & K & N & E). rewrite length_insert.
  assert ((k + 1) mod 10 = if decide (k = 9) then 0 else k + 1)%nat as Ek.
  { destruct (decide (k = 9)%nat) as [->|]; [reflexivity|]. apply Nat.mod_small. lia. }
  rewrite Ek. destruct (Nat.ltb_spec n 10) as [Ln|Ln].
  - specialize (E Ln). subst k. rewrite Nat.min_r by lia. destruct (decide (n = 9)%nat) as [->|Nn].
    + repeat split; try lia. cbn [Nat.ltb Nat.leb Nat.add]. rewrite drop_0, take_0, app_nil_r.
      rewrite <- (firstn_all2 (<[9%nat:=t]> l) (n := 10)) by (rewrite length_insert; lia). apply take_set. lia.
    + repeat split; try lia. destruct (Nat.ltb_spec (n + 1) 10); [|lia]. rewrite Nat.add_1_r. apply take_set. lia.
  - assert (n = 10)%nat as -> by lia. cbn [Nat.ltb Nat.leb]. repeat split; try (destruct (decide _); lia).
    replace (drop (if decide (k = 9) then 0 else k + 1)%nat (<[k:=t]> l) ++ take (if decide (k = 9) then 0 else k + 1)%nat (<[k:=t]> l))
      with (drop (S k) l ++ take k l ++ [t]).
    + destruct (lookup_lt_is_Some_2 l k ltac:(lia)) as [x Hx].
      rewrite (drop_S l x k Hx). cbn [app]. rewrite skipn_cons, drop_0. now rewrite <- app_assoc.
    + destruct (decide (k = 9)%nat) as [->|].
      * rewrite drop_0, take_0, app_nil_r, drop_ge by lia. cbn [app].
        rewrite <- (firstn_all2 (<[9%nat:=t]> l) (n := 10)) by (rewrite length_insert; lia). symmetry. apply take_set. lia.
      * rewrite Nat.add_1_r, take_set, drop_insert_lt by lia. reflexivity.
Qed.

(** The quality of a peer rests on exactly its last ten round trips. *)
Theorem metrics_window ts :
  window (push_all ts) = drop (length ts - METRICS_MAX_SIZE) ts /\
  take (times_count (push_all ts)) (ping_pong_times (push_all ts)) ≡ₚ window (push_all ts).
Proof.
  enough (filter_ok (push_all ts) /\ window (push_all ts) = drop (length ts - METRICS_MAX_SIZE) ts /\
          times_count (push_all ts) = Nat.min METRICS_MAX_SIZE (length ts)) as ((L & K & N & E) & W & _).
  { split; [exact W|]. unfold window. destruct (Nat.ltb_spec (times_count (push_all ts)) METRICS_MAX_SIZE); [reflexivity|].
    rewrite take_ge by lia. rewrite <- (take_drop (current_index (push_all ts)) (ping_pong_times (push_all ts))) at 1.
    apply Permutation_app_comm. }
  unfold push_all. induction ts as [|t ts IH] using rev_ind.
  - split; [|split; [reflexivity|reflexivity]]. unfold filter_ok, METRICS_MAX_SIZE. cbn. repeat split; lia.
  - rewrite fold_left_app. cbn [fold_left]. destruct IH as (Hok & W & C).
    set (f := fold_left _ ts _) in *. destruct (metrics_push_window t f Hok) as (Hok' & W' & C').
    split; [exact Hok'|]. rewrite length_app. cbn [length]. split; [|rewrite C', C; unfold METRICS_MAX_SIZE; lia].
    rewrite W', W. unfold METRICS_MAX_SIZE in *. destruct (Nat.ltb_spec (times_count f) 10).
    + replace (length ts + 1 - 10)%nat with 0%nat by lia. replace (length ts - 10)%nat with 0%nat by lia. reflexivity.
    + rewrite drop_drop. replace (length ts - 10 + 1)%nat with (length ts + 1 - 10)%nat by lia.
      now rewrite drop_app_le by lia.
Qed.
End MetricsWindow.
