(* ===== verification/AudioSink.v ===== *)
(** Publishing and receiving a channel: src/src/link_audio/sink.rs,
    src/src/link_audio/source.rs and the beat mapping of
    src/src/link_audio/beat_time_mapping.rs.

    A sink is the writer of a slot queue with its settings; each setting is an
    atomic of the source.  A buffer handle is the writer's retained slot: it
    holds the writer's lock until it is committed or dropped. *)

From stdpp Require Import base list numbers strings.
From Stdlib Require Import ZArith Lia ZifyBool SpecFloat.
From S2P Require Import Prelude Chrono F64 Encoding Beats Tempo Timeline Phase Entries AudioQueue AudioStream AudioPayload AudioResizer.

(** ** Local and global beats *)

Section BeatTimeMapping.
Context `{Ch : Chrono}.

Definition global_beat_at_beat (tl : Timeline) (target_beat quantum : Beats) : Beats :=
  let beats_diff := to_phase_encoded_beats tl (time_origin tl) quantum in
  Beats_sub target_beat beats_diff.

Definition beat_at_global_beat (tl : Timeline) (global_beat quantum : Beats) : Beats :=
  let beats_diff := to_phase_encoded_beats tl (time_origin tl) quantum in
  Beats_add global_beat beats_diff.

(** The beat a buffer is sent with is mapped back to the sender's own beat
    exactly, unless the global beat leaves the range of [i64]. *)
Theorem beat_mapping_round_trip tl b quantum :
  Beats_ok b ->
  in_i64 (Beats_value b - Beats_value (to_phase_encoded_beats tl (time_origin tl) quantum)) ->
  beat_at_global_beat tl (global_beat_at_beat tl b quantum) quantum = b.
Proof.
  intros Hb R. unfold beat_at_global_beat, global_beat_at_beat, Beats_add, Beats_sub. cbv zeta.
  set (d := Beats_value (to_phase_encoded_beats _ _ _)) in *. destruct b as [v]. cbn [Beats_value] in *.
  rewrite (clamp_i64_id (v - d)) by exact R. f_equal. replace (v - d + d) with v by lia. now apply clamp_i64_id.
Qed.
End BeatTimeMapping.

(** ** Sinks *)

Definition SINK_QUEUE_SIZE : nat := 128.

(** The fields of a buffer that a commit sets. *)
Definition tag_buffer (begin_beats : Beats) (t : Tempo) (nc rate nf : Z) (session : Id) (b : Buffer) : Buffer :=
  MkBuffer rate nc nf (buf_samples b) begin_beats t (buf_count b) session.

(** [samples.resize(n, 0)] of a shorter vector. *)
Definition grow_samples (n : nat) (b : Buffer) : Buffer :=
  if (length (buf_samples b) <? n)%nat then
    MkBuffer (buf_sample_rate b) (buf_num_channels b) (buf_num_frames b)
      (buf_samples b ++ repeat 0 (n - length (buf_samples b))) (buf_begin_beats b) (buf_tempo b) (buf_count b)
      (buf_session_id b)
  else b.

Section Sink.
Context `{M : Mpsc, Ch : Chrono}.

Record Sink := MkSink {
  sink_name : bytes;
  name_is_up_to_date : bool;
  sink_id : Id;
  sink_max_num_samples : nat;
  sink_queue : SlotQueue Buffer;
  is_connected : bool
}.

Definition Sink_new (name : bytes) (max_num_samples : nat) (id : Id) : Sink :=
  MkSink (truncate_name name) false id max_num_samples (queue SINK_QUEUE_SIZE (Buffer_new max_num_samples)) false.

Definition with_queue (q : SlotQueue Buffer) (s : Sink) : Sink :=
  MkSink (sink_name s) (name_is_up_to_date s) (sink_id s) (sink_max_num_samples s) q (is_connected s).

Definition Sink_set_name (name : bytes) (s : Sink) : Sink :=
  MkSink (truncate_name name) false (sink_id s) (sink_max_num_samples s) (sink_queue s) (is_connected s).

Definition name_changed (s : Sink) : bool * Sink :=
  (negb (name_is_up_to_date s),
   MkSink (sink_name s) true (sink_id s) (sink_max_num_samples s) (sink_queue s) (is_connected s)).

Definition request_max_num_samples (n : nat) (s : Sink) : Sink :=
  MkSink (sink_name s) (name_is_up_to_date s) (sink_id s) (Nat.max (sink_max_num_samples s) n) (sink_queue s)
    (is_connected s).

Definition set_is_connected (c : bool) (s : Sink) : Sink :=
  MkSink (sink_name s) (name_is_up_to_date s) (sink_id s) (sink_max_num_samples s) (sink_queue s) c.

(** [true] when a handle is returned. *)
Definition retain_buffer (s : Sink) : bool * Sink :=
  if negb (is_connected s) then (false, s)
  else if (0 <? Writer_num_retained_slots (sink_queue s))%nat then (false, s)
  else
    let '(ok, q) := Writer_retain_slot (sink_queue s) in
    if negb ok then (false, with_queue q s)
    else
      (true, with_queue (match Writer_slot_mut q with
                         | Some b => Writer_write (grow_samples (sink_max_num_samples s) b) q
                         | None => q end) s).

(** What the application writes through [samples_mut]: the slice keeps its
    length. *)
Definition write_samples_mut (samples : list Z) (s : Sink) : Sink :=
  match Writer_slot_mut (sink_queue s) with
  | Some b =>
      with_queue (Writer_write
        (MkBuffer (buf_sample_rate b) (buf_num_channels b) (buf_num_frames b)
           (take (length (buf_samples b)) samples ++ drop (length samples) (buf_samples b))
           (buf_begin_beats b) (buf_tempo b) (buf_count b) (buf_session_id b)) (sink_queue s)) s
  | None => s
  end.

(** [Drop] of a handle that was not committed. *)
Definition drop_handle (s : Sink) : Sink :=
  let q := match Writer_slot_mut (sink_queue s) with
           | Some b => Writer_write (clear_timing b) (sink_queue s)
           | None => sink_queue s end in
  with_queue (Writer_release_slot q) s.

(** A refused commit drops the handle. *)
Definition commit (tl : Timeline) (session : Id) (beats_at_begin quantum : f64) (nf nc rate : Z) (s : Sink)
  : bool * Sink :=
  let max_num_samples := Z.of_nat (sink_max_num_samples s) in
  if (nc =? 0) || (rate =? 0) || (max_num_samples <? wrap_u64 (nf * nc)) then (false, drop_handle s)
  else
    let begin_beats := global_beat_at_beat tl (Beats_new beats_at_begin) (Beats_new quantum) in
    match Writer_slot_mut (sink_queue s) with
    | Some b =>
        let q := Writer_write (tag_buffer begin_beats (tempo tl) (as_u32 nc) rate (as_u32 nf) session b) (sink_queue s) in
        (true, with_queue (Writer_release_slot q) s)
    | None => (false, drop_handle s)
    end.
End Sink.

(** ** Sources *)

(** [Source::invoke]: the handle reaches the callback unless the engine has
    shut down; a source without a flag is never closed. *)
Record Source := MkSource { source_id : Id; source_managed : bool }.

Definition invoke (shut_down : bool) (s : Source) (h : BufferCallbackHandle) : list BufferCallbackHandle :=
  if source_managed s && shut_down then [] else [h].

(** ** What a commit does to the queue *)

Section SinkProperties.
Context `{ML : MpscLaws, Ch : Chrono}.

(** The threads' view of a sink whose writer and reader are between calls. *)
Definition sink_threads (s : Sink) : Threads := MkThreads (sink_queue s) WReady RReady.

(** The slots of the sink's queue are all accounted for. *)
Definition sink_ok (s : Sink) : Prop := slots_ok (sink_threads s).

Lemma Writer_retain_ok (q : SlotQueue Buffer) :
  slots_ok (MkThreads q WReady RReady) -> slots_ok (MkThreads (snd (Writer_retain_slot q)) WReady RReady).
Proof.
  intros H. unfold Writer_retain_slot. destruct (writer_current q) eqn:W; [exact H|].
  eapply slots_ok_step in H; [|apply w_load; [reflexivity|exact W]].
  eapply slots_ok_step in H; [|eapply w_take; reflexivity]. exact H.
Qed.

Lemma Writer_write_ok (v : Buffer) q :
  slots_ok (MkThreads q WReady RReady) -> slots_ok (MkThreads (Writer_write v q) WReady RReady).
Proof. intros H. eapply slots_ok_step in H; [|apply (w_write _ v); reflexivity]. exact H. Qed.

Lemma Writer_release_ok (q : SlotQueue Buffer) :
  slots_ok (MkThreads q WReady RReady) -> slots_ok (MkThreads (Writer_release_slot q) WReady RReady).
Proof.
  intros H. destruct (writer_current q) as [v|] eqn:W.
  - eapply slots_ok_step in H; [|eapply w_release; [reflexivity|exact W]]. exact H.
  - unfold Writer_release_slot. now rewrite W.
Qed.

#[local] Hint Resolve Writer_retain_ok Writer_write_ok Writer_release_ok : core.

Lemma retain_buffer_ok s : sink_ok s -> sink_ok (snd (retain_buffer s)).
Proof.
  intros H. unfold retain_buffer. destruct (is_connected s); [|exact H]. simpl.
  destruct (0 <? _)%nat; [exact H|]. pose proof (Writer_retain_ok _ H).
  destruct (Writer_retain_slot (sink_queue s)) as [[] q]; simpl in *; [|assumption].
  destruct (Writer_slot_mut q); unfold sink_ok, sink_threads; simpl; auto.
Qed.

Lemma write_samples_mut_ok samples s : sink_ok s -> sink_ok (write_samples_mut samples s).
Proof.
  intros H. unfold write_samples_mut. destruct (Writer_slot_mut _); [|exact H].
  unfold sink_ok, sink_threads in *. simpl. auto.
Qed.

Lemma drop_handle_ok s : sink_ok s -> sink_ok (drop_handle s).
Proof.
  intros H. unfold drop_handle. unfold sink_ok, sink_threads in *. simpl. destruct (Writer_slot_mut _); auto.
Qed.

Lemma commit_ok tl session b q nf nc rate s : sink_ok s -> sink_ok (snd (commit tl session b q nf nc rate s)).
Proof.
  intros H. unfold commit. destruct (_ || _ || _); [now apply drop_handle_ok|].
  destruct (Writer_slot_mut _); [|now apply drop_handle_ok]. unfold sink_ok, sink_threads in *. simpl. auto.
Qed.

Lemma retain_buffer_cases s ok s' :
  retain_buffer s = (ok, s') ->
  (ok = false /\ queued (filled (sink_queue s')) = queued (filled (sink_queue s)) /\
   epoch (sink_queue s') = epoch (sink_queue s)) \/
  (exists b, ok = true /\ writer_current (sink_queue s) = None /\
     writer_current (sink_queue s') = Some b /\
     current_epoch (sink_queue s') = epoch (sink_queue s) /\ epoch (sink_queue s') = epoch (sink_queue s) /\
     filled (sink_queue s') = filled (sink_queue s) /\
     sink_max_num_samples s' = sink_max_num_samples s /\
     (sink_max_num_samples s <= length (buf_samples b))%nat).
Proof.
  unfold retain_buffer, Writer_num_retained_slots, Writer_retain_slot, Writer_take.
  destruct (is_connected s); simpl; [|injection 1 as <- <-; auto].
  destruct (writer_current (sink_queue s)) as [w|] eqn:W; simpl; [injection 1 as <- <-; auto|].
  destruct (try_recv (free (sink_queue s))) as [[b|] c]; simpl; injection 1 as <- <-; [right|left]; simpl; auto.
  eexists. repeat split. unfold grow_samples.
  destruct (Nat.ltb_spec (length (buf_samples b)) (sink_max_num_samples s)); simpl; [|assumption].
  rewrite length_app, repeat_length. lia.
Qed.

Lemma write_samples_mut_held samples s b :
  writer_current (sink_queue s) = Some b ->
  exists b', writer_current (sink_queue (write_samples_mut samples s)) = Some b' /\
    length (buf_samples b') = length (buf_samples b) /\
    ((length samples <= length (buf_samples b))%nat -> take (length samples) (buf_samples b') = samples).
Proof.
  intros W. unfold write_samples_mut, Writer_slot_mut, Writer_write. rewrite !W. simpl.
  eexists. split; [reflexivity|]. simpl. split.
  - rewrite length_app, length_take, length_drop. lia.
  - intros L. rewrite (take_ge samples) by assumption. now rewrite take_app_length.
Qed.

Lemma write_samples_mut_frame samples s :
  filled (sink_queue (write_samples_mut samples s)) = filled (sink_queue s) /\
  epoch (sink_queue (write_samples_mut samples s)) = epoch (sink_queue s) /\
  current_epoch (sink_queue (write_samples_mut samples s)) = current_epoch (sink_queue s) /\
  sink_max_num_samples (write_samples_mut samples s) = sink_max_num_samples s.
Proof.
  unfold write_samples_mut, Writer_slot_mut, Writer_write.
  destruct (writer_current (sink_queue s)) eqn:W; simpl; rewrite ?W; repeat split.
Qed.

(** A held slot goes to the end of the queue when it is released. *)
Lemma release_written q (b v : Buffer) :
  writer_current q = Some b -> current_epoch q = epoch q ->
  (length (queued (filled q)) < capacity (filled q))%nat ->
  AudioQueue.fresh (Writer_release_slot (Writer_write v q)) = AudioQueue.fresh q ++ [v].
Proof.
  intros W E L. unfold Writer_release_slot, Writer_write. rewrite W. simpl. unfold AudioQueue.fresh. simpl.
  destruct (try_send_cases (current_epoch q, v) (filled q) L) as (c & -> & -> & _).
  rewrite List.filter_app, fmap_app. simpl. now rewrite E, Z.eqb_refl.
Qed.

(** A slot the writer holds leaves room in the channel of filled slots. *)
Lemma held_room s b :
  sink_ok s -> writer_current (sink_queue s) = Some b ->
  (length (queued (filled (sink_queue s))) < capacity (filled (sink_queue s)))%nat.
Proof.
  intros (N & C1 & C2 & _) W. unfold slot_count, sink_threads, Writer_num_retained_slots in *. simpl in *.
  rewrite W in N. simpl in N. lia.
Qed.

(** When the two casts of a commit lose nothing. *)
Lemma commit_casts nf nc n :
  0 <= nf -> 0 < nc -> nf * nc <= n -> n <= u32_MAX -> as_u32 nf * as_u32 nc = nf * nc.
Proof.
  unfold as_u32, u32_MAX. intros H1 H2 H3 H4. destruct (Z.eq_dec nf 0) as [->|].
  - now rewrite Z.mod_0_l.
  - rewrite !Z.mod_small; nia.
Qed.

Lemma commit_held tl session beat quantum nf nc rate s b :
  sink_ok s -> writer_current (sink_queue s) = Some b -> current_epoch (sink_queue s) = epoch (sink_queue s) ->
  let '(ok, s') := commit tl session beat quantum nf nc rate s in
  ok = negb ((nc =? 0) || (rate =? 0) || (Z.of_nat (sink_max_num_samples s) <? wrap_u64 (nf * nc))) /\
  AudioQueue.fresh (sink_queue s') = AudioQueue.fresh (sink_queue s) ++
    [if ok then tag_buffer (global_beat_at_beat tl (Beats_new beat) (Beats_new quantum)) (tempo tl) (as_u32 nc) rate
                 (as_u32 nf) session b
     else clear_timing b].
Proof.
  intros Hok W E. pose proof (held_room _ _ Hok W) as L. unfold commit, drop_handle, Writer_slot_mut. rewrite W.
  destruct (_ || _ || _); simpl; split; try reflexivity; now apply (release_written _ b).
Qed.

(** An application that retains a buffer, writes its samples and commits
    adds exactly one buffer behind everything that waits to be sent.  When the
    commit is accepted, the buffer holds the samples written, is tagged with
    the session, the tempo and the beat on the session's grid, and never
    claims more samples than it has; when it is refused (no channels, no
    sample rate, too many samples), the buffer is marked with a zero tempo,
    which the sender skips. *)
Theorem commit_queues_buffer tl session beat quantum nf nc rate samples s s1 :
  sink_ok s -> retain_buffer s = (true, s1) -> 0 <= nf -> 0 <= nc -> nf * nc < 2 ^ 64 ->
  Z.of_nat (sink_max_num_samples s) <= u32_MAX -> (length samples <= sink_max_num_samples s)%nat ->
  let '(ok, s2) := commit tl session beat quantum nf nc rate (write_samples_mut samples s1) in
  ok = negb ((nc =? 0) || (rate =? 0) || (Z.of_nat (sink_max_num_samples s) <? nf * nc)) /\
  exists b, AudioQueue.fresh (sink_queue s2) = AudioQueue.fresh (sink_queue s) ++ [b] /\
    take (length samples) (buf_samples b) = samples /\
    if ok then
      Buffer_num_samples b = nf * nc /\ nf * nc <= Z.of_nat (length (buf_samples b)) /\
      buf_session_id b = session /\ buf_tempo b = tempo tl /\ buf_sample_rate b = rate /\
      buf_begin_beats b = global_beat_at_beat tl (Beats_new beat) (Beats_new quantum)
    else buf_tempo b = Tempo_new f64_zero.
Proof.
  intros Hok R H1 H2 H3 H4 H5. pose proof (retain_buffer_ok _ Hok) as Hok1. rewrite R in Hok1. simpl in Hok1.
  destruct (retain_buffer_cases _ _ _ R) as [(? & _)|(b & _ & W & W1 & E1 & E2 & F1 & M1 & L1)]; [discriminate|].
  destruct (write_samples_mut_held samples s1 b W1) as (b' & W' & L' & T').
  destruct (write_samples_mut_frame samples s1) as (F2 & E3 & E4 & M2).
  pose proof (commit_held tl session beat quantum nf nc rate _ _ (write_samples_mut_ok samples _ Hok1) W' ltac:(congruence)) as C.
  destruct (commit _ _ _ _ _ _ _ _) as [ok s2]. rewrite M2, M1 in C. destruct C as [Eo Fr].
  unfold wrap_u64 in Eo. rewrite Z.mod_small in Eo by nia. split; [exact Eo|]. eexists. split; [|split].
  - rewrite Fr. unfold AudioQueue.fresh. now rewrite F2, F1, E3, E2.
  - destruct ok; simpl; apply T'; lia.
  - destruct ok; simpl; [|reflexivity].
    destruct (Z.eqb_spec nc 0), (rate =? 0), (Z.ltb_spec (Z.of_nat (sink_max_num_samples s)) (nf * nc)); try discriminate.
    unfold Buffer_num_samples. simpl. rewrite (commit_casts nf nc (Z.of_nat (sink_max_num_samples s))) by lia.
    repeat split. lia.
Qed.
End SinkProperties.

(** The samples a buffer claims but does not have. *)
Definition oversized (b : Buffer) : bool := Z.of_nat (length (buf_samples b)) <? Buffer_num_samples b.

Definition late_request (tl : Timeline (Ch := chrono_ref)) : list bool * list bool :=
  let s := set_is_connected true (Sink_new (M := mpsc_ref) [] 4 (repeat 0 8)) in
  let '(ok, s) := retain_buffer s in
  let s := request_max_num_samples 100 s in
  let '(ok', s) := commit tl (repeat 0 8) f64_zero f64_zero 50 2 44100 s in
  ([ok; ok'], oversized <$> AudioQueue.fresh (sink_queue s)).

(** A larger size requested while a buffer is held lets an oversized commit
    through: [commit] compares with the sink's size, not with the buffer's. *)
Theorem late_request_oversized tl : late_request tl = ([true; true], [true]).
Proof. reflexivity. Qed.
