(* ===== verification/AudioEngine.v ===== *)
(** The Link Audio engine: src/src/link_audio/engine.rs.

    The state behind the engine's mutex is [EngineState]; each closure that
    runs under the mutex is a function of it.  What a function puts on the
    wire is the list of packets it returns, what it hands to the callbacks of
    sources is a list of handles; every reading of a clock is an argument.

    The second half is the engine's life cycle: [engine_step] interleaves the
    peer synchronisation, its end, the shutdown and the engine's tasks, each
    quoting an epoch it read at some earlier time. *)

From stdpp Require Import base list numbers strings.
From Stdlib Require Import ZArith Lia ZifyBool SpecFloat.
From S2P Require Import Prelude Chrono F64 Encoding Beats Tempo Timeline Phase Entries AudioQueue AudioStream AudioPayload AudioResizer AudioCodec AudioRegistry AudioSink.

Definition AUDIO_TTL : Z := 5.

(** A datagram and where it is sent. *)
Definition Packet : Type := bytes * SocketAddrV4.

(** [send_message_at] and [send_message_with], up to the system call: a
    message that cannot be encoded is logged and dropped. *)
Definition send_message (node : Id) (t ttl : Z) (payload : bytes) (to : SocketAddrV4) : list Packet :=
  match audio_encode_message node ttl t payload with
  | Ok message => [(message, to)]
  | Err _ => []
  end.

(** [iter_mut().find(p)], the found element changed by [f]. *)
Fixpoint update_found {A} (p : A -> bool) (f : A -> A) (l : list A) : list A :=
  match l with
  | [] => []
  | x :: l => if p x then f x :: l else x :: update_found p f l
  end.

(** ** Splitting *)

(** [last_mut().push]: the last element changed. *)
Definition alter_last {A} (f : A -> A) (l : list A) : list A := alter f (length l - 1)%nat l.

Definition bye_added (groups : list ChannelByes) (id : Id) : list ChannelByes :=
  let groups :=
    match last groups with
    | Some g => if MAX_PAYLOAD_SIZE <? as_u32 (size_in_byte_stream g + 8) then groups ++ [MkByes []] else groups
    | None => groups
    end in
  alter_last (fun g => MkByes (byes g ++ [id])) groups.

Definition split_byes (ids : list Id) : list ChannelByes :=
  List.filter (fun g => negb (length (byes g) =? 0)%nat) (fold_left bye_added ids [MkByes []]).

Definition announcement_added (ping_size : Z) (base : PeerAnnouncement) (anns : list PeerAnnouncement)
    (c : ChannelAnnouncement) : list PeerAnnouncement :=
  let channel_size := ChannelAnnouncement_size c in
  let added_size := if (length anns =? 1)%nat then as_u32 (channel_size + ping_size) else channel_size in
  let current_size := match last anns with Some a => announcement_payload_size a | None => 0 end in
  let anns := if MAX_PAYLOAD_SIZE <? as_u32 (current_size + added_size) then anns ++ [base] else anns in
  alter_last (fun a => MkPeerAnnouncement (announcing_node a) (announced_session a) (announced_peer a)
                         (MkAnnouncements (announced_channels (announced_list a) ++ [c]))) anns.

(** ** Payloads whose errors are ignored

    [let _ = parse_payload(payload, |key, reader| ...)]: what the closure has
    captured before an error stays. *)
Section Captured.
Context {St : Type} (visit : Z -> St -> Read St).

Fixpoint captured_entries (fuel : nat) (s : St) (r : ByteStreamReader) : option St :=
  match fuel with
  | O => None
  | S fuel =>
      if (8 <=? remaining r)%nat then
        match parse_entry visit s r with
        | Ok (s, r) => captured_entries fuel s r
        | Err _ => Some s
        end
      else Some s
  end.

Definition captured (data : bytes) (s : St) : St :=
  match captured_entries (S (length data)) s (Reader_new data) with Some s => s | None => s end.
End Captured.

Definition byes_visit (key : Z) (ids : list Id) : Read (list Id) :=
  if key =? CHANNEL_BYES_KEY then b <-? decode_body; ret (byes b) else ret ids.

Section Engine.
Context `{M : Mpsc, Ch : Chrono}.

Definition ping_visit (key : Z) (t : option AudioHostTime) : Read (option AudioHostTime) :=
  if key =? AUDIO_HOST_TIME_KEY then h <-? decode_body; ret (Some h) else ret t.

(** ** State *)

Record PeerReceiver := MkPeerReceiver {
  pr_id : Id;
  pr_endpoint : SocketAddrV4;
  pr_metrics : NetworkMetricsFilter
}.

(** The reader is the reader's half of the sink's queue, and the outbox the
    [sent] list of the encoder's successor, which shares it. *)
Record SinkEntry := MkSinkEntry { se_sink : Sink; se_receivers : Receivers; se_encoder : Encoder }.

Record SourceEntry := MkSourceEntry { so_source : Source; so_decoder : PcmDecoder }.

Record EngineState := MkEngineState {
  es_node_id : Id;
  es_session_id : SessionId;
  es_peer_name : bytes;
  gateway_addr : Ipv4Addr;
  es_peers : list PeerReceiver;
  es_channels : Channels;
  es_sinks : list SinkEntry;
  es_sources : list SourceEntry;
  es_announced : list ChannelAnnouncement
}.

Definition EngineState_new (node : Id) (session : SessionId) (name : bytes) (addr : Ipv4Addr) : EngineState :=
  MkEngineState node session (truncate_name name) addr [] Channels_new [] [] [].

Definition with_peers (ps : list PeerReceiver) (s : EngineState) : EngineState :=
  MkEngineState (es_node_id s) (es_session_id s) (es_peer_name s) (gateway_addr s) ps (es_channels s) (es_sinks s)
    (es_sources s) (es_announced s).
Definition with_channels (cs : Channels) (s : EngineState) : EngineState :=
  MkEngineState (es_node_id s) (es_session_id s) (es_peer_name s) (gateway_addr s) (es_peers s) cs (es_sinks s)
    (es_sources s) (es_announced s).
Definition with_sinks (l : list SinkEntry) (s : EngineState) : EngineState :=
  MkEngineState (es_node_id s) (es_session_id s) (es_peer_name s) (gateway_addr s) (es_peers s) (es_channels s) l
    (es_sources s) (es_announced s).
Definition with_sources (l : list SourceEntry) (s : EngineState) : EngineState :=
  MkEngineState (es_node_id s) (es_session_id s) (es_peer_name s) (gateway_addr s) (es_peers s) (es_channels s)
    (es_sinks s) l (es_announced s).
Definition with_announced (l : list ChannelAnnouncement) (s : EngineState) : EngineState :=
  MkEngineState (es_node_id s) (es_session_id s) (es_peer_name s) (gateway_addr s) (es_peers s) (es_channels s)
    (es_sinks s) (es_sources s) l.

Definition set_peer_name (name : bytes) (s : EngineState) : EngineState :=
  MkEngineState (es_node_id s) (es_session_id s) (truncate_name name) (gateway_addr s) (es_peers s) (es_channels s)
    (es_sinks s) (es_sources s) (es_announced s).

Definition set_identity (node : Id) (session : SessionId) (s : EngineState) : EngineState :=
  MkEngineState node session (es_peer_name s) (gateway_addr s) (es_peers s) (es_channels s) (es_sinks s)
    (es_sources s) (es_announced s).

(** ** Announcements *)

Definition channel_announcements (s : EngineState) : list ChannelAnnouncement :=
  map (fun e => MkAnnouncement (sink_name (se_sink e)) (sink_id (se_sink e))) (es_sinks s).

Definition announcements (s : EngineState) : list PeerAnnouncement :=
  let base := MkPeerAnnouncement (es_node_id s) (es_session_id s) (PeerInfo_new (es_peer_name s)) (MkAnnouncements []) in
  let ping_size := size_in_byte_stream (MkAudioHostTime Duration_zero) in
  fold_left (announcement_added ping_size base) (channel_announcements s) [base].

(** ** Peers *)

Definition saw_link_audio_endpoint (peer : Id) (endpoint : option SocketAddrV4) (s : EngineState) : EngineState :=
  match endpoint with
  | Some endpoint =>
      if existsb (fun p => bool_decide (pr_endpoint p = endpoint)) (es_peers s) then s
      else with_peers (es_peers s ++ [MkPeerReceiver peer endpoint NetworkMetricsFilter_new]) s
  | None => with_peers (List.filter (fun p => negb (bool_decide (pr_id p = peer))) (es_peers s)) s
  end.

(** A sink is told whether anybody listens. *)
Definition with_receivers (rs : Receivers) (e : SinkEntry) : SinkEntry :=
  MkSinkEntry (set_is_connected (negb (receivers_is_empty rs)) (se_sink e)) rs (se_encoder e).

Definition prune_peers (peers : list Id) (s : EngineState) : bool * EngineState :=
  let s := with_peers (List.filter (fun p => contains peers (pr_id p)) (es_peers s)) s in
  let s := with_sinks (map (fun e => with_receivers (retain_peers peers (se_receivers e)) e) (es_sinks s)) s in
  let '(changed, cs) := prune_peer_channels peers (es_channels s) in
  (changed, with_channels cs s).

Definition discard_entry (e : SinkEntry) : SinkEntry :=
  MkSinkEntry (with_queue (discard_pending (sink_queue (se_sink e))) (se_sink e)) (se_receivers e)
    (Encoder_new (sink_id (se_sink e))).

Definition discard_sink_buffers (s : EngineState) : EngineState := with_sinks (map discard_entry (es_sinks s)) s.

(** ** Sinks and sources *)

(** [NodeId::new()] is the argument [id]. *)
Definition add_sink (id : Id) (name : bytes) (max_num_samples : nat) (s : EngineState) : EngineState :=
  with_sinks (es_sinks s ++ [MkSinkEntry (Sink_new name max_num_samples id) Receivers_new (Encoder_new id)]) s.

Definition send_channel_byes (ids : list Id) (s : EngineState) : list Packet :=
  flat_map (fun g => flat_map (fun p => send_message (es_node_id s) CHANNEL_BYES AUDIO_TTL (to_payload g) (pr_endpoint p))
                       (es_peers s)) (split_byes ids).

Definition remove_sink (id : Id) (s : EngineState) : EngineState * list Packet :=
  let l := List.filter (fun e => negb (bool_decide (sink_id (se_sink e) = id))) (es_sinks s) in
  let removed := negb (length l =? length (es_sinks s))%nat in
  let s := with_sinks l s in
  (s, if removed then send_channel_byes [id] s else []).

(** The messages of [send_channel_requests] and of the request task. *)
Definition channel_requests (s : EngineState) : list Packet :=
  flat_map (fun e =>
    let id := source_id (so_source e) in
    match channel_endpoint id (es_channels s) with
    | Some endpoint =>
        send_message (es_node_id s) CHANNEL_REQUEST AUDIO_TTL (request_to_payload (MkRequest (es_node_id s) id)) endpoint
    | None => []
    end) (es_sources s).

Definition add_source (id : Id) (s : EngineState) : EngineState :=
  with_sources (es_sources s ++ [MkSourceEntry (MkSource id true) (PcmDecoder_new 4096)]) s.

Definition remove_source (id : Id) (s : EngineState) : EngineState * list Packet :=
  let l := List.filter (fun e => negb (bool_decide (source_id (so_source e) = id))) (es_sources s) in
  let removed := negb (length l =? length (es_sources s))%nat in
  let s := with_sources l s in
  (s, match removed, channel_endpoint id (es_channels s) with
      | true, Some endpoint =>
          send_message (es_node_id s) STOP_CHANNEL_REQUEST 0 (stop_to_payload (MkStopRequest (es_node_id s) id)) endpoint
      | _, _ => []
      end).

(** ** Tasks *)

(** One round of the announce task. *)
Definition announce_pass (ping_time : Duration) (s : EngineState) : EngineState * list Packet :=
  let anns := announcements s in
  let current := flat_map (fun a => announced_channels (announced_list a)) anns in
  let gone := map announced_id
    (List.filter (fun p => negb (existsb (fun c => bool_decide (announced_id c = announced_id p)) current)) (es_announced s)) in
  let s := with_announced current s in
  let send t payload p := send_message (es_node_id s) t AUDIO_TTL payload (pr_endpoint p) in
  (s, flat_map (fun g => flat_map (send CHANNEL_BYES (to_payload g)) (es_peers s)) (split_byes gone)
      ++ flat_map (fun p =>
           flat_map (fun '(i, a) =>
             let payload := announcement_to_payload a in
             send PEER_ANNOUNCEMENT
               (if (i =? 0)%nat then audio_entry_encode (MkAudioHostTime ping_time) payload else payload) p)
             (combine (seq 0 (length anns)) anns)) (es_peers s)).

Definition has_audio (b : Buffer) : bool := f64_ltb f64_zero (bpm (buf_tempo b)).

(** [while entry.reader.retain_slot()] *)
Fixpoint process_slots (fuel : nat) (max_num_samples : nat) (q : SlotQueue Buffer) (enc : Encoder)
  : option (SlotQueue Buffer * Encoder) :=
  match fuel with
  | O => None
  | S fuel =>
      let '(ok, q) := Reader_retain_slot q in
      if negb ok then Some (q, enc)
      else
        let enc := match Reader_slot_mut q with
                   | Some b => if has_audio b then Encoder_encode enc b else enc
                   | None => enc
                   end in
        let q := match Reader_slot_mut q with
                 | Some b => with_reader (Some (grow_samples max_num_samples b)) q
                 | None => q
                 end in
        process_slots fuel max_num_samples (Reader_release_slot q) enc
  end.

Definition drain_outbox (enc : Encoder) : list AudioBuffer * Encoder :=
  (sent (successor enc),
   MkResizer (MkPcmEncoder (output (successor enc)) []) (max_num_bytes enc) (cache enc) (cached_frames enc)
     (available_frames enc) (num_channels enc) (sample_rate enc) (AudioResizer.session_id enc) (chunks enc) (count enc)).

(** The body of the loop over the sinks: whether the name changed, the entry
    and its messages.  No slot is released while it runs, so a round per slot
    and one more is enough. *)
Definition process_entry (now : Z) (node : Id) (e : SinkEntry) : option (bool * SinkEntry * list Packet) :=
  let '(changed, sink) := name_changed (se_sink e) in
  let rs := receivers_prune_expired now (se_receivers e) in
  let sink := set_is_connected (negb (receivers_is_empty rs)) sink in
  let! (q, enc) := process_slots (S (num_slots (sink_queue sink))) (sink_max_num_samples sink) (sink_queue sink)
                     (se_encoder e) in
  let '(buffers, enc) := drain_outbox enc in
  let to := endpoints rs in
  let packets := flat_map (fun b => match audio_buffer_message node (encode_raw b) with
                                    | Ok message => map (fun a => (message, a)) to
                                    | Err _ => []
                                    end) buffers in
  Some (changed, MkSinkEntry (with_queue q sink) rs enc, packets).

Fixpoint process_entries (now : Z) (node : Id) (l : list SinkEntry) : option (bool * list SinkEntry * list Packet) :=
  match l with
  | [] => Some (false, [], [])
  | e :: l =>
      let! (changed, e, ps) := process_entry now node e in
      let! (changed', l, ps') := process_entries now node l in
      Some (changed || changed', e :: l, ps ++ ps')
  end.

Definition process_pass (now : Z) (s : EngineState) : option (bool * EngineState * list Packet) :=
  let! (names_changed, l, packets) := process_entries now (es_node_id s) (es_sinks s) in
  let '(expired, cs) := channels_prune_expired now (es_channels s) in
  Some (names_changed || expired, with_channels cs (with_sinks l s), packets).

(** ** Receiving *)

Definition receive_announcement (peer : Id) (payload : bytes) (from : SocketAddrV4) (ttl now : Z) (s : EngineState)
  : bool * EngineState :=
  match List.find (fun p => bool_decide (pr_endpoint p = from)) (es_peers s) with
  | None => (false, s)
  | Some p =>
      match announcement_from_payload peer payload with
      | Some (Ok a) =>
          let '(changed, cs) :=
            saw_announcement peer (peer_name (announced_peer a)) (announced_session a)
              (announced_channels (announced_list a)) (gateway_addr s) from (filter_quality (pr_metrics p)) ttl now
              (es_channels s) in
          (changed, with_channels cs s)
      | _ => (false, s)
      end
  end.

Definition receive_ping (payload : bytes) (from : SocketAddrV4) (s : EngineState) : list Packet :=
  match captured ping_visit payload None with
  | Some host_time => send_message (es_node_id s) AUDIO_PONG AUDIO_TTL (to_payload host_time) from
  | None => []
  end.

Definition receive_pong (payload : bytes) (from : SocketAddrV4) (receive_time : Duration) (s : EngineState)
  : EngineState :=
  match captured ping_visit payload None with
  | Some h =>
      with_peers (update_found (fun p => bool_decide (pr_endpoint p = from))
        (fun p => MkPeerReceiver (pr_id p) (pr_endpoint p)
                    (metrics_push (Duration_add receive_time (Duration_neg (audio_time h))) (pr_metrics p)))
        (es_peers s)) s
  | None => s
  end.

Definition receive_channel_byes (payload : bytes) (s : EngineState) : bool * EngineState :=
  let ids := captured byes_visit payload [] in
  if (length ids =? 0)%nat then (false, s)
  else let '(changed, cs) := channels_left (gateway_addr s) ids (es_channels s) in (changed, with_channels cs s).

Definition is_sink (id : Id) (e : SinkEntry) : bool := bool_decide (sink_id (se_sink e) = id).

Definition engine_channel_request (peer : Id) (payload : bytes) (ttl : Z) (from : SocketAddrV4) (now : Z) (s : EngineState)
  : EngineState :=
  match request_from_payload peer payload with
  | Some (Ok r) =>
      with_sinks (update_found (is_sink (requested_channel r))
        (fun e => with_receivers (receive_channel_request r ttl (Some from) now (se_receivers e)) e) (es_sinks s)) s
  | _ => s
  end.

Definition engine_channel_stop_request (peer : Id) (payload : bytes) (s : EngineState) : EngineState :=
  match stop_from_payload peer payload with
  | Some (Ok r) =>
      with_sinks (update_found (is_sink (stopped_channel r))
        (fun e => with_receivers (receive_channel_stop_request r (se_receivers e)) e) (es_sinks s)) s
  | _ => s
  end.

(** The handles that reach the callback of the first source of the channel. *)
Fixpoint decode_at (shut_down : bool) (b : AudioBuffer) (l : list SourceEntry)
  : option (list SourceEntry * list BufferCallbackHandle) :=
  match l with
  | [] => Some ([], [])
  | e :: l =>
      if bool_decide (source_id (so_source e) = channel_id b) then
        let! (d, handles) := decode (so_decoder e) b in
        Some (MkSourceEntry (so_source e) d :: l, flat_map (invoke shut_down (so_source e)) handles)
      else
        let! (l, handles) := decode_at shut_down b l in Some (e :: l, handles)
  end.

Definition receive_audio_buffer (shut_down : bool) (payload : bytes) (s : EngineState)
  : option (EngineState * list BufferCallbackHandle) :=
  match decode_raw payload with
  | Ok b => let! (l, handles) := decode_at shut_down b (es_sources s) in Some (with_sources l s, handles)
  | Err _ => Some (s, [])
  end.

(** What a message does: whether the channels changed, the messages sent in
    answer and the audio handed to callbacks. *)
Record Effects := MkEffects { channels_changed : bool; answers : list Packet; played : list BufferCallbackHandle }.

Definition no_effects : Effects := MkEffects false [] [].

(** [handle_message], below the epoch check of its caller. *)
Definition handle_message (shut_down : bool) (data : bytes) (from : SocketAddrV4) (now : Z) (receive_time : Duration)
    (s : EngineState) : option (EngineState * Effects) :=
  match audio_parse_message_header data with
  | Err _ => Some (s, no_effects)
  | Ok (header, payload_offset) =>
      let payload := drop payload_offset data in
      if bool_decide (audio_ident header = es_node_id s) then Some (s, no_effects)
      else if audio_message_type header =? PEER_ANNOUNCEMENT then
        let '(changed, s) := receive_announcement (audio_ident header) payload from (audio_ttl header) now s in
        Some (s, MkEffects changed (receive_ping payload from s) [])
      else if audio_message_type header =? CHANNEL_BYES then
        let '(changed, s) := receive_channel_byes payload s in Some (s, MkEffects changed [] [])
      else if audio_message_type header =? AUDIO_PONG then Some (receive_pong payload from receive_time s, no_effects)
      else if audio_message_type header =? CHANNEL_REQUEST then
        Some (engine_channel_request (audio_ident header) payload (audio_ttl header) from now s, no_effects)
      else if audio_message_type header =? STOP_CHANNEL_REQUEST then
        Some (engine_channel_stop_request (audio_ident header) payload s, no_effects)
      else if audio_message_type header =? AUDIO_BUFFER then
        let! (s, handles) := receive_audio_buffer shut_down payload s in Some (s, MkEffects false [] handles)
      else Some (s, no_effects)
  end.

(** ** The channels an application sees *)

(** [publish]: the list, and whether the callback is notified. *)
Definition published_channels (s : EngineState) : list Channel :=
  let channels := all_channels (es_channels s) in
  List.filter (fun c => bool_decide (ch_session c = es_session_id s)) channels
  ++ List.filter (fun c => negb (bool_decide (ch_session c = es_session_id s))) channels.

Definition publish (s : EngineState) (api_channels : list Channel) : bool * list Channel :=
  let ordered := published_channels s in
  if bool_decide (api_channels = ordered) then (false, api_channels) else (true, ordered).
End Engine.

(** ** Splitting conserves what is split *)

Lemma alter_last_snoc {A} (f : A -> A) l x : alter_last f (l ++ [x]) = l ++ [f x].
Proof.
  unfold alter_last. rewrite length_app. simpl. replace (length l + 1 - 1)%nat with (length l + 0)%nat by lia.
  now rewrite alter_app_r.
Qed.

Definition group_fits (g : ChannelByes) : Prop := 12 + 8 * Z.of_nat (length (byes g)) <= MAX_PAYLOAD_SIZE.

Lemma group_size g : group_fits g -> size_in_byte_stream g = 12 + 8 * Z.of_nat (length (byes g)).
Proof.
  unfold group_fits, size_in_byte_stream, ENTRY_HEADER_SIZE. intros H. cbn [body_size ChannelByes_entry].
  assert (MAX_PAYLOAD_SIZE = 1176) as E by reflexivity.
  rewrite byes_sum_u32, !as_u32_id; rewrite ?as_u32_id; zlia.
Qed.

Lemma bye_added_snoc init g id :
  group_fits g ->
  bye_added (init ++ [g]) id =
    if MAX_PAYLOAD_SIZE <? 20 + 8 * Z.of_nat (length (byes g)) then init ++ [g; MkByes [id]]
    else init ++ [MkByes (byes g ++ [id])].
Proof.
  intros F. unfold bye_added. rewrite last_snoc, group_size by exact F. rewrite as_u32_id.
  2: { unfold group_fits, MAX_PAYLOAD_SIZE, AUDIO_MAX_MESSAGE_SIZE, AUDIO_HEADER_SIZE in F. zlia. }
  replace (12 + 8 * Z.of_nat (length (byes g)) + 8) with (20 + 8 * Z.of_nat (length (byes g))) by lia.
  destruct (_ <? _); rewrite alter_last_snoc; [|reflexivity]. now rewrite <- app_assoc.
Qed.

Lemma split_byes_inv ids :
  exists init g, fold_left bye_added ids [MkByes []] = init ++ [g] /\ Forall group_fits (init ++ [g]) /\
    flat_map byes (init ++ [g]) = ids.
Proof.
  induction ids as [|id ids IH] using rev_ind.
  - exists [], (MkByes []). repeat split. repeat constructor. discriminate.
  - destruct IH as (init & g & E & F & C). rewrite fold_left_app. simpl. rewrite E.
    pose proof F as F'. apply Forall_app in F' as [Fi Fg]. inversion Fg as [|? ? Fg' _]; subst.
    rewrite bye_added_snoc by assumption. rewrite !flat_map_app in *. simpl in *. rewrite app_nil_r in *.
    destruct (Z.ltb_spec MAX_PAYLOAD_SIZE (20 + 8 * Z.of_nat (length (byes g)))).
    + exists (init ++ [g]), (MkByes [id]). rewrite <- app_assoc. repeat split.
      * apply Forall_app. split; [exact Fi|]. repeat constructor; [exact Fg'|]. discriminate.
      * rewrite flat_map_app. simpl. now rewrite <- app_assoc.
    + exists init, (MkByes (byes g ++ [id])). repeat split.
      * apply Forall_app. split; [exact Fi|]. repeat constructor. unfold group_fits. simpl.
        rewrite length_app. simpl. lia.
      * rewrite flat_map_app. simpl. now rewrite app_nil_r, app_assoc.
Qed.

Lemma filter_nonempty_concat (l : list ChannelByes) :
  flat_map byes (List.filter (fun g => negb (length (byes g) =? 0)%nat) l) = flat_map byes l.
Proof.
  induction l as [|g l IH]; simpl; [reflexivity|].
  destruct (byes g) eqn:E; simpl; rewrite IH; [reflexivity|]. now rewrite E.
Qed.

Lemma split_byes_fits ids g : In g (split_byes ids) -> group_fits g.
Proof.
  destruct (split_byes_inv ids) as (init & g' & E & F & _). unfold split_byes. rewrite E. intros [Hg _]%filter_In.
  rewrite List.Forall_forall in F. now apply F.
Qed.

(** Channels that say goodbye are split into messages without loss: the
    payloads carry exactly the ids, in order, none is empty, and each fits a
    message. *)
Theorem split_byes_conserves ids :
  flat_map byes (split_byes ids) = ids /\
  Forall (fun g => byes g <> [] /\ size_in_byte_stream g <= MAX_PAYLOAD_SIZE) (split_byes ids).
Proof.
  destruct (split_byes_inv ids) as (init & g & E & F & C). unfold split_byes. rewrite E, filter_nonempty_concat.
  split; [exact C|]. apply List.Forall_forall. intros x [Hx Hn]%filter_In. rewrite List.Forall_forall in F.
  specialize (F x Hx). split; [intros E0; now rewrite E0 in Hn|]. now rewrite group_size.
Qed.

(** *** Announcements *)

Section Announcements.
Context `{M : Mpsc, Ch : Chrono}.

(** A name as [truncate_name] leaves it. *)
Definition name_ok (name : bytes) : Prop := utf8_ok name = true /\ (length name <= MAX_NAME_SIZE)%nat.

Definition small_channel (c : ChannelAnnouncement) : Prop := name_ok (announced_name c) /\ id_ok (announced_id c).

Definition announcing_ok (s : EngineState) : Prop :=
  id_ok (es_node_id s) /\ id_ok (session_node (es_session_id s)) /\ name_ok (es_peer_name s) /\
  Forall small_channel (channel_announcements s).

Lemma name_string_ok name : name_ok name -> string_ok name.
Proof. intros [V L]. split; [exact V|]. unfold MAX_NAME_SIZE in L. zlia. Qed.

Lemma name_ok_truncated name : name_ok name -> truncate_name name = name.
Proof. intros [_ L]. unfold truncate_name. now destruct (Nat.leb_spec (length name) MAX_NAME_SIZE); [|lia]. Qed.

Lemma truncate_name_ok name : utf8_ok name = true -> name_ok (truncate_name name).
Proof.
  intros V. unfold truncate_name. destruct (Nat.leb_spec (length name) MAX_NAME_SIZE) as [L|L]; [now split|].
  destruct (boundary_below_spec name MAX_NAME_SIZE) as (B & C & _).
  split; [apply utf8_ok_take; [exact V|exact C|lia]|]. rewrite length_take. lia.
Qed.

Lemma small_channel_size c : small_channel c ->
  channel_ok c /\ ChannelAnnouncement_size c = 12 + Z.of_nat (length (announced_name c)) /\
  12 <= ChannelAnnouncement_size c <= 268.
Proof.
  intros [N I]. pose proof (name_string_ok _ N) as S. split; [now split|].
  unfold ChannelAnnouncement_size. rewrite size_of_string_eq by exact S. destruct N as [_ L]. unfold MAX_NAME_SIZE in L.
  rewrite as_u32_id; zlia.
Qed.

(** The announcement of [base] with these channels, and its size. *)
Definition announces (base : PeerAnnouncement) (cs : list ChannelAnnouncement) : PeerAnnouncement :=
  MkPeerAnnouncement (announcing_node base) (announced_session base) (announced_peer base) (MkAnnouncements cs).

Definition base_ok (base : PeerAnnouncement) : Prop :=
  id_ok (session_node (announced_session base)) /\ name_ok (peer_name (announced_peer base)) /\
  announced_list base = MkAnnouncements [].

Definition announced_size (base : PeerAnnouncement) (cs : list ChannelAnnouncement) : Z :=
  40 + Z.of_nat (length (peer_name (announced_peer base))) + sizes_sum ChannelAnnouncement_size cs.

Lemma sizes_sum_snoc {A} (f : A -> Z) l x : sizes_sum f (l ++ [x]) = sizes_sum f l + f x.
Proof. unfold sizes_sum. rewrite map_app, fold_right_app. simpl. induction (map f l); simpl; lia. Qed.

Lemma announces_ok base cs :
  base_ok base -> Forall small_channel cs -> announced_size base cs <= MAX_PAYLOAD_SIZE ->
  announcement_ok (announces base cs) /\ announcement_payload_size (announces base cs) = announced_size base cs.
Proof.
  intros (I & N & _) F L. pose proof (name_string_ok _ N) as S. rewrite List.Forall_forall in F.
  assert (0 <= sizes_sum ChannelAnnouncement_size cs) as P.
  { apply sizes_sum_nonneg. intros c Hc. destruct (small_channel_size c (F c Hc)) as (_ & _ & ?). lia. }
  unfold announced_size, MAX_PAYLOAD_SIZE, AUDIO_MAX_MESSAGE_SIZE, AUDIO_HEADER_SIZE in *.
  assert (entry_ok (MkAnnouncements cs)) as O3.
  { split; cbn [announced_channels]; [intros c Hc; apply small_channel_size, F, Hc|zlia]. }
  assert (entry_ok (announced_peer base)) as O2 by exact S.
  assert (entry_ok (MkAudioMembership (announced_session base))) as O1 by exact I.
  assert (body_size (announced_peer base) = 4 + Z.of_nat (length (peer_name (announced_peer base)))) as E2.
  { cbn. now apply size_of_string_eq. }
  assert (body_size (MkAnnouncements cs) = 4 + sizes_sum ChannelAnnouncement_size cs) as E3.
  { cbn [body_size ChannelAnnouncements_entry announced_channels]. rewrite sum_u32_sizes, as_u32_id; try zlia.
    intros c Hc. destruct (small_channel_size c (F c Hc)) as (_ & _ & ?). lia. }
  split.
  - split; [exact O1|]. split; [exact O2|]. split; [exact O3|]. unfold announces; cbn [announced_peer announced_list]. rewrite E2, E3. zlia.
  - unfold announcement_payload_size, announces; cbn [announced_session announced_peer announced_list].
    destruct (entry_size _ O1) as [-> _], (entry_size _ O2) as [-> ?], (entry_size _ O3) as [-> ?].
    change (body_size (MkAudioMembership (announced_session base))) with 8. rewrite E2, E3.
    rewrite !as_u32_id; rewrite ?as_u32_id; zlia.
Qed.

(** The first announcement leaves room for the ping. *)
Definition groups_fit (base : PeerAnnouncement) (gs : list (list ChannelAnnouncement)) : Prop :=
  Forall (fun g => announced_size base g <= MAX_PAYLOAD_SIZE) gs /\
  match gs with g :: _ => announced_size base g + 16 <= MAX_PAYLOAD_SIZE | [] => True end.

Lemma announcement_added_snoc base init g c :
  base_ok base -> Forall small_channel g -> small_channel c -> announced_size base g <= MAX_PAYLOAD_SIZE ->
  announcement_added 16 base (map (announces base) (init ++ [g])) c =
  map (announces base)
    (if MAX_PAYLOAD_SIZE <? announced_size base (g ++ [c]) + (if (length init =? 0)%nat then 16 else 0)
     then init ++ [g; [c]] else init ++ [g ++ [c]]).
Proof.
  intros Hb Hg Hc L. destruct (small_channel_size c Hc) as (_ & _ & S).
  pose proof (announces_ok base g Hb Hg L) as [_ E]. unfold announced_size in *. rewrite sizes_sum_snoc.
  unfold announcement_added. rewrite length_map, length_app, map_app. cbn [map length]. rewrite last_snoc, E.
  assert (MAX_PAYLOAD_SIZE = 1176) as Em by reflexivity. rewrite Em in *.
  assert (0 <= sizes_sum ChannelAnnouncement_size g) as P.
  { apply sizes_sum_nonneg. rewrite List.Forall_forall in Hg. intros x Hx.
    destruct (small_channel_size x (Hg x Hx)) as (_ & _ & ?). lia. }
  replace (length init + 1 =? 1)%nat with (length init =? 0)%nat by (destruct (length init); [reflexivity|now rewrite Nat.add_comm]).
  set (p := Z.of_nat (length (peer_name (announced_peer base)))) in *. set (z := sizes_sum _ g) in *.
  destruct (length init =? 0)%nat; rewrite !as_u32_id; rewrite ?as_u32_id; try zlia.
  all: match goal with |- context [if ?a then (_ ++ _) ++ _ else _] => set (t := a) end;
       match goal with |- context [map _ (if ?a then _ else _)] => replace a with t by (subst t; f_equal; lia) end.
  all: destruct t; rewrite alter_last_snoc, ?map_app; [rewrite <- app_assoc, (proj2 (proj2 Hb))|]; reflexivity.
Qed.

Lemma announcements_inv base cs :
  base_ok base -> Forall small_channel cs ->
  exists init g, fold_left (announcement_added 16 base) cs [announces base []] = map (announces base) (init ++ [g]) /\
    groups_fit base (init ++ [g]) /\ concat (init ++ [g]) = cs.
Proof.
  intros Hb. induction cs as [|c cs IH] using rev_ind; intros Hc.
  - exists [], []. split; [reflexivity|]. split; [|reflexivity].
    assert (announced_size base [] + 16 <= MAX_PAYLOAD_SIZE) as L.
    { destruct Hb as (_ & [_ L] & _). unfold announced_size, sizes_sum, MAX_NAME_SIZE in *.
      change MAX_PAYLOAD_SIZE with 1176. cbn [map fold_right]. lia. }
    split; [apply Forall_singleton; lia|exact L].
  - apply Forall_app in Hc as [Hcs Hc]. inversion Hc as [|? ? Hc' _]; subst.
    destruct (IH Hcs) as (init & g & E & [F F0] & C). rewrite fold_left_app. cbn [fold_left]. rewrite E.
    assert (Forall small_channel g) as Hg.
    { rewrite <- C, concat_app in Hcs. cbn [concat] in Hcs. rewrite app_nil_r in Hcs. now apply Forall_app in Hcs as [_ ?]. }
    apply Forall_app in F as [Fi Fg]. inversion Fg as [|? ? Fg' _]; subst.
    rewrite announcement_added_snoc by assumption. rewrite !concat_app in *. cbn [concat] in *. rewrite !app_nil_r in *.
    destruct (small_channel_size c Hc') as (_ & _ & S).
    destruct (Z.ltb_spec MAX_PAYLOAD_SIZE (announced_size base (g ++ [c]) + (if (length init =? 0)%nat then 16 else 0))) as [L|L].
    + exists (init ++ [g]), [c]. rewrite <- app_assoc. split; [reflexivity|]. rewrite !concat_app. cbn [concat].
      rewrite !app_nil_r. split; [|now rewrite <- app_assoc]. split.
      * apply Forall_app. split; [exact Fi|]. repeat constructor; [exact Fg'|]. destruct Hb as [_ [[_ Ln] _]].
        unfold announced_size, sizes_sum, MAX_NAME_SIZE in *. change MAX_PAYLOAD_SIZE with 1176. cbn [map fold_right]. lia.
      * destruct init; exact F0.
    + exists init, (g ++ [c]). split; [reflexivity|]. rewrite !concat_app. cbn [concat]. rewrite !app_nil_r, app_assoc.
      split; [|reflexivity]. split.
      * apply Forall_app. split; [exact Fi|]. repeat constructor. destruct (length init =? 0)%nat; lia.
      * destruct init; [exact L|exact F0].
Qed.

Lemma announcements_groups s :
  announcing_ok s ->
  let base := MkPeerAnnouncement (es_node_id s) (es_session_id s) (MkPeerInfo (es_peer_name s)) (MkAnnouncements []) in
  base_ok base /\
  exists gs, announcements s = map (announces base) gs /\ groups_fit base gs /\ concat gs = channel_announcements s /\
    Forall (Forall small_channel) gs /\ (0 < length gs)%nat.
Proof.
  intros (_ & I & N & F) base. assert (base_ok base) as Hb by now repeat split; try apply N. split; [exact Hb|].
  destruct (announcements_inv base (channel_announcements s) Hb F) as (init & g & E & G & C).
  exists (init ++ [g]). repeat split; try apply G; try assumption.
  - unfold announcements. cbv zeta. unfold PeerInfo_new. rewrite name_ok_truncated by exact N. exact E.
  - apply List.Forall_forall. intros x Hx. rewrite <- C in F. apply List.Forall_forall. intros c Hc.
    rewrite List.Forall_forall in F. apply F. apply in_concat. eauto.
  - rewrite length_app. simpl. lia.
Qed.

(** The channels of a peer are split into announcements without loss: every
    sink is announced once, in order, under the peer's own identity; each
    announcement fits a message, and the first one leaves room for the ping
    that is sent with it. *)
Theorem announcements_conserve s :
  announcing_ok s ->
  flat_map (fun a => announced_channels (announced_list a)) (announcements s) = channel_announcements s /\
  Forall (fun a => announcing_node a = es_node_id s /\ announced_session a = es_session_id s /\
            peer_name (announced_peer a) = es_peer_name s /\ announcement_payload_size a <= MAX_PAYLOAD_SIZE)
    (announcements s) /\
  exists a l, announcements s = a :: l /\
    announcement_payload_size a + size_in_byte_stream (MkAudioHostTime Duration_zero) <= MAX_PAYLOAD_SIZE.
Proof.
  intros H. destruct (announcements_groups s H) as (Hb & gs & -> & [G G0] & <- & F & L).
  set (base := MkPeerAnnouncement _ _ _ _) in *. split; [|split].
  - clear. induction gs as [|g gs IH]; simpl; [reflexivity|]. now rewrite IH.
  - apply List.Forall_map, List.Forall_forall. intros g Hg. rewrite List.Forall_forall in F, G.
    repeat split. destruct (announces_ok base g Hb (F g Hg) (G g Hg)) as [_ ->]. now apply G.
  - destruct gs as [|g gs]; [simpl in L; lia|]. exists (announces base g), (map (announces base) gs). split; [reflexivity|].
    inversion F; inversion G; subst. destruct (announces_ok base g) as [_ ->]; assumption.
Qed.
End Announcements.
