(* ===== verification/AudioHandshake.v ===== *)
(** Two Link Audio engines talking: what one puts on the wire, applied to the
    state of the other.  Announcements make channels known, a request connects
    a sink, a ping is answered with its own time, and the audio of a connected
    sink is sent to everybody who listens.

    The definitions are those of src/src/link_audio/engine.rs in
    [AudioEngine]. *)

From stdpp Require Import base list numbers strings gmap.
From Stdlib Require Import ZArith Lia ZifyBool SpecFloat.
From S2P Require Import Prelude Chrono F64 Encoding Beats Tempo Timeline Phase Entries AudioQueue AudioStream AudioPayload AudioResizer AudioCodec AudioRegistry AudioSink AudioEngine.

(** ** Captured variables *)

Section Captured.
Context {St : Type} (visit : Z -> St -> Read St).

(** The rest of the input leaves [s'] in the captured variable. *)
Definition captures (s : St) (bs : bytes) (s' : St) : Prop :=
  forall fuel r, reader_ok r -> rest r = bs -> (length bs < fuel)%nat -> captured_entries visit fuel s r = Some s'.

Lemma captures_end s bs : (length bs < 8)%nat -> captures s bs s.
Proof.
  intros L [|fuel] r Hok E Hf; [lia|]. cbn [captured_entries]. rewrite <- rest_length, E.
  destruct (Nat.leb_spec 8 (length bs)); [lia|reflexivity].
Qed.

Lemma captures_entry s e bs s1 s' :
  reads (parse_entry visit s) e s1 -> (8 <= length e)%nat -> captures s1 bs s' -> captures s (e ++ bs) s'.
Proof.
  intros R L P [|fuel] r Hok E Hf; [lia|]. cbn [captured_entries]. rewrite <- rest_length, E.
  rewrite length_app in *. destruct (Nat.leb_spec 8 (length e + length bs)); [|lia].
  destruct (R r bs Hok E) as (r' & -> & E' & Hok'). apply P; [assumption..|lia].
Qed.

Lemma captures_payload s bs s' : captures s bs s' -> captured visit bs s = s'.
Proof. intros P. unfold captured. now rewrite P; [..|unfold reader_ok; simpl; lia|reflexivity|lia]. Qed.

Lemma captured_entries_total fuel s r :
  reader_ok r -> (length (rest r) < fuel)%nat -> exists s', captured_entries visit fuel s r = Some s'.
Proof.
  revert s r. induction fuel as [|fuel IH]; intros s r Hok Hf; [lia|]. cbn [captured_entries].
  destruct (_ <=? _)%nat; [|eauto]. destruct (parse_entry visit s r) as [[s1 r1]|] eqn:E; [|eauto].
  destruct (parse_entry_progress _ _ _ _ _ Hok E). apply IH; [assumption|lia].
Qed.
End Captured.

Section Handshake.
Context `{M : Mpsc} {Ch : Chrono} {Laws : ChronoLaws}.
Implicit Types (s r : EngineState).

Lemma send_message_in node t payload to :
  id_ok node -> in_u8 t -> Z.of_nat (length payload) <= 1180 ->
  exists m, send_message node t AUDIO_TTL payload to = [(m, to)] /\
    audio_parse_message_header m = Ok (MkAudioHeader t AUDIO_TTL 0 node, 20%nat) /\ drop 20 m = payload.
Proof.
  intros I T L. destruct (message_decodes node AUDIO_TTL t payload I) as (m & E & _ & H1 & H2); try assumption.
  { unfold AUDIO_TTL, in_u8. lia. }
  exists m. unfold send_message. now rewrite E.
Qed.

(** ** Announcements *)

(** What the [i]-th announcement of a round carries. *)
Definition announce_payload (ping_time : Duration) (i : nat) (a : PeerAnnouncement) : bytes :=
  if (i =? 0)%nat then audio_entry_encode (MkAudioHostTime ping_time) (announcement_to_payload a)
  else announcement_to_payload a.

Lemma announce_payload_fits s ping_time i a :
  announcing_ok s -> announcements s !! i = Some a ->
  announcement_ok a /\ announcing_node a = es_node_id s /\
  Z.of_nat (length (announce_payload ping_time i a)) <= MAX_PAYLOAD_SIZE.
Proof.
  intros H E. destruct (announcements_groups s H) as (Hb & gs & Eg & [G G0] & _ & F & _).
  set (base := MkPeerAnnouncement _ _ _ _) in *. rewrite Eg in E. rewrite list_lookup_fmap in E.
  destruct (gs !! i) as [g|] eqn:Ei; [|discriminate]. injection E as <-.
  rewrite Forall_lookup in F, G. pose proof (F _ _ Ei) as Fg. pose proof (G _ _ Ei) as Gg.
  destruct (announces_ok base g Hb Fg Gg) as [O S]. split; [exact O|]. split; [reflexivity|].
  unfold announce_payload. pose proof (announcement_payload_length _ O) as L. rewrite S in L.
  destruct (Nat.eqb_spec i 0) as [->|]; [|lia]. rewrite (entry_encode_wire (MkAudioHostTime ping_time)) by apply host_time_ok.
  destruct gs as [|g' gs]; [discriminate|]. injection Ei as ->. rewrite length_app, Nat2Z.inj_add, L.
  destruct (entry_wire_length (MkAudioHostTime ping_time) (host_time_ok _)) as [-> _].
  change (size_in_byte_stream (MkAudioHostTime ping_time)) with 16. exact G0.
Qed.

Lemma announce_payload_decodes s ping_time i a :
  announcing_ok s -> announcements s !! i = Some a ->
  announcement_from_payload (es_node_id s) (announce_payload ping_time i a) = Some (Ok a).
Proof.
  intros H E. destruct (announce_payload_fits s ping_time i a H E) as (O & <- & _). apply parses_payload.
  unfold announce_payload. destruct (i =? 0)%nat.
  - rewrite (entry_encode_wire (MkAudioHostTime ping_time)) by apply host_time_ok. apply announcement_parses; [exact O|].
    rewrite <- (app_nil_r (entry_wire _)). eapply parses_entry.
    + apply reads_skipped; [apply host_time_ok|reflexivity].
    + now destruct (entry_wire_length (MkAudioHostTime ping_time) (host_time_ok _)).
    + apply parses_end. simpl. lia.
  - rewrite <- (app_nil_r (announcement_to_payload a)). apply announcement_parses; [exact O|]. apply parses_end. simpl. lia.
Qed.

(** Every announcement is sent to every peer. *)
Lemma announce_pass_sends s ping_time i a p :
  announcing_ok s -> announcements s !! i = Some a -> In p (es_peers s) ->
  exists m, In (m, pr_endpoint p) (snd (announce_pass ping_time s)) /\
    audio_parse_message_header m = Ok (MkAudioHeader PEER_ANNOUNCEMENT AUDIO_TTL 0 (es_node_id s), 20%nat) /\
    drop 20 m = announce_payload ping_time i a.
Proof.
  intros H E Hp. destruct (announce_payload_fits s ping_time i a H E) as (O & _ & L).
  destruct (send_message_in (es_node_id s) PEER_ANNOUNCEMENT (announce_payload ping_time i a) (pr_endpoint p))
    as (m & Em & H1 & H2); [apply H|unfold PEER_ANNOUNCEMENT, in_u8; lia|change MAX_PAYLOAD_SIZE with 1176 in L; lia|].
  exists m. split; [|now split]. unfold announce_pass. cbn [snd]. apply in_or_app. right.
  apply in_flat_map. exists p. split; [exact Hp|]. apply in_flat_map. exists (i, a). split.
  - apply list_elem_of_In, list_elem_of_lookup. exists i. apply lookup_zip_with_Some.
    exists i, a. repeat split; [|exact E]. apply lookup_seq. split; [reflexivity|]. now apply lookup_lt_Some in E.
  - cbn [es_node_id with_announced]. unfold announce_payload in Em. rewrite Em. now left.
Qed.

(** *** Announced channels become known *)

Lemma announce_channel_in c gw ex l : In (MkChannelInfo c gw ex) (snd (announce_channel c gw ex l)).
Proof.
  induction l as [|i l IH]; simpl; [now left|].
  destruct (bool_decide (ch_id (ci_channel i) = ch_id c)) eqn:E1, (bool_decide (ci_gateway i = gw)) eqn:E2; simpl.
  1: left; f_equal; now apply bool_decide_eq_true in E2.
  all: destruct (announce_channel c gw ex l); now right.
Qed.

Lemma announce_channel_keeps c gw ex l i :
  In i l -> In i (snd (announce_channel c gw ex l)) \/
  (ch_id (ci_channel i) = ch_id c /\ ci_gateway i = gw).
Proof.
  induction l as [|j l IH]; simpl; [easy|]. intros [->|H].
  - destruct (bool_decide (ch_id (ci_channel i) = ch_id c)) eqn:E1, (bool_decide (ci_gateway i = gw)) eqn:E2; simpl;
      try (destruct (announce_channel c gw ex l); now repeat left). right.
    apply bool_decide_eq_true in E1, E2. now split.
  - destruct (_ && _); simpl; [left; now right|]. destruct (announce_channel c gw ex l). destruct (IH H); [left; now right|now right].
Qed.

Lemma announce_all_in cs gw ex l c :
  In c cs -> exists i, In i (snd (announce_all cs gw ex l)) /\ ch_id (ci_channel i) = ch_id c /\ ci_gateway i = gw /\
    ci_expires i = ex /\ In (ci_channel i) cs.
Proof.
  unfold announce_all. induction cs as [|x cs IH] using rev_ind; [easy|]. rewrite fold_left_app. cbn [fold_left].
  destruct (fold_left _ cs (false, l)) as [ch l'] eqn:E. simpl in IH.
  pose proof (announce_channel_in x gw ex l') as Hx. pose proof (announce_channel_keeps x gw ex l') as Hk.
  destruct (announce_channel x gw ex l') as [ch' l'']. cbn [snd] in *. intros [Hc|[->|[]]]%in_app_or.
  - destruct (IH Hc) as (i & Hi & E1 & E2 & E3 & E4). destruct (Hk i Hi) as [Hi'|[E5 E6]].
    + exists i. repeat split; try assumption. apply in_or_app. now left.
    + exists (MkChannelInfo x gw ex). cbn [ci_channel ci_gateway ci_expires].
      split; [exact Hx|]. split; [congruence|]. repeat split. apply in_or_app. right. now left.
  - exists (MkChannelInfo c gw ex). split; [exact Hx|]. repeat split. apply in_or_app. right. now left.
Qed.

Lemma saw_announcement_knows peer name session l gw from q ttl now cs a :
  In a l ->
  let '(_, cs') := saw_announcement peer name session l gw from q ttl now cs in
  (exists i, In i (known_channels cs') /\ ch_id (ci_channel i) = announced_id a /\ ch_peer_id (ci_channel i) = peer /\
     ch_session (ci_channel i) = session /\ ci_expires i = now + from_secs ttl) /\
  is_Some (peer_send_handlers cs' !! peer).
Proof.
  intros Ha. unfold saw_announcement. set (chans := map _ l).
  destruct (announce_all_in chans gw (now + from_secs ttl) (known_channels cs)
    (MkChannel (announced_id a) (announced_name a) peer name session)) as (i & Hi & E1 & E2 & E3 & E4).
  { apply in_map_iff. now exists a. }
  destruct (announce_all _ _ _ _) as [ch l']. cbn [snd known_channels peer_send_handlers] in *. split.
  - exists i. apply in_map_iff in E4 as (b & Eb & _). rewrite <- Eb in *. cbn in *. now repeat split.
  - unfold prefer_handler. destruct (peer_send_handlers cs !! peer) eqn:P.
    + destruct (f64_leb _ _); [now rewrite P|]. rewrite lookup_insert_eq. eauto.
    + rewrite lookup_insert_eq. eauto.
Qed.

(** C24 Discovery, from sink to peer: in one round of its announce task a peer
    sends every other peer it knows messages that together announce each of
    its sinks.  A peer that handles the message, and knows the sender from the
    Link session, lists the channel under the sender and its session until the
    announcement expires, and knows where to send requests for it. *)
Theorem announced_channel_discovered s r ping_time p c from shut_down now receive_time q :
  announcing_ok s -> In c (channel_announcements s) -> In p (es_peers s) ->
  es_node_id r <> es_node_id s -> In q (es_peers r) -> pr_endpoint q = from ->
  exists m r' eff, In (m, pr_endpoint p) (snd (announce_pass ping_time s)) /\
    handle_message shut_down m from now receive_time r = Some (r', eff) /\
    (exists i, In i (known_channels (es_channels r')) /\ ch_id (ci_channel i) = announced_id c /\
       ch_peer_id (ci_channel i) = es_node_id s /\ ch_session (ci_channel i) = es_session_id s /\
       ci_expires i = now + from_secs AUDIO_TTL) /\
    is_Some (peer_endpoint (es_node_id s) (es_channels r')).
Proof.
  intros H Hc Hp Hn Hq Eq. destruct (announcements_groups s H) as (Hb & gs & Eg & _ & Cg & _ & _).
  rewrite <- Cg in Hc. apply in_concat in Hc as (g & Hg & Hc).
  apply list_elem_of_In, list_elem_of_lookup in Hg as [i Hg].
  set (base := MkPeerAnnouncement _ _ _ _) in *.
  assert (announcements s !! i = Some (announces base g)) as E by now rewrite Eg, list_lookup_fmap, Hg.
  destruct (announce_pass_sends s ping_time i _ p H E Hp) as (m & Hm & Hh & Hd).
  destruct (List.find (fun x => bool_decide (pr_endpoint x = from)) (es_peers r)) as [q'|] eqn:Fq.
  2: { apply (List.find_none _ _ Fq q) in Hq. apply bool_decide_eq_false in Hq. contradiction. }
  exists m. unfold handle_message. rewrite Hh, Hd. cbn [audio_ident audio_message_type audio_ttl].
  rewrite bool_decide_eq_false_2 by congruence. cbn [Z.eqb PEER_ANNOUNCEMENT Pos.eqb].
  unfold receive_announcement. rewrite Fq, announce_payload_decodes by assumption.
  pose proof (saw_announcement_knows (es_node_id s) (peer_name (announced_peer (announces base g)))
    (announced_session (announces base g)) (announced_channels (announced_list (announces base g)))
    (gateway_addr r) from (filter_quality (pr_metrics q')) AUDIO_TTL now (es_channels r) c Hc) as K.
  destruct (saw_announcement _ _ _ _ _ _ _ _ _ _) as [ch cs']. destruct K as [K [h Hh']].
  eexists _, _. split; [exact Hm|]. split; [reflexivity|]. cbn [es_channels with_channels]. split; [exact K|].
  unfold peer_endpoint. rewrite Hh'. now eexists.
Qed.
End Handshake.

(** ** Requests *)

Section Requests.
Context `{M : Mpsc} {Ch : Chrono}.
Implicit Types (s r : EngineState).

Lemma update_found_find {A} (p : A -> bool) f (l : list A) x :
  (forall y, p y = true -> p (f y) = true) -> List.find p l = Some x -> List.find p (update_found p f l) = Some (f x).
Proof.
  intros Hf. induction l as [|y l IH]; simpl; [discriminate|]. destruct (p y) eqn:E; simpl.
  - intros [= ->]. now rewrite Hf.
  - rewrite E. exact IH.
Qed.

Lemma request_endpoint_in req ttl from now rs :
  In from (endpoints (receive_channel_request req ttl (Some from) now rs)) /\
  receivers_is_empty (receive_channel_request req ttl (Some from) now rs) = false.
Proof.
  unfold receive_channel_request, insert_at. cbv zeta. set (rs' := List.filter _ rs). set (k := partition_point _ _). split.
  - apply list_elem_of_In, list_elem_of_omap. eexists. split; [apply elem_of_app; right; left|]. reflexivity.
  - unfold receivers_is_empty. rewrite length_app. simpl. now rewrite Nat.add_comm.
Qed.

(** The request of a source is sent to where its channel lives. *)
Lemma channel_requests_in r e to :
  id_ok (es_node_id r) -> id_ok (source_id (so_source e)) -> In e (es_sources r) ->
  channel_endpoint (source_id (so_source e)) (es_channels r) = Some to ->
  exists m, In (m, to) (channel_requests r) /\
    audio_parse_message_header m = Ok (MkAudioHeader CHANNEL_REQUEST AUDIO_TTL 0 (es_node_id r), 20%nat) /\
    drop 20 m = to_payload (MkChannelId (source_id (so_source e))).
Proof.
  intros In' Ii He Et. pose proof (entry_wire_length (MkChannelId (source_id (so_source e))) Ii) as [L _].
  destruct (send_message_in (es_node_id r) CHANNEL_REQUEST (to_payload (MkChannelId (source_id (so_source e)))) to)
    as (m & Em & H1 & H2); [exact In'|unfold CHANNEL_REQUEST, in_u8; lia| |].
  { unfold to_payload. rewrite entry_encode_wire by exact Ii. rewrite app_nil_l, L. change (16 <= 1180); lia. }
  exists m. split; [|now split]. unfold channel_requests. apply in_flat_map. exists e. split; [exact He|]. cbv zeta.
  rewrite Et. unfold request_to_payload. cbn [requested_channel]. rewrite Em. now left.
Qed.

(** Subscribing, from source to sink: the request a peer sends for a source
    connects the sink of that channel at the peer that publishes it, and audio
    of that sink will be sent to where the request came from. *)
Theorem request_connects_sink r s e to x from shut_down now receive_time :
  id_ok (es_node_id r) -> id_ok (source_id (so_source e)) -> In e (es_sources r) ->
  channel_endpoint (source_id (so_source e)) (es_channels r) = Some to ->
  es_node_id r <> es_node_id s -> List.find (is_sink (source_id (so_source e))) (es_sinks s) = Some x ->
  exists m s' y, In (m, to) (channel_requests r) /\
    handle_message shut_down m from now receive_time s = Some (s', no_effects) /\
    List.find (is_sink (source_id (so_source e))) (es_sinks s') = Some y /\
    is_connected (se_sink y) = true /\ In from (endpoints (se_receivers y)) /\
    sink_queue (se_sink y) = sink_queue (se_sink x).
Proof.
  intros In' Ii He Et Hn Hx. destruct (channel_requests_in r e to In' Ii He Et) as (m & Hm & Hh & Hd).
  exists m. unfold handle_message. rewrite Hh, Hd. cbn [audio_ident audio_message_type audio_ttl].
  rewrite bool_decide_eq_false_2 by congruence.
  cbn [Z.eqb PEER_ANNOUNCEMENT CHANNEL_BYES AUDIO_PONG CHANNEL_REQUEST Pos.eqb].
  unfold engine_channel_request. rewrite request_decodes by exact Ii. cbn [requested_channel].
  eexists _, _. split; [exact Hm|]. split; [reflexivity|]. cbn [es_sinks with_sinks].
  split; [apply update_found_find; [|exact Hx]; now intros [[] ? ?]|].
  destruct (request_endpoint_in (MkRequest (es_node_id r) (source_id (so_source e))) AUDIO_TTL from now (se_receivers x)) as [E1 E2].
  cbn [se_sink se_receivers with_receivers is_connected sink_queue set_is_connected]. rewrite E2. now repeat split.
Qed.
End Requests.

(** ** Pings *)

Section Pings.
Context `{M : Mpsc} {Ch : Chrono} {Laws : ChronoLaws}.
Implicit Types (s r : EngineState).

Lemma ping_captured s ping_time a :
  announcing_ok s -> announcements s !! 0%nat = Some a ->
  captured ping_visit (announce_payload ping_time 0 a) None =
    Some (MkAudioHostTime (Duration_microseconds (host_micros (MkAudioHostTime ping_time)))).
Proof.
  intros H E. destruct (announce_payload_fits s ping_time 0 a H E) as ((O1 & O2 & O3 & _) & _). apply captures_payload.
  unfold announce_payload, announcement_to_payload. cbn [Nat.eqb].
  rewrite !entry_encode_wire by (assumption || apply host_time_ok). rewrite app_nil_l, <- !app_assoc.
  do 3 (eapply captures_entry; [apply reads_skipped; [assumption|reflexivity]|now apply entry_wire_length|]).
  rewrite <- (app_nil_r (entry_wire (MkAudioHostTime ping_time))).
  eapply captures_entry; [|now apply entry_wire_length, host_time_ok|apply captures_end; simpl; lia].
  exact (reads_entry ping_visit (MkAudioHostTime ping_time) None Some (host_time_ok _) eq_refl).
Qed.

(** The first announcement of a round carries a ping, and a peer answers it
    with a pong: the time [receive_pong] reads out of it, which the round trip
    is measured from, is the ping's own, in whole microseconds. *)
Theorem ping_answered s ping_time a r from :
  announcing_ok s -> announcements s !! 0%nat = Some a -> id_ok (es_node_id r) ->
  exists m, receive_ping (announce_payload ping_time 0 a) from r = [(m, from)] /\
    audio_parse_message_header m = Ok (MkAudioHeader AUDIO_PONG AUDIO_TTL 0 (es_node_id r), 20%nat) /\
    captured ping_visit (drop 20 m) None =
      Some (MkAudioHostTime (Duration_microseconds (host_micros (MkAudioHostTime ping_time)))).
Proof.
  intros H E I. unfold receive_ping. rewrite (ping_captured s) by assumption.
  set (h := MkAudioHostTime (Duration_microseconds _)). destruct (entry_wire_length h (host_time_ok h)) as [L B].
  assert (to_payload h = entry_wire h) as Ep by (unfold to_payload; now rewrite entry_encode_wire by apply host_time_ok).
  destruct (send_message_in (es_node_id r) AUDIO_PONG (to_payload h) from) as (m & Em & H1 & H2);
    [exact I|unfold AUDIO_PONG, in_u8; lia|rewrite Ep, L; change (16 <= 1180); lia|].
  exists m. split; [exact Em|]. split; [exact H1|]. rewrite H2, Ep. apply captures_payload.
  rewrite <- (app_nil_r (entry_wire h)).
  eapply captures_entry; [|exact B|apply captures_end; simpl; lia].
  assert (entry_norm h = h) as En; [|rewrite <- En at 2; exact (reads_entry ping_visit h None Some (host_time_ok _) eq_refl)].
  subst h. cbn [entry_norm AudioHostTime_laws]. do 2 f_equal. unfold host_micros at 1. cbn [audio_time].
  rewrite num_microseconds_spec, nanos_microseconds by apply host_micros_range.
  rewrite Z.quot_mul by lia. unfold checked_i64. pose proof (host_micros_range (MkAudioHostTime ping_time)) as R.
  destruct (fits_i64 _) eqn:F; [reflexivity|].
  exfalso. assert (checked_i64 (host_micros (MkAudioHostTime ping_time)) = Some (host_micros (MkAudioHostTime ping_time))) as C
    by now apply checked_i64_Some. unfold checked_i64 in C. rewrite F in C. discriminate.
Qed.
End Pings.

(** ** Audio *)

Section Audio.
Context `{ML : MpscLaws} {Ch : Chrono}.
Implicit Types (q : SlotQueue Buffer).

Definition queue_ok q : Prop := slots_ok (MkThreads q WReady RReady).

Lemma retain_loop_ok n q :
  slots_ok (MkThreads q WReady (RPolling n)) -> queue_ok (snd (Reader_retain_loop n q)).
Proof.
  revert q. induction n as [|n IH]; intros q H; cbn [Reader_retain_loop].
  - exact (slots_ok_step _ _ _ H (r_poll_end (MkThreads q WReady (RPolling 0)) eq_refl)).
  - pose proof (slots_ok_step _ _ _ H (r_poll (MkThreads q WReady (RPolling (S n))) n eq_refl)) as H1.
    unfold poll_result in H1. cbn [slots wpc] in H1. destruct (Reader_poll q) as [[v|v|] q1]; cbn [snd] in *; try exact H1.
    apply IH. exact (slots_ok_step _ _ _ H1 (r_return (MkThreads q1 WReady (RReturning v n)) v n eq_refl)).
Qed.

Lemma retain_loop_slots n q : num_slots (snd (Reader_retain_loop n q)) = num_slots q.
Proof.
  revert q. induction n as [|n IH]; intros q; cbn [Reader_retain_loop]; [reflexivity|].
  unfold Reader_poll. destruct (try_recv (filled q)) as [[[e v]|] c]; [|reflexivity].
  destruct (e =? epoch q); [reflexivity|]. cbv iota. now rewrite IH.
Qed.

Lemma Reader_retain_ok q : queue_ok q -> reader_current q = None ->
  queue_ok (snd (Reader_retain_slot q)) /\ num_slots (snd (Reader_retain_slot q)) = num_slots q.
Proof.
  intros H R. unfold Reader_retain_slot. rewrite R. split; [|apply retain_loop_slots]. apply retain_loop_ok.
  exact (slots_ok_step _ _ _ H (r_retain (MkThreads q WReady RReady) eq_refl R)).
Qed.

Lemma Reader_release_ok q : queue_ok q -> queue_ok (Reader_release_slot q).
Proof. intros H. exact (slots_ok_step _ _ _ H (r_release (MkThreads q WReady RReady) eq_refl)). Qed.

(** What the process task does to a queue: everything that waits is taken, and
    what has a tempo is encoded, in order. *)
Lemma process_slots_spec fuel n q enc :
  queue_ok q -> reader_current q = None -> (length (AudioQueue.fresh q) < fuel)%nat ->
  exists q', process_slots fuel n q enc =
      Some (q', fold_left Encoder_encode (List.filter has_audio (AudioQueue.fresh q)) enc) /\
    queue_ok q' /\ reader_current q' = None /\ AudioQueue.fresh q' = [].
Proof.
  revert q enc. induction fuel as [|fuel IH]; intros q enc Hq R L; [lia|]. cbn [process_slots].
  destruct (Reader_retain_ok q Hq R) as [Hq1 N1].
  assert (length (queued (filled q)) <= num_slots q)%nat as Lq.
  { destruct Hq as (N & _). unfold slot_count in N. cbn [slots] in N. lia. }
  pose proof (retain_loop_spec (num_slots q) q _ eq_refl Lq) as Sp. unfold Reader_retain_slot in *. rewrite R in *.
  destruct (Reader_retain_loop (num_slots q) q) as [ok q1]. cbn [snd] in *.
  destruct (AudioQueue.fresh q) as [|b l]; destruct Sp as (-> & R1 & F1); cbn [negb List.filter fold_left].
  - exists q1. split; [reflexivity|]. split; [exact Hq1|]. split; [exact R1|exact F1].
  - unfold Reader_slot_mut. rewrite R1. set (q2 := Reader_release_slot _).
    assert (queue_ok q2 /\ reader_current q2 = None /\ AudioQueue.fresh q2 = l) as (Hq2 & R2 & F2).
    { split; [|split; [reflexivity|exact F1]]. apply Reader_release_ok. destruct Hq1 as (N & H). split; [|exact H].
      unfold slot_count, Reader_num_retained_slots in *. cbn [slots with_reader] in *. rewrite R1 in N. exact N. }
    cbn [length] in L. rewrite <- F2 in *. destruct (has_audio b); [cbn [fold_left]|]; apply IH; (assumption || lia).
Qed.

Lemma process_entry_spec now node e :
  sink_ok (se_sink e) -> reader_current (sink_queue (se_sink e)) = None ->
  let enc := fold_left Encoder_encode (List.filter has_audio (AudioQueue.fresh (sink_queue (se_sink e)))) (se_encoder e) in
  let rs := receivers_prune_expired now (se_receivers e) in
  exists e', process_entry now node e =
      Some (negb (name_is_up_to_date (se_sink e)), e',
            flat_map (fun b => match audio_buffer_message node (encode_raw b) with
                               | Ok m => map (fun to => (m, to)) (endpoints rs) | Err _ => [] end) (sent (successor enc))) /\
    se_receivers e' = rs /\ is_connected (se_sink e') = negb (receivers_is_empty rs) /\
    AudioQueue.fresh (sink_queue (se_sink e')) = [] /\ sent (successor (se_encoder e')) = [] /\
    sink_ok (se_sink e') /\ reader_current (sink_queue (se_sink e')) = None /\
    sink_name (se_sink e') = sink_name (se_sink e) /\ sink_id (se_sink e') = sink_id (se_sink e).
Proof.
  intros Hok R enc rs. unfold process_entry, name_changed. cbv zeta.
  cbn [sink_queue set_is_connected sink_max_num_samples].
  destruct (process_slots_spec (S (num_slots (sink_queue (se_sink e)))) (sink_max_num_samples (se_sink e))
    (sink_queue (se_sink e)) (se_encoder e) Hok R) as (q' & -> & Hq & R' & F').
  { destruct Hok as (N & _). unfold slot_count, sink_threads in N. cbn [slots] in N. unfold AudioQueue.fresh.
    rewrite length_map. pose proof (List.filter_length_le (fun x => fst x =? epoch (sink_queue (se_sink e)))
      (queued (filled (sink_queue (se_sink e))))). lia. }
  fold enc. unfold drain_outbox. cbv beta iota. eexists. split; [reflexivity|].
  split; [reflexivity|]. split; [reflexivity|]. split; [exact F'|]. split; [reflexivity|]. split; [exact Hq|]. split; [exact R'|]. now split.
Qed.

(** One round of the process task empties the queue of a sink: the round
    ends, every buffer committed since the last one is encoded in order, except
    those that were dropped or refused, and each audio message that comes out
    goes to every receiver whose request has not expired and to nobody else.
    The sink is told whether anybody is left. *)
Theorem process_entry_sends now node e :
  sink_ok (se_sink e) -> reader_current (sink_queue (se_sink e)) = None ->
  let enc := fold_left Encoder_encode (List.filter has_audio (AudioQueue.fresh (sink_queue (se_sink e)))) (se_encoder e) in
  let rs := receivers_prune_expired now (se_receivers e) in
  exists e', process_entry now node e =
      Some (negb (name_is_up_to_date (se_sink e)), e',
            flat_map (fun b => match audio_buffer_message node (encode_raw b) with
                               | Ok m => map (fun to => (m, to)) (endpoints rs) | Err _ => [] end) (sent (successor enc))) /\
    se_receivers e' = rs /\ is_connected (se_sink e') = negb (receivers_is_empty rs) /\
    AudioQueue.fresh (sink_queue (se_sink e')) = [] /\ sent (successor (se_encoder e')) = [] /\
    sink_ok (se_sink e') /\ reader_current (sink_queue (se_sink e')) = None /\
    sink_name (se_sink e') = sink_name (se_sink e) /\ sink_id (se_sink e') = sink_id (se_sink e).
Proof. apply process_entry_spec. Qed.

(** A refused or dropped buffer carries no audio. *)
Lemma cleared_has_no_audio b : has_audio (clear_timing b) = false.
Proof. reflexivity. Qed.
End Audio.

Section Playing.
Context `{M : Mpsc} {Ch : Chrono} {Laws : ChronoLaws}.

Lemma decode_at_first sd b l x d hs :
  List.find (fun e => bool_decide (source_id (so_source e) = channel_id b)) l = Some x ->
  decode (so_decoder x) b = Some (d, hs) ->
  exists l', decode_at sd b l = Some (l', flat_map (invoke sd (so_source x)) hs).
Proof.
  intros F D. induction l as [|e l IH]; [discriminate|]. cbn [List.find decode_at] in *.
  destruct (bool_decide _).
  - injection F as ->. rewrite D. eauto.
  - destruct (IH F) as [l' ->]. eauto.
Qed.

Lemma block_message_small channel b :
  id_ok channel -> block_ok stream_format stream_tempo MAX_AUDIO_BYTES b ->
  Z.of_nat (length (encode_raw (block_message channel b))) <= 1180.
Proof.
  intros I Hb. pose proof (block_message_ok channel b I Hb) as Ho. destruct (decode_buffer_eq _ Ho) as [_ L].
  destruct Hb as (_ & _ & El & U & _). change MAX_AUDIO_BYTES with 502 in U.
  rewrite buffer_body_length in L by exact Ho. cbn [block_message audio_chunks audio_bytes] in L.
  rewrite sample_bytes_length in L. lia.
Qed.

(** An audio message is played: an engine that subscribes to the channel hands
    the samples of the message, all of them and in order, to the callback of
    its source, and changes nothing else an application sees. *)
Theorem audio_message_played node channel b r x from now receive_time :
  id_ok node -> id_ok channel -> node <> es_node_id r ->
  block_ok stream_format stream_tempo MAX_AUDIO_BYTES b -> Forall in_i16 (block_samples b) ->
  List.find (fun e => bool_decide (source_id (so_source e) = channel)) (es_sources r) = Some x ->
  exists m r' eff, audio_buffer_message node (encode_raw (block_message channel b)) = Ok m /\
    handle_message false m from now receive_time r = Some (r', eff) /\
    flat_map handle_samples (played eff) = block_samples b /\ channels_changed eff = false /\ answers eff = [] /\
    es_channels r' = es_channels r /\ es_sinks r' = es_sinks r /\ es_peers r' = es_peers r.
Proof.
  intros In' I Hn Hb Hs Hx.
  destruct (message_decodes node 0 AUDIO_BUFFER (encode_raw (block_message channel b)) In') as (m & Em & _ & Hh & Hd);
    [unfold in_u8; lia|unfold AUDIO_BUFFER, in_u8; lia|now apply block_message_small|].
  exists m. unfold handle_message. rewrite Hh, Hd. cbn [audio_ident audio_message_type audio_ttl].
  rewrite bool_decide_eq_false_2 by congruence.
  cbn [Z.eqb PEER_ANNOUNCEMENT CHANNEL_BYES AUDIO_PONG CHANNEL_REQUEST STOP_CHANNEL_REQUEST AUDIO_BUFFER Pos.eqb].
  unfold receive_audio_buffer. destruct (decode_buffer_eq _ (block_message_ok channel b I Hb)) as [-> _].
  destruct (decode_block_message channel b (so_decoder x) I Hb Hs) as (d & hs & Ed & Es).
  destruct (decode_at_first false (buffer_norm (block_message channel b)) (es_sources r) x d hs Hx Ed) as [l ->].
  eexists _, _. split; [exact Em|]. split; [reflexivity|].
  cbn [played channels_changed answers es_channels es_sinks es_peers with_sources]. repeat split; try assumption.
  rewrite <- Es. unfold invoke. rewrite andb_false_r. clear. induction hs as [|h hs IH]; [reflexivity|]. cbn [flat_map app]. now rewrite IH.
Qed.

(** *** Messages always have a result *)

Lemma decode_samples_total fuel rd n d :
  reader_ok rd -> (length (rest rd) < fuel)%nat -> exists res, decode_samples fuel rd n d = Some res.
Proof.
  revert rd n d. induction fuel as [|fuel IH]; intros rd n d Hok L; [lia|]. cbn [decode_samples].
  destruct (is_empty rd); [eauto|]. destruct (read_i16 rd) as [[x rd']|] eqn:E; [|eauto].
  unfold read_i16, read_u16 in E. unread E. unread E0.
  destruct (read_bytes_rest _ _ _ _ E Hok) as [Hok' L'].
  apply IH; [assumption|lia].
Qed.
Lemma decode_total d b : exists res, decode d b = Some res.
Proof.
  unfold decode. destruct (_ || _); [eauto|]. unfold read_samples.
  destruct (decode_samples_total (S (length (audio_bytes b))) (Reader_new (audio_bytes b)) 0 d) as [[d' n] ->];
    [unfold reader_ok; simpl; lia|change (rest (Reader_new (audio_bytes b))) with (audio_bytes b); lia|eauto].
Qed.

Lemma decode_at_total sd b l : exists res, decode_at sd b l = Some res.
Proof.
  induction l as [|e l [[l' hs] IH]]; cbn [decode_at]; [eauto|]. destruct (bool_decide _).
  - destruct (decode_total (so_decoder e) b) as [[d hs'] ->]. eauto.
  - rewrite IH. eauto.
Qed.

Lemma handle_message_ends sd data from now receive_time s :
  exists s' eff, handle_message sd data from now receive_time s = Some (s', eff).
Proof.
  unfold handle_message. destruct (audio_parse_message_header data) as [[h off]|]; [|eauto].
  destruct (bool_decide _); [eauto|].
  repeat match goal with |- context [if _ =? ?k then _ else _] => destruct (_ =? k) end; eauto.
  - destruct (receive_announcement _ _ _ _ _ _). eauto.
  - destruct (receive_channel_byes _ _). eauto.
  - unfold receive_audio_buffer. destruct (decode_raw _) as [b|]; [|eauto].
    destruct (decode_at_total sd b (es_sources s)) as [[l hs] ->]. eauto.
Qed.

(** Whatever datagram arrives, handling it ends with a result.  One that is
    malformed, of an unknown type or sent by the engine itself changes nothing,
    is not answered and reaches no callback. *)
Theorem handle_message_total sd data from now receive_time s :
  exists s' eff, handle_message sd data from now receive_time s = Some (s', eff) /\
    (match audio_parse_message_header data with
     | Err _ => True
     | Ok (h, _) => audio_ident h = es_node_id s \/ (audio_message_type h < 1 \/ 6 < audio_message_type h)
     end -> s' = s /\ eff = no_effects).
Proof.
  destruct (handle_message_ends sd data from now receive_time s) as (s' & eff & E). exists s', eff. split; [exact E|].
  unfold handle_message in E. destruct (audio_parse_message_header data) as [[h off]|]; [|now injection E as <- <-].
  destruct (bool_decide_reflect (audio_ident h = es_node_id s)); [now injection E as <- <-|].
  intros [?|R]; [easy|].
  unfold PEER_ANNOUNCEMENT, CHANNEL_BYES, AUDIO_PONG, CHANNEL_REQUEST, STOP_CHANNEL_REQUEST, AUDIO_BUFFER in E.
  repeat match type of E with context [if ?a =? ?k then _ else _] => destruct (Z.eqb_spec a k); [lia|] end.
  now injection E as <- <-.
Qed.
End Playing.
