(* ===== verification/AudioLifecycle.v ===== *)
(** The life of a Link Audio engine: [AudioEngine] of
    src/src/link_audio/engine.rs with its epochs, its switches and its tasks.

    [Engine] adds to the state behind the mutex what is shared without it: the
    peer-sync epoch, the two switches and the epoch the socket admits.  Tasks
    and callers quote an epoch they read earlier; what they put on the wire is
    pending until the socket admits or refuses it.

    In [engine_step] a section under the mutex is one step.  The switches and
    the epochs can change while it runs, but only be closed: such a change is
    the same as one just after the section.  The exception is the start of a
    peer synchronisation, which opens them again, so it takes a step for each
    access.  The closing stores of [shutdown] and [end_peer_sync] are steps
    that can happen at any time, and the gate that tasks pass is left out ([SendGate] has it):
    both give more interleavings than the program has. *)

From stdpp Require Import base list numbers strings relations.
From Stdlib Require Import ZArith Lia ZifyBool SpecFloat.
From S2P Require Import Prelude Chrono F64 Encoding Beats Tempo Timeline Phase Entries AudioQueue AudioStream AudioPayload AudioResizer AudioCodec AudioRegistry AudioSink AudioEngine AudioHandshake.

Section Lifecycle.
Context `{M : Mpsc} {Ch : Chrono}.

Record Engine := MkEngine {
  en_state : EngineState;
  api_channels : list Channel;
  sync_epoch : Z;
  sharing_active : bool;
  en_shutdown : bool;
  send_epoch : option Z
}.

Definition AudioEngine_new (addr : Ipv4Addr) (node : Id) (session : SessionId) (name : bytes) : Engine :=
  MkEngine (EngineState_new node session name addr) [] 1 true false (Some 1).

Definition with_state (s : EngineState) (en : Engine) : Engine :=
  MkEngine s (api_channels en) (sync_epoch en) (sharing_active en) (en_shutdown en) (send_epoch en).
Definition with_api (cs : list Channel) (en : Engine) : Engine :=
  MkEngine (en_state en) cs (sync_epoch en) (sharing_active en) (en_shutdown en) (send_epoch en).
Definition bump_epoch (en : Engine) : Engine :=
  MkEngine (en_state en) (api_channels en) (wrap_u64 (sync_epoch en + 1)) (sharing_active en) (en_shutdown en) (send_epoch en).
Definition set_sharing (b : bool) (en : Engine) : Engine :=
  MkEngine (en_state en) (api_channels en) (sync_epoch en) b (en_shutdown en) (send_epoch en).
Definition set_shutdown (en : Engine) : Engine :=
  MkEngine (en_state en) (api_channels en) (sync_epoch en) (sharing_active en) true (send_epoch en).
Definition set_send_epoch (e : option Z) (en : Engine) : Engine :=
  MkEngine (en_state en) (api_channels en) (sync_epoch en) (sharing_active en) (en_shutdown en) e.

Definition epoch_is_current (e : Z) (en : Engine) : bool :=
  sharing_active en && negb (en_shutdown en) && (sync_epoch en =? e).

Definition live_epoch (en : Engine) : Z := if en_shutdown en || negb (sharing_active en) then 0 else sync_epoch en.

(** [publish_channels] when something changed. *)
Definition publish_if (changed : bool) (en : Engine) : Engine :=
  if changed then with_api (snd (publish (en_state en) (api_channels en))) en else en.

(** ** Writes at an epoch *)

Definition set_identity_at (e : Z) (node : Id) (session : SessionId) (en : Engine) : Engine :=
  if epoch_is_current e en then with_state (set_identity node session (en_state en)) en else en.

Definition saw_link_audio_endpoint_at (e : Z) (peer : Id) (endpoint : option SocketAddrV4) (en : Engine) : Engine :=
  if epoch_is_current e en then with_state (saw_link_audio_endpoint peer endpoint (en_state en)) en else en.

Definition update_session_peers_at (e : Z) (peers : list Id) (en : Engine) : Engine :=
  if epoch_is_current e en then
    let '(changed, s) := prune_peers peers (en_state en) in publish_if changed (with_state s en)
  else en.

(** [EngineSocket::send_to_at]: what reaches the wire. *)
Definition send_to_at (e : Z) (p : Packet) (en : Engine) : list Packet :=
  if bool_decide (send_epoch en = Some e) then [p] else [].

(** ** Tasks at an epoch

    A round that finds the epoch of the socket changed does nothing. *)

Definition receive_at (e : Z) (data : bytes) (from : SocketAddrV4) (now : Z) (receive_time : Duration) (en : Engine)
  : option (Engine * list Packet) :=
  if bool_decide (send_epoch en = Some e) then
    let! (s, eff) := handle_message (en_shutdown en) data from now receive_time (en_state en) in
    Some (publish_if (channels_changed eff) (with_state s en), answers eff)
  else Some (en, []).

Definition announce_at (e : Z) (ping_time : Duration) (en : Engine) : Engine * list Packet :=
  if bool_decide (send_epoch en = Some e) then
    let '(s, ps) := announce_pass ping_time (en_state en) in (with_state s en, ps)
  else (en, []).

Definition process_at (e : Z) (now : Z) (en : Engine) : option (Engine * list Packet) :=
  if bool_decide (send_epoch en = Some e) then
    let! (changed, s, ps) := process_pass now (en_state en) in
    Some (publish_if changed (with_state s en), ps)
  else Some (en, []).

Definition request_at (e : Z) (en : Engine) : list Packet :=
  if bool_decide (send_epoch en = Some e) then channel_requests (en_state en) else [].

(** ** Starting and stopping *)

(** [begin_peer_sync], one access after the other. *)
Definition begin_number (en : Engine) : Engine * Z :=
  let e := wrap_u64 (sync_epoch en + 1) in
  let en := bump_epoch en in
  (with_state (discard_sink_buffers (en_state en)) en, e).

Definition begin_peer_sync (en : Engine) : Engine * Z :=
  if en_shutdown en then (en, 0)
  else
    let '(en, e) := begin_number en in
    (set_sharing true (set_send_epoch (Some e) en), e).

(** The section of [end_peer_sync] under the mutex, and the whole. *)
Definition end_locked (en : Engine) : bool * Engine :=
  let en := bump_epoch (set_send_epoch None (set_sharing false en)) in
  let '(changed, s) := prune_peers [] (discard_sink_buffers (en_state en)) in
  (changed, with_state s en).

Definition end_peer_sync (en : Engine) : Engine :=
  let en := set_send_epoch None (set_sharing false en) in
  let '(changed, en) := end_locked en in
  publish_if changed en.

(** [shutdown]; the two flags say that the mutex could not be taken in time for
    the ids of the sinks and for the peers. *)
Definition shutdown (no_ids no_peers : bool) (en : Engine) : Engine * list Packet :=
  if en_shutdown en then (en, [])
  else
    let en := bump_epoch (set_send_epoch None (set_sharing false (set_shutdown en))) in
    let ids := if no_ids then [] else map (fun e => sink_id (se_sink e)) (es_sinks (en_state en)) in
    let byes := match ids with [] => [] | _ => send_channel_byes ids (en_state en) end in
    let en := bump_epoch en in
    (if no_peers then en
     else let '(changed, s) := prune_peers [] (en_state en) in publish_if changed (with_state s en), byes).

(** ** Interleavings *)

(** Who holds the mutex between two steps: nobody, or a caller of
    [begin_peer_sync]. *)
Inductive LockPc := Unlocked | Begin_checked | Begin_numbered (e : Z) | Begin_opened (e : Z).

Record Machine := MkMachine { engine : Engine; lock : LockPc; pending : list (Z * Packet) }.

Inductive Label := LTau | LBump | LBegin | LSent (p : Packet).

(** What an application does with a sink it holds. *)
Inductive sink_op : Sink -> Sink -> Prop :=
| op_name s name : utf8_ok name = true -> sink_op s (Sink_set_name name s)
| op_max s n : sink_op s (request_max_num_samples n s)
| op_retain s : sink_op s (snd (retain_buffer s))
| op_write s l : sink_op s (write_samples_mut l s)
| op_commit s tl session b q nf nc rate : sink_op s (snd (commit tl session b q nf nc rate s))
| op_drop s : sink_op s (drop_handle s).

Definition at_epoch (e : Z) (ps : list Packet) : list (Z * Packet) := map (pair e) ps.

Inductive engine_step : Machine -> Label -> Machine -> Prop :=
(* callers of the engine *)
| st_name en ps name : utf8_ok name = true ->
    engine_step (MkMachine en Unlocked ps) LTau (MkMachine (with_state (set_peer_name name (en_state en)) en) Unlocked ps)
| st_identity en ps e node session : id_ok node -> id_ok (session_node session) ->
    engine_step (MkMachine en Unlocked ps) LTau (MkMachine (set_identity_at e node session en) Unlocked ps)
| st_endpoint en ps e peer endpoint :
    engine_step (MkMachine en Unlocked ps) LTau (MkMachine (saw_link_audio_endpoint_at e peer endpoint en) Unlocked ps)
| st_peers en ps e peers :
    engine_step (MkMachine en Unlocked ps) LTau (MkMachine (update_session_peers_at e peers en) Unlocked ps)
| st_add_sink en ps id name n : id_ok id -> utf8_ok name = true ->
    engine_step (MkMachine en Unlocked ps) LTau (MkMachine (with_state (add_sink id name n (en_state en)) en) Unlocked ps)
| st_remove_sink en ps id :
    engine_step (MkMachine en Unlocked ps) LTau (MkMachine (with_state (fst (remove_sink id (en_state en))) en) Unlocked ps)
| st_add_source en ps id :
    engine_step (MkMachine en Unlocked ps) LTau (MkMachine (with_state (add_source id (en_state en)) en) Unlocked ps)
| st_remove_source en ps id :
    engine_step (MkMachine en Unlocked ps) LTau (MkMachine (with_state (fst (remove_source id (en_state en))) en) Unlocked ps)
| st_sink en lk ps l1 x l2 sink' : es_sinks (en_state en) = l1 ++ x :: l2 -> sink_op (se_sink x) sink' ->
    engine_step (MkMachine en lk ps) LTau
      (MkMachine (with_state (with_sinks (l1 ++ MkSinkEntry sink' (se_receivers x) (se_encoder x) :: l2) (en_state en)) en) lk ps)
(* tasks *)
| st_receive en ps e data from now t en' qs : receive_at e data from now t en = Some (en', qs) ->
    engine_step (MkMachine en Unlocked ps) LTau (MkMachine en' Unlocked (ps ++ at_epoch e qs))
| st_announce en ps e t :
    engine_step (MkMachine en Unlocked ps) LTau
      (MkMachine (fst (announce_at e t en)) Unlocked (ps ++ at_epoch e (snd (announce_at e t en))))
| st_process en ps e now en' qs : process_at e now en = Some (en', qs) ->
    engine_step (MkMachine en Unlocked ps) LTau (MkMachine en' Unlocked (ps ++ at_epoch e qs))
| st_request en ps e :
    engine_step (MkMachine en Unlocked ps) LTau (MkMachine en Unlocked (ps ++ at_epoch e (request_at e en)))
| st_send en lk ps1 e p ps2 : send_epoch en = Some e ->
    engine_step (MkMachine en lk (ps1 ++ (e, p) :: ps2)) (LSent p) (MkMachine en lk (ps1 ++ ps2))
| st_refuse en lk ps1 e p ps2 : send_epoch en <> Some e ->
    engine_step (MkMachine en lk (ps1 ++ (e, p) :: ps2)) LTau (MkMachine en lk (ps1 ++ ps2))
(* begin_peer_sync *)
| st_begin en ps : en_shutdown en = false ->
    engine_step (MkMachine en Unlocked ps) LBegin (MkMachine en Begin_checked ps)
| st_number en ps :
    engine_step (MkMachine en Begin_checked ps) LBump
      (MkMachine (fst (begin_number en)) (Begin_numbered (snd (begin_number en))) ps)
| st_open en ps e :
    engine_step (MkMachine en (Begin_numbered e) ps) LTau (MkMachine (set_send_epoch (Some e) en) (Begin_opened e) ps)
| st_resume en ps e :
    engine_step (MkMachine en (Begin_opened e) ps) LTau (MkMachine (set_sharing true en) Unlocked ps)
(* end_peer_sync and shutdown *)
| st_end en ps :
    engine_step (MkMachine en Unlocked ps) LBump (MkMachine (snd (end_locked en)) Unlocked ps)
| st_prune en ps :
    engine_step (MkMachine en Unlocked ps) LTau
      (MkMachine (with_state (snd (prune_peers [] (en_state en))) en) Unlocked ps)
| st_publish en lk ps :
    engine_step (MkMachine en lk ps) LTau (MkMachine (publish_if true en) lk ps)
| st_pause en lk ps : engine_step (MkMachine en lk ps) LTau (MkMachine (set_sharing false en) lk ps)
| st_close en lk ps : engine_step (MkMachine en lk ps) LTau (MkMachine (set_send_epoch None en) lk ps)
| st_bump en lk ps : engine_step (MkMachine en lk ps) LBump (MkMachine (bump_epoch en) lk ps)
| st_flag en lk ps : engine_step (MkMachine en lk ps) LTau (MkMachine (set_shutdown en) lk ps).

(** The labels of a run, the first one first. *)
Inductive engine_run : Machine -> list Label -> Machine -> Prop :=
| erun_refl m : engine_run m [] m
| erun_step m tr m' l m'' : engine_run m tr m' -> engine_step m' l m'' -> engine_run m (tr ++ [l]) m''.

Definition bumps (tr : list Label) : Z :=
  Z.of_nat (length (List.filter (fun l => match l with LBump => true | _ => false end) tr)).

Definition begins (l : Label) : bool := match l with LBegin => true | _ => false end.
Definition sends (l : Label) : bool := match l with LSent _ => true | _ => false end.
End Lifecycle.

(** ** Epochs *)

Section Epochs.
Context `{M : Mpsc} {Ch : Chrono}.

(** The switches and epochs of two engines agree. *)
Definition same_switches (en en' : Engine) : Prop :=
  sync_epoch en' = sync_epoch en /\ sharing_active en' = sharing_active en /\ en_shutdown en' = en_shutdown en /\
  send_epoch en' = send_epoch en.

Lemma same_switches_refl en : same_switches en en.
Proof. now repeat split. Qed.

Lemma publish_if_switches b en : same_switches en (publish_if b en).
Proof. destruct b; now repeat split. Qed.

Lemma publish_if_state b en : en_state (publish_if b en) = en_state en.
Proof. now destruct b. Qed.

Lemma set_identity_at_switches e node session en : same_switches en (set_identity_at e node session en).
Proof. unfold set_identity_at. destruct (epoch_is_current e en); now repeat split. Qed.

Lemma saw_endpoint_at_switches e peer endpoint en : same_switches en (saw_link_audio_endpoint_at e peer endpoint en).
Proof. unfold saw_link_audio_endpoint_at. destruct (epoch_is_current e en); now repeat split. Qed.

Lemma update_peers_at_switches e peers en : same_switches en (update_session_peers_at e peers en).
Proof.
  unfold update_session_peers_at. destruct (epoch_is_current e en); [|now repeat split].
  destruct (prune_peers _ _) as [b s]. apply (publish_if_switches b (with_state s en)).
Qed.

Lemma receive_at_switches e data from now t en en' qs :
  receive_at e data from now t en = Some (en', qs) -> same_switches en en'.
Proof.
  unfold receive_at. destruct (bool_decide _); [|now injection 1 as <- <-].
  destruct (handle_message _ _ _ _ _ _) as [[s eff]|]; [|discriminate]. injection 1 as <- <-.
  apply (publish_if_switches _ (with_state s en)).
Qed.

Lemma process_at_switches e now en en' qs : process_at e now en = Some (en', qs) -> same_switches en en'.
Proof.
  unfold process_at. destruct (bool_decide _); [|now injection 1 as <- <-].
  destruct (process_pass _ _) as [[[b s] ps]|]; [|discriminate]. injection 1 as <- <-.
  apply (publish_if_switches _ (with_state s en)).
Qed.

Lemma announce_at_switches e t en : same_switches en (fst (announce_at e t en)).
Proof. unfold announce_at. destruct (bool_decide _); now repeat split. Qed.

Lemma end_locked_switches en :
  sync_epoch (snd (end_locked en)) = wrap_u64 (sync_epoch en + 1) /\ sharing_active (snd (end_locked en)) = false /\
  send_epoch (snd (end_locked en)) = None.
Proof. unfold end_locked. destruct (prune_peers _ _). now repeat split. Qed.

(** Everything that is open was opened after epoch [E]. *)
Definition after_epoch (E : Z) (m : Machine) : Prop :=
  E < sync_epoch (engine m) /\ (forall e, send_epoch (engine m) = Some e -> E < e) /\
  match lock m with Begin_numbered e | Begin_opened e => E < e | _ => True end.

Lemma same_switches_after E en en' lk ps ps' :
  same_switches en en' -> after_epoch E (MkMachine en lk ps) ->
  after_epoch E (MkMachine en' lk ps') /\ sync_epoch en' = sync_epoch en.
Proof. intros (A & B & C & D). unfold after_epoch. simpl. now rewrite A, D. Qed.

Lemma with_state_switches s en : same_switches en (with_state s en).
Proof. now repeat split. Qed.

#[local] Hint Resolve publish_if_switches set_identity_at_switches saw_endpoint_at_switches update_peers_at_switches
  receive_at_switches process_at_switches announce_at_switches same_switches_refl with_state_switches : switches.

Lemma bump_exact z : 0 <= z -> z + 1 < 2 ^ 64 -> wrap_u64 (z + 1) = z + 1.
Proof. intros. apply Z.mod_small. lia. Qed.

(** A step that is not labelled [LBump] and not part of [begin_peer_sync]
    leaves the switches alone or closes them. *)
Lemma after_epoch_step E m l m' :
  0 <= E -> after_epoch E m -> engine_step m l m' -> sync_epoch (engine m) + bumps [l] < 2 ^ 64 ->
  after_epoch E m' /\ sync_epoch (engine m') = sync_epoch (engine m) + bumps [l].
Proof.
  intros HE HA Hs B. assert (0 <= sync_epoch (engine m)) as P by (destruct HA; lia).
  destruct Hs; unfold bumps in *; cbn [List.filter length] in *; cbn [engine] in *; rewrite ?Z.add_0_r in *.
  all: try (match goal with |- after_epoch _ (MkMachine _ ?lk _) /\ _ =>
              match type of HA with after_epoch _ (MkMachine _ lk _) =>
                eapply same_switches_after; [|exact HA]; eauto with switches; fail end end).
  all: destruct HA as (A1 & A2 & A3); cbn [engine lock] in *.
  all: unfold after_epoch, begin_number, bump_epoch, set_send_epoch, set_sharing, set_shutdown; cbn [engine lock].
  all: try (destruct (end_locked_switches en) as (-> & _ & ->)).
  all: cbn; rewrite ?bump_exact by lia; repeat split; try lia; try assumption; try discriminate; try (intros ? [= <-]; lia); auto.
Qed.

Lemma bumps_app tr tr' : bumps (tr ++ tr') = bumps tr + bumps tr'.
Proof. unfold bumps. rewrite List.filter_app, length_app. lia. Qed.

Lemma bumps_nonneg tr : 0 <= bumps tr.
Proof. unfold bumps. lia. Qed.

Lemma after_epoch_run E m tr m' :
  engine_run m tr m' -> 0 <= E -> after_epoch E m -> sync_epoch (engine m) + bumps tr < 2 ^ 64 ->
  after_epoch E m' /\ sync_epoch (engine m') = sync_epoch (engine m) + bumps tr.
Proof.
  induction 1 as [m|m tr m' l m'' R IH S]; intros HE HA B; [unfold bumps; simpl; split; [exact HA|lia]|].
  rewrite bumps_app in *. pose proof (bumps_nonneg [l]). destruct (IH HE HA ltac:(lia)) as [HA' Es].
  destruct (after_epoch_step E m' l m'' HE HA' S ltac:(lia)) as [HA'' Es']. split; [exact HA''|lia].
Qed.

Lemma end_locked_after en ps :
  0 <= sync_epoch en -> sync_epoch en + 1 < 2 ^ 64 ->
  after_epoch (sync_epoch en) (MkMachine (snd (end_locked en)) Unlocked ps).
Proof.
  intros P B. destruct (end_locked_switches en) as (E1 & _ & E3). unfold after_epoch. cbn [engine lock].
  rewrite E1, E3, bump_exact by lia. repeat split; [lia|discriminate].
Qed.

(** C13 Nothing of a peer synchronisation outlives its end.  Once
    [end_peer_sync] has run its section, whatever happens then, new
    synchronisations included, a task or a caller that still quotes an epoch of
    an earlier one changes nothing: its writes are ignored, so they cannot
    bring a peer back; a round of any of the four tasks neither changes the
    state nor sends; and a message kept from before is not sent.  The 64-bit
    epoch is assumed not to come round. *)
Theorem stale_epoch_dead en ps tr m e :
  engine_run (MkMachine (snd (end_locked en)) Unlocked ps) tr m ->
  0 <= e <= sync_epoch en -> sync_epoch en + 1 + bumps tr < 2 ^ 64 ->
  (forall node session, set_identity_at e node session (engine m) = engine m) /\
  (forall peer endpoint, saw_link_audio_endpoint_at e peer endpoint (engine m) = engine m) /\
  (forall peers, update_session_peers_at e peers (engine m) = engine m) /\
  (forall data from now t, receive_at e data from now t (engine m) = Some (engine m, [])) /\
  (forall ping_time, announce_at e ping_time (engine m) = (engine m, [])) /\
  (forall now, process_at e now (engine m) = Some (engine m, [])) /\
  request_at e (engine m) = [] /\
  (forall p, send_to_at e p (engine m) = []).
Proof.
  intros R He B. pose proof (bumps_nonneg tr).
  assert (sync_epoch (snd (end_locked en)) = sync_epoch en + 1) as E1.
  { destruct (end_locked_switches en) as (-> & _). apply bump_exact; lia. }
  destruct (after_epoch_run (sync_epoch en) _ _ _ R) as [(A1 & A2 & _) _];
    [lia|apply end_locked_after; lia|cbn [engine]; lia|].
  assert (epoch_is_current e (engine m) = false) as Ec.
  { unfold epoch_is_current. destruct (Z.eqb_spec (sync_epoch (engine m)) e); [lia|]. now rewrite andb_false_r. }
  assert (send_epoch (engine m) <> Some e) as Es by (intros Es; apply A2 in Es; lia).
  unfold set_identity_at, saw_link_audio_endpoint_at, update_session_peers_at, receive_at, announce_at, process_at, request_at, send_to_at.
  rewrite Ec, bool_decide_eq_false_2 by exact Es. now repeat split.
Qed.
End Epochs.

(** ** Quiet after the end *)

Section Quiet.
Context `{M : Mpsc} {Ch : Chrono}.

(** Nobody is known, nobody listens, no channel is listed. *)
Definition quiet_entry (e : SinkEntry) : Prop := se_receivers e = [] /\ is_connected (se_sink e) = false.

Definition quiet_state (s : EngineState) : Prop :=
  es_peers s = [] /\ Forall quiet_entry (es_sinks s) /\ known_channels (es_channels s) = [].

Definition quiet (m : Machine) : Prop :=
  lock m = Unlocked /\ sharing_active (engine m) = false /\ send_epoch (engine m) = None /\
  quiet_state (en_state (engine m)).

Lemma filter_false {A} (p : A -> bool) l : (forall x, p x = false) -> List.filter p l = [].
Proof. intros H. induction l as [|x l IH]; simpl; [reflexivity|]. now rewrite H. Qed.

Lemma prune_all_quiet s : quiet_state (snd (prune_peers [] s)).
Proof.
  unfold prune_peers, prune_peer_channels. cbn. repeat split.
  - now apply filter_false.
  - apply List.Forall_map, List.Forall_forall. intros e _. unfold quiet_entry, with_receivers, retain_peers.
    rewrite (filter_false _ (se_receivers e)) by reflexivity. now split.
  - now apply filter_false.
Qed.

Lemma sink_op_connected s s' : sink_op s s' -> is_connected s' = is_connected s /\ sink_id s' = sink_id s.
Proof.
  destruct 1; try (now split).
  - unfold retain_buffer. destruct (negb (is_connected s)); [now split|]. destruct (0 <? _)%nat; [now split|].
    destruct (Writer_retain_slot _) as [[] ?]; now split.
  - unfold write_samples_mut. destruct (Writer_slot_mut _); now split.
  - unfold commit. destruct (_ || _ || _); [now split|]. destruct (Writer_slot_mut _); now split.
Qed.

Lemma end_locked_quiet en ps : quiet (MkMachine (snd (end_locked en)) Unlocked ps).
Proof.
  unfold end_locked. set (s := discard_sink_buffers _). pose proof (prune_all_quiet s) as Q.
  destruct (prune_peers [] s). do 3 (split; [reflexivity|]). exact Q.
Qed.

Lemma quiet_state_step m l m' :
  quiet m -> engine_step m l m' -> begins l = false -> quiet m' /\ sends l = false.
Proof.
  intros (L & Sh & Se & Q) Hs Hb. destruct Hs; cbn [lock engine] in *; try discriminate; subst; split; try reflexivity.
  all: unfold quiet, set_identity_at, saw_link_audio_endpoint_at, update_session_peers_at, epoch_is_current, receive_at,
    announce_at, process_at in *; rewrite ?Sh, ?Se in *; cbn [andb engine lock] in *.
  all: try discriminate; try (repeat split; try apply Q; assumption).
  - (* a new sink has no receivers *)
    destruct Q as (Q1 & Q2 & Q3). repeat split; try assumption. cbn. apply Forall_app. split; [exact Q2|].
    apply Forall_singleton. now split.
  - destruct Q as (Q1 & Q2 & Q3). repeat split; try assumption. cbn. rewrite List.Forall_forall in *.
    intros x [Hx _]%filter_In. now apply Q2.
  - destruct Q as (Q1 & Q2 & Q3). repeat split; try assumption. cbn. rewrite H in Q2.
    apply Forall_app in Q2 as [F1 F2]. apply Forall_cons in F2 as [[Fx Fy] F2]. apply Forall_app. split; [exact F1|].
    constructor; [|exact F2]. destruct (sink_op_connected _ _ H0) as [E _]. split; [exact Fx|cbn; congruence].
  - rewrite bool_decide_eq_false_2 in H by discriminate. injection H as <- <-. repeat split; try apply Q; assumption.
  - rewrite bool_decide_eq_false_2 in H by discriminate. injection H as <- <-. repeat split; try apply Q; assumption.
  - exact (end_locked_quiet en ps).
  - repeat split; try assumption; apply prune_all_quiet.
Qed.

(** After [end_peer_sync] the engine stays quiet until a new peer
    synchronisation is begun: no peer, no receiver and no channel comes back,
    no sink hands out a buffer, and no message that was still pending reaches
    the wire, whatever tasks, callers and a shutdown do meanwhile. *)
Theorem end_peer_sync_quiet en ps tr m :
  engine_run (MkMachine (snd (end_locked en)) Unlocked ps) tr m -> Forall (fun l => begins l = false) tr ->
  quiet m /\ Forall (fun l => sends l = false) tr.
Proof.
  intros R. remember (MkMachine (snd (end_locked en)) Unlocked ps) as m0 eqn:E0.
  induction R as [m|m tr m' l m'' R IH S]; intros F; subst; [split; [apply end_locked_quiet|constructor]|].
  apply Forall_app in F as [F1 F2]. apply Forall_cons in F2 as [F2 _]. destruct (IH eq_refl F1) as [Q Fs].
  destruct (quiet_state_step _ _ _ Q S F2) as [Q' Hl]. split; [exact Q'|]. apply Forall_app. split; [exact Fs|].
  now apply Forall_singleton.
Qed.
End Quiet.

(** ** The invariant of an engine *)

Section Invariant.
Context `{ML : MpscLaws} {Ch : Chrono}.

(** A sink's flag says whether somebody listens; its receivers are sorted and
    unique, its slots accounted for, and its name fits. *)
Definition entry_wf (e : SinkEntry) : Prop :=
  is_connected (se_sink e) = negb (receivers_is_empty (se_receivers e)) /\ receivers_ok (se_receivers e) /\
  sink_ok (se_sink e) /\ reader_current (sink_queue (se_sink e)) = None /\
  name_ok (sink_name (se_sink e)) /\ id_ok (sink_id (se_sink e)).

Definition state_wf (s : EngineState) : Prop :=
  id_ok (es_node_id s) /\ id_ok (session_node (es_session_id s)) /\ name_ok (es_peer_name s) /\
  Forall entry_wf (es_sinks s).

Lemma state_wf_announcing s : state_wf s -> announcing_ok s.
Proof.
  intros (H1 & H2 & H3 & H4). repeat split; try apply H3; try assumption. unfold channel_announcements.
  apply List.Forall_map. eapply Forall_impl; [exact H4|]. intros e (_ & _ & _ & _ & N & I). now split.
Qed.

Lemma with_receivers_wf rs e : entry_wf e -> receivers_ok rs -> entry_wf (with_receivers rs e).
Proof.
  intros (_ & _ & H3 & H4 & H5 & H6) R. split; [reflexivity|]. split; [exact R|]. split; [exact H3|].
  split; [exact H4|]. now split.
Qed.

Lemma discard_loop_ok n (q : SlotQueue Buffer) : slots_ok (MkThreads q WReady (RDraining n)) -> queue_ok (discard_loop n q).
Proof.
  revert q. induction n as [|n IH]; intros q H; cbn [discard_loop].
  - exact (slots_ok_step _ _ _ H (r_drain_end (MkThreads q WReady (RDraining 0)) eq_refl)).
  - pose proof (slots_ok_step _ _ _ H (r_drain (MkThreads q WReady (RDraining (S n))) n eq_refl)) as H1.
    unfold drain_result in H1. cbn [slots wpc] in H1. destruct (try_recv (filled q)) as [[[e v]|] c]; cbn [snd] in *; [|exact H1].
    apply IH. exact (slots_ok_step _ _ _ H1 (r_recycle (MkThreads (with_filled c q) WReady (RRecycling v n)) v n eq_refl)).
Qed.

Lemma discard_loop_reader n (q : SlotQueue Buffer) : reader_current (discard_loop n q) = reader_current q.
Proof.
  revert q. induction n as [|n IH]; intros q; cbn [discard_loop]; [reflexivity|].
  destruct (try_recv (filled q)) as [[[e v]|] c]; [now rewrite IH|reflexivity].
Qed.

Lemma discard_pending_ok q : queue_ok q -> queue_ok (discard_pending q) /\ reader_current (discard_pending q) = None.
Proof.
  intros H. unfold discard_pending. cbv zeta. set (q1 := with_epoch _ q).
  pose proof (slots_ok_step _ _ _ H (r_discard (MkThreads q WReady RReady) eq_refl)) as H1. fold q1 in H1.
  pose proof (slots_ok_step _ _ _ H1 (r_discard_release (MkThreads q1 WReady RDiscarding) eq_refl)) as H2.
  cbn [slots wpc] in H2. assert (num_slots (Reader_release_slot q1) = num_slots q1) as En.
  { unfold Reader_release_slot. now destruct (reader_current q1). }
  split; [apply discard_loop_ok; now rewrite En|]. rewrite discard_loop_reader. unfold Reader_release_slot.
  destruct (reader_current q1) eqn:E; [reflexivity|exact E].
Qed.

Lemma discard_entry_wf e : entry_wf e -> entry_wf (discard_entry e).
Proof.
  intros (H1 & H2 & H3 & H4 & H5 & H6). destruct (discard_pending_ok _ H3) as [Q R].
  split; [exact H1|]. split; [exact H2|]. split; [exact Q|]. split; [exact R|]. now split.
Qed.

Lemma sink_op_wf e sink' : entry_wf e -> sink_op (se_sink e) sink' -> entry_wf (MkSinkEntry sink' (se_receivers e) (se_encoder e)).
Proof.
  intros (H1 & H2 & H3 & H4 & H5 & H6) Hop. destruct (sink_op_connected _ _ Hop) as [Ec Ei].
  unfold entry_wf. cbn [se_sink se_receivers]. rewrite Ec, Ei. split; [exact H1|]. split; [exact H2|].
  assert (sink_ok sink' /\ reader_current (sink_queue sink') = None /\ name_ok (sink_name sink')) as (A & B & C);
    [|now split; [|split; [|split]]].
  destruct Hop as [s name V|s n|s|s l|s tl session b q nf nc rate|s].
  - split; [exact H3|]. split; [exact H4|]. now apply truncate_name_ok.
  - now split; [|split].
  - split; [now apply retain_buffer_ok|]. unfold retain_buffer, Writer_retain_slot, Writer_take.
    destruct (is_connected s); [|now split]. simpl. destruct (0 <? _)%nat; [now split|].
    destruct (writer_current (sink_queue s)); [now split|]. destruct (try_recv _) as [[x|] c]; now split.
  - split; [now apply write_samples_mut_ok|]. unfold write_samples_mut, Writer_slot_mut, Writer_write.
    destruct (writer_current (sink_queue s)) eqn:W; cbn; rewrite ?W; now split.
  - split; [now apply commit_ok|]. unfold commit, drop_handle, Writer_slot_mut, Writer_write, Writer_release_slot.
    destruct (_ || _ || _), (writer_current (sink_queue s)) eqn:W; cbn; rewrite ?W; now split.
  - split; [now apply drop_handle_ok|]. unfold drop_handle, Writer_slot_mut, Writer_write, Writer_release_slot.
    destruct (writer_current (sink_queue s)) eqn:W; cbn; rewrite ?W; now split.
Qed.

Lemma update_found_Forall {A} (P : A -> Prop) p f (l : list A) :
  (forall x, P x -> P (f x)) -> Forall P l -> Forall P (update_found p f l).
Proof.
  intros Hf. induction 1 as [|x l Hx F IH]; simpl; [constructor|]. destruct (p x); constructor; auto.
Qed.

Lemma prune_peers_wf peers s : state_wf s -> state_wf (snd (prune_peers peers s)).
Proof.
  intros (H1 & H2 & H3 & H4). unfold prune_peers. cbn. split; [exact H1|]. split; [exact H2|]. split; [exact H3|].
  apply List.Forall_map. eapply Forall_impl; [exact H4|]. intros e He. apply with_receivers_wf; [exact He|].
  apply receivers_ok_filter, He.
Qed.

Lemma discard_wf s : state_wf s -> state_wf (discard_sink_buffers s).
Proof.
  intros (H1 & H2 & H3 & H4). split; [exact H1|]. split; [exact H2|]. split; [exact H3|]. cbn.
  apply List.Forall_map. eapply Forall_impl; [exact H4|]. exact discard_entry_wf.
Qed.

Lemma with_sinks_wf l s : state_wf s -> Forall entry_wf l -> state_wf (with_sinks l s).
Proof. intros (H1 & H2 & H3 & _) F. split; [exact H1|]. split; [exact H2|]. now split. Qed.

Lemma handle_message_wf sd data from now t s s' eff :
  state_wf s -> handle_message sd data from now t s = Some (s', eff) -> state_wf s'.
Proof.
  intros H. unfold handle_message. destruct (audio_parse_message_header data) as [[h off]|]; [|now injection 1 as <- <-].
  destruct (bool_decide _); [now injection 1 as <- <-|].
  destruct (_ =? PEER_ANNOUNCEMENT).
  { unfold receive_announcement. destruct (List.find _ _); [|now injection 1 as <- <-].
    destruct (announcement_from_payload _ _) as [[a|]|]; try (now injection 1 as <- <-).
    destruct (saw_announcement _ _ _ _ _ _ _ _ _ _). now injection 1 as <- <-. }
  destruct (_ =? CHANNEL_BYES).
  { unfold receive_channel_byes. destruct (length _ =? 0)%nat; [now injection 1 as <- <-|].
    destruct (channels_left _ _ _). now injection 1 as <- <-. }
  destruct (_ =? AUDIO_PONG).
  { injection 1 as <- <-. unfold receive_pong. now destruct (captured _ _ _). }
  destruct (_ =? CHANNEL_REQUEST).
  { injection 1 as <- <-. unfold engine_channel_request. destruct (request_from_payload _ _) as [[r|]|]; try exact H.
    apply with_sinks_wf; [exact H|]. apply update_found_Forall; [|apply H]. intros e He. apply with_receivers_wf; [exact He|].
    eapply receivers_step_ok; [apply He|apply rs_request]. }
  destruct (_ =? STOP_CHANNEL_REQUEST).
  { injection 1 as <- <-. unfold engine_channel_stop_request. destruct (stop_from_payload _ _) as [[r|]|]; try exact H.
    apply with_sinks_wf; [exact H|]. apply update_found_Forall; [|apply H]. intros e He. apply with_receivers_wf; [exact He|].
    eapply receivers_step_ok; [apply He|apply rs_stop]. }
  destruct (_ =? AUDIO_BUFFER); [|now injection 1 as <- <-].
  unfold receive_audio_buffer. destruct (decode_raw _); [|now injection 1 as <- <-].
  destruct (decode_at _ _ _) as [[l hs]|]; [|discriminate]. now injection 1 as <- <-.
Qed.

Lemma process_entry_wf now node e : entry_wf e ->
  exists c e' ps, process_entry now node e = Some (c, e', ps) /\ entry_wf e'.
Proof.
  intros (H1 & H2 & H3 & H4 & H5 & H6).
  destruct (process_entry_spec now node e H3 H4) as (e' & E & Er & Ec & _ & _ & Ho & Hr & En & Ei).
  eexists _, e', _. split; [exact E|]. split; [now rewrite Er|]. rewrite Er, En, Ei. split; [now apply receivers_ok_filter|].
  split; [exact Ho|]. split; [exact Hr|]. split; [exact H5|exact H6].
Qed.

Lemma process_entries_wf now node l : Forall entry_wf l ->
  exists c l' ps, process_entries now node l = Some (c, l', ps) /\ Forall entry_wf l'.
Proof.
  induction 1 as [|e l He F IH]; cbn [process_entries]; [eexists _, _, _; split; [reflexivity|constructor]|].
  destruct (process_entry_wf now node e He) as (c & e' & ps & -> & He').
  destruct IH as (c' & l' & ps' & -> & Hl'). eexists _, _, _. split; [reflexivity|]. now constructor.
Qed.

(** The process task always gets to the end of its round. *)
Lemma process_pass_wf now s : state_wf s ->
  exists c s' ps, process_pass now s = Some (c, s', ps) /\ state_wf s'.
Proof.
  intros H. unfold process_pass. destruct (process_entries_wf now (es_node_id s) (es_sinks s)) as (c & l & ps & -> & F);
    [apply H|]. destruct (channels_prune_expired now (es_channels s)) as [ex cs]. eexists _, _, _.
  split; [reflexivity|]. exact (with_sinks_wf l s H F).
Qed.

Lemma Sink_new_wf id name n : id_ok id -> utf8_ok name = true ->
  entry_wf (MkSinkEntry (Sink_new name n id) Receivers_new (Encoder_new id)).
Proof.
  intros I V. split; [reflexivity|]. split; [split; constructor|]. split; [|split; [reflexivity|]].
  - exact (proj1 (queue_init_ok SINK_QUEUE_SIZE (Buffer_new n))).
  - split; [now apply truncate_name_ok|exact I].
Qed.

Lemma engine_step_wf m l m' : state_wf (en_state (engine m)) -> engine_step m l m' -> state_wf (en_state (engine m')).
Proof.
  intros H Hs. destruct Hs; cbn [engine en_state with_state] in *; try exact H.
  - destruct H as (H1 & H2 & H3 & H4). split; [exact H1|]. split; [exact H2|]. split; [|exact H4]. now apply truncate_name_ok.
  - unfold set_identity_at. destruct (epoch_is_current e en); [|exact H]. destruct H as (H1' & H2 & H3 & H4). now split; [|split; [|split]].
  - unfold saw_link_audio_endpoint_at, saw_link_audio_endpoint. destruct (epoch_is_current e en); [|exact H].
    destruct endpoint; [destruct (existsb _ _)|]; exact H.
  - unfold update_session_peers_at. destruct (epoch_is_current e en); [|exact H].
    pose proof (prune_peers_wf peers _ H) as W. destruct (prune_peers _ _). now rewrite publish_if_state.
  - apply with_sinks_wf; [exact H|]. apply Forall_app. split; [apply H|]. apply Forall_cons. split; [now apply Sink_new_wf|constructor].
  - apply with_sinks_wf; [exact H|]. destruct H as (_ & _ & _ & F). rewrite List.Forall_forall in *. intros x [Hx _]%filter_In. now apply F.
  - apply with_sinks_wf; [exact H|]. destruct H as (_ & _ & _ & F). rewrite H0 in F.
    apply Forall_app in F as [F1 F2]. apply Forall_cons in F2 as [Fx F2]. apply Forall_app. split; [exact F1|].
    apply Forall_cons. split; [now apply sink_op_wf|exact F2].
  - unfold receive_at in H0. destruct (bool_decide _); [|now injection H0 as <- <-].
    destruct (handle_message _ _ _ _ _ _) as [[s eff]|] eqn:E; [|discriminate]. injection H0 as <- <-.
    rewrite publish_if_state. eapply handle_message_wf; eassumption.
  - unfold announce_at. destruct (bool_decide _); exact H.
  - unfold process_at in H0. destruct (bool_decide _); [|now injection H0 as <- <-].
    destruct (process_pass_wf now _ H) as (c & s' & ps' & E & W). rewrite E in H0. injection H0 as <- <-.
    now rewrite publish_if_state.
  - unfold begin_number. cbn. now apply discard_wf.
  - unfold end_locked. pose proof (prune_peers_wf [] _ (discard_wf _ H)) as W.
    destruct (prune_peers [] _). exact W.
  - now apply prune_peers_wf.
Qed.

(** The engine as it is created. *)
Definition machine_new (addr : Ipv4Addr) (node : Id) (session : SessionId) (name : bytes) : Machine :=
  MkMachine (AudioEngine_new addr node session name) Unlocked [].

Lemma reachable_wf addr node session name tr m :
  id_ok node -> id_ok (session_node session) -> utf8_ok name = true ->
  engine_run (machine_new addr node session name) tr m -> state_wf (en_state (engine m)).
Proof.
  intros I1 I2 V R. remember (machine_new addr node session name) as m0 eqn:E0.
  induction R as [m|m tr m' l m'' R IH S]; subst; [|eapply engine_step_wf; [now apply IH|exact S]].
  split; [exact I1|]. split; [exact I2|]. split; [now apply truncate_name_ok|constructor].
Qed.

(** A buffer is handed out exactly when somebody listens, none is out and the
    pool has one left; it is as long as the sink asks, and otherwise nothing
    changes hands. *)
Definition hands_out (e : SinkEntry) : Prop :=
  let '(ok, s') := retain_buffer (se_sink e) in
  let q := sink_queue (se_sink e) in
  (ok = true <-> se_receivers e <> [] /\ writer_current q = None /\ queued (free q) <> []) /\
  (ok = true -> exists b, writer_current (sink_queue s') = Some b /\ (sink_max_num_samples (se_sink e) <= length (buf_samples b))%nat) /\
  (ok = false -> writer_current (sink_queue s') = writer_current q).

Lemma entry_hands_out e : entry_wf e -> hands_out e.
Proof.
  intros (C & _). unfold hands_out.
  pose proof (retain_buffer_cases (se_sink e)) as Cs. destruct (retain_buffer (se_sink e)) as [ok s'] eqn:E.
  assert (se_receivers e <> [] <-> is_connected (se_sink e) = true) as L.
  { rewrite C. unfold receivers_is_empty. destruct (se_receivers e); split; try discriminate; now intros. }
  rewrite L. split; [|split].
  - unfold retain_buffer, Writer_num_retained_slots, Writer_retain_slot, Writer_take in E.
    destruct (is_connected (se_sink e)); cbn in E; [|injection E as <- _; split; [discriminate|now intros [? _]]].
    destruct (writer_current (sink_queue (se_sink e))); cbn in E; [injection E as <- _; split; [discriminate|now intros (_ & ? & _)]|].
    destruct (try_recv_cases (free (sink_queue (se_sink e)))) as (c & _ & [(Q & _ & T)|(a & l & Q & _ & T)]);
      rewrite T in E; cbn in E; injection E as <- _; rewrite Q; split; try discriminate; [now intros (_ & _ & ?)|now intros _|].
    reflexivity.
  - intros ->. destruct (Cs true s' eq_refl) as [[? _]|(b & _ & _ & W & _ & _ & _ & _ & Lb)]; [discriminate|eauto].
  - intros ->. unfold retain_buffer, Writer_num_retained_slots, Writer_retain_slot, Writer_take in E.
    destruct (is_connected (se_sink e)); cbn in E; [|now injection E as <-].
    destruct (writer_current (sink_queue (se_sink e))) eqn:W; cbn in E; [injection E as <-; exact W|].
    destruct (try_recv _) as [[a|] c]; cbn in E; [discriminate|]. injection E as <-. exact W.
Qed.

(** C23 In every state an engine can reach, whatever its callers, its tasks,
    other peers and the applications that hold its sinks do: asked for a buffer, a
    sink hands one out exactly when somebody listens to it, none is out and its
    pool has one left, and the buffer has the length asked for; its receivers are
    sorted and unique, no slot of its pool is lost, and the names and ids it
    announces fit the wire. *)
Theorem engine_invariant addr node session name tr m :
  id_ok node -> id_ok (session_node session) -> utf8_ok name = true ->
  engine_run (machine_new addr node session name) tr m ->
  Forall hands_out (es_sinks (en_state (engine m))) /\
  Forall entry_wf (es_sinks (en_state (engine m))) /\ announcing_ok (en_state (engine m)).
Proof.
  intros I1 I2 V R. pose proof (reachable_wf _ _ _ _ _ _ I1 I2 V R) as W.
  split; [|split; [apply W|now apply state_wf_announcing]].
  eapply Forall_impl; [apply W|]. exact entry_hands_out.
Qed.

(** No round of the engine's tasks gets stuck: in every reachable state the
    process task drains the queues of all sinks and any datagram is handled. *)
Theorem tasks_terminate addr node session name tr m e now data from t :
  id_ok node -> id_ok (session_node session) -> utf8_ok name = true ->
  engine_run (machine_new addr node session name) tr m ->
  (exists en ps, process_at e now (engine m) = Some (en, ps)) /\
  (exists en ps, receive_at e data from now t (engine m) = Some (en, ps)).
Proof.
  intros I1 I2 V R. pose proof (reachable_wf _ _ _ _ _ _ I1 I2 V R) as W. split.
  - unfold process_at. destruct (bool_decide _); [|eauto].
    destruct (process_pass_wf now _ W) as (c & s' & ps & -> & _). eauto.
  - unfold receive_at. destruct (bool_decide _); [|eauto].
    destruct (handle_message_ends (en_shutdown (engine m)) data from now t (en_state (engine m))) as (s' & eff & ->). eauto.
Qed.
End Invariant.

(** ** A shutdown that meets the start of a synchronisation *)

(** [begin_peer_sync] finds the engine running; [shutdown] sets its flag,
    closes the switches and the socket; then the stores of [begin_peer_sync]
    follow. *)
Definition shutdown_race `{M : Mpsc} {Ch : Chrono} (en : Engine) : Engine :=
  let en := bump_epoch (set_send_epoch None (set_sharing false (set_shutdown en))) in
  let '(en, e) := begin_number en in
  set_sharing true (set_send_epoch (Some e) en).

(** The mutex does not order the two: the switches are open after the shutdown,
    and only the flag keeps the engine from going on. *)
Theorem shutdown_race_reopens `{M : Mpsc} {Ch : Chrono} en ps :
  en_shutdown en = false ->
  (exists tr, engine_run (MkMachine en Unlocked ps) tr (MkMachine (shutdown_race en) Unlocked ps)) /\
  sharing_active (shutdown_race en) = true /\ is_Some (send_epoch (shutdown_race en)) /\
  en_shutdown (shutdown_race en) = true /\ live_epoch (shutdown_race en) = 0 /\
  forall e, epoch_is_current e (shutdown_race en) = false.
Proof.
  intros H. split; [|repeat split; eauto; unfold epoch_is_current; intros e; cbn; reflexivity].
  eexists. eapply erun_step; [eapply erun_step; [eapply erun_step; [eapply erun_step; [eapply erun_step; [eapply erun_step;
    [eapply erun_step; [eapply erun_step; [apply erun_refl|]|]|]|]|]|]|]|].
  - apply st_begin, H.
  - apply st_flag.
  - apply st_pause.
  - apply st_close.
  - apply st_bump.
  - apply st_number.
  - apply st_open.
  - apply st_resume.
Qed.


(** ** Goodbyes *)

Section Goodbye.
Context `{M : Mpsc} {Ch : Chrono}.

(** Every id is in a message to every peer. *)
Lemma send_channel_byes_in s ids id p :
  id_ok (es_node_id s) -> (forall i, In i ids -> id_ok i) -> In id ids -> In p (es_peers s) ->
  exists m, In (m, pr_endpoint p) (send_channel_byes ids s) /\
    audio_parse_message_header m = Ok (MkAudioHeader CHANNEL_BYES AUDIO_TTL 0 (es_node_id s), 20%nat) /\
    In id (captured byes_visit (drop 20 m) []).
Proof.
  intros In' Hi Hid Hp. destruct (split_byes_conserves ids) as [C F]. rewrite <- C in Hid.
  apply in_flat_map in Hid as (g & Hg & Hid). rewrite List.Forall_forall in F. destruct (F g Hg) as [_ L].
  pose proof (split_byes_fits ids g Hg) as Lg.
  assert (entry_ok g) as O.
  { split; [|unfold group_fits in Lg; change MAX_PAYLOAD_SIZE with 1176 in Lg; zlia].
    intros i Hi'. apply Hi. rewrite <- C. apply in_flat_map. eauto. }
  destruct (entry_wire_length g O) as [Lw B].
  assert (to_payload g = entry_wire g) as Ep by (unfold to_payload; now rewrite entry_encode_wire).
  destruct (send_message_in (es_node_id s) CHANNEL_BYES (to_payload g) (pr_endpoint p)) as (m & Em & H1 & H2);
    [exact In'|unfold CHANNEL_BYES, in_u8; lia|rewrite Ep, Lw; change MAX_PAYLOAD_SIZE with 1176 in L; lia|].
  exists m. split; [|split; [exact H1|]].
  - unfold send_channel_byes. apply in_flat_map. exists g. split; [exact Hg|]. apply in_flat_map. exists p.
    split; [exact Hp|]. rewrite Em. now left.
  - rewrite H2, Ep. rewrite (captures_payload byes_visit [] (entry_wire g) (byes g)); [exact Hid|].
    rewrite <- (app_nil_r (entry_wire g)). eapply captures_entry; [|exact B|apply captures_end; simpl; lia].
    exact (reads_entry byes_visit g [] byes O eq_refl).
Qed.

(** C40 A shutdown takes its leave: unless the mutex could not be had in time,
    every peer is sent a goodbye for every channel, addressed before the peers
    are forgotten; afterwards nobody is known and nobody listens, and calling it
    again does nothing. *)
Theorem shutdown_says_goodbye en p id :
  en_shutdown en = false -> id_ok (es_node_id (en_state en)) ->
  Forall (fun e => id_ok (sink_id (se_sink e))) (es_sinks (en_state en)) ->
  In p (es_peers (en_state en)) -> In id (map (fun e => sink_id (se_sink e)) (es_sinks (en_state en))) ->
  let '(en', byes) := shutdown false false en in
  (exists m, In (m, pr_endpoint p) byes /\
     audio_parse_message_header m = Ok (MkAudioHeader CHANNEL_BYES AUDIO_TTL 0 (es_node_id (en_state en)), 20%nat) /\
     In id (captured byes_visit (drop 20 m) [])) /\
  quiet_state (en_state en') /\ shutdown false false en' = (en', []).
Proof.
  intros Hs In' F Hp Hid. unfold shutdown at 1. rewrite Hs. cbv zeta.
  cbn [en_state bump_epoch set_send_epoch set_sharing set_shutdown].
  set (ids := map _ _) in *.
  assert (forall i, In i ids -> id_ok i) as Hi.
  { intros i (e & <- & He)%in_map_iff. rewrite List.Forall_forall in F. now apply F. }
  destruct (send_channel_byes_in (en_state en) ids id p In' Hi Hid Hp) as (m & Hm & H1 & H2).
  pose proof (prune_all_quiet (en_state en)) as Q. destruct (prune_peers [] (en_state en)) as [ch s]. split; [|split].
  - exists m. split; [|now split]. destruct ids; [destruct Hid|exact Hm].
  - rewrite publish_if_state. exact Q.
  - unfold shutdown. destruct ch; reflexivity.
Qed.
End Goodbye.
