(* ===== verification/SendGate.v ===== *)
(** The gate that orders the tasks of a Link Audio engine against its teardown:
    [SendGate], [enter_active_gate], [close_send_gate], [shutdown] and
    [end_peer_sync] of src/src/link_audio/engine.rs, access by access.

    A round of a task holds the read side of the gate, and may run a callback of
    the application: that of a source with the mutex of the state held, that of
    the channel list without.  [shutdown] and [end_peer_sync] may be called by
    anybody, such a callback included, and try for the write side at most
    [ATTEMPTS] times.  The sections under the mutex are those of
    AudioLifecycle.v. *)

From stdpp Require Import base list numbers gmap relations.
From Stdlib Require Import ZArith Lia Relation_Operators Lexicographic_Product Inverse_Image.
From S2P Require Import Prelude Chrono F64 Encoding Entries AudioQueue AudioStream AudioPayload AudioResizer AudioCodec AudioRegistry AudioSink AudioEngine AudioLifecycle.

Section SendGate.
Context `{M : Mpsc} {Ch : Chrono}.

Definition ATTEMPTS : nat := 50.

(** ** Tasks *)

(** A round of one of the four tasks, or of [send_channel_requests], which
    passes the same gate. *)
Inductive Round :=
| ReceiveRound (data : bytes) (from : SocketAddrV4) (now : Z) (receive_time : Duration)
| AnnounceRound (ping_time : Duration)
| ProcessRound (now : Z)
| RequestRound
| CallerRequests.

Definition run_round (r : Round) (e : Z) (en : Engine) : option (Engine * list Packet) :=
  match r with
  | ReceiveRound data from now t => receive_at e data from now t en
  | AnnounceRound t => Some (announce_at e t en)
  | ProcessRound now => process_at e now en
  | RequestRound => Some (en, request_at e en)
  | CallerRequests => Some (en, channel_requests (en_state en))
  end.

(** Where a task is: waiting; in the gate, before it looks at the flag, at the
    switch, at the epoch; before its section; in the callback of a source; with
    messages to send; in the callback of the channel list; turned away; ended. *)
Inductive TaskAt :=
| Asleep
| InGate
| SawRunning
| SawSharing
| Admitted_at (e : Z)
| Calling (e : Z)
| Sending (e : Z) (ps : list Packet)
| Notifying
| TurnedAway
| Over.

Definition holds_gate (p : TaskAt) : bool :=
  match p with Asleep | TurnedAway | Over => false | _ => true end.
Definition holds_mutex (p : TaskAt) : bool := match p with Calling _ => true | _ => false end.

(** ** Callers *)

(** Where [shutdown] is; [held] says that it has the write side. *)
Inductive ShutdownAt :=
| SPause | SClose | SBump | SAbort
| SGate (attempts : nat)
| SIds (held : bool) (attempts : nat)
| SByes (held : bool) (ids : list Id)
| SSend (held : bool) (ps : list Packet)
| SEndBump (held : bool)
| SPrune (held : bool) (attempts : nat)
| SPublish (held : bool)
| SRelease (held : bool)
| SReturned.

Definition held (a : ShutdownAt) : bool :=
  match a with
  | SIds h _ | SByes h _ | SSend h _ | SEndBump h | SPrune h _ | SPublish h | SRelease h => h
  | _ => false
  end.

(** Where a call of [end_peer_sync] is. *)
Inductive PauseAt := PClose | PGate (attempts : nat) | PSection (held : bool) | PPublish.

Inductive Writer := ByShutdown | ByPause (k : nat).
Inductive Sender := FromTask (t : nat) | FromShutdown | FromCaller.

(** [shutting] and [pausers] say on which task a call runs, if on one. *)
Record Teardown := MkTeardown {
  eng : Engine;
  begin_at : LockPc;
  tasks : gmap nat TaskAt;
  shutting : option (option nat * ShutdownAt);
  pausers : gmap nat (option nat * PauseAt);
  writer : option Writer;
  wire : list (Sender * Packet)
}.

Definition with_eng (en : Engine) (s : Teardown) : Teardown :=
  MkTeardown en (begin_at s) (tasks s) (shutting s) (pausers s) (writer s) (wire s).
Definition with_begin (b : LockPc) (s : Teardown) : Teardown :=
  MkTeardown (eng s) b (tasks s) (shutting s) (pausers s) (writer s) (wire s).
Definition set_task (t : nat) (p : TaskAt) (s : Teardown) : Teardown :=
  MkTeardown (eng s) (begin_at s) (<[t := p]> (tasks s)) (shutting s) (pausers s) (writer s) (wire s).
Definition with_shutting (w : option nat) (a : ShutdownAt) (s : Teardown) : Teardown :=
  MkTeardown (eng s) (begin_at s) (tasks s) (Some (w, a)) (pausers s) (writer s) (wire s).
Definition with_pausers (p : gmap nat (option nat * PauseAt)) (s : Teardown) : Teardown :=
  MkTeardown (eng s) (begin_at s) (tasks s) (shutting s) p (writer s) (wire s).
Definition with_writer (w : option Writer) (s : Teardown) : Teardown :=
  MkTeardown (eng s) (begin_at s) (tasks s) (shutting s) (pausers s) w (wire s).
Definition puts (who : Sender) (ps : list Packet) (s : Teardown) : Teardown :=
  MkTeardown (eng s) (begin_at s) (tasks s) (shutting s) (pausers s) (writer s) (wire s ++ map (pair who) ps).

(** The mutex of the state, and the write side of the gate, can be had. *)
Definition mutex_free (s : Teardown) : bool :=
  match begin_at s with Unlocked => true | _ => false end && bool_decide (map_Forall (fun _ p => holds_mutex p = false) (tasks s)).
Definition can_write (s : Teardown) : bool :=
  match writer s with None => true | Some _ => false end && bool_decide (map_Forall (fun _ p => holds_gate p = false) (tasks s)).

(** A call runs on the task. *)
Definition busy (t : nat) (s : Teardown) : bool :=
  match shutting s with
  | Some (Some t', a) => bool_decide (t' = t) && match a with SReturned => false | _ => true end
  | _ => false
  end || negb (bool_decide (map_Forall (fun _ p => fst p <> Some t) (pausers s))).

(** ** A round *)

Definition task_wakes (t : nat) (s : Teardown) : Teardown :=
  match tasks s !! t, writer s with Some Asleep, None => set_task t InGate s | _, _ => s end.

(** [enter_gate] looks at the flag, [enter_active_gate] at the switch. *)
Definition enter_gate (t : nat) (s : Teardown) : Teardown :=
  match tasks s !! t with
  | Some InGate => set_task t (if en_shutdown (eng s) then TurnedAway else SawRunning) s
  | _ => s
  end.
Definition enter_active_gate (t : nat) (s : Teardown) : Teardown :=
  match tasks s !! t with
  | Some SawRunning => set_task t (if sharing_active (eng s) then SawSharing else TurnedAway) s
  | _ => s
  end.
Definition turned_away (t : nat) (s : Teardown) : Teardown :=
  match tasks s !! t with
  | Some TurnedAway => set_task t (if en_shutdown (eng s) then Over else Asleep) s
  | _ => s
  end.
Definition reads_epoch (t : nat) (s : Teardown) : Teardown :=
  match tasks s !! t with
  | Some SawSharing => set_task t (match send_epoch (eng s) with Some e => Admitted_at e | None => Asleep end) s
  | _ => s
  end.

(** A section with or without a callback in it. *)
Definition callback_starts (t : nat) (s : Teardown) : Teardown :=
  match tasks s !! t with
  | Some (Admitted_at e) => if mutex_free s then set_task t (Calling e) s else s
  | _ => s
  end.
Definition section_ends (r : Round) (t : nat) (e : Z) (s : Teardown) : Teardown :=
  match run_round r e (eng s) with
  | Some (en, ps) => set_task t (Sending e ps) (with_eng en s)
  | None => s
  end.
Definition runs_round (r : Round) (t : nat) (s : Teardown) : Teardown :=
  match tasks s !! t with
  | Some (Admitted_at e) => if mutex_free s then section_ends r t e s else s
  | Some (Calling e) => if busy t s then s else section_ends r t e s
  | _ => s
  end.

Definition sends_one (t : nat) (s : Teardown) : Teardown :=
  match tasks s !! t with
  | Some (Sending e (p :: ps)) => puts (FromTask t) (send_to_at e p (eng s)) (set_task t (Sending e ps) s)
  | Some (Sending e []) => set_task t Notifying s
  | _ => s
  end.
Definition leaves_gate (t : nat) (s : Teardown) : Teardown :=
  match tasks s !! t with
  | Some Notifying => if busy t s then s else set_task t Asleep s
  | _ => s
  end.

(** ** Teardown *)

(** Anybody calls, or a callback that has no call running. *)
Definition may_call (who : option nat) (s : Teardown) : bool :=
  match who with
  | None => true
  | Some t => match tasks s !! t with Some (Calling _) | Some Notifying => negb (busy t s) | _ => false end
  end.

Definition shutdown_called (who : option nat) (s : Teardown) : Teardown :=
  if may_call who s && negb (en_shutdown (eng s)) then with_shutting who SPause (with_eng (set_shutdown (eng s)) s) else s.

(** [abort_tasks]: a task that waits ends; one in the gate goes on until it
    waits again. *)
Definition abort_task (p : TaskAt) : TaskAt := match p with Asleep => Over | _ => p end.
Definition abort_tasks (s : Teardown) : Teardown :=
  MkTeardown (eng s) (begin_at s) (abort_task <$> tasks s) (shutting s) (pausers s) (writer s) (wire s).

(** The next step of [shutdown]; [ok] says that a lock is free as far as
    sections that are steps here are concerned. *)
Definition shutdown_next (ok : bool) (s : Teardown) : Teardown :=
  match shutting s with
  | None => s
  | Some (w, a) =>
    match a with
    | SPause => with_shutting w SClose (with_eng (set_sharing false (eng s)) s)
    | SClose => with_shutting w SBump (with_eng (set_send_epoch None (eng s)) s)
    | SBump => with_shutting w SAbort (with_eng (bump_epoch (eng s)) s)
    | SAbort => with_shutting w (SGate ATTEMPTS) (abort_tasks s)
    | SGate 0 => with_shutting w (SIds false ATTEMPTS) s
    | SGate (S n) =>
        if ok && can_write s then with_shutting w (SIds true ATTEMPTS) (with_writer (Some ByShutdown) s)
        else with_shutting w (SGate n) s
    | SIds h 0 => with_shutting w (SEndBump h) s
    | SIds h (S n) =>
        if ok && mutex_free s then
          match map (fun e => sink_id (se_sink e)) (es_sinks (en_state (eng s))) with
          | [] => with_shutting w (SEndBump h) s
          | ids => with_shutting w (SByes h ids) s
          end
        else with_shutting w (SIds h n) s
    | SByes h ids => if mutex_free s then with_shutting w (SSend h (send_channel_byes ids (en_state (eng s)))) s else s
    | SSend h (p :: ps) => with_shutting w (SSend h ps) (puts FromShutdown (if ok then [p] else []) s)
    | SSend h [] => with_shutting w (SEndBump h) s
    | SEndBump h => with_shutting w (SPrune h ATTEMPTS) (with_eng (bump_epoch (eng s)) s)
    | SPrune h 0 => with_shutting w (SRelease h) s
    | SPrune h (S n) =>
        if ok && mutex_free s then
          let r := prune_peers [] (en_state (eng s)) in
          with_shutting w (if fst r then SPublish h else SRelease h) (with_eng (with_state (snd r) (eng s)) s)
        else with_shutting w (SPrune h n) s
    | SPublish h => if mutex_free s then with_shutting w (SRelease h) (with_eng (publish_if true (eng s)) s) else s
    | SRelease h => with_shutting w SReturned (if h then with_writer None s else s)
    | SReturned => s
    end
  end.

Definition pause_called (k : nat) (who : option nat) (s : Teardown) : Teardown :=
  match pausers s !! k with
  | None => if may_call who s then with_pausers (<[k := (who, PClose)]> (pausers s)) (with_eng (set_sharing false (eng s)) s) else s
  | Some _ => s
  end.

Definition pause_next (k : nat) (ok : bool) (s : Teardown) : Teardown :=
  match pausers s !! k with
  | None => s
  | Some (w, a) =>
    let goto a := with_pausers (<[k := (w, a)]> (pausers s)) in
    match a with
    | PClose => goto (PGate ATTEMPTS) (with_eng (set_send_epoch None (eng s)) s)
    | PGate 0 => goto (PSection false) s
    | PGate (S n) => if ok && can_write s then goto (PSection true) (with_writer (Some (ByPause k)) s) else goto (PGate n) s
    | PSection h =>
        if mutex_free s then
          let r := end_locked (eng s) in
          let s' := with_eng (snd r) (if h : bool then with_writer None s else s) in
          if fst r then goto PPublish s' else with_pausers (delete k (pausers s)) s'
        else s
    | PPublish => if mutex_free s then with_pausers (delete k (pausers s)) (with_eng (publish_if true (eng s)) s) else s
    end
  end.

(** [begin_peer_sync] under the mutex, a step for each access. *)
Definition begin_next (s : Teardown) : Teardown :=
  match begin_at s with
  | Unlocked => if mutex_free s && negb (en_shutdown (eng s)) then with_begin Begin_checked s else s
  | Begin_checked => let r := begin_number (eng s) in with_begin (Begin_numbered (snd r)) (with_eng (fst r) s)
  | Begin_numbered e => with_begin (Begin_opened e) (with_eng (set_send_epoch (Some e) (eng s)) s)
  | Begin_opened _ => with_begin Unlocked (with_eng (set_sharing true (eng s)) s)
  end.

(** ** Steps *)

Inductive td_step : Teardown -> Teardown -> Prop :=
| TdWakes s t : td_step s (task_wakes t s)
| TdEnters s t : td_step s (enter_gate t s)
| TdActive s t : td_step s (enter_active_gate t s)
| TdTurned s t : td_step s (turned_away t s)
| TdEpoch s t : td_step s (reads_epoch t s)
| TdCallback s t : td_step s (callback_starts t s)
| TdRound s r t : td_step s (runs_round r t s)
| TdSends s t : td_step s (sends_one t s)
| TdLeaves s t : td_step s (leaves_gate t s)
| TdShutdown s who : td_step s (shutdown_called who s)
| TdShutdownNext s ok : td_step s (shutdown_next ok s)
| TdPause s k who : td_step s (pause_called k who s)
| TdPauseNext s k ok : td_step s (pause_next k ok s)
| TdBegin s : td_step s (begin_next s)
| TdCaller s en : mutex_free s = true -> engine_step (MkMachine (eng s) Unlocked []) LTau (MkMachine en Unlocked []) ->
    same_switches (eng s) en -> td_step s (with_eng en s)
| TdCallerSends s p : td_step s (puts FromCaller [p] s).

(** The engine as it is created, with its tasks and other threads. *)
Definition Teardown_new (en : Engine) (ts : gset nat) : Teardown :=
  MkTeardown en Unlocked (gset_to_gmap Asleep ts) None ∅ None [].

Definition from_tasks (l : list (Sender * Packet)) : list (Sender * Packet) :=
  List.filter (fun p => match p.1 with FromTask _ => true | _ => false end) l.

End SendGate.

(** ** What is on the wire last *)

Section Last.
Context `{M : Mpsc} {Ch : Chrono}.
Implicit Types s : Teardown.

(** Opens every function a step may be. *)
Ltac td_open :=
  unfold task_wakes, enter_gate, enter_active_gate, turned_away, reads_epoch, callback_starts, runs_round, section_ends, sends_one,
    leaves_gate, shutdown_called, shutdown_next, pause_called, pause_next, begin_next in *;
  repeat case_match; simplify_eq.
Ltac td_step_cases St :=
  destruct St as [s t|s t|s t|s t|s t|s t|s r t|s t|s t|s who|s ok|s k who|s k ok|s|s en Mf En Sw|s p]; td_open.

Lemma end_locked_shutdown en : en_shutdown (snd (end_locked en)) = en_shutdown en.
Proof. unfold end_locked. now destruct (prune_peers _ _). Qed.

Lemma run_round_switches r e en en' ps : run_round r e en = Some (en', ps) -> same_switches en en'.
Proof.
  destruct r; cbn; intros E; [now apply receive_at_switches in E| |now apply process_at_switches in E| |].
  - injection E as E. pose proof (announce_at_switches e ping_time en) as S. now rewrite E in S.
  - injection E as <- _. apply same_switches_refl.
  - injection E as <- _. apply same_switches_refl.
Qed.

(** A round or a caller leaves the switches as they are. *)
Ltac switches :=
  match goal with
  | H : run_round _ _ _ = Some _ |- _ => apply run_round_switches in H; destruct H as (?Hs & ?Ha & ?Hf & ?He); congruence
  | H : same_switches _ _ |- _ => destruct H as (?Hs & ?Ha & ?Hf & ?He); congruence
  end.

(** The flag stays. *)
Lemma flag_kept s s' : td_step s s' -> en_shutdown (eng s) = true -> en_shutdown (eng s') = true.
Proof.
  intros St F. td_step_cases St; cbn; rewrite ?end_locked_shutdown; auto.
  all: switches.
Qed.

(** No task is past the look at the flag. *)
Definition outside (p : TaskAt) : bool := match p with Asleep | InGate | TurnedAway | Over => true | _ => false end.
Definition all_outside s : Prop := en_shutdown (eng s) = true /\ map_Forall (fun _ p => outside p = true) (tasks s).

Lemma from_tasks_app l l' : from_tasks (l ++ l') = from_tasks l ++ from_tasks l'.
Proof. apply List.filter_app. Qed.

Lemma outside_step s s' : all_outside s -> td_step s s' -> all_outside s' /\ from_tasks (wire s') = from_tasks (wire s).
Proof.
  intros [F O] St. split; [split; [exact (flag_kept _ _ St F)|]|].
  - td_step_cases St; cbn; auto.
    all: try (apply map_Forall_insert_2; [reflexivity|exact O]).
    all: try (match goal with H : tasks _ !! _ = Some _ |- _ => apply O in H; discriminate H end).
    all: try congruence.
    intros t p. rewrite lookup_fmap. destruct (tasks s !! t) as [q|] eqn:T; [|discriminate]. intros [= <-]. apply O in T. now destruct q.
  - td_step_cases St; cbn; auto; try (rewrite from_tasks_app; apply app_nil_r).
    all: match goal with H : tasks _ !! _ = Some _ |- _ => apply O in H; discriminate H end.
Qed.

(** The socket is closed, and nobody is about to open it. *)
Definition all_closed s : Prop := en_shutdown (eng s) = true /\ send_epoch (eng s) = None /\ begin_at s = Unlocked.

Lemma closed_step s s' : all_closed s -> td_step s s' -> all_closed s' /\ from_tasks (wire s') = from_tasks (wire s).
Proof.
  intros (F & C & B) St. split; [split; [exact (flag_kept _ _ St F)|]|].
  - td_step_cases St; cbn; auto; try congruence.
    all: try match goal with H : _ && _ = true |- _ => rewrite F in H; rewrite andb_false_r in H; discriminate end.
    all: try (match goal with |- context [end_locked ?en] => destruct (end_locked_switches en) as (_ & _ & ->); auto; fail end).
    all: split; [switches|auto].
  - td_step_cases St; cbn; auto; try (rewrite from_tasks_app; apply app_nil_r).
    unfold send_to_at. rewrite C. rewrite bool_decide_false by discriminate. cbn. now rewrite app_nil_r.
Qed.
(** ** Who holds what *)

(** A call on a task: the task is in a callback, and while it holds the mutex the
    call has not passed it. *)
Definition on_task (a : ShutdownAt) (p : option TaskAt) : Prop :=
  match p with
  | Some Notifying => True
  | Some (Calling _) => match a with SByes _ _ | SSend _ _ | SPublish _ => False | _ => True end
  | _ => False
  end.

Record td_ok s : Prop := {
  td_flag : shutting s <> None -> en_shutdown (eng s) = true;
  td_write : writer s <> None -> map_Forall (fun _ p => holds_gate p = false) (tasks s);
  td_held w a : shutting s = Some (w, a) -> held a = true -> writer s = Some ByShutdown;
  td_pausing k w : pausers s !! k = Some (w, PSection true) -> writer s = Some (ByPause k);
  td_on t a : shutting s = Some (Some t, a) -> a <> SReturned -> on_task a (tasks s !! t)
}.

Lemma busy_shutting t a s : shutting s = Some (Some t, a) -> a <> SReturned -> busy t s = true.
Proof. intros E Ne. unfold busy. rewrite E, bool_decide_true by reflexivity. now destruct a. Qed.

Lemma mutex_free_calling s t e : mutex_free s = true -> tasks s !! t = Some (Calling e) -> False.
Proof. unfold mutex_free. intros [_ F]%andb_true_iff T. apply bool_decide_eq_true in F. now apply F in T. Qed.

Lemma can_write_free s : can_write s = true -> writer s = None /\ map_Forall (fun _ p => holds_gate p = false) (tasks s).
Proof. unfold can_write. intros [W F]%andb_true_iff. apply bool_decide_eq_true in F. now destruct (writer s). Qed.

(** A task moves on: out of the gate, or it was in it. *)
Lemma set_task_ok t p q s :
  td_ok s -> tasks s !! t = Some p -> (holds_gate q = true -> holds_gate p = true \/ writer s = None) ->
  (forall a, shutting s = Some (Some t, a) -> a <> SReturned -> on_task a (Some q)) -> td_ok (set_task t q s).
Proof.
  intros [A1 A2 A3 A4 A5] T G B. constructor; cbn; auto.
  - intros W. apply map_Forall_insert_2; [|now apply A2]. destruct (holds_gate q); [|reflexivity].
    destruct (G eq_refl) as [P|]; [|easy]. apply (A2 W) in T. congruence.
  - intros t' a E Ne. destruct (decide (t' = t)) as [->|Nt]; [rewrite lookup_insert_eq; eauto|rewrite lookup_insert_ne by auto; eauto].
Qed.

Lemma with_eng_ok en s : td_ok s -> (en_shutdown (eng s) = true -> en_shutdown en = true) -> td_ok (with_eng en s).
Proof. intros [A1 A2 A3 A4 A5] F. constructor; cbn; auto. Qed.

Lemma with_begin_ok b s : td_ok s -> td_ok (with_begin b s).
Proof. intros [A1 A2 A3 A4 A5]. now constructor. Qed.

Lemma puts_ok who ps s : td_ok s -> td_ok (puts who ps s).
Proof. intros [A1 A2 A3 A4 A5]. now constructor. Qed.

(** A task that is not in a callback has no call on it. *)
Lemma no_call t p s a :
  td_ok s -> tasks s !! t = Some p -> match p with Calling _ | Notifying => False | _ => True end ->
  shutting s = Some (Some t, a) -> a <> SReturned -> False.
Proof. intros Ok T P E Ne. pose proof (td_on s Ok _ _ E Ne) as O. rewrite T in O. now destruct p. Qed.

Lemma section_ends_ok r t e s p :
  td_ok s -> tasks s !! t = Some p -> holds_gate p = true ->
  (forall a, shutting s = Some (Some t, a) -> a <> SReturned -> False) -> td_ok (section_ends r t e s).
Proof.
  intros Ok T G B. unfold section_ends. destruct (run_round r e (eng s)) as [[en ps]|] eqn:R; [|exact Ok].
  eapply (set_task_ok t p); cbn; [|exact T|auto|].
  - apply with_eng_ok; [exact Ok|]. apply run_round_switches in R as (_ & _ & -> & _). auto.
  - intros a E Ne. now destruct (B a E Ne).
Qed.

(** The call goes on, and takes or keeps the write side. *)
Lemma with_shutting_ok w a a' s :
  td_ok s -> shutting s = Some (w, a) -> a <> SReturned -> (held a' = true -> held a = true) ->
  (forall t p, w = Some t -> a' <> SReturned -> tasks s !! t = Some p -> on_task a (Some p) -> on_task a' (Some p)) ->
  td_ok (with_shutting w a' s).
Proof.
  intros Ok E Ne H O. pose proof Ok as [A1 A2 A3 A4 A5]. constructor; cbn; auto.
  - intros _. apply A1. now rewrite E.
  - intros w' a'' [= <- <-] Hd. eauto.
  - intros t a'' [= -> <-] Ne'. pose proof (A5 t a E Ne) as T. destruct (tasks s !! t) as [p|] eqn:P; [|destruct T]. eauto.
Qed.

(** The step touches neither the tasks, nor the gate, nor the call. *)
Lemma with_pausers_ok ps s :
  td_ok s -> (forall k w, ps !! k = Some (w, PSection true) -> writer s = Some (ByPause k)) -> td_ok (with_pausers ps s).
Proof. intros [A1 A2 A3 A4 A5] P. now constructor. Qed.

Lemma task_step_ok s t :
  td_ok s ->
  td_ok (task_wakes t s) /\ td_ok (enter_gate t s) /\ td_ok (enter_active_gate t s) /\ td_ok (turned_away t s) /\
  td_ok (reads_epoch t s) /\ td_ok (callback_starts t s) /\ td_ok (sends_one t s) /\ td_ok (leaves_gate t s).
Proof.
  intros Ok. split_and!; td_open; try exact Ok; try apply puts_ok.
  all: eapply set_task_ok; [exact Ok|eassumption|cbn; auto|].
  all: intros a E Ne; try (exfalso; eapply no_call; [exact Ok|eassumption|exact I|eassumption|exact Ne]).
  all: try exact I.
  all: rewrite (busy_shutting t a s E Ne) in *; discriminate.
Qed.

Lemma runs_round_ok r t s : td_ok s -> td_ok (runs_round r t s).
Proof.
  intros Ok. unfold runs_round. destruct (tasks s !! t) as [[]|] eqn:T; try exact Ok.
  - destruct (mutex_free s); [|exact Ok]. eapply section_ends_ok; [exact Ok|exact T|reflexivity|].
    intros a E Ne. eapply no_call; [exact Ok|exact T|exact I|exact E|exact Ne].
  - destruct (busy t s) eqn:B; [exact Ok|]. eapply section_ends_ok; [exact Ok|exact T|reflexivity|].
    intros a E Ne. rewrite (busy_shutting t a s E Ne) in B. discriminate.
Qed.

Lemma may_call_at w s t : may_call w s = true -> w = Some t -> busy t s = false /\ on_task SPause (tasks s !! t).
Proof.
  intros Mc ->. cbn in Mc. destruct (tasks s !! t) as [[]|]; try discriminate; apply negb_true_iff in Mc; now split.
Qed.

Lemma shutdown_called_ok w s : td_ok s -> td_ok (shutdown_called w s).
Proof.
  intros Ok. unfold shutdown_called. destruct (may_call w s) eqn:Mc; [|exact Ok].
  destruct (en_shutdown (eng s)) eqn:F; [exact Ok|]. destruct Ok as [A1 A2 A3 A4 A5]. constructor; cbn; auto.
  - now intros w' a [= <- <-].
  - intros t a [= -> <-] _. apply (may_call_at (Some t)); auto.
Qed.

Lemma abort_tasks_ok s : td_ok s -> td_ok (abort_tasks s).
Proof.
  intros [A1 A2 A3 A4 A5]. constructor; cbn; auto.
  - intros W t p. rewrite lookup_fmap. destruct (tasks s !! t) as [q|] eqn:T; [|discriminate]. intros [= <-].
    pose proof (A2 W t q T) as G. now destruct q.
  - intros t a E Ne. specialize (A5 t a E Ne). rewrite lookup_fmap. destruct (tasks s !! t) as [[]|]; cbn in *; auto.
Qed.

Lemma acquire_ok x s : td_ok s -> can_write s = true -> td_ok (with_writer (Some x) s).
Proof.
  intros [A1 A2 A3 A4 A5] [W F]%can_write_free. constructor; cbn; auto.
  - intros w a E H. specialize (A3 w a E H). congruence.
  - intros k w P. specialize (A4 k w P). congruence.
Qed.

Lemma shutdown_next_ok ok s : td_ok s -> td_ok (shutdown_next ok s).
Proof.
  intros Ok. unfold shutdown_next. destruct (shutting s) as [[w a]|] eqn:E; [|exact Ok].
  assert (forall en, (en_shutdown (eng s) = true -> en_shutdown en = true) -> td_ok (with_eng en s)) as Ek by (intros; now apply with_eng_ok).
  assert (forall s' a', td_ok s' -> shutting s' = Some (w, a) -> a <> SReturned -> (held a' = true -> held a = true) ->
    (mutex_free s' = true \/ match a' with SByes _ _ | SPublish _ => False | SSend _ _ => exists h ps, a = SSend h ps | _ => True end) ->
    td_ok (with_shutting w a' s')) as Go.
  { intros s' a' Ok' E' Ne H Mf. eapply with_shutting_ok; [exact Ok'|exact E'|exact Ne|exact H|].
    intros t p _ _ T O. destruct p; auto. destruct Mf as [Mf|Mf]; [destruct (mutex_free_calling _ _ _ Mf T)|].
    destruct a'; cbn in *; auto. destruct Mf as (h & l & ->). exact O. }
  destruct a as [| | | |[|n]|h [|n]|h ids|h [|p ps]|h|h [|n]|h|h|].
  - apply Go; cbn; auto; discriminate.
  - apply Go; cbn; auto; discriminate.
  - apply Go; cbn; auto; discriminate.
  - apply Go; cbn; auto using abort_tasks_ok; discriminate.
  - apply Go; cbn; auto; discriminate.
  - destruct (ok && can_write s) eqn:C; [|apply Go; cbn; auto; discriminate]. apply andb_true_iff in C as [_ C].
    pose proof (acquire_ok ByShutdown s Ok C) as [A1 A2 A3 A4 A5]. constructor; cbn; auto.
    + intros _. apply A1. cbn. now rewrite E.
    + intros t a [= -> <-] _. assert (SGate (S n) <> SReturned) as Ne by discriminate. pose proof (A5 t _ E Ne) as O. exact O.
  - apply Go; cbn; auto; discriminate.
  - destruct (ok && mutex_free s) eqn:Mf; [|apply Go; cbn; auto; discriminate]. apply andb_true_iff in Mf as [_ Mf].
    destruct (map _ _); apply Go; cbn; auto; discriminate.
  - destruct (mutex_free s) eqn:Mf; [|exact Ok]. apply Go; cbn; auto; discriminate.
  - apply Go; cbn; auto; discriminate.
  - apply Go; cbn; auto using puts_ok. eauto.
  - apply Go; cbn; auto; discriminate.
  - apply Go; cbn; auto; discriminate.
  - destruct (ok && mutex_free s) eqn:Mf; [|apply Go; cbn; auto; discriminate]. apply andb_true_iff in Mf as [_ Mf].
    destruct (fst _); apply Go; cbn; auto; discriminate.
  - destruct (mutex_free s) eqn:Mf; [|exact Ok]. apply Go; cbn; auto; discriminate.
  - destruct h; [|apply Go; cbn; auto; discriminate]. destruct Ok as [A1 A2 A3 A4 A5].
    assert (writer s = Some ByShutdown) as W by exact (A3 _ _ E eq_refl). constructor; cbn; auto; try congruence.
    + intros _. apply A1. now rewrite E.
    + intros w' a [= <- <-]. discriminate.
    + intros k w' P. apply A4 in P. congruence.
  - exact Ok.
Qed.

Lemma pause_called_ok k w s : td_ok s -> td_ok (pause_called k w s).
Proof.
  intros Ok. unfold pause_called. destruct (pausers s !! k) as [|] eqn:P; [exact Ok|]. destruct (may_call w s); [|exact Ok].
  apply with_pausers_ok; [now apply with_eng_ok|]. cbn. intros k' w' P'. destruct (decide (k' = k)) as [->|Ne].
  - rewrite lookup_insert_eq in P'. discriminate.
  - rewrite lookup_insert_ne in P' by auto. exact (td_pausing s Ok _ _ P').
Qed.

(** A pause that leaves the write side where it is. *)
Lemma pause_goes_on k w a s s' :
  td_ok s -> td_ok s' -> writer s' = writer s -> pausers s' = pausers s -> a <> PSection true -> td_ok (with_pausers (<[k := (w, a)]> (pausers s)) s').
Proof.
  intros Ok Ok' W P Ne. apply with_pausers_ok; [exact Ok'|]. rewrite W. intros k' w' H. destruct (decide (k' = k)) as [->|Nk].
  - rewrite lookup_insert_eq in H. congruence.
  - rewrite lookup_insert_ne in H by auto. exact (td_pausing s Ok _ _ H).
Qed.

Lemma pause_ends k s s' :
  td_ok s -> td_ok s' -> writer s' = writer s -> pausers s' = pausers s -> td_ok (with_pausers (delete k (pausers s)) s').
Proof.
  intros Ok Ok' W P. apply with_pausers_ok; [exact Ok'|]. rewrite W. intros k' w' [_ H]%lookup_delete_Some. exact (td_pausing s Ok _ _ H).
Qed.

(** The write side is given up by the pause that has it. *)
Lemma pause_releases k w ps s :
  td_ok s -> pausers s !! k = Some (w, PSection true) -> (forall k' w', ps !! k' = Some (w', PSection true) -> pausers s !! k' = Some (w', PSection true) /\ k' <> k) ->
  td_ok (with_pausers ps (with_writer None s)).
Proof.
  intros Ok E P. pose proof (td_pausing s Ok _ _ E) as W. destruct Ok as [A1 A2 A3 A4 A5]. constructor; cbn; auto; try congruence.
  - intros w' a Es H. rewrite (A3 _ _ Es H) in W. discriminate.
  - intros k' w' H. apply P in H as [H Ne]. apply A4 in H. congruence.
Qed.

Lemma pause_next_ok k ok s : td_ok s -> td_ok (pause_next k ok s).
Proof.
  intros Ok. unfold pause_next. destruct (pausers s !! k) as [[w a]|] eqn:E; [|exact Ok].
  assert (forall en, (en_shutdown (eng s) = true -> en_shutdown en = true) -> td_ok (with_eng en s)) as Ek by (intros; now apply with_eng_ok).
  assert (en_shutdown (snd (end_locked (eng s))) = en_shutdown (eng s)) as El by apply end_locked_shutdown.
  destruct a as [|[|n]|[]|].
  - apply (pause_goes_on k w _ s); auto; discriminate.
  - apply (pause_goes_on k w _ s); auto; discriminate.
  - destruct (ok && can_write s) eqn:C; [|apply (pause_goes_on k w _ s); auto; discriminate]. apply andb_true_iff in C as [_ C].
    apply with_pausers_ok; [now apply acquire_ok|]. cbn. intros k' w' H. destruct (decide (k' = k)) as [->|Ne]; [reflexivity|].
    rewrite lookup_insert_ne in H by auto. apply (td_pausing s Ok) in H. destruct (can_write_free s C). congruence.
  - destruct (mutex_free s); [|exact Ok]. cbv zeta. destruct (fst _).
    + change (td_ok (with_pausers (<[k := (w, PPublish)]> (pausers s)) (with_writer None (with_eng (snd (end_locked (eng s))) s)))).
      apply (pause_releases k w); [apply Ek; congruence|exact E|]. cbn. intros k' w' H. destruct (decide (k' = k)) as [->|Ne].
      * rewrite lookup_insert_eq in H. discriminate.
      * rewrite lookup_insert_ne in H by auto. auto.
    + change (td_ok (with_pausers (delete k (pausers s)) (with_writer None (with_eng (snd (end_locked (eng s))) s)))).
      apply (pause_releases k w); [apply Ek; congruence|exact E|]. cbn. intros k' w' [Ne H]%lookup_delete_Some. auto.
  - destruct (mutex_free s); [|exact Ok]. cbv zeta. destruct (fst _).
    + apply (pause_goes_on k w _ s); auto; try discriminate; apply Ek; congruence.
    + apply pause_ends; auto; apply Ek; congruence.
  - destruct (mutex_free s); [|exact Ok]. apply pause_ends; auto.
Qed.

Lemma td_step_ok s s' : td_step s s' -> td_ok s -> td_ok s'.
Proof.
  intros St Ok. destruct St; try (now apply (task_step_ok _ _ Ok)); auto using runs_round_ok, shutdown_called_ok, shutdown_next_ok,
    pause_called_ok, pause_next_ok, puts_ok.
  - unfold begin_next. destruct (begin_at s); try apply with_begin_ok; try apply with_eng_ok; auto.
    destruct (mutex_free s && negb (en_shutdown (eng s))); [now apply with_begin_ok|exact Ok].
  - apply with_eng_ok; [exact Ok|]. destruct H1 as (_ & _ & -> & _). auto.
Qed.

Lemma td_steps_ok s s' : rtc td_step s s' -> td_ok s -> td_ok s'.
Proof. induction 1; eauto using td_step_ok. Qed.

Lemma Teardown_new_ok en ts : td_ok (Teardown_new en ts).
Proof. constructor; cbn; try easy. Qed.

(** The tasks have put nothing more on the wire, from a state on from which they
    cannot. *)
Lemma silent_steps (P : Teardown -> Prop) s s' :
  (forall x x', P x -> td_step x x' -> P x' /\ from_tasks (wire x') = from_tasks (wire x)) ->
  rtc td_step s s' -> P s -> from_tasks (wire s') = from_tasks (wire s).
Proof.
  intros Step. induction 1 as [|s s1 s2 S1 _ IH]; [reflexivity|]. intros H. destruct (Step _ _ H S1) as [H1 E]. rewrite (IH H1). exact E.
Qed.

(** *** The goodbyes *)

Definition from_shutdown (l : list (Sender * Packet)) : list (Sender * Packet) :=
  List.filter (fun p => match p.1 with FromShutdown => true | _ => false end) l.

Definition goodbye (p : Packet) : Prop := exists ids st, p ∈ send_channel_byes ids st.

(** A shutdown before its first goodbye. *)
Definition unsent (a : ShutdownAt) : bool :=
  match a with SPause | SClose | SBump | SAbort | SGate _ | SIds _ _ | SByes _ _ => true | _ => false end.

(** No task has put anything on the wire behind a goodbye. *)
Definition byes_last (l : list (Sender * Packet)) : Prop :=
  forall l1 p l2, l = l1 ++ (FromShutdown, p) :: l2 -> from_tasks l2 = [].

Lemma byes_last_none l : from_shutdown l = [] -> byes_last l.
Proof. intros E l1 p l2 ->. unfold from_shutdown in E. rewrite List.filter_app in E. cbn in E. now destruct (List.filter _ l1). Qed.

Lemma byes_last_app l k : byes_last l -> from_tasks k = [] -> byes_last (l ++ k).
Proof.
  intros B K l1 p l2 E. symmetry in E. apply app_eq_app in E as (m & [[E1 E2]|[E1 E2]]).
  - rewrite E2 in K. rewrite from_tasks_app in K. apply app_eq_nil in K as [_ K]. exact K.
  - destruct m as [|x m].
    + cbn in E2. rewrite <- E2 in K. cbn in K. exact K.
    + injection E2 as <- ->. rewrite from_tasks_app, K, app_nil_r. now apply (B l1 p).
Qed.

Record byes_ok s : Prop := {
  by_unsent : match shutting s with Some (_, a) => unsent a = true | None => True end -> from_shutdown (wire s) = [];
  by_held w a : shutting s = Some (w, a) -> held a = true -> byes_last (wire s);
  by_left w h ps : shutting s = Some (w, SSend h ps) -> Forall goodbye ps;
  by_sent p : (FromShutdown, p) ∈ wire s -> goodbye p
}.

Lemma from_shutdown_app l k : from_shutdown (l ++ k) = from_shutdown l ++ from_shutdown k.
Proof. apply List.filter_app. Qed.

Lemma from_shutdown_none p l : from_shutdown l = [] -> (FromShutdown, p) ∉ l.
Proof.
  intros E H. apply list_elem_of_In in H. assert (List.In (FromShutdown, p) (from_shutdown l)) as X by now apply filter_In.
  now rewrite E in X.
Qed.

(** Others leave the goodbyes alone. *)
Lemma td_step_kinds s s' :
  td_step s s' ->
  (exists ok, s' = shutdown_next ok s) \/ (exists who, s' = shutdown_called who s) \/
  shutting s' = shutting s /\ exists l, wire s' = wire s ++ l /\ from_shutdown l = [].
Proof.
  intros St. destruct St as [s t|s t|s t|s t|s t|s t|s r t|s t|s t|s who|s ok|s k who|s k ok|s|s en Mf En Sw|s p];
    try (now left; eauto); try (now right; left; eauto); right; right; td_open; cbn; (split; [congruence|]);
    try (exists []; rewrite app_nil_r; now split).
  all: eexists; split; [reflexivity|].
  - unfold send_to_at. now destruct (bool_decide _).
  - reflexivity.
Qed.

Lemma held_outside s w a : td_ok s -> shutting s = Some (w, a) -> held a = true -> all_outside s.
Proof.
  intros Ok E H. split; [apply (td_flag s Ok); rewrite E; discriminate|].
  intros t p T. pose proof (td_held s Ok _ _ E H) as W. assert (writer s <> None) as Nw by (rewrite W; discriminate).
  pose proof (td_write s Ok Nw t p T) as G. now destruct p.
Qed.

Lemma byes_ok_keeps s s' l :
  byes_ok s -> shutting s' = shutting s -> wire s' = wire s ++ l -> from_shutdown l = [] ->
  (forall w a, shutting s = Some (w, a) -> held a = true -> from_tasks l = []) -> byes_ok s'.
Proof.
  intros [B1 B2 B3 B4] E W L T. constructor; rewrite ?E, ?W.
  - intros U. now rewrite from_shutdown_app, B1, L.
  - intros w a Es H. apply byes_last_app; eauto.
  - exact B3.
  - intros p [X|X]%elem_of_app; [auto|now apply from_shutdown_none in X].
Qed.

(** The shutdown goes on; it sends at most a goodbye. *)
Lemma byes_ok_goes_on s s' w a a' l :
  byes_ok s -> shutting s = Some (w, a) -> shutting s' = Some (w, a') -> wire s' = wire s ++ l ->
  (l = [] /\ (unsent a' = true -> unsent a = true) \/ exists p, l = [(FromShutdown, p)] /\ goodbye p /\ unsent a' = false) ->
  (held a' = true -> held a = true \/ unsent a = true /\ l = []) ->
  (forall h ps, a' = SSend h ps -> Forall goodbye ps) -> byes_ok s'.
Proof.
  intros [B1 B2 B3 B4] E E' W L H S. rewrite E in B1. constructor; rewrite ?E', ?W.
  - intros U. destruct L as [[-> Lu]|(p & -> & _ & Lu)]; [rewrite app_nil_r; auto|congruence].
  - intros w' a'' [= <- <-] Hd. assert (from_tasks l = []) as T by (destruct L as [[-> _]|(p & -> & _)]; reflexivity).
    apply byes_last_app; [|exact T]. destruct (H Hd) as [Ha|[Ua _]]; [eauto|]. now apply byes_last_none, B1.
  - intros w' h ps [= <- ->]. eauto.
  - intros p [X|X]%elem_of_app; [auto|]. destruct L as [[-> _]|(q & -> & G & _)]; [now apply elem_of_nil in X|].
    apply list_elem_of_singleton in X. injection X as ->. exact G.
Qed.

Lemma shutdown_next_byes ok s : byes_ok s -> byes_ok (shutdown_next ok s).
Proof.
  intros B. unfold shutdown_next. destruct (shutting s) as [[w a]|] eqn:E; [|exact B].
  destruct a as [| | | |[|n]|h [|n]|h ids|h [|p ps]|h|h [|n]|h|h|]; repeat case_match; try exact B.
  all: try (eapply (byes_ok_goes_on s _ w _ _ []); [exact B|exact E|reflexivity|now rewrite app_nil_r|left; split; [reflexivity|now cbn]
    |cbn; auto; discriminate|discriminate]; fail).
  - eapply (byes_ok_goes_on s _ w _ _ []); [exact B|exact E|reflexivity|now rewrite app_nil_r|left; split; [reflexivity|now cbn]|cbn; auto|].
    intros h' ps' [= <- <-]. apply Forall_forall. intros p X. eexists _, _. exact X.
  - pose proof (by_left s B _ _ _ E) as [G F]%Forall_cons.
    eapply (byes_ok_goes_on s _ w _ _ [(FromShutdown, p)]); [exact B|exact E|reflexivity|reflexivity|right; eauto|cbn; auto|].
    now intros h' ps' [= <- <-].
  - pose proof (by_left s B _ _ _ E) as [G F]%Forall_cons.
    eapply (byes_ok_goes_on s _ w _ _ []); [exact B|exact E|reflexivity|reflexivity|left; split; [reflexivity|now cbn]|cbn; auto|].
    now intros h' ps' [= <- <-].
Qed.

Lemma td_step_byes s s' : td_step s s' -> td_ok s -> byes_ok s -> byes_ok s'.
Proof.
  intros St Ok B. destruct (td_step_kinds s s' St) as [[ok ->]|[[who ->]|[E (l & W & L)]]].
  - now apply shutdown_next_byes.
  - unfold shutdown_called. destruct (may_call who s); [|exact B]. destruct (en_shutdown (eng s)) eqn:F; [exact B|].
    assert (shutting s = None) as N by (destruct (shutting s) eqn:X; [|reflexivity]; rewrite (td_flag s Ok) in F; congruence).
    destruct B as [B1 B2 B3 B4]. rewrite N in B1. constructor; cbn; auto; [now intros ? ? [= <- <-]|discriminate].
  - eapply byes_ok_keeps; [exact B|exact E|exact W|exact L|]. intros w a Es H.
    destruct (outside_step s s' (held_outside s w a Ok Es H) St) as [_ T]. rewrite W, from_tasks_app in T.
    rewrite <- app_nil_r in T. now apply app_inv_head in T.
Qed.

Lemma td_steps_byes s s' : rtc td_step s s' -> td_ok s -> byes_ok s -> byes_ok s'.
Proof. induction 1; eauto using td_step_ok, td_step_byes. Qed.

Lemma Teardown_new_byes en ts : byes_ok (Teardown_new en ts).
Proof. constructor; cbn; easy. Qed.

(** A shutdown on its way to close the socket, or past it, with no synchronisation
    starting. *)
Definition closing (a : ShutdownAt) : bool := match a with SPause | SClose => true | _ => false end.

Definition orderly s : Prop :=
  en_shutdown (eng s) = true /\ begin_at s = Unlocked /\
  ((exists w a, shutting s = Some (w, a) /\ closing a = true /\ from_shutdown (wire s) = []) \/ all_closed s /\ byes_last (wire s)).

Lemma begin_kept s s' : en_shutdown (eng s) = true -> begin_at s = Unlocked -> td_step s s' -> begin_at s' = Unlocked.
Proof.
  intros F B St. td_step_cases St; cbn; auto; try congruence.
  all: match goal with H : _ && _ = true |- _ => rewrite F in H; rewrite andb_false_r in H; discriminate end.
Qed.

Lemma wire_grows s s' : td_step s s' -> exists l, wire s' = wire s ++ l.
Proof.
  intros S1. destruct S1 as [s t|s t|s t|s t|s t|s t|s r t|s t|s t|s who|s ok|s k who|s k ok|s|s en Mf En Sw|s p]; td_open; cbn;
    try (exists []; now rewrite app_nil_r); eauto.
Qed.

(** Nothing of a task comes on: goodbyes that are last stay so. *)
Lemma byes_last_step s s' :
  td_step s s' -> from_tasks (wire s') = from_tasks (wire s) -> byes_last (wire s) -> byes_last (wire s').
Proof.
  intros St E B. destruct (wire_grows s s' St) as [l W]. rewrite W in *.
  rewrite from_tasks_app, <- (app_nil_r (from_tasks (wire s))) in E. rewrite <- app_assoc in E. cbn in E.
  apply app_inv_head in E. now apply byes_last_app.
Qed.

(** From a state on from which the tasks are silent, goodbyes stay last. *)
Lemma byes_stay_last (P : Teardown -> Prop) s s' :
  (forall x x', P x -> td_step x x' -> P x' /\ from_tasks (wire x') = from_tasks (wire x)) ->
  rtc td_step s s' -> P s -> byes_last (wire s) -> byes_last (wire s').
Proof.
  intros Step. induction 1 as [|s s1 s2 S1 _ IH]; [auto|]. intros H B. destruct (Step _ _ H S1) as [H1 E].
  apply IH; [exact H1|exact (byes_last_step s s1 S1 E B)].
Qed.

Lemma orderly_step s s' : orderly s -> td_step s s' -> orderly s'.
Proof.
  intros (F & B & O) St. pose proof (flag_kept _ _ St F) as F'. pose proof (begin_kept _ _ F B St) as B'.
  split; [exact F'|]. split; [exact B'|]. destruct O as [(w & a & E & C & W)|[A L]].
  - destruct (td_step_kinds s s' St) as [[ok ->]|[[who ->]|[E' (l & W' & L)]]].
    + unfold shutdown_next in *. rewrite E in *. destruct a; try discriminate; [left|right].
      * eexists _, _. now split.
      * split; [now split|]. now apply byes_last_none.
    + left. unfold shutdown_called. rewrite F. destruct (may_call who s); eauto.
    + left. exists w, a. rewrite E', W', from_shutdown_app, W, L. now split.
  - destruct (closed_step s s' A St) as [A' T]. right. split; [exact A'|]. exact (byes_last_step s s' St T L).
Qed.

(** C31 The goodbyes of a shutdown come last.  Once [shutdown] has the write side
    of the gate, or has closed the socket while no synchronisation is starting,
    no round of a task and no request for a channel puts anything on the wire
    any more, whatever was under way and whatever follows.  Whatever [shutdown]
    puts on the wire from its start on, if no synchronisation is starting then, or
    from its closing of the socket on in that case, or ever, if it gets the write
    side, is a goodbye with nothing from a task behind it. *)
Theorem goodbyes_come_last en ts s s' w a :
  rtc td_step (Teardown_new en ts) s -> shutting s = Some (w, a) -> rtc td_step s s' ->
  (held a = true \/ send_epoch (eng s) = None /\ begin_at s = Unlocked -> from_tasks (wire s') = from_tasks (wire s)) /\
  (held a = true \/ begin_at s = Unlocked /\ (closing a = true \/ unsent a = true /\ send_epoch (eng s) = None) ->
   forall before p after, wire s' = before ++ (FromShutdown, p) :: after -> goodbye p /\ from_tasks after = []).
Proof.
  intros St E St'. pose proof (td_steps_ok _ _ St (Teardown_new_ok en ts)) as Ok.
  pose proof (td_steps_byes _ _ St (Teardown_new_ok en ts) (Teardown_new_byes en ts)) as By.
  assert (en_shutdown (eng s) = true) as F by (apply (td_flag s Ok); rewrite E; discriminate). split.
  - intros [H|[C B]]; [|now apply (silent_steps all_closed s s' closed_step St')].
    exact (silent_steps all_outside s s' outside_step St' (held_outside s w a Ok E H)).
  - intros D. assert (byes_last (wire s')) as L.
    { destruct D as [H|[B D]].
      - apply (byes_stay_last all_outside s s' outside_step St'); [now apply (held_outside s w a)|exact (by_held s By _ _ E H)].
      - assert (from_shutdown (wire s) = []) as N.
        { apply (by_unsent s By). rewrite E. destruct D as [C|[U _]]; [|exact U]. now destruct a. }
        assert (orderly s) as O.
        { split; [exact F|]. split; [exact B|]. destruct D as [C|[U C]]; [left; eauto|right].
          split; [now split|now apply byes_last_none]. }
        assert (orderly s') as (_ & _ & [(w' & a' & _ & _ & N')|[_ L]]);
          [clear - St' O; induction St'; eauto using orderly_step|now apply byes_last_none|exact L]. }
    intros before p after W. split; [|exact (L _ _ _ W)].
    apply (by_sent s' (td_steps_byes _ _ St' Ok By)). rewrite W. apply elem_of_app. right. left.
Qed.

(** ** A shutdown returns *)

(** What a shutdown has left to do. *)
Definition shutdown_left (a : ShutdownAt) : nat * nat :=
  match a with
  | SPause => (12, 0) | SClose => (11, 0) | SBump => (10, 0) | SAbort => (9, 0)
  | SGate n => (8, n)
  | SIds _ n => (7, n)
  | SByes _ _ => (6, 0)
  | SSend _ ps => (5, length ps)
  | SEndBump _ => (4, 0)
  | SPrune _ n => (3, n)
  | SPublish _ => (2, 0) | SRelease _ => (1, 0) | SReturned => (0, 0)
  end%nat.

Definition fewer (a a' : ShutdownAt) : Prop := slexprod nat nat lt lt (shutdown_left a) (shutdown_left a').

Lemma fewer_wf : well_founded fewer.
Proof. apply (wf_inverse_image _ _ (slexprod nat nat lt lt) shutdown_left). apply wf_slexprod; apply Nat.lt_wf_0. Qed.

(** The places that wait for the mutex. *)
Definition waits_for_mutex (a : ShutdownAt) : bool := match a with SByes _ _ | SPublish _ => true | _ => false end.

Lemma shutdown_next_left ok s w a :
  shutting s = Some (w, a) -> a <> SReturned -> waits_for_mutex a = false \/ mutex_free s = true ->
  exists a', shutting (shutdown_next ok s) = Some (w, a') /\ fewer a' a.
Proof.
  intros E Ne Mf. unfold shutdown_next. rewrite E.
  destruct a as [| | | |[|n]|h [|n]|h ids|h [|p ps]|h|h [|n]|h|h|]; cbn in Mf; try easy;
    repeat case_match; destruct Mf as [Mf|Mf]; try discriminate Mf; try congruence; eexists; (split; [reflexivity|]);
    unfold fewer; cbn; try (apply left_slex; lia); apply right_slex; lia.
Qed.

#[local] Instance returned_dec a : Decision (a = SReturned).
Proof. destruct a; try (right; discriminate). now left. Defined.

(** Others leave a shutdown where it is. *)
Lemma shutdown_undisturbed s s' w a :
  td_step s s' -> td_ok s -> shutting s = Some (w, a) -> exists a', shutting s' = Some (w, a') /\ (a' = a \/ fewer a' a).
Proof.
  intros St Ok E. assert (en_shutdown (eng s) = true) as F by (apply (td_flag s Ok); rewrite E; discriminate).
  destruct St as [s t|s t|s t|s t|s t|s t|s r t|s t|s t|s who|s ok|s k who|s k ok|s|s en Mf En Sw|s p].
  10: { exists a. unfold shutdown_called. rewrite F, andb_false_r. auto. }
  10: { destruct (decide (a = SReturned)) as [->|Ne]; [exists SReturned; unfold shutdown_next; rewrite E; auto|].
    destruct (waits_for_mutex a && negb (mutex_free s)) eqn:Wt.
    - apply andb_true_iff in Wt as [W N]. apply negb_true_iff in N. exists a. split; [|auto].
      unfold shutdown_next. rewrite E. destruct a; try discriminate W; now rewrite N.
    - destruct (shutdown_next_left ok s w a E Ne) as (a' & E' & L); [|eauto].
      destruct (waits_for_mutex a), (mutex_free s); auto. }
  all: exists a; split; [|auto]; td_open; try exact E; auto.
Qed.

(** C32 A shutdown returns, whoever calls it.  Nothing that happens meanwhile takes
    it back, each of its own steps brings it nearer to its end, and it can always
    take one, unless it has to wait for the mutex while the start of a
    synchronisation or the callback of a source on another task holds it; so a
    callback that shuts its own engine down does not wait for itself. *)
Theorem engine_shutdown_returns en ts s w a :
  rtc td_step (Teardown_new en ts) s -> shutting s = Some (w, a) ->
  well_founded fewer /\
  (forall s', td_step s s' -> exists a', shutting s' = Some (w, a') /\ (a' = a \/ fewer a' a)) /\
  (a = SReturned \/ (forall ok, exists a', shutting (shutdown_next ok s) = Some (w, a') /\ fewer a' a) \/
   waits_for_mutex a = true /\ (begin_at s <> Unlocked \/ exists t e, tasks s !! t = Some (Calling e) /\ w <> Some t)).
Proof.
  intros St E. pose proof (td_steps_ok _ _ St (Teardown_new_ok en ts)) as Ok. split; [apply fewer_wf|]. split.
  - intros s' S. exact (shutdown_undisturbed s s' w a S Ok E).
  - destruct (decide (a = SReturned)) as [->|Ne]; [auto|]. right.
    destruct (waits_for_mutex a) eqn:W; [|left; intros ok; apply shutdown_next_left; auto].
    destruct (mutex_free s) eqn:Mf; [left; intros ok; apply shutdown_next_left; auto|]. right. split; [reflexivity|].
    unfold mutex_free in Mf. destruct (begin_at s); [|now left..]. cbn in Mf. apply bool_decide_eq_false in Mf.
    apply map_not_Forall in Mf as (t & p & T & P); [|tc_solve]. right. destruct p as [| | | | |e| | | |]; try easy. exists t, e. split; [exact T|].
    intros ->. pose proof (td_on s Ok t a E Ne) as O. rewrite T in O. now destruct a.
Qed.

(** Pausing is not bounded: a source's callback that pauses its engine waits for
    the mutex it runs under, for ever. *)
Theorem pause_in_source_callback_hangs s s' t e k h :
  tasks s !! t = Some (Calling e) -> pausers s !! k = Some (Some t, PSection h) -> rtc td_step s s' ->
  tasks s' !! t = Some (Calling e) /\ pausers s' !! k = Some (Some t, PSection h).
Proof.
  intros T P St. induction St as [s|s s1 s2 S1 _ IH]; [auto|]. apply IH; clear IH.
  - assert (busy t s = true) as B.
    { unfold busy. rewrite bool_decide_false; [apply orb_true_r|]. intros F. now apply F in P. }
    destruct S1 as [s t'|s t'|s t'|s t'|s t'|s t'|s r t'|s t'|s t'|s who|s ok|s k' who|s k' ok|s|s en Mf En Sw|s p];
      try (destruct (decide (t' = t)) as [->|Ne]); td_open; cbn; rewrite ?lookup_insert_ne by auto; try congruence.
    all: rewrite lookup_fmap, T; reflexivity.
  - assert (mutex_free s = false) as Mf.
    { destruct (mutex_free s) eqn:Mf; [|reflexivity]. destruct (mutex_free_calling _ _ _ Mf T). }
    destruct S1 as [s t'|s t'|s t'|s t'|s t'|s t'|s r t'|s t'|s t'|s who|s ok|s k' who|s k' ok|s|s en Mf' En Sw|s p];
      try (destruct (decide (k' = k)) as [->|Ne]); td_open; cbn; rewrite ?lookup_insert_ne, ?lookup_delete_ne by auto; congruence.
Qed.
End Last.
