(* ===== verification/AudioApi.v ===== *)
(** The application's side of Link Audio: src/src/link_audio/api.rs.

    [LinkAudio] joins Link and the audio engine: audio is shared while the
    application asks for it and Link is enabled.  The operations of [BasicLink]
    it forwards are those of the controller; of Link only the switch matters
    here. *)

From stdpp Require Import base list numbers strings relations.
From Stdlib Require Import ZArith Lia ZifyBool SpecFloat.
From S2P Require Import Prelude Chrono F64 Encoding Beats Tempo Timeline Phase Entries AudioQueue AudioStream AudioPayload AudioResizer AudioCodec AudioRegistry AudioSink AudioEngine AudioHandshake AudioLifecycle.

(** ** Where a buffer lies on the local beat grid *)

Definition duration_in_beats (i : BufferInfo) : f64 :=
  if (info_sample_rate i =? 0) || f64_leb (info_tempo i) f64_zero then f64_zero
  else
    let seconds := f64_div (f64_of_int (info_num_frames i)) (f64_of_int (info_sample_rate i)) in
    f64_div (f64_mul seconds (info_tempo i)) (f64_of_int 60).

Section BeatsOfBuffer.
Context {Ch : Chrono}.

(** [tl] is the timeline of the session state. *)
Definition begin_beats (i : BufferInfo) (tl : Timeline) (quantum : f64) : option f64 :=
  Some (Beats_floating (beat_at_global_beat tl (Beats_new (session_beat_time i)) (Beats_new quantum))).

Definition end_beats (i : BufferInfo) (tl : Timeline) (quantum : f64) : option f64 :=
  let! b := begin_beats i tl quantum in Some (f64_add b (duration_in_beats i)).

(** The session a buffer comes from makes no difference: a beat is given for
    buffers of any session. *)
Theorem begin_beats_ignores_session n f r c b t session tl quantum :
  begin_beats (MkInfo n f r c b t session) tl quantum = begin_beats (MkInfo n f r c b t NodeId_default) tl quantum /\
  is_Some (begin_beats (MkInfo n f r c b t session) tl quantum).
Proof. split; [reflexivity|eexists; reflexivity]. Qed.
End BeatsOfBuffer.

(** ** Sharing *)

Section LinkAudio.
Context `{M : Mpsc} {Ch : Chrono}.

(** [sync_task] is the epoch its task quotes; [announced_endpoint] is the audio
    endpoint the controller announces. *)
Record LinkAudio := MkLinkAudio {
  link_enabled : bool;
  la_engine : Engine;
  sync_task : option Z;
  audio_enabled_by_user : bool;
  announced_endpoint : option SocketAddrV4
}.

Definition LinkAudio_new (addr : Ipv4Addr) (node : Id) (session : SessionId) (name : bytes) : LinkAudio :=
  MkLinkAudio false (end_peer_sync (AudioEngine_new addr node session name)) None false None.

Definition stop_audio_sharing (a : LinkAudio) : LinkAudio :=
  MkLinkAudio (link_enabled a) (end_peer_sync (la_engine a)) None (audio_enabled_by_user a) None.

Definition is_link_audio_effectively_enabled (a : LinkAudio) : bool := if sync_task a then true else false.

Definition update_is_link_audio_enabled (endpoint : SocketAddrV4) (a : LinkAudio) : LinkAudio :=
  let should_be_enabled := audio_enabled_by_user a && link_enabled a in
  if eqb should_be_enabled (is_link_audio_effectively_enabled a) then a
  else if should_be_enabled then
    let '(en, epoch) := begin_peer_sync (la_engine a) in
    MkLinkAudio (link_enabled a) en (Some epoch) (audio_enabled_by_user a) (Some endpoint)
  else stop_audio_sharing a.

Definition enable_link_audio (endpoint : SocketAddrV4) (b : bool) (a : LinkAudio) : LinkAudio :=
  if eqb b (audio_enabled_by_user a) then a
  else update_is_link_audio_enabled endpoint
         (MkLinkAudio (link_enabled a) (la_engine a) (sync_task a) b (announced_endpoint a)).

Definition with_link (b : bool) (a : LinkAudio) : LinkAudio :=
  MkLinkAudio b (la_engine a) (sync_task a) (audio_enabled_by_user a) (announced_endpoint a).

Definition la_enable (endpoint : SocketAddrV4) (a : LinkAudio) : LinkAudio :=
  update_is_link_audio_enabled endpoint (with_link true a).

(** Sharing stops before Link does. *)
Definition la_disable (a : LinkAudio) : LinkAudio := with_link false (stop_audio_sharing a).

(** A round of the peer-sync task at [epoch]; [identity] and [discovered] are
    [None] when the controller's lock is held by somebody else. *)
Definition peer_sync_tick (epoch : Z) (identity : option (Id * SessionId))
    (discovered : option (list (Id * option SocketAddrV4))) (en : Engine) : Engine :=
  if negb (sync_epoch en =? epoch) then en
  else
    let en := match identity with Some (node, session) => set_identity_at epoch node session en | None => en end in
    match discovered with
    | None => en
    | Some l =>
        let en := fold_left (fun en '(peer, endpoint) => saw_link_audio_endpoint_at epoch peer endpoint en) l en in
        update_session_peers_at epoch (map fst l) en
    end.

Inductive la_step (endpoint : SocketAddrV4) : LinkAudio -> LinkAudio -> Prop :=
| la_audio a b : la_step endpoint a (enable_link_audio endpoint b a)
| la_on a : la_step endpoint a (la_enable endpoint a)
| la_off a : la_step endpoint a (la_disable a)
| la_tick a epoch identity l :
    la_step endpoint a (MkLinkAudio (link_enabled a) (peer_sync_tick epoch identity l (la_engine a)) (sync_task a)
                          (audio_enabled_by_user a) (announced_endpoint a))
| la_engine_op a s :
    la_step endpoint a (MkLinkAudio (link_enabled a) (with_state s (la_engine a)) (sync_task a)
                          (audio_enabled_by_user a) (announced_endpoint a)).

(** The engine's switches agree with the peer-sync task. *)
Definition switches_ok (task : option Z) (en : Engine) : Prop :=
  en_shutdown en = false /\
  match task with
  | Some e => sharing_active en = true /\ send_epoch en = Some e /\ sync_epoch en = e
  | None => sharing_active en = false /\ send_epoch en = None
  end.

Definition la_ok (endpoint : SocketAddrV4) (a : LinkAudio) : Prop :=
  is_link_audio_effectively_enabled a = audio_enabled_by_user a && link_enabled a /\
  announced_endpoint a = (if sync_task a then Some endpoint else None) /\ switches_ok (sync_task a) (la_engine a).

Lemma end_peer_sync_switches en : en_shutdown en = false -> switches_ok None (end_peer_sync en).
Proof.
  intros H. unfold end_peer_sync, end_locked. destruct (prune_peers _ _) as [[] s]; repeat split; exact H.
Qed.

Lemma begin_peer_sync_switches en :
  en_shutdown en = false -> switches_ok (Some (snd (begin_peer_sync en))) (fst (begin_peer_sync en)).
Proof. intros H. unfold begin_peer_sync. rewrite H. repeat split. exact H. Qed.

Lemma same_switches_ok task en en' : same_switches en en' -> switches_ok task en -> switches_ok task en'.
Proof. intros (A & B & C & D). unfold switches_ok. now rewrite A, B, C, D. Qed.

Lemma same_switches_trans en1 en2 en3 : same_switches en1 en2 -> same_switches en2 en3 -> same_switches en1 en3.
Proof. intros (A & B & C & D) (A' & B' & C' & D'). repeat split; congruence. Qed.

Lemma fold_endpoints_switches epoch l en :
  same_switches en (fold_left (fun en '(peer, endpoint) => saw_link_audio_endpoint_at epoch peer endpoint en) l en).
Proof.
  revert en. induction l as [|[p e] l IH]; intros en; [apply same_switches_refl|]. cbn [fold_left].
  eapply same_switches_trans; [apply saw_endpoint_at_switches|apply IH].
Qed.

Lemma peer_sync_tick_switches epoch identity l en : same_switches en (peer_sync_tick epoch identity l en).
Proof.
  unfold peer_sync_tick. destruct (negb _); [apply same_switches_refl|].
  set (en1 := match identity with Some _ => _ | None => _ end).
  assert (same_switches en en1) as S1.
  { subst en1. destruct identity as [[node session]|]; [apply set_identity_at_switches|apply same_switches_refl]. }
  destruct l as [l|]; [|exact S1]. eapply same_switches_trans; [exact S1|].
  eapply same_switches_trans; [apply fold_endpoints_switches|apply update_peers_at_switches].
Qed.

Lemma update_ok endpoint a :
  announced_endpoint a = (if sync_task a then Some endpoint else None) -> switches_ok (sync_task a) (la_engine a) ->
  la_ok endpoint (update_is_link_audio_enabled endpoint a).
Proof.
  intros E S. unfold update_is_link_audio_enabled. cbv zeta.
  destruct (eqb _ _) eqn:Q; [apply eqb_prop in Q; now repeat split; try apply S|].
  destruct (audio_enabled_by_user a && link_enabled a) eqn:B.
  - pose proof (begin_peer_sync_switches (la_engine a) (proj1 S)) as W.
    destruct (begin_peer_sync (la_engine a)) as [en e]. split; [|split; [reflexivity|exact W]]. cbn. now rewrite B.
  - split; [cbn; now rewrite B|]. split; [reflexivity|]. apply end_peer_sync_switches, S.
Qed.

Lemma la_step_ok endpoint a a' : la_ok endpoint a -> la_step endpoint a a' -> la_ok endpoint a'.
Proof.
  intros H Hs. destruct Hs as [a b|a|a|a epoch identity l|a s]; destruct H as (H1 & H2 & H3).
  - unfold enable_link_audio. destruct (eqb b _); [exact (conj H1 (conj H2 H3))|]. now apply update_ok.
  - now apply update_ok.
  - split; [cbn; now rewrite andb_false_r|]. split; [reflexivity|]. apply end_peer_sync_switches, H3.
  - split; [exact H1|]. split; [exact H2|]. eapply same_switches_ok; [apply peer_sync_tick_switches|exact H3].
  - exact (conj H1 (conj H2 H3)).
Qed.

(** Whatever sequence of enabling and disabling Link and audio an application
    goes through, audio is shared exactly while it asks for it and Link is
    enabled: then, and only then, the peer-sync task runs at the engine's
    current epoch, the audio endpoint is announced and the socket admits
    messages. *)
Theorem sharing_follows_switches endpoint addr node session name a :
  rtc (la_step endpoint) (LinkAudio_new addr node session name) a ->
  (if audio_enabled_by_user a && link_enabled a
   then announced_endpoint a = Some endpoint /\
        exists e, sync_task a = Some e /\ epoch_is_current e (la_engine a) = true /\ send_epoch (la_engine a) = Some e
   else announced_endpoint a = None /\ sync_task a = None /\ live_epoch (la_engine a) = 0 /\
        forall e p, send_to_at e p (la_engine a) = []).
Proof.
  intros R. assert (la_ok endpoint a) as (H1 & H2 & H3).
  { assert (la_ok endpoint (LinkAudio_new addr node session name)) as H.
    { split; [reflexivity|]. split; [reflexivity|]. now apply end_peer_sync_switches. }
    revert H. induction R as [a|a1 a2 a3 S R IH]; [auto|]. intros H. apply IH. eapply la_step_ok; eassumption. }
  rewrite <- H1. unfold is_link_audio_effectively_enabled. destruct (sync_task a) as [e|]; destruct H3 as (Sd & H3).
  - split; [exact H2|]. destruct H3 as (A & B & C). exists e. unfold epoch_is_current. rewrite Sd, A, C, Z.eqb_refl. now repeat split.
  - destruct H3 as [A B]. split; [exact H2|]. split; [reflexivity|]. unfold live_epoch, send_to_at. rewrite Sd, A, B.
    split; [reflexivity|]. intros e p. now rewrite bool_decide_eq_false_2.
Qed.

(** ** Peers follow the session *)

Lemma prune_peers_subset peers s p : In p (es_peers (snd (prune_peers peers s))) -> In (pr_id p) peers.
Proof.
  unfold prune_peers. cbn. intros [_ H]%filter_In. unfold contains in H. apply existsb_exists in H as (x & Hx & E).
  apply bool_decide_eq_true in E. now subst.
Qed.

(** A round of the peer-sync task that quotes the current epoch leaves the
    engine with peers of the session only: whoever is not in the controller's
    list any more gets no announcement and no audio from then on. *)
Theorem peer_sync_prunes epoch identity l en p :
  epoch_is_current epoch en = true ->
  let en' := peer_sync_tick epoch identity (Some l) en in
  (In p (es_peers (en_state en')) -> In (pr_id p) (map fst l)) /\
  Forall (fun e => forall r, In r (se_receivers e) -> In (receiver_peer r) (map fst l)) (es_sinks (en_state en')) /\
  Forall (fun i => In (ch_peer_id (ci_channel i)) (map fst l)) (known_channels (es_channels (en_state en'))).
Proof.
  intros H en'. unfold en', peer_sync_tick.
  assert ((sync_epoch en =? epoch) = true) as -> by (unfold epoch_is_current in H; now apply andb_prop in H).
  cbn [negb]. set (en1 := match identity with Some _ => _ | None => _ end). set (en2 := fold_left _ l en1).
  assert (same_switches en en2) as (A & B & C & D).
  { eapply same_switches_trans; [|apply fold_endpoints_switches]. subst en1.
    destruct identity as [[node session]|]; [apply set_identity_at_switches|apply same_switches_refl]. }
  unfold update_session_peers_at. assert (epoch_is_current epoch en2 = true) as ->.
  { unfold epoch_is_current in *. now rewrite A, B, C. }
  pose proof (prune_peers_subset (map fst l) (en_state en2) p) as P.
  destruct (prune_peers (map fst l) (en_state en2)) as [ch s] eqn:E. rewrite publish_if_state. cbn [en_state with_state].
  split; [exact P|]. unfold prune_peers in E. injection E as _ <-. cbn.
  assert (forall x, contains (map fst l) x = true -> In x (map fst l)) as K.
  { intros x Hx. unfold contains in Hx. apply existsb_exists in Hx as (y & Hy & Ey). apply bool_decide_eq_true in Ey. now subst. }
  split.
  - apply List.Forall_map, List.Forall_forall. intros e _ r [_ Hr]%filter_In. now apply K.
  - apply List.Forall_forall. intros i [_ Hi]%filter_In. now apply K.
Qed.

(** ** Two sources of one channel *)

(** Only the first source of a channel is played, and removing one removes the
    other. *)
Theorem second_source_lost id s :
  es_sources s = [] ->
  let s2 := add_source id (add_source id s) in
  length (es_sources s2) = 2%nat /\ es_sources (fst (remove_source id s2)) = [] /\
  forall sd b l hs, channel_id b = id -> decode_at sd b (es_sources s2) = Some (l, hs) ->
    l !! 1%nat = es_sources s2 !! 1%nat.
Proof.
  intros E s2. subst s2. unfold add_source, remove_source. cbn [es_sources with_sources fst]. rewrite E. cbn [app].
  split; [reflexivity|]. split.
  - cbn [List.filter so_source source_id]. rewrite bool_decide_eq_true_2 by reflexivity. reflexivity.
  - intros sd b l hs <-. cbn [decode_at so_source source_id]. rewrite bool_decide_eq_true_2 by reflexivity.
    destruct (decode _ b) as [[d h]|]; [|discriminate]. now injection 1 as <- <-.
Qed.
End LinkAudio.
