(* ===== verification/Collections.v ===== *)
(** What the discovery files use of the standard collections beyond [gmap]:
    the iteration order of a hash map, [Iterator::min_by_key] and
    [Vec::dedup]. *)

From stdpp Require Import base list numbers gmap fin_maps.
From Stdlib Require Import ZArith Lia.
From S2P Require Import Prelude.

(** The entries of a hash map in the order an iteration visits them: some
    order, each entry once.  The theorems hold for every order. *)
Class HashOrder := {
  hash_iter : forall {K} `{Countable K} {V}, gmap K V -> list (K * V);
  hash_iter_perm : forall {K} `{Countable K} {V} (m : gmap K V), hash_iter m ≡ₚ map_to_list m
}.

(** The order of [map_to_list]. *)
Definition canonical_order : HashOrder := {|
  hash_iter K _ _ V m := map_to_list m;
  hash_iter_perm K _ _ V m := Permutation_refl _
|}.

Section HashIter.
Context `{HO : HashOrder} {K : Type} `{Countable K} {V : Type}.

Lemma elem_of_hash_iter (m : gmap K V) k v : (k, v) ∈ hash_iter m <-> m !! k = Some v.
Proof. rewrite hash_iter_perm. apply elem_of_map_to_list. Qed.

Lemma hash_iter_length (m : gmap K V) : length (hash_iter m) = size m.
Proof. now rewrite hash_iter_perm, length_map_to_list. Qed.
End HashIter.

Section MinBy.
Context {A : Type} (leb : A -> A -> bool).

(** The first of the least elements. *)
Fixpoint min_by (l : list A) : option A :=
  match l with
  | [] => None
  | x :: l => match min_by l with
              | Some y => Some (if leb x y then x else y)
              | None => Some x
              end
  end.

Lemma min_by_elem l x : min_by l = Some x -> x ∈ l.
Proof.
  revert x. induction l as [|y l IH]; intros x; simpl; [discriminate|].
  destruct (min_by l) as [z|]; intros [= <-]; [|left]. destruct (leb y z); [left|right; now apply IH].
Qed.

Lemma min_by_None l : min_by l = None <-> l = [].
Proof. destruct l; simpl; [easy|]. destruct (min_by l); easy. Qed.

Context (leb_refl : forall x, leb x x = true).
Context (leb_total : forall x y, leb x y = false -> leb y x = true).
Context (leb_trans : forall x y z, leb x y = true -> leb y z = true -> leb x z = true).

Lemma min_by_least l x y : min_by l = Some x -> y ∈ l -> leb x y = true.
Proof.
  revert x. induction l as [|z l IH]; intros x; simpl; [discriminate|].
  destruct (min_by l) as [w|] eqn:M.
  - intros [= <-] Hy. apply elem_of_cons in Hy as [->|Hy].
    + destruct (leb z w) eqn:E; [apply leb_refl|now apply leb_total].
    + specialize (IH w eq_refl Hy). destruct (leb z w) eqn:E; [now apply (leb_trans z w y)|exact IH].
  - apply min_by_None in M as ->. intros [= <-] Hy. apply list_elem_of_singleton in Hy as ->. apply leb_refl.
Qed.

(** Where ties are between equals, the order of the list does not matter. *)
Lemma min_by_perm l l' :
  (forall x y, x ∈ l -> y ∈ l -> leb x y = true -> leb y x = true -> x = y) ->
  l ≡ₚ l' -> min_by l = min_by l'.
Proof.
  intros T P. destruct (min_by l) as [x|] eqn:E, (min_by l') as [y|] eqn:E'.
  - f_equal. pose proof (min_by_elem _ _ E) as X. pose proof (min_by_elem _ _ E') as Y. rewrite <- P in Y.
    apply T; try assumption; [eapply min_by_least; eauto|].
    eapply min_by_least; [exact E'|]. now rewrite <- P.
  - apply min_by_None in E' as ->. apply Permutation_nil_r in P as ->. discriminate.
  - apply min_by_None in E as ->. symmetry in P. apply Permutation_nil_r in P as ->. discriminate.
  - reflexivity.
Qed.
End MinBy.

Section Dedup.
Context {A : Type} `{EqDecision A}.

(** Removes each element equal to the one before it. *)
Fixpoint dedup (l : list A) : list A :=
  match l with
  | x :: (y :: _) as l' => if bool_decide (x = y) then dedup l' else x :: dedup l'
  | l => l
  end.

Lemma elem_of_dedup l x : x ∈ dedup l <-> x ∈ l.
Proof.
  induction l as [|y l IH]; [reflexivity|]. destruct l as [|z l]; [reflexivity|].
  cbn [dedup]. rewrite (elem_of_cons (z :: l)), <- IH. case_bool_decide as E; [|now rewrite elem_of_cons].
  subst z. split; [now right|]. intros [->|?]; [|assumption]. rewrite IH. left.
Qed.

Lemma dedup_sublist l : sublist (dedup l) l.
Proof.
  induction l as [|y l IH]; [constructor|]. destruct l as [|z l]; [reflexivity|].
  cbn [dedup]. case_bool_decide; now constructor.
Qed.

End Dedup.
