(* ===== verification/Topology.v ===== *)
(** The epoch of the network topology: src/src/discovery/topology.rs.

    The operating system reports changes of interfaces and addresses on an
    event socket; [drain] reads it dry, and every batch of changes starts a new
    epoch.  Registrations quote the epoch they were made in. *)

From stdpp Require Import base list numbers relations.
From Stdlib Require Import ZArith Lia.
From S2P Require Import Prelude Encoding AudioQueue.

(** What one [recv] on the event socket gives. *)
Inductive EventRecv :=
| RecvEnd                      (** a datagram of no bytes *)
| RecvBytes (data : bytes)
| RecvAgain
| RecvError.

Inductive TopologyError := StreamEnded | StreamError.

Section Topology.

(** Whether a message is a change of an interface: on Linux the socket is
    subscribed to nothing else, on macOS the type of a routing message is its
    fourth byte, and [rtm_changes] are the types for links and addresses. *)
Inductive OS := Linux | MacOS (rtm_changes : list Z).

Definition is_change (os : OS) (data : bytes) : bool :=
  match os with
  | Linux => true
  | MacOS types =>
    (length data <? 4)%nat || match data !! 3%nat with Some t => bool_decide (t ∈ types) | None => false end
  end.

(** [Events::invalidate]. *)
Definition invalidate (epoch : Z) : Z := wrap_u64 (epoch + 1).

(** [Source::drain] on the answers of [recv]; [None] when they end before the
    socket is dry. *)
Fixpoint drain (os : OS) (rs : list EventRecv) (changed : bool) (epoch : Z) : option (Z * result unit TopologyError) :=
  match rs with
  | [] => None
  | RecvEnd :: _ => Some (invalidate epoch, Err StreamEnded)
  | RecvBytes data :: rs => drain os rs (changed || is_change os data) epoch
  | RecvAgain :: _ => Some (if changed then invalidate epoch else epoch, Ok tt)
  | RecvError :: _ => Some (invalidate epoch, Err StreamError)
  end.

(** [Topology::check]: the epoch after it, and its answer. *)
Definition check (os : OS) (rs : list EventRecv) (epoch : Z) : option (Z * result Z TopologyError) :=
  let! r := drain os rs false epoch in
  Some (fst r, match snd r with Ok _ => Ok (fst r) | Err e => Err e end).

(** [Topology::changed] returns once a check answers another epoch. *)
Fixpoint changed (os : OS) (rss : list (list EventRecv)) (quoted epoch : Z) : option (Z * result unit TopologyError) :=
  match rss with
  | [] => None
  | rs :: rss =>
    let! r := check os rs epoch in
    match snd r with
    | Err e => Some (fst r, Err e)
    | Ok now => if negb (now =? quoted) then Some (fst r, Ok tt) else changed os rss quoted (fst r)
    end
  end.

(** A run of checks: the epoch they leave. *)
Fixpoint checks (os : OS) (rss : list (list EventRecv)) (epoch : Z) : option Z :=
  match rss with
  | [] => Some epoch
  | rs :: rss => let! r := check os rs epoch in checks os rss (fst r)
  end.

(** A read that reports a change, or that the stream is no longer reliable. *)
Definition reports (os : OS) (rs : list EventRecv) : bool :=
  existsb (fun r => match r with RecvBytes data => is_change os data | RecvEnd | RecvError => true | RecvAgain => false end) rs.

End Topology.

Section TopologyProperties.

Lemma drain_epoch os rs ch epoch e r :
  drain os rs ch epoch = Some (e, r) -> e = epoch \/ e = invalidate epoch.
Proof.
  revert ch. induction rs as [|x rs IH]; intros ch; [discriminate|].
  destruct x; simpl; [intros [= <- _]; now right|apply IH| |intros [= <- _]; now right].
  destruct ch; intros [= <- _]; [now right|now left].
Qed.

(** Only the reads before the socket is dry count. *)
Lemma drain_reports os rs ch epoch e r :
  drain os rs ch epoch = Some (e, r) -> (forall a b, rs = a ++ RecvAgain :: b -> b = []) ->
  ch || reports os rs = true -> e = invalidate epoch.
Proof.
  revert ch. induction rs as [|x rs IH]; intros ch D L R; [discriminate|].
  destruct x; simpl in D.
  - now injection D as <- _.
  - refine (IH _ D _ _); [intros a b ->; exact (L (RecvBytes data :: a) b eq_refl)|].
    simpl in R. now rewrite <- orb_assoc.
  - injection D as <- _. rewrite (L [] rs eq_refl) in R. simpl in R. rewrite orb_false_r in R. now rewrite R.
  - now injection D as <- _.
Qed.

(** A check answers the epoch it leaves. *)
Lemma check_answer os rs epoch e now : check os rs epoch = Some (e, Ok now) -> now = e.
Proof.
  unfold check. destruct (drain os rs false epoch) as [[e' [u|err]]|]; simpl; [|discriminate|discriminate].
  intros [= <- <-]. reflexivity.
Qed.

Lemma check_epoch os rs epoch e r :
  check os rs epoch = Some (e, r) -> e = epoch \/ e = invalidate epoch.
Proof.
  unfold check. destruct (drain os rs false epoch) as [[e' u]|] eqn:D; [|discriminate]. simpl. intros [= <- _].
  exact (drain_epoch _ _ _ _ _ _ D).
Qed.

Lemma invalidate_exact epoch : 0 <= epoch -> epoch + 1 < 2 ^ 64 -> invalidate epoch = epoch + 1.
Proof. intros H1 H2. unfold invalidate, wrap_u64. apply Z.mod_small. lia. Qed.

Lemma checks_epoch os rss epoch e :
  0 <= epoch -> epoch + Z.of_nat (length rss) < 2 ^ 64 -> checks os rss epoch = Some e ->
  epoch <= e <= epoch + Z.of_nat (length rss).
Proof.
  revert epoch. induction rss as [|rs rss IH]; intros epoch H0 B C; cbn [length checks] in *.
  - injection C as <-. lia.
  - destruct (check os rs epoch) as [[e1 r]|] eqn:K; [|discriminate]. simpl in C.
    apply check_epoch in K. rewrite invalidate_exact in K by lia.
    assert (0 <= e1 /\ e1 + Z.of_nat (length rss) < 2 ^ 64) as [E1 E2] by lia.
    specialize (IH e1 E1 E2 C). lia.
Qed.

(** A lease never outlives a change of the topology: after a check has read
    any change, or the loss of the event stream, no later check answers the
    epoch the lease quotes again, even when the interfaces are back to exactly
    what they were; for the next 2^64 checks, counted from the first epoch. *)
Theorem lease_ends_with_topology os rs rss epoch e1 r1 e2 rs' e3 now :
  0 <= epoch -> epoch + 2 + Z.of_nat (length rss) < 2 ^ 64 ->
  (forall a b, rs = a ++ RecvAgain :: b -> b = []) -> reports os rs = true ->
  check os rs epoch = Some (e1, r1) -> checks os rss e1 = Some e2 -> check os rs' e2 = Some (e3, Ok now) ->
  now <> epoch.
Proof.
  intros H0 B L R C1 C2 C3. apply check_answer in C3 as E3. subst now.
  unfold check in C1. destruct (drain os rs false epoch) as [[e u]|] eqn:D; [|discriminate].
  injection C1 as <- _. simpl in C2. rewrite (drain_reports _ _ _ _ _ _ D L R), invalidate_exact in C2 by lia.
  apply checks_epoch in C2; [|lia|lia].
  apply check_epoch in C3. rewrite invalidate_exact in C3 by lia. lia.
Qed.

(** A watcher is woken by the first check that reads a change. *)
Lemma changed_returns os rs rss epoch :
  0 <= epoch -> epoch + 1 < 2 ^ 64 -> (forall a b, rs = a ++ RecvAgain :: b -> b = []) -> reports os rs = true ->
  is_Some (drain os rs false epoch) ->
  exists e r, changed os (rs :: rss) epoch epoch = Some (e, r).
Proof.
  intros H0 B L R [[e u] D]. unfold changed, check. rewrite D. simpl. destruct u as [[]|err]; simpl; [|eauto].
  rewrite (drain_reports _ _ _ _ _ _ D L R), invalidate_exact by lia.
  replace (epoch + 1 =? epoch) with false by lia. simpl. eauto.
Qed.

End TopologyProperties.
