(* ===== verification/NetworkScan.v ===== *)
(** The scan of the network interfaces: src/src/platform/network.rs, and the
    clients of its address list, src/src/discovery/interface_scanner.rs,
    src/src/discovery/ip_interface.rs and the registry of
    src/src/discovery/multi_interface_messenger.rs.

    What the operating system reports, through the crates network-interface
    and if-addrs, is the argument of the functions. *)

From stdpp Require Import base list numbers strings gmap sorting.
From Stdlib Require Import ZArith Lia.
From S2P Require Import Prelude Encoding Entries Collections.

#[export] Instance Ipv4Addr_countable : Countable Ipv4Addr.
Proof.
  apply (inj_countable' (fun a => (oct0 a, oct1 a, oct2 a, oct3 a)) (fun '(a, b, c, d) => MkIpv4 a b c d)).
  now intros [].
Defined.

(** [IpAddr], an IPv6 address as its 128 bits. *)
Inductive IpAddr := IpV4 (a : Ipv4Addr) | IpV6 (a : Z).

#[export] Instance IpAddr_eq_dec : EqDecision IpAddr.
Proof. solve_decision. Defined.
#[export] Instance IpAddr_countable : Countable IpAddr.
Proof.
  apply (inj_countable' (fun a => match a with IpV4 a => inl a | IpV6 a => inr a end)
           (fun s => match s with inl a => IpV4 a | inr a => IpV6 a end)). now intros [].
Defined.

(** ** Usable addresses *)

Definition is_loopback_v4 (a : Ipv4Addr) : bool := oct0 a =? 127.
Definition is_broadcast_v4 (a : Ipv4Addr) : bool := bool_decide (a = MkIpv4 255 255 255 255).
Definition is_multicast_v4 (a : Ipv4Addr) : bool := (224 <=? oct0 a) && (oct0 a <=? 239).
Definition is_link_local_v4 (a : Ipv4Addr) : bool := (oct0 a =? 169) && (oct1 a =? 254).

Definition is_usable_ipv4 (a : Ipv4Addr) : bool :=
  negb (is_loopback_v4 a) && negb (is_broadcast_v4 a) && negb (is_multicast_v4 a) && negb (is_unspecified a) &&
  negb (bool_decide (a = MkIpv4 0 0 0 0)).

(** [fe80::/10]. *)
Definition is_unicast_link_local_v6 (a : Z) : bool := Z.land (Z.shiftr a 112) 0xffc0 =? 0xfe80.
Definition is_loopback_v6 (a : Z) : bool := a =? 1.
Definition is_usable_ipv6 (a : Z) : bool := negb (is_loopback_v6 a) && is_unicast_link_local_v6 a.

Definition is_usable_interface (a : IpAddr) : bool :=
  match a with IpV4 a => is_usable_ipv4 a | IpV6 a => is_usable_ipv6 a end.

(** ** Adapters that are down *)

(** The indices with no entry that is up. *)
Definition down_indices (entries : list (Z * bool)) : gset Z :=
  let up := list_to_set (map fst (List.filter snd entries)) in
  let seen := list_to_set (map fst entries) in
  seen ∖ up.

(** An entry of [if_addrs::get_if_addrs]: the index, if known, the address and
    its mask, whether it is up and whether it is a loopback. *)
Record IfAddr := MkIfAddr {
  if_index : option Z;
  if_ip : IpAddr;
  if_netmask : option Ipv4Addr;
  if_up : bool;
  if_loopback : bool
}.

Definition if_status (i : IfAddr) : option (Z * bool) := let! x := if_index i in Some (x, if_up i).

Definition down_interface_indices (ifs : option (list IfAddr)) : gset Z :=
  match ifs with Some l => down_indices (omap if_status l) | None => ∅ end.

(** ** The interfaces of discovery *)

Record Ipv4Interface := MkInterface { if_addr : Ipv4Addr; if_idx : Z; if_name : string }.

#[export] Instance Ipv4Interface_eq_dec : EqDecision Ipv4Interface.
Proof. solve_decision. Defined.
#[export] Instance Ipv4Interface_countable : Countable Ipv4Interface.
Proof.
  apply (inj_countable' (fun i => (if_addr i, if_idx i, if_name i)) (fun '(a, b, c) => MkInterface a b c)).
  now intros [].
Defined.

(** [network_interface::NetworkInterface]. *)
Record NetworkInterface := MkNetif { ni_name : string; ni_index : Z; ni_addrs : list IpAddr }.

(** The order of [(interface.addr, interface.index)]. *)
Definition interface_leb (x y : Ipv4Interface) : bool :=
  let a := u32_of_ip (if_addr x) in let b := u32_of_ip (if_addr y) in
  (a <? b) || ((a =? b) && (if_idx x <=? if_idx y)).

Definition interface_of (i : NetworkInterface) (a : IpAddr) : option Ipv4Interface :=
  match a with
  | IpV4 a => if is_usable_ipv4 a && negb (ni_index i =? 0) then Some (MkInterface a (ni_index i) (ni_name i)) else None
  | IpV6 _ => None
  end.

Definition scan_discovery_interfaces (show : option (list NetworkInterface)) (ifs : option (list IfAddr))
  : option (list Ipv4Interface) :=
  let! interfaces := show in
  let down := down_interface_indices ifs in
  let result := concat (map (fun i => if bool_decide (ni_index i ∈ down) then [] else omap (interface_of i) (ni_addrs i))
                          interfaces) in
  Some (dedup (sort_by interface_leb result)).

(** ** The address list *)

Definition ip_leb (x y : IpAddr) : bool :=
  match x, y with
  | IpV4 a, IpV4 b => u32_of_ip a <=? u32_of_ip b
  | IpV4 _, IpV6 _ => true
  | IpV6 _, IpV4 _ => false
  | IpV6 a, IpV6 b => a <=? b
  end.

Definition usable_v4 (a : IpAddr) : bool := match a with IpV4 b => is_usable_ipv4 b | IpV6 _ => false end.
Definition usable_v6 (a : IpAddr) : bool := match a with IpV4 _ => false | IpV6 b => is_usable_ipv6 b end.

(** The usable IPv4 addresses of the adapters that are up, then the link-local
    IPv6 addresses of those adapters that had one. *)
Definition collect_interface_addresses (interfaces : list NetworkInterface) (down : gset Z) : list IpAddr :=
  let live := List.filter (fun i => negb (bool_decide (ni_index i ∈ down))) interfaces in
  let v4 := concat (map (fun i => List.filter usable_v4 (ni_addrs i)) live) in
  let named := List.filter (fun i => existsb usable_v4 (ni_addrs i)) live in
  let with_v4 i := existsb (fun j => (ni_index j =? ni_index i) && bool_decide (ni_name j = ni_name i)) named in
  v4 ++ concat (map (fun i => if with_v4 i then List.filter usable_v6 (ni_addrs i) else []) live).

Definition collect_fallback_addresses (ifs : list IfAddr) : list IpAddr :=
  let down := down_indices (omap if_status ifs) in
  List.filter is_usable_interface
    (map if_ip (List.filter (fun i => negb (match if_index i with Some x => bool_decide (x ∈ down) | None => false end)) ifs)).

Definition scan_interfaces_safe (show : option (list NetworkInterface)) (ifs : option (list IfAddr)) : list IpAddr :=
  let addresses :=
    match show with
    | Some interfaces => collect_interface_addresses interfaces (down_interface_indices ifs)
    | None => match ifs with Some l => collect_fallback_addresses l | None => [] end
    end in
  dedup (sort_by ip_leb addresses).

(** ** Clients of the address list *)

(** One tick of [InterfaceScanner]: the addresses the callback is called with. *)
Definition scanner_tick (last : option (gset IpAddr)) (found : list IpAddr) : option (gset IpAddr) * option (list IpAddr) :=
  let set := list_to_set found in
  if bool_decide (last = Some set) then (last, None) else (Some set, Some found).

Definition LINK_PORT : Z := 20808.
Definition MULTICAST_ADDR : Ipv4Addr := MkIpv4 224 76 78 75.
Definition MULTICAST_ADDR_V6 : Z := Z.lor (Z.shiftl 0xff12 112) 0x8080.

Definition multicast_endpoint_v4 : SocketAddrV4 := MkAddr MULTICAST_ADDR LINK_PORT.

(** [SocketAddr], the IPv6 one with its scope. *)
Inductive SocketAddr := SaV4 (a : SocketAddrV4) | SaV6 (a port scope : Z).

Definition multicast_endpoint_for_addr (a : IpAddr) : SocketAddr :=
  match a with IpV4 _ => SaV4 multicast_endpoint_v4 | IpV6 _ => SaV6 MULTICAST_ADDR_V6 LINK_PORT 0 end.

Definition to_socket_addr (a : IpAddr) : SocketAddr :=
  match a with IpV4 a => SaV4 (MkAddr a LINK_PORT) | IpV6 a => SaV6 a LINK_PORT 0 end.

Definition get_ipv6_scope_id (a : Z) : option Z := if is_unicast_link_local_v6 a then Some 0 else None.

(** [MultiInterfaceMessenger::update_interfaces]: [open] answers the handler of
    an address whose socket could be set up. *)
Definition update_interfaces {H : Type} (open : IpAddr -> option H) (handlers : gmap IpAddr H) (found : list IpAddr)
  : gmap IpAddr H :=
  let new_addrs : gset IpAddr := list_to_set found in
  let kept := filter (fun x => fst x ∈ new_addrs) handlers in
  set_fold (fun a m => match open a with Some h => <[a := h]> m | None => m end) kept (new_addrs ∖ dom handlers).

(** The sends of [send_unicast_internal], in the order the handlers are
    visited, up to the first that succeeds. *)
Definition same_version (target : SocketAddr) (a : IpAddr) : bool :=
  match target, a with SaV4 _, IpV4 _ | SaV6 _ _ _, IpV6 _ => true | _, _ => false end.

Fixpoint send_unicast_internal {H : Type} (send_ok : H -> bool) (handlers : list (IpAddr * H)) (target : SocketAddr)
  : option IpAddr :=
  match handlers with
  | [] => None
  | (a, h) :: rest =>
    if same_version target a && send_ok h then Some a else send_unicast_internal send_ok rest target
  end.

Definition send_multicast_internal {H : Type} (handlers : list (IpAddr * H)) : list (IpAddr * SocketAddr) :=
  map (fun x => (fst x, multicast_endpoint_for_addr (fst x))) handlers.

(** ** What a scan finds *)

Section ScanProperties.

Lemma elem_of_down_indices entries i :
  i ∈ down_indices entries <-> (exists up, (i, up) ∈ entries) /\ (i, true) ∉ entries.
Proof.
  unfold down_indices. rewrite elem_of_difference, !elem_of_list_to_set, !list_elem_of_In, !in_map_iff. split.
  - intros [([i' u] & <- & H) N]. simpl in *. split; [exists u; now apply list_elem_of_In|]. intros X. apply N.
    exists (i', true). split; [reflexivity|]. apply filter_In. now split.
  - intros [[u H] N]. apply list_elem_of_In in H. split; [exists (i, u); now split|].
    intros ([i' u'] & <- & X). apply filter_In in X as [X U]. simpl in *. subst u'. exact (N X).
Qed.

Lemma elem_of_concat_map {A B} (f : A -> list B) l y : y ∈ concat (map f l) <-> exists x, x ∈ l /\ y ∈ f x.
Proof.
  rewrite list_elem_of_In, in_concat. split.
  - intros (b & H & Y). apply in_map_iff in H as (x & <- & X). exists x. split; now apply list_elem_of_In.
  - intros (x & X & Y). exists (f x). split; [|now apply list_elem_of_In]. apply in_map_iff. exists x.
    split; [reflexivity|now apply list_elem_of_In].
Qed.

(** The scan reports exactly the usable IPv4 addresses of adapters that are
    not positively down, each with its adapter's index and name, ordered by
    address and index; one entry that is up is enough for an adapter to count. *)
Theorem scan_finds_usable interfaces ifs found :
  scan_discovery_interfaces (Some interfaces) (Some ifs) = Some found ->
  (forall x, x ∈ found <->
     (exists i, i ∈ interfaces /\ IpV4 (if_addr x) ∈ ni_addrs i /\ ni_index i = if_idx x /\ ni_name i = if_name x) /\
     is_usable_ipv4 (if_addr x) = true /\ if_idx x <> 0 /\
     ((forall up, (if_idx x, up) ∉ omap if_status ifs) \/ (if_idx x, true) ∈ omap if_status ifs)) /\
  StronglySorted (fun a b => interface_leb a b = true) found.
Proof.
  unfold scan_discovery_interfaces, down_interface_indices. simpl. intros [= <-]. split.
  - intros x. rewrite elem_of_dedup, sort_by_perm, elem_of_concat_map. split.
    + intros (i & I & X). case_bool_decide as D; [now apply elem_of_nil in X|]. apply list_elem_of_omap in X as (a & A & E).
      unfold interface_of in E. destruct a as [a|a]; [|discriminate]. destruct (_ && _) eqn:U; [|discriminate].
      injection E as <-. simpl. apply andb_true_iff in U as [U1 U2]. split; [exists i; auto|]. split; [exact U1|].
      split; [lia|]. rewrite elem_of_down_indices in D.
      destruct (decide ((ni_index i, true) ∈ omap if_status ifs)) as [H|H]; [now right|]. left. intros up Up. apply D. eauto.
    + intros ((i & I & A & E1 & E2) & U & N & D). exists i. split; [exact I|]. rewrite bool_decide_false.
      * apply list_elem_of_omap. exists (IpV4 (if_addr x)). split; [exact A|]. unfold interface_of. rewrite U, E1, E2.
        destruct x. simpl in *. replace (if_idx0 =? 0) with false by lia. reflexivity.
      * rewrite elem_of_down_indices, E1. intros [[up Up] X]. destruct D as [D|D]; [exact (D up Up)|exact (X D)].
  - assert (forall l : list Ipv4Interface, StronglySorted (fun a b => interface_leb a b = true) l ->
      StronglySorted (fun a b => interface_leb a b = true) (dedup l)) as Dd.
    { induction 1 as [|x l S IH F]; [constructor|]. destruct l as [|y l]; [repeat constructor|]. cbn [dedup].
      case_bool_decide; [exact IH|]. constructor; [exact IH|]. rewrite Forall_forall in *. intros z Hz.
      apply F. now apply (elem_of_dedup (y :: l)) in Hz. }
    apply Dd, (sort_by_sorted _ (fun _ => True)).
    + intros x y _ _. unfold interface_leb. lia.
    + intros x y z _ _ _. unfold interface_leb. lia.
    + now apply Forall_forall.
Qed.

(** The registry of the multi-interface messenger after a scan. *)
Lemma update_interfaces_lookup {H} (open : IpAddr -> option H) handlers found a :
  update_interfaces open handlers found !! a =
  if bool_decide (a ∈ found)
  then match handlers !! a with Some h => Some h | None => open a end
  else None.
Proof.
  unfold update_interfaces. set (kept := filter _ handlers). set (add := list_to_set found ∖ dom handlers).
  assert (forall m : gmap IpAddr H,
    let r := set_fold (fun b m => match open b with Some h => <[b := h]> m | None => m end) m add in
    (a ∈ add -> r !! a = match open a with Some h => Some h | None => m !! a end) /\ (a ∉ add -> r !! a = m !! a)) as Fold.
  { intros m. apply (set_fold_ind_L (fun (r : gmap IpAddr H) (s : gset IpAddr) =>
      (a ∈ s -> r !! a = match open a with Some h => Some h | None => m !! a end) /\ (a ∉ s -> r !! a = m !! a))).
    - split; [set_solver|reflexivity].
    - intros x s r Hx [IH1 IH2]. destruct (decide (x = a)) as [->|N].
      + split; [|set_solver]. intros _. specialize (IH2 Hx). destruct (open a); [apply lookup_insert_eq|exact IH2].
      + assert ((match open x with Some h => <[x := h]> r | None => r end) !! a = r !! a) as ->
          by (destruct (open x); [now apply lookup_insert_ne|reflexivity]).
        split; [intros I; apply IH1; set_solver|intros I; apply IH2; set_solver]. }
  destruct (Fold kept) as [Fold1 Fold2]. clear Fold. fold add kept. case_bool_decide as F.
  - destruct (handlers !! a) as [h|] eqn:E.
    + rewrite Fold2. 2:{ unfold add. rewrite elem_of_difference, elem_of_dom, E. intros [_ N]. now apply N. }
      apply map_lookup_filter_Some. split; [exact E|]. simpl. now apply elem_of_list_to_set.
    + rewrite Fold1. 2:{ unfold add. rewrite elem_of_difference, elem_of_list_to_set, not_elem_of_dom. now split. }
      destruct (open a); [reflexivity|]. apply map_lookup_filter_None. now left.
  - rewrite Fold2. 2:{ unfold add. rewrite elem_of_difference, elem_of_list_to_set. tauto. }
    apply map_lookup_filter_None. right. intros x _ X. simpl in X. now apply F, (elem_of_list_to_set (C := gset IpAddr)).
Qed.

End ScanProperties.
