(* ===== verification/MultiInterface.v ===== *)
(** [MultiInterfaceMessenger] of src/src/discovery/multi_interface_messenger.rs
    with the [InterfaceScanner] of src/src/discovery/interface_scanner.rs that
    drives it.

    The functions on the map of interfaces are those of [NetworkScan].  Here they
    run: scanners that report a change, updates spawned for them, the queue of
    messages with the task that sends them, and the tasks that receive.  A socket
    is a number, and stays open while the map or a task holds it.  A scan's result,
    which sockets open and which sends succeed come from outside.  One call of
    [start_receiving] is covered. *)

From stdpp Require Import base list numbers gmap relations.
From Stdlib Require Import ZArith Lia.
From S2P Require Import Prelude Encoding Collections Entries NetworkScan.

(** ** State *)

(** Where a scan loop stands: about to poll its [select!], waiting in it
    (perhaps with the notification already given), or scanning. *)
Inductive ScannerAt := Polls | Waits (notified : bool) | Scans.

#[global] Instance ScannerAt_eq_dec : EqDecision ScannerAt.
Proof. solve_decision. Defined.

Record ScanLoop := MkScanLoop { last_interfaces : option (gset IpAddr); scanner_at : ScannerAt }.

Definition Datagram : Type := SocketAddr * bytes.

Record ReceiveTask := MkReceiveTask { reads_from : nat; in_hand : option Datagram }.

Record Multi := MkMulti {
  interfaces : gmap IpAddr nat;
  next_socket : nat;
  scanners : list ScanLoop;
  permit : bool;
  updates : list (list IpAddr);
  clears : nat;
  outgoing : list (bytes * option SocketAddr);
  sent : list (bytes * option SocketAddr * list (IpAddr * SocketAddr));
  receivers : list ReceiveTask;
  waiting : list (nat * Datagram);
  channel : list Datagram;
  handled : list Datagram
}.

Definition with_interfaces (i : gmap IpAddr nat) (n : nat) (m : Multi) : Multi :=
  MkMulti i n (scanners m) (permit m) (updates m) (clears m) (outgoing m) (sent m) (receivers m) (waiting m) (channel m) (handled m).
Definition with_scanners (s : list ScanLoop) (p : bool) (m : Multi) : Multi :=
  MkMulti (interfaces m) (next_socket m) s p (updates m) (clears m) (outgoing m) (sent m) (receivers m) (waiting m) (channel m) (handled m).
Definition with_updates (u : list (list IpAddr)) (c : nat) (m : Multi) : Multi :=
  MkMulti (interfaces m) (next_socket m) (scanners m) (permit m) u c (outgoing m) (sent m) (receivers m) (waiting m) (channel m) (handled m).
Definition with_queue (o : list (bytes * option SocketAddr)) (s : list (bytes * option SocketAddr * list (IpAddr * SocketAddr))) (m : Multi) : Multi :=
  MkMulti (interfaces m) (next_socket m) (scanners m) (permit m) (updates m) (clears m) o s (receivers m) (waiting m) (channel m) (handled m).
Definition with_reception (r : list ReceiveTask) (w : list (nat * Datagram)) (c h : list Datagram) (m : Multi) : Multi :=
  MkMulti (interfaces m) (next_socket m) (scanners m) (permit m) (updates m) (clears m) (outgoing m) (sent m) r w c h.

(** [MultiInterfaceMessenger::new] up to the update for the interfaces found. *)
Definition Multi_new : Multi := MkMulti ∅ 0 [] false [] 0 [] [] [] [] [] [].

(** ** The scanner *)

(** [Notify::notify_one]: the first that waits, or a permit for the next. *)
Fixpoint notify_waiter (l : list ScanLoop) : option (list ScanLoop) :=
  match l with
  | [] => None
  | s :: l =>
      match scanner_at s with
      | Waits false => Some (MkScanLoop (last_interfaces s) (Waits true) :: l)
      | _ => let! l := notify_waiter l in Some (s :: l)
      end
  end.

Definition notify_scanner (m : Multi) : Multi :=
  match notify_waiter (scanners m) with
  | Some l => with_scanners l (permit m) m
  | None => with_scanners (scanners m) true m
  end.

(** [InterfaceScanner::enable], and [enable]: disabling clears the map once it
    has the lock. *)
Definition scanner_enable (on : bool) (m : Multi) : Multi :=
  if on then with_scanners (scanners m ++ [MkScanLoop None Polls]) (permit m) m else notify_scanner m.

Definition multi_enable (on : bool) (m : Multi) : Multi :=
  let m := scanner_enable on m in
  if on then m else with_updates (updates m) (S (clears m)) m.

Definition clear_interfaces (m : Multi) : Multi :=
  match clears m with O => m | S c => with_updates (updates m) c (with_interfaces ∅ (next_socket m) m) end.

(** A poll of the [select!]: [tick] says that the tick comes first.  One that
    begins to wait goes to the end of the list, so that those that wait are in the
    order they began to. *)
Definition scanner_polls (i : nat) (tick : bool) (m : Multi) : Multi :=
  match scanners m !! i with
  | Some (MkScanLoop last Polls) =>
      if tick then with_scanners (<[i := MkScanLoop last Scans]> (scanners m)) (permit m) m
      else if permit m then with_scanners (delete i (scanners m)) false m
      else with_scanners (delete i (scanners m) ++ [MkScanLoop last (Waits false)]) (permit m) m
  | Some (MkScanLoop last (Waits notified)) =>
      if tick then
        let m := with_scanners (<[i := MkScanLoop last Scans]> (scanners m)) (permit m) m in
        if notified then notify_scanner m else m
      else if notified then with_scanners (delete i (scanners m)) (permit m) m
      else m
  | _ => m
  end.

(** The scan's result; the callback spawns an update. *)
Definition scanner_scanned (i : nat) (found : list IpAddr) (m : Multi) : Multi :=
  match scanners m !! i with
  | Some (MkScanLoop last Scans) =>
      let '(last, report) := scanner_tick last found in
      let m := with_scanners (<[i := MkScanLoop last Polls]> (scanners m)) (permit m) m in
      match report with Some found => with_updates (updates m ++ [found]) (clears m) m | None => m end
  | _ => m
  end.

Definition scan_once (found : list IpAddr) (m : Multi) : Multi := with_updates (updates m ++ [found]) (clears m) m.

(** A spawned update: any of them may be next. *)
Definition run_update (i : nat) (opened : IpAddr -> option nat) (next : nat) (m : Multi) : Multi :=
  match updates m !! i with
  | Some found => with_updates (delete i (updates m)) (clears m) (with_interfaces (update_interfaces opened (interfaces m) found) next m)
  | None => m
  end.

(** ** Sending *)

Definition send_multicast (message : bytes) (m : Multi) : Multi := with_queue (outgoing m ++ [(message, None)]) (sent m) m.
Definition send_unicast (message : bytes) (target : SocketAddr) (m : Multi) : Multi :=
  with_queue (outgoing m ++ [(message, Some target)]) (sent m) m.

(** [send_message_internal] *)
Definition send_message_internal (send_ok : nat -> bool) (interfaces : list (IpAddr * nat)) (target : option SocketAddr)
  : list (IpAddr * SocketAddr) :=
  match target with
  | Some t => match send_unicast_internal send_ok interfaces t with Some a => [(a, t)] | None => [] end
  | None => send_multicast_internal interfaces
  end.

(** [order]: the entries of the map as its iterator visits them. *)
Definition send_next (send_ok : nat -> bool) (order : list (IpAddr * nat)) (m : Multi) : Multi :=
  match outgoing m with
  | [] => m
  | (message, target) :: rest =>
      with_queue rest (sent m ++ [((message, target), send_message_internal send_ok order target)]) m
  end.

(** ** Receiving *)

(** A turn of the producer: a task for every interface. *)
Definition spawn_receivers (m : Multi) : Multi :=
  with_reception (receivers m ++ map (fun x => MkReceiveTask (snd x) None) (map_to_list (interfaces m))) (waiting m) (channel m) (handled m) m.

Definition socket_open (s : nat) (m : Multi) : Prop :=
  (exists a, interfaces m !! a = Some s) \/ (exists r, r ∈ receivers m /\ reads_from r = s).

Definition arrives (s : nat) (d : Datagram) (m : Multi) : Multi :=
  with_reception (receivers m) (waiting m ++ [(s, d)]) (channel m) (handled m) m.

(** The oldest datagram of a socket. *)
Fixpoint take_from (s : nat) (w : list (nat * Datagram)) : option (Datagram * list (nat * Datagram)) :=
  match w with
  | [] => None
  | x :: w =>
      if (fst x =? s)%nat then Some (snd x, w)
      else let! (d, w) := take_from s w in Some (d, x :: w)
  end.

(** [recv_from] into a buffer of 1024 bytes. *)
Definition clip (d : Datagram) : Datagram := (fst d, take 1024 (snd d)).

Definition receives (i : nat) (m : Multi) : Multi :=
  match receivers m !! i with
  | Some (MkReceiveTask s None) =>
      match take_from s (waiting m) with
      | Some (d, w) => with_reception (<[i := MkReceiveTask s (Some (clip d))]> (receivers m)) w (channel m) (handled m) m
      | None => m
      end
  | _ => m
  end.

Definition forwards (i : nat) (m : Multi) : Multi :=
  match receivers m !! i with
  | Some (MkReceiveTask s (Some d)) =>
      with_reception (<[i := MkReceiveTask s None]> (receivers m)) (waiting m) (channel m ++ [d]) (handled m) m
  | _ => m
  end.

Definition receive_fails (i : nat) (m : Multi) : Multi :=
  match receivers m !! i with
  | Some (MkReceiveTask _ None) => with_reception (delete i (receivers m)) (waiting m) (channel m) (handled m) m
  | _ => m
  end.

Definition handles (m : Multi) : Multi :=
  match channel m with [] => m | d :: c => with_reception (receivers m) (waiting m) c (handled m ++ [d]) m end.

(** ** Steps *)

(** Sockets that an update opens are new. *)
Definition opens_new (opened : IpAddr -> option nat) (from next : nat) : Prop :=
  (from <= next)%nat /\ (forall a s, opened a = Some s -> (from <= s < next)%nat) /\
  (forall a b s, opened a = Some s -> opened b = Some s -> a = b).

Inductive MultiInput := Enabled (on : bool) | Asked (message : bytes) (target : option SocketAddr) | Arrived (d : Datagram).

Inductive multi_step : option MultiInput -> Multi -> Multi -> Prop :=
| MsEnable m on : multi_step (Some (Enabled on)) m (multi_enable on m)
| MsClear m : multi_step None m (clear_interfaces m)
| MsPolls m i tick : multi_step None m (scanner_polls i tick m)
| MsScanned m i found : multi_step None m (scanner_scanned i found m)
| MsScanOnce m found : multi_step None m (scan_once found m)
| MsUpdate m i opened next : opens_new opened (next_socket m) next -> multi_step None m (run_update i opened next m)
| MsMulticast m b : multi_step (Some (Asked b None)) m (send_multicast b m)
| MsUnicast m b t : multi_step (Some (Asked b (Some t))) m (send_unicast b t m)
| MsSend m send_ok order : order ≡ₚ map_to_list (interfaces m) -> multi_step None m (send_next send_ok order m)
| MsSpawn m : multi_step None m (spawn_receivers m)
| MsArrives m s d : socket_open s m -> multi_step (Some (Arrived d)) m (arrives s d m)
| MsReceives m i : multi_step None m (receives i m)
| MsForwards m i : multi_step None m (forwards i m)
| MsFails m i : multi_step None m (receive_fails i m)
| MsHandles m : multi_step None m (handles m).

Inductive multi_run : list MultiInput -> Multi -> Prop :=
| MrNew : multi_run [] Multi_new
| MrStep l i m m' : multi_run l m -> multi_step i m m' -> multi_run (l ++ option_list i) m'.

Definition asked (l : list MultiInput) : list (bytes * option SocketAddr) :=
  omap (fun i => match i with Asked b t => Some (b, t) | _ => None end) l.
Definition arrived (l : list MultiInput) : list Datagram :=
  omap (fun i => match i with Arrived d => Some d | _ => None end) l.

(** ** Nothing is lost or doubled *)

Section MultiProperties.
Implicit Types m : Multi.

Lemma send_unicast_found (send_ok : nat -> bool) order t :
  match send_unicast_internal send_ok order t with
  | Some a => exists s, (a, s) ∈ order /\ same_version t a = true /\ send_ok s = true
  | None => forall a s, (a, s) ∈ order -> same_version t a = true -> send_ok s = false
  end.
Proof.
  induction order as [|[a s] order IH]; cbn [send_unicast_internal]; [intros a s X; now apply elem_of_nil in X|].
  destruct (same_version t a && send_ok s) eqn:E.
  - apply andb_true_iff in E as [E1 E2]. exists s. split; [left|now split].
  - destruct (send_unicast_internal send_ok order t) as [b|].
    + destruct IH as (z & Z & IH). exists z. split; [now right|exact IH].
    + intros b z X V. apply elem_of_cons in X as [[= -> ->]|X]; [|now apply (IH b)]. now rewrite V in E.
Qed.

(** A message to one node leaves at most once, by an interface of its version; a
    message to all leaves once by each. *)
Definition sends_ok (x : bytes * option SocketAddr * list (IpAddr * SocketAddr)) : Prop :=
  match snd (fst x) with
  | Some t => snd x = [] \/ exists a, snd x = [(a, t)] /\ same_version t a = true
  | None => NoDup (map fst (snd x)) /\ Forall (fun y => snd y = multicast_endpoint_for_addr (fst y)) (snd x)
  end.

Lemma send_message_internal_ok send_ok order b t :
  NoDup (map fst order) -> sends_ok (b, t, send_message_internal send_ok order t).
Proof.
  intros N. destruct t as [t|]; cbn.
  - pose proof (send_unicast_found send_ok order t) as S. destruct (send_unicast_internal send_ok order t) as [a|]; [|now left].
    destruct S as (s & _ & V & _). right. eauto.
  - unfold send_multicast_internal. rewrite map_map. cbn. split; [exact N|]. now apply Forall_map, Forall_forall.
Qed.

Lemma take_from_perm s w d w' : take_from s w = Some (d, w') -> map snd w ≡ₚ d :: map snd w'.
Proof.
  revert w'. induction w as [|[k x] w IH]; intros w'; cbn [take_from]; [discriminate|].
  cbn [fst snd]. destruct (Nat.eqb_spec k s) as [->|_].
  - now intros [= <- <-].
  - destruct (take_from s w) as [[e v]|]; [|discriminate]. intros [= <- <-]. cbn. rewrite (IH _ eq_refl). constructor.
Qed.

Lemma omap_insert_perm {A B} (f : A -> option B) (l : list A) i x y :
  l !! i = Some x -> option_list (f x) ++ omap f (<[i := y]> l) ≡ₚ option_list (f y) ++ omap f l.
Proof.
  revert i. induction l as [|z l IH]; intros [|i]; try discriminate.
  - intros [= ->]. cbn. destruct (f x), (f y); cbn; try reflexivity. constructor.
  - intros E. cbn. specialize (IH i E). destruct (f z) as [b|]; [|exact IH].
    rewrite <- !Permutation_middle. now constructor.
Qed.

Lemma omap_delete_none {A B} (f : A -> option B) (l : list A) i x :
  l !! i = Some x -> f x = None -> omap f (delete i l) = omap f l.
Proof.
  revert i. induction l as [|z l IH]; intros [|i]; try discriminate.
  - intros [= ->] F. cbn. now rewrite F.
  - intros E F. cbn. destruct (f z); [f_equal|]; exact (IH i E F).
Qed.

(** Where the datagrams are. *)
Definition held m : list Datagram :=
  map clip (map snd (waiting m)) ++ omap in_hand (receivers m) ++ channel m ++ handled m.

Lemma notify_one_rest m :
  let m' := notify_scanner m in
  interfaces m' = interfaces m /\ next_socket m' = next_socket m /\ outgoing m' = outgoing m /\ sent m' = sent m /\ held m' = held m.
Proof. unfold notify_scanner. destruct (notify_waiter _); now repeat split. Qed.

(** What no step on the scanners touches. *)
Definition same_traffic m m' : Prop := outgoing m' = outgoing m /\ sent m' = sent m /\ held m' = held m.

Lemma scanner_polls_traffic i tick m : same_traffic m (scanner_polls i tick m) /\
  interfaces (scanner_polls i tick m) = interfaces m /\ next_socket (scanner_polls i tick m) = next_socket m.
Proof.
  unfold scanner_polls. destruct (scanners m !! i) as [[last [|[]|]]|], tick, (permit m); try (now repeat split).
  all: destruct (notify_one_rest (with_scanners (<[i := MkScanLoop last Scans]> (scanners m)) true m)) as (? & ? & ? & ? & ?),
    (notify_one_rest (with_scanners (<[i := MkScanLoop last Scans]> (scanners m)) false m)) as (? & ? & ? & ? & ?); now repeat split.
Qed.

Lemma receives_held i m : held (receives i m) ≡ₚ held m.
Proof.
  unfold receives. destruct (receivers m !! i) as [[s [d|]]|] eqn:E; try reflexivity.
  destruct (take_from s (waiting m)) as [[d w]|] eqn:T; [|reflexivity]. unfold held. cbn.
  pose proof (omap_insert_perm in_hand _ _ _ (MkReceiveTask s (Some (clip d))) E) as P. cbn in P. rewrite P.
  rewrite (fmap_Permutation clip _ _ (take_from_perm _ _ _ _ T)). cbn. now rewrite <- Permutation_middle.
Qed.

Lemma forwards_held i m : held (forwards i m) ≡ₚ held m.
Proof.
  unfold forwards. destruct (receivers m !! i) as [[s [d|]]|] eqn:E; try reflexivity. unfold held. cbn.
  pose proof (omap_insert_perm in_hand _ _ _ (MkReceiveTask s None) E) as P. cbn in P. rewrite <- P.
  apply Permutation_app_head. cbn. rewrite <- app_assoc. cbn. now rewrite !Permutation_middle.
Qed.

(** ** The invariant *)

Record multi_ok (l : list MultiInput) m : Prop := {
  ok_sent : asked l = map fst (sent m) ++ outgoing m;
  ok_sends : Forall sends_ok (sent m);
  ok_held : held m ≡ₚ map clip (arrived l);
  ok_bound : forall a s, interfaces m !! a = Some s -> (s < next_socket m)%nat;
  ok_own : forall a b s, interfaces m !! a = Some s -> interfaces m !! b = Some s -> a = b
}.

Lemma asked_app l k : asked (l ++ k) = asked l ++ asked k.
Proof. apply omap_app. Qed.
Lemma arrived_app l k : arrived (l ++ k) = arrived l ++ arrived k.
Proof. apply omap_app. Qed.

Lemma multi_ok_same l i m m' :
  multi_ok l m -> same_traffic m m' -> interfaces m' = interfaces m -> next_socket m' = next_socket m ->
  asked (option_list i) = [] -> arrived (option_list i) = [] -> multi_ok (l ++ option_list i) m'.
Proof.
  intros [S1 S2 H B O] (E1 & E2 & E3) E4 E5 A1 A2.
  split; rewrite ?asked_app, ?arrived_app, ?A1, ?A2, ?app_nil_r, ?E1, ?E2, ?E3, ?E4, ?E5; assumption.
Qed.

Lemma run_update_ok l i opened next m :
  multi_ok l m -> opens_new opened (next_socket m) next -> multi_ok (l ++ option_list None) (run_update i opened next m).
Proof.
  intros Ok (N1 & N2 & N3). rewrite app_nil_r. unfold run_update. destruct (updates m !! i) as [found|]; [|exact Ok].
  destruct Ok as [S1 S2 H B O]. split; try assumption; cbn.
  - intros a s. rewrite update_interfaces_lookup. case_bool_decide; [|discriminate].
    destruct (interfaces m !! a) as [s'|] eqn:E; [intros [= <-]; specialize (B a s' E); lia|apply N2].
  - intros a b s. rewrite !update_interfaces_lookup. do 2 (case_bool_decide; [|discriminate]).
    destruct (interfaces m !! a) as [s1|] eqn:E1, (interfaces m !! b) as [s2|] eqn:E2.
    + intros [= <-] [= ->]. now apply (O a b s1).
    + intros [= <-] X. specialize (B _ _ E1). apply N2 in X. lia.
    + intros X [= <-]. specialize (B _ _ E2). apply N2 in X. lia.
    + apply N3.
Qed.

Lemma multi_step_ok l i m m' : multi_ok l m -> multi_step i m m' -> multi_ok (l ++ option_list i) m'.
Proof.
  intros Ok St. destruct St as [m on|m|m i tick|m i found|m found|m i opened next N|m b|m b t|m f order P|m|m s d _|m i|m i|m i|m].
  - apply (multi_ok_same l _ m); try reflexivity; try exact Ok.
    all: unfold multi_enable, scanner_enable; destruct on; try (now repeat split).
    all: destruct (notify_one_rest m) as (? & ? & ? & ? & ?); now repeat split.
  - rewrite app_nil_r. unfold clear_interfaces. destruct (clears m); [exact Ok|].
    destruct Ok as [S1 S2 H B O]. split; try assumption; cbn; intros a; intros; now rewrite lookup_empty in *.
  - destruct (scanner_polls_traffic i tick m) as (T & E1 & E2). now apply (multi_ok_same l _ m).
  - apply (multi_ok_same l _ m); try reflexivity; try exact Ok.
    all: unfold scanner_scanned; destruct (scanners m !! i) as [[last []]|]; try (now repeat split).
    all: destruct (scanner_tick last found) as [q [r|]]; now repeat split.
  - now apply (multi_ok_same l _ m).
  - now apply run_update_ok.
  - destruct Ok as [S1 S2 H B O]. split; try assumption; rewrite ?asked_app, ?arrived_app; cbn.
    + now rewrite S1, app_assoc.
    + now rewrite app_nil_r.
  - destruct Ok as [S1 S2 H B O]. split; try assumption; rewrite ?asked_app, ?arrived_app; cbn.
    + now rewrite S1, app_assoc.
    + now rewrite app_nil_r.
  - rewrite app_nil_r. unfold send_next. destruct (outgoing m) as [|[b t] rest] eqn:E; [exact Ok|].
    destruct Ok as [S1 S2 H B O]. split; try assumption; cbn.
    + rewrite S1, E, map_app, <- app_assoc. reflexivity.
    + apply Forall_app. split; [exact S2|]. constructor; [|constructor]. apply send_message_internal_ok.
      rewrite (fmap_Permutation fst _ _ P). apply NoDup_fst_map_to_list.
  - rewrite app_nil_r. destruct Ok as [S1 S2 H B O]. split; try assumption. unfold held in *. cbn. rewrite omap_app.
    replace (omap in_hand (map _ _)) with (@nil Datagram); [now rewrite app_nil_r|].
    induction (map_to_list (interfaces m)); [reflexivity|assumption].
  - destruct Ok as [S1 S2 H B O]. split; try assumption; rewrite ?asked_app, ?arrived_app; cbn.
    + now rewrite app_nil_r.
    + unfold held in *. cbn. rewrite !map_app. cbn. rewrite <- H, <- !app_assoc. apply Permutation_app_head.
      etransitivity; [apply Permutation_cons_append|now rewrite <- !app_assoc].
  - rewrite app_nil_r. destruct Ok as [S1 S2 H B O]. split; try (now rewrite receives_held).
    all: unfold receives; repeat case_match; assumption.
  - rewrite app_nil_r. destruct Ok as [S1 S2 H B O]. split; try (now rewrite forwards_held).
    all: unfold forwards; repeat case_match; assumption.
  - apply (multi_ok_same l _ m); try reflexivity; try exact Ok.
    all: unfold receive_fails; destruct (receivers m !! i) as [[s [d|]]|] eqn:E; try (now repeat split).
    repeat split. unfold held. cbn. now rewrite (omap_delete_none _ _ _ _ E).
  - rewrite app_nil_r. unfold handles. destruct (channel m) as [|d c] eqn:E; [exact Ok|].
    destruct Ok as [S1 S2 H B O]. split; try assumption. rewrite <- H. unfold held. cbn. rewrite E.
    do 2 apply Permutation_app_head. rewrite app_assoc, (Permutation_app_comm _ [d]). reflexivity.
Qed.

Lemma multi_run_ok l m : multi_run l m -> multi_ok l m.
Proof.
  induction 1 as [|l i m m' _ IH St]; [|now apply (multi_step_ok l i m)].
  split; try reflexivity; try constructor; cbn; intros a; intros; now rewrite lookup_empty in *.
Qed.


(** ** What the messenger promises *)

(** Whatever the scanners and the updates do in between, messages leave in the
    order they were asked for, each once: one for a single node by at most one
    interface, of the node's version, and one for all by every interface there is,
    once.  Every datagram that arrived, cut to the buffer, is in exactly one place:
    at its socket, with a task, in the channel or handled.  No two interfaces share
    a socket. *)
Theorem multi_interface_delivers l m :
  multi_run l m ->
  asked l = map fst (sent m) ++ outgoing m /\ Forall sends_ok (sent m) /\
  map clip (map snd (waiting m)) ++ omap in_hand (receivers m) ++ channel m ++ handled m ≡ₚ map clip (arrived l) /\
  (forall a b s, interfaces m !! a = Some s -> interfaces m !! b = Some s -> a = b).
Proof. intros R. destruct (multi_run_ok l m R) as [S1 S2 H _ O]. now repeat split. Qed.

(** A message for all visits every interface; one for a node is given up only
    when no interface of its version can send it. *)
Lemma sends_reach f order :
  (forall a s, (a, s) ∈ order -> (a, multicast_endpoint_for_addr a) ∈ send_message_internal f order None) /\
  (forall t, send_message_internal f order (Some t) = [] -> forall a s, (a, s) ∈ order -> same_version t a = true -> f s = false).
Proof.
  split.
  - intros a s X. cbn. unfold send_multicast_internal.
    apply (list_elem_of_fmap_2 (fun x : IpAddr * nat => (fst x, multicast_endpoint_for_addr (fst x))) _ _ X).
  - intros t E a s X V. cbn in E. pose proof (send_unicast_found f order t) as U.
    destruct (send_unicast_internal f order t); [discriminate|]. now apply (U a s).
Qed.

(** An update leaves the addresses its scan found, as far as their sockets open;
    one that was there keeps its socket. *)
Lemma run_update_interfaces i opened next m found a :
  updates m !! i = Some found ->
  interfaces (run_update i opened next m) !! a =
    if bool_decide (a ∈ found) then match interfaces m !! a with Some s => Some s | None => opened a end else None.
Proof. intros E. unfold run_update. rewrite E. apply update_interfaces_lookup. Qed.

(** ** Where it falls short *)

(** Each turn of the producer adds a task for every interface, whether or not it
    has one. *)
Lemma receivers_pile_up n m :
  length (receivers (Nat.iter n spawn_receivers m)) = (length (receivers m) + n * length (map_to_list (interfaces m)))%nat.
Proof.
  assert (forall k, interfaces (Nat.iter k spawn_receivers m) = interfaces m) as E by (intros k; induction k; [reflexivity|assumption]).
  induction n as [|n IH]; [cbn; lia|]. change (Nat.iter (S n) spawn_receivers m) with (spawn_receivers (Nat.iter n spawn_receivers m)).
  unfold spawn_receivers at 1. cbn [receivers with_reception]. rewrite length_app, IH, length_map, E. lia.
Qed.

Definition an_address : IpAddr := IpV4 (MkIpv4 192 168 0 7).
Definition opens (s : nat) (a : IpAddr) : option nat := if bool_decide (a = an_address) then Some s else None.

Lemma opens_opens_new s : opens_new (opens s) s (S s).
Proof.
  split; [lia|]. split.
  - intros a k. unfold opens. case_bool_decide; [intros [= <-]; lia|discriminate].
  - intros a b k. unfold opens. do 2 (case_bool_decide; [|discriminate]). congruence.
Qed.

(** A run, a step at a time. *)
Lemma run_quiet l m m' : multi_run l m -> multi_step None m m' -> multi_run l m'.
Proof. intros R S. rewrite <- (app_nil_r l). apply (MrStep l None m m' R S). Qed.

Lemma run_input l i m m' : multi_run l m -> multi_step (Some i) m m' -> multi_run (l ++ [i]) m'.
Proof. intros R S. apply (MrStep l (Some i) m m' R S). Qed.

(** An interface found and opened by the first scan. *)
Definition found_one : Multi := scanner_scanned 0 [an_address] (scanner_polls 0 true (multi_enable true Multi_new)).
Definition scanned_one : Multi := run_update 0 (opens 0) 1 found_one.

Lemma found_one_run : multi_run [Enabled true] found_one.
Proof. exact (run_quiet _ _ _ (run_quiet _ _ _ (run_input [] _ _ _ MrNew (MsEnable _ _)) (MsPolls _ _ _)) (MsScanned _ _ _)). Qed.

Lemma scanned_one_run : multi_run [Enabled true] scanned_one.
Proof. exact (run_quiet _ _ _ found_one_run (MsUpdate found_one 0 (opens 0) 1 (opens_opens_new 0))). Qed.

Definition listening_one : Multi := spawn_receivers scanned_one.
Definition unheard : Multi := clear_interfaces (multi_enable false listening_one).

Lemma unheard_run : multi_run [Enabled true; Enabled false] unheard.
Proof.
  refine (run_quiet _ _ _ _ (MsClear _)). refine (run_input [Enabled true] _ listening_one _ _ (MsEnable _ _)).
  exact (run_quiet _ _ _ scanned_one_run (MsSpawn _)).
Qed.

(** What comes in by an interface that was removed is still handled: the tasks
    keep its socket open. *)
Lemma removed_interface_still_heard d :
  exists m, multi_run [Enabled true; Enabled false; Arrived d] m /\ interfaces m = ∅ /\ handled m = [clip d].
Proof.
  exists (handles (forwards 0 (receives 0 (arrives 0 d unheard)))). split; [|now split].
  refine (run_quiet _ _ _ (run_quiet _ _ _ (run_quiet _ _ _ _ (MsReceives _ _)) (MsForwards _ _)) (MsHandles _)).
  apply (run_input [Enabled true; Enabled false] _ unheard); [apply unheard_run|].
  constructor. right. exists (MkReceiveTask 0 None). split; [|reflexivity]. vm_compute. left.
Qed.

(** The switch does not hold what it promises.  An update spawned before the
    messenger was disabled brings its interface back after; a notification that
    found no scanner ends the next one before it scans; and of two scanners one
    goes on. *)
Lemma switch_unreliable :
  (exists m, multi_run [Enabled true; Enabled false] m /\ scanners m = [] /\ updates m = [] /\ clears m = O /\
     interfaces m = {[an_address := O]}) /\
  (exists m, multi_run [Enabled false; Enabled true] m /\ scanners m = [] /\ updates m = [] /\ clears m = O /\ interfaces m = ∅) /\
  (exists m, multi_run [Enabled true; Enabled true; Enabled false] m /\ scanners m = [MkScanLoop None Polls] /\ permit m = false /\ clears m = O).
Proof.
  split; [|split].
  - exists (scanner_polls 0 false (run_update 0 (opens 0) 1 (clear_interfaces (multi_enable false found_one)))).
    split; [|repeat split; vm_compute; reflexivity].
    refine (run_quiet _ _ _ (run_quiet _ _ _ (run_quiet _ _ _ _ (MsClear _)) (MsUpdate (clear_interfaces (multi_enable false found_one)) 0 (opens 0) 1 (opens_opens_new 0))) (MsPolls _ _ _)).
    exact (run_input [Enabled true] _ _ _ found_one_run (MsEnable _ _)).
  - exists (scanner_polls 0 false (multi_enable true (clear_interfaces (multi_enable false Multi_new)))).
    split; [|repeat split; vm_compute; reflexivity].
    refine (run_quiet _ _ _ (run_input [Enabled false] _ _ _ (run_quiet _ _ _ _ (MsClear _)) (MsEnable _ _)) (MsPolls _ _ _)).
    exact (run_input [] _ _ _ MrNew (MsEnable _ _)).
  - exists (scanner_polls 0 false (clear_interfaces (multi_enable false (multi_enable true (multi_enable true Multi_new))))).
    split; [|repeat split; vm_compute; reflexivity].
    refine (run_quiet _ _ _ (run_quiet _ _ _ (run_input [Enabled true; Enabled true] _ _ _ _ (MsEnable _ _)) (MsClear _)) (MsPolls _ _ _)).
    exact (run_input [Enabled true] _ _ _ (run_input [] _ _ _ MrNew (MsEnable _ _)) (MsEnable _ _)).
Qed.
End MultiProperties.
