(* ===== verification/Interfaces.v ===== *)
(** The registry of interface sockets: [LocalDelivery], [InterfaceSocket],
    [add_interface_locked], [remove_interface_locked],
    [reconcile_interfaces_locked] and [socket_for_ingress] of
    src/src/discovery/messenger.rs.

    A registration is a socket of its own: its send and receive handles, its
    cancellation flag and its local-delivery table are created together and
    shared by its leases, so one number stands for all of them.  What the
    operating system answers to the set-up of a socket is an argument. *)

From stdpp Require Import base list numbers strings gmap relations.
From Stdlib Require Import ZArith Lia.
From S2P Require Import Prelude Encoding Entries AudioQueue Collections NetworkScan.

(** ** The host's own addresses *)

Record LocalIdentity := MkIdentity {
  loopback_indices : gset Z;
  addresses : gset IpAddr;
  subnets : gmap (Z * Ipv4Addr) Ipv4Addr
}.

Definition LocalIdentity_default : LocalIdentity := MkIdentity ∅ ∅ ∅.

Definition identity_of_host (ifs : option (list IfAddr)) : LocalIdentity :=
  match ifs with
  | None => LocalIdentity_default
  | Some l =>
    MkIdentity
      (list_to_set (omap if_index (List.filter if_loopback l)))
      (list_to_set (map if_ip l))
      (fold_left (fun m i =>
         match if_index i, if_ip i, if_netmask i with
         | Some x, IpV4 a, Some mask => <[(x, a) := mask]> m
         | _, _, _ => m
         end) l ∅)
  end.

Definition same_subnet (id : LocalIdentity) (index : Z) (address : Ipv4Addr) (source : IpAddr) : bool :=
  match source with
  | IpV6 _ => false
  | IpV4 source =>
    match subnets id !! (index, address) with
    | Some mask => Z.land (u32_of_ip address) (u32_of_ip mask) =? Z.land (u32_of_ip source) (u32_of_ip mask)
    | None => false
    end
  end.

(** [index] is the 64-bit index of the packet metadata. *)
Definition accepts (id : LocalIdentity) (index : Z) (source : IpAddr) : bool :=
  (0 <=? index) && (index <=? u32_MAX) && bool_decide (index ∈ loopback_indices id) && bool_decide (source ∈ addresses id).

(** ** Registrations *)

(** [managed]: the registration quotes a topology epoch, [generation]. *)
Record Registration := MkReg {
  reg_id : nat;
  identity : Ipv4Interface;
  managed : bool;
  generation : Z;
  measurement_responder : bool
}.

#[export] Instance Registration_eq_dec : EqDecision Registration.
Proof. solve_decision. Defined.

Record Group := MkGroup { root : Registration; siblings : list Registration }.
Definition registrations (g : Group) : list Registration := root g :: siblings g.

(** The registry with what its sockets share: [memberships] are the indices the
    multicast socket has joined, [spawned] the receive loops started. *)
Record Interfaces := MkInterfaces {
  sockets : gmap Ipv4Addr Group;
  deliveries : gmap nat LocalIdentity;
  cancelled : gset nat;
  memberships : gset Z;
  next_id : nat;
  spawned : list nat;
  gateways_changed : Z
}.

Definition Interfaces_new : Interfaces := MkInterfaces ∅ ∅ ∅ ∅ 0 [] 0.

Definition with_sockets (m : gmap Ipv4Addr Group) (w : Interfaces) : Interfaces :=
  MkInterfaces m (deliveries w) (cancelled w) (memberships w) (next_id w) (spawned w) (gateways_changed w).

Section Interfaces.
Context `{HO : HashOrder}.

Definition all_registrations (w : Interfaces) : list Registration :=
  concat (map (fun x => registrations (snd x)) (hash_iter (sockets w))).

(** [InterfaceSocket::is_current]; [epoch] is what the topology answers, [None]
    an error. *)
Definition is_current (w : Interfaces) (epoch : option Z) (r : Registration) : option bool :=
  if bool_decide (reg_id r ∈ cancelled w) then Some false
  else if managed r then let! now := epoch in Some (now =? generation r)
  else Some true.

(** The socket of a lease is still in the registry, under its address. *)
Definition registered_lease (w : Interfaces) (r : Registration) : bool :=
  match sockets w !! if_addr (identity r) with
  | Some g => existsb (fun e => (reg_id e =? reg_id r)%nat) (registrations g)
  | None => false
  end.

(** [MeasurementRoute::try_while_current] lets its closure run. *)
Definition while_current (w : Interfaces) (epoch : option Z) (r : Registration) : bool :=
  registered_lease w r && match is_current w epoch r with Some b => b | None => false end.


Inductive SendError := TopologyCheckFailed | LeaseInvalid | SendFailed.

(** [send_registered] on a socket that is writable; [sent] is how the send
    itself ends. *)
Definition send_registered (w : Interfaces) (epoch : option Z) (sent : bool) (r : Registration) : result unit SendError :=
  match is_current w epoch r with
  | None => Err TopologyCheckFailed
  | Some valid => if negb (registered_lease w r) || negb valid then Err LeaseInvalid
                  else if sent then Ok tt else Err SendFailed
  end.

(** ** Adding and removing *)

Inductive SetupError := OpenFailed | AlreadyExists | TopologyFailed | NotConnected | MembershipFailed.

#[export] Instance SetupError_eq_dec : EqDecision SetupError.
Proof. solve_decision. Defined.

(** The operating system's answers while an interface is set up. *)
Record SetupOs := MkSetupOs { os_open : bool; os_topology : option Z; os_join : bool }.

Definition add_interface_locked (i : Ipv4Interface) (topology : bool) (gen : Z) (responder : bool) (local : LocalIdentity)
    (os : SetupOs) (w : Interfaces) : Interfaces * result Registration SetupError :=
  if negb (os_open os) then (w, Err OpenFailed)
  else
    let entry := MkReg (next_id w) i topology gen responder in
    if existsb (fun e => bool_decide (identity e = i)) (all_registrations w) then (w, Err AlreadyExists)
    else match is_current w (os_topology os) entry with
    | None => (w, Err TopologyFailed)
    | Some false => (w, Err NotConnected)
    | Some true =>
      let joined := existsb (fun e => if_idx (identity e) =? if_idx i) (all_registrations w) in
      if negb joined && negb (os_join os) then (w, Err MembershipFailed)
      else
        let group := match sockets w !! if_addr i with
                     | Some g => MkGroup (root g) (siblings g ++ [entry])
                     | None => MkGroup entry []
                     end in
        (MkInterfaces (<[if_addr i := group]> (sockets w)) (<[next_id w := local]> (deliveries w)) (cancelled w)
           ({[if_idx i]} ∪ memberships w) (S (next_id w)) (spawned w) (gateways_changed w), Ok entry)
    end.

(** [Vec::remove] of the first registration of an interface. *)
Fixpoint take_identity (i : Ipv4Interface) (l : list Registration) : option Registration * list Registration :=
  match l with
  | [] => (None, [])
  | e :: l => if bool_decide (identity e = i) then (Some e, l)
              else let '(r, l') := take_identity i l in (r, e :: l')
  end.

(** What is left of a group when its root goes: the last sibling is the root. *)
Definition promote (l : list Registration) : option Group :=
  match last l with Some e => Some (MkGroup e (removelast l)) | None => None end.

Definition remove_from_map (i : Ipv4Interface) (m : gmap Ipv4Addr Group) : option Registration * gmap Ipv4Addr Group :=
  match m !! if_addr i with
  | None => (None, m)
  | Some g =>
    if bool_decide (identity (root g) = i)
    then (Some (root g), match promote (siblings g) with
                         | Some g' => <[if_addr i := g']> m
                         | None => delete (if_addr i) m
                         end)
    else let '(r, l) := take_identity i (siblings g) in (r, <[if_addr i := MkGroup (root g) l]> m)
  end.

Definition remove_interface_locked (leaves : bool) (i : Ipv4Interface) (w : Interfaces) : Interfaces :=
  let '(r, m) := remove_from_map i (sockets w) in
  let w := with_sockets m w in
  match r with
  | None => w
  | Some e =>
    let still := existsb (fun o => if_idx (identity o) =? if_idx i) (all_registrations w) in
    MkInterfaces m (deliveries w) ({[reg_id e]} ∪ cancelled w)
      (if negb still && leaves then memberships w ∖ {[if_idx i]} else memberships w)
      (next_id w) (spawned w) (gateways_changed w)
  end.

(** ** Reconciling with a scan *)

Notation SetupFailures := (gmap Ipv4Interface SetupError).
Definition failed (i : Ipv4Interface) (e : SetupError) (f : SetupFailures) : SetupFailures :=
  if bool_decide (f !! i = Some e) then f else <[i := e]> f.
Definition forget_except (current : list Ipv4Interface) (f : SetupFailures) : SetupFailures :=
  filter (fun x => fst x ∈ current) f.

Definition refresh_all (local : LocalIdentity) (w : Interfaces) : Interfaces :=
  MkInterfaces (sockets w) (fold_left (fun m e => <[reg_id e := local]> m) (all_registrations w) (deliveries w))
    (cancelled w) (memberships w) (next_id w) (spawned w) (gateways_changed w).

Definition stale_addrs (current : list Ipv4Interface) (gen : Z) (w : Interfaces) : list Ipv4Interface :=
  map identity (List.filter (fun e => negb (bool_decide (identity e ∈ current)) || negb (generation e =? gen))
                  (all_registrations w)).

Definition new_addrs (current : list Ipv4Interface) (gen : Z) (w : Interfaces) : list Ipv4Interface :=
  List.filter (fun i => negb (bool_decide (i ∈ map identity (all_registrations w))) ||
                        bool_decide (i ∈ stale_addrs current gen w)) current.

Definition remove_all (leaves : Z -> bool) (l : list Ipv4Interface) (w : Interfaces) : Interfaces :=
  fold_left (fun w i => remove_interface_locked (leaves (if_idx i)) i w) l w.

Record Pass := MkPass { pass_world : Interfaces; pass_failures : SetupFailures; pass_changed : bool }.

Definition add_one (topology : bool) (gen : Z) (responder : bool) (local : LocalIdentity) (os : Ipv4Interface -> SetupOs)
    (p : Pass) (i : Ipv4Interface) : Pass :=
  match add_interface_locked i topology gen responder local (os i) (pass_world p) with
  | (w, Ok e) =>
    MkPass (MkInterfaces (sockets w) (deliveries w) (cancelled w) (memberships w) (next_id w) (spawned w ++ [reg_id e])
              (gateways_changed w)) (delete i (pass_failures p)) true
  | (w, Err err) => MkPass w (failed i err (pass_failures p)) (pass_changed p)
  end.

Definition reconcile_interfaces_locked (topology responder : bool) (current : list Ipv4Interface) (local : LocalIdentity)
    (gen : Z) (os : Ipv4Interface -> SetupOs) (leaves : Z -> bool) (f : SetupFailures) (w : Interfaces)
  : Interfaces * SetupFailures :=
  let f := forget_except current f in
  let stale := stale_addrs current gen w in
  let fresh := new_addrs current gen w in
  let w := remove_all leaves stale (refresh_all local w) in
  let p := fold_left (add_one topology gen responder local os) fresh (MkPass w f (match stale with [] => false | _ => true end)) in
  let w := pass_world p in
  (if pass_changed p
   then MkInterfaces (sockets w) (deliveries w) (cancelled w) (memberships w) (next_id w) (spawned w)
          (wrap_u64 (gateways_changed w + 1))
   else w, pass_failures p).

(** [reconcile_interfaces_async]: a scan that straddles a change of the
    topology is not applied. *)
Definition reconcile_interfaces_async (topology responder : bool) (current : list Ipv4Interface) (local : LocalIdentity)
    (gen : Z) (now : option Z) (os : Ipv4Interface -> SetupOs) (leaves : Z -> bool) (f : SetupFailures) (w : Interfaces)
  : Interfaces * SetupFailures :=
  if topology && negb (bool_decide (now = Some gen)) then (w, f)
  else reconcile_interfaces_locked topology responder current local gen os leaves f w.

Definition set_responder (r : Registration) : Registration := MkReg (reg_id r) (identity r) (managed r) (generation r) true.

Definition set_measurement_responder (w : Interfaces) : Interfaces :=
  with_sockets ((fun g => MkGroup (set_responder (root g)) (map set_responder (siblings g))) <$> sockets w) w.

(** ** Ingress *)

Definition delivery (w : Interfaces) (r : Registration) : LocalIdentity :=
  default LocalIdentity_default (deliveries w !! reg_id r).

Definition bool_ltb (a b : bool) : bool := negb a && b.

(** The order of the sort key of [socket_for_ingress]. *)
Definition key_leb (x y : bool * bool * bool * Z) : bool :=
  let '(a1, a2, a3, a4) := x in let '(b1, b2, b3, b4) := y in
  bool_ltb a1 b1 || (eqb a1 b1 && (bool_ltb a2 b2 || (eqb a2 b2 && (bool_ltb a3 b3 || (eqb a3 b3 && (a4 <=? b4)))))).

Definition ingress_key (w : Interfaces) (destination source : IpAddr) (e : Registration) : bool * bool * bool * Z :=
  (negb (bool_decide (IpV4 (if_addr (identity e)) = destination)),
   negb (eqb (match source with IpV4 ip => is_link_local_v4 ip | IpV6 _ => false end) (is_link_local_v4 (if_addr (identity e)))),
   negb (same_subnet (delivery w e) (if_idx (identity e)) (if_addr (identity e)) source),
   u32_of_ip (if_addr (identity e))).

Definition socket_for_ingress (w : Interfaces) (index : Z) (destination source : IpAddr) : option Registration :=
  min_by (fun x y => key_leb (ingress_key w destination source x) (ingress_key w destination source y))
    (List.filter (fun e => (if_idx (identity e) =? index) && negb (bool_decide (reg_id e ∈ cancelled w)))
       (all_registrations w)).

(** The route of a received datagram: [receiver] is the socket it was read
    from when that is an interface socket.  [None]: the check of the topology
    failed. *)
Definition receive_route (w : Interfaces) (epoch : option Z) (receiver : option nat) (measurement : bool) (index : Z)
    (destination source : IpAddr) : option (option Registration) :=
  let route :=
    match receiver, measurement with
    | Some id, true =>
      List.find (fun e => (reg_id e =? id)%nat && bool_decide (destination = IpV4 (if_addr (identity e))) &&
                          ((index =? if_idx (identity e)) || accepts (delivery w e) index source)) (all_registrations w)
    | _, _ => socket_for_ingress w index destination source
    end in
  match route with
  | None => Some None
  | Some e => let! cur := is_current w epoch e in Some (if cur then Some e else None)
  end.

End Interfaces.

(** ** The registry's invariant *)

Section Registry.
Context `{HO : HashOrder}.

Definition registered (w : Interfaces) (r : Registration) : Prop :=
  exists a g, sockets w !! a = Some g /\ r ∈ registrations g.

Lemma elem_of_all_registrations w r : r ∈ all_registrations w <-> registered w r.
Proof.
  unfold all_registrations, registered. rewrite elem_of_concat_map. split.
  - intros ([a g] & H & R). apply elem_of_hash_iter in H. eauto.
  - intros (a & g & H & R). exists (a, g). split; [now apply elem_of_hash_iter|exact R].
Qed.

(** The shape of the map: each group under its own address, and no interface
    twice. *)
Definition map_ok (m : gmap Ipv4Addr Group) : Prop :=
  forall a g, m !! a = Some g ->
    NoDup (map identity (registrations g)) /\ Forall (fun r => if_addr (identity r) = a) (registrations g).

Record registry_ok (w : Interfaces) : Prop := {
  ok_map : map_ok (sockets w);
  ok_ids : forall r r', registered w r -> registered w r' -> reg_id r = reg_id r' -> r = r';
  ok_live : forall r, registered w r ->
    (reg_id r < next_id w)%nat /\ reg_id r ∉ cancelled w /\ is_Some (deliveries w !! reg_id r) /\
    if_idx (identity r) ∈ memberships w;
  ok_cancelled : forall id, id ∈ cancelled w -> (id < next_id w)%nat
}.

Lemma registered_addr w r :
  map_ok (sockets w) -> registered w r ->
  exists g, sockets w !! if_addr (identity r) = Some g /\ r ∈ registrations g.
Proof.
  intros M (a & g & L & I). destruct (M a g L) as [_ F]. rewrite Forall_forall in F. rewrite (F r I). eauto.
Qed.

Lemma registered_identity w r r' :
  map_ok (sockets w) -> registered w r -> registered w r' -> identity r = identity r' -> r = r'.
Proof.
  intros M R R' E. destruct (registered_addr w r M R) as (g & L & I).
  destruct (registered_addr w r' M R') as (g' & L' & I'). rewrite E, L' in L. injection L as ->.
  destruct (M _ _ L') as [N _]. apply list_elem_of_lookup in I as [n In], I' as [n' In'].
  assert (n = n') as ->; [|congruence].
  apply (NoDup_lookup _ n n' (identity r) N);
    [change (map identity (registrations g)) with (identity <$> registrations g); now rewrite list_lookup_fmap, In|].
  change (map identity (registrations g)) with (identity <$> registrations g). rewrite list_lookup_fmap, In'. simpl. now rewrite E.
Qed.

Lemma registered_lease_spec w r :
  registry_ok w -> registered w r -> registered_lease w r = true.
Proof.
  intros Ok R. destruct (registered_addr w r (ok_map _ Ok) R) as (g & L & I). unfold registered_lease. rewrite L.
  apply existsb_exists. exists r. split; [now apply list_elem_of_In|apply Nat.eqb_refl].
Qed.

Lemma registered_lease_inv w r :
  registered_lease w r = true -> exists r', registered w r' /\ reg_id r' = reg_id r.
Proof.
  unfold registered_lease. destruct (sockets w !! _) as [g|] eqn:L; [|discriminate]. intros H.
  apply existsb_exists in H as (e & I & E). apply Nat.eqb_eq in E. exists e. split; [|exact E].
  exists (if_addr (identity r)), g. split; [exact L|now apply list_elem_of_In].
Qed.

Lemma Interfaces_new_ok : registry_ok Interfaces_new.
Proof.
  assert (forall r, ~ registered Interfaces_new r) as N by (intros r (a & g & L & _); simpl in L; now rewrite lookup_empty in L).
  constructor.
  - intros a g L. simpl in L. now rewrite lookup_empty in L.
  - intros r r' R. now destruct (N r).
  - intros r R. now destruct (N r).
  - intros id H. set_solver.
Qed.

(** ** Adding *)

Lemma add_interface_Err i t gen resp local os w w' e :
  add_interface_locked i t gen resp local os w = (w', Err e) -> w' = w.
Proof.
  unfold add_interface_locked. destruct (negb (os_open os)); [congruence|].
  destruct (existsb _ _); [congruence|]. destruct (is_current _ _ _) as [[]|]; [|congruence|congruence].
  destruct (_ && _); congruence.
Qed.

Lemma add_interface_Ok i t gen resp local os w w' e :
  registry_ok w -> add_interface_locked i t gen resp local os w = (w', Ok e) ->
  registry_ok w' /\ identity e = i /\ generation e = gen /\ managed e = t /\ reg_id e = next_id w /\
  cancelled w' = cancelled w /\ next_id w' = S (next_id w) /\
  (forall r, registered w' r <-> r = e \/ registered w r).
Proof.
  intros Ok. unfold add_interface_locked. destruct (negb (os_open os)); [discriminate|].
  destruct (existsb _ (all_registrations w)) eqn:Ex; [discriminate|].
  destruct (is_current _ _ _) as [[]|]; try discriminate. destruct (_ && _); [discriminate|].
  set (entry := MkReg (next_id w) i t gen resp). set (grp := match sockets w !! if_addr i with Some g => _ | None => _ end).
  intros [= <- <-]. assert (forall r, registered w r -> identity r <> i) as New.
  { intros r R E. apply elem_of_all_registrations in R. rewrite <- not_true_iff_false, existsb_exists in Ex. apply Ex.
    exists r. split; [now apply list_elem_of_In|now apply bool_decide_eq_true]. }
  assert (forall r, r ∈ registrations grp <->
    r = entry \/ exists g, sockets w !! if_addr i = Some g /\ r ∈ registrations g) as Grp.
  { intros r. unfold grp. destruct (sockets w !! if_addr i) as [g|].
    - unfold registrations. simpl. rewrite !elem_of_cons, elem_of_app, list_elem_of_singleton. split.
      + intros [->|[H|H]]; [right; exists g; rewrite elem_of_cons; auto|right; exists g; rewrite elem_of_cons; auto|now left].
      + intros [->|(g' & [= <-] & H)]; [auto|]. rewrite elem_of_cons in H. tauto.
    - unfold registrations. simpl. rewrite list_elem_of_singleton. split; [now left|]. now intros [?|(g & ? & _)]. }
  set (w' := MkInterfaces _ _ _ _ _ _ _).
  assert (forall r, registered w' r <-> r = entry \/ registered w r) as Spec.
  { intros r. split.
    - intros (a & g & L & I). simpl in L. destruct (decide (if_addr i = a)) as [<-|N].
      + rewrite lookup_insert_eq in L. injection L as <-. apply Grp in I as [?|(g & L & I)]; [now left|]. right. now exists (if_addr i), g.
      + rewrite lookup_insert_ne in L by exact N. right. now exists a, g.
    - intros [->|(a & g & L & I)].
      + exists (if_addr i), grp. split; [apply lookup_insert_eq|]. apply Grp. now left.
      + destruct (decide (if_addr i = a)) as [<-|N].
        * exists (if_addr i), grp. split; [apply lookup_insert_eq|]. apply Grp. right. eauto.
        * exists a, g. split; [|exact I]. simpl. now rewrite lookup_insert_ne. }
  assert (forall r, registered w r -> (reg_id r < next_id w)%nat) as Old by (intros r R; now apply (ok_live w Ok)).
  assert (map_ok (sockets w')) as Mok.
  { intros a g L. simpl in L. destruct (decide (if_addr i = a)) as [<-|N].
    + rewrite lookup_insert_eq in L. injection L as <-. unfold grp. destruct (sockets w !! if_addr i) as [g|] eqn:Lg.
      * destruct (ok_map _ Ok _ _ Lg) as [Nd F]. unfold registrations in *. simpl in *.
        rewrite map_app, app_comm_cons. split.
        -- apply NoDup_app. split; [exact Nd|]. split; [|apply NoDup_singleton]. intros x Hx Hy.
           apply list_elem_of_singleton in Hy. subst x. rewrite list_elem_of_In, <- map_cons, in_map_iff in Hx.
           destruct Hx as (r & E & I). apply (New r); [|exact E]. exists (if_addr i), g. split; [exact Lg|].
           now apply list_elem_of_In.
        -- apply Forall_cons in F as [F1 F2]. constructor; [exact F1|]. apply Forall_app. split; [exact F2|]. now constructor.
      * split; [apply NoDup_singleton|]. now constructor.
    + rewrite lookup_insert_ne in L by exact N. now apply (ok_map _ Ok). }
  split; [|repeat split; try reflexivity; apply Spec]. constructor; [exact Mok| | |].
  - intros r r' R R' E. apply Spec in R as [->|R], R' as [->|R']; auto.
    + specialize (Old r' R'). simpl in E. lia.
    + specialize (Old r R). simpl in E. lia.
    + now apply (ok_ids _ Ok).
  - intros r R. apply Spec in R as [->|R]; simpl.
    + split; [lia|]. split; [intros C; apply (ok_cancelled _ Ok) in C; lia|]. rewrite lookup_insert_eq. split; [eauto|set_solver].
    + pose proof (Old r R) as O. destruct (ok_live w Ok r R) as (_ & L2 & L3 & L4).
      split; [lia|]. split; [exact L2|]. rewrite lookup_insert_ne by lia. split; [exact L3|set_solver].
  - intros id H. simpl in *. apply (ok_cancelled _ Ok) in H. lia.
Qed.

(** ** Removing *)

Lemma sublist_map {A B} (f : A -> B) l k : sublist l k -> sublist (map f l) (map f k).
Proof. induction 1; simpl; now constructor. Qed.

Lemma take_identity_spec i l :
  NoDup (map identity l) ->
  let '(r, l') := take_identity i l in
  sublist l' l /\ (forall x, x ∈ l' <-> x ∈ l /\ identity x <> i) /\
  match r with Some e => e ∈ l /\ identity e = i | None => forall x, x ∈ l -> identity x <> i end.
Proof.
  induction l as [|e l IH]; simpl; intros N.
  - split; [constructor|]. split; [intros x; rewrite elem_of_nil; tauto|]. intros x H. now apply elem_of_nil in H.
  - apply NoDup_cons in N as [N1 N2]. case_bool_decide as E.
    + split; [now constructor|]. split; [|split; [left|exact E]]. intros x. rewrite elem_of_cons. split.
      * intros H. split; [now right|]. intros X. apply N1. rewrite E, <- X. rewrite list_elem_of_In. apply in_map. now apply list_elem_of_In.
      * intros [[->|H] X]; [now destruct X|exact H].
    + specialize (IH N2). destruct (take_identity i l) as [r l'] eqn:T. destruct IH as (S & M & R).
      split; [now constructor|]. split.
      * intros x. rewrite !elem_of_cons, M. split; [intros [->|[H X]]; auto|]. intros [[->|H] X]; auto.
      * destruct r as [e'|]; [destruct R; split; [now right|assumption]|].
        intros x H. apply elem_of_cons in H as [->|H]; auto.
Qed.

Lemma promote_spec l : match promote l with Some g => registrations g ≡ₚ l | None => l = [] end.
Proof.
  unfold promote. destruct (last l) as [e|] eqn:L; [|now apply last_None in L].
  apply last_Some in L as [l' ->]. unfold registrations. cbn [root siblings]. rewrite removelast_last.
  now rewrite Permutation_app_comm.
Qed.

Definition registered_in (m : gmap Ipv4Addr Group) (r : Registration) : Prop :=
  exists a g, m !! a = Some g /\ r ∈ registrations g.

(** Replacing one group. *)
Lemma replace_group m a (o : option Group) keep :
  map_ok m -> m !! a = Some keep ->
  match o with Some g => sublist (registrations g) (registrations keep) \/ exists l : list Registration, sublist l (registrations keep) /\ registrations g ≡ₚ l
             | None => True end ->
  let m' := match o with Some g => <[a := g]> m | None => delete a m end in
  map_ok m' /\
  (forall r, registered_in m' r <-> match o with Some g => r ∈ registrations g | None => False end \/
                                     exists b g, b <> a /\ m !! b = Some g /\ r ∈ registrations g).
Proof.
  intros M L S m'. assert (forall b, b <> a -> m' !! b = m !! b) as Ne.
  { intros b N. unfold m'. destruct o; [now rewrite lookup_insert_ne|now rewrite lookup_delete_ne]. }
  assert (m' !! a = o) as Eq by (unfold m'; destruct o; [apply lookup_insert_eq|apply lookup_delete_eq]).
  clearbody m'. split.
  - intros b g Lb. destruct (decide (b = a)) as [->|N]; [|rewrite Ne in Lb by exact N; now apply M].
    subst o. destruct (M a keep L) as [Nd F].
    assert (exists l : list Registration, sublist l (registrations keep) /\ registrations g ≡ₚ l) as (l & Sl & P)
      by (rewrite Lb in S; destruct S as [S|S]; [exists (registrations g); split; [exact S|reflexivity]|exact S]).
    split.
    + rewrite (Permutation_map identity P). refine (sublist_NoDup _ _ Nd _).
      now apply sublist_map.
    + rewrite P. rewrite Forall_forall in *. intros x Hx. apply F. eapply elem_of_sublist; eauto.
  - intros r. split.
    + intros (b & g & Lb & I). destruct (decide (b = a)) as [->|N].
      * rewrite Eq in Lb. left. now rewrite Lb.
      * rewrite Ne in Lb by exact N. right. eauto.
    + intros [H|(b & g & N & Lb & I)].
      * destruct o as [g|]; [|destruct H]. exists a, g. now split.
      * exists b, g. split; [now rewrite Ne|exact I].
Qed.

Lemma remove_from_map_spec i m :
  map_ok m ->
  let '(r, m') := remove_from_map i m in
  map_ok m' /\ (forall x, registered_in m' x <-> registered_in m x /\ identity x <> i) /\
  match r with Some e => registered_in m e /\ identity e = i | None => forall x, registered_in m x -> identity x <> i end.
Proof.
  intros M. unfold remove_from_map. destruct (m !! if_addr i) as [g|] eqn:L.
  2:{ assert (forall x, registered_in m x -> identity x <> i) as Nx.
      { intros x (a & g & La & I) E. destruct (M a g La) as [_ F]. rewrite Forall_forall in F. specialize (F x I).
        rewrite E in F. congruence. }
      split; [exact M|]. split; [|exact Nx]. intros x. split; [|tauto]. auto. }
  destruct (M _ _ L) as [Nd F]. assert (forall x b g', b <> if_addr i -> m !! b = Some g' -> x ∈ registrations g' -> identity x <> i) as Other.
  { intros x b g' N Lb I E. destruct (M b g' Lb) as [_ F']. rewrite Forall_forall in F'. specialize (F' x I). congruence. }
  assert (forall (o : option Group) e, (forall x, match o with Some g' => x ∈ registrations g' | None => False end <->
      x ∈ registrations g /\ identity x <> i) ->
    (forall x, (match o with Some g' => x ∈ registrations g' | None => False end \/
                exists b g', b <> if_addr i /\ m !! b = Some g' /\ x ∈ registrations g') <->
               registered_in m x /\ identity x <> i) /\ (e ∈ registrations g -> registered_in m e)) as Lift.
  { intros o e H. split; [|intros I; now exists (if_addr i), g]. intros x. rewrite H. split.
    - intros [[I N]|(b & g' & N & Lb & I)]; [split; [now exists (if_addr i), g|exact N]|].
      split; [now exists b, g'|eauto].
    - intros [(b & g' & Lb & I) N]. destruct (decide (b = if_addr i)) as [->|Nb]; [|right; now exists b, g'].
      left. rewrite L in Lb. now injection Lb as ->. }
  unfold registrations in Nd. simpl in Nd. apply NoDup_cons in Nd as [N1 N2]. case_bool_decide as E.
  - pose proof (promote_spec (siblings g)) as P.
    destruct (replace_group m (if_addr i) (promote (siblings g)) g M L) as [M' R'].
    { destruct (promote (siblings g)) as [g'|]; [|exact I]. right. exists (siblings g). split; [apply sublist_cons; reflexivity|exact P]. }
    destruct (Lift (promote (siblings g)) (root g)) as [Lf Lr].
    { intros x. unfold registrations at 2. rewrite elem_of_cons.
      assert (x ∈ siblings g -> identity x <> i) as Ns.
      { intros H X. apply N1. rewrite E, <- X. rewrite list_elem_of_In. apply in_map. now apply list_elem_of_In. }
      assert (match promote (siblings g) with Some g' => x ∈ registrations g' | None => False end <-> x ∈ siblings g) as Q.
      { destruct (promote (siblings g)) as [g'|]; [now rewrite P|]. rewrite P, elem_of_nil. reflexivity. }
      rewrite Q. split; [auto|]. intros [[->|H] X]; [now destruct X|exact H]. }
    split; [exact M'|]. split; [intros x; rewrite R'; apply Lf|]. split; [apply Lr; left|exact E].
  - pose proof (take_identity_spec i (siblings g) N2) as T. destruct (take_identity i (siblings g)) as [r l].
    destruct T as (Sl & Ml & Rl).
    destruct (replace_group m (if_addr i) (Some (MkGroup (root g) l)) g M L) as [M' R'].
    { left. unfold registrations. simpl. now constructor. }
    assert (forall x, x ∈ registrations (MkGroup (root g) l) <-> x ∈ registrations g /\ identity x <> i) as Mg.
    { intros x. unfold registrations. simpl. rewrite !elem_of_cons, Ml. split; [intros [->|[? ?]]; auto|].
      intros [[->|?] ?]; auto. }
    split; [exact M'|]. split.
    + intros x. rewrite R'. exact (proj1 (Lift (Some (MkGroup (root g) l)) (root g) Mg) x).
    + destruct r as [e|].
      * destruct Rl as [Rl1 Rl2]. split; [|exact Rl2]. exists (if_addr i), g. split; [exact L|]. now right.
      * intros x (b & g' & Lb & Ix). destruct (decide (b = if_addr i)) as [->|Nb]; [|eauto].
        rewrite L in Lb. injection Lb as <-. apply elem_of_cons in Ix as [->|Ix]; [exact E|auto].
Qed.

End Registry.

Section Reconcile.
Context `{HO : HashOrder}.

Lemma remove_interface_spec leaves i w :
  registry_ok w ->
  let w' := remove_interface_locked leaves i w in
  registry_ok w' /\ next_id w' = next_id w /\ cancelled w ⊆ cancelled w' /\
  (forall r, registered w' r <-> registered w r /\ identity r <> i) /\
  (forall r, registered w r -> identity r = i -> reg_id r ∈ cancelled w').
Proof.
  intros Ok w'. pose proof (remove_from_map_spec i (sockets w) (ok_map _ Ok)) as Sp.
  unfold w', remove_interface_locked. destruct (remove_from_map i (sockets w)) as [o m]. destruct Sp as (Mm & Reg & Ro).
  assert (forall w2, sockets w2 = m -> forall r, registered w2 r <-> registered w r /\ identity r <> i) as Reg'.
  { intros w2 E r. unfold registered. rewrite E. apply Reg. }
  destruct o as [e|].
  - set (w2 := MkInterfaces _ _ _ _ _ _ _). destruct Ro as [Re Ie].
    assert (forall r, registered w2 r <-> registered w r /\ identity r <> i) as R2 by now apply Reg'.
    destruct (ok_live w Ok e Re) as (E1 & E2 & E3 & E4).
    split; [|split; [reflexivity|split; [simpl; set_solver|split; [exact R2|]]]].
    + constructor.
      * exact Mm.
      * intros r r' R R' E. apply R2 in R as [R _], R' as [R' _]. now apply (ok_ids _ Ok).
      * intros r R. pose proof R as R0. apply R2 in R as [R N]. destruct (ok_live w Ok r R) as (L1 & L2 & L3 & L4). simpl.
        split; [exact L1|]. split; [|split; [exact L3|]].
        -- rewrite not_elem_of_union, not_elem_of_singleton. split; [|exact L2]. intros X.
           apply N. now rewrite (ok_ids _ Ok r e R Re X).
        -- destruct (negb _ && leaves) eqn:B; [|exact L4]. apply andb_true_iff in B as [B _]. apply negb_true_iff in B.
           rewrite elem_of_difference, not_elem_of_singleton. split; [exact L4|]. intros X.
           rewrite <- not_true_iff_false, existsb_exists in B. apply B. exists r. split; [|now apply Z.eqb_eq].
           apply list_elem_of_In, elem_of_all_registrations. now apply (Reg' (with_sockets m w)).
      * intros id H. simpl in *. apply elem_of_union in H as [H|H]; [|now apply (ok_cancelled _ Ok)].
        apply elem_of_singleton in H as ->. exact E1.
    + intros r R E. assert (r = e) as -> by (apply (registered_identity w); [apply Ok|exact R|exact Re|congruence]).
      simpl. set_solver.
  - assert (forall r, registered (with_sockets m w) r <-> registered w r /\ identity r <> i) as R2 by now apply Reg'.
    split; [|split; [reflexivity|split; [reflexivity|split; [exact R2|]]]].
    + constructor.
      * exact Mm.
      * intros r r' R R' E. apply R2 in R as [R _], R' as [R' _]. now apply (ok_ids _ Ok).
      * intros r R. apply R2 in R as [R _]. exact (ok_live w Ok r R).
      * exact (ok_cancelled _ Ok).
    + intros r R E. now destruct (Ro r R E).
Qed.

Lemma remove_all_spec leaves l w :
  registry_ok w ->
  let w' := remove_all leaves l w in
  registry_ok w' /\ next_id w' = next_id w /\ cancelled w ⊆ cancelled w' /\
  (forall r, registered w' r <-> registered w r /\ identity r ∉ l) /\
  (forall r, registered w r -> identity r ∈ l -> reg_id r ∈ cancelled w').
Proof.
  unfold remove_all. revert w. induction l as [|i l IH]; intros w Ok; simpl.
  - split; [exact Ok|]. split; [reflexivity|]. split; [reflexivity|]. split.
    + intros r. rewrite elem_of_nil. tauto.
    + intros r _ H. now apply elem_of_nil in H.
  - destruct (remove_interface_spec (leaves (if_idx i)) i w Ok) as (Ok1 & N1 & C1 & R1 & D1).
    destruct (IH _ Ok1) as (Ok2 & N2 & C2 & R2 & D2). clear IH.
    split; [exact Ok2|]. split; [congruence|]. split; [now transitivity (cancelled (remove_interface_locked (leaves (if_idx i)) i w))|].
    split; [intros r; rewrite R2, R1, elem_of_cons; tauto|].
    intros r R H. destruct (decide (identity r = i)) as [E|E].
    + apply C2, D1; assumption.
    + apply elem_of_cons in H as [?|H]; [now destruct E|]. apply D2; [now apply R1|exact H].
Qed.

Lemma refresh_all_ok local w : registry_ok w -> registry_ok (refresh_all local w).
Proof.
  intros [M I L C]. constructor; simpl; try assumption. intros r R. destruct (L r R) as (L1 & L2 & L3 & L4).
  split; [exact L1|]. split; [exact L2|]. split; [|exact L4].
  assert (forall (es : list Registration) (m : gmap nat LocalIdentity), is_Some (m !! reg_id r) ->
    is_Some (fold_left (fun m e => <[reg_id e := local]> m) es m !! reg_id r)) as F; [|now apply F].
  induction es as [|e es IH]; intros m H; [exact H|]. simpl. apply IH.
  destruct (decide (reg_id e = reg_id r)) as [->|N]; [rewrite lookup_insert_eq; eauto|now rewrite lookup_insert_ne].
Qed.

(** What adding a list of interfaces leaves. *)
Record added (gen : Z) (l : list Ipv4Interface) (p0 p : Pass) : Prop := {
  added_ok : registry_ok (pass_world p);
  added_old : forall r, registered (pass_world p0) r -> registered (pass_world p) r;
  added_new : forall r, registered (pass_world p) r -> registered (pass_world p0) r \/
                        (identity r ∈ l /\ generation r = gen /\ (next_id (pass_world p0) <= reg_id r)%nat);
  added_all : forall i, i ∈ l -> (exists r, registered (pass_world p) r /\ identity r = i) \/ is_Some (pass_failures p !! i);
  added_failures : forall i, is_Some (pass_failures p !! i) -> is_Some (pass_failures p0 !! i) \/ i ∈ l;
  added_cancelled : cancelled (pass_world p) = cancelled (pass_world p0);
  added_next : (next_id (pass_world p0) <= next_id (pass_world p))%nat
}.

Lemma same_registry w sp gc :
  registry_ok w ->
  registry_ok (MkInterfaces (sockets w) (deliveries w) (cancelled w) (memberships w) (next_id w) sp gc).
Proof. intros [M I L C]. now constructor. Qed.

Lemma failed_lookup i e f j : is_Some (failed i e f !! j) <-> is_Some (f !! j) \/ j = i.
Proof.
  unfold failed. case_bool_decide as E.
  - split; [now left|]. intros [?| ->]; [assumption|]. rewrite E. eauto.
  - destruct (decide (i = j)) as [->|N]; [rewrite lookup_insert_eq; split; [now right|eauto]|].
    rewrite lookup_insert_ne by exact N. split; [now left|]. now intros [?| ->].
Qed.

Lemma add_one_spec t gen resp local os p i :
  registry_ok (pass_world p) ->
  let p' := add_one t gen resp local os p i in
  registry_ok (pass_world p') /\ cancelled (pass_world p') = cancelled (pass_world p) /\
  (next_id (pass_world p) <= next_id (pass_world p'))%nat /\
  (forall r, registered (pass_world p) r -> registered (pass_world p') r) /\
  (forall r, registered (pass_world p') r -> registered (pass_world p) r \/
     (identity r = i /\ generation r = gen /\ (next_id (pass_world p) <= reg_id r)%nat)) /\
  ((exists r, registered (pass_world p') r /\ identity r = i) \/ is_Some (pass_failures p' !! i)) /\
  (forall j, j <> i -> pass_failures p' !! j = pass_failures p !! j).
Proof.
  intros Ok. unfold add_one.
  destruct (add_interface_locked i t gen resp local (os i) (pass_world p)) as [w [e|err]] eqn:A; simpl.
  - destruct (add_interface_Ok _ _ _ _ _ _ _ _ _ Ok A) as (Ok' & E1 & E2 & E3 & E4 & E5 & E6 & E7).
    split; [now apply same_registry|]. split; [exact E5|]. split; [lia|].
    assert (forall sp gc r, registered (MkInterfaces (sockets w) (deliveries w) (cancelled w) (memberships w) (next_id w) sp gc) r <->
      r = e \/ registered (pass_world p) r) as R by (intros sp gc r; apply E7).
    split; [intros r H; apply R; now right|]. split; [|split].
    + intros r H. apply R in H as [->|H]; [right|now left]. repeat split; try assumption. lia.
    + left. exists e. split; [apply R; now left|exact E1].
    + intros j N. now apply lookup_delete_ne.
  - apply add_interface_Err in A as ->. split; [exact Ok|]. split; [reflexivity|]. split; [lia|]. split; [auto|]. split; [auto|].
    split; [right; apply failed_lookup; now right|]. intros j N. unfold failed. case_bool_decide; [reflexivity|].
    now apply lookup_insert_ne.
Qed.

Lemma add_all_spec t gen resp local os l p :
  registry_ok (pass_world p) -> added gen l p (fold_left (add_one t gen resp local os) l p).
Proof.
  revert p. induction l as [|i l IH]; intros p Ok; simpl.
  - constructor; auto; try lia. intros i H. now apply elem_of_nil in H.
  - destruct (add_one_spec t gen resp local os p i Ok) as (Ok1 & C1 & N1 & R1 & R1' & A1 & F1).
    destruct (IH _ Ok1) as [Ok2 R2 R2' A2 F2 C2 N2]. constructor; auto; try lia; try congruence.
    + intros r H. apply R2' in H as [H|(H1 & H2 & H3)].
      * apply R1' in H as [H|(H1 & H2 & H3)]; [now left|]. right. subst i. split; [left|now split].
      * right. split; [now right|]. split; [exact H2|lia].
    + intros j H. apply elem_of_cons in H as [->|H]; [|auto]. destruct (decide (i ∈ l)) as [I|I]; [auto|].
      destruct A1 as [(r & H1 & H2)|H]; [left; exists r; auto|]. right.
      assert (forall l p, i ∉ l -> registry_ok (pass_world p) -> is_Some (pass_failures p !! i) ->
        is_Some (pass_failures (fold_left (add_one t gen resp local os) l p) !! i)) as Keep; [|now apply Keep].
      clear. induction l as [|j l IH]; intros p I Ok H; [exact H|]. simpl.
      destruct (add_one_spec t gen resp local os p j Ok) as (Ok1 & _ & _ & _ & _ & _ & F1).
      apply IH; [now intros X; apply I; right|exact Ok1|]. rewrite F1; [exact H|]. intros ->. apply I. left.
    + intros j H. apply F2 in H as [H|H]; [|right; now right]. destruct (decide (j = i)) as [->|N]; [right; left|].
      rewrite F1 in H by exact N. now left.
Qed.

(** What a reconciliation leaves. *)
Lemma reconcile_spec t resp current local gen os leaves f w w' f' :
  registry_ok w ->
  reconcile_interfaces_locked t resp current local gen os leaves f w = (w', f') ->
  registry_ok w' /\
  (forall r, registered w' r -> identity r ∈ current /\ generation r = gen) /\
  (forall i, i ∈ current -> (exists r, registered w' r /\ identity r = i) \/ is_Some (f' !! i)) /\
  (forall i, is_Some (f' !! i) -> i ∈ current) /\
  (forall r, registered w r -> identity r ∈ current -> generation r = gen -> registered w' r) /\
  (forall r, registered w r -> identity r ∉ current \/ generation r <> gen -> reg_id r ∈ cancelled w' /\ ~ registered w' r).
Proof.
  intros Ok. unfold reconcile_interfaces_locked.
  set (stale := stale_addrs current gen w). set (fresh := new_addrs current gen w).
  set (w1 := remove_all leaves stale (refresh_all local w)).
  set (p0 := MkPass w1 _ _). set (p := fold_left _ fresh p0). intros E.
  destruct (remove_all_spec leaves stale (refresh_all local w) (refresh_all_ok local w Ok)) as (Ok1 & N1 & C1 & R1 & D1).
  fold w1 in Ok1, N1, C1, R1, D1.
  assert (forall r, registered w1 r <-> registered w r /\ identity r ∉ stale) as R1' by exact R1. clear R1.
  destruct (add_all_spec t gen resp local os fresh p0 Ok1) as [Ok2 R2 R2' A2 F2 C2 N2].
  fold p in Ok2, R2, R2', A2, F2, C2, N2.
  assert (registry_ok w' /\ (forall r, registered w' r <-> registered (pass_world p) r) /\
          cancelled w' = cancelled (pass_world p) /\ f' = pass_failures p) as (Ok' & Rw & Cw & ->).
  { destruct (pass_changed p); injection E as <- <-;
      (split; [assumption || now apply same_registry|]); (split; [intros r; reflexivity|]); split; reflexivity. }
  assert (forall r, registered w r -> identity r ∈ stale <-> identity r ∉ current \/ generation r <> gen) as St.
  { intros r R. unfold stale, stale_addrs. rewrite list_elem_of_In, in_map_iff. split.
    - intros (e & E1 & H). apply filter_In in H as [H B]. apply list_elem_of_In, elem_of_all_registrations in H.
      assert (e = r) as -> by (apply (registered_identity w); auto; apply Ok).
      apply orb_true_iff in B as [B|B]; [left|right; lia]. now apply negb_true_iff, bool_decide_eq_false in B.
    - intros H. exists r. split; [reflexivity|]. apply filter_In.
      split; [now apply list_elem_of_In, elem_of_all_registrations|].
      destruct H as [H|H]; [rewrite bool_decide_false by exact H; reflexivity|].
      replace (generation r =? gen) with false by lia. now rewrite orb_true_r. }
  assert (forall i, i ∈ fresh -> i ∈ current) as Fc.
  { intros i H. unfold fresh, new_addrs in H. now apply list_elem_of_In, filter_In in H as [H%list_elem_of_In _]. }
  assert (forall i, i ∈ current -> i ∉ fresh -> exists r, registered w1 r /\ identity r = i) as Kept.
  { intros i H N. destruct (decide (i ∈ map identity (all_registrations w))) as [K|K].
    - rewrite list_elem_of_In, in_map_iff in K. destruct K as (r & Er & K). apply list_elem_of_In, elem_of_all_registrations in K.
      exists r. split; [|exact Er]. apply R1'. split; [exact K|]. rewrite Er. intros X. apply N.
      unfold fresh, new_addrs. apply list_elem_of_In, filter_In. split; [now apply list_elem_of_In|].
      fold stale. rewrite (bool_decide_true (i ∈ stale)) by exact X. apply orb_true_r.
    - exfalso. apply N. unfold fresh, new_addrs. apply list_elem_of_In, filter_In. split; [now apply list_elem_of_In|].
      now rewrite bool_decide_false. }
  split; [exact Ok'|]. split; [|split; [|split; [|split]]].
  - intros r R. apply Rw, R2' in R as [R|(R & G & _)]; [|auto]. apply R1' in R as [R N].
    rewrite St in N by exact R. split.
    + destruct (decide (identity r ∈ current)); [assumption|]. exfalso. apply N. now left.
    + destruct (Z.eq_dec (generation r) gen); [assumption|]. exfalso. apply N. now right.
  - intros i H. destruct (decide (i ∈ fresh)) as [K|K].
    + destruct (A2 i K) as [(r & R & Er)|?]; [left; exists r; split; [now apply Rw|exact Er]|now right].
    + left. destruct (Kept i H K) as (r & R & Er). exists r. split; [apply Rw; now apply R2|exact Er].
  - intros i H. apply F2 in H as [H|H]; [|auto]. simpl in H. destruct H as [x H].
    now apply map_lookup_filter_Some in H as [_ H].
  - intros r R I G. apply Rw, R2, R1'. split; [exact R|]. rewrite St by exact R. intros [?|?]; auto.
  - intros r R H. assert (reg_id r ∈ cancelled w') as C.
    { rewrite Cw, C2. apply D1; [exact R|]. now apply St. }
    split; [exact C|]. intros X. now apply (ok_live w' Ok') in X as (_ & X & _).
Qed.

(** Reconciling with a scan settles: afterwards every registration is of an
    interface the scan found, at the scan's generation; every interface found is
    registered or its failure is recorded, and no other failure is; the sockets
    of interfaces that were already registered at that generation are kept,
    and every other one is cancelled. *)
Theorem reconcile_settles t resp current local gen os leaves f w w' f' :
  registry_ok w ->
  reconcile_interfaces_locked t resp current local gen os leaves f w = (w', f') ->
  registry_ok w' /\
  (forall r, registered w' r -> identity r ∈ current /\ generation r = gen) /\
  (forall i, i ∈ current -> (exists r, registered w' r /\ identity r = i) \/ is_Some (f' !! i)) /\
  (forall i, is_Some (f' !! i) -> i ∈ current) /\
  (forall r, registered w r -> identity r ∈ current -> generation r = gen -> registered w' r) /\
  (forall r, registered w r -> identity r ∉ current \/ generation r <> gen -> reg_id r ∈ cancelled w' /\ ~ registered w' r).
Proof. apply reconcile_spec. Qed.

End Reconcile.

(** ** Leases *)

Section Leases.
Context `{HO : HashOrder}.

Inductive iface_step : Interfaces -> Interfaces -> Prop :=
| is_add i t gen resp local os w : iface_step w (fst (add_interface_locked i t gen resp local os w))
| is_remove leaves i w : iface_step w (remove_interface_locked leaves i w)
| is_reconcile t resp current local gen now os leaves f w :
    iface_step w (fst (reconcile_interfaces_async t resp current local gen now os leaves f w))
| is_responder w : iface_step w (set_measurement_responder w).

Definition live_socket (w : Interfaces) (id : nat) : Prop := exists r, registered w r /\ reg_id r = id.

Lemma set_responder_spec w r :
  registered (set_measurement_responder w) r <-> exists r0, registered w r0 /\ r = set_responder r0.
Proof.
  unfold registered. simpl. split.
  - intros (a & g & L & I). rewrite lookup_fmap in L. destruct (sockets w !! a) as [g0|] eqn:L0; [|discriminate].
    injection L as <-. unfold registrations in I. simpl in I. rewrite elem_of_cons, list_elem_of_In, in_map_iff in I.
    destruct I as [->|(r0 & <- & I)].
    + exists (root g0). split; [|reflexivity]. exists a, g0. split; [exact L0|left].
    + exists r0. split; [|reflexivity]. exists a, g0. split; [exact L0|right; now apply list_elem_of_In].
  - intros (r0 & (a & g & L & I) & ->). exists a. eexists. rewrite lookup_fmap, L. split; [reflexivity|].
    unfold registrations in *. simpl. rewrite elem_of_cons, list_elem_of_In, in_map_iff.
    apply elem_of_cons in I as [->|I]; [now left|]. right. exists r0. split; [reflexivity|now apply list_elem_of_In].
Qed.

Lemma set_responder_ok w : registry_ok w -> registry_ok (set_measurement_responder w).
Proof.
  intros [M I L C]. constructor; simpl; auto.
  - intros a g H. rewrite lookup_fmap in H. destruct (sockets w !! a) as [g0|] eqn:L0; [|discriminate].
    injection H as <-. destruct (M a g0 L0) as [N F]. unfold registrations in *. simpl in *. rewrite map_map. simpl.
    split; [exact N|]. apply Forall_cons in F as [F1 F2]. constructor; [exact F1|].
    rewrite Forall_forall in *. intros x Hx. rewrite list_elem_of_In, in_map_iff in Hx. destruct Hx as (y & <- & Hy).
    simpl. now apply F2, list_elem_of_In.
  - intros r r' R R' E. apply set_responder_spec in R as (r0 & R & ->), R' as (r0' & R' & ->). simpl in E.
    now rewrite (I r0 r0' R R' E).
  - intros r R. apply set_responder_spec in R as (r0 & R & ->). exact (L r0 R).
Qed.

(** One step: the invariant, and what becomes of a socket. *)
Lemma iface_step_spec w w' :
  registry_ok w -> iface_step w w' ->
  registry_ok w' /\ cancelled w ⊆ cancelled w' /\
  (forall id, live_socket w id -> live_socket w' id \/ id ∈ cancelled w').
Proof.
  intros Ok St. destruct St as [i t gen resp local os w|leaves i w|t resp current local gen now os leaves f w|w].
  - destruct (add_interface_locked i t gen resp local os w) as [w' [e|err]] eqn:A; simpl.
    + destruct (add_interface_Ok _ _ _ _ _ _ _ _ _ Ok A) as (Ok' & _ & _ & _ & _ & C & _ & R).
      split; [exact Ok'|]. split; [now rewrite C|]. intros id (r & Hr & E). left. exists r. split; [apply R; now right|exact E].
    + apply add_interface_Err in A as ->. auto.
  - destruct (remove_interface_spec leaves i w Ok) as (Ok' & _ & C & R & D). split; [exact Ok'|]. split; [exact C|].
    intros id (r & Hr & <-). destruct (decide (identity r = i)) as [E|E]; [right; now apply D|].
    left. exists r. split; [now apply R|reflexivity].
  - unfold reconcile_interfaces_async. destruct (_ && _); [simpl; auto|].
    destruct (reconcile_interfaces_locked t resp current local gen os leaves f w) as [w' f'] eqn:E. simpl.
    destruct (reconcile_spec _ _ _ _ _ _ _ _ _ _ _ Ok E) as (Ok' & _ & _ & _ & K & D). split; [exact Ok'|].
    assert (cancelled w ⊆ cancelled w') as C.
    { unfold reconcile_interfaces_locked in E.
      destruct (remove_all_spec leaves (stale_addrs current gen w) (refresh_all local w) (refresh_all_ok local w Ok))
        as (Ok1 & _ & C1 & _ & _). simpl in C1.
      set (p0 := MkPass _ _ _) in E. set (p := fold_left _ _ p0) in E.
      assert (cancelled (pass_world p) = cancelled (pass_world p0)) as C2
        by (apply (added_cancelled gen (new_addrs current gen w)), add_all_spec; exact Ok1).
      transitivity (cancelled (pass_world p)); [rewrite C2; exact C1|]. destruct (pass_changed p); injection E as <- _; reflexivity. }
    split; [exact C|]. intros id (r & Hr & <-).
    destruct (decide (identity r ∈ current)) as [I|I]; [|right; now apply D; [|left]].
    destruct (Z.eq_dec (generation r) gen) as [G|G]; [|right; now apply D; [|right]].
    left. exists r. split; [now apply K|reflexivity].
  - split; [now apply set_responder_ok|]. split; [reflexivity|]. intros id (r & Hr & E). left. exists (set_responder r).
    split; [apply set_responder_spec; eauto|exact E].
Qed.

(** A lease dies with its registration: once the socket of a lease has left
    the registry, every send through the lease is refused and every commit under
    it is skipped, for ever, even after the same interface was added again with
    the same address, index and name. *)
Theorem lease_dies_with_registration w w1 w2 r epoch sent :
  registry_ok w -> registered w r -> rtc iface_step w w1 -> ~ live_socket w1 (reg_id r) -> rtc iface_step w1 w2 ->
  while_current w2 epoch r = false /\ send_registered w2 epoch sent r = Err LeaseInvalid.
Proof.
  intros Ok R S1 Dead S2.
  assert (forall a b id, rtc iface_step a b -> registry_ok a -> live_socket a id \/ id ∈ cancelled a ->
    registry_ok b /\ cancelled a ⊆ cancelled b /\ (live_socket b id \/ id ∈ cancelled b)) as Run.
  { clear. intros a b id St. induction St as [a|a a1 b St _ IH]; intros Ok H; [auto|].
    destruct (iface_step_spec _ _ Ok St) as (Ok1 & C1 & L1).
    destruct (IH Ok1) as (Ok2 & C2 & L2).
    { destruct H as [H|H]; [now apply L1|right; now apply C1]. }
    split; [exact Ok2|]. split; [now transitivity (cancelled a1)|exact L2]. }
  destruct (Run w w1 (reg_id r) S1 Ok) as (Ok1 & _ & L1); [left; now exists r|].
  assert (reg_id r ∈ cancelled w1) as C1 by (destruct L1; [now destruct Dead|assumption]).
  destruct (Run w1 w2 (reg_id r) S2 Ok1) as (Ok2 & C2 & _); [now right|].
  assert (is_current w2 epoch r = Some false) as Cur.
  { unfold is_current. now rewrite bool_decide_true by (apply C2, C1). }
  unfold while_current, send_registered. rewrite Cur. split; [apply andb_false_r|].
  simpl. now rewrite orb_true_r.
Qed.

(** A lease that is still registered and of the topology's epoch is usable. *)
Lemma registered_lease_sends w r :
  registry_ok w -> registered w r ->
  let epoch := Some (generation r) in
  while_current w epoch r = true /\ send_registered w epoch true r = Ok tt.
Proof.
  intros Ok R epoch. destruct (ok_live w Ok r R) as (_ & C & _).
  assert (is_current w epoch r = Some true) as Cur.
  { unfold is_current, epoch. rewrite bool_decide_false by exact C. destruct (managed r); [simpl; now rewrite Z.eqb_refl|reflexivity]. }
  unfold while_current, send_registered. now rewrite Cur, (registered_lease_spec w r Ok R).
Qed.

End Leases.

(** ** Ingress *)

Section Ingress.

Lemma bool_ltb_irrefl a : bool_ltb a a = false.
Proof. now destruct a. Qed.

Lemma key_leb_refl x : key_leb x x = true.
Proof. destruct x as [[[a b] c] d]. unfold key_leb. rewrite !bool_ltb_irrefl, !eqb_reflx, Z.leb_refl. reflexivity. Qed.

Lemma key_leb_total x y : key_leb x y = false -> key_leb y x = true.
Proof.
  destruct x as [[[a b] c] d], y as [[[a' b'] c'] d']. unfold key_leb.
  destruct a, a', b, b', c, c'; simpl; lia || discriminate || reflexivity.
Qed.

Lemma key_leb_trans x y z : key_leb x y = true -> key_leb y z = true -> key_leb x z = true.
Proof.
  destruct x as [[[a b] c] d], y as [[[a' b'] c'] d'], z as [[[a2 b2] c2] d2]. unfold key_leb.
  destruct a, a', a2, b, b', b2, c, c', c2; simpl; lia || discriminate || reflexivity.
Qed.

Lemma key_leb_antisym x y : key_leb x y = true -> key_leb y x = true -> x = y.
Proof.
  destruct x as [[[a b] c] d], y as [[[a' b'] c'] d']. unfold key_leb.
  destruct a, a', b, b', c, c'; simpl; try discriminate; intros; f_equal; lia.
Qed.

Lemma filter_perm {A} (f : A -> bool) l l' : l ≡ₚ l' -> List.filter f l ≡ₚ List.filter f l'.
Proof.
  induction 1 as [|x l l' _ IH|x y l|l l1 l' _ IH1 _ IH2]; simpl; [reflexivity| | |now transitivity (List.filter f l1)].
  - destruct (f x); [now constructor|exact IH].
  - destruct (f x), (f y); try reflexivity. constructor.
Qed.

(** The ingress of a datagram is scoped and definite: the socket chosen is a
    live registration of the very adapter the packet's metadata names, one that
    has the destination address if any has; there is one unless the adapter has
    no live registration; and the choice does not depend on the order in which
    the hash map is iterated. *)
Theorem ingress_is_scoped (HO HO' : HashOrder) w index destination source :
  registry_ok w -> (forall r, registered w r -> Ipv4Addr_ok (if_addr (identity r))) ->
  (forall r r', registered w r -> registered w r' -> if_idx (identity r) = if_idx (identity r') ->
     if_name (identity r) = if_name (identity r')) ->
  let candidate r := registered w r /\ if_idx (identity r) = index /\ reg_id r ∉ cancelled w in
  @socket_for_ingress HO w index destination source = @socket_for_ingress HO' w index destination source /\
  match @socket_for_ingress HO w index destination source with
  | Some e => candidate e /\
      (forall r, candidate r -> IpV4 (if_addr (identity r)) = destination -> IpV4 (if_addr (identity e)) = destination)
  | None => forall r, ~ candidate r
  end.
Proof.
  intros Ok Va Vn candidate.
  set (leb := fun x y => key_leb (ingress_key w destination source x) (ingress_key w destination source y)).
  set (ok := fun e => (if_idx (identity e) =? index) && negb (bool_decide (reg_id e ∈ cancelled w))).
  assert (forall (H : HashOrder) r, r ∈ List.filter ok (@all_registrations H w) <-> candidate r) as Cand.
  { intros H r. rewrite list_elem_of_In, filter_In. unfold ok, candidate.
    rewrite <- list_elem_of_In, elem_of_all_registrations, andb_true_iff, negb_true_iff, bool_decide_eq_false, Z.eqb_eq. tauto. }
  assert (forall x y, leb x y = false -> leb y x = true) as Tot by (intros x y; apply key_leb_total).
  assert (forall x y z, leb x y = true -> leb y z = true -> leb x z = true) as Tr by (intros x y z; apply key_leb_trans).
  split.
  - unfold socket_for_ingress. fold leb ok. apply min_by_perm; auto; [intros x; apply key_leb_refl| |].
    + intros x y X Y L1 L2. apply Cand in X as (X1 & X2 & _), Y as (Y1 & Y2 & _).
      pose proof (key_leb_antisym _ _ L1 L2) as E. unfold ingress_key in E. injection E as _ _ _ E.
      apply (registered_identity w x y (ok_map _ Ok) X1 Y1).
      assert (if_addr (identity x) = if_addr (identity y)) as Ea.
      { rewrite <- (ip_of_u32_of_ip _ (Va x X1)), <- (ip_of_u32_of_ip _ (Va y Y1)). now rewrite E. }
      pose proof (Vn x y X1 Y1 ltac:(congruence)) as En. destruct (identity x), (identity y). simpl in *. congruence.
    + apply filter_perm. unfold all_registrations. rewrite <- !flat_map_concat_map. apply Permutation_flat_map.
      now rewrite !hash_iter_perm.
  - destruct (socket_for_ingress w index destination source) as [e|] eqn:M; unfold socket_for_ingress in M; fold leb ok in M.
    + pose proof (min_by_elem _ _ _ M) as I. split; [now apply Cand in I|]. intros r C D.
      assert (leb e r = true) as L.
      { eapply (min_by_least leb); eauto; [intros x; apply key_leb_refl|now apply Cand]. }
      unfold leb, key_leb, ingress_key in L. rewrite (bool_decide_true (IpV4 (if_addr (identity r)) = destination) D) in L.
      destruct (decide (IpV4 (if_addr (identity e)) = destination)) as [?|N]; [assumption|].
      rewrite (bool_decide_false (IpV4 (if_addr (identity e)) = destination) N) in L. simpl in L. discriminate.
    + apply min_by_None in M. intros r C. apply (Cand HO) in C. rewrite M in C. now apply elem_of_nil in C.
Qed.

End Ingress.
