(* ===== verification/Routes.v ===== *)
(** What the messenger remembers of observations: [MeasurementRoutes] of
    src/src/discovery/messenger.rs.

    Route hints say through which interface socket a peer's measurement
    endpoint was heard.  Revisions order the observations of a peer: a queued
    announcement owns the revision it was admitted with, and a later
    observation of the peer cancels it.  The program keeps weak references to
    revisions; here a revision that nothing owns any more is not in [live]. *)

From stdpp Require Import base list numbers strings gmap relations.
From Stdlib Require Import ZArith Lia.
From S2P Require Import Prelude Encoding Entries Collections NetworkScan Interfaces.

#[export] Instance SocketAddrV4_countable : Countable SocketAddrV4.
Proof. apply (inj_countable' (fun a => (ip a, port a)) (fun '(a, b) => MkAddr a b)). now intros []. Defined.

#[export] Instance NodeId_countable : Countable NodeId := _ : Countable (list Z).

Section Routes.
Context `{HO : HashOrder}.

(** ** Route hints *)

Definition MAX_MEASUREMENT_ROUTES : nat := 1024.
Definition MAX_ROUTES_PER_PEER : nat := 16.

Record RouteHint := MkHint { expires : Z; observed : Z; route : Registration }.

#[local] Notation RouteKey := (NodeId * SocketAddrV4)%type.
#[local] Notation MeasurementRouteMap := (@gmap (NodeId * SocketAddrV4) prod_eq_dec prod_countable RouteHint).

(** [current_in_snapshot]: [epoch] is what the one check the snapshot makes of
    the topology answers. *)
Definition current_in_snapshot (w : Interfaces) (epoch : option Z) (r : Registration) : bool :=
  negb (bool_decide (reg_id r ∈ cancelled w)) && (negb (managed r) || bool_decide (epoch = Some (generation r))).

Definition sweep (w : Interfaces) (epoch : option Z) (now : Z) (m : MeasurementRouteMap) : MeasurementRouteMap :=
  filter (fun x => (now <? expires (snd x)) && current_in_snapshot w epoch (route (snd x)) = true) m.

Definition peer_count (peer : NodeId) (m : MeasurementRouteMap) : nat :=
  length (List.filter (fun x => bool_decide (fst (fst x) = peer)) (map_to_list m)).

Definition sooner (x y : RouteKey * RouteHint) : bool := expires (snd x) <=? expires (snd y).

(** Removes the hint that expires first among those that satisfy [p]. *)
Definition evict (p : RouteKey * RouteHint -> bool) (m : MeasurementRouteMap) : MeasurementRouteMap :=
  match min_by sooner (List.filter p (hash_iter m)) with
  | Some (k, _) => delete k m
  | None => m
  end.

(** Room for a new key of a peer. *)
Definition make_room (peer : NodeId) (m : MeasurementRouteMap) : MeasurementRouteMap :=
  let m := if (MAX_ROUTES_PER_PEER <=? peer_count peer m)%nat
           then evict (fun x => bool_decide (fst (fst x) = peer)) m else m in
  if (MAX_MEASUREMENT_ROUTES <=? base.size m)%nat then evict (fun _ => true) m else m.

(** The retain of a withdrawal, and of an announcement without an endpoint. *)
Definition withdraw (peer : NodeId) (at_ : Z) (m : MeasurementRouteMap) : MeasurementRouteMap :=
  filter (fun x => negb (bool_decide (fst (fst x) = peer)) || (at_ <? observed (snd x)) = true) m.

Definition record_received_locked (w : Interfaces) (epoch : option Z) (now : Z) (peer : NodeId)
    (endpoint : option SocketAddrV4) (hint : RouteHint) (existing_only : bool) (m : MeasurementRouteMap)
  : MeasurementRouteMap :=
  let m := sweep w epoch now m in
  if negb (current_in_snapshot w epoch (route hint)) then m
  else match endpoint with
  | None => withdraw peer (observed hint) m
  | Some endpoint =>
    let key := (peer, endpoint) in
    if match m !! key with Some h => observed hint <? observed h | None => false end then m
    else if expires hint <=? now then delete key m
    else if existing_only && negb (bool_decide (is_Some (m !! key))) then m
    else
      let m := if bool_decide (is_Some (m !! key)) then m else make_room peer m in
      <[key := hint]> m
  end.

(** [resolve_async]: the hints after the sweep, and the route. *)
Definition resolve_async (w : Interfaces) (epoch : option Z) (now : Z) (peer : NodeId) (endpoint : option SocketAddrV4)
    (m : MeasurementRouteMap) : MeasurementRouteMap * option Registration :=
  match endpoint with
  | None => (m, None)
  | Some endpoint => let m := sweep w epoch now m in (m, route <$> m !! (peer, endpoint))
  end.

(** ** Revisions *)

(** An event revision: when its datagram was received, and whether a later
    observation cancelled it.  [about] is the peer it was issued for. *)
Record EventRevision := MkRevision { about : NodeId; received : Z; rev_cancelled : bool }.

Record Revisions := MkRevisions { live : gmap nat EventRevision; pending : gmap NodeId nat; next_rev : nat }.

Definition Revisions_new : Revisions := MkRevisions ∅ ∅ 0.

(** [Weak::upgrade] of the pending revision of a peer. *)
Definition upgrade (r : Revisions) (peer : NodeId) : option (nat * EventRevision) :=
  let! id := pending r !! peer in let! v := live r !! id in Some (id, v).

Definition cancel_revision (id : nat) (m : gmap nat EventRevision) : gmap nat EventRevision :=
  alter (fun v => MkRevision (about v) (received v) true) id m.

Definition observe_locked (peer : NodeId) (at_ : Z) (admitted : bool) (r : Revisions) : Revisions * option nat :=
  let kept := filter (fun x => is_Some (live r !! snd x)) (pending r) in
  let r := MkRevisions (live r) kept (next_rev r) in
  if match upgrade r peer with Some (_, v) => at_ <? received v | None => false end then (r, None)
  else
    let l := match upgrade r peer with Some (id, _) => cancel_revision id (live r) | None => live r end in
    let p := delete peer kept in
    if negb admitted then (MkRevisions l p (next_rev r), None)
    else (MkRevisions (<[next_rev r := MkRevision peer at_ false]> l) (<[peer := next_rev r]> p) (S (next_rev r)),
          Some (next_rev r)).

(** The last owner of a revision lets go of it. *)
Definition drop_revision (id : nat) (r : Revisions) : Revisions :=
  MkRevisions (delete id (live r)) (pending r) (next_rev r).

(** [PeerObservation::try_while_current] lets its closure run: the ingress is
    current and the revision is not cancelled. *)
Definition observation_current (w : Interfaces) (epoch : option Z) (ingress : Registration) (rev : nat) (r : Revisions) : bool :=
  while_current w epoch ingress &&
  match live r !! rev with Some v => negb (rev_cancelled v) | None => false end.

End Routes.

Notation MeasurementRouteMap := (@gmap (NodeId * SocketAddrV4) prod_eq_dec prod_countable RouteHint).
Notation RouteKey := (NodeId * SocketAddrV4)%type.

(** ** The hints stay bounded *)

Section RouteProperties.
Context `{HO : HashOrder}.

Record routes_ok (m : MeasurementRouteMap) : Prop := {
  ok_size : (base.size m <= MAX_MEASUREMENT_ROUTES)%nat;
  ok_peers : forall peer, (peer_count peer m <= MAX_ROUTES_PER_PEER)%nat
}.

Definition of_peer (peer : NodeId) (x : RouteKey * RouteHint) : bool := bool_decide (fst (fst x) = peer).

Lemma peer_count_insert peer (k : RouteKey) (h : RouteHint) (m : MeasurementRouteMap) :
  m !! k = None ->
  peer_count peer (<[k := h]> m) = ((if bool_decide (fst k = peer) then 1 else 0) + peer_count peer m)%nat.
Proof.
  intros L. unfold peer_count.
  rewrite (Permutation_length (filter_perm (of_peer peer) _ _ (map_to_list_insert m k h L))).
  simpl. unfold of_peer at 1. simpl. case_bool_decide; reflexivity.
Qed.

Lemma peer_count_delete peer (k : RouteKey) (h : RouteHint) (m : MeasurementRouteMap) :
  m !! k = Some h ->
  peer_count peer m = ((if bool_decide (fst k = peer) then 1 else 0) + peer_count peer (delete k m))%nat.
Proof.
  intros L. rewrite <- (insert_delete_id m k h L) at 1. rewrite peer_count_insert; [reflexivity|]. apply lookup_delete_eq.
Qed.

Lemma peer_count_submap peer (m m' : MeasurementRouteMap) : m' ⊆ m -> (peer_count peer m' <= peer_count peer m)%nat.
Proof.
  intros S. unfold peer_count.
  assert (forall l l' : list (RouteKey * RouteHint), NoDup l' -> (forall x, x ∈ l' -> x ∈ l) ->
    (length (List.filter (of_peer peer) l') <= length (List.filter (of_peer peer) l))%nat) as F.
  { intros l l' N I. apply submseteq_length. apply NoDup_submseteq.
    - apply NoDup_ListNoDup, List.NoDup_filter, NoDup_ListNoDup, N.
    - intros x H. apply list_elem_of_In, filter_In in H as [H1 H2]. apply list_elem_of_In, filter_In.
      split; [|exact H2]. now apply list_elem_of_In, I, list_elem_of_In. }
  apply F; [apply NoDup_map_to_list|]. intros [k h] H. apply elem_of_map_to_list in H. apply elem_of_map_to_list.
  exact (lookup_weaken _ _ _ _ H S).
Qed.

Lemma routes_ok_submap (m m' : MeasurementRouteMap) : routes_ok m -> m' ⊆ m -> routes_ok m'.
Proof.
  intros [S P] H. split.
  - etransitivity; [|exact S]. now apply map_subseteq_size.
  - intros peer. etransitivity; [|apply (P peer)]. now apply peer_count_submap.
Qed.

Lemma sweep_submap w epoch now (m : MeasurementRouteMap) : sweep w epoch now m ⊆ m.
Proof. apply map_filter_subseteq. Qed.

Lemma withdraw_submap peer at_ (m : MeasurementRouteMap) : withdraw peer at_ m ⊆ m.
Proof. apply map_filter_subseteq. Qed.

Lemma sooner_laws :
  (forall x, sooner x x = true) /\ (forall x y, sooner x y = false -> sooner y x = true) /\
  (forall x y z, sooner x y = true -> sooner y z = true -> sooner x z = true).
Proof. unfold sooner. repeat split; intros; lia. Qed.

(** An eviction removes exactly one hint that satisfies [p], one that expires
    first among them. *)
Lemma evict_spec p (m : MeasurementRouteMap) :
  match min_by sooner (List.filter p (hash_iter m)) with
  | Some (k, h) => evict p m = delete k m /\ m !! k = Some h /\ p (k, h) = true /\
      (forall k' h', m !! k' = Some h' -> p (k', h') = true -> expires h <= expires h')
  | None => evict p m = m /\ forall k h, m !! k = Some h -> p (k, h) = false
  end.
Proof.
  unfold evict. destruct (min_by sooner (List.filter p (hash_iter m))) as [[k h]|] eqn:E.
  - split; [reflexivity|]. pose proof (min_by_elem _ _ _ E) as I. apply list_elem_of_In, filter_In in I as [I P].
    split; [now apply elem_of_hash_iter, list_elem_of_In|]. split; [exact P|]. intros k' h' L' P'.
    destruct sooner_laws as (R & T & Tr).
    pose proof (min_by_least sooner R T Tr _ _ (k', h') E) as Ls. unfold sooner in Ls. simpl in Ls.
    assert (expires h <=? expires h' = true); [|lia]. apply Ls. apply list_elem_of_In, filter_In.
    split; [now apply list_elem_of_In, elem_of_hash_iter|exact P'].
  - split; [reflexivity|]. intros k h L. apply min_by_None in E. apply not_true_iff_false. intros P.
    assert (In (k, h) (List.filter p (hash_iter m))) as I.
    { apply filter_In. split; [now apply list_elem_of_In, elem_of_hash_iter|exact P]. }
    rewrite E in I. destruct I.
Qed.

Lemma evict_submap p (m : MeasurementRouteMap) : evict p m ⊆ m.
Proof. unfold evict. destruct (min_by _ _) as [[k h]|]; [apply delete_subseteq|reflexivity]. Qed.

Lemma peer_count_0 peer (m : MeasurementRouteMap) :
  (forall k h, m !! k = Some h -> of_peer peer (k, h) = false) -> peer_count peer m = 0%nat.
Proof.
  intros H. unfold peer_count. destruct (List.filter (of_peer peer) (map_to_list m)) as [|[k h] l] eqn:E.
  - unfold of_peer in E. now rewrite E.
  - exfalso. assert (In (k, h) (List.filter (of_peer peer) (map_to_list m))) as I by (rewrite E; now left).
    apply filter_In in I as [I P]. apply list_elem_of_In, elem_of_map_to_list in I. rewrite (H k h I) in P. discriminate.
Qed.

(** Evicting a peer's hint leaves room for one more. *)
Lemma evict_peer_count peer (m : MeasurementRouteMap) :
  (peer_count peer m <= MAX_ROUTES_PER_PEER)%nat ->
  (peer_count peer (evict (of_peer peer) m) < MAX_ROUTES_PER_PEER)%nat.
Proof.
  intros B. pose proof (evict_spec (of_peer peer) m) as E. unfold MAX_ROUTES_PER_PEER in *.
  destruct (min_by _ _) as [[k h]|].
  - destruct E as (-> & L & P & _). rewrite (peer_count_delete peer k h m L) in B.
    unfold of_peer in P. simpl in P. rewrite P in B. lia.
  - destruct E as (-> & N). rewrite (peer_count_0 peer m N). lia.
Qed.

Lemma evict_size (m : MeasurementRouteMap) :
  (base.size m <= MAX_MEASUREMENT_ROUTES)%nat -> (base.size (evict (fun _ => true) m) < MAX_MEASUREMENT_ROUTES)%nat.
Proof.
  intros B. pose proof (evict_spec (fun _ => true) m) as E. unfold MAX_MEASUREMENT_ROUTES in *.
  destruct (min_by _ _) as [[k h]|].
  - destruct E as (-> & L & _). rewrite map_size_delete_Some by eauto. assert (base.size m <> 0)%nat; [|lia].
    intros Z. apply map_size_empty_inv in Z. rewrite Z, lookup_empty in L. discriminate.
  - destruct E as (-> & N). assert (m = ∅) as ->; [|rewrite map_size_empty; lia].
    apply map_eq. intros k. rewrite lookup_empty. destruct (m !! k) as [h|] eqn:L; [|reflexivity].
    now specialize (N k h L).
Qed.

Lemma make_room_spec peer (m : MeasurementRouteMap) :
  routes_ok m -> make_room peer m ⊆ m /\ (base.size (make_room peer m) < MAX_MEASUREMENT_ROUTES)%nat /\
  (peer_count peer (make_room peer m) < MAX_ROUTES_PER_PEER)%nat.
Proof.
  intros [S P]. unfold make_room. change (fun x : RouteKey * RouteHint => bool_decide (fst (fst x) = peer)) with (of_peer peer).
  set (m1 := if (MAX_ROUTES_PER_PEER <=? peer_count peer m)%nat then evict (of_peer peer) m else m).
  assert (m1 ⊆ m /\ (peer_count peer m1 < MAX_ROUTES_PER_PEER)%nat) as [S1 P1].
  { unfold m1. destruct (Nat.leb_spec MAX_ROUTES_PER_PEER (peer_count peer m)).
    - split; [apply evict_submap|apply evict_peer_count, P].
    - split; [reflexivity|assumption]. }
  assert (base.size m1 <= MAX_MEASUREMENT_ROUTES)%nat as Z1 by (etransitivity; [apply map_subseteq_size, S1|exact S]).
  destruct (Nat.leb_spec MAX_MEASUREMENT_ROUTES (base.size m1)).
  - split; [transitivity m1; [apply evict_submap|exact S1]|]. split; [now apply evict_size|].
    eapply Nat.le_lt_trans; [|exact P1]. apply peer_count_submap, evict_submap.
  - now split.
Qed.

Lemma insert_existing_ok (k : RouteKey) (h h0 : RouteHint) (m : MeasurementRouteMap) : m !! k = Some h0 -> routes_ok m -> routes_ok (<[k := h]> m).
Proof.
  intros L [S P]. split; [rewrite map_size_insert_Some by eauto; exact S|]. intros peer.
  rewrite <- (insert_delete_eq m k h). rewrite peer_count_insert by apply lookup_delete_eq.
  rewrite <- (peer_count_delete peer k h0 m L). apply P.
Qed.

Lemma insert_new_ok (k : RouteKey) (h : RouteHint) (m : MeasurementRouteMap) :
  m !! k = None -> routes_ok m -> (base.size m < MAX_MEASUREMENT_ROUTES)%nat ->
  (peer_count (fst k) m < MAX_ROUTES_PER_PEER)%nat -> routes_ok (<[k := h]> m).
Proof.
  intros L [S P] B C. split; [rewrite map_size_insert_None by exact L; unfold MAX_MEASUREMENT_ROUTES in *; lia|].
  intros peer. rewrite peer_count_insert by exact L. specialize (P peer). unfold MAX_ROUTES_PER_PEER in *.
  case_bool_decide as E; [subst peer; lia|lia].
Qed.

Lemma record_received_ok w epoch now peer endpoint hint existing (m : MeasurementRouteMap) :
  routes_ok m -> routes_ok (record_received_locked w epoch now peer endpoint hint existing m).
Proof.
  intros Ok. pose proof (routes_ok_submap _ _ Ok (sweep_submap w epoch now m)) as Oks.
  unfold record_received_locked. destruct (negb _); [exact Oks|]. destruct endpoint as [endpoint|].
  2:{ exact (routes_ok_submap _ _ Oks (withdraw_submap _ _ _)). }
  set (s := sweep w epoch now m) in *. destruct (match s !! _ with Some _ => _ | None => _ end); [exact Oks|].
  destruct (expires hint <=? now); [exact (routes_ok_submap _ _ Oks (delete_subseteq _ _))|].
  destruct (_ && _); [exact Oks|]. case_bool_decide as K.
  - destruct K as [h0 L]. exact (insert_existing_ok _ _ _ _ L Oks).
  - destruct (make_room_spec peer s Oks) as (S & Z & P). apply insert_new_ok; try assumption.
    + apply eq_None_not_Some. intros [h L]. apply K. exists h. exact (lookup_weaken _ _ _ _ L S).
    + exact (routes_ok_submap _ _ Oks S).
Qed.

Lemma resolve_ok w epoch now peer endpoint (m : MeasurementRouteMap) :
  routes_ok m -> routes_ok (fst (resolve_async w epoch now peer endpoint m)).
Proof.
  intros Ok. unfold resolve_async. destruct endpoint; [|exact Ok]. exact (routes_ok_submap _ _ Ok (sweep_submap _ _ _ _)).
Qed.

(** The route table stays bounded: recording an observation keeps at most
    1024 hints in all and at most 16 of any one peer, whatever endpoints a peer
    claims; a withdrawal and the sweeps only remove hints. *)
Theorem routes_bounded w epoch now peer endpoint hint existing (m : MeasurementRouteMap) :
  routes_ok m -> routes_ok (record_received_locked w epoch now peer endpoint hint existing m) /\
  routes_ok (withdraw peer now m) /\ routes_ok (fst (resolve_async w epoch now peer endpoint m)).
Proof.
  intros Ok. split; [now apply record_received_ok|]. split; [|now apply resolve_ok].
  exact (routes_ok_submap _ _ Ok (withdraw_submap _ _ _)).
Qed.

(** A route is answered only while its hint has not expired and its socket is
    registered at the current epoch. *)
Lemma resolve_current w epoch now peer endpoint (m : MeasurementRouteMap) r :
  snd (resolve_async w epoch now peer endpoint m) = Some r ->
  exists e h, endpoint = Some e /\ m !! (peer, e) = Some h /\ route h = r /\ now < expires h /\
              current_in_snapshot w epoch r = true.
Proof.
  unfold resolve_async. destruct endpoint as [e|]; [|discriminate]. simpl. intros H.
  destruct (sweep w epoch now m !! (peer, e)) as [h|] eqn:L; [|discriminate]. injection H as <-.
  apply map_lookup_filter_Some in L as [L F]. simpl in F. apply andb_true_iff in F as [F1 F2].
  exists e, h. repeat split; auto. lia.
Qed.

(** The newest observation of an endpoint decides its route: a record that
    is current, not expired and not older than the hint it meets is what is
    resolved from then on, until it expires; an older one changes nothing of
    that endpoint. *)
Theorem newest_route_wins w epoch now peer e hint (m : MeasurementRouteMap) now' :
  routes_ok m -> current_in_snapshot w epoch (route hint) = true -> now < expires hint ->
  let m' := record_received_locked w epoch now peer (Some e) hint false m in
  match sweep w epoch now m !! (peer, e) with
  | Some h => if observed hint <? observed h then m' !! (peer, e) = Some h else m' !! (peer, e) = Some hint
  | None => m' !! (peer, e) = Some hint
  end /\
  (m' !! (peer, e) = Some hint -> now' < expires hint ->
   snd (resolve_async w epoch now' peer (Some e) m') = Some (route hint)).
Proof.
  intros Ok Cur Live m'. split.
  - unfold m', record_received_locked. rewrite Cur. simpl. set (s := sweep w epoch now m).
    assert (expires hint <=? now = false) as -> by lia.
    destruct (s !! (peer, e)) as [h|] eqn:L; [destruct (observed hint <? observed h); [exact L|]|]; apply lookup_insert_eq.
  - intros L B. unfold resolve_async. simpl.
    assert (sweep w epoch now' m' !! (peer, e) = Some hint) as ->; [|reflexivity].
    apply map_lookup_filter_Some. split; [exact L|]. simpl. rewrite Cur. lia.
Qed.

(** ** The order of observations *)

(** The live revisions of a peer that are not cancelled: only the pending
    one. *)
Record revisions_ok (r : Revisions) : Prop := {
  ok_pending : forall id v, live r !! id = Some v -> rev_cancelled v = false -> pending r !! about v = Some id;
  ok_about : forall peer id v, pending r !! peer = Some id -> live r !! id = Some v -> about v = peer;
  ok_rev_fresh : forall id, is_Some (live r !! id) -> (id < next_rev r)%nat;
  ok_pending_fresh : forall peer id, pending r !! peer = Some id -> (id < next_rev r)%nat
}.

Lemma upgrade_Some r peer id v : upgrade r peer = Some (id, v) <-> pending r !! peer = Some id /\ live r !! id = Some v.
Proof.
  unfold upgrade. destruct (pending r !! peer) as [i|]; simpl; [|split; [discriminate|now intros []]].
  destruct (live r !! i) as [v'|] eqn:L; simpl.
  - split; [intros [= <- <-]; now split|]. intros [[= <-] E]. rewrite L in E. now injection E as <-.
  - split; [discriminate|]. intros [[= <-] E]. congruence.
Qed.

Lemma cancel_lookup id (m : gmap nat EventRevision) j v :
  cancel_revision id m !! j = Some v ->
  exists v0, m !! j = Some v0 /\ about v = about v0 /\ (j = id -> rev_cancelled v = true) /\ (j <> id -> v = v0).
Proof.
  unfold cancel_revision. destruct (decide (id = j)) as [<-|N].
  - rewrite lookup_alter_eq. destruct (m !! id) as [v0|]; [|discriminate]. intros [= <-]. exists v0. now repeat split.
  - rewrite lookup_alter_ne by exact N. intros L. exists v. split; [exact L|]. split; [reflexivity|]. split; [intros ->; now destruct N|reflexivity].
Qed.

(** What an observation leaves of the revisions of its peer. *)
Lemma observe_cases peer at_ adm r r' o :
  revisions_ok r -> observe_locked peer at_ adm r = (r', o) ->
  revisions_ok r' /\
  ((exists id v, upgrade r peer = Some (id, v) /\ at_ < received v /\ o = None /\ live r' = live r) \/
   ((forall id v, live r !! id = Some v -> about v = peer ->
       exists v', live r' !! id = Some v' /\ rev_cancelled v' = true) /\
    (o = if adm then Some (next_rev r) else None) /\
    (adm = true -> live r' !! next_rev r = Some (MkRevision peer at_ false)))).
Proof.
  intros [P A F G]. unfold observe_locked. set (kept := filter _ (pending r)).
  assert (forall q id, kept !! q = Some id <-> pending r !! q = Some id /\ is_Some (live r !! id)) as Kept.
  { intros q id. unfold kept. apply map_lookup_filter_Some. }
  assert (upgrade (MkRevisions (live r) kept (next_rev r)) peer = upgrade r peer) as Up.
  { apply option_eq. intros [id v]. rewrite !upgrade_Some. simpl. rewrite Kept. split; [tauto|]. intros [H1 H2]. eauto. }
  cbn [live pending next_rev]. rewrite Up. clear Up.
  destruct (match upgrade r peer with Some (_, v) => at_ <? received v | None => false end) eqn:Old.
  { intros [= <- <-]. split.
    - constructor; simpl; auto.
      + intros id v L C. apply Kept. split; [now apply P|eauto].
      + intros q id v L. apply Kept in L as [L _]. now apply A.
      + intros q id L. apply Kept in L as [L _]. now apply G in L.
    - left. destruct (upgrade r peer) as [[id v]|]; [|discriminate]. exists id, v. repeat split; auto. lia. }
  set (l := match upgrade r peer with Some (id, _) => cancel_revision id (live r) | None => live r end).
  assert (forall id v, l !! id = Some v -> exists v0, live r !! id = Some v0 /\ about v = about v0 /\
    (rev_cancelled v = false -> v = v0 /\ about v <> peer)) as Lsp.
  { intros id v L. unfold l in L. destruct (upgrade r peer) as [[i vi]|] eqn:U.
    - apply upgrade_Some in U as [U1 U2]. apply cancel_lookup in L as (v0 & L0 & E & C1 & C2). exists v0.
      split; [exact L0|]. split; [exact E|]. intros C. destruct (decide (id = i)) as [->|N]; [rewrite C1 in C by reflexivity; discriminate|].
      rewrite (C2 N) in *. split; [reflexivity|]. intros X. subst peer. rewrite (P id v0 L0 C) in U1. congruence.
    - exists v. split; [exact L|]. split; [reflexivity|]. intros C. split; [reflexivity|]. intros X. subst peer.
      assert (upgrade r (about v) = Some (id, v)) by (apply upgrade_Some; split; [now apply P|exact L]). congruence. }
  assert (forall id v, live r !! id = Some v -> exists v', l !! id = Some v' /\ about v' = about v /\ (about v = peer -> rev_cancelled v' = true)) as Lfw.
  { intros id v L. unfold l. destruct (upgrade r peer) as [[i vi]|] eqn:U.
    - apply upgrade_Some in U as [U1 U2]. unfold cancel_revision. destruct (decide (i = id)) as [->|N].
      + rewrite lookup_alter_eq, L. simpl. eexists. now repeat split.
      + rewrite lookup_alter_ne by exact N. exists v. repeat split; auto. intros X.
        destruct (rev_cancelled v) eqn:C; [reflexivity|]. subst peer. rewrite (P id v L C) in U1. congruence.
    - exists v. repeat split; auto. intros X. destruct (rev_cancelled v) eqn:C; [reflexivity|]. exfalso. subst peer.
      assert (upgrade r (about v) = Some (id, v)) by (apply upgrade_Some; split; [now apply P|exact L]). congruence. }
  assert (forall id, is_Some (l !! id) -> (id < next_rev r)%nat) as Fr.
  { intros id [v L]. apply Lsp in L as (v0 & L & _). eauto. }
  destruct adm; cbn [negb]; intros [= <- <-].
  - split.
    + constructor; simpl.
      * intros id v L C. destruct (decide (next_rev r = id)) as [<-|N].
        -- rewrite lookup_insert_eq in L. injection L as <-. apply lookup_insert_eq.
        -- rewrite lookup_insert_ne in L by exact N. apply Lsp in L as (v0 & L & E & K). destruct (K C) as [-> Np].
           rewrite lookup_insert_ne by congruence. rewrite lookup_delete_ne by congruence. apply Kept. split; [now apply P|eauto].
      * intros q id v L1 L2. destruct (decide (peer = q)) as [<-|N].
        -- rewrite lookup_insert_eq in L1. injection L1 as <-. rewrite lookup_insert_eq in L2. now injection L2 as <-.
        -- rewrite lookup_insert_ne, lookup_delete_ne in L1 by exact N. apply Kept in L1 as [L1 _].
           rewrite lookup_insert_ne in L2 by (apply G in L1; lia). apply Lsp in L2 as (v0 & L2 & E & _). rewrite E. now apply (A q id).
      * intros id [v L]. destruct (decide (next_rev r = id)) as [<-|N]; [lia|]. rewrite lookup_insert_ne in L by exact N.
        specialize (Fr id ltac:(eauto)). lia.
      * intros q id L. destruct (decide (peer = q)) as [<-|N].
        -- rewrite lookup_insert_eq in L. injection L as <-. lia.
        -- rewrite lookup_insert_ne, lookup_delete_ne in L by exact N. apply Kept in L as [L _]. apply G in L. lia.
    + right. simpl. split; [|split; [reflexivity|intros _; apply lookup_insert_eq]]. intros id v L X.
      destruct (Lfw id v L) as (v' & L' & _ & C). exists v'. split; [|auto].
      rewrite lookup_insert_ne by (assert (is_Some (live r !! id)) as K by eauto; apply F in K; lia). exact L'.
  - split.
    + constructor; simpl.
      * intros id v L C. apply Lsp in L as (v0 & L & E & K). destruct (K C) as [-> Np].
        rewrite lookup_delete_ne by congruence. apply Kept. split; [now apply P|eauto].
      * intros q id v L1 L2. apply lookup_delete_Some in L1 as [_ L1]. apply Kept in L1 as [L1 _].
        apply Lsp in L2 as (v0 & L2 & E & _). rewrite E. now apply (A q id).
      * exact Fr.
      * intros q id L. apply lookup_delete_Some in L as [_ L]. apply Kept in L as [L _]. now apply G in L.
    + right. simpl. split; [|split; [reflexivity|discriminate]]. intros id v L X.
      destruct (Lfw id v L) as (v' & L' & _ & C). eauto.
Qed.

Lemma drop_revision_ok id r : revisions_ok r -> revisions_ok (drop_revision id r).
Proof.
  intros [P A F G]. constructor; simpl; auto.
  - intros i v L. apply lookup_delete_Some in L as [_ L]. now apply P.
  - intros q i v L1 L2. apply lookup_delete_Some in L2 as [_ L2]. now apply (A q i).
  - intros i [v L]. apply lookup_delete_Some in L as [_ L]. apply F. eauto.
Qed.

Lemma Revisions_new_ok : revisions_ok Revisions_new.
Proof. constructor; simpl; intros; try (rewrite lookup_empty in *; discriminate).
  destruct H; rewrite lookup_empty in *; discriminate. Qed.

End RouteProperties.

(** ** What an observation leaves of the revisions *)

Section MoreRevisions.
Context `{HO : HashOrder}.

(** Every revision that is live after an observation was live before it, no less
    cancelled, unless it is the one just issued. *)
Lemma observe_live peer at_ adm r r' o :
  observe_locked peer at_ adm r = (r', o) ->
  (next_rev r <= next_rev r')%nat /\
  (forall id, o = Some id -> id = next_rev r /\ adm = true /\ (id < next_rev r')%nat /\ live r' !! id = Some (MkRevision peer at_ false)) /\
  (forall id v', live r' !! id = Some v' ->
     o = Some id \/
     exists v, live r !! id = Some v /\ about v' = about v /\ received v' = received v /\
               (rev_cancelled v = true -> rev_cancelled v' = true)).
Proof.
  unfold observe_locked. cbn [live pending next_rev].
  set (up := upgrade _ peer). destruct (match up with Some (_, v) => at_ <? received v | None => false end).
  { intros [= <- <-]. cbn [live next_rev]. split; [lia|]. split; [discriminate|]. intros id v L. right. now exists v. }
  assert (forall id v', match up with Some (i, _) => cancel_revision i (live r) | None => live r end !! id = Some v' ->
    exists v, live r !! id = Some v /\ about v' = about v /\ received v' = received v /\
      (rev_cancelled v = true -> rev_cancelled v' = true)) as Old.
  { intros id v' L. destruct up as [[i vi]|]; [|now exists v'].
    unfold cancel_revision in L. destruct (decide (i = id)) as [->|N].
    - rewrite lookup_alter_eq in L. destruct (live r !! id) as [v|]; [|discriminate]. injection L as <-. now exists v.
    - rewrite lookup_alter_ne in L by exact N. now exists v'. }
  destruct adm; cbn [negb]; intros [= <- <-]; cbn [live next_rev].
  - split; [lia|]. split.
    + intros id [= <-]. repeat split; [lia|]. apply lookup_insert_eq.
    + intros id v' L. destruct (decide (next_rev r = id)) as [<-|N]; [now left|]. right.
      rewrite lookup_insert_ne in L by exact N. now apply Old.
  - split; [lia|]. split; [discriminate|]. intros id v' L. right. now apply Old.
Qed.
End MoreRevisions.
