(* ===== verification/InterfaceScan.v ===== *)
(** The scan of the interfaces: [interface_scan_with] of
    src/src/discovery/messenger.rs over the topology's epochs (Topology.v), the
    registrations (Interfaces.v) and the routes learned on them (Routes.v).

    A pass forgets the routes that ended, checks the topology, lets a blocking
    task enumerate the interfaces, checks again, and reconciles under the lock of
    the registrations, where it checks a third time.  Between any two of these
    the network changes and others check the topology.  The changes the
    operating system has reported and nobody has read are [unread]; [network]
    counts all of them, so that it names what the network is. *)

From stdpp Require Import base list numbers gmap relations.
From Stdlib Require Import ZArith Lia.
From S2P Require Import Prelude Encoding Entries AudioQueue Collections Topology NetworkScan Interfaces Routes.

Section Scan.
Context `{HO : HashOrder}.

Notation SetupFailures := (gmap Ipv4Interface SetupError).
Notation RouteMap := (@gmap (NodeId * SocketAddrV4) prod_eq_dec prod_countable RouteHint).

(** [Looking]: the enumeration runs; [Snapped]: it has read the interfaces of
    the network [at_]; [Reconciling]: the second check agreed.  [since] is the
    network at the first check, which answered [gen]. *)
Inductive ScanPhase :=
| Waiting
| Pruned
| Looking (gen since : Z)
| Snapped (gen since at_ : Z) (current : list Ipv4Interface) (local : LocalIdentity)
| Reconciling (gen since at_ : Z) (current : list Ipv4Interface) (local : LocalIdentity).

(** The scan the registrations are from: the network it shows, what it found
    and the generation it was applied at. *)
Record AppliedScan := MkApplied { shows : Z; found : list Ipv4Interface; applied_gen : Z }.

(** [applied] and [refused] only remember: what was last applied, and the
    generation of the last enumeration when it failed. *)
Record Scanner := MkScanner {
  unread : list bytes;
  network : Z;
  epoch : Z;
  world : Interfaces;
  routes : RouteMap;
  failures : SetupFailures;
  observed_gen : Z;
  phase : ScanPhase;
  applied : option AppliedScan;
  refused : option Z
}.

(** [interface_scan_with] before its loop; [first] is the first registration
    there is. *)
Definition Scanner_new (e : Z) (w : Interfaces) : Scanner :=
  MkScanner [] 0 e w ∅ ∅ (match all_registrations w with r :: _ => generation r | [] => 0 end) Waiting None None.

Definition with_phase (p : ScanPhase) (s : Scanner) : Scanner :=
  MkScanner (unread s) (network s) (epoch s) (world s) (routes s) (failures s) (observed_gen s) p (applied s) (refused s).
Definition with_epoch (u : list bytes) (e : Z) (s : Scanner) : Scanner :=
  MkScanner u (network s) e (world s) (routes s) (failures s) (observed_gen s) (phase s) (applied s) (refused s).

(** A check of the topology by anyone: it reads the socket dry, or, with
    [fails], some of it and then an error. *)
Definition check_topology (os : OS) (fails : option nat) (s : Scanner) : option Z * Scanner :=
  let rs := match fails with
            | None => map RecvBytes (unread s) ++ [RecvAgain]
            | Some n => map RecvBytes (take n (unread s)) ++ [RecvError]
            end in
  match check os rs (epoch s) with
  | Some (e, answer) =>
      (match answer with Ok now => Some now | Err _ => None end,
       with_epoch (match fails with None => [] | Some n => drop n (unread s) end) e s)
  | None => (None, s)
  end.

(** The network changes: the operating system reports it. *)
Definition network_changes (data : bytes) (s : Scanner) : Scanner :=
  MkScanner (unread s ++ [data]) (network s + 1) (epoch s) (world s) (routes s) (failures s) (observed_gen s) (phase s)
    (applied s) (refused s).

(** The loop wakes, by its tick, a change, or a failure of the monitor, and
    prunes the routes. *)
Definition prune (os : OS) (fails : option nat) (now : Z) (s : Scanner) : Scanner :=
  match phase s with
  | Waiting =>
      let '(answer, s) := check_topology os fails s in
      MkScanner (unread s) (network s) (epoch s) (world s) (sweep (world s) answer now (routes s)) (failures s)
        (observed_gen s) Pruned (applied s) (refused s)
  | _ => s
  end.

Definition first_check (os : OS) (fails : option nat) (s : Scanner) : Scanner :=
  match phase s with
  | Pruned =>
      let '(answer, s) := check_topology os fails s in
      match answer with
      | Some gen => with_phase (Looking gen (network s)) s
      | None => with_phase Waiting s
      end
  | _ => s
  end.

(** The enumeration reads the interfaces; it ends later. *)
Definition snapshot (current : list Ipv4Interface) (local : LocalIdentity) (s : Scanner) : Scanner :=
  match phase s with
  | Looking gen since => with_phase (Snapped gen since (network s) current local) s
  | _ => s
  end.

(** The enumeration fails: the loop sleeps on the registrations it has. *)
Definition scan_fails (s : Scanner) : Scanner :=
  match phase s with
  | Looking gen _ | Snapped gen _ _ _ _ =>
      MkScanner (unread s) (network s) (epoch s) (world s) (routes s) (failures s) gen Waiting (applied s) (Some gen)
  | _ => s
  end.

Definition second_check (os : OS) (fails : option nat) (s : Scanner) : Scanner :=
  match phase s with
  | Snapped gen since at_ current local =>
      let '(answer, s) := check_topology os fails s in
      match answer with
      | Some after => if after =? gen then with_phase (Reconciling gen since at_ current local) s else with_phase Waiting s
      | None => with_phase Waiting s
      end
  | _ => s
  end.

Definition reconcile (os : OS) (fails : option nat) (responder : bool) (setup : Ipv4Interface -> SetupOs)
    (leaves : Z -> bool) (s : Scanner) : Scanner :=
  match phase s with
  | Reconciling gen since at_ current local =>
      let '(answer, s) := check_topology os fails s in
      let '(w, f) := reconcile_interfaces_async true responder current local gen answer setup leaves (failures s) (world s) in
      MkScanner (unread s) (network s) (epoch s) w (routes s) f gen Waiting
        (if bool_decide (answer = Some gen) then Some (MkApplied at_ current gen) else applied s) None
  | _ => s
  end.

(** The epoch is a 64-bit counter, which no run exhausts. *)
Inductive scan_step (os : OS) : Scanner -> Scanner -> Prop :=
| ScNetwork s data : is_change os data = true -> scan_step os s (network_changes data s)
| ScCheck s fails : epoch s + 1 < 2 ^ 64 -> scan_step os s (check_topology os fails s).2
| ScPrune s fails now : epoch s + 1 < 2 ^ 64 -> scan_step os s (prune os fails now s)
| ScFirst s fails : epoch s + 1 < 2 ^ 64 -> scan_step os s (first_check os fails s)
| ScSnapshot s current local : scan_step os s (snapshot current local s)
| ScFails s : scan_step os s (scan_fails s)
| ScSecond s fails : epoch s + 1 < 2 ^ 64 -> scan_step os s (second_check os fails s)
| ScReconcile s fails responder setup leaves :
    epoch s + 1 < 2 ^ 64 -> scan_step os s (reconcile os fails responder setup leaves s).

(** A pass with nothing in between. *)
Definition pass (os : OS) (now : Z) (current : list Ipv4Interface) (local : LocalIdentity) (responder : bool)
    (setup : Ipv4Interface -> SetupOs) (leaves : Z -> bool) (s : Scanner) : Scanner :=
  reconcile os None responder setup leaves
    (second_check os None (snapshot current local (first_check os None (prune os None now s)))).

(** [Topology::changed] would not wait. *)
Definition is_woken (s : Scanner) : bool := negb (epoch s =? observed_gen s) || match unread s with [] => false | _ => true end.

End Scan.

(** ** The loop rests on the network as it is *)

Section ScanProperties.
Context `{HO : HashOrder}.

(** The registrations are those of a scan, at a generation. *)
Definition registers (w : Interfaces) (f : gmap Ipv4Interface SetupError) (current : list Ipv4Interface) (gen : Z) : Prop :=
  (forall r, registered w r -> identity r ∈ current /\ generation r = gen) /\
  (forall i, i ∈ current -> (exists r, registered w r /\ identity r = i) \/ is_Some (f !! i)).

(** Since the check that answered [gen] at network [since], every change is
    still unread, unless the epoch has moved. *)
Definition tracked (s : Scanner) (gen since : Z) : Prop :=
  gen <= epoch s /\ since <= network s /\ (epoch s = gen -> network s = since + Z.of_nat (length (unread s))).

Record scan_ok (os : OS) (s : Scanner) : Prop := {
  sc_epoch : 0 <= epoch s;
  sc_unread : Forall (fun d => is_change os d = true) (unread s);
  sc_world : registry_ok (world s);
  sc_observed : observed_gen s <= epoch s;
  sc_applied : forall a, applied s = Some a ->
    tracked s (applied_gen a) (shows a) /\ registers (world s) (failures s) (found a) (applied_gen a) /\
    (epoch s = observed_gen s -> applied_gen a = observed_gen s \/ refused s = Some (observed_gen s));
  sc_phase : match phase s with
             | Looking gen since => tracked s gen since
             | Snapped gen since at_ _ _ => tracked s gen since /\ since <= at_ <= network s
             | Reconciling gen since at_ _ _ => tracked s gen since /\ since <= at_ <= network s
             | _ => True
             end
}.

Lemma reports_all os l x :
  Forall (fun d => is_change os d = true) l -> reports os (map RecvBytes l ++ [x]) =
  match l with [] => reports os [x] | _ => true end.
Proof. intros [|d l' E _]; [reflexivity|]. cbn. now rewrite E. Qed.

Lemma drain_all os l x ch e :
  x = RecvAgain \/ x = RecvError -> exists e' r, drain os (map RecvBytes l ++ [x]) ch e = Some (e', r) /\
  (x = RecvAgain -> r = Ok tt) /\ (x = RecvError -> exists err, r = Err err).
Proof.
  revert ch. induction l as [|d l IH]; intros ch D; [|apply (IH _ D)].
  destruct D as [-> | ->]; cbn; eexists _, _; (split; [reflexivity|]); split; try discriminate; eauto.
Qed.

Lemma reads_end l x a b : map RecvBytes l ++ [x] = a ++ RecvAgain :: b -> b = [].
Proof.
  revert l. induction a as [|y a IH]; intros [|d l]; cbn; try discriminate.
  - now intros [= _ <-].
  - intros [= _ E]. now destruct a.
  - intros [= _ E]. exact (IH l E).
Qed.

(** A check that reads a change or fails moves the epoch; another leaves it. *)
Lemma check_topology_spec os fails s :
  Forall (fun d => is_change os d = true) (unread s) -> 0 <= epoch s -> epoch s + 1 < 2 ^ 64 ->
  exists e u, (check_topology os fails s).2 = with_epoch u e s /\
  (e = epoch s + 1 \/ e = epoch s /\ unread s = [] /\ fails = None) /\
  Forall (fun d => is_change os d = true) u /\
  (fails = None -> u = [] /\ (check_topology os fails s).1 = Some e) /\
  (forall now, (check_topology os fails s).1 = Some now -> fails = None).
Proof.
  intros F H0 B. unfold check_topology. destruct fails as [n|].
  - assert (Forall (fun d => is_change os d = true) (take n (unread s))) as Ft by now apply Forall_take.
    destruct (drain_all os (take n (unread s)) RecvError false (epoch s)) as (e & r & D & _ & Er); [auto|].
    destruct (Er eq_refl) as [err ->]. unfold check. rewrite D. cbn.
    apply drain_reports in D; [| |rewrite orb_false_l, (reports_all os _ _ Ft); now destruct (take n (unread s))].
    + rewrite invalidate_exact in D by lia. exists e, (drop n (unread s)). repeat split; auto; try discriminate. now apply Forall_drop.
    + intros a b. apply reads_end.
  - destruct (drain_all os (unread s) RecvAgain false (epoch s)) as (e & r & D & Er & _); [auto|].
    rewrite (Er eq_refl) in D. unfold check. rewrite D. cbn. exists e, [].
    split; [reflexivity|]. split; [|repeat split; auto].
    destruct (unread s) as [|d l] eqn:U; [cbn in D; injection D as <-; now right|]. left.
    apply drain_reports in D; [| |rewrite orb_false_l; apply (reports_all os (d :: l) RecvAgain F)].
    + now rewrite invalidate_exact in D by lia.
    + intros a b E. exact (reads_end (d :: l) _ _ _ E).
Qed.

(** Changes since a check stay accounted for. *)
Lemma tracked_check os fails s gen since :
  scan_ok os s -> epoch s + 1 < 2 ^ 64 -> tracked s gen since -> tracked (check_topology os fails s).2 gen since.
Proof.
  intros Ok B (T1 & T3 & T2). destruct (check_topology_spec os fails s (sc_unread os s Ok) (sc_epoch os s Ok) B) as (e & u & -> & E & _ & N & _).
  split; [|split; [exact T3|]]; cbn; [lia|]. intros Eg. destruct E as [->|(-> & U & Nf)]; [lia|]. specialize (T2 Eg). rewrite U in T2.
  destruct (N Nf) as [-> _]. exact T2.
Qed.

Lemma check_topology_ok os fails s : scan_ok os s -> epoch s + 1 < 2 ^ 64 -> scan_ok os (check_topology os fails s).2.
Proof.
  intros Ok B. pose proof (fun g n => tracked_check os fails s g n Ok B) as Tr.
  destruct (check_topology_spec os fails s (sc_unread os s Ok) (sc_epoch os s Ok) B) as (e & u & E0 & E & F & _).
  rewrite E0 in *. destruct Ok as [A1 A2 A3 A4 A5 A6]. constructor; cbn; auto; try lia.
  - intros a Ha. destruct (A5 a Ha) as (T & R & O). split; [apply Tr, T|]. split; [exact R|]. intros He. apply O. lia.
  - destruct (phase s); [exact I|exact I|apply Tr, A6|split; [apply Tr, A6|apply A6]|split; [apply Tr, A6|apply A6]].
Qed.

(** The state a check leaves but for what it read. *)
Lemma check_fields os fails s :
  let s' := (check_topology os fails s).2 in
  network s' = network s /\ world s' = world s /\ routes s' = routes s /\ failures s' = failures s /\
  observed_gen s' = observed_gen s /\ phase s' = phase s /\ applied s' = applied s /\ refused s' = refused s.
Proof. unfold check_topology. destruct (check _ _ _) as [[e r]|]; now repeat split. Qed.


(** Moving on: the phase is the only thing to re-establish. *)
Lemma with_phase_ok os p s :
  scan_ok os s ->
  match p with
  | Looking gen since => tracked s gen since
  | Snapped gen since at_ _ _ => tracked s gen since /\ since <= at_ <= network s
  | Reconciling gen since at_ _ _ => tracked s gen since /\ since <= at_ <= network s
  | _ => True
  end -> scan_ok os (with_phase p s).
Proof. intros [A1 A2 A3 A4 A5 _] A6. now constructor. Qed.

Lemma network_changes_ok os data s : is_change os data = true -> scan_ok os s -> scan_ok os (network_changes data s).
Proof.
  intros Cd [A1 A2 A3 A4 A5 A6].
  assert (forall g n, tracked s g n -> tracked (network_changes data s) g n) as Tr.
  { intros g n (T1 & T3 & T2). split; [exact T1|]. split; [cbn; lia|]. cbn. intros E. rewrite length_app, (T2 E). cbn. lia. }
  constructor; cbn; auto.
  - apply Forall_app. split; [exact A2|]. now constructor.
  - intros a Ha. destruct (A5 a Ha) as (T & RO). auto.
  - destruct (phase s); [exact I|exact I|apply Tr, A6|split; [apply Tr, A6|lia]|split; [apply Tr, A6|lia]].
Qed.

(** A scan that is applied, or dropped at the last check. *)
Lemma reconcile_ok os fails responder setup leaves s :
  scan_ok os s -> epoch s + 1 < 2 ^ 64 -> scan_ok os (reconcile os fails responder setup leaves s).
Proof.
  intros Ok B. unfold reconcile. destruct (phase s) as [| | | |gen since at_ current local] eqn:Ph; try exact Ok.
  pose proof (check_topology_ok os fails s Ok B) as Ok'. pose proof (check_fields os fails s) as (Fn & Fw & _ & Ff & Fo & Fp & Fa & _).
  destruct (check_topology_spec os fails s (sc_unread os s Ok) (sc_epoch os s Ok) B) as (e & u & E0 & E & _ & N & An).
  destruct (check_topology os fails s) as [answer s1] eqn:Ck. cbn [fst snd] in *.
  destruct Ok' as [A1 A2 A3 A4 A5 A6]. rewrite Fp, Ph in A6. pose proof A6 as ((T1 & T3 & T2) & T4).
  unfold reconcile_interfaces_async. cbn [andb].
  destruct (bool_decide (answer = Some gen)) eqn:Bd; cbn [negb].
  - apply bool_decide_eq_true in Bd. subst answer. pose proof (An gen eq_refl) as Nf. destruct (N Nf) as [Nu Ne]. injection Ne as <-.
    destruct (reconcile_interfaces_locked _ _ _ _ _ _ _ _ _) as [w f] eqn:Rc.
    apply reconcile_spec in Rc as (W1 & W2 & W3 & _); [|exact A3]. constructor; cbn; auto.
    intros a [= <-]. cbn. split; [|split; [now split|now left]].
    subst s1 u. split; [exact T1|]. cbn in *. split; [apply T4|]. intros Eg. specialize (T2 Eg). lia.
  - apply bool_decide_eq_false in Bd. constructor; cbn; auto; try exact I.
    intros a Ha. destruct (A5 a Ha) as (TA & RA & _). split; [exact TA|]. split; [exact RA|]. intros He. exfalso.
    destruct (decide (fails = None)) as [Nf|Nf].
    + destruct (N Nf) as [_ Ne]. subst s1. cbn in He. congruence.
    + destruct E as [->|(_ & _ & Nf')]; [|easy]. subst s1. cbn in *. destruct Ok as [_ _ _ _ _ Op]. rewrite Ph in Op.
      destruct Op as [[Op _] _]. lia.
Qed.

Lemma scan_step_ok os s s' : scan_step os s s' -> scan_ok os s -> scan_ok os s'.
Proof.
  intros St Ok. destruct St as [s data Cd|s fails B|s fails now B|s fails B|s current local|s|s fails B|s fails responder setup leaves B].
  - now apply network_changes_ok.
  - now apply check_topology_ok.
  - unfold prune. destruct (phase s); try exact Ok. pose proof (check_topology_ok os fails s Ok B) as [A1 A2 A3 A4 A5 A6].
    destruct (check_topology os fails s) as [answer s1]. cbn in *. now constructor.
  - unfold first_check. destruct (phase s) eqn:Ph; try exact Ok. pose proof (check_topology_ok os fails s Ok B) as Ok'.
    destruct (check_topology_spec os fails s (sc_unread os s Ok) (sc_epoch os s Ok) B) as (e & u & E0 & _ & _ & N & An).
    destruct (check_topology os fails s) as [[gen|] s1]; cbn in *; apply with_phase_ok; auto.
    destruct (N (An gen eq_refl)) as [-> [= <-]]. subst s1. split; [|split]; cbn; [lia|lia|]. intros _. lia.
  - unfold snapshot. destruct (phase s) as [| |gen since| |] eqn:Ph; try exact Ok. apply with_phase_ok; [exact Ok|].
    pose proof (sc_phase os s Ok) as A6. rewrite Ph in A6. split; [exact A6|]. destruct A6 as (_ & A6 & _). lia.
  - unfold scan_fails. destruct (phase s) as [| |gen since|gen since at_ cur loc|] eqn:Ph; try exact Ok;
      pose proof (sc_phase os s Ok) as A6; rewrite Ph in A6; destruct Ok as [A1 A2 A3 A4 A5 _]; constructor; cbn; auto; try apply A6;
      intros a Ha; destruct (A5 a Ha) as (T & R & _); auto.
  - unfold second_check. destruct (phase s) as [| | |gen since at_ current local|] eqn:Ph; try exact Ok.
    pose proof (check_fields os fails s) as (Fn & _).
    pose proof (check_topology_ok os fails s Ok B) as Ok'. pose proof (sc_phase os s Ok) as A6. rewrite Ph in A6.
    pose proof (tracked_check os fails s gen since Ok B (proj1 A6)) as T.
    destruct (check_topology os fails s) as [[after|] s1]; cbn in *; [|now apply with_phase_ok].
    destruct (after =? gen); apply with_phase_ok; auto. rewrite Fn. split; [exact T|apply A6].
  - now apply reconcile_ok.
Qed.

Lemma scan_steps_ok os s s' : rtc (scan_step os) s s' -> scan_ok os s -> scan_ok os s'.
Proof. induction 1; eauto using scan_step_ok. Qed.

Lemma Scanner_new_ok os e w :
  0 <= e -> registry_ok w -> (forall r, registered w r -> generation r <= e) -> scan_ok os (Scanner_new e w).
Proof.
  intros H0 W G. unfold Scanner_new. constructor; cbn; auto; try discriminate.
  destruct (all_registrations w) as [|r l] eqn:A; [exact H0|]. apply G. apply elem_of_all_registrations. rewrite A. now left.
Qed.

(** Nothing unread: a check changes nothing. *)
Lemma quiet_check os s : unread s = [] -> check_topology os None s = (Some (epoch s), s).
Proof. intros U. unfold check_topology. rewrite U. cbn. unfold with_epoch. rewrite <- U. now destruct s. Qed.

(** A check that answers the generation of an earlier one: the network has not
    moved in between. *)
Lemma agreeing_check os fails s gen since at_ :
  scan_ok os s -> epoch s + 1 < 2 ^ 64 -> tracked s gen since -> since <= at_ <= network s ->
  (check_topology os fails s).1 = Some gen ->
  let s' := (check_topology os fails s).2 in unread s' = [] /\ epoch s' = gen /\ at_ = network s'.
Proof.
  intros Ok B T L A. pose proof (tracked_check os fails s gen since Ok B T) as (_ & _ & T').
  pose proof (check_fields os fails s) as (Fn & _).
  destruct (check_topology_spec os fails s (sc_unread os s Ok) (sc_epoch os s Ok) B) as (e & u & E0 & _ & _ & N & An).
  destruct (N (An gen A)) as [-> E]. rewrite A in E. injection E as <-. cbv zeta. rewrite Fn.
  rewrite E0 in *. cbn in *. repeat split; auto. specialize (T' eq_refl). lia.
Qed.

(** The registrations are replaced by those of the network there is. *)
Definition fresh_scan (s : Scanner) : Prop :=
  exists a, applied s = Some a /\ shows a = network s /\ applied_gen a = epoch s /\ unread s = [] /\
            registers (world s) (failures s) (found a) (epoch s).

(** The snapshot to be reconciled shows the network there is. *)
Definition fresh_snapshot (s : Scanner) : Prop :=
  match phase s with Reconciling gen _ at_ _ _ => at_ = network s /\ gen = epoch s /\ unread s = [] | _ => False end.

Lemma scan_step_fresh os s s' :
  scan_ok os s -> scan_step os s s' ->
  (world s' = world s /\ failures s' = failures s /\ applied s' = applied s \/ fresh_scan s') /\
  (match phase s', phase s with Reconciling _ _ _ _ _, Snapped _ _ _ _ _ => fresh_snapshot s' | Reconciling _ _ _ _ _, p => p = phase s' | _, _ => True end).
Proof.
  intros Ok St. pose proof (sc_phase os s Ok) as A6.
  destruct St as [s data Cd|s fails B|s fails now B|s fails B|s current local|s|s fails B|s fails responder setup leaves B].
  - split; [now left|]. cbn. now destruct (phase s).
  - pose proof (check_fields os fails s) as (_ & -> & _ & -> & _ & -> & -> & _). split; [now left|]. now destruct (phase s).
  - pose proof (check_fields os fails s) as (_ & Fw & _ & Ff & _ & _ & Fa & _). unfold prune.
    destruct (phase s) eqn:Ph; try (rewrite Ph; split; [now left|exact I || reflexivity]).
    destruct (check_topology os fails s) as [answer s1]. cbn in *. split; [now left|exact I].
  - pose proof (check_fields os fails s) as (_ & Fw & _ & Ff & _ & _ & Fa & _). unfold first_check.
    destruct (phase s) eqn:Ph; try (rewrite Ph; split; [now left|exact I || reflexivity]).
    destruct (check_topology os fails s) as [[answer|] s1]; cbn in *; (split; [now left|exact I]).
  - unfold snapshot. destruct (phase s) eqn:Ph; try (rewrite Ph); cbn; (split; [now left|exact I || reflexivity]).
  - unfold scan_fails. destruct (phase s) eqn:Ph; try (rewrite Ph); cbn; (split; [now left|exact I || reflexivity]).
  - pose proof (check_fields os fails s) as (_ & Fw & _ & Ff & _ & _ & Fa & _). unfold second_check.
    destruct (phase s) as [| | |gen since at_ current local|] eqn:Ph; try (rewrite Ph; split; [now left|exact I || reflexivity]).
    pose proof (agreeing_check os fails s gen since at_ Ok B (proj1 A6) (proj2 A6)) as Ag.
    destruct (check_topology os fails s) as [[after|] s1]; cbn in *; [|split; [now left|exact I]].
    destruct (after =? gen) eqn:Eg; cbn; (split; [now left|]); [|exact I]. apply Z.eqb_eq in Eg as ->.
    destruct (Ag eq_refl) as (U & E & N). now repeat split.
  - pose proof (check_fields os fails s) as (_ & Fw & _ & Ff & _ & _ & Fa & _). unfold reconcile.
    destruct (phase s) as [| | | |gen since at_ current local] eqn:Ph; try (rewrite Ph; split; [now left|exact I || reflexivity]).
    pose proof (agreeing_check os fails s gen since at_ Ok B (proj1 A6) (proj2 A6)) as Ag.
    destruct (check_topology os fails s) as [answer s1]; cbn [fst snd] in *. unfold reconcile_interfaces_async. cbn [andb].
    case_bool_decide as Bd; cbn [negb]; [|split; [left; now cbn|exact I]]. subst answer. destruct (Ag eq_refl) as (U & E & N).
    destruct (reconcile_interfaces_locked _ _ _ _ _ _ _ _ _) as [w f] eqn:Rc.
    apply reconcile_spec in Rc as (_ & W2 & W3 & _); [|rewrite Fw; apply Ok]. split; [right|exact I].
    eexists. split; [reflexivity|]. cbn. rewrite E. now repeat split; try apply W2.
Qed.

Lemma pass_settles os now current local responder setup leaves s :
  scan_ok os s -> epoch s + 1 < 2 ^ 64 -> phase s = Waiting ->
  let s' := pass os now current local responder setup leaves s in
  phase s' = Waiting /\ is_woken s' = false /\ network s' = network s /\ applied s' = Some (MkApplied (network s) current (epoch s')) /\
  registers (world s') (failures s') current (epoch s').
Proof.
  intros Ok B Ph. cbv zeta. unfold pass.
  destruct (check_topology_spec os None s (sc_unread os s Ok) (sc_epoch os s Ok) B) as (e & u & E0 & _ & _ & N & _).
  destruct (N eq_refl) as [-> E1]. pose proof (check_fields os None s) as F.
  unfold prune. rewrite Ph. destruct (check_topology os None s) as [answer s1]. cbn in E0, E1, F. subst answer s1.
  unfold first_check. cbn [phase]. rewrite quiet_check by reflexivity. cbn [epoch network with_phase snapshot phase].
  unfold second_check. cbn [phase with_phase]. rewrite quiet_check by reflexivity. cbn [epoch with_phase]. rewrite Z.eqb_refl.
  unfold reconcile. cbn [phase with_phase]. rewrite quiet_check by reflexivity. cbn [epoch with_phase network failures world with_epoch].
  unfold reconcile_interfaces_async. rewrite bool_decide_true by reflexivity. cbn [andb negb].
  destruct (reconcile_interfaces_locked _ _ _ _ _ _ _ _ _) as [w f] eqn:Rc.
  apply reconcile_spec in Rc as (_ & W2 & W3 & _); [|apply Ok].
  unfold is_woken. cbn. rewrite Z.eqb_refl. repeat split; auto; now apply W2.
Qed.

(** C36 The scan loop registers only what it has seen of the present network, and
    rests only on it.  However the network changes while a pass runs, whoever else
    reads the changes, and whatever fails: the registrations, and the failures
    recorded beside them, are replaced only by a scan of the network as it is at
    that moment, at the epoch it then has, no change being unread, each interface
    found being registered or its failure recorded; a snapshot goes on to be
    reconciled only if it shows the network as it is at that moment.  Once a scan
    has been applied, whenever nothing would wake the loop, the registrations are
    still those of the scan applied last, which is one of the present network at
    the present epoch unless the last enumeration failed at this epoch, in which
    case the loop sleeps on what it has until its next tick.  A pass that nothing
    disturbs, on whatever network there then is, brings the registrations up to it
    and leaves the loop at rest. *)
Theorem scan_rests_on_current_network os e w s now current local responder setup leaves :
  0 <= e -> registry_ok w -> (forall r, registered w r -> generation r <= e) ->
  rtc (scan_step os) (Scanner_new e w) s ->
  (forall s', scan_step os s s' ->
     (world s' = world s /\ failures s' = failures s /\ applied s' = applied s \/ fresh_scan s') /\
     match phase s', phase s with
     | Reconciling _ _ _ _ _, Snapped _ _ _ _ _ => fresh_snapshot s'
     | Reconciling _ _ _ _ _, p => p = phase s'
     | _, _ => True
     end) /\
  (is_woken s = false -> forall a, applied s = Some a ->
     registers (world s) (failures s) (found a) (applied_gen a) /\
     (shows a = network s /\ applied_gen a = epoch s \/ refused s = Some (epoch s))) /\
  (phase s = Waiting -> epoch s + 1 < 2 ^ 64 ->
   let s' := pass os now current local responder setup leaves s in
   phase s' = Waiting /\ is_woken s' = false /\ network s' = network s /\
   applied s' = Some (MkApplied (network s) current (epoch s')) /\
   registers (world s') (failures s') current (epoch s')).
Proof.
  intros H0 W G St. pose proof (scan_steps_ok _ _ _ St (Scanner_new_ok os e w H0 W G)) as Ok. split; [|split].
  - intros s' S. exact (scan_step_fresh os s s' Ok S).
  - unfold is_woken. intros Nw a Ha. apply orb_false_iff in Nw as [Ne Nu]. apply negb_false_iff, Z.eqb_eq in Ne.
    destruct (unread s) eqn:U; [|discriminate]. destruct (sc_applied os s Ok a Ha) as ((_ & _ & T) & R & O).
    split; [exact R|]. destruct (O Ne) as [Eg|F]; [left|right; congruence]. rewrite U in T. cbn in T. rewrite T by congruence. split; [lia|congruence].
  - intros Ph B. now apply (pass_settles os now current local responder setup leaves s).
Qed.

End ScanProperties.


