(* ===== verification/MeasurementJob.v ===== *)
(** Measurement jobs: [Measurement::with_route], [listen], [reset_timer] and
    [finish], and [measure_peer_in_epoch] of src/src/link/measurement.rs.

    A job is four tasks around shared state: the timer loop, the listener that
    takes the pongs dispatched to it, the task that turns the listener's signal
    into a result, and the future that waits for the timer and hands the result
    on.  Each critical section is one event; the order of events is arbitrary. *)

From stdpp Require Import base list numbers strings gmap relations.
From Stdlib Require Import ZArith Lia SpecFloat.
From S2P Require Import Prelude Chrono F64 Encoding Beats Tempo Timeline GhostXForm Entries Payload Messages Measurement Sessions Routes.

Section Job.
Context `{Ch : Chrono, FD : FloatDecode}.

Notation Samples := (list (f64 * f64)).

(** The timer loop: before its pause of 50 ms, sending a ping, pausing for a
    second, or left. *)
Inductive TimerPhase := TPause | TPinging | TSecond | TLeft.

(** How the future of [with_route] ends. *)
Inductive Outcome := Waiting | Published (samples : Samples) | Aborted.

(** [terminal] is the channel of one result, [signal] the listener's signal,
    [permit] the permit of [finished_notifier], [sent] the pings sent. *)
Record Job := MkJob {
  job_session : SessionId;
  started : nat;
  data : Samples;
  timer : TimerPhase;
  listening : bool;
  signal : bool;
  permit : bool;
  terminal : option Samples;
  success : bool;
  outcome : Outcome;
  pings : list Payload
}.

Definition with_timer (t : TimerPhase) (n : nat) (p : list Payload) (j : Job) : Job :=
  MkJob (job_session j) n (data j) t (listening j) (signal j) (permit j) (terminal j) (success j) (outcome j) p.
Definition with_data (d : Samples) (l s : bool) (p : list Payload) (j : Job) : Job :=
  MkJob (job_session j) (started j) d (timer j) l s (permit j) (terminal j) (success j) (outcome j) p.
Definition with_outcome (o : Outcome) (j : Job) : Job :=
  MkJob (job_session j) (started j) (data j) (timer j) (listening j) (signal j) (permit j) (terminal j) (success j) o (pings j).

(** [try_send] on the channel of one result: a queued result wins. *)
Definition publish_samples (s : Samples) (j : Job) : Job :=
  MkJob (job_session j) (started j) (data j) (timer j) (listening j) (signal j) (permit j)
    (match terminal j with Some t => Some t | None => Some s end) (success j) (outcome j) (pings j).

Definition notify_one (j : Job) : Job :=
  MkJob (job_session j) (started j) (data j) (timer j) (listening j) (signal j) true (terminal j) (success j) (outcome j) (pings j).

(** [with_route] up to the timer: [sent] is how the first ping ends. *)
Definition Job_start (session : SessionId) (now : Duration) (sent : bool) : Job :=
  let j := MkJob session 0 [] TPause true false false None false Waiting [] in
  if sent then with_timer TPause 0 [first_ping now] j
  else notify_one (publish_samples [] j).

(** The steps of [reset_timer]. *)
Definition timer_slept (now : Duration) (j : Job) : Job :=
  match fst (timer_pass (started j) now) with
  | SendPing p => with_timer TPinging (started j) (pings j) j
  | GiveUp => publish_samples [] (with_timer TLeft (started j) (pings j) (with_data [] (listening j) (signal j) (pings j) j))
  end.

Definition timer_pinged (now : Duration) (sent : bool) (j : Job) : Job :=
  if sent then with_timer TSecond (started j) (pings j ++ [first_ping now]) j
  else publish_samples [] (with_timer TLeft (started j) (pings j) j).

Definition timer_second (now : Duration) (j : Job) : Job :=
  with_timer TPause (snd (timer_pass (started j) now)) (pings j) j.

(** A pong at the listener: [current] says whether the route still is when the
    samples are added, [sent] whether the follow-up ping went out.  A pong without
    samples changes nothing; that the listener of a route that is gone then ends
    is [js_listener_ends]. *)
Definition listen_pong (now : Duration) (sent current : bool) (buf : bytes) (j : Job) : Job :=
  match handle_pong (job_session j) (data j) now buf with
  | Ignored => j
  | Sampled ping d complete =>
      let p := if sent then pings j ++ [ping] else pings j in
      if bool_decide (length d = length (data j)) && negb complete then with_data (data j) (listening j) (signal j) p j
      else if negb current then with_data (data j) false (signal j) p j
      else with_data d (listening j && negb complete) (signal j || complete) p j
  end.

(** The task behind [rx_timer]: [finish], then the notification. *)
Definition finish (j : Job) : Job :=
  let d := data j in
  let j := MkJob (job_session j) (started j) [] (timer j) (listening j) false (permit j) (terminal j) true (outcome j) (pings j) in
  notify_one (publish_samples d j).

Inductive job_step : Job -> Job -> Prop :=
| js_slept j now : timer j = TPause -> job_step j (timer_slept now j)
| js_pinged j now sent : timer j = TPinging -> job_step j (timer_pinged now sent j)
| js_second j now : timer j = TSecond -> job_step j (timer_second now j)
| js_notified j : timer j <> TLeft -> permit j = true ->
    job_step j (MkJob (job_session j) (started j) (data j) TLeft (listening j) (signal j) false (terminal j) (success j) (outcome j) (pings j))
| js_pong j now sent current buf : listening j = true -> job_step j (listen_pong now sent current buf j)
| js_listener_ends j : job_step j (with_data (data j) false (signal j) (pings j) j)
| js_finish j : signal j = true -> job_step j (finish j)
| js_collect j s : outcome j = Waiting -> timer j = TLeft -> terminal j = Some s -> job_step j (with_outcome (Published s) j)
| js_abort j : outcome j = Waiting -> job_step j (with_outcome Aborted j).

(** What [measure_peer_in_epoch] reports for an outcome: [current] says whether
    the route of a managed measurement still is when the report is made. *)
Definition report (key : SessionKey) (node : NodeId) (managed_current : option bool) (o : Outcome) : option MeasurePeerEvent :=
  match o with
  | Waiting => None
  | Published s =>
      match managed_current with
      | Some false => Some (MCancelled key node)
      | _ => Some (MXForm key (measured_x_form s))
      end
  | Aborted => match managed_current with Some false => Some (MCancelled key node) | _ => None end
  end.

End Job.

(** ** Dispatching pongs to jobs *)

Section Dispatching.

(** [measurement_map] and the dispatch tables, one for each socket, with the
    job that owns each entry.  [channels] holds the pongs that wait for a job,
    while its listener lives; [owners] the registrations not dropped. *)
Record Dispatching := MkDispatching {
  measurement_map : gmap NodeId nat;
  pong_dispatch : gmap (nat * SocketAddrV4) nat;
  channels : gmap nat (list (bytes * SocketAddrV4));
  owners : gmap nat (NodeId * (nat * SocketAddrV4));
  next_job : nat
}.

Definition Dispatching_new : Dispatching := MkDispatching ∅ ∅ ∅ ∅ 0.

(** [measure_peer_in_epoch] before its job runs. *)
Definition register (node : NodeId) (table : nat) (endpoint : SocketAddrV4) (d : Dispatching) : Dispatching :=
  let job := next_job d in
  MkDispatching (measurement_map d) (<[(table, endpoint) := job]> (pong_dispatch d)) (<[job := []]> (channels d))
    (<[job := (node, (table, endpoint))]> (owners d)) (S job).

(** It keeps the measurement of a job that was not cancelled. *)
Definition keep_measurement (job : nat) (d : Dispatching) : Dispatching :=
  match owners d !! job with
  | Some (node, _) => MkDispatching (<[node := job]> (measurement_map d)) (pong_dispatch d) (channels d) (owners d) (next_job d)
  | None => d
  end.

(** The drop of a [MeasurementRegistration]. *)
Definition drop_registration (job : nat) (d : Dispatching) : Dispatching :=
  match owners d !! job with
  | None => d
  | Some (node, key) =>
      MkDispatching
        (if bool_decide (measurement_map d !! node = Some job) then delete node (measurement_map d) else measurement_map d)
        (if bool_decide (pong_dispatch d !! key = Some job) then delete key (pong_dispatch d) else pong_dispatch d)
        (channels d) (delete job (owners d)) (next_job d)
  end.

Definition dispatch_pong (table : nat) (msg : bytes) (src : SocketAddrV4) (d : Dispatching) : Dispatching :=
  match pong_dispatch d !! (table, src) with
  | None => d
  | Some job =>
    match channels d !! job with
    | None => MkDispatching (measurement_map d) (delete (table, src) (pong_dispatch d)) (channels d) (owners d) (next_job d)
    | Some q =>
      if (length q <? NUMBER_DATA_POINTS)%nat
      then MkDispatching (measurement_map d) (pong_dispatch d) (<[job := q ++ [(msg, src)]]> (channels d)) (owners d) (next_job d)
      else d
    end
  end.

Definition listener_takes (job : nat) (d : Dispatching) : Dispatching :=
  MkDispatching (measurement_map d) (pong_dispatch d) (alter tail job (channels d)) (owners d) (next_job d).
Definition listener_gone (job : nat) (d : Dispatching) : Dispatching :=
  MkDispatching (measurement_map d) (pong_dispatch d) (delete job (channels d)) (owners d) (next_job d).

Inductive dispatch_step : Dispatching -> Dispatching -> Prop :=
| ds_register d node table endpoint : dispatch_step d (register node table endpoint d)
| ds_keep d job : dispatch_step d (keep_measurement job d)
| ds_drop d job : dispatch_step d (drop_registration job d)
| ds_pong d table msg src : dispatch_step d (dispatch_pong table msg src d)
| ds_takes d job : dispatch_step d (listener_takes job d)
| ds_gone d job : dispatch_step d (listener_gone job d).

End Dispatching.

(** ** Every measurement ends, with one result *)

Section JobProperties.
Context `{Ch : Chrono, FD : FloatDecode}.

(** A failure, or enough samples. *)
Definition conclusive (s : list (f64 * f64)) : Prop := s = [] \/ (NUMBER_DATA_POINTS < length s)%nat.

Record job_ok (j : Job) : Prop := {
  ok_started : (started j <= NUMBER_MEASUREMENTS)%nat /\ (timer j = TPinging \/ timer j = TSecond -> (started j < NUMBER_MEASUREMENTS)%nat);
  ok_listening : listening j = true -> signal j = false /\ (length (data j) <= NUMBER_DATA_POINTS)%nat;
  ok_signal : signal j = true -> conclusive (data j);
  ok_terminal : forall s, terminal j = Some s -> conclusive s;
  ok_permit : permit j = true -> terminal j <> None;
  ok_left : timer j = TLeft -> terminal j <> None;
  ok_outcome : forall s, outcome j = Published s -> conclusive s
}.

Lemma Job_start_ok session now sent : job_ok (Job_start session now sent).
Proof.
  unfold Job_start, with_timer, notify_one, publish_samples. destruct sent; constructor; simpl; unfold NUMBER_MEASUREMENTS, NUMBER_DATA_POINTS;
    try discriminate; try (split; [lia|intros [?|?]; discriminate]); try (intros _; split; [reflexivity|lia]).
  intros s [= <-]. now left.
Qed.

Lemma listen_pong_ok now sent current buf j : job_ok j -> listening j = true -> job_ok (listen_pong now sent current buf j).
Proof.
  intros Ok L. pose proof Ok as [A B C D E F G]. destruct (B L) as [Sg N]. unfold listen_pong.
  destruct (handle_pong (job_session j) (data j) now buf) as [|ping d complete] eqn:H; [exact Ok|].
  assert (complete = (NUMBER_DATA_POINTS <? length d)%nat \/ (complete = false /\ d = data j)) as Hc.
  { unfold handle_pong in H. destruct (ping_parse_message_header buf) as [[mt hl]|]; [|discriminate].
    destruct (negb _); [discriminate|]. destruct (parse_payload _) as [[p|]|]; try discriminate.
    destruct (negb _); [discriminate|]. destruct (pong_samples _ _ _ _); injection H as _ <- <-; auto. }
  destruct (_ && _).
  { constructor; simpl; auto; intros _; now split. }
  destruct (negb current); [constructor; simpl; auto; discriminate|]. rewrite L. simpl.
  constructor; simpl; auto; destruct complete; simpl; try discriminate.
  - intros _. rewrite Sg. split; [reflexivity|]. destruct Hc as [Hc|[_ ->]]; [|exact N]. symmetry in Hc. now apply Nat.ltb_ge in Hc.
  - intros _. destruct Hc as [Hc|[Hc _]]; [|discriminate]. right. symmetry in Hc. now apply Nat.ltb_lt in Hc.
  - rewrite Sg. discriminate.
Qed.

Lemma job_step_ok j j' : job_ok j -> job_step j j' -> job_ok j'.
Proof.
  intros Ok St. pose proof Ok as [A B C D E F G]. destruct St as [j now T|j now sent T|j now T|j T P|j now sent current buf L|j|j S|j s W T X|j W].
  - unfold timer_slept, timer_pass. destruct (Nat.ltb_spec (started j) NUMBER_MEASUREMENTS) as [Lt|Ge]; simpl.
    + constructor; simpl; auto; try discriminate. split; [apply A|intros _; exact Lt].
    + set (j1 := with_data [] (listening j) (signal j) (pings j) j).
      assert (conclusive []) as Cn by now left.
      constructor; simpl; auto; try discriminate.
      * split; [apply A|]. intros [?|?]; discriminate.
      * intros L. split; [now apply B|simpl; lia].
      * destruct (terminal j) eqn:Te; [exact D|]. intros s [= <-]. exact Cn.
      * intros Pm. specialize (E Pm). now destruct (terminal j).
      * intros _. destruct (terminal j); discriminate.
  - unfold timer_pinged. destruct sent.
    + constructor; simpl; auto; try discriminate. split; [apply A|]. intros _. apply A. now left.
    + constructor; simpl; auto.
      * split; [apply A|]. intros [?|?]; discriminate.
      * destruct (terminal j) eqn:Te; [exact D|]. intros s [= <-]. now left.
      * intros Pm. specialize (E Pm). now destruct (terminal j).
      * intros _. destruct (terminal j); discriminate.
  - unfold timer_second, timer_pass. assert (started j < NUMBER_MEASUREMENTS)%nat as Lt by (apply A; now right).
    apply Nat.ltb_lt in Lt as Lb. rewrite Lb. constructor; simpl; auto; try discriminate.
    split; [unfold NUMBER_MEASUREMENTS in *; lia|intros [?|?]; discriminate].
  - constructor; simpl; auto; try discriminate. split; [apply A|intros [?|?]; discriminate].
  - now apply listen_pong_ok.
  - constructor; simpl; auto; discriminate.
  - unfold finish, notify_one, publish_samples. constructor; simpl; auto; try discriminate.
    + intros L. destruct (B L) as [B1 _]. congruence.
    + destruct (terminal j) eqn:Te; [exact D|]. intros s [= <-]. now apply C.
    + intros _. destruct (terminal j); discriminate.
    + intros _. destruct (terminal j); discriminate.
  - constructor; simpl; auto. intros s' [= <-]. now apply D.
  - constructor; simpl; auto. discriminate.
Qed.

(** What is left to do for the timer and the future that waits for it. *)
Definition phase_work (t : TimerPhase) : nat :=
  match t with TPause => 3 | TPinging => 2 | TSecond => 1 | TLeft => 0 end.
Definition job_work (j : Job) : nat :=
  match timer j with TLeft => 0 | t => (3 * (NUMBER_MEASUREMENTS - started j) + phase_work t)%nat end +
  match outcome j with Waiting => 1 | _ => 0 end.

(** A run, with the steps of the timer and of the outcome counted. *)
Inductive job_run : nat -> Job -> Job -> Prop :=
| run_nil j : job_run 0 j j
| run_driving n j j1 j2 : job_step j j1 -> timer j1 <> timer j \/ outcome j1 <> outcome j -> job_run n j1 j2 -> job_run (S n) j j2
| run_other n j j1 j2 : job_step j j1 -> timer j1 = timer j -> outcome j1 = outcome j -> job_run n j1 j2 -> job_run n j j2.

Lemma job_step_work j j' :
  job_ok j -> job_step j j' ->
  (timer j' = timer j /\ outcome j' = outcome j /\ job_work j' = job_work j) \/ (job_work j' < job_work j)%nat.
Proof.
  intros Ok St. destruct (ok_started j Ok) as [S1 S2]. unfold job_work.
  destruct St as [j now T|j now sent T|j now T|j T P|j now sent current buf L|j|j S|j s W T X|j W].
  - right. unfold timer_slept. destruct (fst _); simpl; rewrite T; simpl; lia.
  - right. unfold timer_pinged. destruct sent; simpl; rewrite T; simpl; lia.
  - right. unfold timer_second, timer_pass. assert (started j < NUMBER_MEASUREMENTS)%nat as Lt by (apply S2; now right).
    apply Nat.ltb_lt in Lt as Lb. rewrite Lb. cbn [snd timer with_timer started outcome]. rewrite T. unfold phase_work.
    unfold NUMBER_MEASUREMENTS in *. destruct (outcome j); lia.
  - right. simpl. destruct (timer j); simpl; try lia. now destruct T.
  - left. unfold listen_pong. destruct (handle_pong _ _ _ _) as [|ping d complete]; [now repeat split|].
    destruct (_ && _); [now repeat split|]. destruct (negb current); now repeat split.
  - left. now repeat split.
  - left. now repeat split.
  - right. simpl. rewrite W, T. simpl. lia.
  - right. simpl. rewrite W. lia.
Qed.

(** C27 A measurement ends: whatever pongs arrive and however its tasks
    interleave, its timer and the future that waits for it make at most 19 steps
    together; as long as the outcome is open one of them can make a step; and
    what is then reported is one result, either no samples, which stands for
    failure, or more than twenty. *)
Theorem measurement_ends session now sent n j :
  job_run n (Job_start session now sent) j ->
  (n <= 19)%nat /\
  (outcome j = Waiting -> exists j', job_step j j' /\ (timer j' <> timer j \/ exists s, outcome j' = Published s)) /\
  (forall s, outcome j = Published s -> s = [] \/ (20 < length s)%nat).
Proof.
  intros R. assert (forall m a b, job_run m a b -> job_ok a -> job_ok b /\ (m + job_work b <= job_work a)%nat) as Run.
  { induction 1 as [a|m a a1 b S1 N _ IH|m a a1 b S1 T O _ IH]; intros Ok; [split; [exact Ok|lia]| |];
      destruct (IH (job_step_ok _ _ Ok S1)) as [Ok' W]; split; auto;
      destruct (job_step_work _ _ Ok S1) as [(T' & O' & E)|Lt]; try lia. destruct N as [N|N]; congruence. }
  destruct (Run _ _ _ R (Job_start_ok session now sent)) as [Ok W]. split; [|split].
  - unfold Job_start in W. destruct sent; unfold job_work in W at 2; simpl in W; lia.
  - intros O. destruct (timer j) eqn:T.
    + exists (timer_slept now j). split; [now constructor|left]. unfold timer_slept. destruct (fst _); simpl; congruence.
    + exists (timer_pinged now true j). split; [now constructor|left]. simpl. discriminate.
    + exists (timer_second now j). split; [now constructor|left]. simpl. discriminate.
    + pose proof (ok_left j Ok T) as Te. destruct (terminal j) as [s|] eqn:X; [|now destruct Te].
      exists (with_outcome (Published s) j). split; [now apply js_collect|right]. now exists s.
  - exact (ok_outcome j Ok).
Qed.

End JobProperties.

(** ** Registrations do not leak *)

Record dispatching_ok (d : Dispatching) : Prop := {
  ok_measurements : forall node job, measurement_map d !! node = Some job -> exists key, owners d !! job = Some (node, key);
  ok_dispatch : forall key job, pong_dispatch d !! key = Some job -> exists node, owners d !! job = Some (node, key);
  ok_channels : forall job q, channels d !! job = Some q -> (length q <= NUMBER_DATA_POINTS)%nat;
  ok_owner_ids : forall job, is_Some (owners d !! job) -> (job < next_job d)%nat
}.

Lemma drop_registration_other job job' d :
  job <> job' ->
  (forall node, measurement_map d !! node = Some job' -> measurement_map (drop_registration job d) !! node = Some job') /\
  (forall key, pong_dispatch d !! key = Some job' -> pong_dispatch (drop_registration job d) !! key = Some job').
Proof.
  intros N. unfold drop_registration. destruct (owners d !! job) as [[node0 key0]|]; [|auto]. simpl. split.
  - intros node L. case_bool_decide as E; [|exact L]. destruct (decide (node0 = node)) as [->|D]; [congruence|]. now rewrite lookup_delete_ne.
  - intros key L. case_bool_decide as E; [|exact L]. destruct (decide (key0 = key)) as [->|D]; [congruence|]. now rewrite lookup_delete_ne.
Qed.

Lemma dispatch_step_ok d d' : dispatching_ok d -> dispatch_step d d' -> dispatching_ok d'.
Proof.
  intros Ok St. pose proof Ok as [M D C O]. destruct St as [d node table endpoint|d job|d job|d table msg src|d job|d job].
  - assert (forall job v, owners d !! job = Some v -> <[next_job d := (node, (table, endpoint))]> (owners d) !! job = Some v) as Old.
    { intros job v L. rewrite lookup_insert_ne; [exact L|]. intros <-. assert (is_Some (owners d !! next_job d)) as K by eauto.
      apply O in K. lia. }
    constructor; simpl.
    + intros n j L. destruct (M n j L) as [key K]. eauto.
    + intros key j L. destruct (decide ((table, endpoint) = key)) as [<-|N].
      * rewrite lookup_insert_eq in L. injection L as <-. exists node. apply lookup_insert_eq.
      * rewrite lookup_insert_ne in L by exact N. destruct (D key j L) as [n K]. eauto.
    + intros j q L. destruct (decide (next_job d = j)) as [<-|N].
      * rewrite lookup_insert_eq in L. injection L as <-. simpl. unfold NUMBER_DATA_POINTS. lia.
      * rewrite lookup_insert_ne in L by exact N. now apply (C j).
    + intros j L. destruct (decide (next_job d = j)) as [<-|N]; [lia|]. rewrite lookup_insert_ne in L by exact N. apply O in L. lia.
  - unfold keep_measurement. destruct (owners d !! job) as [[node key]|] eqn:Ow; [|exact Ok]. constructor; simpl; auto.
    intros n j L. destruct (decide (node = n)) as [<-|N].
    + rewrite lookup_insert_eq in L. injection L as <-. eauto.
    + rewrite lookup_insert_ne in L by exact N. auto.
  - unfold drop_registration. destruct (owners d !! job) as [[node key]|] eqn:Ow; [|exact Ok]. constructor; simpl; auto.
    + intros n j L. assert (measurement_map d !! n = Some j /\ j <> job) as [L' N].
      { case_bool_decide as E; [apply lookup_delete_Some in L as [N L]|]; (split; [exact L|]); intros ->;
          destruct (M n job L) as [k K]; congruence. }
      destruct (M n j L') as [k K]. exists k. now rewrite lookup_delete_ne.
    + intros k j L. assert (pong_dispatch d !! k = Some j /\ j <> job) as [L' N].
      { case_bool_decide as E; [apply lookup_delete_Some in L as [N L]|]; (split; [exact L|]); intros ->;
          destruct (D k job L) as [n K]; congruence. }
      destruct (D k j L') as [n K]. exists n. now rewrite lookup_delete_ne.
    + intros j [v L]. apply lookup_delete_Some in L as [_ L]. apply O. eauto.
  - unfold dispatch_pong. destruct (pong_dispatch d !! (table, src)) as [job|]; [|exact Ok].
    destruct (channels d !! job) as [q|].
    + destruct (Nat.ltb_spec (length q) NUMBER_DATA_POINTS) as [Lt|]; [|exact Ok]. constructor; simpl; auto.
      intros j q' L. destruct (decide (job = j)) as [<-|N].
      * rewrite lookup_insert_eq in L. injection L as <-. rewrite length_app. simpl. lia.
      * rewrite lookup_insert_ne in L by exact N. now apply (C j).
    + constructor; simpl; auto. intros k j L. apply lookup_delete_Some in L as [_ L]. auto.
  - constructor; simpl; auto. intros j q L. destruct (decide (job = j)) as [<-|N].
    + rewrite lookup_alter_eq in L. destruct (channels d !! job) as [q0|] eqn:L0; [|discriminate]. injection L as <-.
      specialize (C job q0 L0). destruct q0; simpl in *; lia.
    + rewrite lookup_alter_ne in L by exact N. now apply (C j).
  - constructor; simpl; auto. intros j q L. apply lookup_delete_Some in L as [_ L]. now apply (C j).
Qed.

(** Measurements do not leak and do not rob one another: whatever
    measurements start and end and whatever pongs arrive, each entry of the
    measurement map and of the dispatch tables belongs to a registration that
    still lives, under its own node and endpoint, so that none is left when all
    have ended; at most twenty pongs wait for a job; and ending one job never
    removes an entry that has since passed to another. *)
Theorem registrations_do_not_leak d :
  rtc dispatch_step Dispatching_new d ->
  (forall key job, pong_dispatch d !! key = Some job -> exists node, owners d !! job = Some (node, key)) /\
  (forall node job, measurement_map d !! node = Some job -> exists key, owners d !! job = Some (node, key)) /\
  (forall job q, channels d !! job = Some q -> (length q <= 20)%nat) /\
  (forall job job' key, job <> job' -> pong_dispatch d !! key = Some job' -> pong_dispatch (drop_registration job d) !! key = Some job') /\
  (owners d = ∅ -> measurement_map d = ∅ /\ pong_dispatch d = ∅).
Proof.
  intros St. assert (dispatching_ok d) as [M D C O].
  { assert (dispatching_ok Dispatching_new) as I0.
    { constructor; simpl; intros *; rewrite ?lookup_empty; try discriminate. intros [? [=]]. }
    revert I0. induction St as [d|d d1 d2 S1 _ IH]; [easy|]. intros Ok. apply IH. exact (dispatch_step_ok _ _ Ok S1). }
  split; [exact D|]. split; [exact M|]. split; [exact C|]. split.
  - intros job job' key N. now apply drop_registration_other.
  - intros E. split; apply map_eq; intros k; rewrite lookup_empty.
    + destruct (measurement_map d !! k) as [j|] eqn:L; [|reflexivity]. destruct (M k j L) as [x X]. now rewrite E, lookup_empty in X.
    + destruct (pong_dispatch d !! k) as [j|] eqn:L; [|reflexivity]. destruct (D k j L) as [x X]. now rewrite E, lookup_empty in X.
Qed.
