(* ===== verification/SessionsLoop.v ===== *)
(** The event loop of [Sessions::with_dispatch_gate] in
    src/src/link/sessions.rs, between the measurement service and the task that
    joins sessions, during one lifecycle.

    The loop owns the outcome of every measurement: it commits the measurement,
    gives the session up, or arms a retry.  Sightings, departures and edits go
    on meanwhile; each section under the locks is one step. *)

From stdpp Require Import base list numbers strings gmap relations.
From Stdlib Require Import ZArith Lia SpecFloat.
From S2P Require Import Prelude Chrono F64 Encoding Beats Tempo Timeline GhostXForm Entries Sessions Peers MeasurementJob.

Section Loop.
Context `{Ch : Chrono, FD : FloatDecode}.

(** Where the loop is in handling an event: it has taken the event, it has read
    the clock for a successful measurement, it waits for a permit of the join
    channel, or it has one. *)
Inductive Handling :=
| Idle
| Taken (e : MeasurePeerEvent)
| Measured (k : SessionKey) (m : SessionMeasurement)
| Reserving (k : SessionKey) (m : SessionMeasurement) (was_current : bool)
| Reserved (k : SessionKey) (m : SessionMeasurement) (was_current : bool).

(** A task of [remeasurements]: what it captured. *)
Record Retry := MkRetry { retry_key : SessionKey; cancelled_peer : option NodeId }.

(** [requests] and [joins] of the registry are the channels of one place that
    leave the loop, [results] is the one that leads to it, [jobs] are the
    measurements the service has taken up.  [retries] is keyed by the address of
    the incarnation and holds the tasks that are not finished.  [asked] is the log
    of the incarnations whose measurement has been requested, [clock] the latest
    reading of the clock. *)
Record SessionsLoop := MkLoop {
  reg : Registry;
  jobs : list (SessionKey * NodeId);
  results : list MeasurePeerEvent;
  handling : Handling;
  retries : gmap Z Retry;
  asked : list Z;
  clock : Duration
}.

Definition with_reg (g : Registry) (l : SessionsLoop) : SessionsLoop :=
  MkLoop g (jobs l) (results l) (handling l) (retries l) (asked l) (clock l).
Definition with_handling (h : Handling) (l : SessionsLoop) : SessionsLoop :=
  MkLoop (reg l) (jobs l) (results l) h (retries l) (asked l) (clock l).
Definition with_retries (r : gmap Z Retry) (l : SessionsLoop) : SessionsLoop :=
  MkLoop (reg l) (jobs l) (results l) (handling l) r (asked l) (clock l).
Definition with_asked (i : Z) (l : SessionsLoop) : SessionsLoop :=
  MkLoop (reg l) (jobs l) (results l) (handling l) (retries l) (i :: asked l) (clock l).
Definition with_requests (r : list MeasurePeerEvent) (g : Registry) : Registry :=
  MkRegistry (current g) (other_sessions g) (peers g) (has_joined g) (supply g) r (joins g).
Definition with_joins (j : list Session) (g : Registry) : Registry :=
  MkRegistry (current g) (other_sessions g) (peers g) (has_joined g) (supply g) (requests g) j.

Definition SessionsLoop_new (init : Session) (ps : list ControllerPeer) (sup : Supply) (now : Duration) : SessionsLoop :=
  MkLoop (Sessions_init init ps sup) [] [] Idle ∅ [] now.

(** The retry of a session replaces the one its incarnation has. *)
Definition arm (s : option Session) (peer : option NodeId) (l : SessionsLoop) : SessionsLoop :=
  match s with
  | Some s => with_retries (<[incarnation s := MkRetry (Session_key s) peer]> (retries l)) l
  | None => l
  end.

Definition event_key (e : MeasurePeerEvent) : SessionKey :=
  match e with MPeerState k _ | MXForm k _ | MCancelled k _ => k end.

(** The head of the loop. *)
Definition take_event (l : SessionsLoop) : SessionsLoop :=
  match results l with
  | [] => l
  | e :: rest =>
      MkLoop (reg l) (jobs l) rest (match e with MPeerState _ _ => Idle | _ => Taken e end) (retries l) (asked l) (clock l)
  end.

(** What is done with an event before the loop may wait. *)
Definition handle_event (l : SessionsLoop) : SessionsLoop :=
  match handling l with
  | Taken (MCancelled k peer) => with_handling Idle (arm (cancelled_session (reg l) k) (Some peer) l)
  | Taken (MXForm k x) =>
      if GhostXForm_eqb x GhostXForm_default then
        let '(s, g) := handle_failed_measurement_inner (reg l) k in
        with_handling Idle (arm s None (with_reg g l))
      else with_handling (Measured k (MkMeasurement x (clock l))) l
  | _ => l
  end.

Definition decide_event (l : SessionsLoop) : SessionsLoop :=
  match handling l with
  | Measured k m =>
      match measurement_decide (reg l) k m (clock l) with
      | (Some was_current, g) => with_handling (Reserving k m was_current) (with_reg g l)
      | (None, g) => with_handling Idle (with_reg g l)
      end
  | _ => l
  end.

(** [reserve_for_key] on the join channel: it gives up when the key is retired. *)
Definition key_alive (k : SessionKey) (current_only : bool) (g : Registry) : bool :=
  SessionKey_matches k (current g) || (negb current_only && existsb (SessionKey_matches k) (other_sessions g)).

Definition reserve_join (l : SessionsLoop) : SessionsLoop :=
  match handling l with
  | Reserving k m was_current =>
      if negb (key_alive k was_current (reg l)) then with_handling Idle l
      else match joins (reg l) with [] => with_handling (Reserved k m was_current) l | _ => l end
  | _ => l
  end.

Definition commit_event (l : SessionsLoop) : SessionsLoop :=
  match handling l with
  | Reserved k m was_current =>
      let '(s, g) := measurement_commit (reg l) k m (clock l) was_current in
      with_handling Idle (arm s None (with_reg g l))
  | _ => l
  end.

(** A retry whose delay is over: [reserve_for_key], then the admission.  While
    the request channel is full it waits, unless its key is retired. *)
Definition retry_fires (i : Z) (l : SessionsLoop) : SessionsLoop :=
  match retries l !! i with
  | None => l
  | Some r =>
      if negb (key_alive (retry_key r) false (reg l)) then with_retries (delete i (retries l)) l
      else match requests (reg l) with
      | _ :: _ => l
      | [] =>
        match admit_owned_request (reg l) (retry_key r) (cancelled_peer r) with
        | (Absent, g) => with_reg g l
        | (Retired, g) => with_retries (delete i (retries l)) (with_reg g l)
        | (Sent, g) => with_asked i (with_retries (delete i (retries l)) (with_reg g l))
        end
      end
  end.

(** [saw_session_timeline]: the second attempt, with a permit, is [slot]. *)
Definition sight (id : SessionId) (tl : Timeline) (slot : bool) (l : SessionsLoop) : SessionsLoop :=
  let slot := slot && match requests (reg l) with [] => true | _ => false end in
  let g := (try_sighting (reg l) id tl slot).2 in
  match requests (reg l), requests g with
  | [], e :: _ => with_asked (key_incarnation (event_key e)) (with_reg g l)
  | _, _ => with_reg g l
  end.

(** The measurement service takes a request, and reports its outcome. *)
Definition service_takes (l : SessionsLoop) : SessionsLoop :=
  match requests (reg l) with
  | MPeerState k p :: rest =>
      MkLoop (with_requests rest (reg l)) (jobs l ++ [(k, state_ident p)]) (results l) (handling l) (retries l) (asked l) (clock l)
  | _ => l
  end.

Definition service_reports (before after : list (SessionKey * NodeId)) (e : MeasurePeerEvent) (l : SessionsLoop) : SessionsLoop :=
  MkLoop (reg l) (before ++ after) (results l ++ [e]) (handling l) (retries l) (asked l) (clock l).

(** Sections elsewhere that keep every session's key and measurement: edits of
    timelines and revisions. *)
Definition kept (s s' : Session) : Prop := Session_key s' = Session_key s /\ measurement s' = measurement s.

Definition edited (g g' : Registry) : Prop :=
  kept (current g) (current g') /\ Forall2 kept (other_sessions g) (other_sessions g') /\
  fresh_incarnation (supply g') = fresh_incarnation (supply g) /\ requests g' = requests g /\ joins g' = joins g.

Inductive loop_step : SessionsLoop -> SessionsLoop -> Prop :=
| ls_take l : handling l = Idle -> loop_step l (take_event l)
| ls_handle l : loop_step l (handle_event l)
| ls_decide l : loop_step l (decide_event l)
| ls_reserve l : loop_step l (reserve_join l)
| ls_commit l : loop_step l (commit_event l)
| ls_retry l i : loop_step l (retry_fires i l)
| ls_sight l id tl slot : loop_step l (sight id tl slot l)
| ls_service l : loop_step l (service_takes l)
| ls_report l before k node after managed o e :
    jobs l = before ++ (k, node) :: after -> results l = [] ->
    report k node managed o = Some e -> loop_step l (service_reports before after e l)
| ls_join l s rest : joins (reg l) = s :: rest -> loop_step l (with_reg (with_joins rest (reg l)) l)
| ls_observe l ps : loop_step l (with_reg (observe_peers (reg l) ps) l)
| ls_edit l g : edited (reg l) g -> loop_step l (with_reg g l)
| ls_reset l s :
    GhostXForm_eqb (x_form (measurement s)) GhostXForm_default = false -> Duration_ltb (clock l) (m_timestamp (measurement s)) = false ->
    loop_step l (with_reg (Sessions_reset_session (reg l) s) l)
| ls_clock l now : Duration_ltb now (clock l) = false ->
    loop_step l (MkLoop (reg l) (jobs l) (results l) (handling l) (retries l) (asked l) now).

End Loop.

(** ** No session is orphaned *)

Section LoopProperties.
Context `{Laws : ChronoLaws, FD : FloatDecode}.

Definition unmeasured (s : Session) : Prop := GhostXForm_eqb (x_form (measurement s)) GhostXForm_default = true.
Definition sessions (g : Registry) : list Session := current g :: other_sessions g.
Definition copies (i : Z) (l : list Session) : nat := length (List.filter (fun s => incarnation s =? i) l).

Definition handling_key (h : Handling) (k : SessionKey) : Prop :=
  match h with Idle => False | Taken e => event_key e = k | Measured k' _ | Reserving k' _ _ | Reserved k' _ _ => k' = k end.

(** Somebody sees to the measurement of a key: it is requested, under way,
    reported, being handled, or to be retried. *)
Definition token (l : SessionsLoop) (k : SessionKey) : Prop :=
  k ∈ map event_key (requests (reg l)) \/ k ∈ map fst (jobs l) \/ k ∈ map event_key (results l) \/
  handling_key (handling l) k \/ exists i r, retries l !! i = Some r /\ retry_key r = k.

(** A session whose measurement was requested owes one while it is the current
    session, or a candidate that has none. *)
Definition owed (l : SessionsLoop) (s : Session) : Prop :=
  incarnation s ∈ asked l /\ (s = current (reg l) \/ (s ∈ other_sessions (reg l) /\ unmeasured s)).

Definition held (l : SessionsLoop) (k : SessionKey) : Prop :=
  (exists s, s ∈ sessions (reg l) /\ Session_key s = k) \/ token l k.

Definition measuring (h : Handling) : option (SessionKey * SessionMeasurement) :=
  match h with Measured k m | Reserving k m _ | Reserved k m _ => Some (k, m) | _ => None end.

(** The key that was current when its measurement was decided on. *)
Definition was_key (h : Handling) : option SessionKey :=
  match h with Reserving k _ true | Reserved k _ true => Some k | _ => None end.

Definition fresh (l : SessionsLoop) : Z := fresh_incarnation (supply (reg l)).

(** No measurement is later than the clock, and the one being handled is the
    latest of its session. *)
Definition timely (l : SessionsLoop) : Prop :=
  0 <= duration_nanos (clock l) /\
  (forall s, s ∈ sessions (reg l) -> duration_nanos (m_timestamp (measurement s)) <= duration_nanos (clock l)) /\
  (forall k m, measuring (handling l) = Some (k, m) ->
     GhostXForm_eqb (x_form m) GhostXForm_default = false /\
     duration_nanos (m_timestamp m) <= duration_nanos (clock l) /\
     forall s, s ∈ sessions (reg l) -> Session_key s = k -> duration_nanos (m_timestamp (measurement s)) <= duration_nanos (m_timestamp m)).

Definition is_request (e : MeasurePeerEvent) : Prop := match e with MPeerState _ _ => True | _ => False end.

(** The channels hold one message at most. *)
Definition channels_ok (l : SessionsLoop) : Prop :=
  (length (requests (reg l)) <= 1)%nat /\ Forall is_request (requests (reg l)) /\
  (length (results l) <= 1)%nat /\ Forall (fun e => ~ is_request e) (results l) /\
  (length (joins (reg l)) <= 1)%nat /\
  match handling l with Taken e => ~ is_request e | Reserved _ _ _ => joins (reg l) = [] | _ => True end.

Record loop_ok (l : SessionsLoop) : Prop := {
  ok_fresh : forall k, held l k -> key_incarnation k < fresh l;
  ok_asked : forall i, i ∈ asked l -> i < fresh l;
  ok_ids : forall k k', held l k -> held l k' -> key_incarnation k = key_incarnation k' -> k = k';
  ok_retries : forall i r, retries l !! i = Some r -> key_incarnation (retry_key r) = i;
  ok_unmeasured : forall s, s ∈ other_sessions (reg l) -> unmeasured s ->
    incarnation s ∈ asked l /\ copies (incarnation s) (sessions (reg l)) = 1%nat;
  ok_current : ~ unmeasured (current (reg l));
  ok_token : forall s, owed l s -> token l (Session_key s);
  ok_was : forall k s, was_key (handling l) = Some k -> s ∈ other_sessions (reg l) -> unmeasured s -> Session_key s <> k;
  ok_timely : timely l;
  ok_channels : channels_ok l
}.

Lemma matches_key k s : SessionKey_matches k s = true <-> Session_key s = k.
Proof.
  unfold SessionKey_matches, Session_key. destruct k as [id i]. simpl. rewrite andb_true_iff, bool_decide_eq_true, Z.eqb_eq.
  split; [now intros [-> ->]|now intros [= -> ->]].
Qed.

Lemma copies_pos i l s : s ∈ l -> incarnation s = i -> (1 <= copies i l)%nat.
Proof.
  intros M <-. unfold copies. apply list_elem_of_In in M. assert (In s (List.filter (fun x => incarnation x =? incarnation s) l)) as F
    by (apply List.filter_In; split; [exact M|apply Z.eqb_refl]). destruct (List.filter _ l); [easy|simpl; lia].
Qed.

(** A step that keeps the sessions it leaves, except for one with a fresh key. *)
Lemma step_general l l' kn :
  loop_ok l -> fresh l <= fresh l' ->
  (forall k, held l' k -> held l k \/ (k = kn /\ key_incarnation kn = fresh l /\ fresh l < fresh l')) ->
  (forall i, i ∈ asked l' -> i ∈ asked l \/ exists k, held l' k /\ key_incarnation k = i) ->
  (forall i, i ∈ asked l -> i ∈ asked l') ->
  (forall i r, retries l' !! i = Some r -> key_incarnation (retry_key r) = i) ->
  (forall s, s ∈ other_sessions (reg l') -> unmeasured s ->
     (incarnation s ∈ asked l' /\ copies (incarnation s) (sessions (reg l')) = 1%nat) \/
     (exists s0, s0 ∈ other_sessions (reg l) /\ unmeasured s0 /\ incarnation s0 = incarnation s /\
        (copies (incarnation s) (sessions (reg l')) <= copies (incarnation s) (sessions (reg l)))%nat)) ->
  ~ unmeasured (current (reg l')) ->
  (forall s, owed l' s -> token l' (Session_key s)) ->
  (forall k s, was_key (handling l') = Some k -> s ∈ other_sessions (reg l') -> unmeasured s -> Session_key s <> k) ->
  timely l' -> channels_ok l' -> loop_ok l'.
Proof.
  intros Ok Fr Hk Ha Hm Hr Hu Hcu Ht Hw Hy Hc. constructor; auto.
  - intros k K. destruct (Hk k K) as [K0|(-> & -> & L)]; [|exact L]. apply (ok_fresh l Ok) in K0. lia.
  - intros i I. destruct (Ha i I) as [A|(k & K & <-)]; [apply (ok_asked l Ok) in A; lia|].
    destruct (Hk k K) as [K0|(-> & -> & L)]; [|exact L]. apply (ok_fresh l Ok) in K0. lia.
  - intros k k' K K' E. destruct (Hk k K) as [K0|(-> & E1 & L)], (Hk k' K') as [K0'|(-> & E1' & L')]; auto.
    + now apply (ok_ids l Ok).
    + apply (ok_fresh l Ok) in K0. lia.
    + apply (ok_fresh l Ok) in K0'. lia.
  - intros s S U. destruct (Hu s S U) as [X|(s0 & S0 & U0 & E & C)]; [exact X|].
    destruct (ok_unmeasured l Ok s0 S0 U0) as [A C0]. rewrite E in A, C0. split; [auto|].
    assert (1 <= copies (incarnation s) (sessions (reg l')))%nat by (apply (copies_pos _ _ s); [right; exact S|reflexivity]). lia.
Qed.

(** The registry after a step keeps what it has of its sessions. *)
Definition registry_kept (g g' : Registry) : Prop :=
  kept (current g) (current g') /\
  (exists sub, sub `sublist_of` other_sessions g /\ Forall2 kept sub (other_sessions g')) /\
  fresh_incarnation (supply g) <= fresh_incarnation (supply g').

Lemma kept_refl s : kept s s.
Proof. now split. Qed.

Lemma kept_unmeasured s s' : kept s s' -> unmeasured s' -> unmeasured s.
Proof. unfold unmeasured. now intros [_ ->]. Qed.

Lemma kept_incarnation s s' : kept s s' -> incarnation s' = incarnation s.
Proof. intros [K _]. now injection K. Qed.

Lemma kept_others g g' s' : registry_kept g g' -> s' ∈ other_sessions g' -> exists s, s ∈ other_sessions g /\ kept s s'.
Proof.
  intros (_ & (sub & Sub & F) & _) M. apply list_elem_of_lookup in M as [i L].
  destruct (Forall2_lookup_r _ _ _ _ _ F L) as (s & Ls & K). exists s. split; [|exact K].
  apply (sublist_subseteq _ _ Sub). now apply list_elem_of_lookup_2 in Ls.
Qed.

Lemma kept_sessions g g' s' : registry_kept g g' -> s' ∈ sessions g' -> exists s, s ∈ sessions g /\ kept s s'.
Proof.
  intros R M. apply elem_of_cons in M as [->|M].
  - exists (current g). split; [left|apply R].
  - destruct (kept_others g g' s' R M) as (s & M0 & K). exists s. split; [now right|exact K].
Qed.

Lemma copies_app i l l' : copies i (l ++ l') = (copies i l + copies i l')%nat.
Proof. unfold copies. now rewrite List.filter_app, length_app. Qed.

Lemma copies_cons i s l : copies i (s :: l) = ((if (incarnation s =? i)%Z then 1 else 0) + copies i l)%nat.
Proof. unfold copies. simpl. now destruct (_ =? _). Qed.

Lemma copies_kept i l l' : Forall2 kept l l' -> copies i l' = copies i l.
Proof. induction 1 as [|s s' l l' K _ IH]; [reflexivity|]. now rewrite !copies_cons, IH, (kept_incarnation _ _ K). Qed.

Lemma copies_sublist i l l' : l `sublist_of` l' -> (copies i l <= copies i l')%nat.
Proof. induction 1 as [|s l l' _ IH|s l l' _ IH]; rewrite ?copies_cons; lia. Qed.

Lemma copies_registry i g g' : registry_kept g g' -> (copies i (sessions g') <= copies i (sessions g))%nat.
Proof.
  intros (K & (sub & Sub & F) & _). unfold sessions. rewrite !copies_cons, (kept_incarnation _ _ K), (copies_kept i _ _ F).
  pose proof (copies_sublist i _ _ Sub). lia.
Qed.

Lemma kept_owed l l' s' :
  registry_kept (reg l) (reg l') -> owed l' s' -> incarnation s' ∈ asked l -> exists s, owed l s /\ Session_key s' = Session_key s.
Proof.
  intros R [_ O] A. destruct O as [->|[O U]].
  - destruct R as (K & _). exists (current (reg l)). split; [|apply K]. split; [|now left]. now rewrite <- (kept_incarnation _ _ K).
  - destruct (kept_others _ _ _ R O) as (s & O0 & K). exists s. split; [|apply K]. split; [now rewrite <- (kept_incarnation _ _ K)|].
    right. split; [exact O0|]. exact (kept_unmeasured _ _ K U).
Qed.

(** A candidate without a measurement is not the current session as well. *)
Lemma unmeasured_not_current l s :
  loop_ok l -> s ∈ other_sessions (reg l) -> unmeasured s -> Session_key (current (reg l)) <> Session_key s.
Proof.
  intros Ok M U E. injection E as _ E. destruct (ok_unmeasured l Ok s M U) as [_ C]. unfold sessions in C.
  rewrite copies_cons, E, Z.eqb_refl in C. pose proof (copies_pos _ _ s M eq_refl). lia.
Qed.

Lemma step_kept l l' :
  loop_ok l -> registry_kept (reg l) (reg l') ->
  (forall k, token l' k -> held l k) ->
  (asked l' = asked l \/ exists k, asked l' = key_incarnation k :: asked l /\ token l' k) ->
  (forall i r, retries l' !! i = Some r -> key_incarnation (retry_key r) = i) ->
  (forall k, token l k -> token l' k \/ (forall s, owed l' s -> Session_key s <> k)) ->
  duration_nanos (clock l) <= duration_nanos (clock l') ->
  (forall k m, measuring (handling l') = Some (k, m) -> measuring (handling l) = Some (k, m) \/
     (GhostXForm_eqb (x_form m) GhostXForm_default = false /\ m_timestamp m = clock l)) ->
  (forall k, was_key (handling l') = Some k -> was_key (handling l) = Some k \/ Session_key (current (reg l)) = k) ->
  channels_ok l' -> loop_ok l'.
Proof.
  intros Ok R Tk As Rt Tt Cl Ms Wk Ch'.
  assert (forall k, held l' k -> held l k) as Hk.
  { intros k [(s' & M & <-)|T]; [|auto]. left. destruct (kept_sessions _ _ _ R M) as (s & M0 & [K _]). now exists s. }
  apply (step_general l l' (Session_key (current (reg l)))); auto.
  - apply R.
  - intros i I. destruct As as [E|(k & E & T)]; rewrite E in I; [now left|]. apply elem_of_cons in I as [->|I]; [|now left].
    right. exists k. split; [now right|reflexivity].
  - intros i I. destruct As as [->|(k & -> & _)]; [exact I|now right].
  - intros s M U. right. destruct (kept_others _ _ _ R M) as (s0 & M0 & K). exists s0. split; [exact M0|].
    split; [exact (kept_unmeasured _ _ K U)|]. split; [now rewrite (kept_incarnation _ _ K)|now apply copies_registry].
  - intros U. destruct R as (K & _). exact (ok_current l Ok (kept_unmeasured _ _ K U)).
  - intros s O. assert (held l' (Session_key s)) as Hs.
    { left. exists s. split; [|reflexivity]. destruct O as [_ [->|[O _]]]; [left|now right]. }
    destruct As as [E|(k & E & T)].
    + assert (incarnation s ∈ asked l) as A by (rewrite <- E; apply O). destruct (kept_owed _ _ _ R O A) as (s0 & O0 & Q).
      destruct (Tt _ (ok_token l Ok s0 O0)) as [T|N]; [now rewrite Q|]. now destruct (N s O).
    + pose proof (proj1 O) as A. rewrite E in A. apply elem_of_cons in A as [A|A].
      * replace (Session_key s) with k; [exact T|]. apply (ok_ids l Ok); auto.
      * destruct (kept_owed _ _ _ R O A) as (s0 & O0 & Q). destruct (Tt _ (ok_token l Ok s0 O0)) as [T'|N]; [now rewrite Q|].
        now destruct (N s O).
  - intros k s W M U E. destruct (kept_others _ _ _ R M) as (s0 & M0 & K). pose proof (kept_unmeasured _ _ K U) as U0.
    assert (Session_key s0 = k) as E0 by (destruct K as [K _]; congruence).
    destruct (Wk k W) as [W0|Cu]; [exact (ok_was l Ok k s0 W0 M0 U0 E0)|]. now apply (unmeasured_not_current l s0 Ok M0 U0); congruence.
  - destruct (ok_timely l Ok) as (C0 & Ts & Tm). split; [lia|]. split.
    + intros s' M. destruct (kept_sessions _ _ _ R M) as (s & M0 & [_ ->]). specialize (Ts s M0). lia.
    + intros k m E. assert (forall b, (forall s, s ∈ sessions (reg l) -> Session_key s = k -> duration_nanos (m_timestamp (measurement s)) <= b) ->
        forall s', s' ∈ sessions (reg l') -> Session_key s' = k -> duration_nanos (m_timestamp (measurement s')) <= b) as Back.
      { intros b B s' M Ks. destruct (kept_sessions _ _ _ R M) as (s & M0 & [K0 ->]). apply B; [exact M0|congruence]. }
      destruct (Ms k m E) as [E0|[N E0]].
      * destruct (Tm k m E0) as (N & L & B). repeat split; [exact N|lia|]. now apply Back.
      * repeat split; [exact N|rewrite E0; exact Cl|]. apply Back. intros s M _. rewrite E0. now apply Ts.
Qed.

Lemma kept_filtered g g' p :
  current g' = current g -> other_sessions g' = List.filter p (other_sessions g) -> supply g' = supply g -> registry_kept g g'.
Proof.
  intros E1 E2 E3. split; [rewrite E1; apply kept_refl|]. rewrite E2, E3. split; [|lia]. exists (List.filter p (other_sessions g)).
  clear. split.
  - induction (other_sessions g) as [|s l IH]; simpl; [constructor|]. destruct (p s); now constructor.
  - induction (List.filter p (other_sessions g)) as [|s l IH]; constructor; [apply kept_refl|exact IH].
Qed.

Lemma kept_same g g' :
  current g' = current g -> other_sessions g' = other_sessions g -> supply g' = supply g -> registry_kept g g'.
Proof.
  intros E1 E2 E3. apply (kept_filtered g g' (fun _ => true)); auto. rewrite E2. clear. induction (other_sessions g) as [|s l IH]; simpl; congruence.
Qed.

Lemma kept_edited g g' : edited g g' -> registry_kept g g'.
Proof. intros (C & F & S & _). split; [exact C|]. split; [now exists (other_sessions g)|lia]. Qed.

Ltac keeps := apply kept_same; reflexivity.

Lemma take_event_ok l : loop_ok l -> handling l = Idle -> loop_ok (take_event l).
Proof.
  intros Ok Hd. pose proof (ok_channels l Ok) as (C1 & C2 & C3 & C4 & C5 & C6). unfold take_event.
  destruct (results l) as [|e rest] eqn:Er; [exact Ok|]. apply Forall_cons in C4 as [N C4]. simpl in C3.
  assert (match e with MPeerState _ _ => Idle | _ => Taken e end = Taken e) as -> by (destruct e; [now destruct N| |]; reflexivity).
  apply (step_kept l); simpl; auto.
  - keeps.
  - intros k T. right. unfold token in *. rewrite Er, Hd. simpl in *. rewrite elem_of_cons. intuition auto.
  - apply (ok_retries l Ok).
  - intros k T. left. unfold token in *. rewrite Er, Hd in T. simpl in *. rewrite elem_of_cons in T. intuition auto.
  - lia.
  - discriminate.
  - discriminate.
  - repeat split; auto; simpl; lia.
Qed.

(** The tokens after an event was settled: the armed session takes over from
    the event. *)
Definition settled (g : Registry) (so : option Session) (peer : option NodeId) (l : SessionsLoop) : SessionsLoop :=
  with_handling Idle (arm so peer (with_reg g l)).

Lemma settled_fields g so peer l :
  reg (settled g so peer l) = g /\ jobs (settled g so peer l) = jobs l /\ results (settled g so peer l) = results l /\
  handling (settled g so peer l) = Idle /\ asked (settled g so peer l) = asked l /\ clock (settled g so peer l) = clock l /\
  retries (settled g so peer l) = match so with Some s => <[incarnation s := MkRetry (Session_key s) peer]> (retries l) | None => retries l end.
Proof. now destruct so. Qed.

Lemma settled_retries g so peer l i r :
  (forall i r, retries l !! i = Some r -> key_incarnation (retry_key r) = i) ->
  retries (settled g so peer l) !! i = Some r -> key_incarnation (retry_key r) = i.
Proof.
  intros Rt. destruct (settled_fields g so peer l) as (_ & _ & _ & _ & _ & _ & ->). destruct so as [s|]; [|apply Rt].
  destruct (decide (incarnation s = i)) as [<-|N]; [rewrite lookup_insert_eq; now intros [= <-]|].
  rewrite lookup_insert_ne by exact N. apply Rt.
Qed.

Lemma settled_token g so peer l k :
  requests g = requests (reg l) ->
  (token (settled g so peer l) k -> token l k \/ exists s, so = Some s /\ Session_key s = k).
Proof.
  intros Rq. destruct (settled_fields g so peer l) as (E1 & E2 & E3 & E4 & _ & _ & E5). unfold token. rewrite E1, E2, E3, E4, E5, Rq.
  intros [T|[T|[T|[[]|(i & r & T & K)]]]]; auto. destruct so as [s|]; [|left; do 4 right; eauto].
  destruct (decide (incarnation s = i)) as [<-|N]; [rewrite lookup_insert_eq in T; injection T as <-; right; eauto|].
  rewrite lookup_insert_ne in T by exact N. left. do 4 right. eauto.
Qed.

Lemma settled_keeps g so peer l k k0 :
  loop_ok l -> requests g = requests (reg l) -> handling_key (handling l) k ->
  (forall s, so = Some s -> Session_key s = k) -> token l k0 ->
  token (settled g so peer l) k0 \/ (k0 = k /\ so = None).
Proof.
  intros Ok Rq Hk Hs T. destruct (settled_fields g so peer l) as (E1 & E2 & E3 & E4 & _ & _ & E5).
  assert (forall s, so = Some s -> token (settled g so peer l) k) as New.
  { intros s E. do 4 right. rewrite E5, E. exists (incarnation s), (MkRetry (Session_key s) peer).
    rewrite lookup_insert_eq. split; [reflexivity|now apply Hs]. }
  pose proof T as T0. destruct T as [T|[T|[T|[T|(i & r & T & K)]]]].
  1-3: left; unfold token; rewrite E1, E2, E3, Rq; auto.
  - assert (k0 = k) as -> by (destruct (handling l); simpl in *; [easy|congruence..]). destruct so as [s|]; [left; eauto|now right].
  - destruct so as [s|]; [|left; do 4 right; rewrite E5; eauto].
    destruct (decide (incarnation s = i)) as [<-|N].
    + left. replace k0 with k; [eauto|]. apply (ok_ids l Ok); [right; right; right; right; now left|now right|].
      rewrite <- K, (ok_retries l Ok _ _ T), <- (Hs s eq_refl). reflexivity.
    + left. do 4 right. rewrite E5. exists i, r. now rewrite lookup_insert_ne.
Qed.

Lemma settle_ok l g so peer k :
  loop_ok l -> registry_kept (reg l) g -> requests g = requests (reg l) -> joins g = joins (reg l) ->
  handling_key (handling l) k -> (forall s, so = Some s -> Session_key s = k) ->
  (so = None -> forall s, owed (settled g so peer l) s -> Session_key s <> k) ->
  loop_ok (settled g so peer l).
Proof.
  intros Ok R Rq Jn Hk Hs Hn. pose proof (ok_channels l Ok) as (C1 & C2 & C3 & C4 & C5 & C6).
  destruct (settled_fields g so peer l) as (E1 & E2 & E3 & E4 & E5 & E6 & E7).
  apply (step_kept l); rewrite ?E1, ?E2, ?E3, ?E4, ?E5, ?E6; auto.
  - intros k0 T. destruct (settled_token g so peer l k0 Rq T) as [T0|(s & E & <-)]; [now right|]. right. rewrite (Hs s E). right. right. right. now left.
  - intros i r. apply settled_retries, (ok_retries l Ok).
  - intros k0 T. destruct (settled_keeps g so peer l k k0 Ok Rq Hk Hs T) as [T'|[-> E]]; [now left|right; auto].
  - lia.
  - discriminate.
  - discriminate.
  - unfold channels_ok. rewrite E1, E3, E4, Rq, Jn. repeat split; auto.
Qed.

Lemma cancelled_session_key g k :
  match cancelled_session g k with
  | Some s => s ∈ sessions g /\ Session_key s = k
  | None => forall s, s ∈ sessions g -> Session_key s <> k
  end.
Proof.
  unfold cancelled_session. destruct (SessionKey_matches k (current g)) eqn:M.
  - split; [left|now apply matches_key].
  - destruct (List.find _ _) as [s|] eqn:F.
    + apply find_some in F as [F M']. split; [right; now apply list_elem_of_In|now apply matches_key].
    + intros s Ms E. apply elem_of_cons in Ms as [->|Ms]; [apply matches_key in E; congruence|].
      apply list_elem_of_In in Ms. apply (find_none _ _ F) in Ms. apply matches_key in E. congruence.
Qed.

Lemma failed_session_key g k :
  let '(so, g') := handle_failed_measurement_inner g k in
  registry_kept g g' /\ requests g' = requests g /\ joins g' = joins g /\
  match so with Some s => Session_key s = k | None => forall s, s ∈ sessions g' -> Session_key s <> k end.
Proof.
  unfold handle_failed_measurement_inner. destruct (SessionKey_matches k (current g)) eqn:M.
  { split; [now apply kept_same|]. repeat split. now apply matches_key. }
  destruct (existsb _ _) eqn:X.
  - split; [now apply (kept_filtered _ _ (fun s => negb (SessionKey_matches k s)))|]. split; [reflexivity|]. split; [reflexivity|].
    intros s Ms E. apply matches_key in E. apply elem_of_cons in Ms as [->|Ms]; [simpl in E; congruence|].
    simpl in Ms. apply list_elem_of_In, List.filter_In in Ms as [_ Ms]. rewrite E in Ms. discriminate.
  - split; [now apply kept_same|]. split; [reflexivity|]. split; [reflexivity|]. intros s Ms E. apply matches_key in E.
    apply elem_of_cons in Ms as [->|Ms]; [congruence|]. apply not_true_iff_false in X. apply X, existsb_exists. exists s.
    split; [now apply list_elem_of_In|exact E].
Qed.

Lemma with_reg_same l : with_reg (reg l) l = l.
Proof. now destruct l. Qed.

Lemma handle_ok l : loop_ok l -> loop_ok (handle_event l).
Proof.
  intros Ok. pose proof (ok_channels l Ok) as (C1 & C2 & C3 & C4 & C5 & C6). unfold handle_event.
  destruct (handling l) as [|[k p|k x|k peer]|k m|k m w|k m w] eqn:Hd; try exact Ok.
  - destruct (GhostXForm_eqb x GhostXForm_default) eqn:X.
    + pose proof (failed_session_key (reg l) k) as F. destruct (handle_failed_measurement_inner (reg l) k) as [so g].
      destruct F as (R & Rq & Jn & F). apply (settle_ok l g so None k); auto; rewrite ?Hd; [reflexivity|now intros s -> |].
      intros -> s [_ O]. apply F. destruct O as [->|[O _]]; [left|now right].
    + apply (step_kept l); simpl; auto.
      * keeps.
      * intros k0 T. right. unfold token in *. rewrite Hd. exact T.
      * apply (ok_retries l Ok).
      * intros k0 T. left. unfold token in *. rewrite Hd in T. exact T.
      * lia.
      * intros k0 m [= <- <-]. now right.
      * discriminate.
      * repeat split; auto.
  - pose proof (cancelled_session_key (reg l) k) as F.
    enough (loop_ok (settled (reg l) (cancelled_session (reg l) k) (Some peer) l)) as X by (unfold settled in X; now rewrite with_reg_same in X).
    apply (settle_ok l _ _ _ k); auto; rewrite ?Hd; try reflexivity; [keeps| |].
    + intros s E. rewrite E in F. apply F.
    + intros E s [_ O]. rewrite E in F, O. apply F. destruct O as [->|[O _]]; [left|now right].
Qed.

(** The candidate whose measurement does not win keeps it. *)
Lemma lose_ok l c l1 l2 k m :
  loop_ok l -> other_sessions (reg l) = l1 ++ c :: l2 -> Session_key c = k -> Session_key (current (reg l)) <> k ->
  measuring (handling l) = Some (k, m) ->
  let g := MkRegistry (current (reg l)) (l1 ++ with_measurement c m :: l2) (peers (reg l)) (has_joined (reg l)) (supply (reg l))
             (requests (reg l)) (joins (reg l)) in
  loop_ok (settled g None None l).
Proof.
  intros Ok Eo Kc Nc Ms g. pose proof (ok_channels l Ok) as (C1 & C2 & C3 & C4 & C5 & C6).
  destruct (ok_timely l Ok) as (T0 & T1 & T2). destruct (T2 k m Ms) as (M1 & M2 & M3).
  assert (handling_key (handling l) k) as Hk by (destruct (handling l); simpl in *; congruence).
  assert (forall i, copies i (sessions g) = copies i (sessions (reg l))) as Cp.
  { intros i. unfold sessions. simpl. rewrite Eo, !copies_cons, !copies_app, !copies_cons. reflexivity. }
  assert (forall s, s ∈ l1 ++ with_measurement c m :: l2 -> s = with_measurement c m \/ s ∈ l1 ++ l2) as Split.
  { intros s. rewrite !elem_of_app, elem_of_cons. tauto. }
  assert (forall s, s ∈ l1 ++ l2 -> s ∈ other_sessions (reg l)) as Old.
  { intros s. rewrite Eo, !elem_of_app, elem_of_cons. tauto. }
  apply (step_general l _ k); simpl; auto.
  - unfold fresh. simpl. lia.
  - intros k0 [(s & M & <-)|T]; left.
    + left. apply elem_of_cons in M as [->|M]; [exists (current (reg l)); split; [left|reflexivity]|].
      destruct (Split s M) as [->|M0]; [|exists s; split; [right; auto|reflexivity]].
      exists c. split; [right; rewrite Eo; apply elem_of_app; right; left|reflexivity].
    + right. destruct (settled_token g None None l k0 eq_refl T) as [T'|(s & [=] & _)]. exact T'.
  - apply (ok_retries l Ok).
  - intros s M U. right. destruct (Split s M) as [->|M0]; [unfold unmeasured in U; simpl in U; congruence|].
    exists s. repeat split; auto. now rewrite Cp.
  - apply (ok_current l Ok).
  - intros s [A O]. assert (owed l s /\ Session_key s <> k) as [O' N].
    { destruct O as [->|[M U]]; simpl in *; [split; [split; [exact A|now left]|exact Nc]|].
      destruct (Split s M) as [->|M0]; [unfold unmeasured in U; simpl in U; congruence|].
      split; [split; [exact A|right; auto]|]. intros E. destruct (ok_unmeasured l Ok s (Old s M0) U) as [_ Cn].
      assert (incarnation c = incarnation s) as Ec by (rewrite <- E in Kc; now injection Kc).
      unfold sessions in Cn. rewrite Eo, copies_cons, copies_app, copies_cons, Ec, Z.eqb_refl in Cn.
      assert (1 <= copies (incarnation s) (l1 ++ l2))%nat as P by now apply (copies_pos _ _ s).
      rewrite copies_app in P. destruct (_ =? _)%Z in Cn; lia. }
    destruct (settled_keeps g None None l k (Session_key s) Ok eq_refl Hk ltac:(discriminate) (ok_token l Ok s O')) as [T|[E _]]; [exact T|].
    now destruct (N E).
  - split; [exact T0|]. split; [|discriminate]. intros s M. apply elem_of_cons in M as [->|M]; [apply T1; left|].
    destruct (Split s M) as [->|M0]; [exact M2|]. apply T1. right. auto.
  - repeat split; auto.
Qed.

Lemma not_stale a b : duration_nanos b <= duration_nanos a -> Duration_ltb a b = false.
Proof. intros L. apply not_true_iff_false. rewrite Duration_ltb_spec, <- !duration_nanos_eq. lia. Qed.

Lemma find_matches g k c :
  List.find (SessionKey_matches k) (other_sessions g) = Some c -> Session_key c = k /\ c ∈ other_sessions g.
Proof. intros F. apply find_some in F as [F M]. split; [now apply matches_key|now apply list_elem_of_In]. Qed.

Lemma gone_ok l k :
  loop_ok l -> handling_key (handling l) k -> (forall s, owed l s -> Session_key s <> k) ->
  loop_ok (with_handling Idle l).
Proof.
  intros Ok Hk N. enough (loop_ok (settled (reg l) None None l)) as X by (unfold settled in X; simpl in X; now rewrite with_reg_same in X).
  apply (settle_ok l _ _ _ k); auto; [keeps|discriminate].
Qed.

Lemma unmatched g k :
  SessionKey_matches k (current g) = false -> List.find (SessionKey_matches k) (other_sessions g) = None ->
  forall s, s ∈ sessions g -> Session_key s <> k.
Proof.
  intros M F s Ms E. apply matches_key in E. apply elem_of_cons in Ms as [->|Ms]; [congruence|].
  apply list_elem_of_In in Ms. apply (find_none _ _ F) in Ms. congruence.
Qed.

Lemma owed_session l s : owed l s -> s ∈ sessions (reg l).
Proof. intros [_ [->|[M _]]]; [left|now right]. Qed.

(** The measurement being handled is never stale. *)
Lemma measured_not_stale l k m s :
  loop_ok l -> measuring (handling l) = Some (k, m) -> s ∈ sessions (reg l) -> Session_key s = k ->
  Duration_ltb (m_timestamp m) (m_timestamp (measurement s)) = false.
Proof. intros Ok Ms M E. apply not_stale. destruct (ok_timely l Ok) as (_ & _ & T). destruct (T k m Ms) as (_ & _ & B). auto. Qed.

Lemma advance_ok l h k m :
  loop_ok l -> measuring (handling l) = Some (k, m) -> measuring h = Some (k, m) ->
  (forall k0, handling_key (handling l) k0 <-> handling_key h k0) ->
  (was_key h = Some k -> was_key (handling l) = Some k \/ Session_key (current (reg l)) = k) ->
  match h with Reserved _ _ _ => joins (reg l) = [] | _ => True end -> loop_ok (with_handling h l).
Proof.
  intros Ok Ms Mh Hk Hw Hj. pose proof (ok_channels l Ok) as (C1 & C2 & C3 & C4 & C5 & C6).
  assert (forall k0, token (with_handling h l) k0 <-> token l k0) as T.
  { intros k0. unfold token. simpl. specialize (Hk k0). tauto. }
  apply (step_kept l); simpl; auto.
  - keeps.
  - intros k0 T0. right. now apply T.
  - apply (ok_retries l Ok).
  - intros k0 T0. left. now apply T.
  - lia.
  - intros k0 m0 E. left. congruence.
  - intros k0 W. assert (k0 = k) as -> by (destruct h; try discriminate; destruct was_current; try discriminate; simpl in *; congruence). auto.
  - repeat split; auto. simpl. destruct h; auto; discriminate.
Qed.

Lemma decide_ok l : loop_ok l -> loop_ok (decide_event l).
Proof.
  intros Ok. unfold decide_event. destruct (handling l) as [|e|k m|k m w|k m w] eqn:Hd; try exact Ok.
  assert (measuring (handling l) = Some (k, m)) as Ms by now rewrite Hd.
  assert (handling_key (handling l) k) as Hk by now rewrite Hd.
  assert (forall w, (w = true -> Session_key (current (reg l)) = k) -> loop_ok (with_handling (Reserving k m w) (with_reg (reg l) l))) as Go.
  { intros w W. rewrite with_reg_same. apply (advance_ok l _ k m); auto; rewrite ?Hd; try easy. destruct w; [auto|discriminate]. }
  unfold measurement_decide. destruct (SessionKey_matches k (current (reg l))) eqn:Mc; [apply Go; intros _; now apply matches_key|].
  destruct (List.find _ _) as [c|] eqn:F.
  - destruct (find_matches _ _ _ F) as [Kc Mo]. rewrite (measured_not_stale l k m c Ok Ms) by (auto; now right).
    destruct (negb (measurement_wins _ _ _ _)); [|now apply Go].
    destruct (update_first_find (SessionKey_matches k) (fun s u => (with_measurement s m, u)) _ tt _ F) as (l1 & l2 & Eo & _ & ->).
    apply (lose_ok l c l1 l2 k m); auto. intros E. apply matches_key in E. congruence.
  - rewrite with_reg_same. apply (gone_ok l k); auto. intros s O. apply (unmatched (reg l)); auto. now apply owed_session.
Qed.

Lemma reserve_ok l : loop_ok l -> loop_ok (reserve_join l).
Proof.
  intros Ok. unfold reserve_join. destruct (handling l) as [|e|k m|k m w|k m w] eqn:Hd; try exact Ok.
  destruct (key_alive k w (reg l)) eqn:A; simpl.
  - destruct (joins (reg l)) eqn:J; [|exact Ok]. apply (advance_ok l _ k m); auto; rewrite ?Hd; try easy. intros W. now left.
  - apply (gone_ok l k); auto; [now rewrite Hd|]. apply orb_false_iff in A as [A1 A2]. intros s O E. apply matches_key in E as E'.
    destruct O as [As [->|[M U]]]; [congruence|]. destruct w; simpl in A2.
    + apply (ok_was l Ok k s); auto. now rewrite Hd.
    + apply not_true_iff_false in A2. apply A2, existsb_exists. exists s. split; [now apply list_elem_of_In|exact E'].
Qed.

Lemma measuring_key h k m : measuring h = Some (k, m) -> handling_key h k.
Proof. destruct h; simpl; congruence. Qed.

(** A session whose measurement is committed becomes or stays the current one,
    and its retry is armed. *)
Lemma promote_ok l g k m :
  loop_ok l -> measuring (handling l) = Some (k, m) ->
  Session_key (current g) = k -> measurement (current g) = m ->
  (exists c, c ∈ sessions (reg l) /\ Session_key c = k) -> (forall s, s ∈ other_sessions g -> s ∈ sessions (reg l)) ->
  (forall i, copies i (sessions g) = copies i (sessions (reg l))) ->
  fresh_incarnation (supply g) = fresh_incarnation (supply (reg l)) -> requests g = requests (reg l) -> (length (joins g) <= 1)%nat ->
  loop_ok (settled g (Some (current g)) None l).
Proof.
  intros Ok Ms Kc Mc (c & Hc & Hck) Old Cp Fr Rq Jn. pose proof (ok_channels l Ok) as (C1 & C2 & C3 & C4 & C5 & C6).
  destruct (ok_timely l Ok) as (T0 & T1 & T2). destruct (T2 k m Ms) as (M1 & M2 & M3).
  assert (handling_key (handling l) k) as Hk by exact (measuring_key _ _ _ Ms).
  assert (forall s, s ∈ other_sessions g -> unmeasured s -> s ∈ other_sessions (reg l)) as Oth.
  { intros s M U. apply Old, elem_of_cons in M as [->|M]; [|exact M]. now destruct (ok_current l Ok). }
  apply (step_general l _ k); simpl; auto.
  - unfold fresh. simpl. lia.
  - intros k0 [(s & M & <-)|T]; left.
    + left. apply elem_of_cons in M as [->|M]; [exists c; split; [exact Hc|exact (eq_trans Hck (eq_sym Kc))]|]. exists s. split; [now apply Old|reflexivity].
    + destruct (settled_token g _ None l k0 Rq T) as [T'|(s & [= <-] & <-)]; [now right|]. left. exists c. split; [exact Hc|exact (eq_trans Hck (eq_sym Kc))].
  - intros i r. apply (settled_retries g (Some (current g)) None l), (ok_retries l Ok).
  - intros s M U. right. exists s. repeat split; auto. now rewrite Cp.
  - unfold unmeasured. rewrite Mc. congruence.
  - intros s [A O]. simpl in A. assert (token (settled g (Some (current g)) None l) (Session_key s) \/ owed l s) as [T|O'].
    { destruct O as [->|[M U]]; simpl in *; [left|right; split; [exact A|right; auto]].
      do 4 right. simpl. exists (incarnation (current g)), (MkRetry (Session_key (current g)) None). split; [apply lookup_insert_eq|reflexivity]. }
    + exact T.
    + destruct (settled_keeps g (Some (current g)) None l k (Session_key s) Ok Rq Hk ltac:(intros ? [= <-]; exact Kc) (ok_token l Ok s O')) as [T|[_ [=]]]; exact T.
  - split; [exact T0|]. split; [|discriminate]. intros s M. apply elem_of_cons in M as [->|M]; [simpl; rewrite Mc; exact M2|].
    apply T1. now apply Old.
  - repeat split; auto; simpl; rewrite Rq; auto.
Qed.

Lemma commit_event_ok l : loop_ok l -> loop_ok (commit_event l).
Proof.
  intros Ok. unfold commit_event. destruct (handling l) as [|e|k m|k m w|k m w] eqn:Hd; try exact Ok.
  assert (measuring (handling l) = Some (k, m)) as Ms by now rewrite Hd.
  assert (handling_key (handling l) k) as Hk by now rewrite Hd.
  assert (joins (reg l) = []) as Jn by (pose proof (ok_channels l Ok) as (_ & _ & _ & _ & _ & J); now rewrite Hd in J).
  unfold measurement_commit. destruct (w && negb (SessionKey_matches k (current (reg l)))) eqn:W.
  { rewrite with_reg_same. simpl. apply (gone_ok l k); auto. apply andb_true_iff in W as [-> W]. apply negb_true_iff in W.
    intros s [_ [->|[M U]]] E; [apply matches_key in E; congruence|]. apply (ok_was l Ok k s); auto. now rewrite Hd. }
  destruct (SessionKey_matches k (current (reg l))) eqn:Mc.
  - apply matches_key in Mc as Kc. rewrite (measured_not_stale l k m _ Ok Ms ltac:(left) Kc).
    assert (forall cur sup, Session_key cur = k -> fresh_incarnation sup = fresh_incarnation (supply (reg l)) ->
      let g := MkRegistry (with_measurement cur m) (other_sessions (reg l)) (peers (reg l)) (has_joined (reg l)) sup (requests (reg l))
                 (joins (reg l) ++ [with_measurement cur m]) in
      loop_ok (settled g (Some (with_measurement cur m)) None l)) as Go.
    { intros cur sup Kk Fr g. apply (promote_ok l g k m); auto; simpl.
      - exists (current (reg l)). split; [left|exact Kc].
      - intros s M. now right.
      - intros i. unfold sessions. simpl. rewrite !copies_cons. simpl. injection (eq_trans Kk (eq_sym Kc)) as _ ->. reflexivity.
      - rewrite Jn. simpl. lia. }
    destruct (negb (GhostXForm_eqb _ _)); [|exact (Go (current (reg l)) (supply (reg l)) Kc eq_refl)]. destruct (invalidate_edit_origin _ _) as [cur sup] eqn:E.
    unfold invalidate_edit_origin in E. destruct (new_edit_revision _) as [r sup'] eqn:E'. injection E as <- <-.
    apply new_edit_revision_spec in E' as [Fr _].
    exact (Go (MkSession _ r (session_id (current (reg l))) (timeline (current (reg l))) (measurement (current (reg l)))) sup' Kc Fr).
  - destruct (List.find _ _) as [c|] eqn:F.
    2: { rewrite with_reg_same. simpl. apply (gone_ok l k); auto. intros s O. apply (unmatched (reg l)); auto. now apply owed_session. }
    destruct (find_matches _ _ _ F) as [Kc Mo]. rewrite (measured_not_stale l k m c Ok Ms) by (auto; now right).
    destruct (measurement_wins _ _ _ _).
    + destruct (update_first_find (SessionKey_matches k) (fun _ u => (current (reg l), u)) _ tt _ F) as (l1 & l2 & Eo & _ & ->). simpl.
      unfold invalidate_edit_origin. destruct (new_edit_revision _) as [r sup] eqn:E'. apply new_edit_revision_spec in E' as [Fr _].
      set (win := MkSession _ r _ _ _).
      apply (promote_ok l (MkRegistry win (l1 ++ current (reg l) :: l2) (peers (reg l)) (has_joined (reg l)) sup (requests (reg l)) (joins (reg l) ++ [win])) k m); auto; simpl.
      * exists c. split; [now right|exact Kc].
      * intros s. unfold sessions. rewrite Eo, elem_of_app, !elem_of_cons, elem_of_app, elem_of_cons. tauto.
      * intros i. unfold sessions. simpl. rewrite Eo, !copies_cons, !copies_app, !copies_cons. simpl. lia.
      * rewrite Jn. simpl. lia.
    + destruct (update_first_find (SessionKey_matches k) (fun _ u => (with_measurement c m, u)) _ tt _ F) as (l1 & l2 & Eo & _ & ->).
      apply (lose_ok l c l1 l2 k m); auto. intros E. apply matches_key in E. congruence.
Qed.

#[local] Instance SessionKey_eq_dec : EqDecision SessionKey.
Proof. solve_decision. Defined.

Lemma retired_key k g s : key_alive k false g = false -> s ∈ sessions g -> Session_key s <> k.
Proof.
  intros A M E. apply matches_key in E. apply orb_false_iff in A as [A1 A2]. simpl in A2.
  apply elem_of_cons in M as [->|M]; [congruence|]. apply not_true_iff_false in A2. apply A2, existsb_exists. exists s.
  split; [now apply list_elem_of_In|exact E].
Qed.

(** A step of the registry that leaves the channels and the tokens alone. *)
Lemma registry_ok l g :
  loop_ok l -> registry_kept (reg l) g -> requests g = requests (reg l) ->
  (joins g = joins (reg l) \/ exists s, joins (reg l) = s :: joins g) -> loop_ok (with_reg g l).
Proof.
  intros Ok R Rq Jn. pose proof (ok_channels l Ok) as (C1 & C2 & C3 & C4 & C5 & C6).
  assert (forall k, token (with_reg g l) k <-> token l k) as T by (intros k; unfold token; simpl; now rewrite Rq).
  apply (step_kept l); simpl; auto.
  - intros k K. right. now apply T.
  - apply (ok_retries l Ok).
  - intros k K. left. now apply T.
  - lia.
  - unfold channels_ok. simpl. rewrite Rq. destruct Jn as [->|[s J]]; [repeat split; auto|]. rewrite J in C5, C6. simpl in C5.
    repeat split; auto; [lia|]. destruct (handling l); auto; discriminate.
Qed.

Lemma drop_retry_ok l g i r :
  loop_ok l -> registry_kept (reg l) g -> requests g = requests (reg l) -> joins g = joins (reg l) -> retries l !! i = Some r ->
  (forall s, s ∈ sessions g -> Session_key s <> retry_key r) -> loop_ok (with_retries (delete i (retries l)) (with_reg g l)).
Proof.
  intros Ok R Rq Jn L N. pose proof (ok_channels l Ok) as (C1 & C2 & C3 & C4 & C5 & C6). apply (step_kept l); simpl; auto.
  - intros k T. right. unfold token in *. simpl in T. rewrite Rq in T. destruct T as [T|[T|[T|[T|(j & r' & T & K)]]]]; auto.
    apply lookup_delete_Some in T as [_ T]. do 4 right. eauto.
  - intros j r' T. apply lookup_delete_Some in T as [_ T]. now apply (ok_retries l Ok).
  - intros k T. destruct (decide (k = retry_key r)) as [->|D].
    + right. intros s O. apply N. exact (owed_session _ s O).
    + left. unfold token in *. simpl. rewrite Rq. destruct T as [T|[T|[T|[T|(j & r' & T & K)]]]]; auto. do 4 right. exists j, r'.
      rewrite lookup_delete_ne; [now split|]. intros ->. rewrite L in T. injection T as <-. congruence.
  - lia.
  - repeat split; simpl; rewrite ?Rq, ?Jn; auto.
Qed.

Lemma retry_ok l i : loop_ok l -> loop_ok (retry_fires i l).
Proof.
  intros Ok. pose proof (ok_channels l Ok) as (C1 & C2 & C3 & C4 & C5 & C6). unfold retry_fires.
  destruct (retries l !! i) as [r|] eqn:L; [|exact Ok].
  destruct (key_alive (retry_key r) false (reg l)) eqn:A; simpl.
  2: { rewrite <- (with_reg_same l) at 2. apply (drop_retry_ok l (reg l) i r); auto; [keeps|]. intros s M. exact (retired_key _ _ s A M). }
  destruct (requests (reg l)) eqn:Rq; [|exact Ok]. unfold admit_owned_request. unfold key_alive in A. simpl in A.
  replace (negb _ && negb _) with false by (now rewrite <- negb_orb, A).
  destruct (measurement_peer _ _ _) as [p|].
  - rewrite Rq. simpl. apply (step_kept l); simpl; auto.
    + keeps.
    + intros k T. right. unfold token in *. simpl in T. destruct T as [T|[T|[T|[T|(j & r' & T & K)]]]]; auto.
      * apply list_elem_of_singleton in T as ->. do 4 right. eauto.
      * apply lookup_delete_Some in T as [_ T]. do 4 right. eauto.
    + right. exists (retry_key r). rewrite (ok_retries l Ok _ _ L). split; [reflexivity|]. left. simpl. left.
    + intros j r' T. apply lookup_delete_Some in T as [_ T]. now apply (ok_retries l Ok).
    + intros k T. left. unfold token in *. simpl. rewrite Rq in T. destruct T as [T|[T|[T|[T|(j & r' & T & K)]]]]; auto.
      * simpl in T. inversion T.
      * destruct (decide (j = i)) as [->|D]; [left; rewrite L in T; injection T as <-; rewrite K; left|].
        do 4 right. exists j, r'. now rewrite lookup_delete_ne.
    + lia.
    + repeat split; simpl; auto. constructor; [exact I|constructor].
  - destruct (SessionKey_matches (retry_key r) (current (reg l))) eqn:Mc; [now rewrite with_reg_same|].
    apply (drop_retry_ok l _ i r); auto; [now apply (kept_filtered _ _ (fun s => negb (SessionKey_matches (retry_key r) s)))|].
    intros s M E. apply matches_key in E. apply elem_of_cons in M as [->|M]; [simpl in E; congruence|]. simpl in M.
    apply list_elem_of_In, List.filter_In in M as [_ M]. rewrite E in M. discriminate.
Qed.

Lemma service_ok l : loop_ok l -> loop_ok (service_takes l).
Proof.
  intros Ok. pose proof (ok_channels l Ok) as (C1 & C2 & C3 & C4 & C5 & C6). unfold service_takes.
  destruct (requests (reg l)) as [|[k p|k x|k p] rest] eqn:Rq; try exact Ok. apply (step_kept l); simpl; auto.
  - keeps.
  - intros k0 T. right. unfold token in *. rewrite Rq. simpl in *. rewrite map_app, elem_of_app in T. simpl in T. rewrite list_elem_of_singleton in T.
    rewrite elem_of_cons. intuition auto.
  - apply (ok_retries l Ok).
  - intros k0 T. left. unfold token in *. rewrite Rq in T. simpl in *. rewrite map_app, elem_of_app. simpl. rewrite list_elem_of_singleton.
    rewrite elem_of_cons in T. intuition auto.
  - lia.
  - simpl in C1. apply Forall_cons in C2 as [_ C2]. repeat split; simpl; auto. lia.
Qed.

Lemma report_key k node managed o e : report k node managed o = Some e -> event_key e = k /\ ~ is_request e.
Proof. unfold report. destruct o as [|s|], managed as [[|]|]; intros [= <-]; auto. Qed.

Lemma report_ok l before k node after managed o e :
  loop_ok l -> jobs l = before ++ (k, node) :: after -> results l = [] -> report k node managed o = Some e ->
  loop_ok (service_reports before after e l).
Proof.
  intros Ok Jb Rs E. pose proof (ok_channels l Ok) as (C1 & C2 & C3 & C4 & C5 & C6). apply report_key in E as [Ek Nq].
  assert (forall k0, token (service_reports before after e l) k0 <-> token l k0) as T.
  { intros k0. unfold token. simpl. rewrite Jb, Rs, !map_app, !elem_of_app. simpl. rewrite !elem_of_cons, Ek.
    assert (k0 ∈ @nil SessionKey <-> False) as -> by (split; [inversion 1|easy]). tauto. }
  apply (step_kept l); simpl; auto.
  - keeps.
  - intros k0 K. right. now apply T.
  - apply (ok_retries l Ok).
  - intros k0 K. left. now apply T.
  - lia.
  - unfold channels_ok. simpl. rewrite Rs. repeat split; simpl; auto.
Qed.

Lemma update_timeline_keeps s tl sup :
  kept s (fst (update_timeline s tl sup)) /\ fresh_incarnation (snd (update_timeline s tl sup)) = fresh_incarnation sup.
Proof.
  unfold update_timeline, set_timeline, invalidate_edit_origin. destruct (_ <? _); [|now repeat split].
  destruct (negb _); [|now repeat split]. destruct (new_edit_revision sup) as [r sup'] eqn:E.
  apply new_edit_revision_spec in E as [E _]. now repeat split.
Qed.

Lemma update_first_keeps p tl l sup l' sup' :
  update_first p (fun s => update_timeline s tl) l sup = Some (l', sup') ->
  Forall2 kept l l' /\ fresh_incarnation sup' = fresh_incarnation sup.
Proof.
  revert l'. induction l as [|s l IH]; intros l'; simpl; [discriminate|]. destruct (p s).
  - pose proof (update_timeline_keeps s tl sup) as [K F]. destruct (update_timeline s tl sup) as [s' sup1]. intros [= <- <-].
    split; [constructor; [exact K|]|exact F]. apply Forall2_same_length_lookup_2; [reflexivity|].
    intros i x y L1 L2. rewrite L1 in L2. injection L2 as ->. apply kept_refl.
  - destruct (update_first p _ l sup) as [[l1 sup1]|]; simpl; [|discriminate]. intros [= <- <-].
    destruct (IH l1 eq_refl) as [K F]. split; [constructor; [apply kept_refl|exact K]|exact F].
Qed.

(** A sighting keeps what there is, or founds one candidate and requests its
    measurement. *)
Lemma sighting_cases g id tl slot :
  let g' := (try_sighting g id tl slot).2 in
  joins g' = joins g /\
  ((registry_kept g g' /\ requests g' = requests g) \/
   (slot = true /\ exists s p, current g' = current g /\ other_sessions g' = other_sessions g ++ [s] /\
      measurement s = SessionMeasurement_default /\ incarnation s = fresh_incarnation (supply g) /\
      fresh_incarnation (supply g') = fresh_incarnation (supply g) + 1 /\ requests g' = requests g ++ [MPeerState (Session_key s) p])).
Proof.
  unfold try_sighting. set (tl' := clamp_tempo tl). destruct (bool_decide _).
  - pose proof (update_timeline_keeps (current g) tl' (supply g)) as [K F]. destruct (update_timeline _ _ _) as [cur sup]. simpl in *.
    split; [reflexivity|]. left. split; [|reflexivity]. split; [exact K|]. simpl. split; [|lia]. exists (other_sessions g).
    split; [reflexivity|]. apply Forall2_same_length_lookup_2; [reflexivity|]. intros i x y L1 L2. rewrite L1 in L2. injection L2 as ->. apply kept_refl.
  - destruct (update_first _ _ _ _) as [[others sup]|] eqn:U; simpl.
    + apply update_first_keeps in U as [K F]. split; [reflexivity|]. left. split; [|reflexivity]. split; [apply kept_refl|].
      simpl. split; [|lia]. now exists (other_sessions g).
    + destruct slot; simpl; [|split; [reflexivity|left; split; [now apply kept_same|reflexivity]]].
      destruct (measurement_peer _ _ _) as [p|]; simpl; [|split; [reflexivity|left; split; [now apply kept_same|reflexivity]]].
      unfold Session_new, Arc_new. destruct (new_edit_revision _) as [r sup] eqn:E. apply new_edit_revision_spec in E as [E _]. simpl in *.
      split; [reflexivity|]. right. split; [reflexivity|]. do 2 eexists. repeat split; [exact E].
Qed.

Lemma default_unmeasured s : measurement s = SessionMeasurement_default -> unmeasured s.
Proof.
  intros E. unfold unmeasured. rewrite E. simpl. unfold GhostXForm_eqb, GhostXForm_default. simpl.
  now rewrite (proj2 (Duration_eqb_spec _ _) eq_refl).
Qed.

Lemma found_ok l g s p :
  loop_ok l -> requests (reg l) = [] -> current g = current (reg l) -> other_sessions g = other_sessions (reg l) ++ [s] ->
  measurement s = SessionMeasurement_default -> incarnation s = fresh l -> fresh_incarnation (supply g) = fresh l + 1 ->
  requests g = [MPeerState (Session_key s) p] -> joins g = joins (reg l) ->
  loop_ok (with_asked (key_incarnation (Session_key s)) (with_reg g l)).
Proof.
  intros Ok R0 Cu Ot Ms Ei Fr Rq Jn. pose proof (ok_channels l Ok) as (C1 & C2 & C3 & C4 & C5 & C6).
  destruct (ok_timely l Ok) as (T0 & T1 & T2).
  assert (forall x, x ∈ sessions g <-> x ∈ sessions (reg l) \/ x = s) as Mem.
  { intros x. unfold sessions. rewrite Cu, Ot, !elem_of_cons, elem_of_app, list_elem_of_singleton. tauto. }
  assert (forall x, x ∈ sessions (reg l) -> incarnation x < fresh l) as Lt.
  { intros x M. apply (ok_fresh l Ok (Session_key x)). left. now exists x. }
  assert (forall k, token (with_asked (key_incarnation (Session_key s)) (with_reg g l)) k <-> k = Session_key s \/ token l k) as Tk.
  { intros k. unfold token. simpl. rewrite Rq, R0. simpl. rewrite elem_of_cons.
    assert (k ∈ @nil SessionKey <-> False) as -> by (split; [inversion 1|easy]). tauto. }
  assert (forall i, i <> fresh l -> copies i (sessions g) = copies i (sessions (reg l))) as Cp.
  { intros i N. unfold sessions. rewrite Cu, Ot, !copies_cons, copies_app, copies_cons, Ei. destruct (Z.eqb_spec (fresh l) i); [congruence|].
    change (copies i []) with 0%nat. lia. }
  apply (step_general l _ (Session_key s)); simpl; auto.
  - unfold fresh in *. simpl. lia.
  - intros k [(x & M & <-)|T].
    + apply Mem in M as [M| ->]; [left; left; now exists x|right]. simpl. unfold fresh in *. simpl. repeat split; auto; lia.
    + apply Tk in T as [->|T]; [right|left; now right]. simpl. unfold fresh in *. simpl. repeat split; auto; lia.
  - intros i I. apply elem_of_cons in I as [->|I]; [right|now left]. exists (Session_key s). split; [|reflexivity]. right. apply Tk. now left.
  - intros i I. now right.
  - apply (ok_retries l Ok).
  - intros x M U. rewrite Ot, elem_of_app, list_elem_of_singleton in M. destruct M as [M| ->].
    + right. exists x. repeat split; auto. rewrite Cp; [lia|]. specialize (Lt x (list_elem_of_further _ _ _ M)). lia.
    + left. split; [left|]. unfold sessions. rewrite Cu, Ot, copies_cons, copies_app, copies_cons, Z.eqb_refl.
      assert (copies (incarnation s) (sessions (reg l)) = 0%nat) as Z0.
      { unfold copies. destruct (List.filter _ (sessions (reg l))) as [|y ys] eqn:F; [reflexivity|].
        assert (In y (List.filter (fun x => incarnation x =? incarnation s) (sessions (reg l)))) as Fy by (rewrite F; now left).
        apply List.filter_In in Fy as [Fy Ey]. apply list_elem_of_In, Lt in Fy. apply Z.eqb_eq in Ey. lia. }
      unfold sessions in Z0. rewrite copies_cons in Z0. change (copies (incarnation s) []) with 0%nat. lia.
  - rewrite Cu. apply (ok_current l Ok).
  - intros x [A O]. simpl in A, O. apply Tk. destruct O as [E|[M U]].
    + right. rewrite Cu in E. subst x. apply (ok_token l Ok). split; [|now left].
      apply elem_of_cons in A as [A|A]; [|exact A]. specialize (Lt (current (reg l)) ltac:(left)). simpl in A. lia.
    + rewrite Ot, elem_of_app, list_elem_of_singleton in M. destruct M as [M| ->]; [right|now left]. apply (ok_token l Ok). split; [|now right].
      apply elem_of_cons in A as [A|A]; [|exact A]. specialize (Lt x (list_elem_of_further _ _ _ M)). simpl in A. lia.
  - intros k x W M U E. rewrite Ot, elem_of_app, list_elem_of_singleton in M. destruct M as [M| ->]; [exact (ok_was l Ok k x W M U E)|].
    assert (token l k) as T by (do 3 right; left; destruct (handling l) as [| | |? ? [|]|? ? [|]]; simpl in *; congruence).
    pose proof (ok_fresh l Ok k (or_intror T)) as L. rewrite <- E in L. simpl in L. lia.
  - split; [exact T0|]. split.
    + intros x M. apply Mem in M as [M| ->]; [now apply T1|]. rewrite Ms. simpl. rewrite duration_nanos_eq, nanos_zero. exact T0.
    + intros k m E. destruct (T2 k m E) as (N & L & B). split; [exact N|]. split; [exact L|]. intros x M K.
      apply Mem in M as [M| ->]; [now apply B|]. exfalso.
      pose proof (ok_fresh l Ok k (or_intror (or_intror (or_intror (or_intror (or_introl (measuring_key _ _ _ E))))))) as L'.
      rewrite <- K in L'. simpl in L'. lia.
  - unfold channels_ok. simpl. rewrite Rq, Jn. repeat split; simpl; auto. constructor; [exact I|constructor].
Qed.

Lemma sight_ok l id tl slot : loop_ok l -> loop_ok (sight id tl slot l).
Proof.
  intros Ok. unfold sight.
  pose proof (sighting_cases (reg l) id tl (slot && match requests (reg l) with [] => true | _ => false end)) as (Jn & [[R Rq]|(S & s & p & Cu & Ot & Ms & Ei & Fr & Rq)]).
  - rewrite Rq. assert (loop_ok (with_reg (try_sighting (reg l) id tl (slot && match requests (reg l) with [] => true | _ => false end)).2 l)) as X
      by (apply registry_ok; auto).
    destruct (requests (reg l)); exact X.
  - apply andb_true_iff in S as [_ S]. destruct (requests (reg l)) eqn:R0; [|discriminate]. rewrite Rq. simpl.
    now apply (found_ok l _ s p).
Qed.

Lemma reset_ok l s :
  loop_ok l -> GhostXForm_eqb (x_form (measurement s)) GhostXForm_default = false -> Duration_ltb (clock l) (m_timestamp (measurement s)) = false ->
  loop_ok (with_reg (Sessions_reset_session (reg l) s) l).
Proof.
  intros Ok N L. pose proof (ok_channels l Ok) as (C1 & C2 & C3 & C4 & C5 & C6). destruct (ok_timely l Ok) as (T0 & T1 & T2).
  set (g := Sessions_reset_session (reg l) s).
  assert (other_sessions g = [] /\ incarnation (current g) = fresh l /\ fresh_incarnation (supply g) = fresh l + 1 /\
          measurement (current g) = measurement s /\ requests g = requests (reg l) /\ joins g = joins (reg l)) as (Ot & Ei & Fr & Ms & Rq & Jn).
  { unfold g, Sessions_reset_session, Arc_new, set_timeline, invalidate_edit_origin, fresh.
    destruct (negb _); [destruct (new_edit_revision _) as [r sup] eqn:E; apply new_edit_revision_spec in E as [E _]|];
      (destruct (new_edit_revision _) as [r' sup'] eqn:E'; apply new_edit_revision_spec in E' as [E' _]); simpl in *; repeat split; simpl; congruence. }
  clearbody g. assert (forall k, token (with_reg g l) k <-> token l k) as Tk by (intros k; unfold token; simpl; now rewrite Rq).
  assert (forall x, x ∈ sessions g -> x = current g) as Mem.
  { intros x M. unfold sessions in M. rewrite Ot in M. now apply list_elem_of_singleton in M. }
  apply (step_general l _ (Session_key (current g))); simpl; auto.
  - unfold fresh in *. simpl. lia.
  - intros k [(x & M & <-)|T]; [right|left; right; now apply Tk]. rewrite (Mem x M). simpl. unfold fresh in *. simpl. repeat split; auto; lia.
  - apply (ok_retries l Ok).
  - rewrite Ot. intros x M. inversion M.
  - unfold unmeasured. rewrite Ms. congruence.
  - intros x [A O]. simpl in A, O. exfalso. rewrite Ot in O. destruct O as [->|[M _]]; [|inversion M]. apply (ok_asked l Ok) in A. lia.
  - intros k x _ M. rewrite Ot in M. inversion M.
  - assert (duration_nanos (m_timestamp (measurement s)) <= duration_nanos (clock l)) as Lt.
    { rewrite !duration_nanos_eq. apply not_true_iff_false in L. rewrite Duration_ltb_spec in L. lia. }
    split; [exact T0|]. split.
    + intros x M. rewrite (Mem x M), Ms. exact Lt.
    + intros k m E. destruct (T2 k m E) as (N' & L' & _). split; [exact N'|]. split; [exact L'|]. intros x M K. exfalso.
      pose proof (ok_fresh l Ok k (or_intror (or_intror (or_intror (or_intror (or_introl (measuring_key _ _ _ E))))))) as F.
      rewrite <- K, (Mem x M) in F. simpl in F. lia.
  - unfold channels_ok. simpl. rewrite Rq, Jn. repeat split; auto.
Qed.

Lemma clock_ok l now :
  loop_ok l -> Duration_ltb now (clock l) = false ->
  loop_ok (MkLoop (reg l) (jobs l) (results l) (handling l) (retries l) (asked l) now).
Proof.
  intros Ok L. apply (step_kept l); simpl; auto.
  - keeps.
  - intros k T. now right.
  - apply (ok_retries l Ok).
  - rewrite !duration_nanos_eq. apply not_true_iff_false in L. rewrite Duration_ltb_spec in L. lia.
  - exact (ok_channels l Ok).
Qed.

Lemma loop_step_ok l l' : loop_ok l -> loop_step l l' -> loop_ok l'.
Proof.
  intros Ok St. destruct St as [l Hd|l|l|l|l|l i|l id tl slot|l|l before k node after managed o e Jb Rs E|l s rest J|l ps|l g E|l s N L|l now L].
  - now apply take_event_ok.
  - now apply handle_ok.
  - now apply decide_ok.
  - now apply reserve_ok.
  - now apply commit_event_ok.
  - now apply retry_ok.
  - now apply sight_ok.
  - now apply service_ok.
  - now apply (report_ok l before k node after managed o).
  - apply registry_ok; auto; [keeps|]. right. now exists s.
  - apply registry_ok; auto. now apply (kept_filtered _ _ (fun s => SessionKey_matches (Session_key s) (current (reg l)) || bool_decide (session_id s ∈ map peer_session_id ps))).
  - pose proof (kept_edited _ _ E) as K. destruct E as (_ & _ & _ & Rq & Jn). apply registry_ok; auto.
  - now apply reset_ok.
  - now apply clock_ok.
Qed.

Lemma SessionsLoop_new_ok init ps sup now :
  incarnation init < fresh_incarnation sup -> GhostXForm_eqb (x_form (measurement init)) GhostXForm_default = false ->
  0 <= duration_nanos now -> duration_nanos (m_timestamp (measurement init)) <= duration_nanos now ->
  loop_ok (SessionsLoop_new init ps sup now).
Proof.
  intros F M C T. assert (forall k, token (SessionsLoop_new init ps sup now) k -> False) as No.
  { intros k [T'|[T'|[T'|[[]|(i & r & T' & _)]]]]; [now inversion T'..|]. simpl in T'. now rewrite lookup_empty in T'. }
  assert (forall s, s ∈ sessions (reg (SessionsLoop_new init ps sup now)) -> s = init) as Mem.
  { intros s. simpl. unfold sessions. simpl. rewrite !elem_of_cons. intros [->|[->|N]]; [reflexivity..|inversion N]. }
  constructor; simpl.
  - intros k [(s & Ms & <-)|T']; [|now destruct (No k)]. rewrite (Mem s Ms). exact F.
  - intros i I. inversion I.
  - intros k k' [(s & Ms & <-)|T'] [(s' & Ms' & <-)|T''] _; try now destruct (No _ ltac:(eassumption)). now rewrite (Mem s Ms), (Mem s' Ms').
  - intros i r. now rewrite lookup_empty.
  - intros s Ms U. apply list_elem_of_singleton in Ms as ->. unfold unmeasured in U. congruence.
  - unfold unmeasured. congruence.
  - intros s [A _]. inversion A.
  - discriminate.
  - split; [exact C|]. split; [|discriminate]. intros s Ms. now rewrite (Mem s Ms).
  - repeat split; simpl; auto.
Qed.

(** C10 No session is orphaned: from the start of a lifecycle on, however
    measurements succeed, fail and are cancelled, sessions are sighted, win, lose,
    are given up and are edited, and retries replace one another, somebody sees to
    the measurement of the current session once it has been measured, and to that
    of every candidate that has not been: it is requested, under way, reported,
    being handled, or to be retried.  Each session has one retry at most, and no
    channel between the tasks ever holds more than its one message. *)
Theorem no_session_orphaned init ps sup now l :
  incarnation init < fresh_incarnation sup -> GhostXForm_eqb (x_form (measurement init)) GhostXForm_default = false ->
  0 <= duration_nanos now -> duration_nanos (m_timestamp (measurement init)) <= duration_nanos now ->
  rtc loop_step (SessionsLoop_new init ps sup now) l ->
  (forall s, s ∈ other_sessions (reg l) -> unmeasured s -> token l (Session_key s)) /\
  (incarnation (current (reg l)) ∈ asked l -> token l (Session_key (current (reg l)))) /\
  (forall i j r r', retries l !! i = Some r -> retries l !! j = Some r' -> retry_key r = retry_key r' -> i = j) /\
  (length (requests (reg l)) <= 1)%nat /\ (length (results l) <= 1)%nat /\ (length (joins (reg l)) <= 1)%nat.
Proof.
  intros F M C T St. assert (loop_ok l) as Ok.
  { generalize (SessionsLoop_new_ok init ps sup now F M C T). revert St. generalize (SessionsLoop_new init ps sup now).
    intros l0 St. induction St as [l0|l0 l1 l2 S1 _ IH]; [easy|]. intros Ok0. apply IH. exact (loop_step_ok _ _ Ok0 S1). }
  pose proof (ok_channels l Ok) as (C1 & _ & C3 & _ & C5 & _). split; [|split; [|split; [|auto]]].
  - intros s Ms U. apply (ok_token l Ok). split; [now apply (ok_unmeasured l Ok)|right; auto].
  - intros A. apply (ok_token l Ok). split; [exact A|now left].
  - intros i j r r' L L' E. rewrite <- (ok_retries l Ok _ _ L), <- (ok_retries l Ok _ _ L'). now rewrite E.
Qed.

End LoopProperties.
