(* ===== verification/Remeasurement.v ===== *)
(** A retry that a caller owns: [RemeasurementTask] and [remeasurement_once] of
    src/src/link/sessions.rs, which [handle_successful_measurement],
    [handle_failed_measurement] and [schedule_remeasurement] return.

    The task waits its delay, then for room in the channel of requests, and asks
    once for a measurement of its session through a peer that is in it; when there
    is none it waits and tries again.  It ends early when the channel is closed,
    when the session it watches is no longer the current one, or when its owner
    drops it. *)

From stdpp Require Import base list numbers relations.
From Stdlib Require Import ZArith Lia.
From S2P Require Import Prelude Chrono F64 Encoding Beats Tempo Timeline GhostXForm Entries Payload Sessions.

Section Remeasurement.
Context `{Ch : Chrono, FD : FloatDecode}.

Inductive RemeasureAt := Delaying | Reserving | HasSlot | NoPeer | Finished.

(** [watches]: the owner gave it the current session to watch.  [present] and
    [around] are the current session and the peers as they are, [channel] the
    requests waiting, [asked] those of this task. *)
Record Remeasurement := MkRemeasurement {
  target : Session;
  watches : bool;
  present : Session;
  around : list ControllerPeer;
  channel : list MeasurePeerEvent;
  receiver_gone : bool;
  at_ : RemeasureAt;
  asked : list MeasurePeerEvent
}.

Definition goes (a : RemeasureAt) (r : Remeasurement) : Remeasurement :=
  MkRemeasurement (target r) (watches r) (present r) (around r) (channel r) (receiver_gone r) a (asked r).
Definition asks (e : MeasurePeerEvent) (r : Remeasurement) : Remeasurement :=
  MkRemeasurement (target r) (watches r) (present r) (around r) (channel r ++ [e]) (receiver_gone r) Finished (asked r ++ [e]).

Definition running (r : Remeasurement) : bool := match at_ r with Finished => false | _ => true end.
Definition is_retired (r : Remeasurement) : bool := watches r && negb (SessionKey_matches (Session_key (target r)) (present r)).

(** [schedule_remeasurement] watches nothing. *)
Definition remeasure (s : Session) (watches : bool) (present : Session) (ps : list ControllerPeer) (waiting : list MeasurePeerEvent)
  : Remeasurement := MkRemeasurement s watches present ps waiting false Delaying [].
Definition schedule_remeasurement (s : Session) (present : Session) (ps : list ControllerPeer) (waiting : list MeasurePeerEvent)
  : Remeasurement := remeasure s false present ps waiting.

(** [handle_successful_measurement] and [handle_failed_measurement]: an owner
    for the session that is to be measured again, if there is one.  It reads the
    registry's current session and peers as it goes. *)
Definition remeasurement_for (outcome : option Session) (g : Registry) (waiting : list MeasurePeerEvent) : option Remeasurement :=
  let! s := outcome in Some (remeasure s true (current g) (peers g) waiting).

Definition handle_failed_measurement (k : SessionKey) (waiting : list MeasurePeerEvent) (g : Registry) : option Remeasurement * Registry :=
  let '(outcome, g) := handle_failed_measurement_inner g k in (remeasurement_for outcome g waiting, g).

(** ** [remeasurement_once] *)

Definition delay_elapses (r : Remeasurement) : Remeasurement := match at_ r with Delaying => goes Reserving r | _ => r end.

Definition reserve_request (capacity : nat) (r : Remeasurement) : Remeasurement :=
  match at_ r with
  | Reserving => if receiver_gone r then goes Finished r else if (length (channel r) <? capacity)%nat then goes HasSlot r else r
  | _ => r
  end.

(** [free]: the locks of the session and of the peers. *)
Definition admit_request (free : bool) (r : Remeasurement) : Remeasurement :=
  match at_ r with
  | HasSlot =>
      if negb free then r
      else if is_retired r then goes Finished r
      else
        match measurement_peer (around r) (session_id (target r)) None with
        | Some p => asks (MPeerState (Session_key (target r)) (peer_state p)) r
        | None => goes NoPeer r
        end
  | _ => r
  end.

Definition try_again (r : Remeasurement) : Remeasurement := match at_ r with NoPeer => goes Reserving r | _ => r end.

(** The other branches of the [select!], and a drop. *)
Definition sees_retired (r : Remeasurement) : Remeasurement := if is_retired r then goes Finished r else r.
Definition sees_closed (r : Remeasurement) : Remeasurement := if receiver_gone r then goes Finished r else r.
Definition abort_remeasurement (r : Remeasurement) : Remeasurement := goes Finished r.

Inductive remeasurement_step (capacity : nat) : Remeasurement -> Remeasurement -> Prop :=
| RmDelay r : remeasurement_step capacity r (delay_elapses r)
| RmReserve r : remeasurement_step capacity r (reserve_request capacity r)
| RmAdmit r free : remeasurement_step capacity r (admit_request free r)
| RmAgain r : remeasurement_step capacity r (try_again r)
| RmRetired r : remeasurement_step capacity r (sees_retired r)
| RmClosed r : remeasurement_step capacity r (sees_closed r)
| RmAbort r : remeasurement_step capacity r (abort_remeasurement r)
| RmWorld r present ps gone : (receiver_gone r = true -> gone = true) ->
    remeasurement_step capacity r (MkRemeasurement (target r) (watches r) present ps (channel r) gone (at_ r) (asked r))
| RmReceived r e l : channel r = e :: l ->
    remeasurement_step capacity r (MkRemeasurement (target r) (watches r) (present r) (around r) l (receiver_gone r) (at_ r) (asked r))
| RmOther r e : (length (channel r) + match at_ r with HasSlot => 1 | _ => 0 end < capacity)%nat ->
    remeasurement_step capacity r
      (MkRemeasurement (target r) (watches r) (present r) (around r) (channel r ++ [e]) (receiver_gone r) (at_ r) (asked r)).

End Remeasurement.

(** ** It asks once, and rightly *)

Section RemeasurementProperties.
Context `{Laws : ChronoLaws, FL : FloatDecodeLaws}.
Variable capacity : nat.
Implicit Types r : Remeasurement.

Definition asked_ok (s : Session) r : Prop :=
  target r = s /\ (asked r = [] \/ exists p, asked r = [MPeerState (Session_key s) p] /\ at_ r = Finished).

Lemma remeasurement_step_ok s r r' : remeasurement_step capacity r r' -> asked_ok s r -> asked_ok s r'.
Proof.
  intros St [T A]. split; [destruct St; unfold delay_elapses, reserve_request, admit_request, try_again, sees_retired, sees_closed;
    repeat case_match; exact T|].
  assert (at_ r <> Finished -> asked r = []) as N by (intros Ne; destruct A as [A|(p & _ & F)]; [exact A|congruence]).
  destruct St; unfold delay_elapses, reserve_request, admit_request, try_again, sees_retired, sees_closed;
    repeat case_match; try exact A; cbn; try (left; apply N; congruence);
    try (destruct A as [A|(p & A & _)]; now eauto).
  right; rewrite N, <- T by congruence; eauto.
Qed.

Lemma remeasurement_steps_ok s r r' : rtc (remeasurement_step capacity) r r' -> asked_ok s r -> asked_ok s r'.
Proof. induction 1; eauto using remeasurement_step_ok. Qed.

(** The rest of the way, when nothing is missing. *)
Lemma remeasurement_asks r :
  running r = true -> receiver_gone r = false -> is_retired r = false -> (length (channel r) < capacity)%nat ->
  (exists q, q ∈ around r /\ peer_session_id q = session_id (target r)) ->
  exists r' e, rtc (remeasurement_step capacity) r r' /\ asked r' = asked r ++ [e] /\ at_ r' = Finished /\ channel r' = channel r ++ [e].
Proof.
  intros Ru G Re Ro (q & Q1 & Q2).
  assert (exists p, measurement_peer (around r) (session_id (target r)) None = Some p) as [p P].
  { pose proof (measurement_peer_sound (around r) (session_id (target r)) None) as S.
    destruct (measurement_peer _ _ _) as [p|]; [eauto|]. now destruct (S q Q1). }
  set (e := MPeerState (Session_key (target r)) (peer_state p)).
  assert (forall x, at_ x = HasSlot -> is_retired x = false -> around x = around r -> target x = target r ->
    admit_request true x = asks e x) as Ad.
  { intros x X1 X2 X3 X4. unfold admit_request. rewrite X1, X2. cbn. rewrite X3, X4, P. reflexivity. }
  assert (rtc (remeasurement_step capacity) r (goes HasSlot r)) as W.
  { assert (rtc (remeasurement_step capacity) (goes Reserving r) (goes HasSlot r)) as W.
    { apply rtc_once. replace (goes HasSlot r) with (reserve_request capacity (goes Reserving r)); [constructor|].
      unfold reserve_request. cbn [at_ goes receiver_gone channel]. rewrite G. now rewrite (proj2 (Nat.ltb_lt _ _) Ro). }
    destruct r as [tg w pr ar ch go [] ak]; try discriminate Ru; auto.
    - eapply rtc_l; [apply RmDelay|exact W].
    - apply rtc_refl.
    - eapply rtc_l; [apply RmAgain|exact W]. }
  exists (asks e (goes HasSlot r)), e. split; [|now repeat split].
  eapply rtc_r; [exact W|]. rewrite <- (Ad (goes HasSlot r)); try reflexivity; [constructor|exact Re].
Qed.

(** A retry asks once: whatever happens around it, it makes at most one request
    and ends with it; it asks for its own session, through a peer that is in it,
    and while the session it watches is the current one; and while it runs, a peer,
    room in the channel and its session being there, it can always go on to ask. *)
Theorem remeasurement_asks_once s w present ps l r :
  rtc (remeasurement_step capacity) (remeasure s w present ps l) r ->
  (asked r = [] \/ exists p, asked r = [MPeerState (Session_key s) p] /\ at_ r = Finished) /\
  (forall r' e, remeasurement_step capacity r r' -> asked r' = asked r ++ [e] ->
     is_retired r = false /\ exists p, p ∈ around r /\ peer_session_id p = session_id s /\ e = MPeerState (Session_key s) (peer_state p)) /\
  (running r = true -> receiver_gone r = false -> is_retired r = false -> (length (channel r) < capacity)%nat ->
   (exists q, q ∈ around r /\ peer_session_id q = session_id s) ->
   exists r' e, rtc (remeasurement_step capacity) r r' /\ asked r' = asked r ++ [e] /\ at_ r' = Finished /\ channel r' = channel r ++ [e]).
Proof.
  intros St. destruct (remeasurement_steps_ok s _ _ St) as [T A]; [now split; [|left]|]. split; [exact A|]. split.
  - intros r' e S E. assert (forall x : list MeasurePeerEvent, x <> x ++ [e]) as Nx.
    { intros x X. apply (f_equal length) in X. rewrite length_app in X. cbn in X. lia. }
    destruct S; unfold delay_elapses, reserve_request, admit_request, try_again, sees_retired, sees_closed in E;
      try (repeat case_match; now destruct (Nx _ E)).
    destruct (at_ r) eqn:P; try (now destruct (Nx _ E)). destruct free; [|now destruct (Nx _ E)]. cbn in E.
    destruct (is_retired r); [now destruct (Nx _ E)|]. split; [reflexivity|].
    pose proof (measurement_peer_sound (around r) (session_id (target r)) None) as So.
    destruct (measurement_peer _ _ _) as [p|]; [|now destruct (Nx _ E)]. cbn in E. apply app_inv_head in E. injection E as <-.
    rewrite <- T. exists p. split; [apply So|]. split; [apply So|reflexivity].
  - intros Ru G Re Ro Q. rewrite <- T in Q. now apply remeasurement_asks.
Qed.
End RemeasurementProperties.
