(* ===== verification/MeasurementService.v ===== *)
(** The measurement service: the loop of [MeasurementService::new_with_routes]
    with [measure_peer_in_epoch] and the task it spawns, of
    src/src/link/measurement.rs.

    The loop measures one peer at a time; the task that hands a finished
    measurement's samples on, a [Forward], outlives its turn.  Each stretch of
    code between two waits is one step.  The gate and the notifier of the
    lifecycle can end every wait: [cancel_step].  The job itself is that of
    MeasurementJob.v, and so is the bookkeeping of the registrations. *)

From stdpp Require Import base list numbers strings gmap relations.
From Stdlib Require Import ZArith Lia SpecFloat.
From S2P Require Import Prelude Chrono F64 Encoding Beats Tempo Timeline GhostXForm Entries Payload Messages Measurement Sessions Peers Routes MeasurementJob SessionsLoop.

Section Service.
Context `{Ch : Chrono, FD : FloatDecode}.

(** A route is a number: the registration it was learned from. *)
Notation Route := (option nat).

(** What a measurement in progress keeps: the session and peer measured, the
    route, and the number of its registration. *)
Record Target := MkTarget {
  t_key : SessionKey;
  t_peer : PeerState;
  t_route : Route;
  t_job : nat
}.

Inductive Stage :=
| Receiving
| Resolving (k : SessionKey) (p : PeerState)
| Answering (k : SessionKey) (node : NodeId) (e : MeasurePeerEvent)
| Registered (t : Target)
| Measuring (t : Target) (j : Job)
| Checking (t : Target).

(** The spawned task: waiting for the samples, for room in the channel, and
    with the room reserved. *)
Inductive Forward :=
| FReceive (t : Target) (samples : list (f64 * f64))
| FReserve (t : Target) (samples : list (f64 * f64))
| FSend (t : Target) (samples : list (f64 * f64)).

(** [inbox] and [answers] are the channels from and to the sessions, the latter
    with room for one; [gone] are the routes whose registration has ended;
    [taken] and [sent] the log of the requests taken up and of the answers. *)
Record Service := MkService {
  managed : bool;
  inbox : list MeasurePeerEvent;
  stage : Stage;
  forwards : list Forward;
  answers : list MeasurePeerEvent;
  gone : list nat;
  registrations : Dispatching;
  taken : list (SessionKey * NodeId);
  sent : list MeasurePeerEvent
}.

Definition Service_new (routes : bool) : Service :=
  MkService routes [] Receiving [] [] [] Dispatching_new [] [].

(** ** Assignments *)

Definition with_stage (st : Stage) (s : Service) : Service :=
  MkService (managed s) (inbox s) st (forwards s) (answers s) (gone s) (registrations s) (taken s) (sent s).
Definition with_forwards (fs : list Forward) (s : Service) : Service :=
  MkService (managed s) (inbox s) (stage s) fs (answers s) (gone s) (registrations s) (taken s) (sent s).
Definition with_registrations (d : Dispatching) (s : Service) : Service :=
  MkService (managed s) (inbox s) (stage s) (forwards s) (answers s) (gone s) d (taken s) (sent s).
Definition with_inbox (q : list MeasurePeerEvent) (s : Service) : Service :=
  MkService (managed s) q (stage s) (forwards s) (answers s) (gone s) (registrations s) (taken s) (sent s).
Definition with_answers (a : list MeasurePeerEvent) (s : Service) : Service :=
  MkService (managed s) (inbox s) (stage s) (forwards s) a (gone s) (registrations s) (taken s) (sent s).
Definition send (e : MeasurePeerEvent) (s : Service) : Service :=
  MkService (managed s) (inbox s) (stage s) (forwards s) (answers s ++ [e]) (gone s) (registrations s) (taken s) (sent s ++ [e]).

Definition route_gone (r : Route) (s : Service) : bool :=
  match r with Some r => bool_decide (r ∈ gone s) | None => false end.

Definition reserved (f : Forward) : bool := match f with FSend _ _ => true | _ => false end.

(** The channel has room: it is empty and nobody has reserved its place. *)
Definition has_room (s : Service) : bool :=
  match answers s with [] => negb (existsb reserved (forwards s)) | _ => false end.

Definition t_node (t : Target) : NodeId := state_ident (t_peer t).

(** The table pongs on the target's socket are dispatched by. *)
Definition t_table (r : Route) : nat := match r with Some r => S r | None => 0%nat end.

(** ** The loop *)

(** [measure_peer_in_epoch], to its first wait. *)
Definition enter (k : SessionKey) (p : PeerState) (r : Route) (s : Service) : Service :=
  match measurement_endpoint p with
  | None => with_stage (Answering k (state_ident p) (MXForm k GhostXForm_default)) s
  | Some ep =>
      let d := registrations s in
      with_stage (Registered (MkTarget k p r (next_job d)))
        (with_registrations (register (state_ident p) (t_table r) ep d) s)
  end.

(** The head of the loop takes a request. *)
Definition take_request (s : Service) : Service :=
  match stage s, inbox s with
  | Receiving, e :: rest =>
      let s := with_inbox rest s in
      match e with
      | MPeerState k p =>
          let s := MkService (managed s) (inbox s) (stage s) (forwards s) (answers s) (gone s) (registrations s)
                     (taken s ++ [(k, state_ident p)]) (sent s) in
          if managed s && is_some (measurement_endpoint p) then with_stage (Resolving k p) s
          else enter k p None s
      | _ => s
      end
  | _, _ => s
  end.

(** The answer of [resolve_async]. *)
Definition resolved (r : Route) (s : Service) : Service :=
  match stage s with
  | Resolving k p =>
      match r with
      | Some _ => enter k p r s
      | None => with_stage (Answering k (state_ident p) (MCancelled k (state_ident p))) s
      end
  | _ => s
  end.

(** An answer sent by the loop itself. *)
Definition answer (s : Service) : Service :=
  match stage s with
  | Answering _ _ e => if has_room s then with_stage Receiving (send e s) else s
  | _ => s
  end.

(** The first ping has gone out, or has failed to. *)
Definition first_ping_sent (now : Duration) (ok : bool) (s : Service) : Service :=
  match stage s with
  | Registered t => with_stage (Measuring t (Job_start (node_session_id (peer_node_state (t_peer t))) now ok)) s
  | _ => s
  end.

(** The measurement comes back cancelled: its registration ends. *)
Definition invalidate (s : Service) : Service :=
  match stage s with
  | Registered t | Measuring t _ =>
      if route_gone (t_route t) s
      then with_stage (Checking t) (with_registrations (drop_registration (t_job t) (registrations s)) s)
      else s
  | _ => s
  end.

(** The timer has left and the samples are published, while the route is
    current; the task that hands them on is spawned. *)
Definition publish_job (s : Service) : Service :=
  match stage s with
  | Measuring t j =>
      match timer j, terminal j with
      | TLeft, Some samples =>
          if route_gone (t_route t) s
          then with_stage (Checking t) (with_registrations (drop_registration (t_job t) (registrations s)) s)
          else
            with_stage Receiving
              (with_forwards (forwards s ++ [FReceive t samples])
                 (with_registrations (keep_measurement (t_job t) (registrations s)) s))
      | _, _ => s
      end
  | _ => s
  end.

(** A cancelled measurement: answered when its route has gone. *)
Definition check_retired (s : Service) : Service :=
  match stage s with
  | Checking t =>
      if route_gone (t_route t) s
      then with_stage (Answering (t_key t) (t_node t) (MCancelled (t_key t) (t_node t))) s
      else with_stage Receiving s
  | _ => s
  end.

(** ** The forwards *)

Definition forward_receives (i : nat) (s : Service) : Service :=
  match forwards s !! i with
  | Some (FReceive t samples) =>
      with_forwards (<[i := FReserve t samples]> (forwards s))
        (with_registrations (drop_registration (t_job t) (registrations s)) s)
  | _ => s
  end.

Definition forward_reserves (i : nat) (s : Service) : Service :=
  match forwards s !! i with
  | Some (FReserve t samples) =>
      if has_room s then with_forwards (<[i := FSend t samples]> (forwards s)) s else s
  | _ => s
  end.

Definition forward_sends (i : nat) (s : Service) : Service :=
  match forwards s !! i with
  | Some (FSend t samples) =>
      send (if route_gone (t_route t) s then MCancelled (t_key t) (t_node t)
            else MXForm (t_key t) (measured_x_form samples))
        (with_forwards (delete i (forwards s)) s)
  | _ => s
  end.

(** ** Steps *)

Inductive service_step : Service -> Service -> Prop :=
| SvTake s : service_step s (take_request s)
| SvResolved s r : service_step s (resolved r s)
| SvAnswer s : service_step s (answer s)
| SvPing s now ok : service_step s (first_ping_sent now ok s)
| SvJob s t j j' : stage s = Measuring t j -> job_step j j' -> outcome j' = Waiting -> service_step s (with_stage (Measuring t j') s)
| SvInvalidate s : service_step s (invalidate s)
| SvPublish s : service_step s (publish_job s)
| SvCheck s : service_step s (check_retired s)
| SvForwardReceives s i : service_step s (forward_receives i s)
| SvForwardReserves s i : service_step s (forward_reserves i s)
| SvForwardSends s i : service_step s (forward_sends i s)
| SvPong s table msg src : service_step s (with_registrations (dispatch_pong table msg src (registrations s)) s)
| SvListener s job : service_step s (with_registrations (listener_takes job (registrations s)) s)
| SvListenerGone s job : service_step s (with_registrations (listener_gone job (registrations s)) s)
| SvRoute s r : service_step s
    (MkService (managed s) (inbox s) (stage s) (forwards s) (answers s) (r :: gone s) (registrations s) (taken s) (sent s)).

(** The sessions' side of the channels. *)
Inductive client_step : Service -> Service -> Prop :=
| ClRequest s k p : inbox s = [] -> client_step s (with_inbox [MPeerState k p] s)
| ClTake s e rest : answers s = e :: rest -> client_step s (with_answers rest s).

(** The gate closes, or the notifier fires: what waits is dropped with its
    registration, and a closed gate drains the requests. *)
Definition drop_stage (s : Service) : Service :=
  match stage s with
  | Registered t | Measuring t _ =>
      with_stage Receiving (with_registrations (drop_registration (t_job t) (registrations s)) s)
  | _ => with_stage Receiving s
  end.

Definition drop_forward (i : nat) (s : Service) : Service :=
  match forwards s !! i with
  | Some (FReceive t _) =>
      with_forwards (delete i (forwards s)) (with_registrations (drop_registration (t_job t) (registrations s)) s)
  | Some _ => with_forwards (delete i (forwards s)) s
  | None => s
  end.

Inductive cancel_step : Service -> Service -> Prop :=
| CaStage s : cancel_step s (drop_stage s)
| CaForward s i : cancel_step s (drop_forward i s)
| CaDrain s : cancel_step s (with_inbox [] s).

Definition any_step (s s' : Service) : Prop := service_step s s' \/ client_step s s' \/ cancel_step s s'.

End Service.

(** ** Every request is answered once *)

Section ServiceProperties.
Context `{Ch : Chrono, FD : FloatDecode}.

Definition t_token (t : Target) : SessionKey * NodeId := (t_key t, t_node t).

Definition stage_tokens (st : Stage) : list (SessionKey * NodeId) :=
  match st with
  | Receiving => []
  | Resolving k p => [(k, state_ident p)]
  | Answering k n _ => [(k, n)]
  | Registered t | Measuring t _ | Checking t => [t_token t]
  end.

Definition forward_target (f : Forward) : Target :=
  match f with FReceive t _ | FReserve t _ | FSend t _ => t end.

(** The requests that still wait for their answer. *)
Definition tokens (s : Service) : list (SessionKey * NodeId) :=
  stage_tokens (stage s) ++ map (fun f => t_token (forward_target f)) (forwards s).

Definition stage_ok (s : Service) : Prop :=
  match stage s with
  | Answering k n e => e = MXForm k GhostXForm_default \/ e = MCancelled k n
  | Measuring t j => outcome j = Waiting /\ job_ok j
  | Checking t => route_gone (t_route t) s = true
  | _ => True
  end.

Definition held (fs : list Forward) : nat := length (List.filter reserved fs).

Record service_ok (s : Service) : Prop := {
  so_stage : stage_ok s;
  so_room : (held (forwards s) + length (answers s) <= 1)%nat;
  so_inbox : Forall is_request (inbox s)
}.

Lemma held_perm fs fs' : fs ≡ₚ fs' -> held fs = held fs'.
Proof.
  unfold held. induction 1 as [|f fs1 fs2 _ IH|f g fs1|]; cbn; [easy|destruct (reserved f); cbn; lia| |lia].
  destruct (reserved f), (reserved g); reflexivity.
Qed.

Lemma held_delete fs i f : fs !! i = Some f -> held fs = (held [f] + held (delete i fs))%nat.
Proof.
  intros L%delete_Permutation. rewrite (held_perm _ _ L). unfold held. cbn. now destruct (reserved f).
Qed.

Lemma held_app fs1 fs2 : held (fs1 ++ fs2) = (held fs1 + held fs2)%nat.
Proof. unfold held. now rewrite List.filter_app, length_app. Qed.

Lemma held_insert fs i f g : fs !! i = Some f -> (held (<[i := g]> fs) + held [f] = held fs + held [g])%nat.
Proof.
  intros L. pose proof (lookup_lt_Some _ _ _ L) as Lt. rewrite <- (take_drop_middle fs i f L) at 2.
  rewrite (insert_take_drop fs i g Lt). change (f :: drop (S i) fs) with ([f] ++ drop (S i) fs).
  change (g :: drop (S i) fs) with ([g] ++ drop (S i) fs). rewrite !held_app. lia.
Qed.

Lemma has_room_held s : has_room s = true -> answers s = [] /\ held (forwards s) = 0%nat.
Proof.
  unfold has_room, held. destruct (answers s); [|discriminate]. intros N%negb_true_iff. split; [reflexivity|].
  induction (forwards s) as [|f fs IH]; [reflexivity|]. cbn in *. apply orb_false_iff in N as [-> N]. auto.
Qed.

(** The route of a cancelled measurement stays gone. *)
Lemma route_gone_more r s s' :
  (forall x, x ∈ gone s -> x ∈ gone s') -> route_gone r s = true -> route_gone r s' = true.
Proof.
  intros M. unfold route_gone. destruct r as [r|]; [|discriminate]. rewrite !bool_decide_eq_true. auto.
Qed.

Lemma enter_ok k p r s : service_ok s -> service_ok (enter k p r s).
Proof. intros [A B D]. unfold enter. destruct (measurement_endpoint p); constructor; cbn; auto. Qed.

Lemma service_step_ok s s' : service_step s s' -> service_ok s -> service_ok s'.
Proof.
  intros St Ok. pose proof Ok as [A B D].
  destruct St as [s|s r|s|s now ok|s t j j' E J O|s|s|s|s i|s i|s i|s tb m a|s jb|s jb|s r].
  - unfold take_request. destruct (stage s) eqn:St; try exact Ok. destruct (inbox s) as [|e rest] eqn:Ib; [exact Ok|].
    apply Forall_cons in D as [_ D]. destruct e as [k p|k x|k n].
    + cbn. destruct (_ && _); [constructor; cbn -[held]; auto|]. apply enter_ok. constructor; cbn -[held]; auto; unfold stage_ok; cbn; now rewrite St.
    + constructor; cbn -[held]; auto; unfold stage_ok; cbn; now rewrite St.
    + constructor; cbn -[held]; auto; unfold stage_ok; cbn; now rewrite St.
  - unfold resolved. destruct (stage s) eqn:St; try exact Ok. destruct r; [now apply enter_ok|]. constructor; cbn -[held]; auto.
  - unfold answer. destruct (stage s) eqn:St; try exact Ok. destruct (has_room s) eqn:Hr; [|exact Ok].
    apply has_room_held in Hr as [Ha Hh]. constructor; cbn -[held]; auto. rewrite Ha, Hh. cbn. lia.
  - unfold first_ping_sent. destruct (stage s) eqn:St; try exact Ok. constructor; cbn -[held]; auto.
    split; [now destruct ok|apply Job_start_ok].
  - constructor; cbn -[held]; auto. split; [exact O|]. unfold stage_ok in A. rewrite E in A. now apply (job_step_ok j).
  - unfold invalidate. destruct (stage s) eqn:St; try exact Ok; (destruct (route_gone _ _) eqn:G; [|exact Ok]);
      (constructor; cbn -[held]; auto).
  - unfold publish_job. destruct (stage s) as [| | | |t j|] eqn:St; try exact Ok. destruct (timer j), (terminal j); try exact Ok.
    destruct (route_gone _ _) eqn:G; constructor; cbn -[held]; auto. rewrite held_app. cbn in *. lia.
  - unfold check_retired. destruct (stage s) eqn:St; try exact Ok. destruct (route_gone _ _) eqn:G; constructor; cbn -[held]; auto.
  - unfold forward_receives. destruct (forwards s !! i) as [[t d|t d|t d]|] eqn:L; try exact Ok.
    pose proof (held_insert _ _ _ (FReserve t d) L). constructor; cbn -[held] in *; auto. cbn in *. lia.
  - unfold forward_reserves. destruct (forwards s !! i) as [[t d|t d|t d]|] eqn:L; try exact Ok.
    destruct (has_room s) eqn:Hr; [|exact Ok]. apply has_room_held in Hr as [Ha Hh].
    pose proof (held_insert _ _ _ (FSend t d) L). constructor; cbn -[held] in *; auto. rewrite Ha. cbn in *. lia.
  - unfold forward_sends. destruct (forwards s !! i) as [[t d|t d|t d]|] eqn:L; try exact Ok.
    pose proof (held_delete _ _ _ L). constructor; cbn -[held] in *; auto. rewrite length_app. cbn in *. lia.
  - constructor; cbn -[held]; auto.
  - constructor; cbn -[held]; auto.
  - constructor; cbn -[held]; auto.
  - constructor; cbn -[held]; auto. unfold stage_ok in *. cbn. destruct (stage s); auto.
    eapply route_gone_more; [|exact A]. cbn. intros x. apply list_elem_of_further.
Qed.

(** The requests answered and those that wait for an answer. *)
Definition accounted (s : Service) : list SessionKey := map event_key (sent s) ++ map fst (tokens s).

Lemma insert_tokens fs i f g :
  fs !! i = Some f -> forward_target g = forward_target f ->
  map (fun f => t_token (forward_target f)) (<[i := g]> fs) = map (fun f => t_token (forward_target f)) fs.
Proof.
  intros L E. pose proof (lookup_lt_Some _ _ _ L) as Lt. rewrite <- (take_drop_middle fs i f L) at 2.
  rewrite (insert_take_drop fs i g Lt), !map_app. cbn. now rewrite E.
Qed.

Lemma delete_tokens fs i f :
  fs !! i = Some f ->
  map (fun f => t_token (forward_target f)) fs ≡ₚ
  t_token (forward_target f) :: map (fun f => t_token (forward_target f)) (delete i fs).
Proof. intros L. exact (Permutation_map (fun f => t_token (forward_target f)) (delete_Permutation _ _ _ L)). Qed.

(** A step of the service moves tokens between its places, or answers one. *)
Inductive moves (s s' : Service) : Prop :=
| mv_same : tokens s' ≡ₚ tokens s -> taken s' = taken s -> sent s' = sent s -> answers s' = answers s -> inbox s' = inbox s -> moves s s'
| mv_taken k p rest : inbox s = MPeerState k p :: rest -> inbox s' = rest -> taken s' = taken s ++ [(k, state_ident p)] ->
    tokens s' ≡ₚ (k, state_ident p) :: tokens s -> sent s' = sent s -> answers s' = answers s -> moves s s'
| mv_sent k n o m e : report k n m o = Some e -> answers s = [] -> answers s' = [e] -> sent s' = sent s ++ [e] ->
    tokens s ≡ₚ (k, n) :: tokens s' -> taken s' = taken s -> inbox s' = inbox s -> moves s s'.

Lemma enter_tokens k p r s :
  stage s = Receiving ->
  tokens (enter k p r s) = (k, state_ident p) :: tokens s /\ taken (enter k p r s) = taken s /\ sent (enter k p r s) = sent s /\
  answers (enter k p r s) = answers s /\ inbox (enter k p r s) = inbox s.
Proof. intros E. unfold enter, tokens. rewrite E. destruct (measurement_endpoint p); auto. Qed.

Lemma service_step_moves s s' : service_step s s' -> service_ok s -> moves s s'.
Proof.
  intros St [A B D].
  destruct St as [s|s r|s|s now ok|s t j j' E J O|s|s|s|s i|s i|s i|s tb m a|s jb|s jb|s r];
    try (now apply mv_same).
  - unfold take_request. destruct (stage s) eqn:St; try now apply mv_same. destruct (inbox s) as [|e rest] eqn:Ib; [now apply mv_same|].
    apply Forall_cons in D as [De _]. destruct e as [k p|k x|k n]; try easy. cbn.
    destruct (_ && _).
    + eapply mv_taken; cbn; try reflexivity; [exact Ib|]. unfold tokens. cbn. now rewrite St.
    + match goal with |- moves _ (enter _ _ _ ?s0) => destruct (enter_tokens k p None s0 St) as (E1 & E2 & E3 & E4 & E5) end.
      eapply mv_taken; [exact Ib|now rewrite E5|now rewrite E2| |now rewrite E3|now rewrite E4].
      rewrite E1. unfold tokens. cbn. reflexivity.
  - unfold resolved. destruct (stage s) eqn:St; try now apply mv_same. destruct r as [r|].
    + unfold enter. destruct (measurement_endpoint p); (apply mv_same; [unfold tokens; cbn; now rewrite St|reflexivity..]).
    + apply mv_same; [unfold tokens; cbn; now rewrite St|reflexivity..].
  - unfold answer. unfold stage_ok in A. destruct (stage s) as [|k p|k n e|t|t j|t] eqn:St; try now apply mv_same.
    destruct (has_room s) eqn:Hr; [|now apply mv_same]. apply has_room_held in Hr as [Ha _].
    assert (exists m o, report k n m o = Some e) as (m & o & R).
    { destruct A as [-> | ->]; [exists None, (Published [])|exists (Some false), Aborted]; reflexivity. }
    eapply (mv_sent _ _ k n o m e R); cbn; try reflexivity; [exact Ha|now rewrite Ha|]. unfold tokens. cbn. now rewrite St.
  - unfold first_ping_sent. destruct (stage s) eqn:St; try now apply mv_same.
    apply mv_same; [unfold tokens; cbn; now rewrite St|reflexivity..].
  - apply mv_same; [unfold tokens; cbn; now rewrite E|reflexivity..].
  - unfold invalidate. destruct (stage s) eqn:St; try (now apply mv_same); (destruct (route_gone _ _); [|now apply mv_same]);
      (apply mv_same; [unfold tokens; cbn; now rewrite St|reflexivity..]).
  - unfold publish_job. destruct (stage s) as [| | | |t j|] eqn:St; try now apply mv_same.
    destruct (timer j), (terminal j); try now apply mv_same.
    destruct (route_gone _ _); (apply mv_same; [unfold tokens; cbn; rewrite St|reflexivity..]); [reflexivity|].
    rewrite map_app. cbn. now rewrite Permutation_app_comm.
  - unfold check_retired. unfold stage_ok in A. destruct (stage s) eqn:St; try now apply mv_same. rewrite A.
    apply mv_same; [unfold tokens; cbn; now rewrite St|reflexivity..].
  - unfold forward_receives. destruct (forwards s !! i) as [[t d|t d|t d]|] eqn:L; try now apply mv_same.
    apply mv_same; [|reflexivity..]. unfold tokens. cbn. erewrite (insert_tokens _ _ _ (FReserve t d)); eauto.
  - unfold forward_reserves. destruct (forwards s !! i) as [[t d|t d|t d]|] eqn:L; try now apply mv_same.
    destruct (has_room s); [|now apply mv_same].
    apply mv_same; [|reflexivity..]. unfold tokens. cbn. erewrite (insert_tokens _ _ _ (FSend t d)); eauto.
  - unfold forward_sends. destruct (forwards s !! i) as [[t d|t d|t d]|] eqn:L; try now apply mv_same.
    assert (answers s = []) as Ha.
    { pose proof (held_delete _ _ _ L) as Hd. cbn in Hd. destruct (answers s); [reflexivity|]. cbn in B. lia. }
    assert (exists m o, report (t_key t) (t_node t) m o = Some (if route_gone (t_route t) s then MCancelled (t_key t) (t_node t)
            else MXForm (t_key t) (measured_x_form d))) as (m & o & R).
    { destruct (route_gone _ _); [exists (Some false), Aborted|exists None, (Published d)]; reflexivity. }
    eapply (mv_sent _ _ _ _ o m _ R); cbn; try reflexivity; [exact Ha|now rewrite Ha|].
    unfold tokens. cbn. rewrite (delete_tokens _ _ _ L). cbn. symmetry. apply Permutation_middle.
Qed.

Lemma moves_accounted s s' :
  moves s s' -> map fst (taken s) ≡ₚ accounted s -> map fst (taken s') ≡ₚ accounted s'.
Proof.
  unfold accounted. intros [T E1 E2 _ _|k p rest _ _ E1 T E2 _|k n o m e R _ _ E1 T E2 _] H0.
  - now rewrite E1, E2, T.
  - rewrite E1, E2, T, map_app, H0. cbn. rewrite <- app_assoc. apply Permutation_app_head. symmetry. apply Permutation_cons_append.
  - rewrite E1, E2, map_app, H0, T. cbn. apply report_key in R as [<- _]. now rewrite <- app_assoc.
Qed.

Lemma client_step_ok s s' : client_step s s' -> service_ok s -> service_ok s' /\ accounted s' = accounted s /\ taken s' = taken s.
Proof.
  intros [s0 k p E|s0 e rest E] [A B D]; (split; [|now split]); constructor; cbn -[held]; auto.
  - now repeat constructor.
  - rewrite E in B. cbn in B. lia.
Qed.

(** ** The sessions' loop can rely on it *)

(** What the loop of the sessions sees of the service. *)
Record seen_by (l : SessionsLoop) (s : Service) : Prop := {
  sb_requests : requests (reg l) = inbox s;
  sb_jobs : jobs l ≡ₚ tokens s;
  sb_results : results l = answers s
}.

Lemma service_simulates l s s' :
  service_ok s -> seen_by l s -> service_step s s' ->
  exists l', rtc loop_step l l' /\ seen_by l' s' /\ service_ok s'.
Proof.
  intros Ok [R J A] St. pose proof (service_step_ok _ _ St Ok) as Ok'.
  destruct (service_step_moves _ _ St Ok) as [T _ _ E1 E2|k p rest I I' _ T _ E1|k n o m e Rp A0 A1 _ T _ E2].
  - exists l. split; [reflexivity|]. split; [|exact Ok']. constructor; [now rewrite E2|now rewrite T|now rewrite E1].
  - exists (service_takes l). split; [apply rtc_once, ls_service|]. split; [|exact Ok']. unfold service_takes. rewrite R, I.
    constructor; cbn; [now rewrite I'| |now rewrite E1]. rewrite T, J. symmetry. apply Permutation_cons_append.
  - assert ((k, n) ∈ jobs l) as M by (rewrite J, T; now left). apply list_elem_of_split in M as (before & after & M).
    exists (service_reports before after e l). split.
    + apply rtc_once. eapply ls_report; [exact M| |exact Rp]. now rewrite A.
    + split; [|exact Ok']. constructor; cbn; [now rewrite E2| |now rewrite A, A0, A1].
      apply (Permutation_cons_inv (a := (k, n))). rewrite <- T, <- J, M. apply Permutation_middle.
Qed.

(** C5 The measurement service is what the loop of the sessions takes it for:
    every run of the service, whatever its jobs, routes and pongs do, is a run
    of the steps by which that loop sees requests taken up and answered. *)
Theorem service_refines l s s' :
  service_ok s -> seen_by l s -> rtc service_step s s' ->
  exists l', rtc loop_step l l' /\ seen_by l' s'.
Proof.
  intros Ok Sb St. revert l Ok Sb. induction St as [s0|s0 s1 s2 S1 _ IH]; intros l Ok Sb; [exists l; split; [reflexivity|exact Sb]|].
  destruct (service_simulates l s0 s1 Ok Sb S1) as (l1 & L1 & Sb1 & Ok1).
  destruct (IH l1 Ok1 Sb1) as (l2 & L2 & Sb2). exists l2. split; [now transitivity l1|exact Sb2].
Qed.

(** ** At most one answer, and one in the end *)

Definition own_step (s s' : Service) : Prop := service_step s s' \/ client_step s s'.

Definition service_inv (s : Service) : Prop := service_ok s /\ map fst (taken s) ≡ₚ accounted s.

Lemma own_step_inv s s' : own_step s s' -> service_inv s -> service_inv s'.
Proof.
  intros [St|St] [Ok Ac].
  - split; [exact (service_step_ok _ _ St Ok)|]. exact (moves_accounted _ _ (service_step_moves _ _ St Ok) Ac).
  - destruct (client_step_ok _ _ St Ok) as (Ok' & E1 & E2). split; [exact Ok'|]. now rewrite E1, E2.
Qed.

Lemma own_steps_inv s s' : rtc own_step s s' -> service_inv s -> service_inv s'.
Proof. induction 1; eauto using own_step_inv. Qed.

Lemma Service_new_inv r : service_inv (Service_new r).
Proof. split; [constructor; cbn; auto|reflexivity]. Qed.

Lemma cancel_step_ok s s' :
  cancel_step s s' -> service_ok s -> service_ok s' /\ accounted s' ⊆+ accounted s /\ taken s' = taken s.
Proof.
  intros St [A B D]. destruct St as [s|s i|s].
  - assert (forall d, service_ok (with_stage Receiving (with_registrations d s)) /\
      accounted (with_stage Receiving (with_registrations d s)) ⊆+ accounted s) as X.
    { intros d. split; [now constructor|]. unfold accounted, tokens. cbn. rewrite map_app. apply submseteq_app; [done|].
      apply submseteq_inserts_l. done. }
    assert (with_stage Receiving s = with_stage Receiving (with_registrations (registrations s) s)) as Y by now destruct s.
    unfold drop_stage. rewrite Y. destruct (stage s); split; try apply X; split; try apply X; reflexivity.
  - unfold drop_forward. destruct (forwards s !! i) as [f|] eqn:L; [|now repeat split].
    assert (forall d, service_ok (with_forwards (delete i (forwards s)) (with_registrations d s)) /\
      accounted (with_forwards (delete i (forwards s)) (with_registrations d s)) ⊆+ accounted s) as X.
    { intros d. split.
      - constructor; cbn -[held]; auto. rewrite (held_delete _ _ _ L) in B. lia.
      - unfold accounted, tokens. cbn. apply submseteq_app; [done|]. rewrite (delete_tokens _ _ _ L), !map_app.
        apply submseteq_app; [done|]. cbn. now apply submseteq_cons. }
    assert (forall fs, with_forwards fs s = with_forwards fs (with_registrations (registrations s) s)) as Y by now destruct s.
    rewrite Y. destruct f; split; try apply X; split; try apply X; reflexivity.
  - split; [constructor; cbn; auto|]. now split.
Qed.

(** The log never holds more than was asked, and nothing is lost unless it is
    cut short. *)
Lemma answers_accounted r s :
  (rtc any_step (Service_new r) s -> map event_key (sent s) ⊆+ map fst (taken s)) /\
  (rtc own_step (Service_new r) s -> map fst (taken s) ≡ₚ map event_key (sent s) ++ map fst (tokens s)).
Proof.
  split.
  - intros St. assert (service_ok s /\ accounted s ⊆+ map fst (taken s)) as [_ X].
    { revert St. apply (rtc_ind_r (fun s => service_ok s /\ accounted s ⊆+ map fst (taken s))).
      - split; [apply Service_new_inv|done].
      - intros s1 s2 _ [St|[St|St]] [Ok X].
        + split; [exact (service_step_ok _ _ St Ok)|]. apply submseteq_Permutation in X as [rest X].
          destruct (service_step_moves _ _ St Ok) as [T E1 E2 _ _|k p q _ _ E1 T E2 _|k n o m e R _ _ E1 T E2 _];
            unfold accounted in *.
          * rewrite E1, E2, T, X. now apply submseteq_inserts_r.
          * rewrite E1, E2, T, map_app, X. cbn. rewrite <- (Permutation_middle (map event_key (sent s1))).
            rewrite <- Permutation_cons_append. apply submseteq_skip. now apply submseteq_inserts_r.
          * rewrite E1, E2, X, T, map_app. cbn. apply report_key in R as [<- _]. rewrite <- !app_assoc. cbn.
            apply submseteq_app; [done|]. apply submseteq_skip. now apply submseteq_inserts_r.
        + destruct (client_step_ok _ _ St Ok) as (Ok' & E1 & E2). split; [exact Ok'|]. now rewrite E1, E2.
        + destruct (cancel_step_ok _ _ St Ok) as (Ok' & E1 & E2). split; [exact Ok'|]. rewrite E2. etransitivity; [exact E1|exact X]. }
    etransitivity; [|exact X]. unfold accounted. now apply submseteq_inserts_r.
  - intros St. apply (own_steps_inv _ _ St (Service_new_inv r)).
Qed.

(** ** Every request can be answered *)

(** Runs that only empty the service. *)
Local Notation progress := (rtc own_step).

Lemma own_service s s' : service_step s s' -> progress s s'.
Proof. intros St. apply rtc_once. now left. Qed.

(** The reserved place is used and the answers are taken. *)
Lemma make_room s :
  service_ok s -> exists s', progress s s' /\ has_room s' = true /\ stage s' = stage s /\ gone s' = gone s /\
    inbox s' = inbox s /\ (length (forwards s') <= length (forwards s))%nat.
Proof.
  intros Ok. assert (forall x, service_ok x -> held (forwards x) = 0%nat -> exists x', progress x x' /\ has_room x' = true /\
    stage x' = stage x /\ gone x' = gone x /\ inbox x' = inbox x /\ (length (forwards x') <= length (forwards x))%nat) as Take.
  { intros x [A B D] Hx. assert (existsb reserved (forwards x) = false) as Nr.
    { unfold held in Hx. clear - Hx. induction (forwards x) as [|f fs IH]; [reflexivity|]. cbn in *.
      destruct (reserved f); [discriminate|auto]. }
    unfold has_room. destruct (answers x) as [|e [|e' rest]] eqn:Ea.
    - exists x. rewrite Ea, Nr. repeat split; reflexivity.
    - exists (with_answers [] x). split; [apply rtc_once; right; now apply (ClTake x e [])|]. cbn. rewrite Nr. repeat split. reflexivity.
    - cbn in B. lia. }
  destruct (held (forwards s)) as [|n] eqn:Hh; [now apply Take|].
  assert (exists i t d, forwards s !! i = Some (FSend t d)) as (i & t & d & L).
  { unfold held in Hh. clear - Hh. induction (forwards s) as [|f fs IH]; [discriminate|]. cbn in Hh. destruct (reserved f) eqn:R.
    - destruct f; try discriminate. now exists 0%nat, t, samples.
    - destruct (IH Hh) as (i & t & d & L). now exists (S i), t, d. }
  assert (service_ok (forward_sends i s)) as Ok' by exact (service_step_ok _ _ (SvForwardSends s i) Ok).
  destruct (Take (forward_sends i s) Ok') as (x & P & X1 & X2 & X3 & X4 & X5).
  { pose proof (so_room s Ok) as B. unfold forward_sends. rewrite L. cbn -[held].
    pose proof (held_delete _ _ _ L) as Hd. cbn in Hd. lia. }
  exists x. split; [etransitivity; [apply own_service, (SvForwardSends s i)|exact P]|].
  revert X2 X3 X4 X5. unfold forward_sends. rewrite L. cbn. intros -> -> -> X5. repeat split; auto.
  pose proof (Permutation_length (delete_Permutation _ _ _ L)) as E. cbn in E. lia.
Qed.

(** A measurement's timer runs to its end. *)
Lemma job_ends s t j :
  stage s = Measuring t j -> outcome j = Waiting -> job_ok j ->
  exists j', progress s (with_stage (Measuring t j') s) /\ timer j' = TLeft /\ outcome j' = Waiting /\ job_ok j'.
Proof.
  remember (job_work j) as w eqn:W. revert s j W. induction (lt_wf w) as [w _ IH]. intros s j -> E O Ok.
  assert (forall j1, job_step j j1 -> outcome j1 = Waiting -> timer j1 <> timer j ->
    exists j', progress s (with_stage (Measuring t j') s) /\ timer j' = TLeft /\ outcome j' = Waiting /\ job_ok j') as Step.
  { intros j1 St O1 N. destruct (job_step_work _ _ Ok St) as [(T & _ & _)|Lt]; [now destruct (N T)|].
    destruct (IH _ Lt (with_stage (Measuring t j1) s) j1 eq_refl eq_refl O1 (job_step_ok _ _ Ok St)) as (j' & P & R).
    exists j'. split; [|exact R]. etransitivity; [apply own_service; exact (SvJob s t j j1 E St O1)|]. now destruct s. }
  destruct (timer j) eqn:T.
  - apply (Step (timer_slept Duration_zero j)); [now constructor| |]; unfold timer_slept; destruct (fst _); cbn; congruence.
  - apply (Step (timer_pinged Duration_zero true j)); [now constructor|exact O|cbn; congruence].
  - apply (Step (timer_second Duration_zero j)); [now constructor|exact O|cbn; congruence].
  - exists j. split; [|auto]. rewrite <- E. now destruct s.
Qed.

(** What the loop is at ends, and may leave a forward behind. *)
Lemma stage_ends s :
  service_ok s -> exists s', progress s s' /\ stage s' = Receiving /\ inbox s' = inbox s.
Proof.
  assert (forall x k n e, service_ok x -> stage x = Answering k n e ->
    exists x', progress x x' /\ stage x' = Receiving /\ inbox x' = inbox x) as Ans.
  { intros x k n e Ok E. destruct (make_room x Ok) as (y & P & R & Es & _ & Ei & _). exists (answer y).
    split; [etransitivity; [exact P|apply own_service, SvAnswer]|]. unfold answer. rewrite Es, E, R. cbn. auto. }
  assert (forall x t, service_ok x -> stage x = Checking t ->
    exists x', progress x x' /\ stage x' = Receiving /\ inbox x' = inbox x) as Che.
  { intros x t Ok E. pose proof (so_stage x Ok) as G. unfold stage_ok in G. rewrite E in G.
    assert (service_ok (check_retired x)) as Ok' by exact (service_step_ok _ _ (SvCheck x) Ok).
    destruct (Ans (check_retired x) (t_key t) (t_node t) (MCancelled (t_key t) (t_node t)) Ok') as (y & P & Y1 & Y2).
    { unfold check_retired. rewrite E, G. reflexivity. }
    exists y. split; [etransitivity; [apply own_service, SvCheck|exact P]|]. split; [exact Y1|]. rewrite Y2.
    unfold check_retired. now rewrite E, G. }
  assert (forall x t j, service_ok x -> stage x = Measuring t j ->
    exists x', progress x x' /\ stage x' = Receiving /\ inbox x' = inbox x) as Mea.
  { intros x t j Ok E. pose proof (so_stage x Ok) as G. unfold stage_ok in G. rewrite E in G. destruct G as [O Oj].
    destruct (job_ends x t j E O Oj) as (j' & P & T & O' & Oj'). set (y := with_stage (Measuring t j') x) in *.
    pose proof (ok_left j' Oj' T) as Te. destruct (terminal j') as [d|] eqn:D; [|now destruct Te].
    assert (service_ok y) as Oy by (destruct Ok as [A B Dx]; constructor; auto; now split).
    pose proof (service_step_ok y _ (SvPublish y) Oy) as Op.
    assert (publish_job y = if route_gone (t_route t) y
      then with_stage (Checking t) (with_registrations (drop_registration (t_job t) (registrations y)) y)
      else with_stage Receiving (with_forwards (forwards y ++ [FReceive t d])
             (with_registrations (keep_measurement (t_job t) (registrations y)) y))) as Pj
      by (unfold publish_job, y; cbn; now rewrite T, D).
    rewrite Pj in Op. assert (progress x (publish_job y)) as Px by (etransitivity; [exact P|apply own_service, SvPublish]).
    rewrite Pj in Px. destruct (route_gone (t_route t) y).
    - destruct (Che _ t Op eq_refl) as (z & Pz & Z). exists z. split; [etransitivity; eassumption|exact Z].
    - eexists. split; [exact Px|]. now split. }
  assert (forall x t, service_ok x -> stage x = Registered t ->
    exists x', progress x x' /\ stage x' = Receiving /\ inbox x' = inbox x) as Reg.
  { intros x t Ok E. pose proof (service_step_ok x _ (SvPing x Duration_zero true) Ok) as Op.
    assert (progress x (first_ping_sent Duration_zero true x)) as P by apply own_service, SvPing.
    unfold first_ping_sent in Op, P. rewrite E in Op, P. destruct (Mea _ t _ Op eq_refl) as (z & Pz & Z).
    exists z. split; [etransitivity; eassumption|exact Z]. }
  intros Ok. destruct (stage s) as [|k p|k n e|t|t j|t] eqn:E; [exists s; now repeat split| |eauto..].
  pose proof (service_step_ok s _ (SvResolved s None) Ok) as Op.
  assert (progress s (resolved None s)) as P by apply own_service, SvResolved.
  unfold resolved in Op, P. rewrite E in Op, P. destruct (Ans _ k (state_ident p) _ Op eq_refl) as (z & Pz & Z).
  exists z. split; [etransitivity; eassumption|exact Z].
Qed.

(** A forward sends what it has. *)
Lemma forward_ends s :
  service_ok s -> stage s = Receiving -> forwards s <> [] ->
  exists s', progress s s' /\ stage s' = Receiving /\ inbox s' = inbox s /\ (length (forwards s') < length (forwards s))%nat.
Proof.
  intros Ok E N. destruct (make_room s Ok) as (y & P & R & Es & _ & Ei & Le).
  destruct (forwards y) as [|f fs] eqn:L.
  { exists y. rewrite L. repeat split; auto; [congruence|]. destruct (forwards s); [easy|cbn; lia]. }
  assert (reserved f = false /\ existsb reserved fs = false /\ answers y = []) as (Nf & Nfs & Ay).
  { unfold has_room in R. rewrite L in R. destruct (answers y); [|discriminate]. apply negb_true_iff in R. cbn in R.
    apply orb_false_iff in R. tauto. }
  assert (exists y1 t d, progress y y1 /\ forwards y1 = FReserve t d :: fs /\ answers y1 = [] /\ stage y1 = stage y /\ inbox y1 = inbox y)
    as (y1 & t & d & P1 & L1 & A1 & S1 & I1).
  { destruct f as [t d|t d|t d]; [| |discriminate].
    - exists (forward_receives 0 y), t, d. split; [apply own_service, SvForwardReceives|]. unfold forward_receives. rewrite L. now cbn.
    - exists y, t, d. now repeat split. }
  exists (forward_sends 0 (forward_reserves 0 y1)). split.
  { etransitivity; [exact P|]. etransitivity; [exact P1|]. eapply rtc_l; [left; apply (SvForwardReserves y1 0)|]. apply own_service, SvForwardSends. }
  unfold forward_reserves, has_room. rewrite L1, A1. cbn [lookup list_lookup existsb reserved]. rewrite Nfs. cbn.
  unfold forward_sends. cbn. rewrite S1, I1, Es, Ei. repeat split; auto; cbn in Le; lia.
Qed.

Lemma forwards_end s :
  service_ok s -> stage s = Receiving -> service_inv s ->
  exists s', progress s s' /\ stage s' = Receiving /\ inbox s' = inbox s /\ forwards s' = [].
Proof.
  remember (length (forwards s)) as n eqn:Hn. revert s Hn. induction (lt_wf n) as [n _ IH]. intros s -> Ok E Iv.
  destruct (forwards s) as [|f fs] eqn:L; [exists s; now repeat split|].
  destruct (forward_ends s Ok E) as (y & P & Ey & Iy & Lt); [congruence|].
  pose proof (own_steps_inv _ _ P Iv) as Iv'. rewrite <- L in IH.
  destruct (IH _ Lt y eq_refl (proj1 Iv') Ey Iv') as (z & Pz & Ez & Iz & Fz).
  exists z. split; [etransitivity; eassumption|]. split; [exact Ez|]. split; [congruence|exact Fz].
Qed.

(** From every state the service can go on to answer every request it holds. *)
Lemma service_answers_all r s :
  rtc own_step (Service_new r) s ->
  exists s', rtc own_step s s' /\ inbox s' = [] /\ stage s' = Receiving /\ forwards s' = [] /\
    map fst (taken s') ≡ₚ map event_key (sent s').
Proof.
  intros St. pose proof (own_steps_inv _ _ St (Service_new_inv r)) as Iv. clear St.
  assert (forall x, service_inv x -> exists x', progress x x' /\ stage x' = Receiving /\ inbox x' = inbox x /\ forwards x' = []) as Rest.
  { intros x Ix. destruct (stage_ends x (proj1 Ix)) as (y & P & E & Iy). pose proof (own_steps_inv _ _ P Ix) as Iv'.
    destruct (forwards_end y (proj1 Iv') E Iv') as (z & Pz & Ez & Iz & Fz). exists z.
    split; [etransitivity; eassumption|]. split; [exact Ez|]. split; [congruence|exact Fz]. }
  assert (exists s', progress s s' /\ stage s' = Receiving /\ inbox s' = [] /\ forwards s' = []) as (z & P & E & I & F).
  { remember (length (inbox s)) as n eqn:Hn. revert s Hn Iv. induction (lt_wf n) as [n _ IH]. intros s -> Iv.
    destruct (Rest s Iv) as (y & P & Ey & Iy & Fy). destruct (inbox s) as [|e rest] eqn:Ib; [exists y; now repeat split|].
    assert (progress s (take_request y)) as Pt by (etransitivity; [exact P|apply own_service, SvTake]).
    pose proof (own_steps_inv _ _ Pt Iv) as Iv'. destruct (IH (length (inbox (take_request y)))) with (s := take_request y) as (z & Pz & Z); auto.
    - pose proof (so_inbox y (proj1 (own_steps_inv _ _ P Iv))) as Q. unfold take_request. rewrite Ey, Iy in *.
      apply Forall_cons in Q as [Qe _]. destruct e; try easy. cbn. destruct (_ && _); [cbn; lia|].
      unfold enter. destruct (measurement_endpoint p); cbn; lia.
    - exists z. split; [etransitivity; eassumption|exact Z]. }
  exists z. repeat split; auto. pose proof (own_steps_inv _ _ P Iv) as [_ Ac]. rewrite Ac. unfold accounted, tokens.
  rewrite E, F. cbn. now rewrite app_nil_r.
Qed.

(** C26 Every measurement request is answered, once.  However the lifecycle cuts
    measurements short, no request is answered twice, nor one that was not made.
    As long as nothing is cut, the requests taken up are exactly those answered
    and those still in progress; and from every such state the service can go on
    to answer all it holds, those in its channel included, whether their peers
    reply or not. *)
Theorem requests_answered_once r s :
  (rtc any_step (Service_new r) s -> map event_key (sent s) ⊆+ map fst (taken s)) /\
  (rtc own_step (Service_new r) s ->
   map fst (taken s) ≡ₚ map event_key (sent s) ++ map fst (tokens s) /\
   exists s', rtc own_step s s' /\ inbox s' = [] /\ stage s' = Receiving /\ forwards s' = [] /\
     map fst (taken s') ≡ₚ map event_key (sent s')).
Proof.
  destruct (answers_accounted r s) as [Most Exact]. split; [exact Most|]. intros St.
  split; [now apply Exact|now apply (service_answers_all r)].
Qed.

End ServiceProperties.
