(* ===== verification/Notifications.v ===== *)
(** Callbacks into the application: [TempoNotifications] of
    src/src/link/controller.rs and [ChannelNotifications] of
    src/src/link_audio/engine.rs.

    A callback is a number; nothing is assumed of what it does, except that it
    returns or panics.  Each section under a lock is one step; a call is a step of
    its own, so that two of them can be under way at once wherever the code lets
    them. *)

From stdpp Require Import base list numbers relations.
From Stdlib Require Import ZArith Lia.
From S2P Require Import Prelude F64.

(** ** Changes of the channel list *)

Module Channels.

(** A callback that a drain has taken out, with its guard: not called yet, under
    way, or done. *)
Inductive Stage := Taken | Inside | Done (panicked : bool).

Record ActiveCallback := MkActive { taken_out : nat; stage : Stage }.

(** [callback], [pending] and [running] are the locked state, [closed] the flag.
    [heads] counts the drains at the head of their loop, [actives] are the
    callbacks that drains have taken out, as many as there are.  Of what happened:
    [registered] is the callback last set, [failed] says that it panicked and was
    removed, [changes] counts the changes accepted, and [invoked] has every
    invocation with that count as it began. *)
Record Notifications := MkNotifications {
  callback : option nat;
  pending : bool;
  running : bool;
  closed : bool;
  heads : nat;
  actives : list ActiveCallback;
  registered : option nat;
  failed : bool;
  changes : nat;
  invoked : list (nat * nat)
}.



(** [set]: the previous callback is dropped, then a drain starts. *)
Definition set (c : nat) (n : Notifications) : Notifications :=
  MkNotifications (Some c) (pending n) (running n) (closed n) (S (heads n)) (actives n) (Some c) false (changes n) (invoked n).









(** ** No change is lost *)

(** The count of changes at the last invocation. *)
Definition told (n : Notifications) : nat := match last (invoked n) with Some (_, k) => k | None => 0 end.











End Channels.

(** ** Changes of the tempo *)

Module TempoChanges.

(** Where a dispatch is, from the moment it holds the dispatch lock: the callback
    is installed; the tempo is selected, with the callback's lock held; the call is
    decided on; it is under way; it is recorded. *)
Inductive Dispatching :=
| Installed (c : nat) (initial initial_requested : bool)
| Selected (c : nat) (initial initial_requested : bool) (bpm : f64)
| Ready (c : nat) (bpm : f64)
| Invoked (c : nat) (bpm : f64)
| Recorded (c : nat).

Definition dispatched (d : Dispatching) : nat :=
  match d with Installed c _ _ => c | Selected c _ _ _ => c | Ready c _ => c | Invoked c _ => c | Recorded c => c end.

(** [installed] is the callback the dispatcher calls, [registration] one that is
    to replace it, [delivered] what was last delivered and to which callback,
    [client_bpm] the tempo of the client state as it is.  [delivering] is the
    dispatch under way, which holds the dispatch lock. *)
Record TempoNotifications := MkTempo {
  installed : option nat;
  registration : option nat;
  delivered : option nat * f64;
  client_bpm : f64;
  closed : bool;
  delivering : option Dispatching;
  calls : list (nat * f64)
}.

(** Which of the locks [dispatch] finds free. *)
Record Locks := MkLocks { registration_free : bool; callback_free : bool; invoke_free : bool; client_free : bool }.
Definition all_free : Locks := MkLocks true true true true.

Definition with_delivering (d : option Dispatching) (t : TempoNotifications) : TempoNotifications :=
  MkTempo (installed t) (registration t) (delivered t) (client_bpm t) (closed t) d (calls t).

(** [dispatch], section by section.  First, under the locks of the registration
    and of the callback, the newest callback is installed. *)
Definition dispatch (initial_requested : bool) (l : Locks) (t : TempoNotifications) : TempoNotifications :=
  match delivering t with
  | Some _ => t
  | None =>
    if negb (registration_free l) || negb (callback_free l) then t
    else
      let initial := match registration t with Some _ => true | None => false end in
      let callback := match registration t with Some c => Some c | None => installed t end in
      MkTempo callback (registration t) (delivered t) (client_bpm t) (closed t)
        (let! c := callback in Some (Installed c initial initial_requested)) (calls t)
  end.

(** The callback's own lock is taken, then the tempo of the client is read. *)
Definition select_tempo (l : Locks) (t : TempoNotifications) : TempoNotifications :=
  match delivering t with
  | Some (Installed c initial requested) =>
      if negb (invoke_free l) || negb (client_free l) then with_delivering None t
      else with_delivering (Some (Selected c initial requested (client_bpm t))) t
  | _ => t
  end.

(** Is there anything to tell? *)
Definition decide_call (t : TempoNotifications) : TempoNotifications :=
  match delivering t with
  | Some (Selected c initial requested bpm) =>
      let same_callback := match fst (delivered t) with Some old => bool_decide (old = c) | None => true end in
      let initial := initial || (requested && match fst (delivered t) with None => true | Some _ => false end) in
      if (negb initial && same_callback && f64_eqb (snd (delivered t)) bpm) || closed t
      then with_delivering None t
      else with_delivering (Some (Ready c bpm)) t
  | _ => t
  end.

Definition invoke_callback (t : TempoNotifications) : TempoNotifications :=
  match delivering t with
  | Some (Ready c bpm) =>
      MkTempo (installed t) (registration t) (delivered t) (client_bpm t) (closed t) (Some (Invoked c bpm)) (calls t ++ [(c, bpm)])
  | _ => t
  end.

(** The call has returned. *)
Definition record_delivery (t : TempoNotifications) : TempoNotifications :=
  match delivering t with
  | Some (Invoked c bpm) =>
      MkTempo (installed t) (registration t) (Some c, bpm) (client_bpm t) (closed t) (Some (Recorded c)) (calls t)
  | _ => t
  end.

(** [free] is the lock of the registration. *)
Definition clear_registration (free : bool) (t : TempoNotifications) : TempoNotifications :=
  match delivering t with
  | Some (Recorded c) =>
      MkTempo (installed t) (if free && bool_decide (registration t = Some c) then None else registration t)
        (delivered t) (client_bpm t) (closed t) None (calls t)
  | _ => t
  end.

(** A dispatch under way carried to its end, with no other step in between. *)
Definition finish (l : Locks) (free : bool) (t : TempoNotifications) : TempoNotifications :=
  clear_registration free (record_delivery (invoke_callback (decide_call (select_tempo l t)))).

Definition set_registration (c : nat) (t : TempoNotifications) : TempoNotifications :=
  MkTempo (installed t) (Some c) (delivered t) (client_bpm t) (closed t) (delivering t) (calls t).

(** [register_tempo_callback], up to the sections of its dispatch. *)
Definition register_tempo_callback (l : Locks) (c : nat) (t : TempoNotifications) : TempoNotifications :=
  dispatch true l (set_registration c t).

(** One beat of the retrying task, which the controller starts every 10 ms. *)
Definition retry (l : Locks) (free : bool) (t : TempoNotifications) : TempoNotifications :=
  if closed t then t else finish l free (dispatch false l t).

(** The callback that was registered last. *)
Definition newest (t : TempoNotifications) : option nat :=
  match registration t with Some c => Some c | None => installed t end.

(** A dispatch under way is for the callback installed. *)
Definition dispatch_ok (t : TempoNotifications) : Prop :=
  forall d, delivering t = Some d -> installed t = Some (dispatched d).

Ltac tempo_open :=
  unfold finish, clear_registration, record_delivery, invoke_callback, decide_call, select_tempo, with_delivering; cbn.

(** One beat with nothing under way. *)
Lemma retry_catches_up t c :
  delivering t = None -> closed t = false -> newest t = Some c -> f64_eqb (client_bpm t) (client_bpm t) = true ->
  let t' := retry all_free true t in
  installed t' = Some c /\ registration t' = None /\ delivering t' = None /\ closed t' = false /\ client_bpm t' = client_bpm t /\
  f64_eqb (snd (delivered t')) (client_bpm t) = true /\
  (calls t' = calls t ++ [(c, client_bpm t)] \/ (calls t' = calls t /\ registration t = None)) /\
  calls (retry all_free true t') = calls t'.
Proof.
  intros D C I Nn t'.
  assert (forall t0, delivering t0 = None -> closed t0 = false -> registration t0 = None -> installed t0 = Some c ->
    (fst (delivered t0) = Some c \/ fst (delivered t0) = None) -> f64_eqb (snd (delivered t0)) (client_bpm t0) = true ->
    retry all_free true t0 = t0) as Still.
  { intros [i r d b k g cs] D0 C0 R0 I0 F0 E0. cbn in *. subst. unfold retry, dispatch. cbn. tempo_open. rewrite E0.
    destruct F0 as [-> | ->]; [rewrite bool_decide_true by reflexivity|]; reflexivity. }
  assert (registration t = None /\ installed t = Some c /\ (fst (delivered t) = Some c \/ fst (delivered t) = None) /\
          f64_eqb (snd (delivered t)) (client_bpm t) = true \/
          retry all_free true t = MkTempo (Some c) None (Some c, client_bpm t) (client_bpm t) false None (calls t ++ [(c, client_bpm t)]))
    as [(R & I' & F & E)|E].
  { destruct t as [i r d b k g cs]. unfold newest in I. cbn in *. subst. unfold retry, dispatch. cbn. destruct r as [r|]; cbn in *.
    - injection I as ->. right. tempo_open. now rewrite bool_decide_true by reflexivity.
    - subst i. tempo_open. destruct (fst d) as [old|] eqn:F; [case_bool_decide as O|]; cbn.
      + destruct (f64_eqb (snd d) b) eqn:E; cbn; [left; subst; auto|right; reflexivity].
      + right. reflexivity.
      + destruct (f64_eqb (snd d) b) eqn:E; cbn; [left; auto|right; reflexivity]. }
  - unfold t'. rewrite (Still t D C R I' F E). rewrite (Still t D C R I' F E). repeat split; auto.
  - unfold t'. rewrite E. repeat split; auto. now rewrite Still by (cbn; auto).
Qed.

(** A section of a dispatch that makes at most [k] calls. *)
Definition section (k : nat) (t t' : TempoNotifications) : Prop :=
  dispatch_ok t' /\ newest t' = newest t /\ closed t' = closed t /\ client_bpm t' = client_bpm t /\
  exists told, calls t' = calls t ++ told /\ (length told <= k)%nat.

Lemma section_trans k k' t t1 t2 : section k t t1 -> section k' t1 t2 -> section (k + k') t t2.
Proof.
  intros (_ & N1 & C1 & B1 & l1 & E1 & L1) (O & N2 & C2 & B2 & l2 & E2 & L2). split; [exact O|]. repeat split; try congruence.
  exists (l1 ++ l2). rewrite E2, E1, app_assoc, length_app. split; [reflexivity|lia].
Qed.

Lemma section_same t t' :
  dispatch_ok t' -> newest t' = newest t -> closed t' = closed t -> client_bpm t' = client_bpm t -> calls t' = calls t -> section 0 t t'.
Proof. intros O N C B E. split; [exact O|]. repeat split; auto. exists []. rewrite app_nil_r. split; [exact E|reflexivity]. Qed.

Lemma dispatch_ok_with d t : dispatch_ok t -> (forall x, d = Some x -> installed t = Some (dispatched x)) -> dispatch_ok (with_delivering d t).
Proof. intros _ H x. apply H. Qed.

Lemma select_section l t : dispatch_ok t -> section 0 t (select_tempo l t).
Proof.
  intros Ok. unfold select_tempo. destruct (delivering t) as [[c x y|c x y z|c z|c z|c]|] eqn:D; try (now apply section_same).
  destruct (_ || _); apply section_same; try reflexivity; apply dispatch_ok_with; auto; [discriminate|].
  intros d [= <-]. exact (Ok _ D).
Qed.

Lemma decide_section t : dispatch_ok t -> section 0 t (decide_call t).
Proof.
  intros Ok. unfold decide_call. destruct (delivering t) as [[c x y|c x y z|c z|c z|c]|] eqn:D; try (now apply section_same).
  cbv zeta. match goal with |- context [if ?b then _ else _] => destruct b end; apply section_same; try reflexivity;
    apply dispatch_ok_with; auto; [discriminate|].
  intros d [= <-]. exact (Ok _ D).
Qed.

Lemma invoke_section t : dispatch_ok t -> section 1 t (invoke_callback t).
Proof.
  intros Ok. assert (section 1 t t) as Id by (exact (section_trans 0 1 t t t (section_same t t Ok eq_refl eq_refl eq_refl eq_refl)
    (conj Ok (conj eq_refl (conj eq_refl (conj eq_refl (ex_intro _ [] (conj (eq_sym (app_nil_r _)) (Nat.le_0_l 1))))))))).
  unfold invoke_callback. destruct (delivering t) as [[c x y|c x y z|c z|c z|c]|] eqn:D; try exact Id.
  split; [intros d [= <-]; exact (Ok _ D)|]. repeat split. eexists. split; [reflexivity|reflexivity].
Qed.

Lemma record_section t : dispatch_ok t -> section 0 t (record_delivery t).
Proof.
  intros Ok. unfold record_delivery. destruct (delivering t) as [[c x y|c x y z|c z|c z|c]|] eqn:D; try (now apply section_same).
  apply section_same; try reflexivity. intros d [= <-]. exact (Ok _ D).
Qed.

Lemma clear_section free t : dispatch_ok t -> section 0 t (clear_registration free t).
Proof.
  intros Ok. unfold clear_registration. destruct (delivering t) as [[c x y|c x y z|c z|c z|c]|] eqn:D; try (now apply section_same).
  apply section_same; try reflexivity; [discriminate|]. unfold newest. cbn. destruct free; [|reflexivity].
  case_bool_decide as R; [|reflexivity]. rewrite R. exact (Ok _ D).
Qed.

Lemma dispatch_section b l t : dispatch_ok t -> section 0 t (dispatch b l t).
Proof.
  intros Ok. unfold dispatch. destruct (delivering t) eqn:D; [now apply section_same|].
  destruct (_ || _); [now apply section_same|]. cbv zeta. unfold newest.
  apply section_same; unfold dispatch_ok, newest; cbn; auto; destruct (registration t); cbn; auto.
  - now intros d [= <-].
  - intros d. destruct (installed t); cbn; [now intros [= <-]|discriminate].
Qed.

Lemma finish_idle l free t : delivering t = None -> finish l free t = t.
Proof. intros D. unfold finish, select_tempo. rewrite D. unfold decide_call. rewrite D. unfold invoke_callback. rewrite D.
  unfold record_delivery. rewrite D. unfold clear_registration. now rewrite D. Qed.

Lemma finish_done l free t : delivering (finish l free t) = None.
Proof.
  unfold finish. set (t1 := select_tempo l t).
  assert (forall x y z, delivering t1 <> Some (Installed x y z)) as N.
  { intros x y z. unfold t1, select_tempo. destruct (delivering t) as [[]|] eqn:D; try congruence. now destruct (_ || _). }
  clearbody t1. set (t2 := decide_call t1).
  assert (match delivering t2 with Some (Installed _ _ _) | Some (Selected _ _ _ _) => False | _ => True end) as N2.
  { unfold t2, decide_call. destruct (delivering t1) as [[c x y|c x y z|c z|c z|c]|] eqn:D; try (now rewrite D); [now destruct (N c x y)|].
    cbv zeta. match goal with |- context [if ?b then _ else _] => now destruct b end. }
  clearbody t2. unfold invoke_callback. destruct (delivering t2) as [[]|] eqn:D; try contradiction;
    unfold record_delivery; cbn; rewrite ?D; cbn; unfold clear_registration; cbn; rewrite ?D; reflexivity.
Qed.

(** A dispatch under way ends, with at most one call. *)
Lemma finish_ends l free t :
  dispatch_ok t ->
  delivering (finish l free t) = None /\ newest (finish l free t) = newest t /\
  closed (finish l free t) = closed t /\ client_bpm (finish l free t) = client_bpm t /\
  exists told, calls (finish l free t) = calls t ++ told /\ (length told <= if delivering t then 1 else 0)%nat.
Proof.
  intros Ok. split; [apply finish_done|]. destruct (delivering t) eqn:D.
  - assert (section 1 t (finish l free t)) as (_ & S); [|exact S]. unfold finish.
    pose proof (select_section l t Ok) as S1. pose proof (decide_section _ (proj1 S1)) as S2.
    pose proof (invoke_section _ (proj1 S2)) as S3. pose proof (record_section _ (proj1 S3)) as S4.
    pose proof (clear_section free _ (proj1 S4)) as S5.
    exact (section_trans 1 0 _ _ _ (section_trans 1 0 _ _ _ (section_trans 0 1 _ _ _ (section_trans 0 0 _ _ _ S1 S2) S3) S4) S5).
  - rewrite finish_idle by exact D. repeat split. exists []. now rewrite app_nil_r.
Qed.

(** The tempo callback catches up: after any history of contended dispatches,
    registrations and tempo changes, once the dispatch under way has ended, if there
    is one, one beat of the retrying task that finds its locks free leaves the newest
    registered callback installed, nothing waiting to be registered, and the current
    tempo as the last one delivered; it calls the callback at most once more, and not
    again while there is nothing new. *)
Theorem tempo_catches_up t c :
  dispatch_ok t -> closed t = false -> newest t = Some c -> f64_eqb (client_bpm t) (client_bpm t) = true ->
  let t' := retry all_free true (finish all_free true t) in
  installed t' = Some c /\ registration t' = None /\ delivering t' = None /\
  f64_eqb (snd (delivered t')) (client_bpm t) = true /\
  (exists told, calls t' = calls t ++ told /\ (length told <= if delivering t then 2 else 1)%nat) /\
  calls (retry all_free true t') = calls t'.
Proof.
  intros Ok C I N t'. destruct (finish_ends all_free true t Ok) as (F1 & F2 & F3 & F4 & told & F5 & F6).
  assert (newest (finish all_free true t) = Some c) as I1 by congruence.
  destruct (retry_catches_up (finish all_free true t) c F1 ltac:(congruence) I1 ltac:(now rewrite F4))
    as (A1 & A2 & A3 & _ & _ & A6 & A7 & A8).
  fold t' in A1, A2, A3, A6, A7, A8. rewrite F4 in A6, A7. repeat split; auto.
  destruct A7 as [A7|[A7 _]]; rewrite A7, F5.
  - exists (told ++ [(c, client_bpm t)]). rewrite app_assoc. split; [reflexivity|]. rewrite length_app. cbn. destruct (delivering t); lia.
  - exists told. split; [reflexivity|]. destruct (delivering t); lia.
Qed.

End TempoChanges.
