(* ===== verification/TempoFlow.v ===== *)
(** How a change of the tempo reaches the application: the tasks of
    src/src/link/controller.rs that run the commits of Controller.v and give
    notice of the tempo, [refresh_current_session_timing],
    [apply_received_start_stop], [join_session] and [reset_state_if_peerless],
    with the delivery of Notifications.v behind them.

    A commit is one section; the notice its task gives is a later step, before
    which others commit.  The callback that the tasks notify looks at the state
    of the client itself, whatever tempo it is told; the sections of the dispatch
    it runs are steps of their own, between which others commit, register
    callbacks and give notice. *)

From stdpp Require Import base list numbers relations.
From Stdlib Require Import ZArith Lia SpecFloat.
From S2P Require Import Prelude Chrono F64 Encoding Beats Tempo Timeline GhostXForm Entries Payload Sessions Peers TimelineSync SessionApi Controller Notifications.

Import TempoChanges.

Section TempoFlow.
Context `{Ch : Chrono, FD : FloatDecode}.

(** [notices] are the tempos that tasks are about to give notice of. *)
Record Flow := MkFlow { commit : SessionCommit; notes : TempoNotifications; notices : list Tempo }.

Definition with_notes (t : TempoNotifications) (f : Flow) : Flow := MkFlow (commit f) t (notices f).
Definition committed (changed : option Tempo) (s : SessionCommit) (f : Flow) : Flow :=
  MkFlow s (notes f) (notices f ++ match changed with Some t => [t] | None => [] end).

(** What the dispatcher finds in the state of the client. *)
Definition client_tempo (s : SessionCommit) : f64 := bpm (tempo (client_timeline (c_client s))).
Definition session_tempo (s : SessionCommit) : f64 := bpm (tempo (session_timeline (c_session s))).
Definition seen (f : Flow) : TempoNotifications :=
  MkTempo (installed (notes f)) (registration (notes f)) (delivered (notes f)) (client_tempo (commit f)) (closed (notes f))
    (delivering (notes f)) (calls (notes f)).

(** ** Tasks *)

Definition refresh_current_session_timing (now : Duration) (f : Flow) : result unit CommitError * Flow :=
  match refresh_timing (commit f) now with
  | (Ok changed, s) => (Ok tt, committed changed s f)
  | (Err e, s) => (Err e, committed None s f)
  end.

(** One turn of its loop; [true] when it is the last. *)
Definition apply_received_start_stop (source : SessionId) (advertised : Timeline) (incoming : StartStopState)
    (now now' : Duration) (f : Flow) : bool * Flow :=
  match received_start_stop (commit f) source advertised incoming now now' with
  | (WaitingForPublication, s) => (false, committed None s f)
  | (CommitComplete changed, s) => (true, committed changed s f)
  | (Rejected _, s) => (true, committed None s f)
  end.

(** What a task does with the outcome of its commit. *)
Definition settle (r : result (option Tempo) CommitError * SessionCommit) (f : Flow) : Flow :=
  match r with
  | (Ok changed, s) => committed changed s f
  | (Err _, s) => committed None s f
  end.

Definition join_session (session : Session) (now now' : Duration) (random_id : NodeId) (f : Flow) : Flow :=
  settle (join (commit f) session now now' random_id) f.
Definition reset_state_if_peerless (expected : option SessionId) (now now' : Duration) (random_id : NodeId) (f : Flow) : Flow :=
  settle (reset_if_peerless (commit f) expected now now' random_id) f.
Definition reset_state (now now' : Duration) (random_id : NodeId) (f : Flow) : Flow :=
  reset_state_if_peerless None now now' random_id f.

(** An edit of the application, and the notice that follows it. *)
Definition commit_client_state (incoming : IncomingClientState) (now : Duration) (origin : option SessionEditOrigin) (f : Flow)
  : option (result unit CommitError) * Flow :=
  match client_edit_from_origin (commit f) incoming now origin with
  | (WaitingForPublication, s) => (None, committed None s f)
  | (CommitComplete changed, s) => (Some (Ok tt), committed changed s f)
  | (Rejected e, s) => (Some (Err e), committed None s f)
  end.

(** [dispatch_current_tempo] with the callback the controller gives its tasks, up
    to the sections of the dispatch; [free] says that the state of the session is
    free. *)
Definition give_notice (t : Tempo) (free : bool) (l : Locks) (f : Flow) : TempoNotifications :=
  match dispatch_current_tempo (c_session (commit f)) free t with
  | Some _ => dispatch true l (seen f)
  | None => notes f
  end.

(** ** States that belong to no controller *)

Definition update_session_timing (session_free client_free sync_free : bool) (session : SessionState) (client : ClientState)
    (new_timeline : Timeline) (new_x_form : GhostXForm) (now : Duration) (sync_enabled : bool) (id : SessionId)
  : result (option Tempo) CommitError * SessionState * ClientState :=
  if session_free && client_free && sync_free
  then update_timing_guarded session client new_timeline new_x_form now sync_enabled id
  else (Ok None, session, client).

Definition reset_session_start_stop_state (free : bool) (s : SessionState) : SessionState :=
  if free then MkSessionState (session_timeline s) StartStopState_default (ghost_x_form s) else s.

(** ** Steps *)

Inductive flow_step : Flow -> Flow -> Prop :=
| FlRefresh f now : flow_step f (refresh_current_session_timing now f).2
| FlStartStop f source tl ss now now' : flow_step f (apply_received_start_stop source tl ss now now' f).2
| FlJoin f session now now' id : flow_step f (join_session session now now' id f)
| FlReset f expected now now' id : flow_step f (reset_state_if_peerless expected now now' id f)
| FlEdit f incoming now origin : flow_step f (commit_client_state incoming now origin f).2
| FlOther f s : commit_step (commit f) s -> flow_step f (committed None s f)
| FlNotice f l1 t l2 free l : notices f = l1 ++ t :: l2 ->
    flow_step f (MkFlow (commit f) (give_notice t free l f) (l1 ++ l2))
| FlRegister f c : flow_step f (with_notes (set_registration c (seen f)) f)
| FlDispatch f requested l : flow_step f (with_notes (dispatch requested l (seen f)) f)
| FlSelect f l : flow_step f (with_notes (select_tempo l (seen f)) f)
| FlDecide f : flow_step f (with_notes (decide_call (seen f)) f)
| FlInvoke f : flow_step f (with_notes (invoke_callback (seen f)) f)
| FlRecord f : flow_step f (with_notes (record_delivery (seen f)) f)
| FlClear f free : flow_step f (with_notes (clear_registration free (seen f)) f)
| FlClose f : flow_step f (with_notes (MkTempo (installed (notes f)) (registration (notes f)) (delivered (notes f))
    (client_bpm (notes f)) true (delivering (notes f)) (calls (notes f))) f).

(** The controller as it is created. *)
Definition Flow_new (s : SessionCommit) : Flow :=
  MkFlow s (MkTempo None None (None, session_tempo s) (session_tempo s) false None []) [].

End TempoFlow.

(** ** The client follows the session's tempo *)

Section TempoFlowProperties.
Context `{Laws : ChronoLaws, FL : FloatDecodeLaws}.

Definition same_tempo (s : SessionCommit) : Prop :=
  tempo (client_timeline (c_client s)) = tempo (session_timeline (c_session s)).

(** A clamped tempo equals only itself. *)
Lemma Tempo_eqb_clamped a t : clamped a -> Tempo_eqb t (tempo a) = true -> t = tempo a.
Proof.
  intros C E. destruct t as [x], a as [[y] o w]. unfold Tempo_eqb in E. cbn in *. apply f64_eqb_eq in E as [-> | (s & r & -> & ->)]; [reflexivity|].
  discriminate C.
Qed.

Lemma update_client_tempo cur session at_time x tl :
  update_client_timeline_from_session cur session at_time x = Ok tl -> tempo tl = tempo session.
Proof.
  unfold update_client_timeline_from_session. destruct (checked_ghost_nanos_to_host _ _); cbn [ok_or]; [|discriminate].
  destruct (checked_i128 _); cbn [ok_or]; [|discriminate]. destruct (checked_i64 _); cbn [ok_or]; [|discriminate].
  destruct (negb _); [discriminate|]. now intros [= <-].
Qed.

Lemma update_timing_tempo st cl tl x now sync id ch st' cl' :
  update_timing_guarded st cl tl x now sync id = (Ok ch, st', cl') ->
  tempo (client_timeline cl) = tempo (session_timeline st) \/ tempo (client_timeline cl) = tempo (clamp_tempo tl) ->
  tempo (client_timeline cl') = tempo (session_timeline st').
Proof.
  intros U Hc. pose proof (update_timing_ok _ _ _ _ _ _ _ _ _ _ U) as (T & _). rewrite T. revert U.
  unfold update_timing_guarded. destruct (num_microseconds _); [|discriminate]. destruct (negb _ || negb _) eqn:N.
  - destruct (update_client_timeline_from_session _ _ _ _) as [ctl|] eqn:C; [|discriminate]. intros [= _ _ <-]. cbn.
    exact (update_client_tempo _ _ _ _ _ C).
  - intros [= _ E <-]. cbn. destruct Hc as [Hc|Hc]; [|exact Hc]. now rewrite Hc, E, T.
Qed.

(** A session adopts an edit at the tempo the client gave it. *)
Lemma update_session_same_tempo cur client at_time x tl :
  clamped cur -> update_session_timeline_from_client cur client at_time x = Ok tl -> tempo client = tempo tl.
Proof.
  unfold update_session_timeline_from_client. intros C. destruct (_ && _) eqn:G.
  - intros [= <-]. apply andb_true_iff in G as [_ G]. now apply Tempo_eqb_clamped.
  - destruct (checked_i64 _); cbn [ok_or]; [|discriminate]. destruct (checked_i128 _); cbn [ok_or]; [|discriminate].
    destruct (negb _); [discriminate|]. now intros [= <-].
Qed.

Lemma same_tempo_edit s incoming now origin : coherent s -> same_tempo s -> same_tempo (client_edit_from_origin s incoming now origin).2.
Proof.
  intros Co Sm. unfold client_edit_from_origin. destruct (match origin with Some _ => _ | None => _ end); [exact Sm|].
  destruct (edit_must_wait s incoming); [exact Sm|].
  destruct (edit_target s incoming) as [target|e] eqn:E1; [|exact Sm]. destruct (edit_start_stop s incoming target) as [mapped|e] eqn:E2; [|exact Sm].
  destruct (edit_prepared s incoming target now) as [prepared|e] eqn:E3; [|exact Sm]. cbv beta iota.
  rewrite install_edit_eq. change (same_tempo (edit_installed s incoming prepared mapped)).
  destruct (edit_begun_fields s incoming) as (_ & _ & _ & F4 & F5 & _).
  assert (same_tempo (match prepared with Some (target, st, cl, _) => install_timeline (edit_begun s incoming) target st cl | None => edit_begun s incoming end)) as H1.
  { destruct prepared as [[[[tl st] cl] ch]|]; [|unfold same_tempo; now rewrite F4, F5].
    revert E1 E3. unfold edit_target, edit_prepared. destruct (in_timeline incoming) as [edited|] eqn:Et; [|intros [= <-]; discriminate].
    destruct (update_session_timeline_from_client _ _ _ _) as [tl'|] eqn:U; [|discriminate]. intros [= <-].
    destruct (update_timing_guarded _ _ _ _ _ _ _) as [[[ch'|] st'] cl'] eqn:G; [|discriminate]. intros [= <- <- <- <-].
    unfold install_timeline. destruct (set_timeline _ _ _). unfold same_tempo. cbn.
    eapply update_timing_tempo; [exact G|]. right.
    change (tempo (clamp_tempo edited) = tempo (clamp_tempo tl')). destruct Co as [_ (_ & C & _)]. rewrite (edit_target_clamped s incoming tl' C) by (unfold edit_target; rewrite Et, U; reflexivity).
    exact (update_session_same_tempo _ _ _ _ _ C U). }
  unfold edit_installed. destruct (in_start_stop incoming); [|exact H1]. unfold install_start_stop. destruct mapped; exact H1.
Qed.

Lemma same_tempo_invalidate s : same_tempo s -> same_tempo (invalidate_client_captures s).
Proof. destruct (invalidate_captures_fields s) as (_ & _ & _ & F4 & F5 & _). unfold same_tempo. now rewrite F4, F5. Qed.

Lemma same_tempo_reset s now now' id : same_tempo s -> same_tempo (reset s now now' id).2.
Proof.
  intros Sm. unfold reset. set (node := if bool_decide _ then _ else _).
  destruct (update_timing_guarded _ _ _ _ _ _ _) as [[[ch|e] st] cl] eqn:U; [|exact Sm].
  unfold Session_new. destruct (Arc_new _) as [i sup1]. destruct (new_edit_revision sup1) as [r sup2].
  apply update_timing_tempo in U; [exact U|]. left. exact Sm.
Qed.

Lemma same_tempo_refresh s now : same_tempo s -> same_tempo (refresh_timing s now).2.
Proof.
  intros Sm. unfold refresh_timing. destruct (_ || _); [exact Sm|].
  destruct (update_timing_guarded _ _ _ _ _ _ _) as [[[ch|e] st] cl] eqn:U.
  - apply update_timing_tempo in U; [|now left]. change (same_tempo (with_states s st cl)) in U. cbn [snd].
    destruct (negb _); [now apply (same_tempo_invalidate (with_states s st cl))|exact U].
  - apply update_timing_err in U as [-> ->]. rewrite with_states_same. exact Sm.
Qed.

Lemma same_tempo_join s queued now now' id : same_tempo s -> same_tempo (join s queued now now' id).2.
Proof.
  intros Sm. unfold join. destruct (negb (SessionKey_matches _ _)); [exact Sm|].
  destruct (negb _ && _); [now apply same_tempo_reset|]. cbv zeta.
  destruct (update_timing_guarded _ _ _ _ _ _ _) as [[[ch|e] st] cl] eqn:U; [|exact Sm].
  apply update_timing_tempo in U; [|left; destruct (negb _); exact Sm]. cbn [snd].
  match goal with |- context [if ?b then _ else _] => destruct b end; [|exact U]. now apply same_tempo_invalidate.
Qed.

Lemma same_tempo_start_stop s source tl ss now now' :
  same_tempo s -> same_tempo (received_start_stop s source tl ss now now').2.
Proof.
  intros Sm. unfold received_start_stop. destruct (negb _); [exact Sm|]. destruct (_ || _); [exact Sm|]. destruct (_ || _); [exact Sm|].
  destruct (Duration_leb _ _); [exact Sm|].
  destruct (update_timing_guarded _ _ _ _ _ _ _) as [[[ch|e] st] cl] eqn:U; [|exact Sm].
  apply update_timing_tempo in U; [|now left]. cbn [snd]. unfold same_tempo. cbn.
  destruct (invalidate_captures_fields s) as (_ & _ & _ & _ & _ & _). destruct (c_sync_enabled s); exact U.
Qed.

Lemma same_tempo_step s s' : commit_step s s' -> coherent s -> same_tempo s -> same_tempo s'.
Proof.
  intros St Co Sm. destruct St; auto using same_tempo_edit, same_tempo_start_stop, same_tempo_refresh, same_tempo_join.
  unfold reset_if_peerless. destruct expected; [destruct (_ || _); [exact Sm|]|]; now apply same_tempo_reset.
Qed.

(** ** The tempo reaches the application *)

(** Every step of a flow is a step of the controller, or none. *)
Lemma flow_commit f f' : flow_step f f' -> commit f' = commit f \/ commit_step (commit f) (commit f').
Proof.
  intros St. destruct St; auto; right.
  - pose proof (StepRefresh (commit f) now) as X. unfold refresh_current_session_timing. now destruct (refresh_timing _ _) as [[]].
  - pose proof (StepStartStop (commit f) source tl ss now now') as X. unfold apply_received_start_stop.
    now destruct (received_start_stop _ _ _ _ _ _) as [[]].
  - pose proof (StepJoin (commit f) session now now' id) as X. unfold join_session, settle. now destruct (join _ _ _ _ _) as [[]].
  - pose proof (StepReset (commit f) expected now now' id) as X. unfold reset_state_if_peerless, settle.
    now destruct (reset_if_peerless _ _ _ _ _) as [[]].
  - pose proof (StepEdit (commit f) incoming now origin) as X. unfold commit_client_state.
    now destruct (client_edit_from_origin _ _ _ _) as [[]].
Qed.

Definition flow_ok (f : Flow) : Prop := coherent (commit f) /\ same_tempo (commit f) /\ dispatch_ok (notes f).

Lemma flow_dispatch f f' : flow_step f f' -> dispatch_ok (notes f) -> dispatch_ok (notes f').
Proof.
  intros St Ok. assert (dispatch_ok (seen f)) as Os by exact Ok. destruct St; try exact Ok; cbn [notes with_notes].
  - unfold refresh_current_session_timing. now destruct (refresh_timing _ _) as [[]].
  - unfold apply_received_start_stop. now destruct (received_start_stop _ _ _ _ _ _) as [[]].
  - unfold join_session, settle. now destruct (join _ _ _ _ _) as [[]].
  - unfold reset_state_if_peerless, settle. now destruct (reset_if_peerless _ _ _ _ _) as [[]].
  - unfold commit_client_state. now destruct (client_edit_from_origin _ _ _ _) as [[]].
  - unfold give_notice. destruct (dispatch_current_tempo _ _ _); [exact (proj1 (dispatch_section true l (seen f) Os))|exact Ok].
  - exact (proj1 (dispatch_section requested l (seen f) Os)).
  - exact (proj1 (select_section l (seen f) Os)).
  - exact (proj1 (decide_section (seen f) Os)).
  - exact (proj1 (invoke_section (seen f) Os)).
  - exact (proj1 (record_section (seen f) Os)).
  - exact (proj1 (clear_section free (seen f) Os)).
Qed.

Lemma flow_step_ok f f' : flow_step f f' -> flow_ok f -> flow_ok f'.
Proof.
  intros St (Co & Sm & D). apply (flow_dispatch _ _ St) in D. unfold flow_ok. destruct (flow_commit _ _ St) as [-> |C]; [auto|].
  split; [now apply (commit_step_coherent (commit f))|]. split; [now apply (same_tempo_step (commit f))|exact D].
Qed.

Lemma flow_steps_ok f f' : rtc flow_step f f' -> flow_ok f -> flow_ok f'.
Proof. induction 1; eauto using flow_step_ok. Qed.

Lemma Flow_new_ok tempo now now' rid sup : flow_ok (Flow_new (Controller_new tempo now now' rid sup)).
Proof.
  split; [apply Controller_new_coherent|]. split; [|discriminate]. unfold same_tempo, Flow_new, Controller_new. cbn [commit].
  destruct (Session_new _ _ _ _) as [first sup']. reflexivity.
Qed.

(** The session's tempo is the client's, and a number. *)
Lemma flow_tempo f : flow_ok f -> client_tempo (commit f) = session_tempo (commit f) /\
  f64_eqb (session_tempo (commit f)) (session_tempo (commit f)) = true.
Proof.
  intros [[Sn (P & _)] (Sm & _)]. split; [unfold client_tempo, session_tempo; now rewrite Sm|].
  unfold session_tempo. pose proof (snap_published_timeline _ Sn) as T. rewrite <- T.
  pose proof (Timeline_eqb_refl _ P) as R. unfold Timeline_eqb in R. apply andb_prop in R as [R _]. now apply andb_prop in R as [R _].
Qed.

(** The callback a dispatch under way is for and the tempo it has selected. *)
Definition selection (t : TempoNotifications) : option (nat * f64) :=
  match delivering t with
  | Some (Selected d _ _ x) | Some (Ready d x) | Some (Invoked d x) => Some (d, x)
  | _ => None
  end.

(** A call carries the tempo selected. *)
Definition calls_selected (t t' : TempoNotifications) : Prop :=
  calls t' = calls t \/ exists d x, delivering t = Some (Ready d x) /\ delivering t' = Some (Invoked d x) /\ calls t' = calls t ++ [(d, x)].

(** A selection stays, ends, or is made, of the tempo [now]. *)
Definition selects (now : f64) (t t' : TempoNotifications) : Prop :=
  selection t' = selection t \/ selection t' = None \/ exists d, selection t = None /\ selection t' = Some (d, now).

(** The sections between them select and call as they should. *)
Lemma section_calls requested l free t :
  (calls_selected t (dispatch requested l t) /\ selects (client_bpm t) t (dispatch requested l t)) /\
  (calls_selected t (select_tempo l t) /\ selects (client_bpm t) t (select_tempo l t)) /\
  (calls_selected t (decide_call t) /\ selects (client_bpm t) t (decide_call t)) /\
  (calls_selected t (invoke_callback t) /\ selects (client_bpm t) t (invoke_callback t)) /\
  (calls_selected t (record_delivery t) /\ selects (client_bpm t) t (record_delivery t)) /\
  (calls_selected t (clear_registration free t) /\ selects (client_bpm t) t (clear_registration free t)).
Proof.
  assert (calls_selected t t) as Id by now left. assert (selects (client_bpm t) t t) as Id' by now left.
  repeat split; try (unfold dispatch, select_tempo, decide_call, invoke_callback, record_delivery, clear_registration;
    destruct (delivering t) as [[d x y|d x y z|d z|d z|d]|] eqn:D; try exact Id; try exact Id').
  - unfold calls_selected. destruct (_ || _); cbn; auto.
  - unfold selects, selection. rewrite D. destruct (_ || _); [now left; rewrite D|]. cbn.
    destruct (match registration t with Some c => Some c | None => installed t end); cbn; auto.
  - unfold calls_selected. destruct (_ || _); cbn; auto.
  - unfold selects, selection. rewrite D. destruct (_ || _); cbn; eauto.
  - cbv zeta. match goal with |- context [if ?b then _ else _] => destruct b end; now left.
  - cbv zeta. unfold selects, selection. rewrite D. match goal with |- context [if ?b then _ else _] => destruct b end; cbn; auto.
  - right. exists d, z. now repeat split.
  - unfold selects, selection. rewrite D. now left.
  - now left.
  - unfold selects, selection. rewrite D. cbn. auto.
  - now left.
  - unfold selects, selection. rewrite D. cbn. auto.
Qed.

Lemma flow_calls f f' :
  flow_ok f -> flow_step f f' -> calls_selected (notes f) (notes f') /\ selects (session_tempo (commit f)) (notes f) (notes f').
Proof.
  intros Ok St. assert (client_bpm (seen f) = session_tempo (commit f)) as E by apply (flow_tempo f Ok). rewrite <- E.
  assert (calls_selected (notes f) (notes f) /\ selects (client_bpm (seen f)) (notes f) (notes f)) as Id by (split; now left).
  pose proof (fun r l free => section_calls r l free (seen f)) as S.
  destruct St as [f now|f source tl ss now now'|f session now now' id|f expected now now' id|f incoming now origin|f s|f l1 t l2 free l|f d|f requested l|f l|f|f|f|f free|f];
    try exact Id; cbn [notes with_notes].
  - unfold refresh_current_session_timing. now destruct (refresh_timing _ _) as [[]].
  - unfold apply_received_start_stop. now destruct (received_start_stop _ _ _ _ _ _) as [[]].
  - unfold join_session, settle. now destruct (join _ _ _ _ _) as [[]].
  - unfold reset_state_if_peerless, settle. now destruct (reset_if_peerless _ _ _ _ _) as [[]].
  - unfold commit_client_state. now destruct (client_edit_from_origin _ _ _ _) as [[]].
  - unfold give_notice. destruct (dispatch_current_tempo _ _ _); [apply (S true l true)|exact Id].
  - apply (S requested l true).
  - apply (S true l true).
  - apply (S true all_free true).
  - apply (S true all_free true).
  - apply (S true all_free true).
  - apply (S true all_free free).
Qed.

(** Once the callbacks are closed, no further call is decided. *)
Lemma flow_closed f f' d x :
  flow_step f f' -> closed (notes f) = true -> delivering (notes f') = Some (Ready d x) -> delivering (notes f) = Some (Ready d x).
Proof.
  intros St C.
  destruct St as [f now|f source tl ss now now'|f session now now' id|f expected now now' id|f incoming now origin|f s|f l1 t l2 free l|f e|f requested l|f l|f|f|f|f free|f];
    try exact id; cbn [notes with_notes].
  - unfold refresh_current_session_timing. now destruct (refresh_timing _ _) as [[]].
  - unfold apply_received_start_stop. now destruct (received_start_stop _ _ _ _ _ _) as [[]].
  - unfold join_session, settle. now destruct (join _ _ _ _ _) as [[]].
  - unfold reset_state_if_peerless, settle. now destruct (reset_if_peerless _ _ _ _ _) as [[]].
  - unfold commit_client_state. now destruct (client_edit_from_origin _ _ _ _) as [[]].
  - unfold give_notice. destruct (dispatch_current_tempo _ _ _); [|exact id]. unfold dispatch. cbn.
    destruct (delivering (notes f)) as [g|] eqn:D; cbn; [now rewrite D|]. destruct (_ || _); cbn; [now rewrite D|].
    destruct (match registration (notes f) with Some c => Some c | None => installed (notes f) end); discriminate.
  - unfold dispatch. cbn. destruct (delivering (notes f)) as [g|] eqn:D; cbn; [now rewrite D|].
    destruct (_ || _); cbn; [now rewrite D|].
    destruct (match registration (notes f) with Some c => Some c | None => installed (notes f) end); discriminate.
  - unfold select_tempo. cbn. destruct (delivering (notes f)) as [[]|] eqn:D; cbn; try (now rewrite D). now destruct (_ || _).
  - unfold decide_call. cbn. destruct (delivering (notes f)) as [[]|] eqn:D; cbn; try (now rewrite D). rewrite C, orb_true_r. discriminate.
  - unfold invoke_callback. cbn. destruct (delivering (notes f)) as [[]|] eqn:D; cbn; try (now rewrite D); discriminate.
  - unfold record_delivery. cbn. destruct (delivering (notes f)) as [[]|] eqn:D; cbn; try (now rewrite D); discriminate.
  - unfold clear_registration. cbn. destruct (delivering (notes f)) as [[]|] eqn:D; cbn; try (now rewrite D); discriminate.
Qed.

(** C33 The application hears of the session's tempo.  Whatever tasks, edits and
    other nodes do, between any two sections of a dispatch as well, and whichever
    locks a notice, a registration or a dispatch finds taken: the client's tempo
    is the session's; a callback is only called by the dispatch under way, with
    the tempo that it selected; that tempo is the one the session had in the step
    that selected it, and is not selected again before the call; once the
    controller has closed its callbacks, no further call is decided; and from every
    state reached, once the dispatch under way has ended, one beat of the retrying
    task that nothing disturbs leaves the newest callback installed, the session's
    tempo of that moment as the last one told, however many commits overtook the
    call before, with at most one call of its own and one of the dispatch that was
    under way, and is quiet until there is something new. *)
Theorem session_tempo_reaches_callback tempo now now' rid sup f c :
  rtc flow_step (Flow_new (Controller_new tempo now now' rid sup)) f ->
  client_tempo (commit f) = session_tempo (commit f) /\
  (forall f', flow_step f f' ->
     (calls (notes f') = calls (notes f) \/
      exists d x, delivering (notes f) = Some (Ready d x) /\ delivering (notes f') = Some (Invoked d x) /\
                  calls (notes f') = calls (notes f) ++ [(d, x)]) /\
     (selection (notes f') = selection (notes f) \/ selection (notes f') = None \/
      exists d, selection (notes f) = None /\ selection (notes f') = Some (d, session_tempo (commit f))) /\
     (closed (notes f) = true -> forall d x, delivering (notes f') = Some (Ready d x) -> delivering (notes f) = Some (Ready d x))) /\
  (closed (notes f) = false -> newest (notes f) = Some c ->
   let t := retry all_free true (finish all_free true (seen f)) in
   installed t = Some c /\ registration t = None /\ delivering t = None /\
   f64_eqb (snd (delivered t)) (session_tempo (commit f)) = true /\
   (exists told, calls t = calls (notes f) ++ told /\ (length told <= if delivering (notes f) then 2 else 1)%nat) /\
   calls (retry all_free true t) = calls t).
Proof.
  intros St. pose proof (flow_steps_ok _ _ St (Flow_new_ok tempo now now' rid sup)) as Ok.
  destruct (flow_tempo f Ok) as [E R]. split; [exact E|]. split.
  - intros f' S. destruct (flow_calls f f' Ok S) as [A B]. split; [exact A|]. split; [exact B|].
    intros C d x. exact (flow_closed f f' d x S C).
  - intros C I t. pose proof (tempo_catches_up (seen f) c (proj2 (proj2 Ok)) C I ltac:(cbn; rewrite E; exact R)) as X.
    cbn [client_bpm seen calls delivering] in X. rewrite E in X. exact X.
Qed.

End TempoFlowProperties.
