(* ===== verification/Messenger.v ===== *)
(** The discovery messenger: how src/src/discovery/messenger.rs admits a
    datagram, hands it to the delivery task, answers it, and announces the
    node's own state.

    A receive loop reads a datagram and observes it while it holds the
    interface map, the node's state, the revisions and the route hints: one
    step.  Its delivery task takes the events the loop queued and commits
    each under the same guards: another step.  The readings of the clock are
    arguments, except that the instant a datagram is received at is the
    messenger's clock. *)

From stdpp Require Import base list numbers strings gmap relations sorting.
From Stdlib Require Import ZArith Lia SpecFloat.
From S2P Require Import Prelude Chrono F64 Encoding Beats Tempo Timeline GhostXForm Entries Payload Messages Sessions Peers Gateway AudioQueue Collections NetworkScan Interfaces Routes.

#[local] Notation announced_at := Gateway.expires_at.

Section Messenger.
Context `{Ch : Chrono, FD : FloatDecode, HO : HashOrder}.

(** ** Reading a datagram *)

(** [Iterator::find_map]. *)
Definition find_map {A B} (f : A -> option B) (l : list A) : option B := head (omap f l).

Definition measurement_of (e : PayloadEntry) : option SocketAddrV4 :=
  match e with EMeasurementEndpointV4 me => me_endpoint me | _ => None end.
Definition audio_of (e : PayloadEntry) : option SocketAddrV4 :=
  match e with EAudioEndpointV4 ae => ae_endpoint ae | _ => None end.

Definition peer_state_event (now : Z) (header : MessageHeader) (buf : bytes) : option Announcement :=
  match parse_payload buf with
  | Some (Ok payload) =>
      Some (MkAnnouncement
              (MkPeerMessage (from_payload (header_ident header) payload) (ttl header)
                 (find_map measurement_of payload) (find_map audio_of payload))
              (Some (now + secs (ttl header))))
  | _ => None
  end.

(** ** The shared state *)

Definition DISCOVERY_HANDOFF_CAPACITY : nat := 64.

Record DiscoveryEvent := MkEvent {
  event : Announcement;
  ev_ingress : Registration;
  ev_received : Z;
  ev_revision : nat
}.

(** [handoffs] holds, for each receive loop, its queue; [taken] the event its
    delivery task works on; [tx_event] every announcement delivered to the
    gateway, with its revision, oldest first.  [rx_clock] is the last instant a
    datagram was received at. *)
Record MessengerState := MkMessenger {
  ifs : Interfaces;
  hints : MeasurementRouteMap;
  revs : Revisions;
  handoffs : gmap nat (list DiscoveryEvent);
  taken : gmap nat DiscoveryEvent;
  tx_event : list (nat * Announcement);
  rx_clock : Z
}.

(** What [ReceiveContext] says of the node itself. *)
Record Context := MkContext { own_state : PeerState; own_group : Z; enabled : bool }.

Definition with_routes (h : MeasurementRouteMap) (r : Revisions) (s : MessengerState) : MessengerState :=
  MkMessenger (ifs s) h r (handoffs s) (taken s) (tx_event s) (rx_clock s).
Definition with_queues (q : gmap nat (list DiscoveryEvent)) (t : gmap nat DiscoveryEvent) (s : MessengerState) : MessengerState :=
  MkMessenger (ifs s) (hints s) (revs s) q t (tx_event s) (rx_clock s).

(** [try_reserve] on the queue of a receive loop. *)
Definition try_reserve (loop : nat) (s : MessengerState) : bool :=
  match handoffs s !! loop with
  | Some q => (length q <? DISCOVERY_HANDOFF_CAPACITY)%nat
  | None => false
  end.

(** ** Admission *)

(** [queue_peer_state_guarded]: [now0] is read while the payload is parsed,
    [now1] and [now2] by the two checks of the deadline. *)
Definition queue_peer_state_guarded (epoch : option Z) (now0 now1 now2 : Z) (loop : nat) (header : MessageHeader)
    (buf : bytes) (ingress : Registration) (s : MessengerState) : MessengerState :=
  let received := rx_clock s in
  let expires := received + secs (ttl header) in
  match peer_state_event now0 header buf with
  | None => s
  | Some state =>
    let id := announcer state in
    let slot := try_reserve loop s in
    let '(r, revision) :=
      observe_locked id received (slot && ((msg_ttl (message state) =? 0) || (now1 <? expires))) (revs s) in
    let h :=
      if msg_ttl (message state) =? 0 then withdraw id received (hints s)
      else record_received_locked (ifs s) epoch now2 id (msg_measurement_endpoint (message state))
             (MkHint expires received ingress) true (hints s) in
    let s := with_routes h r s in
    match slot, revision with
    | true, Some revision =>
        let ev := MkEvent (MkAnnouncement (message state) (Some expires)) ingress received revision in
        with_queues (alter (fun q => q ++ [ev]) loop (handoffs s)) (taken s) s
    | _, _ => s
    end
  end.

Definition known_type (t : Z) : bool := (t =? ALIVE) || (t =? RESPONSE) || (t =? BYEBYE).

Definition observe_discovery_guarded (c : Context) (epoch : option Z) (now0 now1 now2 : Z) (loop : nat) (data : bytes)
    (ingress : option Registration) (s : MessengerState) : MessengerState :=
  match ingress with
  | None => s
  | Some entry =>
    if starts_with data PING_PROTOCOL_HEADER then s
    else match parse_message_header data with
    | Err _ => s
    | Ok (header, len) =>
      if negb (known_type (message_type header)) then s
      else if bool_decide (state_ident (own_state c) = header_ident header) && (group_id header =? own_group c) then s
      else if negb (message_type header =? BYEBYE) && negb (enabled c) then s
      else if message_type header =? BYEBYE
      then queue_peer_state_guarded epoch now0 now1 now2 loop
             (MkHeader (message_type header) 0 (group_id header) (header_ident header)) [] entry s
      else queue_peer_state_guarded epoch now0 now1 now2 loop header (drop len data) entry s
    end
  end.

(** ** Delivery *)

(** The task takes the next event of its queue. *)
Definition delivery_take (loop : nat) (s : MessengerState) : MessengerState :=
  match taken s !! loop, handoffs s !! loop with
  | None, Some (ev :: q) => with_queues (<[loop := q]> (handoffs s)) (<[loop := ev]> (taken s)) s
  | _, _ => s
  end.

(** It gives an event up: the gate closed, the ingress went, the announcement
    expired, a later one superseded it, or the commit found it stale.  The
    event's revision goes with it. *)
Definition delivery_abandon (loop : nat) (s : MessengerState) : MessengerState :=
  match taken s !! loop with
  | None => s
  | Some ev => with_queues (handoffs s) (delete loop (taken s)) (with_routes (hints s) (drop_revision (ev_revision ev) (revs s)) s)
  end.

Definition event_expires (ev : DiscoveryEvent) : Z := default 0 (announced_at (event ev)).

(** The commit, under the interface map, the revisions and the hints; [epoch]
    answers the check of the ingress, [epoch2] the snapshot of the hints. *)
Definition delivery_commit (epoch epoch2 : option Z) (now1 now2 : Z) (loop : nat) (s : MessengerState) : MessengerState :=
  match taken s !! loop with
  | None => s
  | Some ev =>
    let state := event ev in
    if negb (observation_current (ifs s) epoch (ev_ingress ev) (ev_revision ev) (revs s)) then delivery_abandon loop s
    else if (0 <? msg_ttl (message state)) && (event_expires ev <=? now1) then delivery_abandon loop s
    else
      let h :=
        if msg_ttl (message state) =? 0 then withdraw (announcer state) (ev_received ev) (hints s)
        else record_received_locked (ifs s) epoch2 now2 (announcer state) (msg_measurement_endpoint (message state))
               (MkHint (event_expires ev) (ev_received ev) (ev_ingress ev)) false (hints s) in
      MkMessenger (ifs s) h (revs s) (handoffs s) (delete loop (taken s)) (tx_event s ++ [(ev_revision ev, state)]) (rx_clock s)
  end.

(** The gateway, or the observer after it, is done with an announcement. *)
Definition consumed (rev : nat) (s : MessengerState) : MessengerState :=
  with_routes (hints s) (drop_revision rev (revs s)) s.

(** A receive loop starts, with its queue and its delivery task, or ends: the
    task is aborted and what it and the queue held is dropped. *)
Definition loop_starts (loop : nat) (s : MessengerState) : MessengerState :=
  with_queues (<[loop := []]> (handoffs s)) (delete loop (taken s)) s.

Definition loop_events (loop : nat) (s : MessengerState) : list DiscoveryEvent :=
  option_list (taken s !! loop) ++ default [] (handoffs s !! loop).

Definition loop_ends (loop : nat) (s : MessengerState) : MessengerState :=
  with_queues (delete loop (handoffs s)) (delete loop (taken s))
    (with_routes (hints s) (fold_left (fun r ev => drop_revision (ev_revision ev) r) (loop_events loop s) (revs s)) s).

Definition at_instant (now : Z) (s : MessengerState) : MessengerState :=
  MkMessenger (ifs s) (hints s) (revs s) (handoffs s) (taken s) (tx_event s) now.

(** [try_discard_queued_datagrams] forgets the routes; the sockets it drains
    hold what was not received yet. *)
Definition discard_queued (s : MessengerState) : MessengerState := with_routes ∅ (revs s) s.

Definition with_ifs (w : Interfaces) (s : MessengerState) : MessengerState :=
  MkMessenger w (hints s) (revs s) (handoffs s) (taken s) (tx_event s) (rx_clock s).

Inductive messenger_step : MessengerState -> MessengerState -> Prop :=
| ms_tick s now : rx_clock s <= now -> messenger_step s (at_instant now s)
| ms_observe s c epoch now0 now1 now2 loop data ingress :
    messenger_step s (observe_discovery_guarded c epoch now0 now1 now2 loop data ingress s)
| ms_take s loop : messenger_step s (delivery_take loop s)
| ms_abandon s loop : messenger_step s (delivery_abandon loop s)
| ms_commit s epoch epoch2 now1 now2 loop : messenger_step s (delivery_commit epoch epoch2 now1 now2 loop s)
| ms_consumed s rev x : (rev, x) ∈ tx_event s -> messenger_step s (consumed rev s)
| ms_starts s loop : handoffs s !! loop = None -> messenger_step s (loop_starts loop s)
| ms_ends s loop : messenger_step s (loop_ends loop s)
| ms_resolve s epoch now peer endpoint :
    messenger_step s (with_routes (fst (resolve_async (ifs s) epoch now peer endpoint (hints s))) (revs s) s)
| ms_prune s epoch now : messenger_step s (with_routes (sweep (ifs s) epoch now (hints s)) (revs s) s)
| ms_discard s : messenger_step s (discard_queued s)
| ms_interfaces s w : messenger_step s (with_ifs w s).

(** ** Replies *)

(** What a receive loop does about a datagram after observing it. *)
Inductive Reply :=
| NoReply
| DispatchPong (entry : Registration) (message : bytes) (from : SocketAddrV4)
| AnswerPing (entry : Registration) (message : bytes) (to : SocketAddrV4)
| AnswerAlive (entry : Registration) (to : SocketAddrV4).

(** The body of [receive_loop] after the observation: [receiver] is the
    interface socket the loop reads, [own] the node's own state and [is_enabled]
    the switch, when their locks were free, [src] the sender when it is an IPv4
    address, and [now], [id_free] and [form_free] what [pong_message] reads. *)
Definition receive_reply (responder : option PingResponder) (now : Duration) (id_free form_free : bool)
    (receiver : option nat) (own : option PeerState) (group : Z) (is_enabled : option bool)
    (data : bytes) (src : option SocketAddrV4) (ingress : option Registration) : Reply * option PingResponder :=
  match ingress with
  | None => (NoReply, responder)
  | Some entry =>
    if starts_with data PING_PROTOCOL_HEADER then
      match responder, src with
      | Some r, Some src =>
        if measurement_responder entry && bool_decide (receiver = Some (reg_id entry)) then
          if bool_decide (nth_error data PROTOCOL_HEADER_SIZE = Some PONG) then (DispatchPong entry data src, responder)
          else
            let '(message, r) := pong_message r now id_free form_free data in
            (match message with Some message => AnswerPing entry message src | None => NoReply end, Some r)
        else (NoReply, responder)
      | _, _ => (NoReply, responder)
      end
    else match parse_message_header data with
    | Err _ => (NoReply, responder)
    | Ok (header, _) =>
      if match own with Some own => bool_decide (header_ident header = state_ident own) && (group_id header =? group) | None => false end
      then (NoReply, responder)
      else match src with
      | Some src =>
          if (message_type header =? ALIVE) && default false is_enabled then (AnswerAlive entry src, responder)
          else (NoReply, responder)
      | None => (NoReply, responder)
      end
    end
  end.

(** ** Announcing *)

Definition advertise_endpoint_for (state : PeerState) (interface : option Ipv4Addr) (local_addr : option SocketAddrV4) : PeerState :=
  match measurement_endpoint state with
  | None => state
  | Some endpoint =>
    if negb (is_unspecified (ip endpoint)) then state
    else
      let local := match interface with
                   | Some i => Some i
                   | None => match local_addr with
                             | Some addr => if is_unspecified (ip addr) then None else Some (ip addr)
                             | None => None
                             end
                   end in
      MkPeerState (peer_node_state state) ((fun i => MkAddr i (port endpoint)) <$> local) (audio_endpoint state)
  end.

(** The state a message through [registration] announces; [local_addr] is the
    IPv4 address the sending socket is bound to. *)
Definition announced_state (state : PeerState) (registration : option Registration) (local_addr : option SocketAddrV4) : PeerState :=
  if match registration with Some entry => measurement_responder entry | None => false end
     && bool_decide (is_Some (measurement_endpoint state))
  then MkPeerState (peer_node_state state)
         (match local_addr with
          | Some endpoint => if is_unspecified (ip endpoint) then None else Some endpoint
          | None => None
          end) (audio_endpoint state)
  else advertise_endpoint_for state (if_addr ∘ identity <$> registration) local_addr.

(** [send_message_reporting]: [options] says whether the socket options could
    be set, [sent] how the send itself ends. *)
Inductive SendOutcome := Sent (message : bytes) | NotEncoded | SendFailure.

Definition send_message_reporting (w : Interfaces) (epoch : option Z) (options sent : bool) (from : NodeId)
    (t mt : Z) (payload : Payload) (g : Z) (registration : option Registration) : SendOutcome :=
  if negb options then SendFailure
  else match encode_message from t mt payload g with
  | Err _ => NotEncoded
  | Ok message =>
    match registration with
    | Some entry => match send_registered w epoch sent entry with Ok _ => Sent message | Err _ => SendFailure end
    | None => if sent then Sent message else SendFailure
    end
  end.

(** [send_peer_state_via]: [state] and [clock_free] are the two locks; the
    broadcast clock moves to [now] only when a datagram went out. *)
Definition send_peer_state_via (w : Interfaces) (epoch : option Z) (options sent : bool) (state : option PeerState)
    (t mt g : Z) (registration : option Registration) (local_addr : option SocketAddrV4) (clock_free : bool) (now last : Z)
  : option bytes * Z :=
  match state with
  | None => (None, last)
  | Some state =>
    match send_message_reporting w epoch options sent (state_ident state) t mt
            (payload_of_peer_state (announced_state state registration local_addr)) g registration with
    | Sent message => (Some message, if clock_free then now else last)
    | NotEncoded | SendFailure => (None, last)
    end
  end.

(** [send_byebye_to]; [socket_ok] says whether the socket could be set up. *)
Definition send_byebye (socket_ok : bool) (node : NodeId) : option bytes :=
  if negb socket_ok then None
  else match encode_message node 0 BYEBYE Payload_default 0 with Ok m => Some m | Err _ => None end.

(** ** The broadcaster *)

Definition messenger_ttl : Z := 2.
Definition messenger_ttl_ratio : Z := 20.
Definition min_broadcast_period : Z := millis 50.
Definition nominal_broadcast_period (t ratio : Z) : Z := millis (t * 1000 / ratio).

(** One wake of the broadcaster at [now]: how long it sleeps next and whether it
    announces.  [last] and [is_enabled] are the two locks. *)
Definition broadcast_tick (t ratio : Z) (last : option Z) (is_enabled : option bool) (now : Z) : Z * bool :=
  let since := match last with
               | Some l => if now <? l then 0 else wrap_u64 ((now - l) / millis 1)
               | None => 0
               end in
  let tslb := millis since in
  let delay := if min_broadcast_period <? tslb then 0 else min_broadcast_period - tslb in
  (if 0 <? delay then delay else nominal_broadcast_period t ratio,
   (delay <? millis 1) && default false is_enabled).

(** What the broadcaster does from one wake to the next.  Its announcements and
    the responses of the receive loops move the broadcast clock when they are
    sent and its lock is free; a notification wakes the broadcaster at once.
    [bc_sent] are the announcements the clock recorded; [bs_unrecorded] is a round
    that sent nothing, or could not record it. *)
Record Broadcaster := MkBroadcaster { bc_now : Z; bc_last : Z; bc_wake : Z; bc_sent : list Z }.

Inductive broadcast_step (t ratio : Z) : Broadcaster -> Broadcaster -> Prop :=
| bs_wake b now last_free is_enabled took :
    bc_wake b <= now -> bc_now b <= now -> 0 <= took ->
    broadcast_step t ratio b
      (let '(sleep, send) := broadcast_tick t ratio (if last_free : bool then Some (bc_last b) else None) is_enabled now in
       if send then MkBroadcaster (now + took) (now + took) (now + took + sleep) (bc_sent b ++ [now])
       else MkBroadcaster now (bc_last b) (now + sleep) (bc_sent b))
| bs_notified b now : bc_now b <= now -> broadcast_step t ratio b (MkBroadcaster now (bc_last b) now (bc_sent b))
| bs_response b now : bc_now b <= now -> broadcast_step t ratio b (MkBroadcaster now now (bc_wake b) (bc_sent b))
| bs_unrecorded b now is_enabled :
    bc_wake b <= now -> bc_now b <= now -> snd (broadcast_tick t ratio (Some (bc_last b)) is_enabled now) = true ->
    broadcast_step t ratio b
      (MkBroadcaster now (bc_last b) (now + fst (broadcast_tick t ratio (Some (bc_last b)) is_enabled now)) (bc_sent b)).

End Messenger.

(** ** The messenger's invariant *)

Section MessengerProperties.
Context `{Ch : Chrono, FD : FloatDecode, HO : HashOrder}.

(** An event that is queued or being delivered. *)
Definition queued (s : MessengerState) (ev : DiscoveryEvent) : Prop := exists loop, ev ∈ loop_events loop s.

Definition ev_peer (ev : DiscoveryEvent) : NodeId := announcer (event ev).

(** A queued event that no later observation of its peer has superseded. *)
Definition fresh (s : MessengerState) (ev : DiscoveryEvent) : Prop :=
  exists v, live (revs s) !! ev_revision ev = Some v /\ rev_cancelled v = false.

Record messenger_ok (s : MessengerState) : Prop := {
  ok_hints : routes_ok (hints s);
  ok_revs : revisions_ok (revs s);
  ok_queues : forall loop q, handoffs s !! loop = Some q -> (length q <= DISCOVERY_HANDOFF_CAPACITY)%nat;
  ok_past : forall id v, live (revs s) !! id = Some v -> received v <= rx_clock s;
  ok_link : forall ev, queued s ev -> (ev_revision ev < next_rev (revs s))%nat /\
    (forall v, live (revs s) !! ev_revision ev = Some v -> about v = ev_peer ev /\ received v = ev_received ev);
  ok_sent : forall rev x, (rev, x) ∈ tx_event s -> (rev < next_rev (revs s))%nat /\
    (forall ev, queued s ev -> fresh s ev -> ev_peer ev = announcer x -> (rev <= ev_revision ev)%nat);
  ok_order : forall i j rev x rev' x', (i < j)%nat -> tx_event s !! i = Some (rev, x) -> tx_event s !! j = Some (rev', x') ->
    announcer x = announcer x' -> (rev <= rev')%nat
}.

(** A step that sends nothing: the events queued were queued, the live revisions
    were live and are no less cancelled. *)
Lemma quiet_ok s s' :
  messenger_ok s -> routes_ok (hints s') -> revisions_ok (revs s') ->
  (forall loop q, handoffs s' !! loop = Some q -> (length q <= DISCOVERY_HANDOFF_CAPACITY)%nat) ->
  rx_clock s <= rx_clock s' -> (next_rev (revs s) <= next_rev (revs s'))%nat ->
  (forall ev, queued s' ev -> queued s ev) ->
  (forall id v', live (revs s') !! id = Some v' -> exists v, live (revs s) !! id = Some v /\ about v' = about v /\
     received v' = received v /\ (rev_cancelled v = true -> rev_cancelled v' = true)) ->
  tx_event s' = tx_event s -> messenger_ok s'.
Proof.
  intros [H R Q P L S O] H' R' Q' C N Ev Lv T. constructor; try assumption.
  - intros id v V. destruct (Lv id v V) as (v0 & V0 & _ & E & _). rewrite E. specialize (P id v0 V0). lia.
  - intros ev E. destruct (L ev (Ev ev E)) as [L1 L2]. split; [lia|]. intros v V.
    destruct (Lv _ v V) as (v0 & V0 & E1 & E2 & _). rewrite E1, E2. now apply L2.
  - rewrite T. intros rev x X. destruct (S rev x X) as [S1 S2]. split; [lia|]. intros ev E (v & V & Cv) Pe.
    apply S2; [now apply Ev| |exact Pe]. destruct (Lv _ v V) as (v0 & V0 & _ & _ & K). exists v0. split; [exact V0|].
    destruct (rev_cancelled v0); [now rewrite K in Cv|reflexivity].
  - now rewrite T.
Qed.

Lemma live_same (r : Revisions) id v' : live r !! id = Some v' -> exists v, live r !! id = Some v /\ about v' = about v /\
  received v' = received v /\ (rev_cancelled v = true -> rev_cancelled v' = true).
Proof. intros L. now exists v'. Qed.

Lemma live_drop (r : Revisions) d id v' : live (drop_revision d r) !! id = Some v' -> exists v, live r !! id = Some v /\ about v' = about v /\
  received v' = received v /\ (rev_cancelled v = true -> rev_cancelled v' = true).
Proof. simpl. intros L. apply lookup_delete_Some in L as [_ L]. now exists v'. Qed.

(** What the events of the loops are after their queues change. *)
Lemma elem_of_loop_events loop s ev :
  ev ∈ loop_events loop s <-> taken s !! loop = Some ev \/ exists q, handoffs s !! loop = Some q /\ ev ∈ q.
Proof.
  unfold loop_events. rewrite elem_of_app. split; (intros [H|H]; [left|right]).
  - destruct (taken s !! loop) as [e|]; [apply list_elem_of_singleton in H; now subst|now apply elem_of_nil in H].
  - destruct (handoffs s !! loop) as [q|]; [eauto|now apply elem_of_nil in H].
  - rewrite H. now left.
  - destruct H as (q & -> & H). exact H.
Qed.

Lemma fewer_queued (s : MessengerState) (q : gmap nat (list DiscoveryEvent)) (t : gmap nat DiscoveryEvent) h r :
  q ⊆ handoffs s -> t ⊆ taken s ->
  forall ev, queued (with_queues q t (with_routes h r s)) ev -> queued s ev.
Proof.
  intros Q T ev (loop & H). exists loop. apply elem_of_loop_events in H. apply elem_of_loop_events. simpl in H.
  destruct H as [H|(l & H & I)]; [left; exact (lookup_weaken _ _ _ _ H T)|right; exists l].
  split; [exact (lookup_weaken _ _ _ _ H Q)|exact I].
Qed.

Lemma queues_sub (s : MessengerState) (q : gmap nat (list DiscoveryEvent)) :
  messenger_ok s -> q ⊆ handoffs s ->
  forall loop l, q !! loop = Some l -> (length l <= DISCOVERY_HANDOFF_CAPACITY)%nat.
Proof. intros Ok Q loop l H. apply (ok_queues s Ok loop). exact (lookup_weaken _ _ _ _ H Q). Qed.

Lemma drop_events_spec (l : list DiscoveryEvent) r :
  revisions_ok r ->
  let r' := fold_left (fun r ev => drop_revision (ev_revision ev) r) l r in
  revisions_ok r' /\ next_rev r' = next_rev r /\
  (forall id v', live r' !! id = Some v' -> exists v, live r !! id = Some v /\ about v' = about v /\
     received v' = received v /\ (rev_cancelled v = true -> rev_cancelled v' = true)).
Proof.
  revert r. induction l as [|ev l IH]; intros r Ok; simpl; [split; [exact Ok|]; split; [reflexivity|apply live_same]|].
  destruct (IH (drop_revision (ev_revision ev) r) (drop_revision_ok _ _ Ok)) as (A & B & C).
  split; [exact A|]. split; [exact B|]. intros id v' L. destruct (C id v' L) as (v & V & E1 & E2 & E3).
  simpl in V. apply lookup_delete_Some in V as [_ V]. now exists v.
Qed.

Lemma abandon_ok loop s : messenger_ok s -> messenger_ok (delivery_abandon loop s).
Proof.
  intros Ok. unfold delivery_abandon. destruct (taken s !! loop) as [ev|]; [|exact Ok].
  apply (quiet_ok s); simpl; try apply Ok; try lia; try reflexivity.
  - apply drop_revision_ok, Ok.
  - apply fewer_queued; [reflexivity|apply delete_subseteq].
  - intros id v'. apply live_drop.
Qed.

Lemma delivery_take_ok loop s : messenger_ok s -> messenger_ok (delivery_take loop s).
Proof.
  intros Ok. unfold delivery_take. destruct (taken s !! loop) eqn:T; [exact Ok|].
  destruct (handoffs s !! loop) as [[|ev q]|] eqn:H; try exact Ok.
  apply (quiet_ok s); simpl; try apply Ok; try lia; try reflexivity.
  - intros loop' l L. destruct (decide (loop = loop')) as [<-|N].
    + rewrite lookup_insert_eq in L. injection L as <-. pose proof (ok_queues s Ok loop _ H) as B. simpl in B. lia.
    + rewrite lookup_insert_ne in L by exact N. now apply (ok_queues s Ok loop').
  - intros e (loop' & E). exists loop'. apply elem_of_loop_events in E. apply elem_of_loop_events. simpl in E.
    destruct (decide (loop = loop')) as [<-|N].
    + right. exists (ev :: q). split; [exact H|]. rewrite !lookup_insert_eq in E.
      destruct E as [[= <-]|(l & [= <-] & I)]; [now left|now right].
    + now rewrite !lookup_insert_ne in E by exact N.
  - apply live_same.
Qed.

Lemma delivery_commit_ok epoch epoch2 now1 now2 loop s : messenger_ok s -> messenger_ok (delivery_commit epoch epoch2 now1 now2 loop s).
Proof.
  intros Ok. unfold delivery_commit. destruct (taken s !! loop) as [ev|] eqn:T; [|exact Ok].
  destruct (observation_current _ _ _ _ _) eqn:C; cbn [negb]; [|now apply abandon_ok].
  destruct (_ && _); [now apply abandon_ok|].
  set (h := if msg_ttl _ =? 0 then _ else _).
  assert (routes_ok h) as Hok.
  { unfold h. destruct (_ =? 0); [exact (routes_ok_submap _ _ (ok_hints s Ok) (withdraw_submap _ _ _))|].
    apply record_received_ok, Ok. }
  assert (queued s ev) as Qe by (exists loop; apply elem_of_loop_events; now left).
  assert (fresh s ev) as Fe.
  { unfold observation_current in C. apply andb_true_iff in C as [_ C]. unfold fresh.
    destruct (live (revs s) !! ev_revision ev) as [v|]; [|discriminate]. exists v. split; [reflexivity|now apply negb_true_iff]. }
  assert (forall e, queued (MkMessenger (ifs s) h (revs s) (handoffs s) (delete loop (taken s))
                      (tx_event s ++ [(ev_revision ev, event ev)]) (rx_clock s)) e -> queued s e) as Sub.
  { intros e (l & H). exists l. apply elem_of_loop_events in H. apply elem_of_loop_events. simpl in H.
    destruct H as [H|H]; [left|now right]. now apply lookup_delete_Some in H as [_ H]. }
  destruct Ok as [H R Q P L S O]. constructor; simpl; auto.
  - intros rev x X. apply elem_of_app in X as [X|X].
    + destruct (S rev x X) as [S1 S2]. split; [exact S1|]. intros e E F Pe. apply S2; [now apply Sub|exact F|exact Pe].
    + apply list_elem_of_singleton in X. injection X as -> ->. split; [now apply L|]. intros e E (v & V & Cv) Pe.
      destruct Fe as (v0 & V0 & C0). destruct (L e (Sub e E)) as [_ L1]. destruct (L ev Qe) as [_ L2].
      destruct (L1 v V) as [A1 _]. destruct (L2 v0 V0) as [A2 _].
      pose proof (ok_pending _ R _ _ V Cv) as P1. pose proof (ok_pending _ R _ _ V0 C0) as P2.
      unfold ev_peer in *. rewrite A1, Pe, <- A2, P2 in P1. injection P1 as ->. lia.
  - intros i j rev x rev' x' Lt Li Lj E. apply lookup_app_Some in Li as [Li|[Gi Li]].
    + apply lookup_app_Some in Lj as [Lj|[Gj Lj]]; [now apply (O i j rev x rev' x')|].
      apply list_lookup_singleton_Some in Lj as [_ [= <- <-]].
      apply (S rev x); [now apply list_elem_of_lookup_2 with i|exact Qe|exact Fe|now symmetry].
    + apply list_lookup_singleton_Some in Li as [Zi _]. apply lookup_app_Some in Lj as [Lj|[Gj Lj]].
      * apply lookup_lt_Some in Lj. lia.
      * apply list_lookup_singleton_Some in Lj as [Zj _]. lia.
Qed.

(** One event more, with a fresh revision. *)
Lemma pushed_ok s loop q ev :
  messenger_ok s -> handoffs s !! loop = Some q -> (length q < DISCOVERY_HANDOFF_CAPACITY)%nat ->
  live (revs s) !! ev_revision ev = Some (MkRevision (ev_peer ev) (ev_received ev) false) ->
  (forall e, queued s e -> (ev_revision e < ev_revision ev)%nat) ->
  (forall rev x, (rev, x) ∈ tx_event s -> (rev < ev_revision ev)%nat) ->
  messenger_ok (with_queues (alter (fun q => q ++ [ev]) loop (handoffs s)) (taken s) s).
Proof.
  intros [H R Q P L S O] Hq Len V New Old. set (s' := with_queues _ _ _).
  assert (forall e, queued s' e <-> e = ev \/ queued s e) as Ev.
  { intros e. split.
    - intros (l & E). apply elem_of_loop_events in E as [E|(q' & E & I)].
      + right. exists l. apply elem_of_loop_events. now left.
      + simpl in E. destruct (decide (loop = l)) as [<-|N].
        * rewrite lookup_alter_eq, Hq in E. injection E as <-. apply elem_of_app in I as [I|I].
          -- right. exists loop. apply elem_of_loop_events. right. eauto.
          -- apply list_elem_of_singleton in I. now left.
        * rewrite lookup_alter_ne in E by exact N. right. exists l. apply elem_of_loop_events. right. eauto.
    - intros [->|(l & E)].
      + exists loop. apply elem_of_loop_events. right. exists (q ++ [ev]). split; [simpl; now rewrite lookup_alter_eq, Hq|].
        rewrite elem_of_app, list_elem_of_singleton. now right.
      + exists l. apply elem_of_loop_events in E as [E|(q' & E & I)]; apply elem_of_loop_events; [now left|right].
        destruct (decide (loop = l)) as [<-|N].
        * rewrite Hq in E. injection E as <-. exists (q ++ [ev]). split; [simpl; now rewrite lookup_alter_eq, Hq|].
          rewrite elem_of_app. now left.
        * exists q'. split; [simpl; now rewrite lookup_alter_ne|exact I]. }
  constructor; try assumption.
  - intros l q' E. simpl in E. destruct (decide (loop = l)) as [<-|N].
    + rewrite lookup_alter_eq, Hq in E. injection E as <-. rewrite length_app. simpl. unfold DISCOVERY_HANDOFF_CAPACITY in *. lia.
    + rewrite lookup_alter_ne in E by exact N. now apply (Q l).
  - intros e E. apply Ev in E as [->|E]; [|now apply L]. split; [apply (ok_rev_fresh _ R); eauto|].
    intros v V'. simpl in V'. rewrite V in V'. injection V' as <-. now split.
  - intros rev x X. destruct (S rev x X) as [S1 S2]. split; [exact S1|]. intros e E F Pe.
    apply Ev in E as [->|E]; [|exact (S2 e E F Pe)]. specialize (Old rev x X). lia.
Qed.

Lemma try_reserve_true loop s : try_reserve loop s = true ->
  exists q, handoffs s !! loop = Some q /\ (length q < DISCOVERY_HANDOFF_CAPACITY)%nat.
Proof. unfold try_reserve. destruct (handoffs s !! loop) as [q|]; [|discriminate]. intros H. exists q. split; [reflexivity|]. now apply Nat.ltb_lt. Qed.

(** Recording an observation, before its event is queued. *)
Lemma observed_ok s id adm r o h :
  messenger_ok s -> routes_ok h -> observe_locked id (rx_clock s) adm (revs s) = (r, o) ->
  (forall rev, o = Some rev -> rev = next_rev (revs s) /\ live r !! rev = Some (MkRevision id (rx_clock s) false)) /\
  messenger_ok (with_routes h r s).
Proof.
  intros Ok Hh E. destruct (observe_live _ _ _ _ _ _ E) as (N & I & Lv).
  destruct (observe_cases _ _ _ _ _ _ (ok_revs s Ok) E) as [Rok _].
  split; [intros rev Er; now destruct (I rev Er) as (A & _ & _ & B)|].
  destruct Ok as [H R Q P L S O]. constructor; simpl; try assumption.
  - intros i v V. destruct (Lv i v V) as [Er|(v0 & V0 & _ & E2 & _)]; [|rewrite E2; exact (P i v0 V0)].
    destruct (I i Er) as (_ & _ & _ & B). rewrite B in V. injection V as <-. simpl. lia.
  - intros ev Q1. destruct (L ev Q1) as [L1 L2]. split; [lia|]. intros v V.
    destruct (Lv _ v V) as [Er|(v0 & V0 & E1 & E2 & _)]; [|rewrite E1, E2; now apply L2].
    destruct (I _ Er) as (A & _). lia.
  - intros rev x X. destruct (S rev x X) as [S1 S2]. split; [lia|]. intros ev Q1 (v & V & C) Pe.
    destruct (Lv _ v V) as [Er|(v0 & V0 & _ & _ & K)].
    + destruct (I _ Er) as (A & _). lia.
    + apply S2; [exact Q1| |exact Pe]. exists v0. split; [exact V0|]. destruct (rev_cancelled v0); [now rewrite K in C|reflexivity].
Qed.

Lemma queue_ok epoch now0 now1 now2 loop header buf ingress s :
  messenger_ok s -> messenger_ok (queue_peer_state_guarded epoch now0 now1 now2 loop header buf ingress s).
Proof.
  intros Ok. unfold queue_peer_state_guarded. destruct (peer_state_event now0 header buf) as [state|]; [|exact Ok].
  destruct (observe_locked _ _ _ _) as [r o] eqn:E. set (h := if _ =? 0 then _ else _).
  assert (routes_ok h) as Hh.
  { unfold h. destruct (_ =? 0); [exact (routes_ok_submap _ _ (ok_hints s Ok) (withdraw_submap _ _ _))|].
    apply record_received_ok, Ok. }
  destruct (observed_ok s _ _ r o h Ok Hh E) as [New Ok1]. destruct (try_reserve loop s) eqn:T; [|exact Ok1].
  destruct o as [rev|]; [|exact Ok1]. destruct (New rev eq_refl) as [-> Lr].
  destruct (try_reserve_true loop s T) as (q & Hq & Len).
  apply (pushed_ok _ loop q); [exact Ok1|exact Hq|exact Len|exact Lr| |].
  - intros e Q1. apply (ok_link s Ok e Q1).
  - intros rev x X. now apply (ok_sent s Ok rev x).
Qed.

Lemma observe_ok c epoch now0 now1 now2 loop data ingress s :
  messenger_ok s -> messenger_ok (observe_discovery_guarded c epoch now0 now1 now2 loop data ingress s).
Proof.
  intros Ok. unfold observe_discovery_guarded. destruct ingress as [entry|]; [|exact Ok].
  destruct (starts_with _ _); [exact Ok|]. destruct (parse_message_header data) as [[header len]|]; [|exact Ok].
  repeat (match goal with |- context [if ?b then _ else _] => destruct b end); try exact Ok; now apply queue_ok.
Qed.

Lemma messenger_step_ok s s' : messenger_ok s -> messenger_step s s' -> messenger_ok s'.
Proof.
  intros Ok St. destruct St as [s now T|s c epoch now0 now1 now2 loop data ingress|s loop|s loop|s epoch epoch2 now1 now2 loop|
    s rev x X|s loop N|s loop|s epoch now peer endpoint|s epoch now|s|s w].
  - apply (quiet_ok s); simpl; try apply Ok; auto. apply live_same.
  - now apply observe_ok.
  - now apply delivery_take_ok.
  - now apply abandon_ok.
  - now apply delivery_commit_ok.
  - apply (quiet_ok s); simpl; try apply Ok; auto; try lia; [apply drop_revision_ok, Ok|]. intros id v'. apply live_drop.
  - apply (quiet_ok s); simpl; try apply Ok; auto; try lia; [| |apply live_same].
    + intros l q. destruct (decide (loop = l)) as [<-|D].
      * rewrite lookup_insert_eq. intros [= <-]. simpl. unfold DISCOVERY_HANDOFF_CAPACITY. lia.
      * rewrite lookup_insert_ne by exact D. apply (ok_queues s Ok).
    + intros ev (l & H). exists l. apply elem_of_loop_events in H. apply elem_of_loop_events. simpl in H.
      destruct H as [H|(q & H & I)]; [left; now apply lookup_delete_Some in H as [_ H]|right]. exists q. split; [|exact I].
      destruct (decide (loop = l)) as [<-|D]; [|now rewrite lookup_insert_ne in H by exact D].
      rewrite lookup_insert_eq in H. injection H as <-. now apply elem_of_nil in I.
  - destruct (drop_events_spec (loop_events loop s) _ (ok_revs s Ok)) as (A & B & C).
    apply (quiet_ok s); simpl; try apply Ok; auto; try lia.
    + exact (queues_sub s _ Ok (delete_subseteq _ _)).
    + exact (fewer_queued s _ _ _ _ (delete_subseteq _ _) (delete_subseteq _ _)).
  - apply (quiet_ok s); simpl; try apply Ok; auto; try lia; [|apply live_same]. apply resolve_ok, Ok.
  - apply (quiet_ok s); simpl; try apply Ok; auto; try lia; [|apply live_same].
    exact (routes_ok_submap _ _ (ok_hints s Ok) (sweep_submap _ _ _ _)).
  - apply (quiet_ok s); simpl; try apply Ok; auto; try lia; [|apply live_same].
    exact (routes_ok_submap _ _ (ok_hints s Ok) (map_empty_subseteq _)).
  - apply (quiet_ok s); simpl; try apply Ok; auto; try lia. apply live_same.
Qed.

End MessengerProperties.

(** ** Order *)

Section Order.
Context `{Ch : Chrono, FD : FloatDecode, HO : HashOrder}.

Definition Messenger_new (w : Interfaces) (now : Z) : MessengerState := MkMessenger w ∅ Revisions_new ∅ ∅ [] now.

Lemma Messenger_new_ok w now : messenger_ok (Messenger_new w now).
Proof.
  constructor; simpl.
  - constructor; [rewrite map_size_empty; unfold MAX_MEASUREMENT_ROUTES; lia|]. intros peer. unfold peer_count. rewrite map_to_list_empty. simpl. lia.
  - apply Revisions_new_ok.
  - intros l q H. rewrite lookup_empty in H. discriminate.
  - intros id v H. rewrite lookup_empty in H. discriminate.
  - intros ev (l & H). apply elem_of_loop_events in H as [H|(q & H & _)]; simpl in H; rewrite lookup_empty in H; discriminate.
  - intros rev x H. now apply elem_of_nil in H.
  - intros i j rev x rev' x' _ H. now rewrite lookup_nil in H.
Qed.

(** C30 Whatever datagrams arrive, on however many sockets, and however the
    receive loops, the delivery tasks, the interface scan and the consumers
    interleave: at most 64 announcements wait for each socket's delivery task,
    at most 1024 routes are remembered and 16 of one peer, and the announcements
    of a peer reach the gateway in the order their datagrams were received. *)
Theorem messenger_bounded_in_order w now s :
  rtc messenger_step (Messenger_new w now) s ->
  (forall loop q, handoffs s !! loop = Some q -> (length q <= 64)%nat) /\
  (base.size (hints s) <= 1024)%nat /\ (forall peer, (peer_count peer (hints s) <= 16)%nat) /\
  (forall i j rev x rev' x', (i < j)%nat -> tx_event s !! i = Some (rev, x) -> tx_event s !! j = Some (rev', x') ->
     announcer x = announcer x' -> (rev <= rev')%nat).
Proof.
  intros St. assert (messenger_ok s) as [[H1 H2] R Q P L S O].
  { revert St. generalize (Messenger_new_ok w now). generalize (Messenger_new w now). intros s0 Ok St.
    induction St as [|s0 s1 s2 S1 _ IH]; [exact Ok|]. apply IH. exact (messenger_step_ok _ _ Ok S1). }
  exact (conj Q (conj H1 (conj H2 O))).
Qed.

(** Every revision of [p] below [n] is cancelled, and what was delivered since
    is of [n] or later. *)
Definition superseded (p : NodeId) (n : nat) (old : list (nat * Announcement)) (s : MessengerState) : Prop :=
  messenger_ok s /\ (n <= next_rev (revs s))%nat /\
  (forall id v, live (revs s) !! id = Some v -> about v = p -> (id < n)%nat -> rev_cancelled v = true) /\
  exists new, tx_event s = old ++ new /\ Forall (fun x => announcer (snd x) = p -> (n <= fst x)%nat) new.

Lemma superseded_quiet p n old s s' :
  superseded p n old s -> messenger_ok s' -> (next_rev (revs s) <= next_rev (revs s'))%nat ->
  (forall id v', live (revs s') !! id = Some v' -> (next_rev (revs s) <= id)%nat \/
     exists v, live (revs s) !! id = Some v /\ about v' = about v /\
     (rev_cancelled v = true -> rev_cancelled v' = true)) ->
  tx_event s' = tx_event s -> superseded p n old s'.
Proof.
  intros (_ & N & C & new & T & F) Ok' N' Lv T'. split; [exact Ok'|]. split; [lia|]. split.
  - intros id v V A Lt. destruct (Lv id v V) as [G|(v0 & V0 & E & K)]; [lia|]. apply K. apply (C id v0 V0); [congruence|exact Lt].
  - exists new. now rewrite T'.
Qed.

Lemma queue_quiet epoch now0 now1 now2 loop header buf ingress s :
  let s' := queue_peer_state_guarded epoch now0 now1 now2 loop header buf ingress s in
  (next_rev (revs s) <= next_rev (revs s'))%nat /\
  (forall id v', live (revs s') !! id = Some v' -> (next_rev (revs s) <= id)%nat \/
     exists v, live (revs s) !! id = Some v /\ about v' = about v /\
     (rev_cancelled v = true -> rev_cancelled v' = true)) /\ tx_event s' = tx_event s.
Proof.
  unfold queue_peer_state_guarded. destruct (peer_state_event now0 header buf) as [state|];
    [|split; [lia|]; split; [intros id v V; right; now exists v|reflexivity]].
  destruct (observe_locked _ _ _ _) as [r o] eqn:E. destruct (observe_live _ _ _ _ _ _ E) as (N & I & Lv).
  set (h := if _ =? 0 then _ else _).
  assert (forall s1, revs s1 = r -> tx_event s1 = tx_event s ->
    (next_rev (revs s) <= next_rev (revs s1))%nat /\
    (forall id v', live (revs s1) !! id = Some v' -> (next_rev (revs s) <= id)%nat \/
     exists v, live (revs s) !! id = Some v /\ about v' = about v /\
     (rev_cancelled v = true -> rev_cancelled v' = true)) /\ tx_event s1 = tx_event s) as K.
  { intros s1 -> ->. split; [exact N|]. split; [|reflexivity]. intros id v V.
    destruct (Lv id v V) as [Er|(v0 & V0 & E1 & _ & E3)]; [left; destruct (I id Er) as [-> _]; lia|right; now exists v0]. }
  destruct (try_reserve loop s); [|now apply K]. destruct o; now apply K.
Qed.

Lemma superseded_step p n old s s' : superseded p n old s -> messenger_step s s' -> superseded p n old s'.
Proof.
  intros Sp St. pose proof (messenger_step_ok s s' (proj1 Sp) St) as Ok'. pose proof (proj1 Sp) as Ok.
  assert (forall r : Revisions, (forall id v', live r !! id = Some v' -> exists v, live (revs s) !! id = Some v /\ about v' = about v /\
     received v' = received v /\ (rev_cancelled v = true -> rev_cancelled v' = true)) -> next_rev r = next_rev (revs s) ->
     revs s' = r -> tx_event s' = tx_event s -> superseded p n old s') as Q.
  { intros r Lv N Er T. apply (superseded_quiet p n old s s' Sp Ok'); [rewrite Er; lia| |exact T].
    intros id v' V. right. rewrite Er in V. destruct (Lv id v' V) as (v & V' & E & _ & C). now exists v. }
  destruct St as [s now T|s c epoch now0 now1 now2 loop data ingress|s loop|s loop|s epoch epoch2 now1 now2 loop|
    s rev x X|s loop Nn|s loop|s epoch now peer endpoint|s epoch now|s|s w];
    try (now apply (Q (revs s) (live_same _))).
  - revert Ok'. unfold observe_discovery_guarded. destruct ingress as [entry|]; [|now intros].
    destruct (starts_with _ _); [now intros|]. destruct (parse_message_header data) as [[header len]|]; [|now intros].
    repeat (match goal with |- context [if ?b then _ else _] => destruct b end); try (now intros); intros Ok';
      (edestruct queue_quiet as (K1 & K2 & K3); exact (superseded_quiet p n old s _ Sp Ok' K1 K2 K3)).
  - revert Q Ok'. unfold delivery_take. destruct (taken s !! loop); [now intros|].
    destruct (handoffs s !! loop) as [[|ev q]|]; try (now intros). intros Q _. now apply (Q (revs s) (live_same _)).
  - revert Q Ok'. unfold delivery_abandon. destruct (taken s !! loop) as [ev|]; [|now intros]. intros Q _.
    now apply (Q _ (live_drop _ (ev_revision ev))).
  - revert Q Ok'. unfold delivery_commit, delivery_abandon. destruct (taken s !! loop) as [ev|] eqn:T; [|now intros].
    destruct (observation_current _ _ _ _ _) eqn:C; cbn [negb];
      [|intros Q _; now apply (Q _ (live_drop _ (ev_revision ev)))].
    destruct (_ && _); [intros Q _; now apply (Q _ (live_drop _ (ev_revision ev)))|]. intros _ Ok'.
    destruct Sp as (_ & N & K & new & Tx & F). split; [exact Ok'|]. split; [exact N|]. split; [exact K|].
    exists (new ++ [(ev_revision ev, event ev)]). simpl. split; [now rewrite Tx, app_assoc|].
    apply Forall_app. split; [exact F|]. constructor; [|constructor]. simpl. intros Pe.
    unfold observation_current in C. apply andb_true_iff in C as [_ C].
    destruct (live (revs s) !! ev_revision ev) as [v|] eqn:V; [|discriminate].
    assert (queued s ev) as Qe by (exists loop; apply elem_of_loop_events; now left).
    destruct (ok_link s Ok ev Qe) as [_ L]. destruct (L v V) as [A _]. unfold ev_peer in A. rewrite Pe in A.
    destruct (Nat.le_gt_cases n (ev_revision ev)) as [G|G]; [exact G|]. rewrite (K _ v V A G) in C. discriminate.
  - now apply (Q _ (live_drop _ rev)).
  - destruct (drop_events_spec (loop_events loop s) _ (ok_revs s Ok)) as (A & B & C). now apply (Q _ C B).
Qed.

(** C15 A newer datagram withdraws what its peer said before: once a well-formed
    announcement or byebye of a peer has been observed, no announcement of that
    peer observed earlier is ever delivered to the gateway, although it may be
    waiting in any socket's queue or already be in a delivery task's hands, and
    even if the newer one itself found its queue full and is lost. *)
Theorem superseded_never_delivered epoch now0 now1 now2 loop header buf ingress s s2 state :
  messenger_ok s -> peer_state_event now0 header buf = Some state ->
  rtc messenger_step (queue_peer_state_guarded epoch now0 now1 now2 loop header buf ingress s) s2 ->
  (forall ev, queued s ev -> (ev_revision ev < next_rev (revs s))%nat) /\
  exists new, tx_event s2 = tx_event s ++ new /\
  Forall (fun x => announcer (snd x) = announcer state -> (next_rev (revs s) <= fst x)%nat) new.
Proof.
  intros Ok Ev St. split; [intros ev Q; apply (ok_link s Ok ev Q)|].
  assert (superseded (announcer state) (next_rev (revs s)) (tx_event s)
    (queue_peer_state_guarded epoch now0 now1 now2 loop header buf ingress s)) as Sp.
  { destruct (queue_quiet epoch now0 now1 now2 loop header buf ingress s) as (K1 & K2 & K3).
    pose proof (queue_ok epoch now0 now1 now2 loop header buf ingress s Ok) as Ok'.
    split; [exact Ok'|]. split; [exact K1|]. split; [|exists []; rewrite app_nil_r; now split]. clear St K1 K2 K3 Ok'.
    unfold queue_peer_state_guarded. rewrite Ev. destruct (observe_locked _ _ _ _) as [r o] eqn:E.
    destruct (observe_live _ _ _ _ _ _ E) as (N & I & Lv).
    destruct (observe_cases _ _ _ _ _ _ (ok_revs s Ok) E) as [Rok Cs].
    set (h := if _ =? 0 then _ else _).
    assert (forall id v, live r !! id = Some v -> about v = announcer state -> (id < next_rev (revs s))%nat -> rev_cancelled v = true) as K.
    { intros id v V A Lt. destruct Cs as [(i & vi & U & Late & _)|(All & _)].
      - apply upgrade_Some in U as [_ U]. pose proof (ok_past s Ok _ _ U). lia.
      - destruct (Lv id v V) as [Er|(v0 & V0 & E1 & _)]; [destruct (I id Er) as [-> _]; lia|].
        destruct (All id v0 V0 ltac:(congruence)) as (v' & V' & Cv). congruence. }
    destruct (try_reserve loop s); [destruct o|]; exact K. }
  revert Sp. induction St as [s1|s1 s3 s4 S1 _ IH]; intros Sp; [apply Sp|]. apply IH.
  exact (superseded_step _ _ _ _ _ Sp S1).
Qed.

End Order.

(** ** What is admitted *)

Section Admission.
Context `{Laws : ChronoLaws, FD : FloatDecode, HO : HashOrder}.

(** C39 Only datagrams of others count: a datagram changes what the messenger
    keeps only when it came in on a registered interface, has a well-formed
    discovery header of a known type, is not the node's own, arrives while Link
    is enabled or says byebye, and, unless it says byebye, has a payload that
    parses; every other datagram, whatever its bytes, changes nothing. *)
Theorem only_valid_datagrams_count c epoch now0 now1 now2 loop data ingress s :
  observe_discovery_guarded c epoch now0 now1 now2 loop data ingress s <> s ->
  exists entry header len, ingress = Some entry /\ parse_message_header data = Ok (header, len) /\
    message_type header <> INVALID /\ message_type header < 4 /\
    (header_ident header = state_ident (own_state c) -> group_id header <> own_group c) /\
    (message_type header <> BYEBYE -> enabled c = true /\ exists p, parse_payload (drop len data) = Some (Ok p)).
Proof.
  unfold observe_discovery_guarded. destruct ingress as [entry|]; [|now intros []].
  destruct (starts_with _ _); [now intros []|]. destruct (parse_message_header data) as [[header len]|] eqn:Ph; [|now intros []].
  destruct (known_type (message_type header)) eqn:Kt; cbn [negb]; [|now intros []].
  destruct (bool_decide _ && _) eqn:Own; [now intros []|].
  destruct (negb _ && negb _) eqn:En; [now intros []|]. intros Ch'. exists entry, header, len. split; [reflexivity|]. split; [reflexivity|].
  unfold known_type, ALIVE, RESPONSE, BYEBYE, INVALID in *. split; [lia|]. split; [lia|]. split.
  - intros E G. rewrite bool_decide_true in Own by congruence. cbn in Own. lia.
  - intros Nb. replace (message_type header =? 3) with false in * by lia. cbn in En. split; [now apply negb_false_iff|].
    unfold queue_peer_state_guarded, peer_state_event in Ch'.
    destruct (parse_payload (drop len data)) as [[p|]|]; [now exists p|now destruct Ch'|now destruct Ch'].
Qed.

(** An announcement that is not late is queued with a fresh revision. *)
Lemma queue_admits epoch now0 now1 now2 loop header buf ingress s state q :
  messenger_ok s -> peer_state_event now0 header buf = Some state -> 0 < ttl header ->
  handoffs s !! loop = Some q -> (length q < DISCOVERY_HANDOFF_CAPACITY)%nat ->
  now1 < rx_clock s + secs (ttl header) ->
  let s1 := queue_peer_state_guarded epoch now0 now1 now2 loop header buf ingress s in
  let ev := MkEvent (MkAnnouncement (message state) (Some (rx_clock s + secs (ttl header)))) ingress (rx_clock s) (next_rev (revs s)) in
  handoffs s1 !! loop = Some (q ++ [ev]) /\ taken s1 = taken s /\ tx_event s1 = tx_event s /\ ifs s1 = ifs s /\
  live (revs s1) !! next_rev (revs s) = Some (MkRevision (announcer state) (rx_clock s) false).
Proof.
  intros Ok Ev T Hq Len Now s1 ev. unfold s1, queue_peer_state_guarded. rewrite Ev.
  assert (try_reserve loop s = true) as Tr by (unfold try_reserve; rewrite Hq; now apply Nat.ltb_lt).
  rewrite Tr. assert (now1 <? rx_clock s + secs (ttl header) = true) as -> by lia. rewrite orb_true_r. cbn [andb].
  destruct (observe_locked _ _ _ _) as [r o] eqn:E.
  destruct (observe_cases _ _ _ _ _ _ (ok_revs s Ok) E) as [_ [(i & vi & U & Late & _)|(_ & -> & L)]].
  { apply upgrade_Some in U as [_ U]. pose proof (ok_past s Ok _ _ U). lia. }
  simpl. rewrite lookup_alter_eq, Hq. repeat split. now apply L.
Qed.

End Admission.

(** ** The broadcaster's pace *)

Section Pace.
Context `{Ch : Chrono, FD : FloatDecode, HO : HashOrder}.

Lemma wrap_u64_le x : 0 <= x -> 0 <= wrap_u64 x <= x.
Proof. unfold wrap_u64. intros. split; [apply Z.mod_pos_bound; lia|apply Z.mod_le; lia]. Qed.

Lemma tick_sends t ratio last is_enabled now :
  snd (broadcast_tick t ratio last is_enabled now) = true ->
  exists l, last = Some l /\ l + min_broadcast_period <= now /\ is_enabled = Some true.
Proof.
  unfold broadcast_tick, min_broadcast_period, millis. destruct last as [l|]; cbn [snd]; intros H.
  - exists l. split; [reflexivity|]. apply andb_true_iff in H as [H1 H2].
    assert (is_enabled = Some true) as -> by (destruct is_enabled as [[]|]; easy). split; [|reflexivity].
    destruct (now <? l) eqn:N; [vm_compute in H1; discriminate|].
    assert (0 <= (now - l) / 1000000) as P by (apply Z.div_pos; lia).
    pose proof (wrap_u64_le _ P) as W. change (1 * 1000000) with 1000000 in *.
    pose proof (Z.mul_div_le (now - l) 1000000 ltac:(lia)) as D.
    destruct (50 * 1000000 <? wrap_u64 ((now - l) / 1000000) * 1000000) eqn:C; lia.
  - apply andb_true_iff in H as [H _]. vm_compute in H. discriminate.
Qed.

Definition spaced (gap : Z) (l : list Z) : Prop := forall i a b, l !! i = Some a -> l !! S i = Some b -> a + gap <= b.

Lemma spaced_snoc gap (l : list Z) x : spaced gap l -> (forall y, last l = Some y -> y + gap <= x) -> spaced gap (l ++ [x]).
Proof.
  intros Sp L i a b Ha Hb. apply lookup_app_Some in Hb as [Hb|[G Hb]].
  - apply lookup_app_Some in Ha as [Ha|[G Ha]]; [now apply (Sp i)|]. apply lookup_lt_Some in Hb. lia.
  - apply list_lookup_singleton_Some in Hb as [Y <-]. assert (S i = length l) as Len by lia.
    rewrite lookup_app_l in Ha by lia. apply L. rewrite last_lookup, <- Len. exact Ha.
Qed.

(** Announcements are rationed: whatever wakes, notifications and responses
    interleave, the node's own announcements are at least 50 ms apart, and at
    least 50 ms after the last response the clock recorded. *)
Theorem broadcasts_are_spaced t ratio now0 last0 wake0 b :
  last0 <= now0 -> rtc (broadcast_step t ratio) (MkBroadcaster now0 last0 wake0 []) b ->
  spaced min_broadcast_period (bc_sent b) /\ bc_last b <= bc_now b.
Proof.
  intros L St. set (inv b := spaced min_broadcast_period (bc_sent b) /\ bc_last b <= bc_now b /\
    forall y, last (bc_sent b) = Some y -> y <= bc_last b).
  assert (inv b) as (A & B & _); [|now split].
  assert (inv (MkBroadcaster now0 last0 wake0 [])) as I0 by (split; [intros i a c H; simpl in H; now rewrite lookup_nil in H|split; [exact L|discriminate]]).
  revert I0. induction St as [b0|b0 b1 b2 S1 _ IH]; [easy|]. intros (A & B & C). apply IH. clear IH.
  destruct S1 as [b now' last_free en took W N T|b now' N|b now' N|b now' en W N S]; try (split; [exact A|split; simpl; [lia|exact C]]).
  - pose proof (tick_sends t ratio (if last_free then Some (bc_last b) else None) en now') as Ts.
    destruct (broadcast_tick t ratio _ en now') as [sleep send]. destruct send; [|split; [exact A|split; simpl; [lia|exact C]]].
    destruct (Ts eq_refl) as (l & E & G & _). destruct last_free; [|discriminate]. injection E as <-.
    split; [|split; simpl; [lia|]].
    + simpl. apply spaced_snoc; [exact A|]. intros y Hy. specialize (C y Hy). lia.
    + intros y. rewrite last_snoc. intros [= <-]. lia.
  - split; [exact A|]. split; simpl; [lia|]. intros y Hy. specialize (C y Hy). lia.
Qed.

(** A node that is enabled keeps announcing: when the broadcaster wakes with
    its locks free it announces, and then every 100 ms, the time an announcement
    takes apart; or it sleeps at most 50 ms, until the spacing allows it to, and
    announces then. *)
Theorem node_keeps_announcing last now took :
  last <= now -> now - last < 2 ^ 63 -> 0 <= took ->
  let tick l n := broadcast_tick messenger_ttl messenger_ttl_ratio (Some l) (Some true) n in
  let '(sleep, send) := tick last now in
  if send then sleep = millis 100 /\ snd (tick (now + took) (now + took + sleep)) = true
  else 0 < sleep <= millis 50 /\ snd (tick last (now + sleep)) = true.
Proof.
  intros L B T tick.
  assert (forall l n, l <= n -> n - l < 2 ^ 64 -> tick l n =
    let tslb := (n - l) / 1000000 * 1000000 in
    (if 50000000 <=? tslb then 100000000 else 50000000 - tslb, 50000000 <=? tslb)) as E.
  { intros l n Hl Hb. unfold tick, broadcast_tick, min_broadcast_period, nominal_broadcast_period, millis, messenger_ttl, messenger_ttl_ratio.
    assert (n <? l = false) as -> by lia.
    assert (0 <= (n - l) / 1000000) as P by (apply Z.div_pos; lia).
    assert ((n - l) / 1000000 <= n - l) as Q by (apply Z.div_le_upper_bound; lia).
    change (1 * 1000000) with 1000000. unfold wrap_u64. rewrite Z.mod_small by (change (2 ^ 64) with 18446744073709551616 in *; lia).
    change (50 * 1000000) with 50000000. change (2 * 1000 / 20 * 1000000) with 100000000. set (q := (n - l) / 1000000) in *.
    cbv zeta. cbn [default from_option]. rewrite andb_true_r.
    destruct (50000000 <? q * 1000000) eqn:C1, (50000000 <=? q * 1000000) eqn:C2; try lia; cbn [Z.ltb Z.compare]; try reflexivity;
      destruct (0 <? 50000000 - q * 1000000) eqn:C3; f_equal; lia. }
  change (2 ^ 63) with 9223372036854775808 in B. change (2 ^ 64) with 18446744073709551616 in E.
  rewrite (E last now) by lia. cbv zeta. unfold millis.
  pose proof (Z.mul_div_le (now - last) 1000000 ltac:(lia)) as D1.
  assert (0 <= (now - last) / 1000000) as P by (apply Z.div_pos; lia).
  destruct (50000000 <=? (now - last) / 1000000 * 1000000) eqn:C.
  - split; [reflexivity|]. rewrite E by lia. replace (now + took + 100000000 - (now + took)) with 100000000 by lia. reflexivity.
  - split; [lia|]. rewrite E by lia. cbn [snd].
    assert ((now - last) / 1000000 <= 49) by lia. assert (0 <= (now - last) / 1000000) by (apply Z.div_pos; lia).
    set (q := (now - last) / 1000000) in *.
    replace (now + (50000000 - q * 1000000) - last) with (now - last + (50 - q) * 1000000) by lia.
    rewrite Z.div_add by lia. fold q. lia.
Qed.

(** An announcement never names the unspecified address as the place to measure
    at, and keeps everything else of the state. *)
Theorem announced_endpoint_usable state registration local_addr :
  (forall entry, registration = Some entry -> is_unspecified (if_addr (identity entry)) = false) ->
  let a := announced_state state registration local_addr in
  peer_node_state a = peer_node_state state /\ audio_endpoint a = audio_endpoint state /\
  (forall e, measurement_endpoint a = Some e -> is_unspecified (ip e) = false) /\
  (measurement_endpoint state = None -> measurement_endpoint a = None).
Proof.
  intros R a. unfold a, announced_state, advertise_endpoint_for.
  destruct (match registration with Some entry => measurement_responder entry | None => false end && _) eqn:M.
  - simpl. repeat split.
    + intros e. destruct local_addr as [l|]; [|discriminate]. destruct (is_unspecified (ip l)) eqn:U; [discriminate|].
      now intros [= <-].
    + intros E. rewrite E in M. rewrite bool_decide_false in M by (intros []; discriminate). now rewrite andb_false_r in M.
  - clear M. destruct (measurement_endpoint state) as [e|] eqn:E; [|repeat split; [congruence|auto]].
    destruct (is_unspecified (ip e)) eqn:U; cbn [negb]; [|repeat split; [congruence|congruence]].
    simpl. repeat split; [|discriminate]. intros x. destruct registration as [entry|]; simpl.
    + intros [= <-]. now apply R.
    + destruct local_addr as [l|]; [|discriminate]. destruct (is_unspecified (ip l)) eqn:U2; [discriminate|].
      now intros [= <-].
Qed.

End Pace.
