(* ===== verification/Discovery.v ===== *)
(** Discovery from end to end: a node's announcement on its way through
    src/src/discovery/messenger.rs, src/src/discovery/gateway.rs and
    src/src/discovery/peers.rs of another node. *)

From stdpp Require Import base list numbers strings gmap relations.
From Stdlib Require Import ZArith Lia SpecFloat.
From S2P Require Import Prelude Chrono F64 Encoding Beats Tempo Timeline GhostXForm Entries Payload Messages Sessions Peers Gateway Collections NetworkScan Interfaces Routes Messenger.

Section Discovery.
Context `{Laws : ChronoLaws, FD : FloatDecode, HO : HashOrder}.

(** ** What another node hears of a state *)

Definition peer_state_ok (st : PeerState) : Prop :=
  length (state_ident st) = 8%nat /\ bytes_ok (state_ident st) /\ Forall entry_ok (payload_of_peer_state st).

Definition heard_measurement (e : option SocketAddrV4) : option SocketAddrV4 :=
  let! a := e in me_endpoint (wire_norm measurement_endpoint_wire (MkMeasurementEndpoint (Some a))).
Definition heard_audio (e : option SocketAddrV4) : option SocketAddrV4 :=
  let! a := e in ae_endpoint (wire_norm audio_endpoint_wire (MkAudioEndpoint (Some a))).

(** The state with what the wire does not carry rounded off. *)
Definition heard_state (st : PeerState) : PeerState :=
  MkPeerState
    (MkNodeState (state_ident st)
       (member_session_id (wire_norm membership_wire (MkMembership (state_session_id st))))
       (wire_norm timeline_wire (peer_timeline st)) (wire_norm start_stop_wire (peer_start_stop st)))
    (heard_measurement (measurement_endpoint st)) (heard_audio (audio_endpoint st)).

Definition message_of (st : PeerState) (t : Z) : PeerStateMessage :=
  MkPeerMessage (peer_node_state st) t (measurement_endpoint st) (audio_endpoint st).

Lemma heard_event st now mt t g buf :
  parse_payload buf = Some (Ok (map entry_norm (payload_of_peer_state st))) ->
  peer_state_event now (MkHeader mt t g (state_ident st)) buf =
  Some (MkAnnouncement (message_of (heard_state st) t) (Some (now + secs t))).
Proof.
  intros E. unfold peer_state_event. rewrite E. cbn [header_ident ttl]. do 2 f_equal.
  unfold message_of, heard_state, heard_measurement, heard_audio, payload_of_peer_state, payload_of_node_state, find_map.
  cbn [peer_node_state measurement_endpoint audio_endpoint].
  destruct (measurement_endpoint st) as [me|], (audio_endpoint st) as [ae|];
    cbn -[wire_norm timeline_wire membership_wire start_stop_wire measurement_endpoint_wire audio_endpoint_wire];
    try destruct (me_endpoint _); try destruct (ae_endpoint _); reflexivity.
Qed.

Lemma discovery_not_ping b h : parse_message_header b = Ok h -> starts_with b PING_PROTOCOL_HEADER = false.
Proof.
  unfold parse_message_header. destruct (length b <? _)%nat; [discriminate|].
  unfold starts_with. case_bool_decide as E; [|discriminate]. intros _. apply bool_decide_eq_false.
  change (length PING_PROTOCOL_HEADER) with (length PROTOCOL_HEADER). rewrite E. discriminate.
Qed.

(** A peer state always fits a datagram. *)
Lemma peer_state_fits st : peer_state_ok st -> fits_message 20 (payload_of_peer_state st).
Proof.
  intros (_ & _ & F). split; [exact F|].
  assert (forall p, Forall entry_ok p -> Z.of_nat (length (concat (map entry_bytes p))) =
    fold_right (fun e s => 8 + entry_size e + s) 0 p) as L.
  { induction 1 as [|e p He _ IH]; [reflexivity|]. cbn [map concat fold_right]. rewrite length_app, Nat2Z.inj_add, IH.
    rewrite (entry_bytes_length e He). lia. }
  specialize (L _ F). unfold payload_of_peer_state, payload_of_node_state in *.
  destruct (measurement_endpoint st), (audio_endpoint st); cbn [app fold_right entry_size] in *;
    unfold TIMELINE_SIZE, SESSION_MEMBERSHIP_SIZE, START_STOP_STATE_SIZE, MEASUREMENT_ENDPOINT_V4_SIZE, AUDIO_ENDPOINT_V4_SIZE in L; lia.
Qed.

(** ** The announcement arrives *)

(** C6 An announcement arrives: the state a node announces always encodes; and
    when another node that is enabled receives the datagram on a registered
    interface whose queue has room and nothing waiting, and each wait ends before
    the announcement expires, then its messenger delivers the announcement, as a
    current observation; its gateway arms the announcer's deadline and publishes
    the announcement; and its registry then holds the announced state, as the
    wire carries it, as its one entry of that node. *)
Theorem announcement_reaches_registry st mt t grp :
  peer_state_ok st -> mt = ALIVE \/ mt = RESPONSE -> 0 < t < 256 -> 0 <= grp < 65536 ->
  exists b, encode_message (state_ident st) t mt (payload_of_peer_state st) grp = Ok b /\
  forall c s loop entry epoch epoch2 now0 now1 now2 now3 now4 g now5 slot_at commit_at o now6 now7 now8,
  let expires := rx_clock s + secs t in
  messenger_ok s -> handoffs s !! loop = Some [] -> taken s !! loop = None ->
  enabled c = true -> state_ident (own_state c) <> state_ident st -> while_current (ifs s) epoch2 entry = true ->
  now1 < expires -> now3 < expires -> slot_at < expires -> commit_at < expires ->
  now6 < expires -> now7 < expires -> now8 < expires ->
  peers_ok (state_ident (own_state c)) (peers (registry o)) ->
  let m := MkAnnouncement (message_of (heard_state st) t) (Some expires) in
  let s2 := delivery_commit epoch2 epoch now3 now4 loop
              (delivery_take loop (observe_discovery_guarded c epoch now0 now1 now2 loop b (Some entry) s)) in
  let g2 := on_peer_state m now5 RvSlot slot_at (Some (commit_at, true)) g in
  let o2 := observer_event (own_state c) now6 now7 now8 true o (Observed m) in
  (exists rev, tx_event s2 = tx_event s ++ [(rev, m)] /\ observation_current (ifs s2) epoch2 entry rev (revs s2) = true) /\
  (Z.min expires (commit_at + secs 3), state_ident st) ∈ peer_timeouts g2 /\ sent g2 = sent g ++ [Observed m] /\
  MkPeer (heard_state st) ∈ peers (registry o2) /\
  (forall p, p ∈ peers (registry o2) -> peer_ident p = state_ident st -> p = MkPeer (heard_state st)).
Proof.
  intros Hst Hmt Ht Hg.
  assert (message_ok (state_ident st) t mt grp) as Hm.
  { destruct Hst as (H1 & H2 & _). repeat split; try assumption; unfold in_u8, in_u16, ALIVE, RESPONSE in *; lia. }
  destruct (discovery_message_reads _ t mt _ grp Hm (peer_state_fits st Hst)) as (b & Enc & _ & Ph & Pp).
  exists b. split; [exact Enc|]. intros c s loop entry epoch epoch2 now0 now1 now2 now3 now4 g now5 slot_at commit_at o now6 now7 now8 expires.
  intros Ok Hq Htk En Ne Cur L1 L3 Ls Lc L6 L7 L8 Po m s2 g2 o2.
  assert (observe_discovery_guarded c epoch now0 now1 now2 loop b (Some entry) s =
    queue_peer_state_guarded epoch now0 now1 now2 loop (MkHeader mt t grp (state_ident st)) (drop 20 b) entry s) as Eo.
  { unfold observe_discovery_guarded. rewrite Ph.
    assert (starts_with b PING_PROTOCOL_HEADER = false) as -> by (apply (discovery_not_ping _ _ Ph)).
    cbn [message_type header_ident group_id]. rewrite bool_decide_false by exact Ne. rewrite En.
    destruct Hmt as [->| ->]; reflexivity. }
  pose proof (heard_event st now0 mt t grp (drop 20 b) Pp) as Hev.
  destruct (queue_admits epoch now0 now1 now2 loop _ _ entry s _ [] Ok Hev (proj1 Ht) Hq ltac:(simpl; unfold DISCOVERY_HANDOFF_CAPACITY; lia) L1)
    as (Q1 & Q2 & Q3 & Q4 & Q5). cbn [message ttl app] in Q1. fold expires in Q1. fold m in Q1.
  clearbody expires.
  split.
  { exists (next_rev (revs s)). subst s2. rewrite Eo. set (s1 := queue_peer_state_guarded _ _ _ _ _ _ _ _ _) in *.
    assert (delivery_take loop s1 = with_queues (<[loop := []]> (handoffs s1))
      (<[loop := MkEvent m entry (rx_clock s) (next_rev (revs s))]> (taken s1)) s1) as ->.
    { unfold delivery_take. now rewrite Q2, Htk, Q1. }
    assert (observation_current (ifs s1) epoch2 entry (next_rev (revs s)) (revs s1) = true) as Oc.
    { unfold observation_current. now rewrite Q4, Cur, Q5. }
    unfold delivery_commit. cbn [taken with_queues]. rewrite lookup_insert_eq. cbn [ifs ev_ingress ev_revision revs with_queues event].
    rewrite Oc. cbn [negb]. change (event_expires (MkEvent m entry (rx_clock s) (next_rev (revs s)))) with expires.
    replace (expires <=? now3) with false by lia. rewrite andb_false_r. cbn [tx_event ifs revs with_queues].
    rewrite Q3. split; [reflexivity|exact Oc]. }
  split; [|split].
  1-2: subst g2; unfold on_peer_state, announcement_deadline, publish; change (msg_ttl (message m)) with t;
    change (Gateway.expires_at m) with (Some expires); change (announcer m) with (state_ident st); cbn [Gateway.clock at_time];
    replace (expires <=? slot_at) with false by lia; replace (expires <=? commit_at) with false by lia;
    rewrite !andb_false_r; replace (t =? 0) with false by lia;
    first [reflexivity|apply insert_forget_spec; now left].
  subst o2. unfold observer_event, observed_peer. rewrite !with_observer_peers. cbn [message m message_of msg_ttl msg_node_state msg_measurement_endpoint msg_audio_endpoint].
  unfold announcement_deadline. cbn [Gateway.expires_at m].
  replace (expires <=? now6) with false by lia. replace (expires <=? now7) with false by lia. rewrite !andb_false_r. cbn [negb].
  replace (t =? 0) with false by lia.
  assert (expired (Some expires) now8 = false) as X by (simpl; lia).
  destruct (apply_peer_lookup (heard_state st) (peers (registry o)) (own_state c) (Some expires) now8 Po (fun E => Ne (eq_sym E)) X) as (A & B & _).
  split; [exact B|]. intros p Hp Ep. now apply A.
Qed.

End Discovery.
