(* ===== verification/Witnesses.v ===== *)
(** The theorems at concrete inputs.

    Every theorem with hypotheses is applied here to a concrete node: the
    durations of [chrono_ref], the decoder [float_decode_ref], a controller
    started at five seconds with 120 beats per minute, and small messages,
    peers and schedules around it.  The hypotheses are checked by evaluating
    the definitions, which shows that they can hold. *)

From stdpp Require Import base list numbers strings relations.
From Stdlib Require Import ZArith Lia SpecFloat.
From S2P Require Import Prelude Chrono F64 Encoding Beats Tempo Timeline GhostXForm TimelineSync Phase Entries Payload Messages Measurement Sessions Peers SessionApi RtQueue RtAccepted Controller BasicLink.

(** Closed comparisons and equations, by evaluation. *)
Ltac calc :=
  unfold Timeline_ok, Beats_ok, valid_f64, in_i64, in_i128, in_u8, in_u16, in_u32;
  repeat match goal with |- _ /\ _ => split end;
  lazymatch goal with
  | |- (_ <= _)%Z => apply Z.leb_le
  | |- (_ < _)%Z => apply Z.ltb_lt
  | |- (_ <> _ :> Z) => apply Z.eqb_neq
  | |- _ => idtac
  end;
  match goal with |- _ = ?b => vm_cast_no_check (eq_refl b) end.

(** ** A node *)

Definition at_nanos (n : Z) : @Duration chrono_ref := ChronoRef.mk n.

Definition seconds (s : Z) : @Duration chrono_ref := at_nanos (s * 1000000000).

Definition tempo_120 : Tempo := MkTempo (f64_of_int 120).
Definition tempo_90 : Tempo := MkTempo (f64_of_int 90).

Definition node_a : NodeId := [1; 2; 3; 4; 5; 6; 7; 8].
Definition node_b : NodeId := [8; 7; 6; 5; 4; 3; 2; 1].

Definition beats (n : Z) : Beats := MkBeats (n * 1000000).

Definition line_120 : Timeline := MkTimeline tempo_120 (beats 3) (seconds 1).
Definition line_90 : Timeline := MkTimeline tempo_90 (beats 8) (seconds 2).

(** Slope one, and a slope slightly above it. *)
Definition form_one : GhostXForm := MkXForm f64_one (seconds 2).
Definition form_fast : GhostXForm := MkXForm (f64_div (f64_of_int 10001) (f64_of_int 10000)) (seconds 2).

(** ** Arithmetic *)

Lemma microbeats_from_nanos_exact_witness :
  microbeats_from_nanos tempo_120 i128_MAX =
  clamp_i128 (rdiv (i128_MAX * 1000) (period_micros tempo_120)).
Proof. apply (microbeats_from_nanos_exact tempo_120 i128_MAX); calc. Defined.

Lemma to_beats_from_beats_witness : to_beats line_120 (from_beats line_120 (beats 11)) = beats 11.
Proof. apply (to_beats_from_beats line_120 (beats 11)); calc. Defined.

Lemma clamp_tempo_period_witness :
  60060 <= period_micros (tempo (clamp_tempo (MkTimeline (MkTempo (S754_infinity false)) (beats 0) (seconds 0)))).
Proof.
  apply (clamp_tempo_period (MkTimeline (MkTempo (S754_infinity false)) (beats 0) (seconds 0))). calc.
Defined.

Lemma host_to_ghost_wide_exact_witness :
  host_to_ghost_wide_nanos form_fast (seconds 7) =
  clamp_i128 (1 * scale_round (7000000000 * 4504049987333233) (-52) + 2000000000).
Proof.
  apply (host_to_ghost_wide_exact form_fast (seconds 7) 4504049987333233 (-52) 1); calc.
Defined.

Lemma ghost_nanos_to_host_units_exact_witness :
  ghost_nanos_to_host_units form_fast 9000000000 1 =
  Ok (duration_from_nanos (1 * (ratio_round 7000000000 (4504049987333233 * 1) (-52) * 1))).
Proof.
  apply (ghost_nanos_to_host_units_exact form_fast 9000000000 1 4504049987333233 (-52) 1); [calc|calc|calc|calc|now left|calc].
Defined.

Lemma ghost_round_trip_witness :
  exists h', checked_ghost_nanos_to_host form_fast (host_to_ghost_wide_nanos form_fast (seconds 7)) = Some h' /\
  Z.abs (duration_nanos h' - duration_nanos (seconds 7)) <= 1.
Proof.
  destruct (ghost_round_trip form_fast (seconds 7) 4504049987333233 (-52) 1) as (h' & E & L & _); [calc..|].
  exists h'. split; [exact E|exact L].
Defined.

(** ** Timelines and phases *)

Definition unwrap_ok {A E} (r : result A E) (d : A) : A := match r with Ok a => a | Err _ => d end.

Definition edited_line : Timeline :=
  unwrap_ok (update_session_timeline_from_client line_120 line_90 (seconds 3) form_one) line_120.

Lemma update_session_timeline_ok_witness :
  nanos_at_microbeats edited_line 0 = host_to_ghost_wide_nanos form_one (time_origin line_90) /\
  Beats_ok (beat_origin edited_line).
Proof.
  destruct (update_session_timeline_ok line_120 line_90 (seconds 3) form_one edited_line) as (E1 & E2 & _);
    [calc..|]. split; [exact E1|exact E2].
Defined.

Definition line_full : Timeline := MkTimeline tempo_120 (MkBeats i64_MAX) (seconds 1).

Lemma update_session_timeline_err_witness :
  TimelineOriginExhausted = TimelineOriginExhausted /\
  (Beats_value (beat_origin line_full) = i64_MAX \/
   fits_duration (edited_time line_90 (host_to_ghost_wide_nanos form_one (time_origin line_90))
                    (edited_beat line_full (host_to_ghost_wide_nanos form_one (seconds 3)))) = false).
Proof. apply (update_session_timeline_err line_full line_90 (seconds 3) form_one); calc. Defined.

Definition followed : bool :=
  match update_client_timeline_from_session line_120 line_90 (seconds 4) form_one with
  | Ok _ => true | Err _ => false end.

Lemma update_client_timeline_spec_witness :
  followed = true /\
  match update_client_timeline_from_session line_120 line_90 (seconds 4) form_one with
  | Ok tl => tempo tl = tempo_90 /\ microbeats_at tl (seconds 4) = microbeats_at line_120 (seconds 4)
  | Err e => e = TimelineOriginExhausted
  end.
Proof.
  split; [calc|].
  pose proof (update_client_timeline_spec line_120 line_90 (seconds 4) form_one ltac:(calc)) as E.
  cbv zeta in E. destruct (update_client_timeline_from_session _ _ _ _) as [tl|e]; apply E.
Defined.

Lemma next_phase_match_least_witness :
  4000000 <= Beats_value (next_phase_match (MkBeats 4100000) (MkBeats 300000) (beats 4)).
Proof.
  pose proof (next_phase_match_least (MkBeats 4100000) (MkBeats 300000) (beats 4)) as E.
  destruct E as (_ & E & _); [calc..|]. cbn [Beats_value] in E. lia.
Defined.

Lemma closest_phase_match_nearest_witness :
  same_phase 4000000 (Beats_value (closest_phase_match (MkBeats 4100000) (MkBeats 300000) (beats 4))) 300000.
Proof. apply (closest_phase_match_nearest (MkBeats 4100000) (MkBeats 300000) (beats 4)); calc. Defined.

Lemma phase_encoding_round_trip_witness :
  to_phase_encoded_beats line_120 (from_phase_encoded_beats line_120 (beats 9) (beats 4)) (beats 4) = beats 9.
Proof. apply (phase_encoding_round_trip line_120 (beats 9) (beats 4)); calc. Defined.

(** Half a microsecond per beat, a quantum of three microbeats, and a timeline
    that puts microbeat five a nanosecond after its origin. *)
Definition tempo_fast : Tempo := MkTempo (f64_of_int 120000).
Definition line_fast : Timeline := MkTimeline tempo_fast (MkBeats 0) (seconds 1).
Definition line_other : Timeline := MkTimeline tempo_fast (MkBeats 3) (at_nanos 29999999999).

Lemma force_beat_at_time_exact_witness :
  (let tl := force_beat_at_time_impl line_120 (beats 9) (seconds 30) (beats 4) in
   to_phase_encoded_microbeats tl (seconds 30) (beats 4) = 9000000 /\ tempo tl = tempo_120) /\
  to_phase_encoded_microbeats (force_beat_at_time_impl line_fast (MkBeats 5) (seconds 30) (MkBeats 3)) (seconds 30) (MkBeats 3) = 5.
Proof.
  split.
  - destruct (force_beat_at_time_exact line_120 (beats 9) (seconds 30) (beats 4)) as (T & E & _); [calc..|].
    split; [apply E; calc|exact T].
  - destruct (force_beat_at_time_exact line_fast (MkBeats 5) (seconds 30) (MkBeats 3)) as (_ & _ & E); [calc..|].
    apply E; [calc|]. exists line_other. split; [reflexivity|]. split; calc.
Defined.

(** ** Messages *)

Definition payload_1 : Payload :=
  [ETimeline line_120; ESessionMembership (MkMembership (MkSessionId node_a));
   EStartStopState (MkStartStop true (beats 2) (seconds 1));
   EMeasurementEndpointV4 (MkMeasurementEndpoint (Some (MkAddr (MkIpv4 192 168 0 7) 20808)));
   EHostTime (MkHostTime (at_nanos 1234567890))].

Lemma payload_1_ok : Forall entry_ok payload_1.
Proof.
  repeat (constructor; [|]); try constructor; vm_compute; repeat constructor; try discriminate; eauto.
Defined.

Lemma payload_round_trip_witness :
  exists b, payload_encode payload_1 = Ok b /\ Z.of_nat (length b) = payload_size payload_1 /\
  parse_payload (b ++ [0; 0; 0]) = Some (Ok (map entry_norm payload_1)).
Proof. apply (payload_round_trip payload_1 [0; 0; 0]); [exact payload_1_ok|cbn; lia|calc]. Defined.

Definition unknown_header : PayloadEntryHeader := {| key := 305419896; size := 3 |}.

Lemma payload_decode_skips_witness :
  payload_decode [] (wire_bytes header_wire unknown_header ++ [1; 2; 3] ++ [9; 9]) = payload_decode [] [9; 9].
Proof.
  apply (payload_decode_skips [] unknown_header [1; 2; 3] [9; 9]); [calc|calc|calc|].
  apply (bool_decide_eq_false _). calc.
Defined.

Lemma payload_decode_rejects_witness :
  payload_decode [] (wire_bytes header_wire {| key := TIMELINE_HEADER_KEY; size := 24 |} ++ [1; 2; 3]) =
  Some ([], Err (Protocol "truncated payload entry"%string)).
Proof.
  apply (payload_decode_rejects [] {| key := TIMELINE_HEADER_KEY; size := 24 |} [1; 2; 3]); calc.
Defined.

Lemma discovery_message_round_trip_witness :
  exists b, encode_message node_a 5 ALIVE payload_1 0 = Ok b /\ Z.of_nat (length b) <= MAX_MESSAGE_SIZE /\
  parse_message_header b = Ok (MkHeader ALIVE 5 0 node_a, 20%nat) /\
  parse_payload (drop 20 b) = Some (Ok (map entry_norm payload_1)).
Proof.
  apply (discovery_message_round_trip node_a 5 ALIVE payload_1 0).
  - repeat split; try discriminate. repeat constructor; discriminate.
  - split; [exact payload_1_ok|]. vm_compute. lia.
Defined.

Definition responder_1 : PingResponder := MkResponder (MkSessionId node_a) form_one false.

Definition ping_1 : Payload := first_ping (at_nanos 4000000).
Definition ping_1_bytes : bytes := concat (map entry_bytes ping_1).

Lemma pong_answers_ping_witness :
  exists b, fst (pong_message responder_1 (seconds 9) true true (PING_PROTOCOL_HEADER ++ PING :: ping_1_bytes)) = Some b.
Proof.
  destruct (pong_answers_ping responder_1 (seconds 9) ping_1_bytes ping_1) as (b & B & _).
  - split; [reflexivity|]. repeat constructor; discriminate.
  - vm_compute. repeat constructor; discriminate.
  - vm_compute. lia.
  - calc.
  - now exists b.
Defined.

(** ** Measurement *)

Lemma second_sample_never_taken_witness :
  pf_prev_ghost_time (pong_fields (reply_payload responder_1 (seconds 9)
    (followup_ping (seconds 3) (prev_ghost (reply_payload responder_1 (seconds 8) ping_1))))) = Duration_zero.
Proof.
  apply (second_sample_never_taken responder_1
           (followup_ping (seconds 3) (prev_ghost (reply_payload responder_1 (seconds 8) ping_1)))
           (seconds 9) (seconds 4)).
  apply round_next, round_first.
Defined.

(** ** Peers and sessions *)

Definition node_state (id : NodeId) (session : SessionId) : NodeState :=
  MkNodeState id session line_120 StartStopState_default.

Definition peer_b : PeerState := MkPeerState (node_state node_b (MkSessionId node_b)) None None.
Definition self_a : PeerState := MkPeerState (node_state node_a (MkSessionId node_a)) None None.

Definition session_a : Session :=
  MkSession 0 (Some 1) (MkSessionId node_a) line_120 (MkMeasurement form_one (seconds 1)).
Definition session_b : Session :=
  MkSession 1 (Some 2) (MkSessionId node_b) line_90 (MkMeasurement (MkXForm f64_one (seconds 9)) (seconds 1)).

Definition registry_a : Registry :=
  MkRegistry session_a [session_b] [MkPeer peer_b] false (MkSupply 2 3) [] [].

Definition observer_a : Observer := MkObserver registry_a [].

Lemma observer_keeps_unique_peers_witness :
  peers_ok (state_ident self_a) (peers (registry (saw_peer observer_a peer_b self_a 0))).
Proof.
  apply (observer_keeps_unique_peers self_a observer_a).
  - split; vm_compute; [repeat constructor; set_solver|set_solver].
  - apply rtc_once, obs_saw.
Defined.

Definition origin_a : SessionEditOrigin := MkOrigin (MkSessionId node_a) 1 line_120 form_one.

Lemma captured_edit_is_current_witness :
  incarnation (current (observe_peers registry_a [])) = 0.
Proof.
  destruct (captured_edit_is_current registry_a (observe_peers registry_a []) origin_a) as (E & _).
  - intros r [= <-]. calc.
  - reflexivity.
  - apply rtc_once, step_observe.
  - calc.
  - exact E.
Defined.

Lemma sighting_adopts_later_origin_witness :
  let '(r, g') := try_sighting registry_a (MkSessionId node_a) line_90 false in
  has_joined g' = true /\ incarnation (current g') = 0.
Proof.
  pose proof (sighting_adopts_later_origin registry_a (MkSessionId node_a) line_90 false eq_refl) as E.
  destruct (try_sighting _ _ _ _) as [r g']. split; apply E.
Defined.

Lemma measurement_wins_asymmetric_witness :
  measurement_wins session_b (session_id session_a) (measurement session_a) (seconds 3) = false.
Proof. apply (measurement_wins_asymmetric session_a session_b (seconds 3)). calc. Defined.

(** ** The client API *)

Definition api_1 : ApiSessionState :=
  ApiSessionState_new (MkApiState line_120 (MkSessionId node_a) ApiStartStopState_default) true.

Lemma set_tempo_keeps_beat_witness :
  microbeats_at (api_timeline (api_state (set_tempo api_1 (f64_of_int 90) (seconds 6)))) (seconds 6) =
  microbeats_at line_120 (seconds 6).
Proof. apply (set_tempo_keeps_beat api_1 (f64_of_int 90) (seconds 6)); calc. Defined.

(** ** The audio thread's queue *)

Definition edit_1 : IncomingClientState :=
  MkIncoming (Some line_90) (Some (MkClientStartStop true (seconds 6) (seconds 6))) (seconds 6).

Definition queue_0 : RtQueue := (RtQueue_new (MkSupply 0 1)).1.
Definition queue_1 : RtQueue := (update_rt_client_state queue_0 true edit_1).2.
Definition ticket_1 : AudioCommitTicket := MkTicket 1 1.
Definition queue_2 : RtQueue := (complete_pending_update queue_1 ticket_1 (Ok tt)).2.

Lemma commit_result_delivered_once_witness :
  fst (take_commit_result (snd (take_commit_result queue_2 true ticket_1)) true ticket_1) <> Ok (Some (Ok tt)).
Proof.
  apply (commit_result_delivered_once queue_2 true ticket_1 (Ok tt)); [reflexivity|apply rtc_refl].
Defined.

Lemma proposal_is_never_lost_witness :
  pending_update_from_origin (snd (take_commit_result queue_1 true ticket_1)) = Some (ticket_1, edit_1, None) \/
  (exists r, completed ticket_1 r (snd (take_commit_result queue_1 true ticket_1)) /\
     fst (take_commit_result (snd (take_commit_result queue_1 true ticket_1)) true ticket_1) = Ok (Some r)) \/
  spent ticket_1 (snd (take_commit_result queue_1 true ticket_1)).
Proof.
  apply (proposal_is_never_lost queue_0 true edit_1 None ticket_1); [reflexivity|].
  apply rtc_once, q_take.
Defined.

(** ** The accepted state: one thread publishes while another captures *)

Definition threads (p q : pc) : list (@pc Z) := [p; q].

(** The first or the second of two threads takes a step. *)
Lemma step_first (s s' : @Accepted Z) p q p' :
  thread_step s [q] p s' p' -> accepted_step (s, threads p q) (s', threads p' q).
Proof. exact (step_thread s s' [] p [q] p'). Defined.

Lemma step_second (s s' : @Accepted Z) p q q' :
  thread_step s [p] q s' q' -> accepted_step (s, threads p q) (s', threads p q').
Proof. exact (step_thread s s' [p] q [] q'). Defined.

(** The writer has the other slot locked while the reader is about to read. *)
Definition accepted_pinned : @Accepted Z := MkAccepted 7 7 false 1 (Some 8) [7].

Lemma schedule_mid :
  rtc accepted_step (Accepted_new 7, repeat Idle 2) (accepted_pinned, threads (FlushWrite ThenPublished 8 true) (ReadSlot false)).
Proof.
  change (repeat Idle 2) with (threads Idle Idle).
  eapply rtc_l; [apply step_first, (t_publish _ _ 8)|].
  eapply rtc_l; [apply step_first, t_publish_lock; reflexivity|].
  eapply rtc_l; [apply step_second, t_read|].
  eapply rtc_l; [apply step_second, t_read_locked; reflexivity|].
  eapply rtc_l; [apply step_first, t_flush_unpinned; reflexivity|].
  eapply rtc_l; [apply step_first, t_flush_next|].
  eapply rtc_l; [apply step_second, t_read_load; reflexivity|].
  eapply rtc_l; [apply step_second, t_read_pin; reflexivity|].
  eapply rtc_l; [apply step_second, t_read_published|].
  eapply rtc_l; [apply step_first, t_flush_lock; reflexivity|].
  apply rtc_refl.
Defined.

Lemma capture_never_unreachable_witness :
  Unreachable ∉ threads (FlushWrite ThenPublished 8 true) (ReadSlot false).
Proof. apply (capture_never_unreachable 7 2 accepted_pinned), schedule_mid. Defined.

Lemma capture_returns_published_witness : 7 ∈ history accepted_pinned.
Proof.
  apply (capture_returns_published 7 2 accepted_pinned (threads (FlushWrite ThenPublished 8 true) (ReadUnpin 7))).
  - eapply rtc_r; [eapply rtc_r; [exact schedule_mid|]|].
    + apply step_second, t_read_slot. reflexivity.
    + apply step_second. exact (t_read_copy accepted_pinned _ false).
  - unfold threads. set_solver.
Defined.

(** ** The controller *)

Definition supply_0 : Supply := MkSupply 0 1.
Definition commit_0 : SessionCommit := Controller_new tempo_120 (seconds 5) (seconds 5) node_a supply_0.

(** The same node with playback shared. *)
Definition commit_1 : SessionCommit := enable_start_stop_sync commit_0 true.

Lemma commit_1_reached : rtc commit_step commit_0 commit_1.
Proof. apply rtc_once, StepSync. Defined.

Lemma commit_1_coherent : coherent commit_1.
Proof. eapply commit_step_coherent; [apply StepSync|apply Controller_new_coherent]. Defined.

Definition origin_0 : SessionEditOrigin :=
  default origin_a (edit_origin (c_current commit_1)).

(** Its client edits the tempo and starts playback. *)
Definition commit_2 : SessionCommit := (client_edit_from_origin commit_1 edit_1 (seconds 6) (Some origin_0)).2.

Definition is_complete (r : ClientCommit) : bool := match r with CommitComplete _ => true | _ => false end.

Lemma is_complete_inv r : is_complete r = true -> exists ch, r = CommitComplete ch.
Proof. destruct r; try discriminate. eauto. Defined.

Lemma commit_2_complete :
  exists ch, client_edit_from_origin commit_1 edit_1 (seconds 6) (Some origin_0) = (CommitComplete ch, commit_2).
Proof.
  destruct (is_complete_inv (client_edit_from_origin commit_1 edit_1 (seconds 6) (Some origin_0)).1) as [ch E].
  - calc.
  - exists ch. unfold commit_2. rewrite <- E. apply surjective_pairing.
Defined.

Lemma published_snapshot_coherent_witness : coherent commit_2.
Proof.
  apply (published_snapshot_coherent tempo_120 (seconds 5) (seconds 5) node_a supply_0).
  eapply rtc_r; [exact commit_1_reached|]. apply StepEdit.
Defined.

Lemma captured_edit_applies_once_witness :
  client_edit_from_origin (refresh_timing commit_2 (seconds 7)).2 edit_1 (seconds 8) (Some origin_0) =
  (Rejected StaleClientState, (refresh_timing commit_2 (seconds 7)).2).
Proof.
  destruct commit_2_complete as [ch E].
  apply (captured_edit_applies_once commit_1 edit_1 (seconds 6) origin_0 ch commit_2).
  - eapply revisions_below_steps; [exact commit_1_reached|apply Controller_new_revisions].
  - left. discriminate.
  - exact E.
  - apply rtc_once, StepRefresh.
Defined.

Lemma accepted_edit_reaches_session_witness :
  session_timeline (c_session commit_2) = timeline (c_current commit_2).
Proof.
  destruct commit_2_complete as [ch E].
  destruct (accepted_edit_reaches_session commit_1 edit_1 (seconds 6) (Some origin_0) ch commit_2 line_90
    commit_1_coherent eq_refl E) as (target & _ & T1 & T2 & _). now rewrite T1, T2.
Defined.

Lemma playback_timestamp_advances_witness :
  session_start_stop (c_session commit_2) = session_start_stop (c_session commit_1) \/
  duration_nanos (ss_timestamp (session_start_stop (c_session commit_1))) <
  duration_nanos (ss_timestamp (session_start_stop (c_session commit_2))).
Proof.
  destruct commit_2_complete as [ch E].
  exact (playback_timestamp_advances commit_1 edit_1 (seconds 6) (Some origin_0) (MkSessionId node_a) line_120
    StartStopState_default (seconds 6) (seconds 6) (CommitComplete ch) commit_2 (or_introl E)).
Defined.

Lemma captured_edit_is_decided_witness :
  (client_edit_from_origin commit_1 edit_1 (seconds 6) (Some origin_0)).1 <> WaitingForPublication.
Proof.
  refine (proj1 (captured_edit_is_decided commit_1 (c_client commit_1) origin_0 edit_1 (seconds 6)
    commit_1_coherent _)). calc.
Defined.

(** An edit made from a capture that was never taken is refused. *)
Lemma refused_commit_changes_nothing_witness :
  (client_edit_from_origin commit_1 edit_1 (seconds 6) (Some origin_a)).2 = commit_1.
Proof.
  apply (refused_commit_changes_nothing commit_1 edit_1 (seconds 6) (Some origin_a) (MkSessionId node_a)
    line_120 StartStopState_default (seconds 6) (seconds 6) (Rejected StaleClientState)); [left|discriminate].
  calc.
Defined.

(** A node that leaves its session at nine seconds. *)
Definition reset_2 := reset commit_2 (seconds 9) (seconds 9) node_b.

Definition is_ok {A E} (r : result A E) : bool := match r with Ok _ => true | Err _ => false end.

Lemma reset_keeps_beat_witness :
  to_beats (session_timeline (c_session reset_2.2)) (host_to_ghost_nanos (ghost_x_form (c_session reset_2.2)) (seconds 9)) =
  to_beats (session_timeline (c_session commit_2)) (host_to_ghost_nanos (ghost_x_form (c_session commit_2)) (seconds 9)).
Proof.
  assert (is_ok reset_2.1 = true) as R by calc. destruct reset_2.1 as [ch|e] eqn:E; [|discriminate R].
  refine (proj1 (reset_keeps_beat commit_2 (seconds 9) (seconds 9) node_b ch reset_2.2 _ _)).
  - eapply commit_step_coherent; [apply StepEdit|exact commit_1_coherent].
  - rewrite <- E. apply surjective_pairing.
Defined.

(** A session whose time origin is not a number of microseconds cannot be
    joined. *)
Definition session_far : Session :=
  MkSession 0 (Some 1) (MkSessionId node_a)
    (MkTimeline tempo_120 (beats 0) (at_nanos max_nanos)) (MkMeasurement form_one (seconds 1)).

Definition commit_far : SessionCommit := with_registry commit_1 session_far [] [] supply_0.
Definition join_far := join commit_far session_far (seconds 6) (seconds 6) node_b.

Lemma rejected_timing_restores_published_witness :
  c_current join_far.2 = c_published commit_far.
Proof.
  assert (is_ok join_far.1 = false) as R by calc. destruct join_far.1 as [ch|e] eqn:E; [discriminate R|].
  refine (proj1 (rejected_timing_restores_published commit_far session_far (seconds 6) (seconds 6) node_b e
    join_far.2 (or_introl _))).
  rewrite <- E. apply surjective_pairing.
Defined.

(** ** The application's link *)

Definition link_0 : BasicLink := BasicLink_new commit_0.

(** The audio thread captures, sets the tempo, and submits the edit. *)
Definition audio_edit : ApiSessionState :=
  set_tempo (capture_audio_session_state (c_client (controller link_0)) 0 (controller link_0) true)
    (f64_of_int 90) (seconds 6).

Definition link_1 : BasicLink := (get_rt_client_state link_0 true true (Ok tt)).2.

(** A first drain is dropped before it decides, a second one goes on, and the
    view is published by the next capture. *)
Definition dropped_and_drained (b : BasicLink) : BasicLink :=
  complete (attempt (start_drain (cancel (start_drain b))) (seconds 7)).
Definition refreshed (b : BasicLink) : BasicLink :=
  (get_rt_client_state (publish (sample b) false) true true (Ok tt)).2.

Definition link_5 : BasicLink :=
  refreshed (dropped_and_drained (commit_audio_session_state link_1 audio_edit (seconds 6) true).2).

Definition link_ticket : AudioCommitTicket :=
  match (commit_audio_session_state link_1 audio_edit (seconds 6) true).1 with Ok t => t | Err _ => MkTicket 0 0 end.

Lemma drained_reached b : rtc link_step b (dropped_and_drained b).
Proof.
  eapply rtc_l; [apply LinkDrain|]. eapply rtc_l; [apply LinkCancel|]. eapply rtc_l; [apply LinkDrain|].
  eapply rtc_l; [apply (LinkAttempt _ (seconds 7))|]. apply rtc_once, LinkComplete.
Defined.

Lemma refreshed_reached b : rtc link_step b (refreshed b).
Proof.
  eapply rtc_l; [apply LinkSample|]. eapply rtc_l; [apply (LinkPublish _ false)|].
  apply rtc_once, (LinkCapture _ true true (Ok tt)).
Defined.

Lemma link_5_reached : rtc link_step link_0 link_5.
Proof.
  eapply rtc_l; [exact (LinkCapture link_0 true true (Ok tt))|].
  eapply rtc_l; [exact (LinkSubmit link_1 audio_edit (seconds 6) true)|].
  etransitivity; [exact (drained_reached _)|exact (refreshed_reached _)].
Defined.

Lemma audio_requests_decided_once_witness :
  exists d, d ∈ decided (past link_5) /\ d_ticket d = link_ticket /\ d_result d = Ok tt.
Proof.
  destruct (audio_requests_decided_once tempo_120 (seconds 5) (seconds 5) node_a supply_0 link_5 link_5_reached)
    as (_ & _ & _ & Read & _).
  apply (Read link_ticket true). calc.
Defined.

Lemma is_some_inv {A} (o : option A) : is_some o = true -> exists v, o = Some v.
Proof. destruct o; [eauto|discriminate]. Defined.

Lemma audio_view_never_goes_back_witness :
  exists v w, captures (past link_5) !! 0%nat = Some v /\ captures (past link_5) !! 1%nat = Some w /\ (v.1 <= w.1)%nat.
Proof.
  destruct (is_some_inv (captures (past link_5) !! 0%nat)) as [v V]; [calc|].
  destruct (is_some_inv (captures (past link_5) !! 1%nat)) as [w W]; [calc|].
  exists v, w. split; [exact V|]. split; [exact W|].
  refine (proj1 (proj1 (proj2 (audio_view_never_goes_back commit_0 link_5 0 1 v w link_5_reached _ V W)))). lia.
Defined.

(** A callback is installed; a commit of the application starts playback, and
    its future is dropped before it can tell the callback. *)
Definition link_6 : BasicLink := set_start_stop_callback link_0 true.
Definition play_edit : ApiSessionState :=
  set_is_playing (capture_app_session_state (controller link_6) 0 true true (c_client commit_0)) true (seconds 6).
Definition link_7 : BasicLink := cancel (attempt (start_app_commit link_6 play_edit (seconds 6)) (seconds 6)).

Lemma link_7_reached : rtc link_step link_0 link_7.
Proof.
  eapply rtc_l; [exact (LinkCallback link_0 true eq_refl eq_refl)|].
  eapply rtc_l; [exact (LinkApp link_6 play_edit (seconds 6))|].
  eapply rtc_l; [exact (LinkAttempt (start_app_commit link_6 play_edit (seconds 6)) (seconds 6))|].
  exact (rtc_once _ _ (LinkCancel _)).
Defined.

Lemma playback_callback_catches_up_witness :
  playback_calls (past (process_audio_session_state_updates link_7 (seconds 7))) = [false; true].
Proof.
  destruct (playback_callback_catches_up commit_0 link_7 (seconds 7) link_7_reached) as [_ Settle].
  destruct Settle as [(t & inc & o & X)|(_ & _ & _ & _ & Calls)]; [calc|calc| |].
  - assert (match non_rt_commit (process_audio_session_state_updates link_7 (seconds 7)) with NoConsumer => true | _ => false end = true)
      as N by calc. rewrite X in N. discriminate N.
  - rewrite Calls. calc.
Defined.

Lemma audio_edit_round_trip_witness :
  exists t b1, commit_audio_session_state link_0 audio_edit (seconds 6) true = (Ok t, b1) /\
  exists r, (take_audio_commit_result (process_audio_session_state_updates b1 (seconds 7)) t true).1 = Ok (Some r).
Proof.
  destruct (audio_edit_round_trip tempo_120 (seconds 5) (seconds 5) node_a supply_0 link_0 (c_client (controller link_0))
    (default origin_a (api_origin audio_edit)) audio_edit (default 0 (queue_id (rt_queue link_0)))
    (seconds 6) (seconds 7) (rtc_refl _ _)) as (t & b1 & E & r & T & _); [calc..|].
  exists t, b1. split; [exact E|]. now exists r.
Defined.
