(* ===== verification/AudioWitnesses.v ===== *)
(** The theorems on Link Audio at concrete inputs: two peers, a channel, a few
    samples, the channels of [mpsc_ref] and the durations of [chrono_ref]. *)

From stdpp Require Import base list numbers strings relations gmap.
From Stdlib Require Import ZArith Lia SpecFloat.
From S2P Require Import SendGate Prelude Chrono F64 Encoding Beats Tempo Timeline Phase Entries AudioQueue AudioStream AudioPayload AudioResizer AudioCodec AudioRegistry AudioSink AudioEngine AudioHandshake AudioLifecycle AudioApi Witnesses.

#[local] Existing Instance mpsc_ref.

(** ** The queue *)

(** A buffer is taken, written, released and delivered. *)
Lemma delivered_run :
  exists tr s, queue_run (queue_init 1 0) tr s /\ tr = [RetainBegin; Retained true; Released 7; Delivered 7].
Proof.
  eexists _, _. split. 1: eapply run_step; [eapply run_step; [eapply run_step; [eapply run_step; [eapply run_step; [eapply run_step;
    [apply run_refl|]|]|]|]|]|].
  - apply w_load; reflexivity.
  - apply (w_take _ 0); reflexivity.
  - apply (w_write _ 7); reflexivity.
  - apply (w_release _ 7); reflexivity.
  - apply r_retain; reflexivity.
  - apply (r_poll _ 0); reflexivity.
  - reflexivity.
Qed.

Lemma queue_refines_witness :
  exists a, spec_run (MkSpec [] SIdle false) [RetainBegin; Retained true; Released 7; Delivered 7] a.
Proof.
  destruct delivered_run as (tr & s & R & ->).
  destruct (queue_refines 1 0 [RetainBegin; Retained true; Released 7; Delivered 7] s R) as (a & Ra & _); [reflexivity|].
  exists a. exact Ra.
Defined.

(** ** Audio *)

Definition samples_4 : list Z := [1; 2; 3; -4].
Definition channel_a : Id := [9; 9; 9; 9; 9; 9; 9; 9].

(** Two stereo frames at beat three of a session at 120 beats per minute. *)
Definition buffer_4 : Buffer := MkBuffer 44100 2 2 samples_4 (beats 3) tempo_120 0 node_a.

Lemma buffer_4_input : stream_input buffer_4.
Proof.
  split; [|repeat constructor; discriminate]. unfold input_ok, stream_format, stream_tempo.
  cbn [buffer_4 buf_num_channels buf_sample_rate buf_session_id buf_num_frames buf_samples buf_begin_beats buf_tempo].
  split; [lia|]. split; [discriminate|]. split; [repeat split; try lia; try (now right); discriminate|].
  split; [lia|]. split; [split; discriminate|]. split; [calc|]. calc.
Qed.

Lemma audio_stream_arrives_witness :
  exists hs, receive [] (map encode_raw (transmit channel_a [buffer_4])) = Some hs /\
    flat_map handle_samples hs = samples_4.
Proof.
  destruct (audio_stream_arrives channel_a [] [buffer_4] eq_refl) as (hs & E & S).
  - apply Forall_cons. split; [exact buffer_4_input|constructor].
  - exists hs. split; [exact E|]. exact S.
Defined.

Lemma audio_packets_fit_witness :
  Forall (fun b => exists m, audio_buffer_message node_a (encode_raw b) = Ok m /\ (length m <= 576)%nat)
    (transmit channel_a [buffer_4]).
Proof.
  apply (audio_packets_fit channel_a node_a [buffer_4] eq_refl); [|reflexivity].
  apply Forall_cons. split; [exact buffer_4_input|constructor].
Defined.

(** A message of one chunk with one stereo frame. *)
Definition message_1 : AudioBuffer := MkAudioBuffer channel_a node_a [MkChunk 1 1 (beats 3) tempo_120] PcmI16 44100 2 [0; 1; 0; 2].

Lemma decoded_buffer_sound_witness : audio_chunks (buffer_norm message_1) <> [].
Proof.
  apply (decoded_buffer_sound (encode_raw message_1) (buffer_norm message_1)).
  apply decode_buffer_eq. unfold buffer_ok, message_1.
  cbn [channel_id audio_session_id audio_chunks audio_codec audio_sample_rate audio_num_channels audio_bytes].
  repeat match goal with |- _ /\ _ => split end; try reflexivity; try discriminate; try lia; try (now right).
  intros c [<-|[]]. split; [repeat split; discriminate|].
  cbn [chunk_tempo]. apply (clamped_tempo_playable (f64_of_int 120)); calc.
Defined.

(** ** Channels *)

Definition addr_a : SocketAddrV4 := MkAddr (MkIpv4 10 0 0 1) 20808.
Definition addr_b : SocketAddrV4 := MkAddr (MkIpv4 10 0 0 2) 20808.
Definition ip_0 : Ipv4Addr := MkIpv4 10 0 0 9.
Definition session_1 : SessionId := MkSessionId node_a.
Definition drums : bytes := [100; 114; 117; 109; 115].

Definition one_channel : Channels :=
  snd (saw_announcement node_a drums session_1 [MkAnnouncement drums channel_a] ip_0 addr_a f64_one 5 0 Channels_new).

Lemma listed_channels_reachable_witness : NoDup (map info_key (known_channels one_channel)).
Proof.
  apply (listed_channels_reachable one_channel). eapply channels_more; [apply channels_refl|].
  eapply (cs_saw Channels_new node_a drums session_1 [MkAnnouncement drums channel_a] ip_0 addr_a f64_one 5 0 true). reflexivity.
Defined.

(** ** Sinks *)

Definition sink_4 : Sink := set_is_connected true (Sink_new drums 4 channel_a).

Lemma sink_4_ok : sink_ok sink_4.
Proof. exact (proj1 (queue_init_ok SINK_QUEUE_SIZE (Buffer_new 4))). Qed.

Lemma commit_queues_buffer_witness :
  fst (commit line_120 node_a f64_zero (f64_of_int 4) 2 2 44100 (write_samples_mut samples_4 (snd (retain_buffer sink_4)))) = true.
Proof.
  pose proof (commit_queues_buffer line_120 node_a f64_zero (f64_of_int 4) 2 2 44100 samples_4 sink_4
    (snd (retain_buffer sink_4)) sink_4_ok eq_refl ltac:(lia) ltac:(lia) ltac:(lia) ltac:(discriminate) ltac:(repeat constructor)) as H.
  destruct (commit _ _ _ _ _ _ _ _) as [ok s]. exact (proj1 H).
Defined.

(** ** Two engines *)

(** One publishes [channel_a], the other subscribes to it. *)
Definition metrics_0 := NetworkMetricsFilter_new (Ch := chrono_ref).

Definition publisher : EngineState :=
  saw_link_audio_endpoint node_b (Some addr_b) (add_sink channel_a drums 4 (EngineState_new node_a session_1 drums ip_0)).

Definition subscriber : EngineState :=
  with_channels one_channel
    (saw_link_audio_endpoint node_a (Some addr_a) (add_source channel_a (EngineState_new node_b session_1 drums ip_0))).

Lemma drums_ok : name_ok drums.
Proof. split; [reflexivity|]. cbn. unfold MAX_NAME_SIZE. lia. Qed.

Lemma publisher_announcing : announcing_ok publisher.
Proof.
  repeat split; try reflexivity; try apply drums_ok. apply Forall_cons. split; [|constructor].
  split; [apply drums_ok|reflexivity].
Qed.

Lemma announced_channel_discovered_witness :
  exists m r' eff, In (m, addr_b) (snd (announce_pass (at_nanos 0) publisher)) /\
    handle_message false m addr_a 0 (at_nanos 0) subscriber = Some (r', eff).
Proof.
  destruct (announced_channel_discovered publisher subscriber (at_nanos 0) (MkPeerReceiver node_b addr_b metrics_0)
    (MkAnnouncement drums channel_a) addr_a false 0 (at_nanos 0) (MkPeerReceiver node_a addr_a metrics_0))
    as (m & r' & eff & H1 & H2 & _).
  - exact publisher_announcing.
  - now left.
  - now left.
  - discriminate.
  - now left.
  - reflexivity.
  - now exists m, r', eff.
Defined.

Lemma request_connects_sink_witness :
  exists m, In (m, addr_a) (channel_requests subscriber).
Proof.
  destruct (request_connects_sink subscriber publisher (MkSourceEntry (MkSource channel_a true) (PcmDecoder_new 4096)) addr_a
    (MkSinkEntry (Sink_new drums 4 channel_a) Receivers_new (Encoder_new channel_a)) addr_b false 0 (at_nanos 0))
    as (m & s' & y & H & _).
  - reflexivity.
  - reflexivity.
  - now left.
  - reflexivity.
  - discriminate.
  - reflexivity.
  - now exists m.
Defined.

Definition entry_4 : SinkEntry := MkSinkEntry sink_4 [MkReceiver node_b (Some addr_b) 5] (Encoder_new channel_a).

Lemma process_entry_sends_witness :
  exists e' ps, process_entry 0 node_a entry_4 = Some (true, e', ps) /\ is_connected (se_sink e') = true.
Proof.
  destruct (process_entry_sends 0 node_a entry_4 sink_4_ok eq_refl) as (e' & E & _ & C & _).
  eexists e', _. split; [exact E|]. exact C.
Defined.

(** ** The life cycle *)

Definition engine_a : Engine := AudioEngine_new ip_0 node_a session_1 drums.

Lemma stale_epoch_dead_witness :
  announce_at 1 (at_nanos 0) (snd (end_locked engine_a)) = (snd (end_locked engine_a), []).
Proof.
  apply (stale_epoch_dead engine_a [] [] (MkMachine (snd (end_locked engine_a)) Unlocked []) 1).
  - apply erun_refl.
  - split; discriminate.
  - reflexivity.
Defined.

(** The socket refuses a message that was still pending. *)
Lemma end_peer_sync_quiet_witness :
  quiet (MkMachine (snd (end_locked engine_a)) Unlocked []).
Proof.
  apply (end_peer_sync_quiet engine_a [(1, ([], addr_b))] [LTau]).
  - eapply (erun_step _ []); [apply erun_refl|]. apply (st_refuse _ _ [] 1 ([], addr_b) []). discriminate.
  - apply Forall_cons. split; [reflexivity|constructor].
Defined.

Definition machine_a : Machine :=
  MkMachine (with_state (add_sink channel_a drums 4 (en_state engine_a)) engine_a) Unlocked [].

Lemma machine_a_reached : engine_run (machine_new ip_0 node_a session_1 drums) [LTau] machine_a.
Proof. eapply (erun_step _ []); [apply erun_refl|]. apply (st_add_sink engine_a [] channel_a drums 4); reflexivity. Qed.

Lemma engine_invariant_witness : Forall hands_out (es_sinks (en_state (engine machine_a))).
Proof. apply (engine_invariant ip_0 node_a session_1 drums [LTau] machine_a); [reflexivity..|exact machine_a_reached]. Defined.

Lemma tasks_terminate_witness : exists en ps, process_at 1 0 (engine machine_a) = Some (en, ps).
Proof.
  apply (tasks_terminate ip_0 node_a session_1 drums [LTau] machine_a 1 0 [] addr_b (at_nanos 0));
    [reflexivity..|exact machine_a_reached].
Defined.

Lemma sharing_follows_switches_witness :
  announced_endpoint (la_enable addr_a (enable_link_audio addr_a true (LinkAudio_new ip_0 node_a session_1 drums))) = Some addr_a.
Proof.
  apply (sharing_follows_switches addr_a ip_0 node_a session_1 drums
    (la_enable addr_a (enable_link_audio addr_a true (LinkAudio_new ip_0 node_a session_1 drums)))).
  eapply rtc_l; [apply la_audio|]. eapply rtc_l; [apply la_on|]. apply rtc_refl.
Defined.

Definition engine_p : Engine := with_state publisher engine_a.

Lemma shutdown_says_goodbye_witness : quiet_state (en_state (fst (shutdown false false engine_p))).
Proof.
  pose proof (shutdown_says_goodbye engine_p (MkPeerReceiver node_b addr_b metrics_0) channel_a eq_refl eq_refl) as H.
  destruct (shutdown false false engine_p) as [en byes]. apply H.
  - apply Forall_cons. split; [reflexivity|constructor].
  - now left.
  - now left.
Defined.

(** ** The gate of the tasks *)

(** A task is in the gate when a shutdown begins; it is turned away, and the
    shutdown takes its leave. *)
Definition td_0 : Teardown := Teardown_new engine_p {[1%nat]}.
Definition td_1 : Teardown := task_wakes 1 td_0.
Definition td_2 : Teardown := enter_gate 1 td_1.
Definition td_3 : Teardown := shutdown_called None td_2.
Definition td_4 : Teardown := shutdown_next true td_3.
Definition td_5 : Teardown := shutdown_next true td_4.
Definition td_6 : Teardown := shutdown_next true td_5.
Definition td_7 : Teardown := shutdown_next true td_6.
Definition td_8 : Teardown := shutdown_next true td_7.
Definition td_9 : Teardown := enter_active_gate 1 td_8.
Definition td_10 : Teardown := turned_away 1 td_9.
Definition td_11 : Teardown := shutdown_next true td_10.
Definition td_12 : Teardown := shutdown_next true td_11.
Definition td_13 : Teardown := shutdown_next true td_12.
Definition td_14 : Teardown := shutdown_next true td_13.

Ltac td_next s c := apply (rtc_l _ _ s); [exact c|].

Lemma td_11_steps : rtc td_step td_0 td_11.
Proof.
  td_next td_1 (TdWakes td_0 1).
  td_next td_2 (TdEnters td_1 1).
  td_next td_3 (TdShutdown td_2 None).
  td_next td_4 (TdShutdownNext td_3 true).
  td_next td_5 (TdShutdownNext td_4 true).
  td_next td_6 (TdShutdownNext td_5 true).
  td_next td_7 (TdShutdownNext td_6 true).
  td_next td_8 (TdShutdownNext td_7 true).
  td_next td_9 (TdActive td_8 1).
  td_next td_10 (TdTurned td_9 1).
  td_next td_11 (TdShutdownNext td_10 true).
  apply rtc_refl.
Qed.

Lemma td_14_steps : rtc td_step td_11 td_14.
Proof.
  td_next td_12 (TdShutdownNext td_11 true).
  td_next td_13 (TdShutdownNext td_12 true).
  td_next td_14 (TdShutdownNext td_13 true).
  apply rtc_refl.
Qed.

Lemma td_11_shutting : shutting td_11 = Some (None, SIds true 50).
Proof. vm_compute. reflexivity. Qed.

Lemma goodbyes_come_last_witness :
  length (wire td_14) = 1%nat /\ from_tasks (wire td_14) = from_tasks (wire td_11) /\
  (forall before p after, wire td_14 = before ++ (FromShutdown, p) :: after -> goodbye p /\ from_tasks after = []).
Proof.
  split; [vm_compute; reflexivity|].
  destruct (goodbyes_come_last engine_p {[1%nat]} td_11 td_14 None (SIds true 50)) as [E G].
  - apply td_11_steps.
  - apply td_11_shutting.
  - apply td_14_steps.
  - split; [apply E|apply G]; now left.
Defined.

Lemma engine_shutdown_returns_witness : exists a, shutting (shutdown_next true td_11) = Some (None, a) /\ fewer a (SIds true 50).
Proof.
  destruct (engine_shutdown_returns engine_p {[1%nat]} td_11 None (SIds true 50) td_11_steps td_11_shutting)
    as (_ & _ & [E|[N|[W _]]]); [discriminate|exact (N true)|discriminate].
Defined.

(** The callback of a source that pauses its engine: it is reached, and stays. *)
Definition calling : Teardown :=
  pause_called 0 (Some 1%nat) (callback_starts 1 (reads_epoch 1 (enter_active_gate 1 (enter_gate 1 td_1)))).
Definition hanging : Teardown := Nat.iter 52 (pause_next 0 true) calling.

Lemma hanging_reached : rtc td_step td_0 hanging.
Proof.
  apply (rtc_l _ _ td_1); [exact (TdWakes td_0 1)|].
  apply (rtc_l _ _ (enter_gate 1 td_1)); [apply TdEnters|].
  apply (rtc_l _ _ (enter_active_gate 1 (enter_gate 1 td_1))); [apply TdActive|].
  apply (rtc_l _ _ (reads_epoch 1 (enter_active_gate 1 (enter_gate 1 td_1)))); [apply TdEpoch|].
  apply (rtc_l _ _ (callback_starts 1 (reads_epoch 1 (enter_active_gate 1 (enter_gate 1 td_1))))); [apply TdCallback|].
  apply (rtc_l _ _ calling); [apply TdPause|]. unfold hanging. generalize 52%nat as n. generalize calling as s.
  intros s n. induction n as [|n IH]; [apply rtc_refl|]. cbn. eapply rtc_r; [exact IH|]. apply TdPauseNext.
Qed.

Lemma pause_in_source_callback_hangs_witness :
  SendGate.tasks hanging !! 1%nat = Some (Calling 1) /\ pausers hanging !! 0%nat = Some (Some 1%nat, PSection false).
Proof.
  apply (pause_in_source_callback_hangs hanging hanging 1 1 0 false); [vm_compute; reflexivity|vm_compute; reflexivity|apply rtc_refl].
Defined.
