(* ===== verification/DiscoveryWitnesses.v ===== *)
(** The theorems on discovery and its lifecycle at concrete inputs: a gate with
    one consumer, a gateway that hears one peer, one interface, and the
    announcement of [peer_b] on its way to [self_a]. *)

From stdpp Require Import base list numbers strings gmap relations.
From Stdlib Require Import ZArith Lia SpecFloat.
From S2P Require Import InterfaceScan IoContext TempoFlow Prelude Chrono F64 Encoding Beats Tempo Timeline GhostXForm Entries Payload Messages Sessions Peers SessionsLoop MeasurementService TimelineSync SessionApi Controller Lifecycle Dispatch Gateway Collections Topology NetworkScan Interfaces Routes MeasurementJob Notifications Messenger Discovery Witnesses.

#[local] Existing Instance canonical_order.

(** ** The dispatch gate *)

Fixpoint run (l : list Action) (g : @Gate nat) : option Gate :=
  match l with [] => Some g | a :: l => let! g' := act a g in run l g' end.

Lemma run_steps l g g' : run l g = Some g' -> rtc gate_step g g'.
Proof.
  revert g. induction l as [|a l IH]; intros g; simpl; [intros [= <-]; apply rtc_refl|].
  destruct (act a g) as [g1|] eqn:E; [|discriminate]. intros R. apply (rtc_l _ g g1); [now exists a|now apply IH].
Qed.

Definition gate_after (l : list Action) : Gate := default DispatchGate_new (run l DispatchGate_new_open).

Lemma gate_after_reachable l : is_Some (run l DispatchGate_new_open) -> reachable (gate_after l).
Proof. intros [g H]. right. apply (run_steps l). unfold gate_after. now rewrite H. Qed.

Ltac runs := apply gate_after_reachable; vm_compute; eexists; reflexivity.

(** A consumer is handed one piece of work. *)
Definition handed : list Action := [Subscribe 1 Channel []; Send 1 7%nat; Poll 1; Poll 1; Poll 1; Poll 1; Receive 1].

Lemma work_never_crosses_lifecycles_witness :
  log (gate_after handed) = [(0, (0, 7%nat))] /\
  (forall e w, (e, w) ∈ log (gate_after handed) -> produced_in w = e) /\
  (forall e now, (e, now) ∈ polls (gate_after handed) -> now = e).
Proof. split; [vm_compute; reflexivity|]. apply (work_never_crosses_lifecycles (gate_after handed)). runs. Defined.

Definition halted : list Action := handed ++ [Poll 1; Close; StopReturns].

Lemma stop_is_acknowledged_witness :
  log (gate_after (halted ++ [Send 1 8%nat])) = log (gate_after halted) /\
  polls (gate_after (halted ++ [Send 1 8%nat])) = polls (gate_after halted).
Proof.
  apply (stop_is_acknowledged (gate_after halted) (gate_after (halted ++ [Send 1 8%nat]))).
  - runs.
  - vm_compute. reflexivity.
  - apply rtc_once. exists (Send 1 8%nat). split; [discriminate|]. vm_compute. reflexivity.
Defined.

Definition listening : list Action := [Subscribe 2 Socket []; Send 2 7%nat].

Lemma opened_socket_loses_nothing_witness :
  exists c', consumers (gate_after (listening ++ [Poll 2])) !! 2%nat = Some c' /\
  forall w, w ∈ [(0, 7%nat)] -> w ∈ queue c' \/ (produced_in w, w) ∈ log (gate_after (listening ++ [Poll 2])).
Proof.
  apply (opened_socket_loses_nothing 2 (gate_after listening) (gate_after (listening ++ [Poll 2]))
    (MkConsumer Socket Top 1 0 [(0, 7%nat)])).
  - runs.
  - vm_compute. reflexivity.
  - vm_compute. reflexivity.
  - reflexivity.
  - discriminate.
  - apply rtc_once. exists (Poll 2). split; [discriminate|]. split; [discriminate|]. vm_compute. reflexivity.
Defined.

Definition restarting : list Action := halted ++ [StartBegin].

Lemma start_can_complete_witness :
  exists g1 g2, rtc poll_step (gate_after restarting) g1 /\ act TryOpen g1 = Some g2 /\ active g2 = Open /\ epoch g2 = 1 /\
  forall id c, consumers (gate_after restarting) !! id = Some c -> phase c <> Gone -> is_Some (consumers g2 !! id).
Proof.
  apply (start_can_complete (gate_after restarting) 1); [runs|vm_compute; reflexivity|vm_compute; reflexivity].
Defined.

(** ** The gateway *)

Definition hears (t : Z) : Announcement := MkAnnouncement (message_of peer_b t) None.
Definition gateway_0 : PeerGateway := PeerGateway_new 0.
Definition gateway_1 : PeerGateway := (publish (hears 2) (secs 2) gateway_0).2.

Lemma gateway_1_published : publish (hears 2) (secs 2) gateway_0 = (true, gateway_1).
Proof. reflexivity. Qed.

Lemma renewed_peer_not_dropped_early_witness :
  exists new, sent (at_time (secs 1) (with_worker (worker gateway_1) true gateway_1)) = sent gateway_1 ++ new /\
  (PeerTimedOut node_b ∈ new -> announced node_b new \/ secs 2 <= secs 1).
Proof.
  apply (renewed_peer_not_dropped_early gateway_0 (hears 2) (secs 2) gateway_1).
  - apply gateway_new_ok.
  - discriminate.
  - reflexivity.
  - apply gateway_1_published.
  - apply rtc_once. apply gs_tick. vm_compute. discriminate.
Defined.

Definition gateway_2 : PeerGateway := schedule_next_pruning (with_worker (worker gateway_1) true gateway_1).

Lemma gateway_2_steps : rtc (fun a b => gateway_step a b /\ lifecycle b <> LStopped) gateway_0 gateway_2.
Proof.
  apply (rtc_l _ _ (with_worker (worker gateway_1) true gateway_1)).
  - split; [|discriminate]. now apply (gs_announce gateway_0 (hears 2) (secs 2) gateway_1).
  - apply rtc_once. split; [now apply gs_schedule|discriminate].
Qed.

Lemma gateway_2_ok : gateway_ok gateway_2.
Proof.
  generalize (gateway_new_ok 0). generalize gateway_2_steps. fold gateway_0. generalize gateway_0.
  intros g St Ok. induction St as [|g g1 g2 [S1 _] _ IH]; [exact Ok|]. apply IH. exact (gateway_step_ok _ _ Ok S1).
Qed.

Lemma silent_peers_time_out_witness :
  exists g', prune_loop 2 gateway_2 = Some g' /\ rtc gateway_step gateway_2 g' /\
  peer_timeouts g' = [] /\ sent g' = sent gateway_2 ++ [PeerTimedOut node_b] /\ 0 <= Gateway.clock g' <= millis 3100.
Proof. apply (silent_peers_time_out gateway_2); [apply gateway_2_ok|reflexivity|reflexivity]. Defined.

Definition observer_0 : Observer := MkObserver (MkRegistry session_a [] [] false (MkSupply 2 3) [] []) [].

Lemma registered_peer_has_deadline_witness : exists deadline, (deadline, node_b) ∈ peer_timeouts gateway_2.
Proof.
  apply (registered_peer_has_deadline self_a gateway_0 gateway_2 observer_0
    (observer_event self_a 0 0 0 true observer_0 (Observed (MkAnnouncement (message_of peer_b 2) (Some (secs 2)))))
    [Observed (MkAnnouncement (message_of peer_b 2) (Some (secs 2)))]).
  - reflexivity.
  - apply gateway_2_steps.
  - reflexivity.
  - reflexivity.
  - apply (handles_snoc self_a []). constructor.
  - left.
Defined.

(** ** Interfaces *)

Lemma lease_ends_with_topology_witness : 6 <> 5.
Proof.
  apply (lease_ends_with_topology Linux [RecvBytes []; RecvAgain] [] 5 6 (Ok 6) 6 [RecvAgain] 6 6);
    try reflexivity; try lia.
  intros [|x [|y a]] b E; [discriminate|injection E; auto|]. injection E as _ _ E. now destruct a.
Defined.

Definition adapter : Ipv4Interface := MkInterface (MkIpv4 192 168 0 2) 4 "en0".
Definition os_ready (i : Ipv4Interface) : SetupOs := MkSetupOs true None true.
Definition scanned : Interfaces * gmap Ipv4Interface SetupError :=
  reconcile_interfaces_locked false false [adapter] LocalIdentity_default 0 os_ready (fun _ => true) ∅ Interfaces_new.
Definition ifaces_1 : Interfaces := scanned.1.
Definition lease_1 : Registration := MkReg 0 adapter false 0 false.

Lemma reconcile_settles_witness : registered ifaces_1 lease_1 /\ registry_ok ifaces_1.
Proof.
  split; [apply elem_of_all_registrations; vm_compute; left|].
  apply (reconcile_settles false false [adapter] LocalIdentity_default 0 os_ready (fun _ => true) ∅ Interfaces_new ifaces_1 scanned.2).
  - apply Interfaces_new_ok.
  - reflexivity.
Defined.

Lemma lease_1_registered : registered ifaces_1 lease_1.
Proof. apply elem_of_all_registrations. vm_compute. left. Qed.

Lemma ifaces_1_ok : registry_ok ifaces_1.
Proof. eapply reconcile_spec; [apply Interfaces_new_ok|]. unfold ifaces_1. apply surjective_pairing. Qed.

(** A change of the network, and the pass it wakes. *)
Definition changed_network : Scanner := network_changes [] (Scanner_new 0 Interfaces_new).
Definition scanned_network : Scanner :=
  pass Linux 0 [adapter] LocalIdentity_default false os_ready (fun _ => true) changed_network.

Lemma scanned_network_steps : rtc (scan_step Linux) (Scanner_new 0 Interfaces_new) scanned_network.
Proof.
  apply (rtc_l _ _ changed_network); [now apply ScNetwork|]. unfold scanned_network, pass.
  eapply rtc_l; [apply (ScPrune _ _ None 0); vm_compute; reflexivity|].
  eapply rtc_l; [apply (ScFirst _ _ None); vm_compute; reflexivity|].
  eapply rtc_l; [apply (ScSnapshot _ _ [adapter] LocalIdentity_default)|].
  eapply rtc_l; [apply (ScSecond _ _ None); vm_compute; reflexivity|].
  apply rtc_once, ScReconcile. vm_compute. reflexivity.
Qed.

Lemma scan_rests_on_current_network_witness :
  (exists a, applied scanned_network = Some a /\ shows a = network scanned_network /\ applied_gen a = InterfaceScan.epoch scanned_network) /\
  network scanned_network = 1.
Proof.
  destruct (scan_rests_on_current_network Linux 0 Interfaces_new scanned_network 0 [adapter] LocalIdentity_default
    false os_ready (fun _ => true)) as (_ & Rest & _); [lia|apply Interfaces_new_ok| |apply scanned_network_steps|].
  - intros r R. apply elem_of_all_registrations in R. inversion R.
  - split; [|vm_compute; reflexivity]. exists (MkApplied 1 [adapter] 1). split; [vm_compute; reflexivity|].
    destruct (Rest ltac:(vm_compute; reflexivity) (MkApplied 1 [adapter] 1) ltac:(vm_compute; reflexivity)) as [_ [E|E]];
      [exact E|]. vm_compute in E. discriminate E.
Defined.

Definition ifaces_2 : Interfaces := remove_interface_locked true adapter ifaces_1.

Lemma lease_dies_with_registration_witness :
  let again := fst (add_interface_locked adapter false 0 false LocalIdentity_default (os_ready adapter) ifaces_2) in
  while_current again None lease_1 = false /\ send_registered again None true lease_1 = Err LeaseInvalid.
Proof.
  apply (lease_dies_with_registration ifaces_1 ifaces_2).
  - apply ifaces_1_ok.
  - apply lease_1_registered.
  - apply rtc_once, is_remove.
  - intros (r & R & _). apply elem_of_all_registrations in R. vm_compute in R. inversion R.
  - apply rtc_once, is_add.
Defined.

Lemma ingress_is_scoped_witness :
  socket_for_ingress ifaces_1 4 (IpV4 (MkIpv4 192 168 0 2)) (IpV4 (MkIpv4 192 168 0 9)) = Some lease_1 /\
  match socket_for_ingress ifaces_1 4 (IpV4 (MkIpv4 192 168 0 2)) (IpV4 (MkIpv4 192 168 0 9)) with
  | Some e => (registered ifaces_1 e /\ if_idx (identity e) = 4 /\ reg_id e ∉ cancelled ifaces_1) /\
      (forall r, registered ifaces_1 r /\ if_idx (identity r) = 4 /\ reg_id r ∉ cancelled ifaces_1 ->
         IpV4 (if_addr (identity r)) = IpV4 (MkIpv4 192 168 0 2) -> IpV4 (if_addr (identity e)) = IpV4 (MkIpv4 192 168 0 2))
  | None => forall r, ~ (registered ifaces_1 r /\ if_idx (identity r) = 4 /\ reg_id r ∉ cancelled ifaces_1)
  end.
Proof.
  split; [vm_compute; reflexivity|].
  apply (ingress_is_scoped canonical_order canonical_order ifaces_1 4).
  - apply ifaces_1_ok.
  - intros r R. apply elem_of_all_registrations in R. vm_compute in R. inversion R as [? ?|? ? ? H]; subst; [|inversion H].
    repeat split; vm_compute; congruence.
  - intros r r' R R' _. apply elem_of_all_registrations in R, R'. vm_compute in R, R'.
    inversion R as [? ?|? ? ? H]; subst; [|inversion H]. inversion R' as [? ?|? ? ? H]; subst; [|inversion H]. reflexivity.
Defined.

(** ** The messenger *)

Definition hint_1 : RouteHint := MkHint 2000 100 lease_1.
Definition endpoint_1 : SocketAddrV4 := MkAddr (MkIpv4 192 168 0 7) 20809.

Lemma no_hints_ok : routes_ok ∅.
Proof.
  split; [rewrite map_size_empty; unfold MAX_MEASUREMENT_ROUTES; lia|]. intros peer. unfold peer_count.
  rewrite map_to_list_empty. unfold MAX_ROUTES_PER_PEER. simpl. lia.
Qed.

Lemma newest_route_wins_witness :
  let m := record_received_locked ifaces_1 None 100 node_b (Some endpoint_1) hint_1 false ∅ in
  m !! (node_b, endpoint_1) = Some hint_1 /\
  (m !! (node_b, endpoint_1) = Some hint_1 -> 1999 < 2000 -> snd (resolve_async ifaces_1 None 1999 node_b (Some endpoint_1) m) = Some lease_1).
Proof.
  destruct (newest_route_wins ifaces_1 None 100 node_b endpoint_1 hint_1 ∅ 1999) as [H1 H2];
    [apply no_hints_ok|vm_compute; reflexivity|reflexivity|].
  assert (sweep ifaces_1 None 100 ∅ !! (node_b, endpoint_1) = None) as E by (vm_compute; reflexivity). rewrite E in H1.
  split; [exact H1|exact H2].
Defined.

Definition messenger_0 : MessengerState := Messenger_new ifaces_1 100.
Definition messenger_1 : MessengerState := loop_starts 0 messenger_0.
Definition context_a : Context := MkContext self_a 0 true.

Lemma messenger_bounded_in_order_witness : (base.size (hints messenger_1) <= 1024)%nat.
Proof.
  apply (messenger_bounded_in_order ifaces_1 100 messenger_1). apply rtc_once. now apply ms_starts.
Defined.

Lemma messenger_1_ok : messenger_ok messenger_1.
Proof.
  apply (messenger_step_ok messenger_0); [apply Messenger_new_ok|now apply ms_starts].
Qed.

Definition byebye_header : MessageHeader := MkHeader BYEBYE 0 0 node_b.

Lemma superseded_never_delivered_witness :
  let s := queue_peer_state_guarded None 100 100 100 0 byebye_header [] lease_1 messenger_1 in
  exists new, tx_event s = tx_event messenger_1 ++ new /\
  Forall (fun x => announcer (snd x) = node_b -> (0 <= fst x)%nat) new.
Proof.
  apply (superseded_never_delivered None 100 100 100 0 byebye_header [] lease_1 messenger_1 _
    (MkAnnouncement (MkPeerMessage (from_payload node_b []) 0 None None) (Some 100))).
  - apply messenger_1_ok.
  - reflexivity.
  - apply rtc_refl.
Defined.

Definition broadcaster_0 : Broadcaster := MkBroadcaster (millis 100) 0 (millis 100) [].

Lemma broadcasts_are_spaced_witness :
  exists b, spaced min_broadcast_period (bc_sent b) /\ bc_sent b = [millis 100; millis 201].
Proof.
  eexists. split; [|shelve].
  apply (broadcasts_are_spaced 2 20 (millis 100) 0 (millis 100)); [vm_compute; discriminate|].
  eapply rtc_l; [apply (bs_wake 2 20 broadcaster_0 (millis 100) true (Some true) (millis 1)); vm_compute; discriminate|].
  apply rtc_once. apply (bs_wake 2 20 _ (millis 201) true (Some true) 0); vm_compute; discriminate.
  Unshelve. vm_compute. reflexivity.
Defined.

Lemma peer_b_ok : peer_state_ok peer_b.
Proof.
  split; [reflexivity|].
  split; repeat (constructor; [|]); try constructor; vm_compute; repeat constructor; try discriminate; eauto.
Qed.

Definition alive_b : bytes :=
  match encode_message node_b 2 ALIVE (payload_of_peer_state peer_b) 0 with Ok b => b | Err _ => [] end.

Lemma only_valid_datagrams_count_witness :
  exists entry header len, Some lease_1 = Some entry /\ parse_message_header alive_b = Ok (header, len) /\
    message_type header <> INVALID /\ message_type header < 4 /\
    (header_ident header = node_a -> group_id header <> 0) /\
    (message_type header <> BYEBYE -> true = true /\ exists p, parse_payload (drop len alive_b) = Some (Ok p)).
Proof.
  apply (only_valid_datagrams_count context_a None 100 100 100 0 alive_b (Some lease_1) messenger_1).
  intros E. apply (f_equal (fun s => next_rev (revs s))) in E. vm_compute in E. discriminate.
Defined.

Lemma announcement_reaches_registry_witness :
  let m := MkAnnouncement (message_of (heard_state peer_b) 2) (Some (100 + secs 2)) in
  exists b, encode_message node_b 2 ALIVE (payload_of_peer_state peer_b) 0 = Ok b /\
  (exists rev, tx_event (delivery_commit None None 100 100 0 (delivery_take 0
     (observe_discovery_guarded context_a None 100 100 100 0 b (Some lease_1) messenger_1))) = [(rev, m)]) /\
  MkPeer (heard_state peer_b) ∈ peers (registry (observer_event self_a 100 100 100 true observer_0 (Observed m))).
Proof.
  destruct (announcement_reaches_registry peer_b ALIVE 2 0 peer_b_ok (or_introl eq_refl) ltac:(lia) ltac:(lia)) as (b & E & H).
  exists b. split; [exact E|].
  assert (handoffs messenger_1 !! 0%nat = Some []) as Hq by apply lookup_insert_eq.
  assert (taken messenger_1 !! 0%nat = None) as Ht by apply lookup_delete_eq.
  assert (while_current (ifs messenger_1) None lease_1 = true) as Cur by (vm_compute; reflexivity).
  assert (100 < 100 + secs 2) as Lt by reflexivity.
  assert (peers_ok node_a []) as Po by (split; [constructor|apply not_elem_of_nil]).
  destruct (H context_a messenger_1 0%nat lease_1 None None 100 100 100 100 100 gateway_0 100 100 100 observer_0 100 100 100
    messenger_1_ok Hq Ht eq_refl ltac:(discriminate) Cur Lt Lt Lt Lt Lt Lt Lt Po) as ((rev & T & _) & _ & _ & P & _).
  split; [exists rev; exact T|exact P].
Defined.

(** ** Measurements *)

Lemma measurement_ends_witness :
  let j := Job_start (MkSessionId node_a) (at_nanos 100) true in
  (1 <= 19)%nat /\
  (outcome (with_outcome Aborted j) = Waiting -> exists j', job_step (with_outcome Aborted j) j' /\
     (timer j' <> timer (with_outcome Aborted j) \/ exists s, outcome j' = Published s)) /\
  (forall s, outcome (with_outcome Aborted j) = Published s -> s = [] \/ (20 < length s)%nat).
Proof.
  apply (measurement_ends (MkSessionId node_a) (at_nanos 100) true 1). apply (run_driving 0 _ (with_outcome Aborted (Job_start (MkSessionId node_a) (at_nanos 100) true))).
  - now apply js_abort.
  - right. discriminate.
  - apply run_nil.
Defined.

(** Two measurements of [node_b]: the first ends after the second has started. *)
Definition dispatching_2 : Dispatching := drop_registration 0 (register node_b 0 endpoint_1 (keep_measurement 0 (register node_b 0 endpoint_1 Dispatching_new))).

Lemma registrations_do_not_leak_witness :
  pong_dispatch dispatching_2 !! (0%nat, endpoint_1) = Some 1%nat /\ exists node, owners dispatching_2 !! 1%nat = Some (node, (0%nat, endpoint_1)).
Proof.
  split; [vm_compute; reflexivity|]. apply (registrations_do_not_leak dispatching_2); [|vm_compute; reflexivity].
  eapply rtc_l; [apply (ds_register _ node_b 0 endpoint_1)|]. eapply rtc_l; [apply (ds_keep _ 0)|].
  eapply rtc_l; [apply (ds_register _ node_b 0 endpoint_1)|]. apply rtc_once, (ds_drop _ 0).
Defined.

(** ** Callbacks *)






(** A callback is registered, and told by the dispatch that follows. *)
Definition flow_0 : Flow := Flow_new commit_0.
Definition flow_1 : Flow := with_notes (TempoChanges.set_registration 7 (TempoFlow.seen flow_0)) flow_0.
Definition flow_2 : Flow := with_notes (TempoChanges.dispatch true TempoChanges.all_free (TempoFlow.seen flow_1)) flow_1.
Definition flow_3 : Flow := with_notes (TempoChanges.select_tempo TempoChanges.all_free (TempoFlow.seen flow_2)) flow_2.

Lemma flow_3_reached : rtc flow_step flow_0 flow_3.
Proof.
  apply (rtc_l _ _ flow_1); [apply FlRegister|]. apply (rtc_l _ _ flow_2); [apply FlDispatch|]. apply rtc_once, FlSelect.
Qed.

Lemma session_tempo_reaches_callback_witness :
  TempoChanges.registration (TempoFlow.notes flow_3) = Some 7%nat /\
  TempoChanges.registration (TempoChanges.retry TempoChanges.all_free true
    (TempoChanges.finish TempoChanges.all_free true (TempoFlow.seen flow_3))) = None.
Proof.
  split; [reflexivity|].
  destruct (session_tempo_reaches_callback tempo_120 (seconds 5) (seconds 5) node_a supply_0 flow_3 7) as (_ & _ & T).
  - exact flow_3_reached.
  - apply (T eq_refl eq_refl).
Defined.

(** ** Sessions and their measurements *)

Definition loop_0 : SessionsLoop := SessionsLoop_new session_a [MkPeer peer_b] (MkSupply 2 3) (seconds 1).
Definition loop_1 : SessionsLoop := sight (state_session_id peer_b) (peer_timeline peer_b) true loop_0.

Lemma no_session_orphaned_witness :
  exists s, other_sessions (SessionsLoop.reg loop_1) = [session_a; s] /\ incarnation s = 2 /\ token loop_1 (Session_key s).
Proof.
  destruct (no_session_orphaned session_a [MkPeer peer_b] (MkSupply 2 3) (seconds 1) loop_1) as [C _].
  - reflexivity.
  - reflexivity.
  - discriminate.
  - discriminate.
  - apply rtc_once. apply (ls_sight loop_0).
  - eexists. split; [reflexivity|]. split; [reflexivity|]. apply C; [right; left|reflexivity].
Defined.

(** The service takes up the request for the peer just seen, which has announced
    no measurement endpoint. *)
Definition service_1 : Service := with_inbox (requests (SessionsLoop.reg loop_1)) (Service_new true).

Lemma service_refines_witness :
  exists l, rtc loop_step loop_1 l /\ jobs l = [] /\
  exists k, results l = [MXForm k GhostXForm_default].
Proof.
  destruct (service_refines loop_1 service_1 (answer (take_request service_1))) as (l & R & [_ J A]).
  - constructor; cbn; repeat constructor.
  - constructor; reflexivity.
  - eapply rtc_l; [apply SvTake|]. apply rtc_once, SvAnswer.
  - exists l. split; [exact R|]. split; [now apply Permutation_nil_r in J|]. eexists. rewrite A. reflexivity.
Defined.

Definition service_2 : Service :=
  take_request (with_inbox [MPeerState (Session_key session_a) peer_b] (Service_new false)).

Lemma requests_answered_once_witness :
  exists s, rtc own_step service_2 s /\ map fst (MeasurementService.taken s) ≡ₚ map event_key (MeasurementService.sent s).
Proof.
  destruct (requests_answered_once false service_2) as [_ Own].
  destruct Own as (_ & s & R & _ & _ & _ & E).
  - eapply rtc_l; [right; exact (ClRequest (Service_new false) (Session_key session_a) peer_b eq_refl)|].
    apply rtc_once. left. apply SvTake.
  - exists s. split; [exact R|exact E].
Defined.

(** ** The lifecycle *)

Definition lifecycle_0 : Lifecycle.Controller := new_controller commit_0.
Definition inputs_9 : OpInputs := MkInputs (seconds 9) (seconds 9) node_a true.

(** Stopping a gate nobody is behind. *)
Lemma stop_idle_gate c g rest :
  plan c = Lifecycle.Close g :: Drained g :: rest -> (forall h, permits (gates c h) = 0%nat) ->
  exists c', rtc controller_step c c' /\ plan c' = rest /\ commit c' = commit c /\ forall h, permits (gates c' h) = 0%nat.
Proof.
  intros P Z. set (c1 := with_plan (Drained g :: rest) (set_state g Lifecycle.Closed c)).
  assert (forall h, permits (gates c1 h) = 0%nat) as Z1.
  { intros h. simpl. destruct (decide (h = g)); [apply Z|apply Z]. }
  exists (with_plan rest c1). split; [|split; [reflexivity|split; [reflexivity|exact Z1]]].
  eapply rtc_l; [exact (st_op c _ _ inputs_9 _ P eq_refl)|]. apply rtc_once.
  apply (st_op c1 (Drained g) rest inputs_9); [reflexivity|]. cbn [op_step]. now rewrite Z1.
Qed.

(** An [enable] runs up to its reset. *)
Lemma enable_to_reset s :
  exists c rest, rtc controller_step (new_controller s) c /\ plan c = ResetState :: rest /\ commit c = with_counter s 0.
Proof.
  destruct (stop_idle_gate (enable (new_controller s)) Measurements _ eq_refl (fun _ => eq_refl)) as (c1 & R1 & P1 & C1 & Z1).
  destruct (stop_idle_gate c1 Lifecycle.Discovery _ P1 Z1) as (c2 & R2 & P2 & C2 & Z2).
  destruct (stop_idle_gate c2 Loops _ P2 Z2) as (c3 & R3 & P3 & C3 & _).
  pose proof (st_op c3 _ _ inputs_9 _ P3 eq_refl) as Last.
  eexists (with_plan _ (with_commit _ c3)), _. split; [|split; [reflexivity|]].
  - eapply rtc_l; [now apply st_enable|]. etrans; [exact R1|]. etrans; [exact R2|]. etrans; [exact R3|exact (rtc_once _ _ Last)].
  - simpl. now rewrite C3, C2, C1.
Qed.

Lemma lifecycle_is_orderly_witness :
  exists c rest, plan c = ResetState :: rest /\ coherent (commit c) /\
  forall g, state (gates c g) = Lifecycle.Closed /\ permits (gates c g) = 0%nat.
Proof.
  destruct (enable_to_reset commit_0) as (c & rest & R & P & _). exists c, rest.
  destruct (lifecycle_is_orderly tempo_120 (seconds 5) (seconds 5) node_a supply_0 c R) as (Co & _ & Due).
  destruct (Due rest P) as (_ & _ & G). exact (conj P (conj Co G)).
Defined.

Lemma disabled_node_is_alone_witness :
  exists s, (reset (with_counter commit_0 0) (seconds 9) (seconds 9) node_a).2 = s /\ alone s.
Proof.
  assert (is_ok (reset (with_counter commit_0 0) (seconds 9) (seconds 9) node_a).1 = true) as Ok1 by calc.
  destruct (enable_to_reset commit_0) as (c & rest & R & P & C).
  destruct (reset (with_counter commit_0 0) (seconds 9) (seconds 9) node_a) as [[ch|e] s] eqn:E; [|discriminate Ok1].
  exists s. split; [reflexivity|]. rewrite <- C in E.
  exact (disabled_node_is_alone commit_0 c rest (seconds 9) (seconds 9) node_a ch s (with_plan rest (with_commit s c)) R P E (rtc_refl _ _)).
Defined.

Lemma lifecycle_completes_witness :
  exists c', rtc controller_step lifecycle_0 c' /\ plan c' = [] /\ Lifecycle.enabled c' = true /\ forall g, state (gates c' g) = Lifecycle.Open.
Proof. apply (lifecycle_completes commit_0 lifecycle_0 inputs_9); [apply rtc_refl|reflexivity]. Defined.

(** ** The thread *)

(** A request for priority, a task, and a shutdown by that very task. *)
Definition io_0 : @Io unit unit := Io_started 61.
Definition io_1 := IoContext.set_priority 1 true io_0.
Definition io_2 := IoContext.poll_main io_1.
Definition io_3 := IoContext.look_for_stop io_2.
Definition io_4 := IoContext.serve 61 (Ok tt) (Ok tt) io_3.
Definition io_5 := IoContext.spawn 7 io_4.
Definition io_6 := IoContext.look_for_stop io_5.
Definition io_7 := IoContext.serve 61 (Ok tt) (Ok tt) io_6.
Definition io_8 := IoContext.poll_task 7 io_7.
Definition io_9 := IoContext.shutdown true true io_8.
Definition io_10 := IoContext.poll_ends false io_9.
Definition io_11 := IoContext.poll_main io_10.
Definition io_12 := IoContext.look_for_stop io_11.
Definition io_13 := IoContext.drop_task 7 io_12.
Definition io_14 := IoContext.runtime_dropped io_13.
Definition io_15 := IoContext.restore (Ok tt) io_14.
Definition io_16 := IoContext.close_receiver io_15.
Definition io_17 := IoContext.join_returns io_16.

Ltac io_next s c := apply (rtc_l _ _ s); [c|].
Ltac io_runs := (vm_compute; discriminate) || (vm_compute; reflexivity).

Ltac io_task := change (7%nat ∈ ({[7%nat]} ∪ ∅ : gset nat)); set_solver.

Lemma io_9_steps : rtc (io_step 61) io_0 io_9.
Proof.
  io_next io_1 ltac:(right; apply (IoRequest io_0 1 true); reflexivity).
  io_next io_2 ltac:(left; apply (IoMain 61 io_1 61); io_runs).
  io_next io_3 ltac:(left; apply (IoLook 61 io_2); io_runs).
  io_next io_4 ltac:(left; apply (IoServe 61 io_3 (Ok tt) (Ok tt)); io_runs).
  io_next io_5 ltac:(right; apply (IoSpawn io_4 7)).
  io_next io_6 ltac:(left; apply (IoLook 61 io_5); io_runs).
  io_next io_7 ltac:(left; apply (IoServe 61 io_6 (Ok tt) (Ok tt)); io_runs).
  io_next io_8 ltac:(left; apply (IoPoll 61 io_7 7 60); [io_runs|io_runs|io_task]).
  io_next io_9 ltac:(right; apply (IoShutdownInside io_8 true); exact I).
  apply rtc_refl.
Qed.

Lemma io_17_steps : rtc (io_step 61) io_9 io_17.
Proof.
  io_next io_10 ltac:(left; apply (IoPolled 61 io_9 60 7 false); io_runs).
  io_next io_11 ltac:(left; apply (IoMain 61 io_10 60); io_runs).
  io_next io_12 ltac:(left; apply (IoLook 61 io_11); io_runs).
  io_next io_13 ltac:(left; apply (IoDropTask 61 io_12 7); [io_runs|io_runs|io_task]).
  io_next io_14 ltac:(left; apply (IoDropped 61 io_13); io_runs).
  io_next io_15 ltac:(left; apply (IoRestore 61 io_14 (Ok tt)); io_runs).
  io_next io_16 ltac:(left; apply (IoClose 61 io_15); io_runs).
  io_next io_17 ltac:(left; apply (IoJoin 61 io_16); [io_runs|right; reflexivity]).
  apply rtc_refl.
Qed.

Lemma io_thread_leaves_nothing_witness :
  IoContext.thread io_17 = Joined /\ IoContext.os_calls io_17 = [Promoted tt; Demoted tt true] /\
  undone (IoContext.os_calls io_17) None /\ forall r, IoContext.replies io_17 !! r <> Some None.
Proof.
  destruct (io_thread_leaves_nothing 61 io_17) as (_ & E & _).
  - transitivity io_9; [apply io_9_steps|apply io_17_steps].
  - destruct E as (_ & _ & _ & U & R); [reflexivity|]. split; [reflexivity|]. split; [reflexivity|]. now split.
Defined.

Lemma io_shutdown_returns_witness :
  Acc (IoContext.turn 61) io_9 /\ IoContext.pc io_17 = Ended /\
  ((exists s, io_internal 61 io_17 s) \/ IoContext.pc io_17 = Ended /\ (IoContext.thread io_17 = Joined \/ IoContext.thread io_17 = Detached)).
Proof.
  destruct (io_shutdown_returns 61 io_9 io_9_steps) as [A T]; [reflexivity|].
  split; [exact A|]. split; [reflexivity|]. exact (T _ io_17_steps).
Defined.
